(* ===== verification/_CoqProject ===== *)
-Q . S2P
Prelude.v
Effects.v
Concurrency.v
GoErrors.v
GoTime.v
Encoding.v
Uuid.v
Sha256.v
AesGcm.v
Events.v
Canonical.v
Json.v
JsonFacts.v
Decode.v
DecodeWalk.v
Utf8.v
JsonText.v
DecodeSpec.v
DecodeRoundTrip.v
EventLimits.v
Metrics.v
Handler.v
HandlerSpec.v
Durable.v
Protection.v
Intake.v
Gateway.v
AcceptanceRepo.v
PgTypes.v
SecurityTypes.v
Authentication.v
Ownership.v
AuthState.v
TokenRows.v
TokenSchema.v
AuthSchema.v
Lifecycle.v
LifecycleRepo.v
LifecycleSpec.v
LifecycleStore.v
Resolver.v
ResolverStore.v
Rotation.v
RotationHistory.v
Migrations.v
MigrationSpec.v
RowSchema.v
MigrationStore.v
MigrationPool.v
GoDuration.v
Startup.v
StartupSpec.v
