(* ===== verification/Prelude.v ===== *)
(** * A verification of the MS On-Call Gateway

    The gateway accepts alert events over HTTP, authenticates the sender,
    protects the event with authenticated encryption and records it durably,
    once per delivery identity, in PostgreSQL. The program is the Go module
    under src/; this library models its core and proves it correct.

    ** The program and its model

    A Go function without effects is a Rocq function. A function that calls
    out (database, clock, random source, another component, [ctx.Err()]) is a
    program of the free monad of Effects.v: [Ret] or an external call with a
    continuation for every answer. [runs] is its set of executions under
    arbitrary answers, so a theorem about [runs] covers every failure and
    every cancellation. [interp] plugs the implementation of a component into
    its client, exactly as the constructors in the Go code do. Concurrency.v
    interleaves the calls of any number of such programs over a shared state
    ([pool_step], [pool_trace]) and has a rely-guarantee logic ([wp]) for
    them. Errors are trees (GoErrors.v) on which [errors.Is], [errors.As] and
    [errors.Unwrap] are functions; a nil pointer or nil interface is a case of
    its own. Identifiers are byte arrays of fixed length, times are
    nanoseconds since year 1 (with their location and monotonic reading in the
    one struct that the code compares with [==]), and integers that can wrap are reduced modulo
    their width.

    Recursion that is not structural carries fuel: the traversal of error
    chains (64, the code's own bound), the JSON grammar and the streaming walk
    over it (twice the length of the text, plus two or three), the loops over
    the runes of a text, the fields of a query and the parts of a duration
    (the length of the text), and the migration loop (the number of
    migrations). That it is enough is proved: [consume_terminates],
    [decodeEvent_decides], [parseComponents_fuel] and
    [migrations_terminate]; the loops over runes consume a byte per step.

    - Prelude, Effects, Concurrency: bytes and arrays; programs, executions,
      protocols; thread pools.
    - GoErrors, GoTime, Encoding, Uuid, Sha256, AesGcm: the parts of the Go
      library the code uses (error trees, [time.Time], base64, hex, UTF-8,
      decimal numbers, SHA-256, HMAC, AES-256-GCM) and the UUID text forms of
      durable/types.go and securitystate/types.go.
    - Events, Canonical: httpapi/types.go and canonical.go. The canonical JSON
      form of an event and its digest.
    - Json, JsonFacts, Utf8, JsonText: what decode.go uses of encoding/json and
      unicode/utf8: the grammar of values, the tokens of [Decoder], [Unmarshal]
      into a map of raw members and into a string, [TrimSpace], runes.
    - Decode: httpapi/decode.go. The strict event decoder. DecodeWalk compares
      its walk with the grammar; DecodeSpec has the reference decoder over the
      syntax tree; DecodeRoundTrip the round trip with the canonical form;
      EventLimits the limits of a decoded event, spelled out.
    - Metrics, Handler, HandlerSpec: httpapi/metrics.go and handler.go. The
      counters, routing, the checks of a webhook request, the hand-over to the
      sink and the responses.
    - Durable: durable/types.go, store.go. Validation and the decision new,
      duplicate or conflict; [repo_step] is the contract of the repository.
    - Protection: protection/. Additional data, sealing and opening over an
      AEAD interface ([AEADLaws]), instantiated by AES-256-GCM.
    - Intake: intake/service.go. The acceptance pipeline.
    - Gateway: intake over protection over the durable store over the table
      of accepted deliveries, and the abstract ledger it refines.
    - AcceptanceRepo: postgres/acceptance.go. The insert-or-load transaction.
    - SecurityTypes: securitystate/types.go, destination_verifier.go.
      Identifiers, tokens, credentials, their lifecycle history and windows.
    - Authentication: authentication/. Request parsing, the signed text,
      [Authenticate].
    - Ownership: the memory behind the slices that the constructors and
      accessors of durable, protection, securitystate, authentication and
      httpapi take and return. The other files model a slice by its contents;
      this one shows that they may.
    - PgTypes: the [timestamptz] values of the driver.
    - AuthState: postgres/authentication_state.go. The registries and the
      replay store in PostgreSQL, and authentication composed with them.
    - TokenRows, TokenSchema: the rows of destinations and tokens
      (destination_token_lifecycle.go, destination_resolver.go) and the
      constraints of the token table (migrations/000002).
    - AuthSchema: the other tables of migrations/000002 that authentication
      uses, with their checks, keys and references, the statements of
      authentication_state.go over them, and the repository over a database
      that satisfies its schema. RowSchema: the checks of migrations/000001
      and of gateway_destinations.
    - Lifecycle: securitystate/destination_lifecycle.go. Snapshots, commands
      and the service; the five phases of a destination.
    - LifecycleRepo: postgres/destination_token_lifecycle.go. The mutations
      and inspections, transaction by transaction.
    - LifecycleSpec: the abstract meaning of the commands on phases
      ([lifecycle_next]) and the decisions of the repository.
    - LifecycleStore: the meaning of the statements over the token table, and
      the repository over it.
    - Resolver, ResolverStore: postgres/destination_resolver.go, alone and
      over the token table.
    - Rotation, RotationHistory: destination_rotation_participant.go, and what
      it observes of the commands of the lifecycle.
    - Migrations, MigrationSpec, MigrationStore, MigrationPool:
      postgres/migrations.go, inspect.go, runner.go, pgbackend.go. The embedded
      files, the inspection, the migration loop and the lock connection; its
      protocol; the run over the metadata table; concurrent gateways of
      different releases over one database.
    - GoDuration: [time.ParseDuration].
    - Startup, StartupSpec: postgres/config.go, startup.go and main.go. The
      connection policy, opening and preparing the database, the process.

    ** What the theorems show

    - End to end: concurrent requests for one delivery obtain one receipt and
      one event ([gateway_idempotent]); the composed pipeline refines an
      abstract ledger ([gateway_refines_ledger]); a request is never
      authenticated twice, against the interface of the replay store
      ([Authenticate_no_replay]) and over the database
      ([authenticate_stack_no_replay]); a raw token resolves to a destination
      exactly while it is its usable active or retiring token
      ([resolution_follows_lifecycle], [usable_token_resolves]).
    - Memory: [slices_refine_values]. A client that keeps every slice it
      passed or received, and writes to it at any time, sees the behaviour of
      the models over contents, since every constructor and accessor copies.
    - The HTTP side: [handler_enqueues_valid] (only valid deliveries reach the
      sink, 202 means accepted), [handler_replies_once], [handler_decides],
      [metrics_count_requests]; the decoder is equal to its reference
      ([decodeEvent_decides], [validateJSONObject_decides]), its events are
      typed ([decodeEvent_typed]) and it inverts the canonical encoder
      ([decodeEvent_roundtrip]).
    - Start-up: [migration_contract] (each migration once, in order, with its
      record in one transaction, under the lock), [migrations_once] (the same
      of all concurrent processes together), [migration_connection],
      [migrations_terminate], [classifySnapshot_decides],
      [loadMigrations_decides]; [startup_pool] (the pool and the server),
      [ParsePoolConfig_decides], [ParseStartupTimeout_bounds],
      [startup_failures].
    - Interfaces discharged: [InsertOrLoad_contract],
      [Reserve_implements_replay_store] and [lifecycle_contract] prove that
      the transactions implement the contracts their clients are verified
      against, under interference of other sessions and with every call
      failing at will. [lifecycle_invariant]: every history of commands keeps
      every destination in one of the five phases.
    - Decisions: [Accept_decides], [intake_Accept_decides], [Prepare_sound],
      [Authenticate_sound], [Authenticate_complete], [state_reads_sound],
      [lifecycle_decisions], [snapshot_classifies], [resolver_decides] say
      when each operation succeeds and with what.
    - Schema: [schema_agrees] (the schema and the code accept the same token
      rows, up to the 90 days of the lifetime constraint, which are days of the
      calendar of the session's time zone and not 90 times 24 hours),
      [schema_reads] (over tables that satisfy every constraint, the repository
      returns what is stored and never reports corruption) and
      [written_rows_admitted] (migrations, acceptances and destinations satisfy
      the checks of their tables).
    - Rotation: [rotation_begin_accounts] and [one_time_token] (no token is
      lost or leaked), [rotation_end_guarded] (a rotation ends only from its
      overlap and on the right side of its deadline),
      [rotation_history_observed] (every end is recognised from its rows,
      except a finalization before the deadline, which is seen as a conflict).
    - Injectivity and round trips: canonical form, additional data, signed
      text, verifiers, identifiers, tokens, protected digests, database rows.
      Where a hash is involved the alternative is an explicit collision.
    - Resources: pooled connections are given back exactly once
      ([InsertOrLoad_connection], [state_connections],
      [lifecycle_connections], [resolver_connections]).
    - Errors: each component fails with its own fixed errors only.
    - Bounds: the windows of credentials and tokens, the time window of a
      request, the retention of a reservation.

    ** Assumptions

    The external code is represented by its answers. What is assumed of it is
    stated where it is used: the AEAD laws of the cipher (as hypotheses, with
    AES-256-GCM as the instance), the meaning of the SQL statements
    ([sql_step], [insert_step], [state_step], [lc_sql], [served_by],
    [md_step]), the uniqueness of the public id of a credential and of a
    token's verifier, and the exclusion the advisory lock gives ([md_rely],
    [fleet_step]). Which failed statements and commands had no effect is stated
    of the errors themselves ([statement_refused], [not_committed]), not through
    the classification in the code. The time zone of a session is a parameter
    ([Zone]); [lifecycle_contract], [lifecycle_invariant] and [schema_reads]
    assume that its 90 days are at most 90 times 24 hours ([ShortDays]), and
    [schema_reads] is about a realm with its row and about finite instants other
    than Go's zero time. Map iteration order is a parameter, and so are
    [mime.ParseMediaType], [strconv.Quote], [url.Parse] and the driver's
    [ParseConfig]: nothing is assumed of them. SHA-256, HMAC and AES are
    computed, and validated against the vectors of the tests.

    ** Not modelled

    The HTTP server of the standard library (connections, timeouts, the
    cancellation of requests when it shuts down), signals and the exit of the
    process; the log beyond the calls that write to it. Accessors that return
    a field without copying are the fields of the records; the redacting
    formatters, which write one constant, are not represented. Slices other
    than those of Ownership (the buffers inside a function, the arguments
    given to the driver and to the cipher) are modelled by their contents. *)

From Stdlib Require Export Strings.Byte Strings.String ZArith Lia.
From Stdlib Require Import Eqdep_dec.
From stdpp Require Export prelude list gmap.

#[global] Open Scope Z_scope.
#[global] Open Scope bool_scope.

(** * Bytes *)

Abbreviation byte := Byte.byte.

(** A Go string or byte slice: a sequence of bytes. *)
Abbreviation bytes := (list byte).

(** [lit "abc"] is the Go string literal "abc". *)
Definition lit (s : string) : bytes := String.list_byte_of_string s.

Definition bZ (b : byte) : Z := Z.of_N (Byte.to_N b).

(** Conversion of an integer to a byte, [byte(z)] in Go: the low eight bits. *)
Definition Zb (z : Z) : byte :=
  match Byte.of_N (Z.to_N (z mod 256)) with Some b => b | None => x00 end.

Lemma bZ_range b : 0 <= bZ b < 256.
Proof. unfold bZ. pose proof (Byte.to_N_bounded b). lia. Qed.

Lemma Zb_bZ b : Zb (bZ b) = b.
Proof.
  pose proof (bZ_range b). unfold Zb. rewrite Z.mod_small by done.
  unfold bZ. rewrite N2Z.id, Byte.of_to_N. done.
Qed.

Lemma bZ_Zb z : bZ (Zb z) = z mod 256.
Proof.
  pose proof (Z.mod_pos_bound z 256 ltac:(lia)).
  unfold Zb. destruct (Byte.of_N _) as [b|] eqn:E.
  - unfold bZ. apply Byte.to_of_N in E. rewrite E, Z2N.id; lia.
  - apply Byte.of_N_None_iff in E. lia.
Qed.

Lemma bZ_inj a b : bZ a = bZ b -> a = b.
Proof. intros H. rewrite <- (Zb_bZ a), <- (Zb_bZ b). by f_equal. Qed.

#[export] Instance bZ_Inj : Inj (=) (=) bZ := bZ_inj.

#[export] Instance byte_eq_dec : EqDecision byte := Byte.byte_eq_dec.
#[export] Instance byte_countable : Countable byte :=
  inj_countable Byte.to_N Byte.of_N Byte.of_to_N.

(** Case analysis over the 256 bytes by computation. *)
Definition all_bytes : bytes := Zb <$> seqZ 0 256.

Lemma elem_of_all_bytes b : b ∈ all_bytes.
Proof.
  unfold all_bytes. apply list_elem_of_fmap. exists (bZ b).
  split; [by rewrite Zb_bZ|]. apply elem_of_seqZ. pose proof (bZ_range b). lia.
Qed.

Lemma byte_forall (P : byte -> bool) :
  forallb P all_bytes = true -> forall b, P b = true.
Proof.
  intros H b. rewrite forallb_forall in H. apply H.
  apply list_elem_of_In, elem_of_all_bytes.
Qed.

(** Solve a goal [f b = g b] in which [b] ranges over bytes by evaluation. *)
Ltac byte_cases b :=
  revert b;
  match goal with
  | |- forall b : byte, @?P b = true => refine (byte_forall P _)
  end; vm_compute; reflexivity.

(** * Fixed-size arrays *)

(** A Go array [n]byte. The length is part of the type, and equality is
    equality of the contents. *)
Record arr (n : nat) : Type := Arr {
  arr_list :> bytes;
  arr_len : Nat.eqb (length arr_list) n = true
}.
Arguments Arr {n} _ _.
Arguments arr_list {n} _.
Arguments arr_len {n} _.

Lemma arr_length {n} (a : arr n) : length (arr_list a) = n.
Proof. apply Nat.eqb_eq, arr_len. Qed.

Lemma arr_eq {n} (a b : arr n) : arr_list a = arr_list b -> a = b.
Proof.
  destruct a as [l H], b as [l' H']. simpl. intros ->.
  f_equal. apply UIP_dec, Bool.bool_dec.
Qed.

#[export] Instance arr_list_Inj n : Inj (=) (=) (@arr_list n).
Proof. intros a b. apply arr_eq. Qed.

#[export] Instance arr_eq_dec n : EqDecision (arr n).
Proof.
  intros a b. destruct (decide (arr_list a = arr_list b)) as [H|H].
  - left. by apply arr_eq.
  - right. congruence.
Defined.

(** [copy(result[:], l)] into a zeroed array. *)
Definition mk_arr_list (n : nat) (l : bytes) : bytes :=
  take n (l ++ replicate n x00).

Lemma mk_arr_len n l : Nat.eqb (length (mk_arr_list n l)) n = true.
Proof.
  apply Nat.eqb_eq. unfold mk_arr_list.
  rewrite length_take, length_app, length_replicate. lia.
Qed.

Definition mk_arr (n : nat) (l : bytes) : arr n := Arr (mk_arr_list n l) (mk_arr_len n l).

Lemma mk_arr_exact n l : length l = n -> arr_list (mk_arr n l) = l.
Proof. intros H. simpl. unfold mk_arr_list. by rewrite take_app_length'. Qed.

Lemma mk_arr_id n (a : arr n) : mk_arr n (arr_list a) = a.
Proof. apply arr_eq, mk_arr_exact, arr_length. Qed.

Definition zero_arr (n : nat) : arr n := mk_arr n [].

(** [value == T{}] for an array type. *)
Definition arr_is_zero {n} (a : arr n) : bool := bool_decide (a = zero_arr n).

Lemma arr_is_zero_true {n} (a : arr n) : arr_is_zero a = true <-> a = zero_arr n.
Proof. unfold arr_is_zero. by rewrite bool_decide_eq_true. Qed.

Lemma arr_is_zero_false {n} (a : arr n) : arr_is_zero a = false <-> a <> zero_arr n.
Proof. unfold arr_is_zero. by rewrite bool_decide_eq_false. Qed.

#[export] Instance arr_countable n : Countable (arr n) :=
  inj_countable arr_list (fun l => Some (mk_arr n l))
    (fun a => f_equal Some (mk_arr_id n a)).

(** Go's [==] on strings, arrays and enums as a boolean. *)
Notation "a =?? b" := (bool_decide (a = b)) (at level 70, no associativity).
Notation "a <>?? b" := (negb (bool_decide (a = b))) (at level 70, no associativity).

(** * Lists *)

(** Two texts free of a separator are determined by their concatenation with
    what follows the separator. *)
Lemma app_sep_inj {A} (P : A -> Prop) (l k r r' : list A) (c : A) :
  Forall P l -> Forall P k -> ~ P c -> l ++ c :: r = k ++ c :: r' -> l = k /\ r = r'.
Proof.
  intros Hl Hk Hc. revert k Hk. induction Hl as [|x l Hx Hl IH]; intros k Hk E.
  - destruct Hk as [|y k Hy Hk]; simpl in E; simplify_eq; [done|]. by destruct Hc.
  - destruct Hk as [|y k Hy Hk]; simpl in E; simplify_eq.
    + by destruct Hc.
    + destruct (IH k Hk) as [-> ->]; done.
Qed.

Lemma app_eq_length {A} (l k r r' : list A) :
  length l = length k -> l ++ r = k ++ r' -> l = k /\ r = r'.
Proof. apply app_inj_1. Qed.

(** In a list without repeated keys, a key identifies an element. *)
Lemma NoDup_omap_inj {A B} (f : A -> option B) (l : list A) x y k :
  NoDup (omap f l) -> x ∈ l -> y ∈ l -> f x = Some k -> f y = Some k -> x = y.
Proof.
  induction l as [|z l IH]; simpl; [by intros _ ?%elem_of_nil|].
  intros Hnd Hx Hy Fx Fy.
  assert (forall w, w ∈ l -> f w = Some k -> k ∈ omap f l) as Hin.
  { intros w Hw Fw. apply list_elem_of_omap. eauto. }
  apply elem_of_cons in Hx as [->|Hx], Hy as [->|Hy]; [done| | |].
  - rewrite Fx in Hnd. apply NoDup_cons in Hnd as [Hn _]. destruct Hn. by eapply Hin.
  - rewrite Fy in Hnd. apply NoDup_cons in Hnd as [Hn _]. destruct Hn. by eapply Hin.
  - apply IH; [|done..]. destruct (f z); [by apply NoDup_cons in Hnd as [_ ?]|done].
Qed.

(** Membership in a closed list, by enumeration. *)
Ltac in_list := apply list_elem_of_In; simpl; tauto.

(** Open every existential and conjunction of the context. *)
Ltac destruct_ex :=
  repeat match goal with
  | H : exists _, _ |- _ => destruct H
  | H : _ /\ _ |- _ => destruct H
  end.
