(* ===== verification/Effects.v ===== *)
(** Effectful Go code as programs over a signature of external calls.

    A Go method that calls its dependencies (a database connection, a key
    source, the clock, [ctx.Err()]) is a [prog E A]: a finite tree of calls
    whose answers are chosen by the environment. [runs p tr a] says that some
    environment answers the calls as the trace [tr] records and the program
    then returns [a]; a theorem about [runs] therefore holds for every
    behaviour of the dependencies. [run h p s] executes the program against a
    concrete handler [h] with state [s]; [run_runs] connects the two. *)

From S2P Require Import Prelude.

Record sig : Type := Sig { op : Type; ans : op -> Type }.

Inductive prog (E : sig) (A : Type) : Type :=
| Ret (a : A)
| Call (o : op E) (k : ans E o -> prog E A).
Arguments Ret {E A} _.
Arguments Call {E A} _ _.

Definition call {E : sig} (o : op E) : prog E (ans E o) := Call o Ret.

Fixpoint bind {E A B} (p : prog E A) (f : A -> prog E B) : prog E B :=
  match p with
  | Ret a => f a
  | Call o k => Call o (fun r => bind (k r) f)
  end.

Declare Scope prog_scope.
Delimit Scope prog_scope with prog.
Bind Scope prog_scope with prog.
Open Scope prog_scope.

Notation "'let!' x ':=' p 'in' q" := (bind p (fun x => q))
  (at level 10, x name, p at level 100, q at level 200) : prog_scope.
Notation "'let!' ' pat ':=' p 'in' q" := (bind p (fun x => match x with pat => q end))
  (at level 10, pat pattern, p at level 100, q at level 200) : prog_scope.

(** * Executions under an arbitrary environment *)

(** One external call with its answer. *)
Definition event (E : sig) : Type := { o : op E & ans E o }.
Definition ev {E : sig} (o : op E) (r : ans E o) : event E := existT o r.
Definition trace (E : sig) : Type := list (event E).

Fixpoint runs {E A} (p : prog E A) (tr : trace E) (a : A) : Prop :=
  match p with
  | Ret x => tr = [] /\ a = x
  | Call o k => exists r tr', tr = ev o r :: tr' /\ runs (k r) tr' a
  end.

(** The operations a trace performed, in order. *)
Definition ops {E : sig} (tr : trace E) : list (op E) := map (fun e => projT1 e) tr.

Lemma runs_call_bind {E A} (o : op E) (f : ans E o -> prog E A) tr a :
  runs (bind (call o) f) tr a <-> exists r tr', tr = ev o r :: tr' /\ runs (f r) tr' a.
Proof. done. Qed.

Lemma runs_bind {E A B} (p : prog E A) (f : A -> prog E B) tr b :
  runs (bind p f) tr b <->
  exists tr1 tr2 a, tr = tr1 ++ tr2 /\ runs p tr1 a /\ runs (f a) tr2 b.
Proof.
  revert tr. induction p as [x|o k IH]; intros tr; simpl.
  - split.
    + intros H. by exists [], tr, x.
    + intros (tr1 & tr2 & a & -> & [-> ->] & H). done.
  - split.
    + intros (r & tr' & -> & H). apply IH in H as (t1 & t2 & a & -> & H1 & H2).
      exists (ev o r :: t1), t2, a. split; [done|]. split; [|done]. eauto.
    + intros (t1 & t2 & a & -> & (r & tr' & -> & H1) & H2).
      exists r, (tr' ++ t2). split; [done|]. apply IH. eauto 10.
Qed.

Lemma bind_assoc_runs {E A B C} (p : prog E A) (f : A -> prog E B) (g : B -> prog E C) tr c :
  runs (bind (bind p f) g) tr c <-> runs (bind p (fun x => bind (f x) g)) tr c.
Proof.
  rewrite !runs_bind. split.
  - intros (t1 & t2 & b & -> & H1 & H2). apply runs_bind in H1 as (t3 & t4 & a & -> & H3 & H4).
    exists t3, (t4 ++ t2), a. rewrite app_assoc. repeat split; [done|].
    apply runs_bind. eauto 10.
  - intros (t1 & t2 & a & -> & H1 & H2). apply runs_bind in H2 as (t3 & t4 & b & -> & H3 & H4).
    exists (t1 ++ t3), t4, b. rewrite app_assoc. repeat split; [|done].
    apply runs_bind. eauto 10.
Qed.

(** Every call a program can make satisfies [ok]. *)
Fixpoint calls_only {E A} (ok : op E -> Prop) (p : prog E A) : Prop :=
  match p with
  | Ret _ => True
  | Call o k => ok o /\ (forall r, calls_only ok (k r))
  end.

Lemma calls_only_bind {E A B} (ok : op E -> Prop) (p : prog E A) (f : A -> prog E B) :
  calls_only ok p -> (forall a, calls_only ok (f a)) -> calls_only ok (bind p f).
Proof. intros Hp Hf. induction p as [a|o k IH]; simpl in *; [done|]. destruct Hp as [Ho Hk]. auto. Qed.

(** * Execution against a handler *)

Definition handler (E : sig) (S : Type) : Type := forall o : op E, S -> ans E o * S.

Fixpoint run {E S A} (h : handler E S) (p : prog E A) (s : S) : A * S :=
  match p with
  | Ret a => (a, s)
  | Call o k => let '(r, s') := h o s in run h (k r) s'
  end.

Fixpoint run_trace {E S A} (h : handler E S) (p : prog E A) (s : S) : trace E :=
  match p with
  | Ret _ => []
  | Call o k => let '(r, s') := h o s in ev o r :: run_trace h (k r) s'
  end.

(** Every execution against a handler is an execution under some environment. *)
Lemma run_runs {E S A} (h : handler E S) (p : prog E A) (s : S) :
  runs p (run_trace h p s) (run h p s).1.
Proof.
  revert s. induction p as [a|o k IH]; intros s; simpl; [done|].
  destruct (h o s) as [r s'] eqn:Eh. exists r, (run_trace h (k r) s'). split; [done|].
  apply IH.
Qed.

Lemma run_bind {E S A B} (h : handler E S) (p : prog E A) (f : A -> prog E B) s :
  run h (bind p f) s = let '(a, s') := run h p s in run h (f a) s'.
Proof.
  revert s. induction p as [a|o k IH]; intros s; simpl; [done|].
  destruct (h o s) as [r s']. apply IH.
Qed.

(** * Composition: implementing the calls of one layer by programs of another *)

Fixpoint interp {E F A} (impl : forall o : op E, prog F (ans E o)) (p : prog E A) : prog F A :=
  match p with
  | Ret a => Ret a
  | Call o k => bind (impl o) (fun r => interp impl (k r))
  end.

(** Every execution of the composed program is an execution of the client in
    which each call was answered by an execution of its implementation. *)
Lemma runs_interp {E F A} (impl : forall o : op E, prog F (ans E o)) (p : prog E A) tr a :
  runs (interp impl p) tr a ->
  exists utr, runs p utr a /\
    Forall (fun e : event E => exists tr', runs (impl (projT1 e)) tr' (projT2 e)) utr.
Proof.
  revert tr. induction p as [x|o k IH]; intros tr; simpl.
  - intros [-> ->]. exists []. split; [done|constructor].
  - intros H. apply runs_bind in H as (t1 & t2 & r & -> & H1 & H2).
    apply IH in H2 as (utr & H2 & H3). exists (ev o r :: utr). split; [eauto|].
    constructor; [|done]. simpl. eauto.
Qed.

(** The same, with the calls of each implementation found in the trace. *)
Lemma runs_interp_in {E F A} (impl : forall o : op E, prog F (ans E o)) (p : prog E A) tr a :
  runs (interp impl p) tr a ->
  exists utr, runs p utr a /\
    (forall (o : op E) (r : ans E o), ev o r ∈ utr ->
     exists tr', runs (impl o) tr' r /\ (forall e, e ∈ tr' -> e ∈ tr)).
Proof.
  revert tr. induction p as [x|o k IH]; intros tr; simpl.
  - intros [-> ->]. exists []. split; [done|]. by intros o r ?%elem_of_nil.
  - intros H. apply runs_bind in H as (t1 & t2 & r & -> & H1 & H2).
    apply IH in H2 as (utr & H2 & H3). exists (ev o r :: utr). split; [eauto|].
    intros o' r' Hin. apply elem_of_cons in Hin as [E'|Hin].
    + assert (exists t, runs (impl (projT1 (ev o r))) t (projT2 (ev o r)) /\ (forall e, e ∈ t -> e ∈ t1 ++ t2)) as Ht.
      { exists t1. split; [done|]. intros e He. apply elem_of_app. auto. }
      rewrite <- E' in Ht. exact Ht.
    + destruct (H3 o' r' Hin) as (t & Ht & Hsub). exists t. split; [done|].
      intros e He. apply elem_of_app. auto.
Qed.

(** Programs over two sets of calls. *)
Definition SumE (E F : sig) : sig :=
  Sig (op E + op F) (fun o => match o with inl o => ans E o | inr o => ans F o end).

Definition lift_l {E F A} (p : prog E A) : prog (SumE E F) A :=
  interp (F := SumE E F) (fun o => @call (SumE E F) (inl o)) p.

Lemma runs_lift_l {E F A} (p : prog E A) tr a :
  runs (lift_l (F := F) p) tr a ->
  exists utr, runs p utr a /\ (forall (o : op E) r, ev o r ∈ utr -> @ev (SumE E F) (inl o) r ∈ tr).
Proof.
  intros H. apply runs_interp_in in H as (utr & H & Hin). exists utr. split; [done|].
  intros o r Hr. destruct (Hin o r Hr) as (t & Ht & Hsub). apply Hsub.
  destruct Ht as (r' & t' & -> & -> & <-). apply list_elem_of_here.
Qed.

Lemma run_interp {E F S A} (impl : forall o : op E, prog F (ans E o)) (h : handler F S)
    (p : prog E A) s :
  run h (interp impl p) s = run (fun o s => run h (impl o) s) p s.
Proof.
  revert s. induction p as [x|o k IH]; intros s; simpl; [done|].
  rewrite run_bind. destruct (run h (impl o) s). apply IH.
Qed.

(** * Protocols *)

(** A protocol on the external calls: an automaton that reads the trace;
    [None] is a violation. *)
Section Protocol.
Context {E : sig} {Q : Type} (step : Q -> event E -> option Q).

Fixpoint proto_run (q : Q) (tr : trace E) : option Q :=
  match tr with
  | [] => Some q
  | e :: tr => match step q e with Some q' => proto_run q' tr | None => None end
  end.

(** From state [q], whatever the calls answer, [p] keeps to the protocol and
    ends in a state allowed by its result. *)
Fixpoint keeps {A} (q : Q) (p : prog E A) (post : A -> Q -> Prop) : Prop :=
  match p with
  | Ret a => post a q
  | Call o k => forall r, exists q', step q (ev o r) = Some q' /\ keeps q' (k r) post
  end.

Lemma keeps_runs {A} q (p : prog E A) post tr a :
  keeps q p post -> runs p tr a -> exists q', proto_run q tr = Some q' /\ post a q'.
Proof.
  revert q tr. induction p as [x|o k IH]; intros q tr H Hr; simpl in *.
  - destruct Hr as [-> ->]. by exists q.
  - destruct Hr as (r & tr' & -> & Hr). destruct (H r) as (q' & Hs & Hk). simpl. rewrite Hs. eauto.
Qed.

Lemma keeps_bind {A B} q (p : prog E A) (f : A -> prog E B) (mid : A -> Q -> Prop) post :
  keeps q p mid -> (forall a q', mid a q' -> keeps q' (f a) post) -> keeps q (bind p f) post.
Proof.
  revert q. induction p as [x|o k IH]; intros q Hp Hf; simpl in *; [auto|].
  intros r. destruct (Hp r) as (q' & Hs & Hk). eauto.
Qed.

Lemma keeps_call {A} q (o : op E) (f : ans E o -> prog E A) post :
  (forall r, exists q', step q (ev o r) = Some q' /\ keeps q' (f r) post) ->
  keeps q (bind (call o) f) post.
Proof. done. Qed.

Lemma keeps_mono {A} q (p : prog E A) (post post' : A -> Q -> Prop) :
  keeps q p post -> (forall a q', post a q' -> post' a q') -> keeps q p post'.
Proof.
  revert q. induction p as [x|o k IH]; intros q H Hm; simpl in *; [auto|].
  intros r. destruct (H r) as (q' & ? & ?). eauto.
Qed.
End Protocol.

(** * Proof automation *)

(** One step of symbolic execution of a [runs] hypothesis: expose the answer
    of the next call, split a guard or a match, or finish. *)
Ltac runs_step :=
  match goal with
  | H : runs (Ret _) _ _ |- _ =>
      let H1 := fresh "Htr" in let H2 := fresh "Hres" in destruct H as [H1 H2]
  | H : runs (bind (call _) _) _ _ |- _ =>
      let r := fresh "r" in let tr := fresh "tr" in let Htr := fresh "Htr" in
      destruct H as (r & tr & Htr & H); cbn beta in H
  | H : runs (Call _ _) _ _ |- _ =>
      let r := fresh "r" in let tr := fresh "tr" in let Htr := fresh "Htr" in
      destruct H as (r & tr & Htr & H); cbn beta in H
  | H : runs (bind (Ret _) _) _ _ |- _ => cbn [bind] in H
  | H : runs (bind (bind _ _) _) _ _ |- _ => apply bind_assoc_runs in H
  | H : runs (bind (if ?b then _ else _) _) _ _ |- _ => destruct b eqn:?
  | H : runs (bind (match ?x with _ => _ end) _) _ _ |- _ => destruct x eqn:?
  | H : runs (if ?b then _ else _) _ _ |- _ => destruct b eqn:?
  | H : runs (match ?x with _ => _ end) _ _ |- _ => destruct x eqn:?
  | H : runs (let _ := _ in _) _ _ |- _ => cbv zeta in H
  end.

Ltac runs_steps := repeat (runs_step; try discriminate; subst).

(** Answer the next call of a [runs] goal. *)
Ltac answer r := refine (ex_intro _ r (ex_intro _ _ (conj eq_refl _))); cbn beta match.
