(* ===== verification/Concurrency.v ===== *)
(** Programs of [Effects] running concurrently over a shared state.

    A handler goroutine is a [prog]; the shared state (the database) changes
    only in the calls. [pool_step] interleaves the calls of any number of
    goroutines. [wp] is a rely-guarantee weakest precondition: it holds of a
    program when every call keeps the shared invariant, whatever the other
    goroutines did in between, and the postcondition holds of its result;
    [pool_sound] lifts it to every interleaving. *)

From S2P Require Import Prelude Effects.

Section Shared.
Context {E : sig} {S : Type}.
(** [step s o r s']: the call [o], issued in state [s], may answer [r] and
    leave the state [s']. *)
Context (step : S -> forall o : op E, ans E o -> S -> Prop).
(** What the other goroutines may do between two calls, and what a call of
    this goroutine does to the state. *)
Context (rely guar : S -> S -> Prop).
(** The invariant of the shared state. *)
Context (Inv : S -> Prop).

(** * Thread pools *)

Abbreviation pool A := (list (prog E A)).

Inductive pool_step {A} : S * pool A -> S * pool A -> Prop :=
| pool_call i s s' p o k r :
    p !! i = Some (Call o k) -> step s o r s' -> pool_step (s, p) (s', <[i := k r]> p).

Inductive pool_steps {A} : S * pool A -> S * pool A -> Prop :=
| pool_refl c : pool_steps c c
| pool_next c1 c2 c3 : pool_step c1 c2 -> pool_steps c2 c3 -> pool_steps c1 c3.

(** The same with a log of which thread made which call. *)
Inductive pool_trace {A} : S * pool A -> list (nat * event E) -> S * pool A -> Prop :=
| pool_trace_refl c : pool_trace c [] c
| pool_trace_next i s s' p o k r log c :
    p !! i = Some (Call o k) -> step s o r s' -> pool_trace (s', <[i := k r]> p) log c ->
    pool_trace (s, p) ((i, ev o r) :: log) c.

(** The calls of one thread. *)
Fixpoint thread_log (i : nat) (log : list (nat * event E)) : trace E :=
  match log with
  | [] => []
  | (j, e) :: log => if decide (i = j) then e :: thread_log i log else thread_log i log
  end.

Lemma thread_log_elem i log e : e ∈ thread_log i log -> (i, e) ∈ log.
Proof.
  induction log as [|[j e'] log IH]; simpl; [by intros ?%elem_of_nil|]. case_decide; subst.
  - intros [->|H]%elem_of_cons; [apply list_elem_of_here|by apply list_elem_of_further, IH].
  - intros H'. by apply list_elem_of_further, IH.
Qed.

(** What a thread did in a pool is an execution of its program. *)
Lemma pool_trace_runs {A} (c c' : S * pool A) log i p q :
  pool_trace c log c' -> c.2 !! i = Some p -> c'.2 !! i = Some q ->
  forall tr a, runs q tr a -> runs p (thread_log i log ++ tr) a.
Proof.
  intros H. revert p. induction H as [c|j s s' ps o k r log c Hj Hs Ht IH]; intros p Hp Hq tr a Hr.
  - simplify_eq/=. done.
  - simpl in *. case_decide as Hd.
    + subst j. rewrite Hj in Hp. injection Hp as <-. exists r, (thread_log i log ++ tr).
      split; [done|]. eapply IH; [|done|done]. apply list_lookup_insert_eq. by eapply lookup_lt_Some.
    + eapply IH; [|done|done]. by rewrite list_lookup_insert_ne.
Qed.

(** Every logged call satisfies what the meaning of the calls guarantees. *)
Lemma pool_trace_forall {A} (P : event E -> Prop) (c c' : S * pool A) log :
  (forall s o r s', step s o r s' -> P (ev o r)) ->
  pool_trace c log c' -> forall x, x ∈ log -> P x.2.
Proof.
  intros HP. induction 1 as [c|i s s' ps o k r log c Hi Hs Ht IH]; [by intros x ?%elem_of_nil|].
  intros x [->|Hin]%elem_of_cons; [by eapply HP|auto].
Qed.

(** Keys that a call can take only when free, and that stay taken, are taken
    at most once in a log. *)
Lemma pool_trace_keys {A K} (key : event E -> option K) (taken : S -> K -> Prop) (c c' : S * pool A) log :
  (forall s o r s' k, step s o r s' -> taken s k -> taken s' k) ->
  (forall s o r s' k, step s o r s' -> key (ev o r) = Some k -> ~ taken s k /\ taken s' k) ->
  pool_trace c log c' ->
  NoDup (omap (fun x => key x.2) log) /\ (forall k, k ∈ omap (fun x => key x.2) log -> ~ taken c.1 k).
Proof.
  intros Hstay Htake. induction 1 as [c|i s s' ps o k r log c Hi Hs Ht (IH1 & IH2)]; simpl.
  - split; [constructor|by intros k ?%elem_of_nil].
  - destruct (key (ev o r)) as [k'|] eqn:Ek.
    + destruct (Htake _ _ _ _ _ Hs Ek) as [Hn Hy]. split.
      * apply NoDup_cons. split; [|done]. intros Hin. by apply IH2 in Hin.
      * intros k2 [->|Hin]%elem_of_cons; [done|]. intros Hb. apply (IH2 _ Hin). eauto.
    + split; [done|]. intros k2 Hin Hb. apply (IH2 _ Hin). eauto.
Qed.

(** * Weakest precondition under interference *)

Fixpoint wp {A} (p : prog E A) (Q : A -> S -> Prop) (s : S) : Prop :=
  match p with
  | Ret a => forall s', rely s s' -> Q a s'
  | Call o k => forall s1 r s2, rely s s1 -> step s1 o r s2 ->
      Inv s2 /\ guar s1 s2 /\ wp (k r) Q s2
  end.

Hypothesis rely_refl : forall s, Inv s -> rely s s.
Hypothesis rely_trans : forall s1 s2 s3, rely s1 s2 -> rely s2 s3 -> rely s1 s3.
Hypothesis rely_inv : forall s s', rely s s' -> Inv s'.

Lemma wp_stable {A} (p : prog E A) Q s s' : wp p Q s -> rely s s' -> wp p Q s'.
Proof. destruct p as [a|o k]; simpl; eauto. Qed.

Lemma wp_mono {A} (p : prog E A) (Q Q' : A -> S -> Prop) s :
  wp p Q s -> (forall a s', Q a s' -> Q' a s') -> wp p Q' s.
Proof.
  revert s. induction p as [a|o k IH]; simpl; intros s H HQ; [eauto|].
  intros s1 r s2 Hr Hs. destruct (H s1 r s2 Hr Hs) as (? & ? & ?). eauto.
Qed.

Lemma wp_bind {A B} (p : prog E A) (f : A -> prog E B) Q s :
  Inv s -> wp p (fun a s => Inv s -> wp (f a) Q s) s -> wp (bind p f) Q s.
Proof.
  revert s. induction p as [a|o k IH]; simpl; intros s Hi H; [eauto|].
  intros s1 r s2 Hr Hs. destruct (H s1 r s2 Hr Hs) as (? & ? & ?). eauto.
Qed.

(** What every execution returns, and what its calls and the other goroutines
    keep, holds of the result. [ok] bounds the calls the program makes. *)
Lemma wp_frame {A} (ok : op E -> Prop) (p : prog E A) (P : A -> Prop) (J : S -> Prop) s :
  calls_only ok p -> (forall tr a, runs p tr a -> P a) ->
  (forall s s', J s -> rely s s' -> J s') ->
  (forall s o r s', ok o -> J s -> Inv s -> step s o r s' -> Inv s' /\ guar s s' /\ J s') ->
  J s -> wp p (fun a s' => P a /\ J s') s.
Proof.
  intros Hok HP Hrely Hstep. revert s HP Hok. induction p as [a|o k IH]; intros s HP Hok HJ.
  - intros s' Hr. split; [by apply (HP [])|by eapply Hrely].
  - intros s1 r s2 Hr Hst. destruct Hok as [Ho Hk].
    destruct (Hstep s1 o r s2) as (? & ? & ?); [done|by eapply Hrely|by eapply rely_inv|done|].
    split; [done|]. split; [done|]. apply IH; [|done|done].
    intros tr a Ha. apply (HP (ev o r :: tr)). simpl. eauto.
Qed.

(** * An execution with interference between its calls *)

Fixpoint iexec {A} (p : prog E A) (s : S) (a : A) (s' : S) : Prop :=
  match p with
  | Ret x => a = x /\ rely s s'
  | Call o k => exists s1 r s2, rely s s1 /\ step s1 o r s2 /\ iexec (k r) s2 a s'
  end.

Lemma wp_iexec {A} (p : prog E A) Q s a s' : wp p Q s -> iexec p s a s' -> Q a s'.
Proof.
  revert s. induction p as [x|o k IH]; simpl; intros s Hw.
  - intros [-> Hr]. auto.
  - intros (s1 & r & s2 & Hr & Hs & Hx). destruct (Hw s1 r s2 Hr Hs) as (_ & _ & Hk). eauto.
Qed.

(** The same as a chain of states along a trace. *)
Fixpoint ichain (s : S) (tr : trace E) (s' : S) : Prop :=
  match tr with
  | [] => rely s s'
  | existT o r :: tr => exists s1 s2, rely s s1 /\ step s1 o r s2 /\ ichain s2 tr s'
  end.

Lemma iexec_ichain {A} (p : prog E A) s a s' :
  iexec p s a s' -> exists tr, runs p tr a /\ ichain s tr s'.
Proof.
  revert s. induction p as [x|o k IH]; intros s; simpl.
  - intros [-> H]. by exists [].
  - intros (s1 & r & s2 & Hr & Hs & Hx). destruct (IH r s2 Hx) as (tr & Hruns & Hch).
    exists (ev o r :: tr). split; [eauto|]. simpl. eauto.
Qed.

Lemma ichain_split s tr1 (o : op E) (r : ans E o) tr2 s' :
  ichain s (tr1 ++ ev o r :: tr2) s' -> exists s1 s2, ichain s tr1 s1 /\ step s1 o r s2 /\ ichain s2 tr2 s'.
Proof.
  revert s. induction tr1 as [|[o' r'] tr1 IH]; intros s; simpl; [done|].
  intros (s1 & s2 & Hr & Hs & H). destruct (IH s2 H) as (s3 & s4 & ? & ? & ?). exists s3, s4. eauto 10.
Qed.

(** A relation that contains the interference and the calls relates the ends. *)
Lemma ichain_rel (R : S -> S -> Prop) s tr s' :
  (forall s1 s2 s3, R s1 s2 -> R s2 s3 -> R s1 s3) ->
  (forall s1 s2, rely s1 s2 -> R s1 s2) -> (forall s1 o r s2, step s1 o r s2 -> R s1 s2) ->
  ichain s tr s' -> R s s'.
Proof.
  intros Ht Hr Hs. revert s. induction tr as [|[o r] tr IH]; intros s; simpl; [auto|].
  intros (s1 & s2 & H1 & H2 & H3). apply (Ht s s1); [auto|]. apply (Ht s1 s2); eauto.
Qed.

(** * An execution without interference *)

Fixpoint exec {A} (p : prog E A) (s : S) (a : A) (s' : S) : Prop :=
  match p with
  | Ret x => a = x /\ s' = s
  | Call o k => exists r s1, step s o r s1 /\ exec (k r) s1 a s'
  end.

Lemma wp_exec {A} (p : prog E A) Q s a s' :
  Inv s -> wp p Q s -> exec p s a s' -> Q a s' /\ Inv s'.
Proof.
  revert s. induction p as [x|o k IH]; simpl; intros s Hi Hw.
  - intros [-> ->]. auto.
  - intros (r & s1 & Hs & Hx). destruct (Hw s r s1) as (? & ? & ?); eauto.
Qed.

(** An execution in which nothing interferes is one in which something may. *)
Lemma exec_iexec {A} (p : prog E A) s a s' :
  (forall s o r s', Inv s -> step s o r s' -> Inv s') -> Inv s -> exec p s a s' -> iexec p s a s'.
Proof.
  intros Hs. revert s. induction p as [x|o k IH]; simpl; intros s Hi.
  - intros [-> ->]. auto.
  - intros (r & s1 & Hst & Hx). exists s, r, s1. eauto 10.
Qed.

(** A handler that only takes allowed steps yields an execution; its own
    bookkeeping may ride along with the state. *)
Lemma run_exec {A X} (h : handler E (S * X)) (p : prog E A) s x :
  (forall o s x, step s o (h o (s, x)).1 (h o (s, x)).2.1) ->
  exec p s (run h p (s, x)).1 (run h p (s, x)).2.1.
Proof.
  intros Hh. revert s x. induction p as [a|o k IH]; intros s x; simpl; [done|].
  pose proof (Hh o s x) as Hst. destruct (h o (s, x)) as [r [s' x']]. simpl in *. eauto.
Qed.

(** A thread may run to completion while the others wait. *)
Lemma exec_pool {A} (p : prog E A) s a s' (ps : pool A) i :
  ps !! i = Some p -> exec p s a s' -> pool_steps (s, ps) (s', <[i := Ret a]> ps).
Proof.
  revert s ps. induction p as [x|o k IH]; intros s ps Hi Hx; simpl in Hx.
  - destruct Hx as [-> ->]. rewrite list_insert_id by done. constructor.
  - destruct Hx as (r & s1 & Hst & Hx). econstructor; [by econstructor|].
    assert (i < length ps)%nat by (by eapply lookup_lt_Some).
    rewrite <- (list_insert_insert_eq ps i (Ret a) (k r)).
    eapply IH; [|done]. by rewrite list_lookup_insert_eq.
Qed.

Lemma pool_steps_trans {A} (c1 c2 c3 : S * pool A) :
  pool_steps c1 c2 -> pool_steps c2 c3 -> pool_steps c1 c3.
Proof. induction 1; intros; [done|econstructor; eauto]. Qed.

Lemma exec_pool_trace {A} (p : prog E A) s a s' (ps : pool A) i :
  ps !! i = Some p -> exec p s a s' -> exists log, pool_trace (s, ps) log (s', <[i := Ret a]> ps).
Proof.
  revert s ps. induction p as [x|o k IH]; intros s ps Hi Hx; simpl in Hx.
  - destruct Hx as [-> ->]. rewrite list_insert_id by done. exists []. constructor.
  - destruct Hx as (r & s1 & Hst & Hx).
    assert (i < length ps)%nat by (by eapply lookup_lt_Some).
    destruct (IH r s1 (<[i := k r]> ps)) as [log Hlog]; [by rewrite list_lookup_insert_eq|done|].
    rewrite list_insert_insert_eq in Hlog. exists ((i, ev o r) :: log). by econstructor.
Qed.

Lemma pool_trace_app {A} (c1 c2 c3 : S * pool A) log1 log2 :
  pool_trace c1 log1 c2 -> pool_trace c2 log2 c3 -> pool_trace c1 (log1 ++ log2) c3.
Proof. induction 1; intros; [done|]. simpl. econstructor; eauto. Qed.

(** * Soundness for every interleaving *)

Hypothesis guar_rely : forall s s', Inv s -> Inv s' -> guar s s' -> rely s s'.

Lemma pool_step_sound {A} (Q : nat -> A -> S -> Prop) s p s' p' :
  Inv s -> (forall i q, p !! i = Some q -> wp q (Q i) s) -> pool_step (s, p) (s', p') ->
  Inv s' /\ rely s s' /\ (forall i q, p' !! i = Some q -> wp q (Q i) s').
Proof.
  intros Hi Hw Hst. inversion Hst as [i ? ? ? o k r Hl Hs]; subst.
  destruct (Hw i _ Hl s r s') as (Hi' & Hg & Hk); [auto|done|].
  assert (rely s s') as Hr by auto.
  split; [done|]. split; [done|]. intros j q Hj.
  destruct (decide (i = j)) as [->|Hne].
  - rewrite list_lookup_insert_eq in Hj by (by eapply lookup_lt_Some). by simplify_eq.
  - rewrite list_lookup_insert_ne in Hj by done. eapply wp_stable; eauto.
Qed.

Lemma pool_sound {A} (Q : nat -> A -> S -> Prop) c c' :
  pool_steps c c' -> Inv c.1 -> (forall i q, c.2 !! i = Some q -> wp q (Q i) c.1) ->
  Inv c'.1 /\ rely c.1 c'.1 /\ (forall i a, c'.2 !! i = Some (Ret a) -> Q i a c'.1).
Proof.
  intros H. induction H as [[s p]|[s1 p1] [s2 p2] c3 Hst Hsts IH]; intros Hi Hw.
  - split; [done|]. split; [auto|]. intros i a Hl. exact (Hw i _ Hl s (rely_refl s Hi)).
  - destruct (pool_step_sound Q s1 p1 s2 p2 Hi Hw Hst) as (Hi2 & Hr & Hw2).
    destruct (IH Hi2 Hw2) as (? & ? & ?). simpl in *. eauto.
Qed.
End Shared.
