(* ===== verification/GoErrors.v ===== *)
(** Go error values: package-level sentinels, wrapped and joined errors, the
    traversals [errors.Is], [errors.As] and [errors.Unwrap], the bounded
    single-cause traversal the code uses for errors of its dependencies, and
    the classification of PostgreSQL connection interruptions. *)

From S2P Require Import Prelude.

(** * Sentinels *)

(** Every package-level error value the code compares with. They are created
    by [errors.New] (one by [fmt.Errorf]) and compared by identity. *)
Inductive sentinel : Type :=
(* context, io, net, net/http, pgx *)
| Canceled | DeadlineExceeded
| EOF | ErrUnexpectedEOF | ErrClosedPipe | ErrNetClosed
| ErrServerClosed | ErrNoRows | ErrTxClosed | ErrTxCommitRollback
(* httpapi *)
| errInvalidEvent | errUnsupportedEvent | ErrCanonicalEvent | ErrSinkUnavailable
(* durable *)
| ErrInvalidAcceptance | ErrReceiptGeneration | ErrStoreUnavailable | ErrStoreOutcomeUnknown
| ErrStoreCanceled | ErrStoreFailure | ErrStoredRecordUnreadable
(* intake *)
| ErrIntakeInvalidRequest | ErrIntakeCanceled
(* protection *)
| ErrProtectionInvalid | ErrProtectionKeyUnavailable | ErrProtectionRandom | ErrProtectionFailed
| ErrProtectedDigestUnreadable
(* authentication *)
| ErrConfigurationInvalid | ErrRequestInvalid | ErrAuthenticationFailed | ErrForbidden
| ErrUnavailable | ErrAuthCanceled
(* securitystate *)
| ErrInvalidState | ErrAudienceMismatch | ErrAudienceUnavailable | ErrCredentialNotFound
| ErrSecretUnavailable | ErrPrincipalNotAuthorized | ErrReplayUnavailable | ErrReplayOutcomeUnknown
| ErrDestinationNotFound | ErrVerifierKeyUnavailable
| ErrDestinationLifecycleInvalid | ErrDestinationLifecycleConflict
| ErrDestinationLifecycleReconciliation | ErrDestinationLifecycleUnavailable
| ErrDestinationLifecycleOutcomeUnknown | ErrDestinationLifecycleCanceled
| ErrDestinationLifecycleDeadline
| ErrDestinationTokenRotationInvalid | ErrDestinationTokenRotationConflict
| ErrDestinationTokenRotationUnavailable | ErrDestinationTokenRotationOutcomeUnknown
| ErrDestinationTokenRotationReconciliation | ErrDestinationTokenRotationCanceled
| ErrDestinationTokenRotationDeadline
(* postgres *)
| ErrConfigMissing | ErrConfigInvalid | ErrConnect | ErrSchemaQuery | ErrMigrationLock
| ErrMigration | ErrMigrationInterrupted | ErrSchemaAhead | ErrSchemaInvalid
| ErrAuthenticationStateUnavailable | ErrAuthenticationStateIntegrity
| ErrDestinationResolverUnavailable | ErrDestinationResolverIntegrity.

#[export] Instance sentinel_eq_dec : EqDecision sentinel.
Proof. solve_decision. Defined.

(** * Error values *)

(** What a traversal can observe of an error type defined outside the
    repository: whether the interface holds a typed nil pointer, whether it is
    a [*pgconn.PgError] (with its SQLSTATE and constraint name), a pgconn
    timeout, a [*pgconn.ConnectError] or a [net.Error], whether its type is
    comparable without methods [Is] and [Unwrap], and the targets its own [Is]
    method accepts. [f_id] distinguishes values. *)
Record foreign : Type := Foreign_ {
  f_id : Z;
  f_typed_nil : bool;
  f_pg : option (bytes * bytes);
  f_timeout : bool;
  f_connect : bool;
  f_net : bool;
  f_plain : bool;
  f_is : list sentinel
}.

#[export] Instance foreign_eq_dec : EqDecision foreign.
Proof. solve_decision. Defined.

Definition plain_foreign (id : Z) : foreign := Foreign_ id false None false false false false [].

#[warnings="-register-all"]
Inductive error : Type :=
| Sentinel (s : sentinel)
| SafeErr (kind : error) (operation : bytes)        (* *postgres.SafeError *)
| InternalErr (kind : error) (destroy : bool)       (* postgres.lifecycleInternalError *)
| ReplayUnknown (cancellation : option sentinel)    (* postgres.replayOutcomeUnknownError *)
| Foreign (d : foreign) (many : bool) (causes : list error).
  (* any other dynamic type: [many] when it has Unwrap() []error *)

Coercion Sentinel : sentinel >-> error.

(** A Go result [(value, err)] whose value is meaningful only without error. *)
Inductive result (A : Type) : Type :=
| Ok (a : A)
| Err (e : error).
Arguments Ok {A} _.
Arguments Err {A} _.

Definition is_ok {A} (r : result A) : bool := match r with Ok _ => true | Err _ => false end.

(** [err == target] for a comparable error and a sentinel target. *)
Definition is_sentinel (e : error) (t : sentinel) : bool :=
  match e with Sentinel s => s =?? t | _ => false end.

Definition opt_is_sentinel (e : option error) (t : sentinel) : bool :=
  match e with None => false | Some e => is_sentinel e t end.

(** [errors.Unwrap]. *)
Definition errors_unwrap (e : error) : option error :=
  match e with
  | Sentinel ErrMigrationInterrupted => Some (Sentinel ErrMigration)
  | Sentinel _ => None
  | SafeErr k _ => Some k
  | InternalErr k _ => Some k
  | ReplayUnknown _ => None
  | Foreign _ true _ => None
  | Foreign _ false causes => head causes
  end.

(** The error has a method [Unwrap() []error]. *)
Definition unwraps_many (e : error) : bool :=
  match e with Foreign _ many _ => many | _ => false end.

Definition typed_nil (e : error) : bool :=
  match e with Foreign d _ _ => f_typed_nil d | _ => false end.

(** [errors.Is(err, target)]: pre-order traversal of the whole error tree. *)
Fixpoint errors_is (e : error) (t : sentinel) : bool :=
  match e with
  | Sentinel s => (s =?? t) || ((s =?? ErrMigrationInterrupted) && (t =?? ErrMigration))
  | SafeErr k _ => errors_is k t
  | InternalErr k _ => is_sentinel k t || errors_is k t
  | ReplayUnknown c => (t =?? ErrReplayOutcomeUnknown) || (c =?? Some t)
  | Foreign d many causes =>
      existsb (fun s => s =?? t) (f_is d) ||
      (if many then existsb (fun c => errors_is c t) causes
       else match causes with [] => false | c :: _ => errors_is c t end)
  end.

Definition opt_errors_is (e : option error) (t : sentinel) : bool :=
  match e with None => false | Some e => errors_is e t end.

(** The first node of the tree, in [errors.As] order, that satisfies a test. *)
Fixpoint errors_as {X} (f : foreign -> option X) (e : error) : option X :=
  match e with
  | Sentinel _ | ReplayUnknown _ => None
  | SafeErr k _ | InternalErr k _ => errors_as f k
  | Foreign d many causes =>
      match f d with
      | Some x => Some x
      | None =>
          if many then
            (fix go cs := match cs with
               | [] => None
               | c :: cs => match errors_as f c with Some x => Some x | None => go cs end
               end) causes
          else match causes with [] => None | c :: _ => errors_as f c end
      end
  end.

(** [errors.Join(a, b)] of two non-nil errors. *)
Definition errors_join (a b : error) : error := Foreign (plain_foreign 0) true [a; b].

(** * The bounded single-cause traversal *)

(** [singleCauseMatches]: follow [Unwrap() error] at most [fuel] times, give
    up on a typed nil and on an error with several causes, and succeed at a
    node identical to the target. *)
Fixpoint single_cause_from (fuel : nat) (cur : option error) (t : sentinel) : bool :=
  match fuel, cur with
  | S fuel, Some e =>
      if typed_nil e then false
      else if unwraps_many e then false
      else if is_sentinel e t then true
      else single_cause_from fuel (errors_unwrap e) t
  | _, _ => false
  end.

Definition maximumDependencyErrorDepth : nat := 64.

Definition singleCauseMatches (e : error) (t : sentinel) : bool :=
  single_cause_from maximumDependencyErrorDepth (Some e) t.

(** [lifecycleRepositorySingleCauseChain]: the whole chain is single-cause and
    ends within the bound. *)
Fixpoint single_chain_from (fuel : nat) (e : error) : bool :=
  match fuel with
  | O => false
  | S fuel =>
      if typed_nil e then false
      else if unwraps_many e then false
      else match errors_unwrap e with
           | None => true
           | Some e' => single_chain_from fuel e'
           end
  end.

Definition lifecycleRepositorySingleCauseChain (e : error) : bool :=
  single_chain_from maximumDependencyErrorDepth e.

(** [singleCausePostgresError]: a [*pgconn.PgError] on the single-cause chain. *)
Fixpoint single_pg_from (fuel : nat) (cur : option error) : bool :=
  match fuel, cur with
  | S fuel, Some e =>
      if typed_nil e then false
      else if unwraps_many e then false
      else match e with
           | Foreign d _ _ => if f_pg d is Some _ then true else single_pg_from fuel (errors_unwrap e)
           | _ => single_pg_from fuel (errors_unwrap e)
           end
  | _, _ => false
  end.

Definition singleCausePostgresError (e : error) : bool :=
  single_pg_from maximumDependencyErrorDepth (Some e).

(** * Postgres errors *)

(** [safeError(kind, operation)]. *)
Definition safeError (kind : sentinel) (operation : string) : error :=
  SafeErr (Sentinel kind) (lit operation).

Definition has_prefix (p s : bytes) : bool := bool_decide (p `prefix_of` s).

(** [isConnectionInterruption]. *)
Definition isConnectionInterruption (e : error) : bool :=
  if errors_is e Canceled || errors_is e DeadlineExceeded ||
     errors_is e EOF || errors_is e ErrUnexpectedEOF ||
     errors_is e ErrClosedPipe || errors_is e ErrNetClosed ||
     bool_decide (is_Some (errors_as (fun d => if f_timeout d then Some tt else None) e))
  then true
  else
    match errors_as f_pg e with
    | Some (code, _) =>
        has_prefix (lit "08") code || (code =?? lit "40003") || (code =?? lit "57P01") ||
        (code =?? lit "57P02") || (code =?? lit "57P03") || (code =?? lit "57P04") ||
        (code =?? lit "57P05")
    | None =>
        bool_decide (is_Some (errors_as (fun d => if f_connect d then Some tt else None) e)) ||
        bool_decide (is_Some (errors_as (fun d => if f_net d then Some tt else None) e))
    end.

Definition opt_interruption (e : option error) : bool :=
  match e with None => false | Some e => isConnectionInterruption e end.

(** [err != nil]. *)
Definition is_err (e : option error) : bool := match e with Some _ => true | None => false end.

(** * Contexts *)

(** The context a call receives: a nil interface, the caller's context, or a
    context detached from the caller's cancellation with its own time limit. *)
Inductive Ctx : Type :=
| CtxNil
| CtxReq
| CtxDetached (limit : Z).

#[export] Instance Ctx_eq_dec : EqDecision Ctx.
Proof. solve_decision. Defined.

Definition ctx_is_nil (c : Ctx) : bool := c =?? CtxNil.

(** * Facts *)

Lemma is_sentinel_true e t : is_sentinel e t = true <-> e = Sentinel t.
Proof.
  destruct e; simpl; try (split; congruence). rewrite bool_decide_eq_true. split; congruence.
Qed.

Lemma errors_is_refl t : errors_is (Sentinel t) t = true.
Proof. simpl. by rewrite bool_decide_true. Qed.

Lemma errors_is_unwrap e e' t :
  errors_unwrap e = Some e' -> errors_is e' t = true -> errors_is e t = true.
Proof.
  destruct e as [s|k o|k d|c|d [] [|c cs]]; simpl; intros He H; simplify_eq; try done.
  - destruct s; simplify_eq. by destruct t.
  - rewrite H. by rewrite orb_true_r.
  - rewrite H. by rewrite orb_true_r.
Qed.

(** The bounded traversal never claims a cause that [errors.Is] would not. *)
Lemma single_cause_errors_is e t : singleCauseMatches e t = true -> errors_is e t = true.
Proof.
  unfold singleCauseMatches. generalize maximumDependencyErrorDepth as n.
  intros n. revert e. induction n as [|n IH]; intros e; simpl; [done|].
  destruct (typed_nil e), (unwraps_many e); try done.
  destruct (is_sentinel e t) eqn:Es.
  - intros _. apply is_sentinel_true in Es as ->. apply errors_is_refl.
  - destruct (errors_unwrap e) as [e'|] eqn:Eu.
    + intros H. eapply errors_is_unwrap; eauto.
    + by destruct n.
Qed.

Lemma single_cause_self t : singleCauseMatches (Sentinel t) t = true.
Proof. unfold singleCauseMatches. simpl. by rewrite bool_decide_true. Qed.

Lemma single_cause_safe k t o :
  singleCauseMatches (safeError k o) t = single_cause_from 63 (Some (Sentinel k)) t.
Proof. done. Qed.

Lemma single_cause_many d cs t : singleCauseMatches (Foreign d true cs) t = false.
Proof. unfold singleCauseMatches. simpl. by destruct (f_typed_nil d). Qed.
