(* ===== verification/GoTime.v ===== *)
(** Go's [time.Time] and [time.Duration] as the code uses them.

    A [time.Time] is its number of nanoseconds since January 1, year 1 UTC,
    so the zero value of the Go type is 0 and [IsZero] is the test for 0.
    A [time.Duration] is a signed 64-bit number of nanoseconds; [Time.Sub]
    saturates at its bounds. [Time.Add] is exact: a [time.Time] counts seconds
    in 64 bits, which sums of a date and a few durations do not exceed.

    The methods of [time.Time] compare instants. The operator [==] on structs
    also compares the location and the monotonic clock reading; the code uses
    it on one struct that holds times, [Destination], and [TimeRep] represents
    them there. *)

From S2P Require Import Prelude.

Definition Time := Z.
Definition Duration := Z.

(** What a [time.Time] carries beside its instant: the location it points to and
    the monotonic clock reading, if it has one. *)
Record TimeRep : Type := mkRep { tr_location : Z; tr_monotonic : option Z }.

#[export] Instance TimeRep_eq_dec : EqDecision TimeRep.
Proof. solve_decision. Defined.

(** A [time.Time] as a struct: equal instants in UTC and in another location are
    not [==]. *)
Abbreviation Stamp := (Time * TimeRep)%type.

Definition utc_rep : TimeRep := mkRep 0 None.

Definition int64_min : Z := - 2 ^ 63.
Definition int64_max : Z := 2 ^ 63 - 1.

Definition Microsecond : Duration := 1000.
Definition Second : Duration := 1000000000.
Definition Minute : Duration := 60 * Second.
Definition Hour : Duration := 60 * Minute.

Definition zero_time : Time := 0.
Definition t_is_zero (t : Time) : bool := t =? 0.
Definition t_before (t u : Time) : bool := t <? u.
Definition t_after (t u : Time) : bool := u <? t.
Definition t_equal (t u : Time) : bool := t =? u.
Definition t_add (t : Time) (d : Duration) : Time := t + d.

(** [t.Sub(u)]: saturating at the bounds of int64. *)
Definition t_sub (t u : Time) : Duration := Z.max int64_min (Z.min int64_max (t - u)).

(** [t.Truncate(d)]: round down to a multiple of d since the zero time. *)
Definition t_truncate (t : Time) (d : Duration) : Time :=
  if d <=? 0 then t else t - t mod d.

(** Seconds between year 1 and 1970. *)
Definition unixToInternal : Z := 62135596800.

(** [t.Unix()]. *)
Definition t_unix (t : Time) : Z := t / Second - unixToInternal.

(** The instant of a Unix timestamp in seconds. *)
Definition of_unix (s : Z) : Time := (s + unixToInternal) * Second.

(** [uint64(z)] of an int64. *)
Definition to_uint64 (z : Z) : Z := z mod 2 ^ 64.

Ltac unfold_time :=
  unfold t_is_zero, t_before, t_after, t_equal, t_add, t_sub, zero_time,
    int64_min, int64_max, Time, Duration in *.

(** Boolean guards on times, durations and identities turned into
    propositions, ready for [lia] and [congruence]. *)
Ltac bool_hyps :=
  repeat match goal with
  | H : (_ && _) = true |- _ => apply andb_prop in H as [? ?]
  | H : (_ || _) = false |- _ => apply orb_false_elim in H as [? ?]
  | H : (_ && _) = false |- _ => apply andb_false_iff in H
  | H : (_ || _) = true |- _ => apply orb_true_iff in H
  | H : negb _ = true |- _ => apply negb_true_iff in H
  | H : negb _ = false |- _ => apply negb_false_iff in H
  | H : bool_decide _ = true |- _ => apply bool_decide_eq_true in H
  | H : bool_decide _ = false |- _ => apply bool_decide_eq_false in H
  | H : (_ =? _) = true |- _ => apply Z.eqb_eq in H
  | H : (_ =? _) = false |- _ => apply Z.eqb_neq in H
  | H : (_ <? _) = true |- _ => apply Z.ltb_lt in H
  | H : (_ <? _) = false |- _ => apply Z.ltb_ge in H
  | H : (_ <=? _) = true |- _ => apply Z.leb_le in H
  | H : (_ <=? _) = false |- _ => apply Z.leb_gt in H
  | H : arr_is_zero _ = false |- _ => apply arr_is_zero_false in H
  | H : arr_is_zero _ = true |- _ => apply arr_is_zero_true in H
  end.

Lemma t_sub_le t u d :
  int64_min <= d < int64_max -> t_sub t u <= d <-> t - u <= d.
Proof. unfold_time. lia. Qed.

Lemma t_truncate_le t : t_truncate t Microsecond <= t < t_truncate t Microsecond + Microsecond.
Proof.
  unfold t_truncate, Microsecond. simpl.
  pose proof (Z.mod_pos_bound t 1000 ltac:(lia)). lia.
Qed.

Lemma t_truncate_idem t : t_truncate (t_truncate t Microsecond) Microsecond = t_truncate t Microsecond.
Proof.
  unfold t_truncate, Microsecond. simpl.
  replace (t - t mod 1000) with (1000 * (t / 1000)) by (pose proof (Z.div_mod t 1000); lia).
  rewrite (Z.mul_comm 1000), Z.mod_mul by lia. lia.
Qed.

Lemma t_unix_of_unix s : t_unix (of_unix s) = s.
Proof. unfold t_unix, of_unix, Second. rewrite Z.div_mul by lia. lia. Qed.
