(* ===== verification/Encoding.v ===== *)
(** The encodings of Go's standard library the code relies on: hexadecimal,
    unpadded URL-safe base64, big-endian integers, decimal integers and UTF-8,
    with their round-trip and injectivity lemmas. *)

From S2P Require Import Prelude.

(** * Hexadecimal ([encoding/hex]) *)

Definition hexDigit (z : Z) : byte :=
  nth (Z.to_nat z) (lit "0123456789abcdef") x00.

Definition hexVal (b : byte) : option Z :=
  let v := bZ b in
  if (48 <=? v) && (v <=? 57) then Some (v - 48)
  else if (97 <=? v) && (v <=? 102) then Some (v - 87)
  else if (65 <=? v) && (v <=? 70) then Some (v - 55)
  else None.

Fixpoint hexEncode (l : bytes) : bytes :=
  match l with
  | [] => []
  | b :: l => hexDigit (bZ b / 16) :: hexDigit (bZ b mod 16) :: hexEncode l
  end.

(** [hex.DecodeString]: accepts both letter cases, rejects odd lengths. *)
Fixpoint hexDecode (s : bytes) : option bytes :=
  match s with
  | [] => Some []
  | h :: l :: s =>
      match hexVal h, hexVal l, hexDecode s with
      | Some a, Some b, Some r => Some (Zb (16 * a + b) :: r)
      | _, _, _ => None
      end
  | _ => None
  end.

Definition is_lower_hex (b : byte) : bool :=
  let v := bZ b in ((48 <=? v) && (v <=? 57)) || ((97 <=? v) && (v <=? 102)).

Lemma hexEncode_length l : length (hexEncode l) = (2 * length l)%nat.
Proof. induction l as [|b l IH]; simpl; lia. Qed.

Lemma hexEncode_app l k : hexEncode (l ++ k) = hexEncode l ++ hexEncode k.
Proof. induction l as [|b l IH]; simpl; [done|]. by rewrite IH. Qed.

Lemma hex_byte_roundtrip b :
  (match hexVal (hexDigit (bZ b / 16)), hexVal (hexDigit (bZ b mod 16)) with
   | Some x, Some y => Zb (16 * x + y) =?? b
   | _, _ => false
   end) = true.
Proof. byte_cases b. Qed.

Lemma hexDecode_encode l : hexDecode (hexEncode l) = Some l.
Proof.
  induction l as [|b l IH]; simpl; [done|]. rewrite IH.
  pose proof (hex_byte_roundtrip b) as H.
  destruct (hexVal (hexDigit (bZ b / 16))), (hexVal (hexDigit (bZ b mod 16))); try done.
  by apply bool_decide_eq_true in H as ->.
Qed.

Lemma hexEncode_inj l k : hexEncode l = hexEncode k -> l = k.
Proof.
  intros H. apply (f_equal hexDecode) in H. rewrite !hexDecode_encode in H. by simplify_eq.
Qed.

Lemma hexEncode_lower l : Forall (fun b => is_lower_hex b = true) (hexEncode l).
Proof.
  induction l as [|b l IH]; simpl; [constructor|].
  assert (is_lower_hex (hexDigit (bZ b / 16)) && is_lower_hex (hexDigit (bZ b mod 16)) = true)
    as [? ?]%andb_prop by byte_cases b.
  by repeat constructor.
Qed.

(** Induction two elements at a time. *)
Lemma list_ind2 {A} (P : list A -> Prop) :
  P [] -> (forall x, P [x]) -> (forall x y l, P l -> P (x :: y :: l)) -> forall l, P l.
Proof.
  intros H0 H1 H2. fix IH 1. intros [|x [|y l]]; [done|done|]. apply H2, IH.
Qed.

Lemma hexDecode_length s l : hexDecode s = Some l -> length s = (2 * length l)%nat.
Proof.
  revert l. induction s as [|h|h b s IH] using list_ind2; simpl; intros l H; simplify_eq; [done|].
  destruct (hexVal h), (hexVal b), (hexDecode s); simplify_eq.
  simpl. rewrite (IH _ eq_refl). lia.
Qed.

Lemma hex_pair_inv h l :
  is_lower_hex h = true -> is_lower_hex l = true ->
  exists x y, hexVal h = Some x /\ hexVal l = Some y /\
    hexDigit (bZ (Zb (16 * x + y)) / 16) = h /\ hexDigit (bZ (Zb (16 * x + y)) mod 16) = l.
Proof.
  intros Hh Hl.
  assert (forall b, is_lower_hex b = true -> exists x, hexVal b = Some x /\ 0 <= x < 16 /\ hexDigit x = b) as Hv.
  { intros b Hb.
    assert ((if is_lower_hex b then match hexVal b with
              Some x => (0 <=? x) && (x <? 16) && (hexDigit x =?? b) | None => false end
             else true) = true) as H by (clear Hb; byte_cases b).
    rewrite Hb in H. destruct (hexVal b) as [x|]; [|done]. exists x.
    apply andb_prop in H as [[? ?]%andb_prop ?%bool_decide_eq_true]. repeat split; auto; lia. }
  destruct (Hv h Hh) as (x & -> & ? & <-), (Hv l Hl) as (y & -> & ? & <-).
  exists x, y. rewrite bZ_Zb, Z.mod_small by lia.
  replace ((16 * x + y) / 16) with x by (apply Z.div_unique with y; lia).
  replace ((16 * x + y) mod 16) with y by (apply Z.mod_unique with x; lia). done.
Qed.

(** A lower-case hexadecimal text is the encoding of what it decodes to. *)
Lemma hexEncode_decode s l :
  Forall (fun b => is_lower_hex b = true) s -> hexDecode s = Some l -> hexEncode l = s.
Proof.
  revert l. induction s as [|h|h b s IH] using list_ind2; simpl; intros l Hf H; simplify_eq; [done|].
  apply Forall_cons in Hf as [Hh Hf]. apply Forall_cons in Hf as [Hb Hf].
  destruct (hex_pair_inv h b Hh Hb) as (x & y & Hx & Hy & E1 & E2).
  rewrite Hx, Hy in H. destruct (hexDecode s) as [r|]; [|done]. injection H as <-.
  cbn [hexEncode]. by rewrite E1, E2, (IH r).
Qed.

Lemma hexVal_lower_or_upper b x :
  hexVal b = Some x -> is_lower_hex b = false -> 65 <= bZ b <= 90.
Proof.
  assert ((match hexVal b with Some _ => is_lower_hex b || ((65 <=? bZ b) && (bZ b <=? 90))
           | None => true end) = true) as H by byte_cases b.
  intros Hx Hl. rewrite Hx, Hl in H. simpl in H. lia.
Qed.

(** * Unpadded URL-safe base64 ([base64.RawURLEncoding]) *)

Definition b64Alphabet : bytes :=
  lit "ABCDEFGHIJKLMNOPQRSTUVWXYZabcdefghijklmnopqrstuvwxyz0123456789-_".

Definition b64Digit (z : Z) : byte := nth (Z.to_nat z) b64Alphabet x00.

Definition b64Val (b : byte) : option Z :=
  let v := bZ b in
  if (65 <=? v) && (v <=? 90) then Some (v - 65)
  else if (97 <=? v) && (v <=? 122) then Some (v - 71)
  else if (48 <=? v) && (v <=? 57) then Some (v + 4)
  else if v =? 45 then Some 62
  else if v =? 95 then Some 63
  else None.

Fixpoint b64Encode (l : bytes) : bytes :=
  match l with
  | [] => []
  | [a] => [b64Digit (bZ a / 4); b64Digit (bZ a mod 4 * 16)]
  | [a; b] =>
      [b64Digit (bZ a / 4); b64Digit (bZ a mod 4 * 16 + bZ b / 16);
       b64Digit (bZ b mod 16 * 4)]
  | a :: b :: c :: l =>
      b64Digit (bZ a / 4) :: b64Digit (bZ a mod 4 * 16 + bZ b / 16) ::
      b64Digit (bZ b mod 16 * 4 + bZ c / 64) :: b64Digit (bZ c mod 64) :: b64Encode l
  end.

(** Decoding of the 6-bit values; the decoder is not strict about the unused
    low bits of the last character. *)
Fixpoint b64Bytes (vs : list Z) : option bytes :=
  match vs with
  | [] => Some []
  | [_] => None
  | [a; b] => Some [Zb (a * 4 + b / 16)]
  | [a; b; c] => Some [Zb (a * 4 + b / 16); Zb (b mod 16 * 16 + c / 4)]
  | a :: b :: c :: d :: vs =>
      match b64Bytes vs with
      | Some r => Some (Zb (a * 4 + b / 16) :: Zb (b mod 16 * 16 + c / 4) ::
                        Zb (c mod 4 * 64 + d) :: r)
      | None => None
      end
  end.

(** [base64.RawURLEncoding.DecodeString]: carriage returns and line feeds are
    skipped, any other character outside the alphabet is an error. *)
Definition is_crlf (b : byte) : bool := (bZ b =? 10) || (bZ b =? 13).

Definition b64Decode (s : bytes) : option bytes :=
  match mapM b64Val (filter (fun b => is_crlf b = false) s) with
  | Some vs => b64Bytes vs
  | None => None
  end.

Lemma list_ind3 {A} (P : list A -> Prop) :
  P [] -> (forall x, P [x]) -> (forall x y, P [x; y]) ->
  (forall x y z l, P l -> P (x :: y :: z :: l)) -> forall l, P l.
Proof.
  intros H0 H1 H2 H3. fix IH 1. intros [|x [|y [|z l]]]; [done|done|done|]. apply H3, IH.
Qed.

Lemma b64Digit_val z : 0 <= z < 64 -> b64Val (b64Digit z) = Some z /\ is_crlf (b64Digit z) = false.
Proof.
  intros Hz.
  assert (forallb (fun z => (b64Val (b64Digit z) =?? Some z) && negb (is_crlf (b64Digit z)))
            (seqZ 0 64) = true) as H by (vm_compute; reflexivity).
  rewrite forallb_forall in H. specialize (H z).
  rewrite <- list_elem_of_In, elem_of_seqZ in H. specialize (H ltac:(lia)).
  apply andb_prop in H as [H1 H2]. apply bool_decide_eq_true in H1. apply negb_true_iff in H2. done.
Qed.

Lemma b64_sextets a b :
  let x := bZ a in let y := bZ b in
  0 <= x / 4 < 64 /\ 0 <= x mod 4 * 16 + y / 16 < 64 /\ 0 <= y mod 16 * 4 < 64 /\
  0 <= x mod 16 * 4 + y / 64 < 64 /\ 0 <= x mod 64 < 64.
Proof.
  simpl. pose proof (bZ_range a). pose proof (bZ_range b).
  repeat split; try (apply Z.div_pos; lia); try (apply Z.div_lt_upper_bound; lia);
    pose proof (Z.mod_pos_bound (bZ a) 4); pose proof (Z.mod_pos_bound (bZ a) 16);
    pose proof (Z.mod_pos_bound (bZ b) 16); pose proof (Z.mod_pos_bound (bZ a) 64);
    pose proof (Z.div_pos (bZ b) 16); pose proof (Z.div_pos (bZ b) 64);
    pose proof (Z.div_lt_upper_bound (bZ b) 16 16); pose proof (Z.div_lt_upper_bound (bZ b) 64 4); lia.
Qed.

Lemma b64_decode_cons z s :
  0 <= z < 64 ->
  mapM b64Val (filter (fun b => is_crlf b = false) (b64Digit z :: s)) =
  (vs ← mapM b64Val (filter (fun b => is_crlf b = false) s); Some (z :: vs)).
Proof.
  intros Hz. destruct (b64Digit_val z Hz) as [H1 H2].
  rewrite filter_cons_True by done. simpl. by rewrite H1.
Qed.

Lemma zdiv_split a b k x : 0 <= b < k -> 0 < k -> x = a * k + b -> x / k = a /\ x mod k = b.
Proof.
  intros Hb Hk ->. split.
  - symmetry. apply Z.div_unique with b; lia.
  - symmetry. apply Z.mod_unique with a; lia.
Qed.

Lemma b64_fst a b : Zb (bZ a / 4 * 4 + (bZ a mod 4 * 16 + bZ b / 16) / 16) = a.
Proof.
  pose proof (bZ_range b).
  destruct (zdiv_split (bZ a mod 4) (bZ b / 16) 16 (bZ a mod 4 * 16 + bZ b / 16)) as [-> _];
    [split; [apply Z.div_pos; lia | apply Z.div_lt_upper_bound; lia] | lia | done | ].
  rewrite <- (Zb_bZ a) at 3. f_equal. pose proof (Z.div_mod (bZ a) 4). lia.
Qed.

Lemma b64_snd a b c :
  Zb ((bZ a mod 4 * 16 + bZ b / 16) mod 16 * 16 + (bZ b mod 16 * 4 + bZ c / 64) / 4) = b.
Proof.
  pose proof (bZ_range b). pose proof (bZ_range c).
  destruct (zdiv_split (bZ a mod 4) (bZ b / 16) 16 (bZ a mod 4 * 16 + bZ b / 16)) as [_ ->];
    [split; [apply Z.div_pos; lia | apply Z.div_lt_upper_bound; lia] | lia | done | ].
  destruct (zdiv_split (bZ b mod 16) (bZ c / 64) 4 (bZ b mod 16 * 4 + bZ c / 64)) as [-> _];
    [split; [apply Z.div_pos; lia | apply Z.div_lt_upper_bound; lia] | lia | done | ].
  rewrite <- (Zb_bZ b) at 3. f_equal. pose proof (Z.div_mod (bZ b) 16). lia.
Qed.

Lemma b64_thd b c : Zb ((bZ b mod 16 * 4 + bZ c / 64) mod 4 * 64 + bZ c mod 64) = c.
Proof.
  pose proof (bZ_range c).
  destruct (zdiv_split (bZ b mod 16) (bZ c / 64) 4 (bZ b mod 16 * 4 + bZ c / 64)) as [_ ->];
    [split; [apply Z.div_pos; lia | apply Z.div_lt_upper_bound; lia] | lia | done | ].
  rewrite <- (Zb_bZ c) at 3. f_equal. pose proof (Z.div_mod (bZ c) 64). lia.
Qed.

Lemma b64Decode_encode l : b64Decode (b64Encode l) = Some l.
Proof.
  unfold b64Decode.
  enough (exists vs, mapM b64Val (filter (fun b => is_crlf b = false) (b64Encode l)) = Some vs
                     /\ b64Bytes vs = Some l) as (vs & -> & H) by done.
  induction l as [|a|a b|a b c l (vs & IH1 & IH2)] using list_ind3.
  - by exists [].
  - destruct (b64_sextets a x00) as (H1 & H2 & _).
    change (bZ x00 / 16) with 0 in H2. rewrite Z.add_0_r in H2.
    cbn [b64Encode]. rewrite !b64_decode_cons by done. simpl. eexists. split; [done|].
    simpl. do 2 f_equal. rewrite <- (Zb_bZ a) at 3. f_equal.
    rewrite Z.div_mul by lia. pose proof (Z.div_mod (bZ a) 4). lia.
  - destruct (b64_sextets a b) as (H1 & H2 & H3 & _).
    cbn [b64Encode]. rewrite !b64_decode_cons by done. simpl. eexists. split; [done|].
    simpl. pose proof (b64_snd a b x00) as Hs. change (bZ x00 / 64) with 0 in Hs.
    rewrite Z.add_0_r in Hs. by rewrite b64_fst, Hs.
  - destruct (b64_sextets a b) as (H1 & H2 & H3 & _), (b64_sextets b c) as (_ & _ & _ & H4 & _).
    destruct (b64_sextets c c) as (_ & _ & _ & _ & H5).
    cbn [b64Encode]. rewrite !b64_decode_cons, IH1 by done. simpl. eexists. split; [done|].
    simpl. rewrite IH2. by rewrite b64_fst, b64_snd, b64_thd.
Qed.

Lemma b64Encode_inj l k : b64Encode l = b64Encode k -> l = k.
Proof.
  intros H. apply (f_equal b64Decode) in H. rewrite !b64Decode_encode in H. by simplify_eq.
Qed.

Lemma b64Encode_alphabet l : Forall (fun b => b ∈ b64Alphabet) (b64Encode l).
Proof.
  assert (forall z, 0 <= z < 64 -> b64Digit z ∈ b64Alphabet) as Hd.
  { intros z Hz. unfold b64Digit. apply list_elem_of_In, nth_In. change (length b64Alphabet) with 64%nat. lia. }
  induction l as [|a|a b|a b c l IH] using list_ind3; cbn [b64Encode].
  - constructor.
  - destruct (b64_sextets a x00) as (H1 & H2 & _).
    change (bZ x00 / 16) with 0 in H2. rewrite Z.add_0_r in H2.
    repeat (apply Forall_cons_2; [by apply Hd|]). apply Forall_nil_2.
  - destruct (b64_sextets a b) as (H1 & H2 & H3 & _).
    repeat (apply Forall_cons_2; [by apply Hd|]). apply Forall_nil_2.
  - destruct (b64_sextets a b) as (H1 & H2 & H3 & _), (b64_sextets b c) as (_ & _ & _ & H4 & _).
    destruct (b64_sextets c c) as (_ & _ & _ & _ & H5).
    repeat (apply Forall_cons_2; [by apply Hd|]). done.
Qed.

Lemma b64Encode_length l : length (b64Encode l) = ((4 * length l + 2) / 3)%nat.
Proof.
  induction l as [|a|a b|a b c l IH] using list_ind3; [done|done|done|].
  cbn [b64Encode length]. rewrite IH.
  replace (4 * S (S (S (length l))) + 2)%nat with ((4 * length l + 2) + 4 * 3)%nat by lia.
  rewrite Nat.div_add by lia. lia.
Qed.

(** * Big-endian integers ([encoding/binary]) *)

(** The [n] bytes of [z], most significant first: [AppendUint32] for n = 4 and
    [AppendUint64] for n = 8. *)
Fixpoint beBytes (n : nat) (z : Z) : bytes :=
  match n with
  | O => []
  | S m => Zb (z / 256 ^ Z.of_nat m) :: beBytes m z
  end.

Fixpoint beVal (l : bytes) : Z :=
  match l with
  | [] => 0
  | b :: l => bZ b * 256 ^ Z.of_nat (length l) + beVal l
  end.

Lemma beBytes_length n z : length (beBytes n z) = n.
Proof. induction n; simpl; congruence. Qed.

Lemma beVal_bytes n z : beVal (beBytes n z) = z mod 256 ^ Z.of_nat n.
Proof.
  induction n as [|m IH]; [by rewrite Z.mod_1_r|].
  cbn [beBytes beVal]. rewrite beBytes_length, IH, bZ_Zb.
  rewrite Nat2Z.inj_succ, Z.pow_succ_r by lia.
  rewrite (Z.mul_comm 256), Z.rem_mul_r by (try apply Z.pow_nonzero; lia). lia.
Qed.

Lemma beBytes_inj n a b :
  0 <= a < 256 ^ Z.of_nat n -> 0 <= b < 256 ^ Z.of_nat n -> beBytes n a = beBytes n b -> a = b.
Proof.
  intros Ha Hb H. apply (f_equal beVal) in H. rewrite !beVal_bytes in H.
  by rewrite !Z.mod_small in H.
Qed.

(** * Decimal integers ([strconv]) *)

Definition decDigit (z : Z) : byte := Zb (48 + z).

Fixpoint decLoop (fuel : nat) (z : Z) (acc : bytes) : bytes :=
  match fuel with
  | O => acc
  | S fuel =>
      if z <? 10 then decDigit z :: acc
      else decLoop fuel (z / 10) (decDigit (z mod 10) :: acc)
  end.

(** [strconv.AppendInt(nil, z, 10)] of an int64: at most 19 digits. *)
Definition formatInt (z : Z) : bytes :=
  if z <? 0 then lit "-" ++ decLoop 20 (- z) [] else decLoop 20 z [].

Definition is_digit (b : byte) : bool := (48 <=? bZ b) && (bZ b <=? 57).

Definition decVal (l : bytes) : Z := foldl (fun a b => 10 * a + (bZ b - 48)) 0 l.

Lemma decDigit_val z : 0 <= z < 10 -> bZ (decDigit z) = 48 + z.
Proof. intros. unfold decDigit. rewrite bZ_Zb, Z.mod_small; lia. Qed.

Lemma decLoop_app fuel z acc : decLoop fuel z acc = decLoop fuel z [] ++ acc.
Proof.
  revert z acc. induction fuel as [|f IH]; intros z acc; simpl; [done|].
  destruct (z <? 10); [done|]. rewrite IH, (IH _ [_]), <- app_assoc. done.
Qed.

Lemma decLoop_val fuel z : 0 <= z < 10 ^ Z.of_nat fuel -> decVal (decLoop fuel z []) = z.
Proof.
  revert z. induction fuel as [|f IH]; intros z Hz; [simpl in *; unfold decVal; simpl; lia|].
  cbn [decLoop]. destruct (Z.ltb_spec z 10).
  - unfold decVal. cbn [foldl]. rewrite decDigit_val by lia. lia.
  - rewrite decLoop_app. unfold decVal. rewrite foldl_app. fold (decVal (decLoop f (z / 10) [])).
    rewrite Nat2Z.inj_succ, Z.pow_succ_r in Hz by lia.
    rewrite IH by (split; [apply Z.div_pos | apply Z.div_lt_upper_bound]; lia).
    cbn [foldl]. pose proof (Z.mod_pos_bound z 10). rewrite decDigit_val by lia.
    pose proof (Z.div_mod z 10). lia.
Qed.

Lemma decLoop_digits fuel z acc :
  0 <= z -> Forall (fun b => is_digit b = true) acc ->
  Forall (fun b => is_digit b = true) (decLoop fuel z acc).
Proof.
  revert z acc. induction fuel as [|f IH]; intros z acc Hz Hacc; simpl; [done|].
  assert (forall d, 0 <= d < 10 -> is_digit (decDigit d) = true) as Hd.
  { intros d Hd. unfold is_digit. rewrite decDigit_val by lia. lia. }
  pose proof (Z.mod_pos_bound z 10).
  destruct (Z.ltb_spec z 10).
  - constructor; [apply Hd; lia|done].
  - apply IH; [apply Z.div_pos; lia|]. constructor; [apply Hd; lia|done].
Qed.

Lemma formatInt_inj a b :
  - 10 ^ 20 < a < 10 ^ 20 -> - 10 ^ 20 < b < 10 ^ 20 -> formatInt a = formatInt b -> a = b.
Proof.
  intros Ha Hb. unfold formatInt.
  assert (forall z r, 0 <= z -> lit "-" ++ r <> decLoop 20 z []) as Hm.
  { intros z r Hz H. pose proof (decLoop_digits 20 z [] Hz (Forall_nil_2 _)) as Hd.
    rewrite <- H in Hd. by apply Forall_cons in Hd as [? _]. }
  destruct (Z.ltb_spec a 0), (Z.ltb_spec b 0); intros E.
  - apply app_inv_head in E. apply (f_equal decVal) in E. rewrite !decLoop_val in E by (change (Z.of_nat 20) with 20; lia). lia.
  - by apply Hm in E; [|lia].
  - symmetry in E. by apply Hm in E; [|lia].
  - apply (f_equal decVal) in E. rewrite !decLoop_val in E by (change (Z.of_nat 20) with 20; lia). lia.
Qed.

(** [strconv.ParseUint(s, 10, 64)] of a text that consists of digits: fails on
    overflow, and on the empty text. *)
Definition parseUintDigits (s : bytes) : option Z :=
  match s with
  | [] => None
  | _ => if decVal s <? 2 ^ 64 then Some (decVal s) else None
  end.

(** * UTF-8 ([unicode/utf8]) *)

Definition in_range (lo hi : Z) (b : byte) : bool := (lo <=? bZ b) && (bZ b <=? hi).
Definition is_cont (b : byte) : bool := in_range 128 191 b.

Definition RuneError : Z := 65533.

(** [utf8.DecodeRune]: the first rune and its width; [(RuneError, 1)] for an
    invalid encoding and [(RuneError, 0)] for an empty text. The accepted
    second bytes exclude overlong encodings, surrogates and values above
    U+10FFFF. *)
Definition decodeRune (s : bytes) : Z * nat :=
  match s with
  | [] => (RuneError, O)
  | b0 :: s =>
      let v := bZ b0 in
      if v <? 128 then (v, 1%nat)
      else if in_range 194 223 b0 then
        match s with
        | b1 :: _ => if is_cont b1 then ((v - 192) * 64 + (bZ b1 - 128), 2%nat) else (RuneError, 1%nat)
        | _ => (RuneError, 1%nat)
        end
      else if in_range 224 239 b0 then
        match s with
        | b1 :: b2 :: _ =>
            if in_range (if v =? 224 then 160 else 128) (if v =? 237 then 159 else 191) b1 && is_cont b2
            then ((v - 224) * 4096 + (bZ b1 - 128) * 64 + (bZ b2 - 128), 3%nat)
            else (RuneError, 1%nat)
        | _ => (RuneError, 1%nat)
        end
      else if in_range 240 244 b0 then
        match s with
        | b1 :: b2 :: b3 :: _ =>
            if in_range (if v =? 240 then 144 else 128) (if v =? 244 then 143 else 191) b1 &&
               is_cont b2 && is_cont b3
            then ((v - 240) * 262144 + (bZ b1 - 128) * 4096 + (bZ b2 - 128) * 64 + (bZ b3 - 128), 4%nat)
            else (RuneError, 1%nat)
        | _ => (RuneError, 1%nat)
        end
      else (RuneError, 1%nat)
  end.

(** An invalid encoding at the head of a non-empty text. *)
Definition rune_invalid (s : bytes) : bool :=
  let '(r, n) := decodeRune s in (r =? RuneError) && (n =?? 1%nat).

Fixpoint validLoop (fuel : nat) (s : bytes) : bool :=
  match s with
  | [] => true
  | _ =>
      match fuel with
      | O => false
      | S fuel => if rune_invalid s then false else validLoop fuel (drop (decodeRune s).2 s)
      end
  end.

(** [utf8.Valid] and [utf8.ValidString]. *)
Definition utf8Valid (s : bytes) : bool := validLoop (length s) s.

Lemma decodeRune_width s : s <> [] -> (1 <= (decodeRune s).2 <= length s)%nat.
Proof.
  destruct s as [|b0 s]; [done|]. intros _. unfold decodeRune.
  repeat case_match; simpl; lia.
Qed.

Lemma decodeRune_ascii b s : bZ b < 128 -> decodeRune (b :: s) = (bZ b, 1%nat).
Proof. intros H. simpl. by apply Z.ltb_lt in H as ->. Qed.

Lemma in_range_true lo hi b : in_range lo hi b = true <-> lo <= bZ b <= hi.
Proof. unfold in_range. lia. Qed.

Lemma validLoop_mono n m s : (n <= m)%nat -> validLoop n s = true -> validLoop m s = true.
Proof.
  revert m s. induction n as [|n IH]; intros m s Hm; destruct s as [|b s]; try done.
  - by destruct m.
  - by destruct m.
  - destruct m as [|m]; [lia|]. cbn [validLoop]. destruct (rune_invalid (b :: s)); [done|].
    apply IH. lia.
Qed.

(** Unfolding of the validity test, one rune at a time. *)
Lemma utf8Valid_step s :
  s <> [] -> utf8Valid s = true ->
  rune_invalid s = false /\ utf8Valid (drop (decodeRune s).2 s) = true.
Proof.
  intros Hs. unfold utf8Valid. destruct s as [|b s]; [done|].
  pose proof (decodeRune_width (b :: s) Hs) as Hw.
  cbn [length validLoop]. destruct (rune_invalid (b :: s)); [done|]. intros H. split; [done|].
  assert (forall n t, validLoop n t = true -> validLoop (length t) t = true) as Hlen.
  { induction n as [|n IH]; intros t Ht; destruct t as [|c t]; try done.
    cbn [validLoop length] in *. destruct (rune_invalid (c :: t)); [done|].
    apply IH in Ht. eapply validLoop_mono; [|exact Ht].
    pose proof (decodeRune_width (c :: t) ltac:(done)). rewrite length_drop. simpl in *. lia. }
  by apply Hlen in H.
Qed.

(** All bytes of a multi-byte rune of a valid text are outside ASCII. *)
Lemma decodeRune_high b s :
  128 <= bZ b -> rune_invalid (b :: s) = false ->
  Forall (fun c => 128 <= bZ c) (take (decodeRune (b :: s)).2 (b :: s)).
Proof.
  intros Hb. unfold rune_invalid, decodeRune.
  repeat case_match; simplify_eq; intros Hi; simpl in *; try done; try lia;
    repeat match goal with
    | H : (_ && _) = true |- _ => apply andb_prop in H as [? ?]
    | H : is_cont _ = true |- _ => unfold is_cont in H
    | H : in_range _ _ _ = true |- _ => apply in_range_true in H
    end; repeat constructor; try lia; repeat case_match; lia.
Qed.
