(* ===== verification/Uuid.v ===== *)
(** Textual UUIDs: [formatUUID] (internal/durable/types.go and
    internal/securitystate/types.go), the two [parseUUID] functions, and the
    version-4 bit settings of the identifier generators. *)

From S2P Require Import Prelude GoErrors Encoding.

(** [value[i:j]]. *)
Definition slice (i j : nat) (s : bytes) : bytes := take (j - i) (drop i s).

Definition dash : byte := x2d.

(** [formatUUID]: identical in both packages. *)
Definition formatUUID (value : arr 16) : bytes :=
  let v := arr_list value in
  hexEncode (slice 0 4 v) ++ [dash] ++ hexEncode (slice 4 6 v) ++ [dash] ++
  hexEncode (slice 6 8 v) ++ [dash] ++ hexEncode (slice 8 10 v) ++ [dash] ++
  hexEncode (slice 10 16 v).

Definition uuid_dashes (value : bytes) : bool :=
  (value !! 8%nat =?? Some dash) && (value !! 13%nat =?? Some dash) &&
  (value !! 18%nat =?? Some dash) && (value !! 23%nat =?? Some dash).

Definition uuid_compact (value : bytes) : bytes :=
  slice 0 8 value ++ slice 9 13 value ++ slice 14 18 value ++ slice 19 23 value ++
  slice 24 36 value.

(** [durable.parseUUID]: accepts upper-case digits, rejects the nil UUID. *)
Definition durable_parseUUID (value : bytes) : result (arr 16) :=
  if (length value <>?? 36%nat) || negb (uuid_dashes value) then Err ErrInvalidAcceptance
  else match hexDecode (uuid_compact value) with
       | None => Err ErrInvalidAcceptance
       | Some decoded =>
           if length decoded <>?? 16%nat then Err ErrInvalidAcceptance
           else let result := mk_arr 16 decoded in
                if arr_is_zero result then Err ErrInvalidAcceptance else Ok result
       end.

Definition is_upper (b : byte) : bool := (65 <=? bZ b) && (bZ b <=? 90).

(** [strings.ToLower(value) == value] on ASCII text. A text with other bytes
    is refused by the hexadecimal decoding that follows, with the same error. *)
Definition lower_case (value : bytes) : bool := forallb (fun b => negb (is_upper b)) value.

Definition uuid_byte (value : arr 16) (i : nat) : Z := bZ (nth i (arr_list value) x00).

(** The version and variant bits of a random (version 4) UUID. *)
Definition is_v4 (value : arr 16) : bool :=
  (Z.shiftr (uuid_byte value 6) 4 =? 4) && (Z.shiftr (uuid_byte value 8) 6 =? 2).

(** [securitystate.parseUUID]: lower case only, optionally version 4 only. *)
Definition state_parseUUID (value : bytes) (requireV4 : bool) : result (arr 16) :=
  if (length value <>?? 36%nat) || negb (lower_case value) || negb (uuid_dashes value)
  then Err ErrInvalidState
  else match hexDecode (uuid_compact value) with
       | None => Err ErrInvalidState
       | Some decoded =>
           if length decoded <>?? 16%nat then Err ErrInvalidState
           else let result := mk_arr 16 decoded in
                if arr_is_zero result || (requireV4 && negb (is_v4 result))
                then Err ErrInvalidState else Ok result
       end.

(** [value[6] = value[6]&0x0f | 0x40] and [value[8] = value[8]&0x3f | 0x80]. *)
Definition set_v4_bits (value : bytes) : bytes :=
  let b6 := nth 6 value x00 in
  let b8 := nth 8 value x00 in
  <[8%nat := Zb (Z.lor (Z.land (bZ b8) 63) 128)]>
    (<[6%nat := Zb (Z.lor (Z.land (bZ b6) 15) 64)]> value).

(** * Lemmas *)

Ltac arr16 value :=
  let l := fresh "l" in let H := fresh "H" in
  destruct value as [l H];
  do 16 (destruct l as [|? l]; [discriminate|]); destruct l as [|? l]; [|discriminate].

Lemma formatUUID_length v : length (formatUUID v) = 36%nat.
Proof. by arr16 v. Qed.

Lemma formatUUID_dashes v : uuid_dashes (formatUUID v) = true.
Proof. by arr16 v. Qed.

Lemma formatUUID_compact v : uuid_compact (formatUUID v) = hexEncode (arr_list v).
Proof. by arr16 v. Qed.

Lemma formatUUID_lower_forall v : Forall (fun b => is_lower_hex b = true \/ b = dash) (formatUUID v).
Proof.
  assert (forall l, Forall (fun b => is_lower_hex b = true \/ b = dash) (hexEncode l)) as Hh.
  { intros l. eapply Forall_impl; [apply hexEncode_lower|]. auto. }
  unfold formatUUID. repeat (apply Forall_app_2; [auto; by repeat constructor|]).
  repeat (apply Forall_app_2 || apply Forall_cons_2); auto.
Qed.

Lemma lower_hex_not_upper b : is_lower_hex b = true \/ b = dash -> is_upper b = false.
Proof.
  assert ((if is_lower_hex b || (b =?? dash) then negb (is_upper b) else true) = true) as H
    by byte_cases b.
  intros Hb. replace (is_lower_hex b || (b =?? dash)) with true in H; [by apply negb_true_iff in H|].
  symmetry. apply orb_true_iff. destruct Hb as [Hb|Hb]; [auto|]. right. by apply bool_decide_eq_true.
Qed.

Lemma formatUUID_lower v : lower_case (formatUUID v) = true.
Proof.
  unfold lower_case. apply forallb_forall. intros b Hb%list_elem_of_In.
  apply negb_true_iff, lower_hex_not_upper.
  revert b Hb. apply Forall_forall, formatUUID_lower_forall.
Qed.

Lemma formatUUID_inj v w : formatUUID v = formatUUID w -> v = w.
Proof.
  intros H. apply (f_equal uuid_compact) in H. rewrite !formatUUID_compact in H.
  by apply hexEncode_inj, arr_eq in H.
Qed.

#[export] Instance formatUUID_Inj : Inj (=) (=) formatUUID := formatUUID_inj.

Lemma durable_parse_format v : arr_is_zero v = false -> durable_parseUUID (formatUUID v) = Ok v.
Proof.
  intros Hz. unfold durable_parseUUID.
  rewrite formatUUID_length, formatUUID_dashes, formatUUID_compact, hexDecode_encode. simpl.
  rewrite arr_length. simpl. rewrite mk_arr_id. by rewrite Hz.
Qed.

Lemma state_parse_format v req :
  arr_is_zero v = false -> (req = true -> is_v4 v = true) ->
  state_parseUUID (formatUUID v) req = Ok v.
Proof.
  intros Hz Hv. unfold state_parseUUID.
  rewrite formatUUID_length, formatUUID_lower, formatUUID_dashes, formatUUID_compact, hexDecode_encode.
  simpl. rewrite arr_length. simpl. rewrite mk_arr_id, Hz.
  destruct req; simpl; [by rewrite Hv|done].
Qed.

Lemma hexDecode_forall s l : hexDecode s = Some l -> Forall (fun b => is_Some (hexVal b)) s.
Proof.
  revert l. induction s as [|h|h b s IH] using list_ind2; simpl; intros l H; simplify_eq; [done|].
  destruct (hexVal h) eqn:?, (hexVal b) eqn:?, (hexDecode s) eqn:?; simplify_eq.
  repeat constructor; eauto.
Qed.

Lemma uuid_compact_lower v :
  lower_case v = true -> Forall (fun b => is_upper b = false) (uuid_compact v).
Proof.
  intros H. assert (Forall (fun b => is_upper b = false) v) as Hf.
  { apply Forall_forall. intros b Hb%list_elem_of_In. unfold lower_case in H.
    rewrite forallb_forall in H. by apply negb_true_iff, H. }
  unfold uuid_compact, slice.
  repeat (apply Forall_app_2); apply Forall_take, Forall_drop, Hf.
Qed.

(** The text is determined by its compact digits and the four dashes. *)
Lemma uuid_text_of_compact v id :
  length v = 36%nat -> uuid_dashes v = true -> hexEncode (arr_list id) = uuid_compact v ->
  formatUUID id = v.
Proof.
  intros Hlen Hd Hc.
  do 36 (destruct v as [|? v]; [discriminate|]). destruct v as [|? v]; [|discriminate].
  unfold uuid_dashes in Hd. cbn in Hd.
  repeat match goal with
  | H : (_ && _) = true |- _ => apply andb_prop in H as [? ?]
  | H : bool_decide _ = true |- _ => apply bool_decide_eq_true in H; injection H as ->
  end.
  arr16 id. cbn -[hexDigit Z.div Z.modulo] in Hc. unfold formatUUID.
  cbn -[hexDigit Z.div Z.modulo]. by simplify_eq.
Qed.

Lemma hexDecode_canonical s l :
  hexDecode s = Some l -> Forall (fun b => is_upper b = false) s -> hexEncode l = s.
Proof.
  intros Hd Hu. apply hexEncode_decode; [|done].
  apply hexDecode_forall in Hd. apply Forall_forall. intros b Hb.
  rewrite Forall_forall in Hd, Hu. destruct (Hd b Hb) as [x Hx]. specialize (Hu b Hb).
  destruct (is_lower_hex b) eqn:El; [done|].
  pose proof (hexVal_lower_or_upper b x Hx El). unfold is_upper in Hu. lia.
Qed.

(** A text that parses is the canonical text of the value it parses to. *)
Lemma state_parseUUID_inv v req id :
  state_parseUUID v req = Ok id ->
  v = formatUUID id /\ arr_is_zero id = false /\ (req = true -> is_v4 id = true).
Proof.
  unfold state_parseUUID. intros H. repeat case_match; simplify_eq.
  repeat match goal with
  | H : (_ || _) = false |- _ => apply orb_false_elim in H as [? ?]
  | H : negb _ = false |- _ => apply negb_false_iff in H
  | H : bool_decide _ = true |- _ => apply bool_decide_eq_true in H
  end.
  split; [|split; [done|]].
  - symmetry. apply uuid_text_of_compact; [done|done|].
    rewrite mk_arr_exact by done. apply hexDecode_canonical; [done|]. by apply uuid_compact_lower.
  - intros ->. match goal with H : (true && negb _) = false |- _ => by apply negb_false_iff in H end.
Qed.

Lemma state_parseUUID_err v req e : state_parseUUID v req = Err e -> e = ErrInvalidState.
Proof. unfold state_parseUUID. intros H. repeat case_match; by simplify_eq. Qed.

Lemma durable_parseUUID_inv v id :
  durable_parseUUID v = Ok id -> length v = 36%nat /\ arr_is_zero id = false.
Proof.
  unfold durable_parseUUID. intros H. repeat case_match; simplify_eq.
  repeat match goal with
  | H : (_ || _) = false |- _ => apply orb_false_elim in H as [? ?]
  | H : negb _ = false |- _ => apply negb_false_iff in H
  | H : bool_decide _ = true |- _ => apply bool_decide_eq_true in H
  end. done.
Qed.

(** The generated identifiers are never zero and always version 4. *)
Lemma set_v4_bits_v4 l : length l = 16%nat -> is_v4 (mk_arr 16 (set_v4_bits l)) = true.
Proof.
  intros Hl. unfold is_v4, uuid_byte.
  rewrite mk_arr_exact by (unfold set_v4_bits; rewrite !length_insert; done).
  do 16 (destruct l as [|? l]; [discriminate|]). destruct l as [|? l]; [|discriminate].
  clear Hl. unfold set_v4_bits. cbn -[Z.shiftr Z.land Z.lor bZ Zb].
  match goal with |- (Z.shiftr (bZ (Zb (Z.lor (Z.land (bZ ?b) 15) 64))) 4 =? 4) && _ = true =>
    assert ((Z.shiftr (bZ (Zb (Z.lor (Z.land (bZ b) 15) 64))) 4 =? 4) = true) as -> by byte_cases b end.
  match goal with |- true && (Z.shiftr (bZ (Zb (Z.lor (Z.land (bZ ?b) 63) 128))) 6 =? 2) = true =>
    byte_cases b end.
Qed.

Lemma v4_nonzero v : is_v4 v = true -> arr_is_zero v = false.
Proof. intros H. apply arr_is_zero_false. intros ->. vm_compute in H. discriminate. Qed.

(** * Database columns *)

(** A [uuid] column given as text: the value PostgreSQL stores. *)
Definition pg_uuid (value : bytes) : option (arr 16) :=
  if (length value =?? 36%nat) && uuid_dashes value then
    match hexDecode (uuid_compact value) with
    | Some l => if length l =?? 16%nat then Some (mk_arr 16 l) else None
    | None => None
    end
  else None.

Lemma pg_uuid_format v : pg_uuid (formatUUID v) = Some v.
Proof.
  unfold pg_uuid. rewrite formatUUID_length, formatUUID_dashes, formatUUID_compact, hexDecode_encode.
  cbn [andb bool_decide]. rewrite arr_length, mk_arr_id. done.
Qed.
