(* ===== verification/Sha256.v ===== *)
(** SHA-256 ([crypto/sha256]) and HMAC-SHA-256 ([crypto/hmac]), as specified
    by FIPS 180-4 and FIPS 198-1, over lists of bytes with 32-bit words kept
    at their width. *)

From S2P Require Import Prelude Encoding.

Definition w32 (z : Z) : Z := Z.land z (2 ^ 32 - 1).
Definition rotr (n x : Z) : Z := Z.lor (Z.shiftr x n) (w32 (Z.shiftl x (32 - n))).

Definition bigSigma0 x := Z.lxor (rotr 2 x) (Z.lxor (rotr 13 x) (rotr 22 x)).
Definition bigSigma1 x := Z.lxor (rotr 6 x) (Z.lxor (rotr 11 x) (rotr 25 x)).
Definition smallSigma0 x := Z.lxor (rotr 7 x) (Z.lxor (rotr 18 x) (Z.shiftr x 3)).
Definition smallSigma1 x := Z.lxor (rotr 17 x) (Z.lxor (rotr 19 x) (Z.shiftr x 10)).
Definition choose x y z := Z.lxor (Z.land x y) (Z.land (Z.lxor x (2 ^ 32 - 1)) z).
Definition majority x y z := Z.lxor (Z.land x y) (Z.lxor (Z.land x z) (Z.land y z)).

(** FIPS 180-4 defines its constants by the first primes: the first 32 bits of
    the fractional parts of their cube roots and square roots. *)
Definition is_prime (n : Z) : bool :=
  forallb (fun d => negb (n mod d =? 0)) (seqZ 2 (n - 2)).
Definition primes (n : nat) : list Z := take n (filter (fun k => is_prime k = true) (seqZ 2 400)).

(** The largest [r] with [r ^ 3 <= x], bit by bit from [b]. *)
Fixpoint cube_root (b : nat) (r x : Z) : Z :=
  let r' := r + 2 ^ Z.of_nat b in
  let next := if r' ^ 3 <=? x then r' else r in
  match b with O => next | S b => cube_root b next x end.

Definition roundConstants : list Z := Eval vm_compute in
  map (fun q => w32 (cube_root 35 0 (q * 2 ^ 96))) (primes 64).

Definition initialHash : list Z := Eval vm_compute in
  map (fun q => w32 (Z.sqrt (q * 2 ^ 64))) (primes 8).

(** The message schedule, newest word first, from the sixteen block words. *)
Fixpoint schedule (n : nat) (ws : list Z) : list Z :=
  match n with
  | O => ws
  | S n =>
      let w := w32 (smallSigma1 (nth 1 ws 0) + nth 6 ws 0 + smallSigma0 (nth 14 ws 0) + nth 15 ws 0) in
      schedule n (w :: ws)
  end.

Definition round (st : list Z) (kw : Z * Z) : list Z :=
  match st with
  | [a; b; c; d; e; f; g; h] =>
      let t1 := h + bigSigma1 e + choose e f g + kw.1 + kw.2 in
      let t2 := bigSigma0 a + majority a b c in
      [w32 (t1 + t2); a; b; c; w32 (d + t1); e; f; g]
  | _ => st
  end.

Definition compress (st : list Z) (block : list Z) : list Z :=
  let w := rev (schedule 48 (rev block)) in
  zip_with (fun x y => w32 (x + y)) st (foldl round st (zip roundConstants w)).

(** Split into consecutive chunks of [n] elements; [fuel] bounds their number. *)
Fixpoint chunks {A} (fuel n : nat) (l : list A) : list (list A) :=
  match fuel, l with
  | S fuel, _ :: _ => take n l :: chunks fuel n (drop n l)
  | _, _ => []
  end.

(** A one bit, zeros up to 56 bytes modulo 64, and the length in bits. *)
Definition sha_pad (m : bytes) : bytes :=
  let len := Z.of_nat (length m) in
  m ++ [x80] ++ replicate (Z.to_nat ((55 - len) mod 64)) x00 ++ beBytes 8 (8 * len).

Definition sha256_words (m : bytes) : list Z :=
  let p := sha_pad m in
  foldl compress initialHash
    (map (fun blk => map beVal (chunks 16 4 blk)) (chunks (length p) 64 p)).

Definition sha256_list (m : bytes) : bytes := concat (map (beBytes 4) (sha256_words m)).

(** [sha256.Sum256]. *)
Definition Sum256 (m : bytes) : arr 32 := mk_arr 32 (sha256_list m).

(** * HMAC *)

Definition xor_byte (k : Z) (b : byte) : byte := Zb (Z.lxor k (bZ b)).

Definition hmac_key (key : bytes) : bytes :=
  let k := if (64 <? Z.of_nat (length key)) then arr_list (Sum256 key) else key in
  k ++ replicate (64 - length k) x00.

(** [hmac.New(sha256.New, key)] after [Write(message)], [Sum(nil)]. *)
Definition HMAC_SHA256 (key message : bytes) : arr 32 :=
  let k := hmac_key key in
  Sum256 (map (xor_byte 0x5c) k ++ arr_list (Sum256 (map (xor_byte 0x36) k ++ message))).

(** * Known answers (FIPS 180-4, RFC 4231) *)

Example sha256_empty :
  hexEncode (Sum256 []) = lit "e3b0c44298fc1c149afbf4c8996fb92427ae41e4649b934ca495991b7852b855".
Proof. vm_compute. reflexivity. Qed.

Example sha256_abc :
  hexEncode (Sum256 (lit "abc")) =
  lit "ba7816bf8f01cfea414140de5dae2223b00361a396177a9cb410ff61f20015ad".
Proof. vm_compute. reflexivity. Qed.

Example sha256_two_blocks :
  hexEncode (Sum256 (lit "abcdbcdecdefdefgefghfghighijhijkijkljklmklmnlmnomnopnopq")) =
  lit "248d6a61d20638b8e5c026930c3e6039a33ce45964ff2167f6ecedd419db06c1".
Proof. vm_compute. reflexivity. Qed.

Example hmac_rfc4231_2 :
  hexEncode (HMAC_SHA256 (lit "Jefe") (lit "what do ya want for nothing?")) =
  lit "5bdcc146bf60754e6a042426089575c75a003f089d2739839dec58b964ec3843".
Proof. vm_compute. reflexivity. Qed.
