(* ===== verification/AesGcm.v ===== *)
(** AES-256-GCM ([crypto/aes], [crypto/cipher]) as specified by FIPS 197 and
    NIST SP 800-38D with a 96-bit nonce and a 128-bit tag, and the interface
    [AEAD] the payload protection is verified against. *)

From S2P Require Import Prelude Encoding.

(** * The interface *)

(** Authenticated encryption: [seal key nonce plaintext aad] and
    [aead_open key nonce ciphertext aad]. *)
Class AEAD : Type := {
  aead_nonce_size : nat;
  aead_overhead : nat;
  seal : bytes -> bytes -> bytes -> bytes -> bytes;
  aead_open : bytes -> bytes -> bytes -> bytes -> option bytes
}.

(** What a caller may rely on: opening recovers what was sealed under the same
    key, nonce and additional data, and a ciphertext carries a tag. *)
Class AEADLaws (A : AEAD) : Prop := {
  open_seal key nonce plaintext aad :
    length nonce = aead_nonce_size ->
    aead_open key nonce (seal key nonce plaintext aad) aad = Some plaintext;
  seal_length key nonce plaintext aad :
    length (seal key nonce plaintext aad) = (length plaintext + aead_overhead)%nat;
  overhead_pos : (0 < aead_overhead)%nat
}.

(** * AES-256 *)

Definition sbox : list Z := Eval vm_compute in
  match hexDecode (lit ("637c777bf26b6fc53001672bfed7ab76ca82c97dfa5947f0add4a2af9ca472c0" ++
    "b7fd9326363ff7cc34a5e5f171d8311504c723c31896059a071280e2eb27b275" ++
    "09832c1a1b6e5aa0523bd6b329e32f8453d100ed20fcb15b6acbbe394a4c58cf" ++
    "d0efaafb434d338545f9027f503c9fa851a3408f929d38f5bcb6da2110fff3d2" ++
    "cd0c13ec5f974417c4a77e3d645d197360814fdc222a908846eeb814de5e0bdb" ++
    "e0323a0a4906245cc2d3ac629195e479e7c8376d8dd54ea96c56f4ea657aae08" ++
    "ba78252e1ca6b4c6e8dd741f4bbd8b8a703eb5664803f60e613557b986c11d9e" ++
    "e1f8981169d98e949b1e87e9ce5528df8ca1890dbfe6426841992d0fb054bb16")%string) with
  | Some l => map bZ l
  | None => []
  end.

Definition subByte (x : Z) : Z := nth (Z.to_nat x) sbox 0.

(** Multiplication by x in GF(2^8). *)
Definition xtime (x : Z) : Z :=
  let y := Z.land (Z.shiftl x 1) 255 in
  if Z.testbit x 7 then Z.lxor y 0x1b else y.

Definition xorZ (a b : list Z) : list Z := zip_with Z.lxor a b.

(** The expanded key as 4-byte words, newest first; [i] counts from 8. *)
Fixpoint expandKey (n : nat) (i : nat) (rcon : Z) (ws : list (list Z)) : list (list Z) :=
  match n with
  | O => ws
  | S n =>
      let prev := nth 0 ws [] in
      let temp :=
        if (i mod 8 =? 0)%nat then
          match map subByte (drop 1 prev ++ take 1 prev) with
          | x :: r => Z.lxor x rcon :: r
          | [] => []
          end
        else if (i mod 8 =? 4)%nat then map subByte prev
        else prev in
      let rcon' := if (i mod 8 =? 0)%nat then xtime rcon else rcon in
      expandKey n (S i) rcon' (xorZ (nth 7 ws []) temp :: ws)
  end.

Fixpoint group {A} (fuel n : nat) (l : list A) : list (list A) :=
  match fuel with
  | O => []
  | S fuel => take n l :: group fuel n (drop n l)
  end.

(** Fifteen 16-byte round keys. *)
Definition roundKeys (key : bytes) : list (list Z) :=
  let words := rev (expandKey 52 8 1 (rev (group 8 4 (map bZ key)))) in
  group 15 16 (concat words).

Definition shiftRows (s : list Z) : list Z :=
  map (fun i => nth i s 0) [0; 5; 10; 15; 4; 9; 14; 3; 8; 13; 2; 7; 12; 1; 6; 11]%nat.

Definition mixColumn (c : list Z) : list Z :=
  match c with
  | [a0; a1; a2; a3] =>
      let x3 x := Z.lxor (xtime x) x in
      [ Z.lxor (Z.lxor (xtime a0) (x3 a1)) (Z.lxor a2 a3);
        Z.lxor (Z.lxor a0 (xtime a1)) (Z.lxor (x3 a2) a3);
        Z.lxor (Z.lxor a0 a1) (Z.lxor (xtime a2) (x3 a3));
        Z.lxor (Z.lxor (x3 a0) a1) (Z.lxor a2 (xtime a3)) ]
  | _ => c
  end.

Definition mixColumns (s : list Z) : list Z := concat (map mixColumn (group 4 4 s)).

Fixpoint aesRounds (ks : list (list Z)) (s : list Z) : list Z :=
  match ks with
  | [] => s
  | [k] => xorZ (shiftRows (map subByte s)) k
  | k :: ks => aesRounds ks (xorZ (mixColumns (shiftRows (map subByte s))) k)
  end.

(** One block encryption with an expanded key. *)
Definition aesBlock (ks : list (list Z)) (block : bytes) : bytes :=
  match ks with
  | [] => arr_list (mk_arr 16 [])
  | k :: ks => arr_list (mk_arr 16 (map Zb (aesRounds ks (xorZ (map bZ block) k))))
  end.

(** * Galois/Counter Mode over an arbitrary 16-byte block function *)

Section GCM.
Context (block : bytes -> bytes).

Definition block16 (b : bytes) : bytes := arr_list (mk_arr 16 (block b)).

Fixpoint gfMulLoop (n : nat) (x v z : Z) : Z :=
  match n with
  | O => z
  | S n =>
      let z' := if Z.testbit x (Z.of_nat n) then Z.lxor z v else z in
      let v' := if Z.testbit v 0 then Z.lxor (Z.shiftr v 1) (Z.shiftl 0xe1 120) else Z.shiftr v 1 in
      gfMulLoop n x v' z'
  end.

(** Multiplication in GF(2^128) with GCM's bit order. *)
Definition gfMul (x y : Z) : Z := gfMulLoop 128 x y 0.

Definition pad16 (l : bytes) : bytes := l ++ replicate ((16 - length l mod 16) mod 16) x00.

Definition ghash (h : Z) (data : bytes) : Z :=
  foldl (fun y blk => gfMul (Z.lxor y (beVal blk)) h) 0 (group (length data / 16) 16 data).

Definition counterBlock (nonce : bytes) (i : Z) : bytes := nonce ++ beBytes 4 i.

Fixpoint keyStream (n : nat) (nonce : bytes) (i : Z) : bytes :=
  match n with
  | O => []
  | S n => block16 (counterBlock nonce i) ++ keyStream n nonce (i + 1)
  end.

Definition xorBytes (a k : bytes) : bytes := zip_with (fun x y => Zb (Z.lxor (bZ x) (bZ y))) a k.

Definition gcmCrypt (nonce data : bytes) : bytes :=
  xorBytes data (keyStream (S (length data / 16)) nonce 2).

Definition gcmTag (nonce aad ciphertext : bytes) : bytes :=
  let h := beVal (block16 (replicate 16 x00)) in
  let lens := beBytes 8 (8 * Z.of_nat (length aad)) ++ beBytes 8 (8 * Z.of_nat (length ciphertext)) in
  let s := ghash h (pad16 aad ++ pad16 ciphertext ++ lens) in
  beBytes 16 (Z.lxor s (beVal (block16 (counterBlock nonce 1)))).

Definition gcmSeal (nonce plaintext aad : bytes) : bytes :=
  let c := gcmCrypt nonce plaintext in c ++ gcmTag nonce aad c.

Definition gcmOpen (nonce ciphertext aad : bytes) : option bytes :=
  if (length ciphertext <? 16)%nat then None
  else
    let n := (length ciphertext - 16)%nat in
    let c := take n ciphertext in
    if drop n ciphertext =?? gcmTag nonce aad c then Some (gcmCrypt nonce c) else None.

Lemma keyStream_length n nonce i : length (keyStream n nonce i) = (16 * n)%nat.
Proof.
  revert i. induction n as [|n IH]; intros i; [done|]. cbn [keyStream].
  rewrite length_app, IH. unfold block16. rewrite arr_length. lia.
Qed.

Lemma xor_byte_cancel x y : Zb (Z.lxor (bZ (Zb (Z.lxor (bZ x) (bZ y)))) (bZ y)) = x.
Proof.
  rewrite bZ_Zb, Z.mod_small.
  - by rewrite Z.lxor_assoc, Z.lxor_nilpotent, Z.lxor_0_r, Zb_bZ.
  - pose proof (bZ_range x). pose proof (bZ_range y). split; [apply Z.lxor_nonneg; lia|].
    destruct (Z.eq_dec (Z.lxor (bZ x) (bZ y)) 0) as [->|Hn]; [lia|].
    assert (0 <= Z.lxor (bZ x) (bZ y)) by (apply Z.lxor_nonneg; lia).
    apply Z.log2_lt_cancel. change (Z.log2 256) with 8.
    eapply Z.le_lt_trans; [apply Z.log2_lxor; lia|].
    assert (forall b, Z.log2 (bZ b) < 8) as Hlog.
    { intros b. pose proof (bZ_range b). destruct (Z.eq_dec (bZ b) 0) as [->|]; [done|].
      apply Z.log2_lt_pow2; lia. }
    apply Z.max_lub_lt; apply Hlog.
Qed.

Lemma xorBytes_cancel a k : (length a <= length k)%nat -> xorBytes (xorBytes a k) k = a.
Proof.
  revert k. induction a as [|x a IH]; intros [|y k] H; simpl in *; try done; try lia.
  unfold xorBytes in *. simpl. rewrite xor_byte_cancel, IH by lia. done.
Qed.

Lemma gcmCrypt_length nonce data : length (gcmCrypt nonce data) = length data.
Proof.
  unfold gcmCrypt, xorBytes. rewrite length_zip_with_l; [done|].
  rewrite keyStream_length. pose proof (Nat.div_mod_eq (length data) 16).
  pose proof (Nat.mod_upper_bound (length data) 16). lia.
Qed.

Lemma gcmCrypt_involutive nonce data : gcmCrypt nonce (gcmCrypt nonce data) = data.
Proof.
  unfold gcmCrypt at 1. rewrite gcmCrypt_length. unfold gcmCrypt. apply xorBytes_cancel.
  rewrite keyStream_length. pose proof (Nat.div_mod_eq (length data) 16).
  pose proof (Nat.mod_upper_bound (length data) 16). lia.
Qed.

Lemma gcmTag_length nonce aad c : length (gcmTag nonce aad c) = 16%nat.
Proof. unfold gcmTag. apply beBytes_length. Qed.

Lemma gcmSeal_length nonce p aad : length (gcmSeal nonce p aad) = (length p + 16)%nat.
Proof. unfold gcmSeal. by rewrite length_app, gcmTag_length, gcmCrypt_length. Qed.

Lemma gcmOpen_seal nonce p aad : gcmOpen nonce (gcmSeal nonce p aad) aad = Some p.
Proof.
  unfold gcmOpen. rewrite gcmSeal_length.
  destruct (Nat.ltb_spec (length p + 16) 16); [lia|].
  replace (length p + 16 - 16)%nat with (length (gcmCrypt nonce p)) by (rewrite gcmCrypt_length; lia).
  unfold gcmSeal. rewrite take_app_length, drop_app_length. rewrite bool_decide_true by done.
  by rewrite gcmCrypt_involutive.
Qed.
End GCM.

(** * AES-256-GCM *)

#[export] Instance AES256GCM : AEAD := {|
  aead_nonce_size := 12;
  aead_overhead := 16;
  seal key nonce plaintext aad := let ks := roundKeys key in gcmSeal (aesBlock ks) nonce plaintext aad;
  aead_open key nonce ciphertext aad := let ks := roundKeys key in gcmOpen (aesBlock ks) nonce ciphertext aad
|}.

#[export] Instance AES256GCM_laws : AEADLaws AES256GCM.
Proof.
  split.
  - intros. apply gcmOpen_seal.
  - intros. apply gcmSeal_length.
  - simpl. lia.
Qed.

(** FIPS 197, appendix C.3. *)
Example aes256_fips197 :
  match hexDecode (lit "000102030405060708090a0b0c0d0e0f101112131415161718191a1b1c1d1e1f"),
        hexDecode (lit "00112233445566778899aabbccddeeff") with
  | Some key, Some pt => hexEncode (aesBlock (roundKeys key) pt)
  | _, _ => []
  end = lit "8ea2b7ca516745bfeafc49904b496089".
Proof. vm_compute. reflexivity. Qed.

(** GCM test cases 13 and 14: an empty and a one-block message under the zero key. *)
Example aes256_gcm_13 :
  hexEncode (@seal AES256GCM (replicate 32 x00) (replicate 12 x00) [] []) =
  lit "530f8afbc74536b9a963b4f1c4cb738b".
Proof. vm_compute. reflexivity. Qed.

Example aes256_gcm_14 :
  hexEncode (@seal AES256GCM (replicate 32 x00) (replicate 12 x00) (replicate 16 x00) []) =
  lit "cea7403d4d606b6e074ec5d3baf39d18d0d1c8a799996bf0265b98b5d48ab919".
Proof. vm_compute. reflexivity. Qed.
