(* ===== verification/Events.v ===== *)
(** The typed Core webhook events of internal/httpapi/types.go and the
    validation helpers shared by decoding and canonicalisation. *)

From S2P Require Import Prelude GoErrors.

(** [EventType] constants. *)
Definition EventTypeTest : bytes := lit "Test".
Definition EventTypeVerification : bytes := lit "Verification".
Definition EventTypeAlert : bytes := lit "Alert".
Definition EventTypeAlertStatus : bytes := lit "AlertStatus".

(** [AlertState] constants; the Go type is a string. *)
Definition AlertStateUnacknowledged : bytes := lit "Unacknowledged".
Definition AlertStateAcknowledged : bytes := lit "Acknowledged".
Definition AlertStateClosed : bytes := lit "Closed".

Record TestEvent : Type := mkTestEvent { te_AppName : bytes }.

Record VerificationEvent : Type := mkVerificationEvent {
  ve_AppName : bytes;
  ve_Code : bytes
}.

(** [Meta] is a Go map: [None] is the nil map. *)
Record AlertEvent : Type := mkAlertEvent {
  ae_AppName : bytes;
  ae_AlertID : Z;
  ae_Summary : bytes;
  ae_Details : bytes;
  ae_ServiceID : bytes;
  ae_ServiceName : bytes;
  ae_Meta : option (gmap bytes bytes)
}.

Record AlertStatusEvent : Type := mkAlertStatusEvent {
  se_AppName : bytes;
  se_AlertID : Z;
  se_LogEntry : bytes;
  se_AlertState : bytes
}.

(** The four concrete event types. *)
Inductive Event : Type :=
| EvTest (e : TestEvent)
| EvVerification (e : VerificationEvent)
| EvAlert (e : AlertEvent)
| EvAlertStatus (e : AlertStatusEvent).

(** A value of the Go interface [Event]: one of the concrete types, a pointer
    to one (possibly nil), or any other dynamic type; [EIOther] also stands for
    the nil interface. *)
Inductive EventI : Type :=
| EIValue (e : Event)
| EITestPtr (p : option TestEvent)
| EIVerificationPtr (p : option VerificationEvent)
| EIAlertPtr (p : option AlertEvent)
| EIAlertStatusPtr (p : option AlertStatusEvent)
| EIOther (is_nil : bool).

(** [event.Kind()]. *)
Definition Kind (e : Event) : bytes :=
  match e with
  | EvTest _ => EventTypeTest
  | EvVerification _ => EventTypeVerification
  | EvAlert _ => EventTypeAlert
  | EvAlertStatus _ => EventTypeAlertStatus
  end.

(** The event a dynamic value carries, if it carries one. *)
Definition underlying (v : EventI) : option Event :=
  match v with
  | EIValue e => Some e
  | EITestPtr p => EvTest <$> p
  | EIVerificationPtr p => EvVerification <$> p
  | EIAlertPtr p => EvAlert <$> p
  | EIAlertStatusPtr p => EvAlertStatus <$> p
  | EIOther _ => None
  end.

(** [isNilInterface(event)]: a nil interface or a nil pointer. *)
Definition event_is_nil (v : EventI) : bool :=
  match v with
  | EIValue _ => false
  | EITestPtr p => negb (bool_decide (is_Some p))
  | EIVerificationPtr p => negb (bool_decide (is_Some p))
  | EIAlertPtr p => negb (bool_decide (is_Some p))
  | EIAlertStatusPtr p => negb (bool_decide (is_Some p))
  | EIOther n => n
  end.

(** [printableASCII]. *)
Definition printableASCII (value : bytes) : bool :=
  forallb (fun b => (32 <=? bZ b) && (bZ b <=? 126)) value.

(** The range of Go's int64, the type of [AlertID]. *)
Definition int64_range (z : Z) : Prop := - 2 ^ 63 <= z < 2 ^ 63.

Definition event_typed (e : Event) : Prop :=
  match e with
  | EvAlert a => int64_range (ae_AlertID a)
  | EvAlertStatus s => int64_range (se_AlertID s)
  | _ => True
  end.

Record Delivery : Type := mkDelivery { d_Token : bytes; d_Identity : bytes; d_Event : Event }.

Record Acceptance : Type := mkAcceptance { a_ReceiptID : bytes; a_Duplicate : bool }.
