(* ===== verification/Canonical.v ===== *)
(** Canonical Event Format V1: internal/httpapi/canonical.go.

    [appendCanonicalString] is translated with its lazily flushed
    [start]/[index] window and shown equal to a character-by-character escape;
    [CanonicalizeEvent] is deterministic whatever order the Go runtime ranges
    over the metadata map, and injective on events. *)

From stdpp Require Import sorting.
From S2P Require Import Prelude GoErrors Encoding Uuid Sha256 Events.

(** A literal in which every back quote stands for a double quote. *)
Definition jlit (s : string) : bytes := map (fun b => if b =?? x60 then x22 else b) (lit s).

Definition quote : byte := x22.
Definition backslash : byte := x5c.

Definition CanonicalEventFormatVersion : Z := 1.

(** [CanonicalEvent]. *)
Record CanonicalEvent : Type := mkCanonicalEvent {
  ce_formatVersion : Z;
  ce_data : bytes;
  ce_digest : arr 32
}.

(** * appendCanonicalString *)

(** A byte below RuneSelf that is copied unchanged. *)
Definition plain_char (c : byte) : bool :=
  (32 <=? bZ c) && negb (c =?? quote) && negb (c =?? backslash) &&
  negb (c =?? x3c) && negb (c =?? x3e) && negb (c =?? x26).

(** The escape written for any other byte below RuneSelf. *)
Definition escape_char (c : byte) : bytes :=
  if (c =?? quote) || (c =?? backslash) then [backslash; c]
  else if c =?? x08 then lit "\b"
  else if c =?? x0c then lit "\f"
  else if c =?? x0a then lit "\n"
  else if c =?? x0d then lit "\r"
  else if c =?? x09 then lit "\t"
  else lit "\u00" ++ [hexDigit (Z.shiftr (bZ c) 4); hexDigit (Z.land (bZ c) 15)].

Definition is_line_separator (r : Z) : bool := (r =? 0x2028) || (r =? 0x2029).

(** [\u2028] or [\u2029]. *)
Definition escape_separator (r : Z) : bytes := lit "\u202" ++ [hexDigit (Z.land r 15)].

(** The loop of [appendCanonicalString]: [value[start:index]] is pending. Every
    iteration advances [index], so [length value] iterations are enough. *)
Fixpoint canonicalLoop (fuel : nat) (value data : bytes) (start index : nat) : bytes * nat :=
  match fuel with
  | O => (data, start)
  | S fuel =>
      match drop index value with
      | [] => (data, start)
      | (character :: _) as rest =>
          if 128 <=? bZ character then
            let '(runeValue, size) := decodeRune rest in
            if negb (is_line_separator runeValue)
            then canonicalLoop fuel value data start (index + size)
            else canonicalLoop fuel value
                   (data ++ slice start index value ++ escape_separator runeValue)
                   (index + size) (index + size)
          else if plain_char character
          then canonicalLoop fuel value data start (S index)
          else canonicalLoop fuel value
                 (data ++ slice start index value ++ escape_char character) (S index) (S index)
      end
  end.

(** [appendCanonicalString]. *)
Definition appendCanonicalString (data value : bytes) : result bytes :=
  if negb (utf8Valid value) then Err ErrCanonicalEvent
  else
    let '(data, start) := canonicalLoop (length value) value (data ++ [quote]) 0 0 in
    Ok (data ++ drop start value ++ [quote]).

(** * Events *)

(** Go's [<=] on strings, the order of [sort.Strings]. *)
Fixpoint bytes_leb (a b : bytes) : bool :=
  match a, b with
  | [], _ => true
  | _, [] => false
  | x :: a, y :: b => if bZ x =? bZ y then bytes_leb a b else bZ x <? bZ y
  end.

Definition bytes_le (a b : bytes) : Prop := bytes_leb a b = true.

#[export] Instance bytes_le_dec : RelDecision bytes_le.
Proof. intros a b. apply bool_eq_dec. Defined.

(** [sort.Strings]. *)
Definition sortStrings (l : list bytes) : list bytes := merge_sort bytes_le l.

(** Sequencing of steps that may fail. *)
Definition rbind {A B} (r : result A) (f : A -> result B) : result B :=
  match r with Ok a => f a | Err e => Err e end.

Notation "'do' x <- r ; k" := (rbind r (fun x => k))
  (at level 10, x name, r at level 100, k at level 200).

(** [canonicalizeTest]. *)
Definition canonicalizeTest (event : TestEvent) : result bytes :=
  do data <- appendCanonicalString (jlit "{`AppName`:") (te_AppName event);
  Ok (data ++ jlit ",`Type`:`Test`}").

(** [canonicalizeVerification]. *)
Definition canonicalizeVerification (event : VerificationEvent) : result bytes :=
  do data <- appendCanonicalString (jlit "{`AppName`:") (ve_AppName event);
  do data <- appendCanonicalString (data ++ jlit ",`Type`:`Verification`,`Code`:") (ve_Code event);
  Ok (data ++ jlit "}").

(** The loop that writes the sorted metadata; [first] is [index == 0]. *)
Fixpoint appendMeta (data : bytes) (meta : gmap bytes bytes) (keys : list bytes) (first : bool)
  : result bytes :=
  match keys with
  | [] => Ok data
  | key :: keys =>
      let data := if first then data else data ++ jlit "," in
      do data <- appendCanonicalString data key;
      do data <- appendCanonicalString (data ++ jlit ":") (default [] (meta !! key));
      appendMeta data meta keys false
  end.

Section Range.
(** The order in which the runtime ranges over a map: unspecified. *)
Context (range : gmap bytes bytes -> list (bytes * bytes)).

(** [canonicalizeAlert]. *)
Definition canonicalizeAlert (event : AlertEvent) : result bytes :=
  match ae_Meta event with
  | None => Err ErrCanonicalEvent
  | Some meta =>
      do data <- appendCanonicalString (jlit "{`AppName`:") (ae_AppName event);
      do data <- appendCanonicalString
        (data ++ jlit ",`Type`:`Alert`,`AlertID`:" ++ formatInt (ae_AlertID event) ++ jlit ",`Summary`:")
        (ae_Summary event);
      do data <- appendCanonicalString (data ++ jlit ",`Details`:") (ae_Details event);
      do data <- appendCanonicalString (data ++ jlit ",`ServiceID`:") (ae_ServiceID event);
      do data <- appendCanonicalString (data ++ jlit ",`ServiceName`:") (ae_ServiceName event);
      if existsb (fun kv => negb (printableASCII kv.1) || negb (utf8Valid kv.2)) (range meta)
      then Err ErrCanonicalEvent
      else
        let keys := sortStrings (map fst (range meta)) in
        do data <- appendMeta (data ++ jlit ",`Meta`:{") meta keys true;
        Ok (data ++ jlit "}}")
  end.

(** [canonicalizeAlertStatus]. *)
Definition canonicalizeAlertStatus (event : AlertStatusEvent) : result bytes :=
  do data <- appendCanonicalString (jlit "{`AppName`:") (se_AppName event);
  do data <- appendCanonicalString
    (data ++ jlit ",`Type`:`AlertStatus`,`AlertID`:" ++ formatInt (se_AlertID event) ++ jlit ",`LogEntry`:")
    (se_LogEntry event);
  do data <- appendCanonicalString (data ++ jlit ",`AlertState`:") (se_AlertState event);
  Ok (data ++ jlit "}").

(** The canonical bytes of a concrete event. *)
Definition canonicalizeValue (e : Event) : result bytes :=
  match e with
  | EvTest e => canonicalizeTest e
  | EvVerification e => canonicalizeVerification e
  | EvAlert e => canonicalizeAlert e
  | EvAlertStatus e => canonicalizeAlertStatus e
  end.

(** [CanonicalizeEvent]. *)
Definition CanonicalizeEvent (event : EventI) : result CanonicalEvent :=
  match underlying event with
  | None => Err ErrCanonicalEvent
  | Some e =>
      match canonicalizeValue e with
      | Err _ => Err ErrCanonicalEvent
      | Ok data =>
          Ok (mkCanonicalEvent CanonicalEventFormatVersion data (Sum256 data))
      end
  end.
End Range.

(** * The escape, one character at a time *)

(** Reference definition: what each rune of a valid text becomes. *)
Fixpoint escapeLoop (fuel : nat) (s : bytes) : bytes :=
  match fuel, s with
  | S fuel, c :: s' =>
      if 128 <=? bZ c then
        let '(r, n) := decodeRune s in
        (if is_line_separator r then escape_separator r else take n s) ++ escapeLoop fuel (drop n s)
      else (if plain_char c then [c] else escape_char c) ++ escapeLoop fuel s'
  | _, _ => []
  end.

Definition escapeString (s : bytes) : bytes := escapeLoop (length s) s.

(** A canonical JSON string. *)
Definition quoted (s : bytes) : bytes := [quote] ++ escapeString s ++ [quote].

Lemma slice_extend (i j k : nat) (s : bytes) :
  (i <= j <= k)%nat -> slice i j s ++ take (k - j) (drop j s) = slice i k s.
Proof.
  intros H. unfold slice. replace (k - i)%nat with ((j - i) + (k - j))%nat by lia.
  rewrite <- take_take_drop, drop_drop. do 3 f_equal. lia.
Qed.

Lemma slice_nil (i : nat) (s : bytes) : slice i i s = [].
Proof. unfold slice. by rewrite Nat.sub_diag. Qed.

Lemma drop_cons_S (i : nat) (s : bytes) c r : drop i s = c :: r -> drop (S i) s = r.
Proof.
  intros H. replace (S i) with (i + 1)%nat by lia. by rewrite <- drop_drop, H.
Qed.

Lemma canonicalLoop_spec fuel value data start index :
  (start <= index)%nat ->
  let '(d, st) := canonicalLoop fuel value data start index in
  (length value <= index + fuel)%nat ->
  d ++ drop st value = data ++ slice start index value ++ escapeLoop fuel (drop index value).
Proof.
  revert data start index. induction fuel as [|fuel IH]; intros data start index Hs.
  { simpl. intros Hl. rewrite app_nil_r. f_equal. rewrite <- (take_drop (index - start) (drop start value)) at 1.
    unfold slice. rewrite drop_drop, (drop_ge value (start + (index - start))) by lia. by rewrite app_nil_r. }
  cbn [canonicalLoop escapeLoop]. destruct (drop index value) as [|c rest] eqn:Ed.
  { intros Hl. rewrite app_nil_r. f_equal. rewrite <- (take_drop (index - start) (drop start value)) at 1.
    unfold slice. rewrite drop_drop. replace (start + (index - start))%nat with index by lia.
    by rewrite Ed, app_nil_r. }
  assert (index < length value)%nat as Hi.
  { apply (f_equal length) in Ed. rewrite length_drop in Ed. simpl in Ed. lia. }
  destruct (128 <=? bZ c).
  - pose proof (decodeRune_width (c :: rest) ltac:(done)) as Hw.
    destruct (decodeRune (c :: rest)) as [r n]. simpl in Hw.
    assert (drop n (c :: rest) = drop (index + n) value) as Edn by (by rewrite <- Ed, drop_drop).
    destruct (is_line_separator r); simpl negb; cbv iota.
    + specialize (IH (data ++ slice start index value ++ escape_separator r) (index + n)%nat (index + n)%nat ltac:(lia)).
      destruct (canonicalLoop _ _ _ _ _) as [d st]. intros Hl. rewrite IH by lia.
      rewrite slice_nil, Edn. simpl. by rewrite <- !app_assoc.
    + specialize (IH data start (index + n)%nat ltac:(lia)).
      destruct (canonicalLoop _ _ _ _ _) as [d st]. intros Hl. rewrite IH by lia.
      rewrite <- (slice_extend start index (index + n)) by lia.
      replace (index + n - index)%nat with n by lia. by rewrite Edn, Ed, <- app_assoc.
  - apply drop_cons_S in Ed as Ed'. destruct (plain_char c).
    + specialize (IH data start (S index) ltac:(lia)).
      destruct (canonicalLoop _ _ _ _ _) as [d st]. intros Hl. rewrite IH by lia.
      rewrite <- (slice_extend start index (S index)) by lia.
      replace (S index - index)%nat with 1%nat by lia. rewrite Ed, Ed'. by rewrite <- app_assoc.
    + specialize (IH (data ++ slice start index value ++ escape_char c) (S index) (S index) ltac:(lia)).
      destruct (canonicalLoop _ _ _ _ _) as [d st]. intros Hl. rewrite IH by lia.
      rewrite slice_nil, Ed'. simpl. by rewrite <- !app_assoc.
Qed.

(** The windowed loop computes exactly the character-by-character escape. *)
Lemma appendCanonicalString_spec data value :
  appendCanonicalString data value =
  if utf8Valid value then Ok (data ++ quoted value) else Err ErrCanonicalEvent.
Proof.
  unfold appendCanonicalString. destruct (utf8Valid value); [|done]. simpl negb. cbv iota.
  pose proof (canonicalLoop_spec (length value) value (data ++ [quote]) 0 0 ltac:(lia)) as H.
  destruct (canonicalLoop _ _ _ _ _) as [d st]. specialize (H ltac:(lia)).
  rewrite app_assoc, H, slice_nil, drop_0. unfold quoted, escapeString.
  simpl. by rewrite <- !app_assoc.
Qed.

(** * Reading a canonical string back *)

Definition unescape_code (v : Z) : option bytes :=
  if v <? 128 then Some [Zb v]
  else if v =? 0x2028 then Some [xe2; x80; xa8]
  else if v =? 0x2029 then Some [xe2; x80; xa9]
  else None.

(** The contents of a string literal up to its closing quote, and the rest. *)
Fixpoint readString (s : bytes) : option (bytes * bytes) :=
  match s with
  | [] => None
  | c :: s =>
      if c =?? quote then Some ([], s)
      else if c =?? backslash then
        match s with
        | [] => None
        | e :: s =>
            if e =?? x75 then
              match s with
              | h1 :: h2 :: h3 :: h4 :: s =>
                  match hexVal h1, hexVal h2, hexVal h3, hexVal h4 with
                  | Some a, Some b, Some c, Some d =>
                      match unescape_code (a * 4096 + b * 256 + c * 16 + d), readString s with
                      | Some u, Some (t, r) => Some (u ++ t, r)
                      | _, _ => None
                      end
                  | _, _, _, _ => None
                  end
              | _ => None
              end
            else
              let lit_char :=
                if e =?? x62 then Some x08 else if e =?? x66 then Some x0c
                else if e =?? x6e then Some x0a else if e =?? x72 then Some x0d
                else if e =?? x74 then Some x09
                else if (e =?? quote) || (e =?? backslash) then Some e else None in
              match lit_char, readString s with
              | Some u, Some (t, r) => Some (u :: t, r)
              | _, _ => None
              end
        end
      else
        match readString s with
        | Some (t, r) => Some (c :: t, r)
        | None => None
        end
  end.

(** Prefixing the contents read so far. *)
Definition prepend (h : bytes) (o : option (bytes * bytes)) : option (bytes * bytes) :=
  match o with Some (t, r) => Some (h ++ t, r) | None => None end.

Lemma readString_high h s :
  Forall (fun c => 128 <= bZ c) h -> readString (h ++ s) = prepend h (readString s).
Proof.
  induction h as [|c h IH]; intros Hf; simpl.
  - by destruct (readString s) as [[? ?]|].
  - apply Forall_cons in Hf as [Hc Hf].
    rewrite bool_decide_false by (intros ->; by apply Hc).
    rewrite bool_decide_false by (intros ->; by apply Hc).
    rewrite IH by done. by destruct (readString s) as [[? ?]|].
Qed.

Lemma readString_plain c s : plain_char c = true -> readString (c :: s) = prepend [c] (readString s).
Proof.
  intros Hp. unfold plain_char in Hp.
  repeat match goal with H : (_ && _) = true |- _ => apply andb_prop in H as [? ?]
  | H : negb _ = true |- _ => apply negb_true_iff in H end.
  simpl. by repeat match goal with H : ?b = false |- context [?b] => rewrite H end.
Qed.

(** Every escape of an ASCII character reads back as that character. *)
Lemma readString_escape_char c s :
  bZ c < 128 -> plain_char c = false -> readString (escape_char c ++ s) = prepend [c] (readString s).
Proof.
  intros Hc Hp.
  destruct (bool_decide_reflect (c = quote)) as [->|N1]; [done|].
  destruct (bool_decide_reflect (c = backslash)) as [->|N2]; [done|].
  destruct (bool_decide_reflect (c = x08)) as [->|N3]; [done|].
  destruct (bool_decide_reflect (c = x0c)) as [->|N4]; [done|].
  destruct (bool_decide_reflect (c = x0a)) as [->|N5]; [done|].
  destruct (bool_decide_reflect (c = x0d)) as [->|N6]; [done|].
  destruct (bool_decide_reflect (c = x09)) as [->|N7]; [done|].
  unfold escape_char. rewrite !bool_decide_false by done.
  cbn [orb]. change (lit "\u00") with [backslash; x75; x30; x30].
  assert (exists a b, hexVal (hexDigit (Z.shiftr (bZ c) 4)) = Some a /\
            hexVal (hexDigit (Z.land (bZ c) 15)) = Some b /\ a * 16 + b = bZ c) as (a & b & Ha & Hb & E).
  { assert ((match hexVal (hexDigit (Z.shiftr (bZ c) 4)), hexVal (hexDigit (Z.land (bZ c) 15)) with
             | Some a, Some b => a * 16 + b =? bZ c | _, _ => false end) = true) as H
      by (clear; byte_cases c).
    destruct (hexVal _) as [a|], (hexVal _) as [b|]; try done. exists a, b. split_and!; try done. lia. }
  cbn -[hexDigit hexVal Z.shiftr Z.land unescape_code]. rewrite Ha, Hb.
  change (hexVal x30) with (Some 0). cbv iota beta.
  replace (0 * 4096 + 0 * 256 + a * 16 + b) with (bZ c) by lia.
  unfold unescape_code. rewrite (proj2 (Z.ltb_lt _ _) Hc), Zb_bZ.
  by destruct (readString s) as [[? ?]|].
Qed.

(** The only texts whose first rune is a line separator. *)
Lemma decodeRune_separator s r n :
  decodeRune s = (r, n) -> is_line_separator r = true ->
  take n s = [xe2; x80; Zb (128 + Z.land r 63)] /\ (r = 0x2028 \/ r = 0x2029).
Proof.
  intros Hd Hr. assert (r = 0x2028 \/ r = 0x2029) as Hr'.
  { unfold is_line_separator in Hr. lia. }
  split; [|done]. unfold decodeRune in Hd. unfold is_cont in Hd.
  repeat case_match; simplify_eq; try (destruct Hr'; discriminate);
    repeat match goal with
    | H : (_ && _) = true |- _ => apply andb_prop in H as [? ?]
    | H : in_range _ _ _ = true |- _ => apply in_range_true in H
    end; try (exfalso; repeat case_match; lia).
  match goal with |- take 3 (?a :: ?b :: ?c :: ?l) = _ =>
    change (take 3 (a :: b :: c :: l)) with [a; b; c];
    assert (bZ a = 226) by lia; assert (bZ b = 128) by lia;
    f_equal; [by apply bZ_inj | f_equal; [by apply bZ_inj | f_equal; apply bZ_inj]]
  end.
  rewrite bZ_Zb. destruct Hr' as [E|E]; rewrite E;
    match goal with |- _ = ?r => let v := eval vm_compute in r in change r with v end; lia.
Qed.

Lemma readString_separator r s :
  r = 0x2028 \/ r = 0x2029 ->
  readString (escape_separator r ++ s) = prepend [xe2; x80; Zb (128 + Z.land r 63)] (readString s).
Proof. intros [-> | ->]; cbn; by destruct (readString s) as [[? ?]|]. Qed.

Lemma prepend_app a b o : prepend a (prepend b o) = prepend (a ++ b) o.
Proof. destruct o as [[? ?]|]; simpl; [|done]. by rewrite app_assoc. Qed.

Lemma readString_escape fuel s r :
  (length s <= fuel)%nat -> utf8Valid s = true ->
  readString (escapeLoop fuel s ++ quote :: r) = Some (s, r).
Proof.
  revert s. induction fuel as [|fuel IH]; intros s Hf Hv.
  { destruct s; [done|simpl in Hf; lia]. }
  destruct s as [|c s]; [done|]. cbn [escapeLoop].
  pose proof (decodeRune_width (c :: s) ltac:(done)) as Hw.
  destruct (utf8Valid_step (c :: s) ltac:(done) Hv) as [Hi Hv'].
  destruct (Z.leb_spec 128 (bZ c)) as [Hc|Hc].
  - destruct (decodeRune (c :: s)) as [rn n] eqn:Ed. simpl in Hw, Hv'.
    assert (length (drop n (c :: s)) <= fuel)%nat as Hl by (rewrite length_drop; simpl in *; lia).
    destruct (is_line_separator rn) eqn:Es.
    + destruct (decodeRune_separator _ _ _ Ed Es) as [Et Hr].
      rewrite <- app_assoc, readString_separator, IH by done. cbn [prepend]. rewrite <- Et.
      by rewrite take_drop.
    + pose proof (decodeRune_high c s Hc Hi) as Hh. rewrite Ed in Hh. simpl in Hh.
      rewrite <- app_assoc, readString_high, IH by done. simpl prepend. by rewrite take_drop.
  - rewrite decodeRune_ascii in Hv' by done. simpl in Hv'. rewrite drop_0 in Hv'.
    simpl in Hf. rewrite <- app_assoc. destruct (plain_char c) eqn:Ep.
    + simpl app at 1. rewrite readString_plain, IH by (done || lia). done.
    + rewrite readString_escape_char, IH by (done || lia). done.
Qed.

(** A canonical string is self-delimiting and determines its contents. *)
Lemma quoted_prefix_inj s t r1 r2 :
  utf8Valid s = true -> utf8Valid t = true ->
  quoted s ++ r1 = quoted t ++ r2 -> s = t /\ r1 = r2.
Proof.
  intros Hs Ht H. unfold quoted, escapeString in H. simpl in H. injection H as H.
  rewrite <- !app_assoc in H. simpl in H.
  apply (f_equal readString) in H. rewrite !readString_escape in H by done. by simplify_eq.
Qed.

(** * The order of strings *)

Lemma bytes_leb_refl a : bytes_leb a a = true.
Proof. induction a as [|x a IH]; simpl; [done|]. by rewrite Z.eqb_refl. Qed.

#[export] Instance bytes_le_total : Total bytes_le.
Proof.
  intros a. unfold bytes_le. induction a as [|x a IH]; intros [|y b]; simpl; auto.
  rewrite (Z.eqb_sym (bZ y)). destruct (Z.eqb_spec (bZ x) (bZ y)); [apply IH|]. lia.
Qed.

#[export] Instance bytes_le_antisymm : AntiSymm (=) bytes_le.
Proof.
  intros a. unfold bytes_le. induction a as [|x a IH]; intros [|y b]; simpl; try done.
  rewrite (Z.eqb_sym (bZ y)). destruct (Z.eqb_spec (bZ x) (bZ y)) as [E|E].
  - intros H1 H2. apply bZ_inj in E as ->. by rewrite (IH b).
  - intros. lia.
Qed.

#[export] Instance bytes_le_trans : Transitive bytes_le.
Proof.
  intros a. unfold bytes_le. induction a as [|x a IH]; intros [|y b] [|z c]; simpl; try done.
  destruct (Z.eqb_spec (bZ x) (bZ y)), (Z.eqb_spec (bZ y) (bZ z)), (Z.eqb_spec (bZ x) (bZ z));
    try lia; eauto.
Qed.

(** Sorting forgets the order in which the strings were collected. *)
Lemma sortStrings_perm l k : l ≡ₚ k -> sortStrings l = sortStrings k.
Proof.
  intros H. unfold sortStrings. apply (Sorted_unique bytes_le); try apply (Sorted_merge_sort _).
  by rewrite !(merge_sort_Permutation bytes_le).
Qed.

Lemma sortStrings_elem l k : k ∈ sortStrings l <-> k ∈ l.
Proof. unfold sortStrings. by rewrite (merge_sort_Permutation bytes_le). Qed.

(** * Closed forms *)

Lemma printable_utf8 s : printableASCII s = true -> utf8Valid s = true.
Proof.
  unfold utf8Valid. generalize (le_n (length s)). generalize (length s) at 2 3 as n.
  intros n. revert n. induction s as [|b s IH]; intros n Hn Hp; [by destruct n|].
  destruct n as [|n]; simpl in Hn; [lia|]. cbn [validLoop].
  cbn [printableASCII forallb] in Hp. apply andb_prop in Hp as [Hb Hp].
  assert (bZ b < 128) as Hb' by lia. unfold rune_invalid. rewrite decodeRune_ascii by done.
  replace (bZ b =? RuneError) with false by (unfold RuneError; lia).
  simpl. rewrite drop_0. apply IH; [lia|done].
Qed.

(** The text of a list of metadata entries. *)
Fixpoint metaText (first : bool) (kvs : list (bytes * bytes)) : bytes :=
  match kvs with
  | [] => []
  | (k, v) :: kvs =>
      (if first then [] else jlit ",") ++ quoted k ++ jlit ":" ++ quoted v ++ metaText false kvs
  end.

Definition metaEntries (meta : gmap bytes bytes) (keys : list bytes) : list (bytes * bytes) :=
  map (fun k => (k, default [] (meta !! k))) keys.

Definition entry_ok (kv : bytes * bytes) : bool := printableASCII kv.1 && utf8Valid kv.2.

Lemma appendMeta_spec data meta keys first :
  Forall (fun kv => entry_ok kv = true) (metaEntries meta keys) ->
  appendMeta data meta keys first = Ok (data ++ metaText first (metaEntries meta keys)).
Proof.
  revert data first. induction keys as [|k keys IH]; intros data first Hf.
  { simpl. by rewrite app_nil_r. }
  apply Forall_cons in Hf as [[Hk Hv]%andb_prop Hf]. cbn [fst snd] in Hk, Hv.
  apply printable_utf8 in Hk. cbn [appendMeta metaEntries map metaText].
  rewrite appendCanonicalString_spec, Hk. cbn [rbind].
  rewrite appendCanonicalString_spec, Hv. cbn [rbind].
  rewrite IH by done. f_equal. destruct first; rewrite <- ?app_assoc; done.
Qed.

(** The sorted entries of a map. *)
Definition sortedEntries (meta : gmap bytes bytes) : list (bytes * bytes) :=
  metaEntries meta (sortStrings (map fst (map_to_list meta))).

Lemma sortedEntries_elem meta k v : (k, v) ∈ sortedEntries meta <-> meta !! k = Some v.
Proof.
  unfold sortedEntries, metaEntries. rewrite list_elem_of_In, in_map_iff. split.
  - intros (k' & E & Hin). injection E as <- <-. rewrite <- list_elem_of_In, sortStrings_elem in Hin.
    apply list_elem_of_In, in_map_iff in Hin as ([k'' v'] & <- & Hin).
    apply list_elem_of_In, elem_of_map_to_list in Hin. simpl. by rewrite Hin.
  - intros H. exists k. rewrite H. split; [done|]. apply list_elem_of_In, sortStrings_elem.
    apply list_elem_of_In, in_map_iff. exists (k, v). split; [done|].
    by apply list_elem_of_In, elem_of_map_to_list.
Qed.

Lemma sortedEntries_inj m1 m2 : sortedEntries m1 = sortedEntries m2 -> m1 = m2.
Proof.
  intros H. apply map_eq. intros k. apply option_eq. intros v.
  by rewrite <- !sortedEntries_elem, H.
Qed.

Definition meta_ok (meta : gmap bytes bytes) : bool := forallb entry_ok (map_to_list meta).

Lemma sortedEntries_ok meta :
  meta_ok meta = true -> Forall (fun kv => entry_ok kv = true) (sortedEntries meta).
Proof.
  intros H. apply Forall_forall. intros [k v] Hin%sortedEntries_elem.
  unfold meta_ok in H. rewrite forallb_forall in H. apply H.
  by apply list_elem_of_In, elem_of_map_to_list.
Qed.

(** The texts of an event that must be valid UTF-8. *)
Definition event_texts (e : Event) : list bytes :=
  match e with
  | EvTest e => [te_AppName e]
  | EvVerification e => [ve_AppName e; ve_Code e]
  | EvAlert e => [ae_AppName e; ae_Summary e; ae_Details e; ae_ServiceID e; ae_ServiceName e]
  | EvAlertStatus e => [se_AppName e; se_LogEntry e; se_AlertState e]
  end.

(** The events that have a canonical form. *)
Definition canonicalizable (e : Event) : bool :=
  forallb utf8Valid (event_texts e) &&
  match e with
  | EvAlert a => match ae_Meta a with None => false | Some m => meta_ok m end
  | _ => true
  end.

(** The canonical bytes of an event that has a canonical form. *)
Definition canonicalText (e : Event) : bytes :=
  match e with
  | EvTest e => jlit "{`AppName`:" ++ quoted (te_AppName e) ++ jlit ",`Type`:`Test`}"
  | EvVerification e =>
      jlit "{`AppName`:" ++ quoted (ve_AppName e) ++ jlit ",`Type`:`Verification`,`Code`:" ++
      quoted (ve_Code e) ++ jlit "}"
  | EvAlert e =>
      jlit "{`AppName`:" ++ quoted (ae_AppName e) ++ jlit ",`Type`:`Alert`,`AlertID`:" ++
      formatInt (ae_AlertID e) ++ jlit ",`Summary`:" ++ quoted (ae_Summary e) ++
      jlit ",`Details`:" ++ quoted (ae_Details e) ++ jlit ",`ServiceID`:" ++ quoted (ae_ServiceID e) ++
      jlit ",`ServiceName`:" ++ quoted (ae_ServiceName e) ++ jlit ",`Meta`:{" ++
      metaText true (sortedEntries (default ∅ (ae_Meta e))) ++ jlit "}}"
  | EvAlertStatus e =>
      jlit "{`AppName`:" ++ quoted (se_AppName e) ++ jlit ",`Type`:`AlertStatus`,`AlertID`:" ++
      formatInt (se_AlertID e) ++ jlit ",`LogEntry`:" ++ quoted (se_LogEntry e) ++
      jlit ",`AlertState`:" ++ quoted (se_AlertState e) ++ jlit "}"
  end.

Section RangeSpec.
Context (range : gmap bytes bytes -> list (bytes * bytes)).
Hypothesis range_perm : forall m, range m ≡ₚ map_to_list m.

Lemma range_bad_entry m :
  existsb (fun kv => negb (printableASCII kv.1) || negb (utf8Valid kv.2)) (range m) = negb (meta_ok m).
Proof.
  apply Bool.eq_iff_eq_true. rewrite existsb_exists, negb_true_iff. unfold meta_ok.
  rewrite <- not_true_iff_false, forallb_forall. split.
  - intros (kv & Hin & Hb) Hall. apply list_elem_of_In in Hin. rewrite range_perm in Hin.
    apply list_elem_of_In, Hall, andb_prop in Hin as [H1 H2]. by rewrite H1, H2 in Hb.
  - intros Hn. destruct (existsb (fun kv => negb (entry_ok kv)) (map_to_list m)) eqn:E.
    + apply existsb_exists in E as (kv & Hin & Hb). exists kv. split.
      * apply list_elem_of_In. rewrite range_perm. by apply list_elem_of_In.
      * unfold entry_ok in Hb. by rewrite negb_andb in Hb.
    + destruct Hn. intros kv Hin. destruct (entry_ok kv) eqn:Ek; [done|].
      assert (existsb (fun kv => negb (entry_ok kv)) (map_to_list m) = true); [|congruence].
      apply existsb_exists. exists kv. by rewrite Ek.
Qed.

Lemma range_sorted m : metaEntries m (sortStrings (map fst (range m))) = sortedEntries m.
Proof.
  unfold sortedEntries. f_equal. apply sortStrings_perm.
  apply (fmap_Permutation fst), range_perm.
Qed.

Lemma canonicalizeValue_spec e :
  canonicalizeValue range e = if canonicalizable e then Ok (canonicalText e) else Err ErrCanonicalEvent.
Proof.
  destruct e as [e|e|e|e]; unfold canonicalizable; cbn [canonicalizeValue event_texts canonicalText forallb].
  - unfold canonicalizeTest. rewrite appendCanonicalString_spec.
    destruct (utf8Valid (te_AppName e)); cbn [andb rbind]; [|done]. by rewrite <- ?app_assoc.
  - unfold canonicalizeVerification. rewrite appendCanonicalString_spec.
    destruct (utf8Valid (ve_AppName e)); cbn [andb rbind]; [|done].
    rewrite appendCanonicalString_spec. destruct (utf8Valid (ve_Code e)); cbn [andb rbind]; [|done].
    by rewrite <- ?app_assoc.
  - unfold canonicalizeAlert. destruct (ae_Meta e) as [m|]; [|by rewrite andb_false_r].
    do 5 (rewrite appendCanonicalString_spec; case_match; cbn [andb rbind]; [|done]).
    rewrite range_bad_entry. destruct (meta_ok m) eqn:Em; cbn [negb]; [|done].
    rewrite appendMeta_spec by (rewrite range_sorted; by apply sortedEntries_ok).
    rewrite range_sorted. cbn [rbind default from_option]. f_equal. by rewrite <- !app_assoc.
  - unfold canonicalizeAlertStatus.
    do 3 (rewrite appendCanonicalString_spec; case_match; cbn [andb rbind]; [|done]).
    f_equal. by rewrite <- !app_assoc.
Qed.
End RangeSpec.

(** * Injectivity *)

Lemma metaText_inj first a b r1 r2 :
  Forall (fun kv => entry_ok kv = true) a -> Forall (fun kv => entry_ok kv = true) b ->
  metaText first a ++ jlit "}}" ++ r1 = metaText first b ++ jlit "}}" ++ r2 -> a = b /\ r1 = r2.
Proof.
  intros Ha. revert first b. induction Ha as [|[k v] a [Hk Hv]%andb_prop Ha IH]; intros first b Hb E.
  - destruct b as [|[k' v'] b]; cbn [metaText] in E.
    + by apply (app_inv_head (jlit "}}")) in E.
    + by destruct first.
  - destruct Hb as [|[k' v'] b [Hk' Hv']%andb_prop Hb]; cbn [metaText] in E; [by destruct first|].
    cbn [fst snd] in *. rewrite <- !app_assoc in E. apply app_inv_head in E.
    apply printable_utf8 in Hk, Hk'.
    apply quoted_prefix_inj in E as [-> E]; [|done|done].
    apply app_inv_head, quoted_prefix_inj in E as [-> E]; [|done|done].
    apply IH in E as [-> ->]; done.
Qed.

Lemma formatInt_chars z : Forall (fun b => is_digit b = true \/ b = x2d) (formatInt z).
Proof.
  assert (forall n, 0 <= n -> Forall (fun b => is_digit b = true \/ b = x2d) (decLoop 20 n [])) as H.
  { intros n Hn. eapply Forall_impl; [by apply (decLoop_digits 20 n [])|]. auto. }
  unfold formatInt. destruct (Z.ltb_spec z 0).
  - apply Forall_app_2; [|apply H; lia]. apply Forall_singleton. by right.
  - apply H; lia.
Qed.

Lemma formatInt_prefix_inj a b l c r1 r2 :
  int64_range a -> int64_range b -> head l = Some c -> is_digit c = false -> c <> x2d ->
  formatInt a ++ l ++ r1 = formatInt b ++ l ++ r2 -> a = b /\ r1 = r2.
Proof.
  intros Ha Hb Hl Hc Hc' E. destruct l as [|c' l]; simplify_eq/=.
  apply (app_sep_inj (fun b => is_digit b = true \/ b = x2d)) in E as [E E'];
    [|apply formatInt_chars|apply formatInt_chars|intros [?|?]; congruence].
  apply app_inv_head in E' as ->.
  split; [|done]. unfold int64_range in *. apply formatInt_inj in E; lia.
Qed.

Ltac canon_step E :=
  lazymatch type of E with
  | jlit ?x ++ _ = jlit ?x ++ _ => apply app_inv_head in E
  | quoted _ ++ _ = quoted _ ++ _ =>
      let H := fresh in apply quoted_prefix_inj in E as [H E]; [|by auto|by auto]
  end.

(** Canonical texts determine the event. *)
Lemma canonicalText_inj e1 e2 :
  canonicalizable e1 = true -> canonicalizable e2 = true ->
  event_typed e1 -> event_typed e2 ->
  canonicalText e1 = canonicalText e2 -> e1 = e2.
Proof.
  intros H1 H2 T1 T2 E. unfold canonicalizable in *.
  apply andb_prop in H1 as [V1 M1], H2 as [V2 M2].
  assert (forall e, forallb utf8Valid (event_texts e) = true ->
    Forall (fun t => utf8Valid t = true) (event_texts e)) as Hf.
  { intros e H. rewrite forallb_forall in H. apply Forall_forall. intros t Ht. by apply H, list_elem_of_In. }
  apply Hf in V1, V2. clear Hf.
  destruct e1 as [e1|e1|e1|e1], e2 as [e2|e2|e2|e2]; cbn [event_texts canonicalText event_typed] in *;
    repeat match goal with H : Forall _ (_ :: _) |- _ => apply Forall_cons in H as [? H] end;
    canon_step E; canon_step E; try discriminate E.
  - destruct e1, e2; simpl in *; congruence.
  - repeat canon_step E. destruct e1, e2; simpl in *; congruence.
  - canon_step E. apply (formatInt_prefix_inj _ _ _ x2c) in E as [Ha E]; [|done..].
    repeat canon_step E. destruct (ae_Meta e1) as [m1|] eqn:Em1; [|done].
    destruct (ae_Meta e2) as [m2|] eqn:Em2; [|done]. cbn [default from_option id] in E.
    rewrite <- (app_nil_r (jlit "}}")) in E. apply metaText_inj in E as [E _];
      [|by apply sortedEntries_ok|by apply sortedEntries_ok].
    apply sortedEntries_inj in E. destruct e1, e2; simpl in *; congruence.
  - canon_step E. apply (formatInt_prefix_inj _ _ _ x2c) in E as [Ha E]; [|done..].
    repeat canon_step E. destruct e1, e2; simpl in *; congruence.
Qed.

(** * Properties *)

Lemma CanonicalizeEvent_spec range v :
  (forall m, range m ≡ₚ map_to_list m) ->
  CanonicalizeEvent range v =
  match underlying v with
  | Some e =>
      if canonicalizable e
      then Ok (mkCanonicalEvent 1 (canonicalText e) (Sum256 (canonicalText e)))
      else Err ErrCanonicalEvent
  | None => Err ErrCanonicalEvent
  end.
Proof.
  intros Hr. unfold CanonicalizeEvent. destruct (underlying v) as [e|]; [|done].
  rewrite canonicalizeValue_spec by done. by destruct (canonicalizable e).
Qed.

(** Canonicalisation succeeds exactly on the events whose texts are valid
    UTF-8 and whose metadata, for an alert, is a non-nil map with printable
    ASCII keys and valid UTF-8 values; the result is then format version 1,
    the canonical text and its SHA-256 digest, and every failure is
    [ErrCanonicalEvent], whatever the iteration order of the metadata map. *)
Theorem CanonicalizeEvent_complete (range : gmap bytes bytes -> list (bytes * bytes)) (v : EventI)
    (Hrange : forall m, range m ≡ₚ map_to_list m) :
  CanonicalizeEvent range v =
  match underlying v with
  | Some e =>
      if canonicalizable e
      then Ok (mkCanonicalEvent 1 (canonicalText e) (Sum256 (canonicalText e)))
      else Err ErrCanonicalEvent
  | None => Err ErrCanonicalEvent
  end.
Proof. by apply CanonicalizeEvent_spec. Qed.

(** The canonical form does not depend on the order in which the runtime
    iterates over the metadata map. *)
Theorem CanonicalizeEvent_deterministic (range1 range2 : gmap bytes bytes -> list (bytes * bytes))
    (v : EventI)
    (Hrange1 : forall m, range1 m ≡ₚ map_to_list m) (Hrange2 : forall m, range2 m ≡ₚ map_to_list m) :
  CanonicalizeEvent range1 v = CanonicalizeEvent range2 v.
Proof. by rewrite !CanonicalizeEvent_spec. Qed.

Lemma CanonicalizeEvent_ok range v c :
  (forall m, range m ≡ₚ map_to_list m) -> CanonicalizeEvent range v = Ok c ->
  exists e, underlying v = Some e /\ canonicalizable e = true /\
    c = mkCanonicalEvent 1 (canonicalText e) (Sum256 (canonicalText e)).
Proof.
  intros Hr. rewrite CanonicalizeEvent_spec by done. destruct (underlying v) as [e|]; [|done].
  destruct (canonicalizable e) eqn:?; intros; simplify_eq. eauto.
Qed.

(** Canonicalisation is injective: two events with the same canonical
    bytes are the same event, so the digest identifies the event up to a
    SHA-256 collision between the two canonical texts. *)
Theorem CanonicalizeEvent_injective (range1 range2 : gmap bytes bytes -> list (bytes * bytes))
    (v1 v2 : EventI) (e1 e2 : Event) (c1 c2 : CanonicalEvent)
    (Hrange1 : forall m, range1 m ≡ₚ map_to_list m) (Hrange2 : forall m, range2 m ≡ₚ map_to_list m)
    (He1 : underlying v1 = Some e1) (He2 : underlying v2 = Some e2)
    (Ht1 : event_typed e1) (Ht2 : event_typed e2)
    (Hc1 : CanonicalizeEvent range1 v1 = Ok c1) (Hc2 : CanonicalizeEvent range2 v2 = Ok c2) :
  (ce_data c1 = ce_data c2 <-> e1 = e2) /\
  (ce_digest c1 = ce_digest c2 ->
   e1 = e2 \/ (ce_data c1 <> ce_data c2 /\ Sum256 (ce_data c1) = Sum256 (ce_data c2))).
Proof.
  apply CanonicalizeEvent_ok in Hc1 as (e & E & Hk1 & ->); [|done]. rewrite He1 in E. simplify_eq.
  apply CanonicalizeEvent_ok in Hc2 as (e' & E & Hk2 & ->); [|done]. rewrite He2 in E. simplify_eq.
  simpl. split; [split|].
  - by apply canonicalText_inj.
  - by intros ->.
  - intros Hd. destruct (decide (canonicalText e = canonicalText e')) as [E|E]; [|by right].
    left. by apply canonicalText_inj.
Qed.

(** A byte that is neither a control character nor one of the characters with
    a meaning in HTML. *)
Definition safe_byte (b : byte) : Prop := 32 <= bZ b /\ b <> x3c /\ b <> x3e /\ b <> x26.

Lemma safe_high b : 128 <= bZ b -> safe_byte b.
Proof. intros H. split; [lia|]. split_and!; intros ->; by apply H. Qed.

Lemma escape_char_safe c : bZ c < 128 -> Forall safe_byte (escape_char c).
Proof.
  intros _.
  assert (forallb (fun b => (32 <=? bZ b) && (b <>?? x3c) && (b <>?? x3e) && (b <>?? x26)) (escape_char c) = true)
    as H by (revert c; refine (byte_forall _ _); vm_compute; reflexivity).
  rewrite forallb_forall in H. apply Forall_forall. intros b Hb%list_elem_of_In%H.
  repeat match goal with H : (_ && _) = true |- _ => apply andb_prop in H as [? ?]
  | H : negb _ = true |- _ => apply negb_true_iff, bool_decide_eq_false in H end.
  unfold safe_byte. split_and!; try done. lia.
Qed.

Lemma escapeLoop_safe fuel s : utf8Valid s = true -> Forall safe_byte (escapeLoop fuel s).
Proof.
  revert s. induction fuel as [|fuel IH]; intros s Hv; [constructor|].
  destruct s as [|c s]; [constructor|]. cbn [escapeLoop].
  destruct (utf8Valid_step (c :: s) ltac:(done) Hv) as [Hi Hv'].
  destruct (Z.leb_spec 128 (bZ c)) as [Hc|Hc].
  - pose proof (decodeRune_high c s Hc Hi) as Hh.
    destruct (decodeRune (c :: s)) as [rn n] eqn:Ed. simpl in Hv', Hh.
    apply Forall_app_2; [|by apply IH]. destruct (is_line_separator rn) eqn:Es.
    + apply decodeRune_separator in Ed as [_ [-> | ->]]; [| |done]; vm_compute; repeat constructor; discriminate.
    + eapply Forall_impl; [done|]. apply safe_high.
  - rewrite decodeRune_ascii in Hv' by done. simpl in Hv'. rewrite drop_0 in Hv'.
    apply Forall_app_2; [|by apply IH]. destruct (plain_char c) eqn:Ep; [|by apply escape_char_safe].
    unfold plain_char in Ep.
    repeat match goal with H : (_ && _) = true |- _ => apply andb_prop in H as [? ?]
    | H : negb _ = true |- _ => apply negb_true_iff, bool_decide_eq_false in H end.
    apply Forall_singleton. unfold safe_byte. split_and!; try done. lia.
Qed.

(** [appendCanonicalString] appends a self-delimiting string literal: the
    appended text contains no control byte, no angle bracket and no ampersand,
    and reading it back up to its closing quote returns exactly the value and
    whatever follows; invalid UTF-8 is refused. *)
Theorem appendCanonicalString_roundtrip (data value : bytes) :
  if utf8Valid value then
    exists text, appendCanonicalString data value = Ok (data ++ quote :: text) /\
      Forall safe_byte text /\
      forall rest, readString (text ++ rest) = Some (value, rest)
  else appendCanonicalString data value = Err ErrCanonicalEvent.
Proof.
  destruct (utf8Valid value) eqn:Hv; rewrite appendCanonicalString_spec, Hv; [|done].
  exists (escapeString value ++ [quote]). split_and!.
  - done.
  - apply Forall_app_2; [by apply escapeLoop_safe|]. vm_compute. repeat constructor; discriminate.
  - intros rest. rewrite <- app_assoc. by apply readString_escape.
Qed.

(** * Known answers: the vectors of internal/httpapi/canonical_test.go *)

Definition golden_alert : AlertEvent := {|
  ae_AppName := lit "MS OnCall"; ae_AlertID := 42;
  ae_Summary := lit "CPU <high> & rising";
  ae_Details := lit "line 1" ++ [x0a] ++ jlit "`quoted` \ path 😀";
  ae_ServiceID := lit "11111111-2222-4333-8444-555555555555";
  ae_ServiceName := lit "Fixture Service";
  ae_Meta := Some (<[lit "zeta" := lit "值😀"]> {[lit "alpha" := lit "<tag>&"]}) |}.

Lemma golden_alert_ok : canonicalizable (EvAlert golden_alert) = true.
Proof. vm_compute. reflexivity. Qed.

Example golden_alert_text :
  CanonicalizeEvent map_to_list (EIValue (EvAlert golden_alert)) =
  Ok (mkCanonicalEvent 1
    (jlit "{`AppName`:`MS OnCall`,`Type`:`Alert`,`AlertID`:42,`Summary`:`CPU \u003chigh\u003e \u0026 rising`,`Details`:`line 1\n\`quoted\` \\ path 😀`,`ServiceID`:`11111111-2222-4333-8444-555555555555`,`ServiceName`:`Fixture Service`,`Meta`:{`alpha`:`\u003ctag\u003e\u0026`,`zeta`:`值😀`}}")
    (mk_arr 32 (default [] (hexDecode (lit "8ba9865e0a355f0a96fc004f8290896ad8ee48a72009bef1378c5e8348e94b3a"))))).
Proof.
  rewrite CanonicalizeEvent_spec by done. cbn [underlying].
  rewrite golden_alert_ok.
  match goal with |- Ok (mkCanonicalEvent _ ?a _) = Ok (mkCanonicalEvent _ ?c ?d) =>
    assert (a = c) as -> by (vm_compute; reflexivity);
    assert (Sum256 c = d) as -> by (apply arr_eq; vm_compute; reflexivity)
  end. reflexivity.
Qed.

Lemma golden_test_digest :
  match CanonicalizeEvent map_to_list (EIValue (EvTest (mkTestEvent (lit "MS OnCall")))) with
  | Ok c => hexEncode (ce_digest c)
  | Err _ => []
  end = lit "f2af9dcf05005b12331273216cda1a0696f0381460c570f39a5165d9f97056bf".
Proof. vm_compute. reflexivity. Qed.

Lemma golden_status_digest :
  match CanonicalizeEvent map_to_list (EITestPtr None),
        CanonicalizeEvent map_to_list (EIAlertStatusPtr (Some
          (mkAlertStatusEvent (lit "MS OnCall") 42 (jlit "本地化 `closed`" ++ [x0a] ++ lit "line") AlertStateClosed))) with
  | Err _, Ok c => hexEncode (ce_digest c)
  | _, _ => []
  end = lit "f65f8d6d9dfb893c7a662b9246866e30204a6981efb52bba61f5a44e76c7d45e".
Proof. vm_compute. reflexivity. Qed.

(** * Witnesses *)

Definition reverse_range (m : gmap bytes bytes) : list (bytes * bytes) := reverse (map_to_list m).

Lemma CanonicalizeEvent_deterministic_witness :
  CanonicalizeEvent map_to_list (EIValue (EvAlert golden_alert)) =
  CanonicalizeEvent reverse_range (EIValue (EvAlert golden_alert)).
Proof.
  apply (CanonicalizeEvent_deterministic map_to_list reverse_range (EIValue (EvAlert golden_alert))).
  - reflexivity.
  - intros m. apply reverse_Permutation.
Defined.

Lemma CanonicalizeEvent_complete_witness :
  CanonicalizeEvent reverse_range (EIAlertPtr (Some golden_alert)) =
  Ok (mkCanonicalEvent 1 (canonicalText (EvAlert golden_alert)) (Sum256 (canonicalText (EvAlert golden_alert)))).
Proof.
  rewrite (CanonicalizeEvent_complete reverse_range (EIAlertPtr (Some golden_alert))).
  - cbn [underlying fmap option_fmap option_map].
    rewrite golden_alert_ok. reflexivity.
  - intros m. apply reverse_Permutation.
Defined.

Definition golden_test : Event := EvTest (mkTestEvent (lit "MS OnCall")).
Definition golden_canonical (e : Event) : CanonicalEvent :=
  mkCanonicalEvent 1 (canonicalText e) (Sum256 (canonicalText e)).

Lemma CanonicalizeEvent_injective_witness :
  canonicalText golden_test <> canonicalText (EvAlert golden_alert) /\ golden_test <> EvAlert golden_alert.
Proof.
  assert (golden_test <> EvAlert golden_alert) as Hne by discriminate.
  split; [|exact Hne]. intros E. apply Hne.
  apply (CanonicalizeEvent_injective map_to_list map_to_list (EIValue golden_test)
    (EIValue (EvAlert golden_alert)) golden_test (EvAlert golden_alert)
    (golden_canonical golden_test) (golden_canonical (EvAlert golden_alert))
    ltac:(reflexivity) ltac:(reflexivity) eq_refl eq_refl I
    ltac:(cbv; split; [discriminate|reflexivity])
    ltac:(rewrite CanonicalizeEvent_spec by reflexivity; reflexivity)
    ltac:(rewrite CanonicalizeEvent_spec by reflexivity; cbn [underlying];
          rewrite golden_alert_ok; reflexivity)).
  exact E.
Defined.
