(* ===== verification/Json.v ===== *)
(** The parts of Go's [encoding/json], [unicode/utf8] and [bytes] on which
    internal/httpapi/decode.go relies.

    [pValue] is the grammar of JSON as a recursive descent over the text, with
    the raw text of every member kept; [Unmarshal_map] and [Unmarshal_string]
    are [json.Unmarshal] at the two types the code uses; [Decoder] with [Token]
    and [More] is the streaming interface, a state machine of its own. *)

From S2P Require Import Prelude GoErrors Encoding Events Canonical.

(** * Runes *)

Definition surrogate (r : Z) : bool := (0xd800 <=? r) && (r <=? 0xdfff).

(** [utf8.AppendRune(nil, r)]: an invalid rune is written as U+FFFD. *)
Definition encodeRune (r : Z) : bytes :=
  if (r <? 0) || surrogate r || (0x10ffff <? r) then [xef; xbf; xbd]
  else if r <? 128 then [Zb r]
  else if r <? 2048 then [Zb (192 + r / 64); Zb (128 + r mod 64)]
  else if r <? 65536 then
    [Zb (224 + r / 4096); Zb (128 + r / 64 mod 64); Zb (128 + r mod 64)]
  else
    [Zb (240 + r / 262144); Zb (128 + r / 4096 mod 64); Zb (128 + r / 64 mod 64); Zb (128 + r mod 64)].

(** [utf8.RuneCount]. *)
Fixpoint runeCountLoop (fuel : nat) (s : bytes) : nat :=
  match fuel, s with
  | S fuel, _ :: _ => S (runeCountLoop fuel (drop (decodeRune s).2 s))
  | _, _ => O
  end.

Definition runeCount (s : bytes) : Z := Z.of_nat (runeCountLoop (length s) s).

(** * bytes.TrimSpace *)

(** [unicode.IsSpace]. *)
Definition isSpaceRune (r : Z) : bool :=
  ((9 <=? r) && (r <=? 13)) || (r =? 32) || (r =? 0x85) || (r =? 0xa0) || (r =? 0x1680) ||
  ((0x2000 <=? r) && (r <=? 0x200a)) || (r =? 0x2028) || (r =? 0x2029) || (r =? 0x202f) ||
  (r =? 0x205f) || (r =? 0x3000).

Fixpoint trimLeft (fuel : nat) (s : bytes) : bytes :=
  match fuel, s with
  | S fuel, _ :: _ =>
      if isSpaceRune (decodeRune s).1 then trimLeft fuel (drop (decodeRune s).2 s) else s
  | _, _ => s
  end.

Definition runeStart (b : byte) : bool := negb (is_cont b).

(** [utf8.DecodeLastRune]: back up at most four bytes to the start of a rune. *)
Definition decodeLastRune (s : bytes) : Z * nat :=
  let n := length s in
  let back k := (k <=? n)%nat && runeStart (nth (n - k) s x00) in
  let at_ k := let '(r, m) := decodeRune (drop (n - k) s) in
               if m =?? k then (r, k) else (RuneError, 1%nat) in
  match last s with
  | None => (RuneError, O)
  | Some b =>
      if bZ b <? 128 then (bZ b, 1%nat)
      else if back 2%nat then at_ 2%nat
      else if back 3%nat then at_ 3%nat
      else if back 4%nat then at_ 4%nat
      else (RuneError, 1%nat)
  end.

Fixpoint trimRight (fuel : nat) (s : bytes) : bytes :=
  match fuel, s with
  | S fuel, _ :: _ =>
      let '(r, n) := decodeLastRune s in
      if isSpaceRune r then trimRight fuel (take (length s - n) s) else s
  | _, _ => s
  end.

(** [bytes.TrimSpace]. *)
Definition TrimSpace (s : bytes) : bytes :=
  let s := trimLeft (length s) s in trimRight (length s) s.

(** * Literals *)

(** White space between tokens. *)
Definition isSpace (c : byte) : bool :=
  (c =?? x20) || (c =?? x09) || (c =?? x0d) || (c =?? x0a).

Fixpoint skipSpace (s : bytes) : bytes :=
  match s with
  | c :: r => if isSpace c then skipSpace r else s
  | [] => []
  end.

Definition is_hex (b : byte) : bool := match hexVal b with Some _ => true | None => false end.

(** The characters allowed after a backslash, [u] apart. *)
Definition simple_escape (e : byte) : bool :=
  bool_decide (e ∈ [quote; backslash; x2f; x62; x66; x6e; x72; x74]).

(** A string literal after its opening quote: the text up to the closing quote,
    and what follows. *)
Fixpoint scanString (s : bytes) : option (bytes * bytes) :=
  match s with
  | [] => None
  | c :: s =>
      if c =?? quote then Some ([], s)
      else if c =?? backslash then
        match s with
        | [] => None
        | e :: s =>
            if e =?? x75 then
              match s with
              | h1 :: h2 :: h3 :: h4 :: s =>
                  if is_hex h1 && is_hex h2 && is_hex h3 && is_hex h4
                  then prepend [c; e; h1; h2; h3; h4] (scanString s) else None
              | _ => None
              end
            else if simple_escape e then prepend [c; e] (scanString s) else None
        end
      else if bZ c <? 32 then None
      else prepend [c] (scanString s)
  end.

Fixpoint spanDigits (s : bytes) : bytes * bytes :=
  match s with
  | c :: r => if is_digit c then let '(d, r) := spanDigits r in (c :: d, r) else ([], s)
  | [] => ([], [])
  end.

(** The integer part: [0], or digits that do not start with [0]. *)
Definition scanInt (s : bytes) : option (bytes * bytes) :=
  match s with
  | c :: r =>
      if c =?? x30 then Some ([c], r)
      else if is_digit c then Some (spanDigits s) else None
  | [] => None
  end.

(** At least one digit. *)
Definition scanDigits1 (s : bytes) : option (bytes * bytes) :=
  match spanDigits s with ([], _) => None | p => Some p end.

Definition scanFrac (s : bytes) : option (bytes * bytes) :=
  match s with
  | c :: r => if c =?? x2e then prepend [c] (scanDigits1 r) else Some ([], s)
  | [] => Some ([], [])
  end.

Definition scanExp (s : bytes) : option (bytes * bytes) :=
  match s with
  | c :: r =>
      if (c =?? x65) || (c =?? x45) then
        match r with
        | g :: r' =>
            if (g =?? x2b) || (g =?? x2d) then prepend [c; g] (scanDigits1 r')
            else prepend [c] (scanDigits1 r)
        | [] => None
        end
      else Some ([], s)
  | [] => Some ([], [])
  end.

(** Scanning one part after another. *)
Definition scan_then (p q : bytes -> option (bytes * bytes)) (s : bytes) : option (bytes * bytes) :=
  match p s with Some (t, r) => prepend t (q r) | None => None end.

Definition scanMinus (s : bytes) : option (bytes * bytes) :=
  match s with
  | c :: r => if c =?? x2d then Some ([c], r) else Some ([], s)
  | [] => Some ([], [])
  end.

Definition scanNumber : bytes -> option (bytes * bytes) :=
  scan_then scanMinus (scan_then scanInt (scan_then scanFrac scanExp)).

(** * Values *)

(** A JSON value; strings and numbers are kept as written (a string without
    its quotes), a member as its key, the raw text of its value and the value. *)
#[warnings="-register-all"]
Inductive jv : Type :=
| JNull
| JBool (b : bool)
| JNum (literal : bytes)
| JStr (inner : bytes)
| JArr (elements : list jv)
| JObj (members : list (bytes * bytes * jv)).

Definition scanWord (w : bytes) (v : jv) (s : bytes) : option (jv * bytes) :=
  if bool_decide (w `prefix_of` s) then Some (v, drop (length w) s) else None.

(** A value that is neither an array nor an object, from its first byte. *)
Definition scanScalar (s : bytes) : option (jv * bytes) :=
  match s with
  | [] => None
  | c :: r =>
      if c =?? quote then
        match scanString r with Some (t, r) => Some (JStr t, r) | None => None end
      else if c =?? x74 then scanWord (lit "true") (JBool true) s
      else if c =?? x66 then scanWord (lit "false") (JBool false) s
      else if c =?? x6e then scanWord (lit "null") JNull s
      else match scanNumber s with Some (t, r) => Some (JNum t, r) | None => None end
  end.

Definition lbrace : byte := x7b.
Definition rbrace : byte := x7d.
Definition lbracket : byte := x5b.
Definition rbracket : byte := x5d.
Definition comma : byte := x2c.
Definition colon : byte := x3a.

(** Expect one byte after white space. *)
Definition expect (b : byte) (s : bytes) : option bytes :=
  match skipSpace s with c :: r => if c =?? b then Some r else None | [] => None end.

(** Where the next item of an array or object starts: at once for the first
    one, after a comma for the others. *)
Definition nextItem (first : bool) (s : bytes) : option bytes :=
  if first then Some (skipSpace s) else skipSpace <$> expect comma s.

(** The next byte closes the array or object. *)
Definition closes (b : byte) (s : bytes) : option bytes := expect b s.

(** A member's key with its colon: the key as written and where the value
    starts. *)
Definition scanKey (s : bytes) : option (bytes * bytes) :=
  match s with
  | q :: k =>
      if q =?? quote then
        match scanString k with
        | Some (key, r) => match expect colon r with Some r => Some (key, skipSpace r) | None => None end
        | None => None
        end
      else None
  | [] => None
  end.

(** The text [s] without its suffix [r]. *)
Definition upto (s r : bytes) : bytes := take (length s - length r) s.

(** The grammar, from the first byte of a value; the result is the value and
    the rest of the text. The fuel bounds the recursion: twice the length of
    the text is enough ([pValue_fuel]). *)
Fixpoint pValue (fuel : nat) (s : bytes) : option (jv * bytes) :=
  match fuel with
  | O => None
  | S fuel =>
      match s with
      | [] => None
      | c :: r =>
          if c =?? lbrace then
            match pMembers fuel true r with Some (ms, r) => Some (JObj ms, r) | None => None end
          else if c =?? lbracket then
            match pElements fuel true r with Some (vs, r) => Some (JArr vs, r) | None => None end
          else scanScalar s
      end
  end
with pMembers (fuel : nat) (first : bool) (s : bytes) : option (list (bytes * bytes * jv) * bytes) :=
  match fuel with
  | O => None
  | S fuel =>
      match closes rbrace s with
      | Some r => Some ([], r)
      | None =>
          match nextItem first s with
          | None => None
          | Some k =>
              match scanKey k with
              | None => None
              | Some (key, start) =>
                  match pValue fuel start with
                  | None => None
                  | Some (v, r) =>
                      match pMembers fuel false r with
                      | None => None
                      | Some (ms, r') => Some ((key, upto start r, v) :: ms, r')
                      end
                  end
              end
          end
      end
  end
with pElements (fuel : nat) (first : bool) (s : bytes) : option (list jv * bytes) :=
  match fuel with
  | O => None
  | S fuel =>
      match closes rbracket s with
      | Some r => Some ([], r)
      | None =>
          match nextItem first s with
          | None => None
          | Some start =>
              match pValue fuel start with
              | None => None
              | Some (v, r) =>
                  match pElements fuel false r with
                  | None => None
                  | Some (vs, r') => Some (v :: vs, r')
                  end
              end
          end
      end
  end.

(** A whole document: one value with white space around it. *)
Definition parseDocument (data : bytes) : option jv :=
  match pValue (2 * length data + 3) (skipSpace data) with
  | Some (v, r) => match skipSpace r with [] => Some v | _ => None end
  | None => None
  end.

(** Nesting depth; the scanner refuses more than [maxNestingDepth]. *)
Fixpoint depth (v : jv) : Z :=
  match v with
  | JArr vs => 1 + foldr (fun v d => Z.max (depth v) d) 0 vs
  | JObj ms => 1 + foldr (fun m d => Z.max (depth m.2) d) 0 ms
  | _ => 0
  end.

Definition maxNestingDepth : Z := 10000.

(** [json.Valid], with the value. *)
Definition validDocument (data : bytes) : option jv :=
  match parseDocument data with
  | Some v => if depth v <=? maxNestingDepth then Some v else None
  | None => None
  end.

(** * Unquoting *)

(** [getu4]: the value of an escape of the form [\uXXXX] at the head. *)
Definition getu4 (s : bytes) : option Z :=
  match s with
  | b :: u :: h1 :: h2 :: h3 :: h4 :: _ =>
      if (b =?? backslash) && (u =?? x75) then
        match hexVal h1, hexVal h2, hexVal h3, hexVal h4 with
        | Some a, Some b, Some c, Some d => Some (a * 4096 + b * 256 + c * 16 + d)
        | _, _, _, _ => None
        end
      else None
  | _ => None
  end.

(** [utf16.DecodeRune]. *)
Definition utf16DecodeRune (r1 r2 : Z) : Z :=
  if (0xd800 <=? r1) && (r1 <? 0xdc00) && (0xdc00 <=? r2) && (r2 <? 0xe000)
  then (r1 - 0xd800) * 1024 + (r2 - 0xdc00) + 0x10000
  else RuneError.

Definition simple_unescape (e : byte) : byte :=
  if e =?? x62 then x08 else if e =?? x66 then x0c else if e =?? x6e then x0a
  else if e =?? x72 then x0d else if e =?? x74 then x09 else e.

(** [unquoteBytes] on the text between the quotes of a scanned literal: an
    unpaired surrogate and invalid UTF-8 become U+FFFD. *)
Fixpoint unquoteLoop (fuel : nat) (s : bytes) : bytes :=
  match fuel, s with
  | S fuel, c :: r =>
      if c =?? backslash then
        match getu4 s with
        | Some rr =>
            if surrogate rr then
              match getu4 (drop 6 s) with
              | Some rr1 =>
                  let dec := utf16DecodeRune rr rr1 in
                  if dec =? RuneError then encodeRune RuneError ++ unquoteLoop fuel (drop 6 s)
                  else encodeRune dec ++ unquoteLoop fuel (drop 12 s)
              | None => encodeRune RuneError ++ unquoteLoop fuel (drop 6 s)
              end
            else encodeRune rr ++ unquoteLoop fuel (drop 6 s)
        | None =>
            match r with
            | e :: r => simple_unescape e :: unquoteLoop fuel r
            | [] => []
            end
        end
      else if bZ c <? 128 then c :: unquoteLoop fuel r
      else let '(rr, n) := decodeRune s in encodeRune rr ++ unquoteLoop fuel (drop n s)
  | _, _ => []
  end.

Definition unquote (inner : bytes) : bytes := unquoteLoop (length inner) inner.

(** * json.Unmarshal *)

(** A [*json.SyntaxError] or [*json.UnmarshalTypeError]; no sentinel matches. *)
Definition jsonError : error := Foreign (plain_foreign 1) false [].

(** Into a [map[string]json.RawMessage]: the last of several equal keys wins;
    [null] leaves the nil map. *)
Definition Unmarshal_map (data : bytes) : result (option (gmap bytes bytes)) :=
  match validDocument data with
  | None => Err jsonError
  | Some (JObj ms) => Ok (Some (foldl (fun m x => <[unquote x.1.1 := x.1.2]> m) ∅ ms))
  | Some JNull => Ok None
  | Some _ => Err jsonError
  end.

(** Into a [string]; [null] leaves the empty string. *)
Definition Unmarshal_string (data : bytes) : result bytes :=
  match validDocument data with
  | None => Err jsonError
  | Some (JStr t) => Ok (unquote t)
  | Some JNull => Ok []
  | Some _ => Err jsonError
  end.

(** * json.Decoder *)

Inductive tokenState : Type :=
| tokenTopValue | tokenArrayStart | tokenArrayValue | tokenArrayComma
| tokenObjectStart | tokenObjectKey | tokenObjectColon | tokenObjectValue | tokenObjectComma.

#[export] Instance tokenState_eq_dec : EqDecision tokenState.
Proof. solve_decision. Defined.

(** The unread input, the state and the stack of the enclosing states. *)
Record Decoder : Type := mkDecoder {
  dec_buf : bytes;
  dec_state : tokenState;
  dec_stack : list tokenState
}.

(** A token: a delimiter, a string, or another scalar (with [UseNumber] no
    number is refused). *)
Inductive token : Type :=
| TDelim (b : byte)
| TString (s : bytes)
| TScalar (v : jv).

Definition NewDecoder (data : bytes) : Decoder := mkDecoder data tokenTopValue [].

Definition tokenValueAllowed (st : tokenState) : bool :=
  match st with
  | tokenTopValue | tokenArrayStart | tokenArrayValue | tokenObjectValue => true
  | _ => false
  end.

Definition tokenValueEnd (st : tokenState) : tokenState :=
  match st with
  | tokenArrayStart | tokenArrayValue => tokenArrayComma
  | tokenObjectValue => tokenObjectComma
  | st => st
  end.

(** An opening delimiter pushes the state; a closing one pops it. *)
Definition openDelim (b : byte) (start st : tokenState) (stk : list tokenState) (r : bytes)
  : result (token * Decoder) :=
  if tokenValueAllowed st then Ok (TDelim b, mkDecoder r start (st :: stk)) else Err jsonError.

Definition closeDelim (b : byte) (start afterValue st : tokenState) (stk : list tokenState) (r : bytes)
  : result (token * Decoder) :=
  if (st =?? start) || (st =?? afterValue) then
    match stk with
    | top :: stk => Ok (TDelim b, mkDecoder r (tokenValueEnd top) stk)
    | [] => Err jsonError
    end
  else Err jsonError.

Definition scalarToken (v : jv) : token :=
  match v with JStr t => TString (unquote t) | v => TScalar v end.

(** [Decoder.Token]. White space is skipped, and a colon or a comma that the
    state expects is consumed before the token itself. An error is [io.EOF]
    only when nothing but white space is left. *)
Fixpoint tokenLoop (st : tokenState) (stk : list tokenState) (buf : bytes) : result (token * Decoder) :=
  match buf with
  | [] => Err EOF
  | c :: r =>
      if isSpace c then tokenLoop st stk r
      else if c =?? lbracket then openDelim c tokenArrayStart st stk r
      else if c =?? rbracket then closeDelim c tokenArrayStart tokenArrayComma st stk r
      else if c =?? lbrace then openDelim c tokenObjectStart st stk r
      else if c =?? rbrace then closeDelim c tokenObjectStart tokenObjectComma st stk r
      else if c =?? colon then
        if st =?? tokenObjectColon then tokenLoop tokenObjectValue stk r else Err jsonError
      else if c =?? comma then
        if st =?? tokenArrayComma then tokenLoop tokenArrayValue stk r
        else if st =?? tokenObjectComma then tokenLoop tokenObjectKey stk r
        else Err jsonError
      else if (c =?? quote) && ((st =?? tokenObjectStart) || (st =?? tokenObjectKey)) then
        match scanString r with
        | Some (t, r) => Ok (TString (unquote t), mkDecoder r tokenObjectColon stk)
        | None => Err jsonError
        end
      else if tokenValueAllowed st then
        match scanScalar buf with
        | Some (v, r) => Ok (scalarToken v, mkDecoder r (tokenValueEnd st) stk)
        | None => Err jsonError
        end
      else Err jsonError
  end.

Definition Token (d : Decoder) : result (token * Decoder) :=
  tokenLoop (dec_state d) (dec_stack d) (dec_buf d).

(** [Decoder.More]: another element before the end of the array or object. *)
Definition More (d : Decoder) : bool :=
  match skipSpace (dec_buf d) with
  | [] => false
  | c :: _ => (c <>?? rbracket) && (c <>?? rbrace)
  end.
