(* ===== verification/JsonFacts.v ===== *)
(** Facts about the grammar of Json.v: what a scanner consumes, that it looks
    at most one byte ahead, and that the fuel of the grammar is enough. *)

From S2P Require Import Prelude GoErrors Encoding Events Canonical Json.

(** * White space *)

Lemma skipSpace_length s : (length (skipSpace s) <= length s)%nat.
Proof. induction s as [|c s IH]; simpl; [lia|]. destruct (isSpace c); simpl; lia. Qed.

Lemma skipSpace_head s c r : skipSpace s = c :: r -> isSpace c = false.
Proof.
  induction s as [|b s IH]; simpl; [done|]. destruct (isSpace b) eqn:E; [auto|]. by intros [= <- <-].
Qed.

Lemma skipSpace_idem s : skipSpace (skipSpace s) = skipSpace s.
Proof.
  destruct (skipSpace s) as [|c r] eqn:E; [done|]. simpl. by rewrite (skipSpace_head s c r E).
Qed.

Lemma skipSpace_split s : exists w, s = w ++ skipSpace s /\ Forall (fun c => isSpace c = true) w.
Proof.
  induction s as [|c s (w & E & Hw)]; simpl; [by exists []|].
  destruct (isSpace c) eqn:Ec; [|by exists []]. exists (c :: w). rewrite E at 1. auto.
Qed.

(** What follows the first byte that is not white space does not matter. *)
Lemma skipSpace_head_app w k k' :
  head k' = head k -> head (skipSpace (w ++ k')) = head (skipSpace (w ++ k)) \/ skipSpace (w ++ k) = skipSpace k.
Proof.
  intros Hk. induction w as [|c w IH]; simpl; [by right|].
  destruct (isSpace c); [done|]. by left.
Qed.

Lemma skipSpace_spaces w k : Forall (fun c => isSpace c = true) w -> skipSpace (w ++ k) = skipSpace k.
Proof. induction 1 as [|c w Hc Hw IH]; simpl; [done|]. by rewrite Hc. Qed.

Lemma skipSpace_nonspace c r : isSpace c = false -> skipSpace (c :: r) = c :: r.
Proof. simpl. by intros ->. Qed.

Lemma skipSpace_same k k' : head k' = head k -> skipSpace k = k -> skipSpace k' = k'.
Proof.
  intros Hh Hk. destruct k' as [|c k']; [done|]. destruct k as [|b k]; [done|].
  simpl in Hh. injection Hh as ->. simpl in *. destruct (isSpace b) eqn:E; [|done].
  apply (f_equal length) in Hk. pose proof (skipSpace_length k). simpl in Hk. lia.
Qed.

Lemma expect_local b s r :
  expect b s = Some r -> isSpace b = false ->
  exists w, s = w ++ b :: r /\ Forall (fun c => isSpace c = true) w.
Proof.
  unfold expect. intros H Hb. destruct (skipSpace_split s) as (w & E & Hw).
  destruct (skipSpace s) as [|c k]; [done|].
  destruct (bool_decide_reflect (c = b)) as [->|]; [|done]. simplify_eq. eauto.
Qed.

Lemma expect_spaces b w r :
  Forall (fun c => isSpace c = true) w -> isSpace b = false -> expect b (w ++ b :: r) = Some r.
Proof.
  intros Hw Hb. unfold expect. rewrite skipSpace_spaces, skipSpace_nonspace by done.
  by rewrite bool_decide_true.
Qed.

(** The byte [expect] looks at. *)
Lemma expect_None b s : expect b s = None <-> head (skipSpace s) <> Some b.
Proof.
  unfold expect. destruct (skipSpace s) as [|c r]; simpl; [done|].
  destruct (bool_decide_reflect (c = b)); split; congruence.
Qed.

Lemma expect_length b s r : expect b s = Some r -> (length r < length s)%nat.
Proof.
  unfold expect. pose proof (skipSpace_length s). destruct (skipSpace s) as [|c k]; [done|].
  destruct (c =?? b); intros; simplify_eq. simpl in *. lia.
Qed.

(** * String literals *)

Lemma prepend_Some h o t r : prepend h o = Some (t, r) -> exists t', o = Some (t', r) /\ t = h ++ t'.
Proof. destruct o as [[t' r']|]; simpl; intros; simplify_eq. eauto. Qed.

(** The elements of a string literal. *)
Inductive item : Type :=
| IChar (c : byte)
| IEsc (e : byte)
| IUni (h1 h2 h3 h4 : byte).

Definition item_text (i : item) : bytes :=
  match i with
  | IChar c => [c]
  | IEsc e => [backslash; e]
  | IUni h1 h2 h3 h4 => [backslash; x75; h1; h2; h3; h4]
  end.

Definition item_ok (i : item) : Prop :=
  match i with
  | IChar c => c <> quote /\ c <> backslash /\ 32 <= bZ c
  | IEsc e => simple_escape e = true
  | IUni h1 h2 h3 h4 =>
      is_hex h1 = true /\ is_hex h2 = true /\ is_hex h3 = true /\ is_hex h4 = true
  end.

Definition items_text (l : list item) : bytes := concat (map item_text l).

Lemma simple_escape_not_u e : simple_escape e = true -> e <> x75.
Proof. intros H ->. by vm_compute in H. Qed.

Lemma scanString_item i s : item_ok i -> scanString (item_text i ++ s) = prepend (item_text i) (scanString s).
Proof.
  destruct i as [c|e|h1 h2 h3 h4]; simpl.
  - intros (H1 & H2 & H3). rewrite !bool_decide_false by done. by destruct (Z.ltb_spec (bZ c) 32); [lia|].
  - intros He. pose proof (simple_escape_not_u e He). rewrite (bool_decide_false (e = x75)) by done. by rewrite He.
  - by intros (-> & -> & -> & ->).
Qed.

Lemma scanString_items l s :
  Forall item_ok l -> scanString (items_text l ++ quote :: s) = Some (items_text l, s).
Proof.
  induction 1 as [|i l Hi Hl IH]; [done|]. unfold items_text in *. cbn [map concat].
  by rewrite <- app_assoc, scanString_item, IH.
Qed.

(** A scanned literal is a sequence of elements. *)
Lemma scanString_inv s t r :
  scanString s = Some (t, r) -> exists l, t = items_text l /\ Forall item_ok l /\ s = t ++ quote :: r.
Proof.
  remember (length s) as n eqn:En. revert s t r En.
  induction (lt_wf n) as [n _ IH]. intros s t r -> H.
  assert (forall i s', s = item_text i ++ s' -> item_ok i ->
    exists l, t = items_text l /\ Forall item_ok l /\ s = t ++ quote :: r) as Hi.
  { intros i s' -> Hi. rewrite scanString_item in H by done.
    apply prepend_Some in H as (t' & H & ->).
    destruct (IH (length s') ltac:(rewrite length_app; destruct i; simpl; lia) s' t' r eq_refl H)
      as (l & -> & Hl & ->).
    exists (i :: l). split_and!; [done|by constructor|by rewrite <- app_assoc]. }
  destruct s as [|c s]; [done|]. simpl in H.
  destruct (bool_decide_reflect (c = quote)) as [->|Hq].
  { injection H as <- <-. by exists []. }
  destruct (bool_decide_reflect (c = backslash)) as [->|Hb].
  - destruct s as [|e s]; [done|]. destruct (bool_decide_reflect (e = x75)) as [->|He].
    + destruct s as [|h1 [|h2 [|h3 [|h4 s]]]]; try done.
      destruct (is_hex h1 && is_hex h2 && is_hex h3 && is_hex h4) eqn:Eh; [|done].
      repeat apply andb_prop in Eh as [Eh ?]. by apply (Hi (IUni h1 h2 h3 h4) s).
    + destruct (simple_escape e) eqn:Es; [|done]. by apply (Hi (IEsc e) s).
  - destruct (Z.ltb_spec (bZ c) 32); [done|]. by apply (Hi (IChar c) s).
Qed.

(** * Numbers *)

(** A scanner that depends on what it consumes and on the next byte only. *)
Definition local_scan (p : bytes -> option (bytes * bytes)) : Prop :=
  forall s t r, p s = Some (t, r) -> s = t ++ r /\
    forall r', r' = [] \/ head r' = head r -> p (t ++ r') = Some (t, r').

Lemma spanDigits_spec s d r :
  spanDigits s = (d, r) ->
  s = d ++ r /\ Forall (fun c => is_digit c = true) d /\ (forall c k, r = c :: k -> is_digit c = false).
Proof.
  revert d r. induction s as [|c s IH]; simpl; intros d r H.
  { simplify_eq. split_and!; [done|constructor|done]. }
  destruct (is_digit c) eqn:Ec.
  - destruct (spanDigits s) as [d' r'] eqn:E. simplify_eq. destruct (IH _ _ eq_refl) as (-> & Hd & Hr).
    split_and!; [done|by constructor|done].
  - simplify_eq. split_and!; [done|constructor|]. by intros ? ? [= -> ->].
Qed.

Lemma spanDigits_app d r :
  Forall (fun c => is_digit c = true) d -> (forall c k, r = c :: k -> is_digit c = false) ->
  spanDigits (d ++ r) = (d, r).
Proof.
  induction 1 as [|c d Hc Hd IH]; simpl; intros Hr.
  - destruct r as [|c r]; [done|]. simpl. by rewrite (Hr c r eq_refl).
  - rewrite Hc, IH; done.
Qed.

Lemma stop_head (P : byte -> Prop) (r r' : bytes) :
  (forall c k, r = c :: k -> P c) -> r' = [] \/ head r' = head r -> forall c k, r' = c :: k -> P c.
Proof.
  intros Hr [->|Hh] c k E; [done|]. subst r'. destruct r as [|b r]; [done|]. simpl in Hh.
  injection Hh as ->. eauto.
Qed.

Lemma scanDigits1_local : local_scan scanDigits1.
Proof.
  intros s t r. unfold scanDigits1. destruct (spanDigits s) as [[|c d] k] eqn:E; [done|].
  intros [= <- <-]. apply spanDigits_spec in E as (-> & Hd & Hr). split; [done|].
  intros r' Hr'. rewrite spanDigits_app; [done|done|]. by eapply stop_head.
Qed.

Lemma scanInt_local : local_scan scanInt.
Proof.
  intros s t r. unfold scanInt. destruct s as [|c s]; [done|].
  destruct (bool_decide_reflect (c = x30)) as [->|Hc].
  { intros [= <- <-]. split; [done|]. by intros r' _. }
  destruct (is_digit c) eqn:Ed; [|done]. intros H.
  assert (spanDigits (c :: s) = (t, r)) as Hs by congruence. clear H.
  apply spanDigits_spec in Hs as (E & Hd & Hr). split; [done|]. intros r' Hr'.
  destruct t as [|c' t].
  { simpl in E. rewrite (Hr c s (eq_sym E)) in Ed. done. }
  simpl in E. injection E as <- ->. cbn [app]. rewrite bool_decide_false by done. rewrite Ed.
  f_equal. apply (spanDigits_app (c :: t) r'); [done|]. by eapply stop_head.
Qed.

Lemma prepend_local (c : byte) (p : bytes -> option (bytes * bytes)) s t r :
  local_scan p -> prepend [c] (p s) = Some (t, r) ->
  exists t', t = c :: t' /\ s = t' ++ r /\
    forall r', r' = [] \/ head r' = head r -> prepend [c] (p (t' ++ r')) = Some (t, r').
Proof.
  intros Hp H. apply prepend_Some in H as (t' & H & ->). apply Hp in H as [-> H].
  exists t'. split_and!; [done|done|]. intros r' Hr'. by rewrite H.
Qed.

Lemma scanFrac_local : local_scan scanFrac.
Proof.
  intros s t r. unfold scanFrac. destruct s as [|c s].
  { intros [= <- <-]. split; [done|]. intros r' [->|H]; [done|]. by destruct r'. }
  destruct (bool_decide_reflect (c = x2e)) as [->|Hc].
  - intros H. apply prepend_local in H as (t' & -> & -> & H); [|apply scanDigits1_local].
    split; [done|]. intros r' Hr'. cbn [app]. rewrite bool_decide_true by done. by apply H.
  - intros [= <- <-]. split; [done|]. intros r' [->|H]; [done|]. destruct r' as [|b r']; [done|].
    simpl in H. injection H as ->. cbn [app]. by rewrite bool_decide_false.
Qed.

Lemma scanExp_local : local_scan scanExp.
Proof.
  intros s t r. unfold scanExp. destruct s as [|c s].
  { intros [= <- <-]. split; [done|]. intros r' [->|H]; [done|]. by destruct r'. }
  destruct ((c =?? x65) || (c =?? x45)) eqn:Hc.
  - destruct s as [|g s]; [done|]. destruct ((g =?? x2b) || (g =?? x2d)) eqn:Hg.
    + intros H. apply prepend_Some in H as (t' & H & ->). apply scanDigits1_local in H as [-> H].
      split; [done|]. intros r' Hr'. cbn [app]. rewrite Hc, Hg, H by done. done.
    + intros H. apply prepend_Some in H as (t' & H & ->).
      pose proof H as H0. apply scanDigits1_local in H as [E H]. split; [simpl; congruence|].
      intros r' Hr'. cbn [app]. rewrite Hc. specialize (H r' Hr').
      destruct t' as [|g' t'].
      { unfold scanDigits1 in H0. by destruct (spanDigits (g :: s)) as [[|? ?] ?]. }
      cbn [app] in E |- *. injection E as <- ->. rewrite Hg.
      change (g :: t' ++ r') with ((g :: t') ++ r'). by rewrite H.
  - intros [= <- <-]. split; [done|]. intros r' [->|H]; [done|]. destruct r' as [|b r']; [done|].
    simpl in H. injection H as ->. cbn [app]. by rewrite Hc.
Qed.

Lemma scanMinus_local : local_scan scanMinus.
Proof.
  intros s t r. unfold scanMinus. destruct s as [|c s].
  { intros [= <- <-]. split; [done|]. intros r' [->|H]; [done|]. by destruct r'. }
  destruct (bool_decide_reflect (c = x2d)) as [->|Hc].
  - intros [= <- <-]. split; [done|]. by intros r' _.
  - intros [= <- <-]. split; [done|]. intros r' [->|H]; [done|]. destruct r' as [|b r']; [done|].
    simpl in H. injection H as ->. cbn [app]. by rewrite bool_decide_false.
Qed.

(** One scanner after another looks at one byte as well. *)
Lemma scan_then_local p q : local_scan p -> local_scan q -> local_scan (scan_then p q).
Proof.
  intros Hp Hq s t r. unfold scan_then. destruct (p s) as [[t1 k]|] eqn:E; [|done].
  intros H. apply prepend_Some in H as (t2 & H & ->). apply Hp in E as [-> E]. apply Hq in H as [-> H].
  split; [by rewrite <- app_assoc|]. intros r' Hr'. rewrite <- app_assoc, E.
  - by rewrite H.
  - destruct t2 as [|c t2]; [|by right]. destruct Hr' as [->|Hr']; [by left|by right].
Qed.

Lemma scanNumber_local : local_scan scanNumber.
Proof.
  repeat apply scan_then_local.
  - apply scanMinus_local.
  - apply scanInt_local.
  - apply scanFrac_local.
  - apply scanExp_local.
Qed.

(** An ASCII byte that is not white space, in the sense of [unicode.IsSpace]. *)
Definition solid (b : byte) : bool := (bZ b <? 128) && negb (isSpaceRune (bZ b)).

Lemma solid_digit b : is_digit b = true -> solid b = true.
Proof.
  assert (implb (is_digit b) (solid b) = true) as H by byte_cases b.
  intros Hb. by rewrite Hb in H.
Qed.

Definition solid_scan (p : bytes -> option (bytes * bytes)) : Prop :=
  forall s t r, p s = Some (t, r) -> Forall (fun b => solid b = true) t.

Lemma solid_digits d : Forall (fun c => is_digit c = true) d -> Forall (fun b => solid b = true) d.
Proof. intros H. eapply Forall_impl; [exact H|]. apply solid_digit. Qed.

Lemma scanDigits1_solid : solid_scan scanDigits1.
Proof.
  intros s t r. unfold scanDigits1. destruct (spanDigits s) as [[|c d] k] eqn:E; [done|].
  intros [= <- <-]. apply spanDigits_spec in E as (_ & Hd & _). by apply solid_digits.
Qed.

Lemma scanInt_solid : solid_scan scanInt.
Proof.
  intros s t r. unfold scanInt. destruct s as [|c s]; [done|].
  destruct (bool_decide_reflect (c = x30)) as [->|Hc]; [intros [= <- <-]; by repeat constructor|].
  destruct (is_digit c); [|done]. intros H.
  assert (spanDigits (c :: s) = (t, r)) as (_ & Hd & _)%spanDigits_spec by congruence.
  by apply solid_digits.
Qed.

Lemma prepend_solid c p s t r :
  solid_scan p -> solid c = true -> prepend [c] (p s) = Some (t, r) -> Forall (fun b => solid b = true) t.
Proof. intros Hp Hc (t' & H & ->)%prepend_Some. constructor; [done|]. by eapply Hp. Qed.

Lemma scanFrac_solid : solid_scan scanFrac.
Proof.
  intros s t r. unfold scanFrac. destruct s as [|c s]; [intros [= <- <-]; constructor|].
  destruct (bool_decide_reflect (c = x2e)) as [->|Hc]; [|intros [= <- <-]; constructor].
  by apply prepend_solid; [apply scanDigits1_solid|].
Qed.

Lemma scanExp_solid : solid_scan scanExp.
Proof.
  intros s t r. unfold scanExp. destruct s as [|c s]; [intros [= <- <-]; constructor|].
  destruct ((c =?? x65) || (c =?? x45)) eqn:Hc; [|intros [= <- <-]; constructor].
  assert (solid c = true) as Sc by (apply orb_prop in Hc as [->%bool_decide_eq_true | ->%bool_decide_eq_true]; done).
  destruct s as [|g s]; [done|]. destruct ((g =?? x2b) || (g =?? x2d)) eqn:Hg.
  - assert (solid g = true) as Sg by (apply orb_prop in Hg as [->%bool_decide_eq_true | ->%bool_decide_eq_true]; done).
    intros (t' & H & ->)%prepend_Some. repeat (constructor; [done|]). by eapply scanDigits1_solid.
  - by apply prepend_solid; [apply scanDigits1_solid|].
Qed.

Lemma scanMinus_solid : solid_scan scanMinus.
Proof.
  intros s t r. unfold scanMinus. destruct s as [|c s]; [intros [= <- <-]; constructor|].
  destruct (bool_decide_reflect (c = x2d)) as [->|Hc]; intros [= <- <-]; by repeat constructor.
Qed.

Lemma scan_then_solid p q : solid_scan p -> solid_scan q -> solid_scan (scan_then p q).
Proof.
  intros Hp Hq s t r. unfold scan_then. destruct (p s) as [[t1 k]|] eqn:E; [|done].
  intros (t2 & H & ->)%prepend_Some. apply Forall_app_2; eauto.
Qed.

Lemma scanNumber_solid : solid_scan scanNumber.
Proof.
  repeat apply scan_then_solid.
  - apply scanMinus_solid.
  - apply scanInt_solid.
  - apply scanFrac_solid.
  - apply scanExp_solid.
Qed.

Lemma scanInt_nonempty s t r : scanInt s = Some (t, r) -> t <> [].
Proof.
  unfold scanInt. destruct s as [|c s]; [done|]. destruct (c =?? x30); [by intros [= <- <-]|].
  destruct (is_digit c) eqn:E; [|done]. simpl. rewrite E. destruct (spanDigits s). by intros [= <- <-].
Qed.

Lemma scanNumber_nonempty s t r : scanNumber s = Some (t, r) -> t <> [].
Proof.
  unfold scanNumber. unfold scan_then at 1. destruct (scanMinus s) as [[t1 k]|]; [|done].
  intros (t2 & H & ->)%prepend_Some. unfold scan_then at 1 in H. destruct (scanInt k) as [[t3 k']|] eqn:E; [|done].
  apply prepend_Some in H as (t4 & H & ->). apply scanInt_nonempty in E. by destruct t1, t3.
Qed.

(** * Trimming *)

(** A text with a solid byte at each end. *)
Definition trimmed (t : bytes) : Prop :=
  exists c l, head t = Some c /\ last t = Some l /\ solid c = true /\ solid l = true.

Lemma solid_not_space b : solid b = true -> isSpace b = false.
Proof.
  assert (implb (solid b) (negb (isSpace b)) = true) as H by byte_cases b.
  intros Hb. rewrite Hb in H. by apply negb_true_iff in H.
Qed.

Lemma solid_spec b : solid b = true -> bZ b < 128 /\ isSpaceRune (bZ b) = false.
Proof. unfold solid. intros [H1 H2%negb_true_iff]%andb_prop. split; [lia|done]. Qed.

(** [bytes.TrimSpace] leaves such a text alone. *)
Lemma TrimSpace_trimmed t : trimmed t -> TrimSpace t = t.
Proof.
  intros (c & l & Hc & Hl & (Hc1 & Hc2)%solid_spec & (Hl1 & Hl2)%solid_spec).
  destruct t as [|c' t]; [done|]. simpl in Hc. injection Hc as ->.
  unfold TrimSpace. cbn [length trimLeft]. rewrite decodeRune_ascii by done. cbn [fst]. rewrite Hc2.
  cbn [length trimRight]. unfold decodeLastRune. rewrite Hl.
  apply Z.ltb_lt in Hl1. rewrite Hl1. by rewrite Hl2.
Qed.

Lemma trimmed_solid t : t <> [] -> Forall (fun b => solid b = true) t -> trimmed t.
Proof.
  intros Hne Hf. destruct t as [|c t]; [done|].
  destruct (last (c :: t)) as [l|] eqn:El; [|by apply last_None in El].
  exists c, l. split_and!; [done|done|by apply Forall_cons in Hf as [? _]|].
  apply last_Some_elem_of in El. rewrite Forall_forall in Hf. by apply Hf.
Qed.

(** * Scalars *)

Definition follows (r' r : bytes) : Prop := r' = [] \/ head r' = head r.

Lemma scanWord_inv w v s v' r :
  scanWord w v s = Some (v', r) -> v' = v /\ s = w ++ r /\ forall r', scanWord w v (w ++ r') = Some (v, r').
Proof.
  unfold scanWord. case_bool_decide as H; [|done]. destruct H as [k ->]. intros [= <- <-].
  rewrite drop_app_length. split_and!; [done..|]. intros r'.
  rewrite bool_decide_true by (by eexists). by rewrite drop_app_length.
Qed.

(** What a scalar consumes: [t]. *)
Lemma scanScalar_local s v r :
  scanScalar s = Some (v, r) ->
  exists t, s = t ++ r /\ trimmed t /\
    (forall r', follows r' r -> scanScalar (t ++ r') = Some (v, r')) /\
    match v with
    | JStr inner => t = quote :: inner ++ [quote] /\ exists l, inner = items_text l /\ Forall item_ok l
    | JNum l => t = l /\ head t <> Some quote
    | JArr _ | JObj _ => False
    | _ => head t <> Some quote /\ forallb is_digit t = false
    end.
Proof.
  unfold scanScalar at 1. destruct s as [|c s]; [done|].
  assert (forall w v0, scanWord w v0 (c :: s) = Some (v, r) -> trimmed w ->
    (forall r', follows r' r -> scanScalar (w ++ r') = scanWord w v0 (w ++ r')) ->
    (forall r', follows r' r -> scanScalar (w ++ r') = Some (v, r')) /\ v = v0 /\ c :: s = w ++ r) as Hword.
  { intros w v0 H Hw Hsc. apply scanWord_inv in H as (-> & E & H). split_and!; [|done..].
    intros r' Hr'. by rewrite Hsc. }
  destruct (bool_decide_reflect (c = quote)) as [->|Hq].
  { destruct (scanString s) as [[t k]|] eqn:E; [|done]. intros [= <- <-].
    apply scanString_inv in E as (l & -> & Hl & ->). exists (quote :: items_text l ++ [quote]). split_and!.
    - simpl. by rewrite <- app_assoc.
    - exists quote, quote. split_and!; [done| |done..]. rewrite app_comm_cons. apply last_snoc.
    - intros r' _. cbn [app]. unfold scanScalar. rewrite bool_decide_true by done.
      rewrite <- app_assoc. cbn [app]. by rewrite scanString_items.
    - done.
    - eauto. }
  destruct (bool_decide_reflect (c = x74)) as [->|Ht].
  { intros H. edestruct Hword as (H1 & -> & E); [exact H| |done|].
    { by exists x74, x65. } exists (lit "true"). split_and!; [done|by exists x74, x65|done..]. }
  destruct (bool_decide_reflect (c = x66)) as [->|Hf].
  { intros H. edestruct Hword as (H1 & -> & E); [exact H| |done|].
    { by exists x66, x65. } exists (lit "false"). split_and!; [done|by exists x66, x65|done..]. }
  destruct (bool_decide_reflect (c = x6e)) as [->|Hn].
  { intros H. edestruct Hword as (H1 & -> & E); [exact H| |done|].
    { by exists x6e, x6c. } exists (lit "null"). split_and!; [done|by exists x6e, x6c|done..]. }
  clear Hword. destruct (scanNumber (c :: s)) as [[t k]|] eqn:E; [|done]. intros [= <- <-].
  pose proof (scanNumber_nonempty _ _ _ E) as Hne. pose proof (scanNumber_solid _ _ _ E) as Hs.
  apply scanNumber_local in E as [E H]. exists t.
  destruct t as [|c' t]; [done|]. cbn [app] in E. injection E as <- ->. split_and!.
  - done.
  - by apply trimmed_solid.
  - intros r' Hr'. specialize (H r' Hr'). cbn [app] in H |- *. unfold scanScalar.
    rewrite !bool_decide_false by done. by rewrite H.
  - done.
  - simpl. congruence.
Qed.

(** * Arrays and objects *)

(** Equality of texts up to the association of their parts. *)
Ltac reassoc := solve [repeat (rewrite <- app_assoc || cbn [app]); reflexivity].

Lemma space_heads b : isSpace b = true -> b <> rbrace /\ b <> rbracket /\ b <> comma /\ b <> colon /\ b <> quote.
Proof. intros H. split_and!; intros ->; by vm_compute in H. Qed.

(** Where an item starts depends on what precedes it only. *)
Lemma nextItem_local first s k :
  nextItem first s = Some k -> k <> [] ->
  exists w, s = w ++ k /\ forall k', head k' = head k ->
    nextItem first (w ++ k') = Some k' /\ head (skipSpace (w ++ k')) = head (skipSpace s).
Proof.
  assert (forall k0 k', skipSpace k0 <> [] -> head k' = head (skipSpace k0) -> skipSpace k' = k') as Hid.
  { intros k0 k' Hne Hh. apply (skipSpace_same (skipSpace k0)); [done|]. apply skipSpace_idem. }
  unfold nextItem. destruct first.
  - intros [= <-] Hne. destruct (skipSpace_split s) as (w & E & Hw). exists w. split; [done|].
    intros k' Hk'. rewrite skipSpace_spaces, (Hid s) by done. done.
  - destruct (expect comma s) as [r|] eqn:Ec; [|done]. intros [= <-] Hne.
    apply expect_local in Ec as (w & -> & Hw); [|done].
    destruct (skipSpace_split r) as (w' & E & Hw'). exists (w ++ comma :: w'). split.
    { rewrite E at 1. by rewrite <- app_assoc. }
    intros k' Hk'. rewrite <- app_assoc. cbn [app]. rewrite expect_spaces, !skipSpace_spaces by done.
    cbn [fmap option_fmap option_map]. by rewrite skipSpace_spaces, (Hid r).
Qed.

Lemma scanKey_local k key start :
  scanKey k = Some (key, start) -> start <> [] ->
  exists w, k = quote :: w ++ start /\ (exists l, key = items_text l /\ Forall item_ok l) /\
    forall start', head start' = head start -> scanKey (quote :: w ++ start') = Some (key, start').
Proof.
  unfold scanKey. destruct k as [|q k]; [done|].
  destruct (bool_decide_reflect (q = quote)) as [->|]; [|done].
  destruct (scanString k) as [[t r]|] eqn:Es; [|done].
  destruct (expect colon r) as [r'|] eqn:Ec; [|done]. intros [= <- <-] Hne.
  apply scanString_inv in Es as (l & -> & Hl & ->).
  apply expect_local in Ec as (w & -> & Hw); [|done].
  destruct (skipSpace_split r') as (w' & E & Hw').
  exists (items_text l ++ quote :: w ++ colon :: w'). split_and!.
  - rewrite E at 1. reassoc.
  - eauto.
  - intros start' Hs'. rewrite <- app_assoc. cbn [app]. rewrite <- app_assoc. cbn [app].
    rewrite scanString_items by done. rewrite expect_spaces by done. rewrite skipSpace_spaces by done.
    by rewrite (skipSpace_same (skipSpace r')) by (done || apply skipSpace_idem).
Qed.

Lemma upto_app t r : upto (t ++ r) r = t.
Proof. unfold upto. rewrite length_app. replace (length t + length r - length r)%nat with (length t) by lia. apply take_app_length. Qed.

Lemma last_app_Some {A} (k l : list A) x : last l = Some x -> last (k ++ l) = Some x.
Proof. intros H. by rewrite last_app, H. Qed.

(** How the text of a value reflects its kind. *)
Definition shape (v : jv) (t : bytes) : Prop :=
  match v with
  | JStr inner => t = quote :: inner ++ [quote] /\ exists l, inner = items_text l /\ Forall item_ok l
  | JNum l => t = l /\ head t <> Some quote /\ head t <> Some lbrace
  | JObj _ => head t = Some lbrace
  | JArr _ => head t = Some lbracket
  | _ => head t <> Some quote /\ head t <> Some lbrace /\ forallb is_digit t = false
  end.

Definition member_ok (m : bytes * bytes * jv) : Prop :=
  (exists l, m.1.1 = items_text l /\ Forall item_ok l) /\ trimmed m.1.2 /\
  (exists fuel, pValue fuel m.1.2 = Some (m.2, [])) /\ shape m.2 m.1.2.

(** The raw text of the member is a part of [s]. *)
Definition member_in (s : bytes) (m : bytes * bytes * jv) : Prop := exists a b, s = a ++ m.1.2 ++ b.

(** The value, the members or the elements read from [s], with rest [r]: they
    occupy a text [t], and are read from [t] whatever compatible text follows. *)
Definition value_local (fuel : nat) : Prop :=
  forall s v r, pValue fuel s = Some (v, r) ->
  exists t, s = t ++ r /\ trimmed t /\ shape v t /\
    forall r', follows r' r -> pValue fuel (t ++ r') = Some (v, r').

Definition members_local (fuel : nat) : Prop :=
  forall first s ms r, pMembers fuel first s = Some (ms, r) ->
  Forall (fun m => member_ok m /\ member_in s m) ms /\
  exists t, s = t ++ r /\ last t = Some rbrace /\
    forall r', pMembers fuel first (t ++ r') = Some (ms, r').

Definition elements_local (fuel : nat) : Prop :=
  forall first s vs r, pElements fuel first s = Some (vs, r) ->
  exists t, s = t ++ r /\ last t = Some rbracket /\
    forall r', pElements fuel first (t ++ r') = Some (vs, r').

(** An item is in place of a closing delimiter. *)
Lemma not_closed b s s' : expect b s = None -> head (skipSpace s') = head (skipSpace s) -> expect b s' = None.
Proof. rewrite !expect_None. congruence. Qed.

Lemma trimmed_head t : trimmed t -> exists c k, t = c :: k.
Proof. intros (c & l & Hc & _). destruct t; [done|eauto]. Qed.

Lemma head_app_same {A} (t r r' : list A) : t <> [] -> head (t ++ r') = head (t ++ r).
Proof. by destruct t. Qed.

Lemma trimmed_ne t : trimmed t -> t <> [].
Proof. by intros (c & k & ->)%trimmed_head. Qed.

Lemma value_local_step fuel : members_local fuel -> elements_local fuel -> value_local (S fuel).
Proof.
  intros HM HE s v r H. cbn [pValue] in H. destruct s as [|c s]; [done|].
  assert (forall b b' t, last t = Some b' -> solid b = true -> solid b' = true -> trimmed (b :: t)) as Htr.
  { intros b b' t Hl Hb Hb'. exists b, b'. split_and!; [done| |done..]. by apply (last_app_Some [b]). }
  destruct (bool_decide_reflect (c = lbrace)) as [->|Hc].
  { destruct (pMembers fuel true s) as [[ms k]|] eqn:E; [|done]. injection H as <- <-.
    apply HM in E as (_ & t & -> & Hl & H). exists (lbrace :: t). split_and!; [done|by eapply Htr|done|].
    intros r' _. cbn [pValue app]. by rewrite bool_decide_true, H. }
  destruct (bool_decide_reflect (c = lbracket)) as [->|Hc'].
  { destruct (pElements fuel true s) as [[vs k]|] eqn:E; [|done]. injection H as <- <-.
    apply HE in E as (t & -> & Hl & H). exists (lbracket :: t). split_and!; [done|by eapply Htr|done|].
    intros r' _. cbn [pValue app]. rewrite bool_decide_false, bool_decide_true by done. by rewrite H. }
  apply scanScalar_local in H as (t & E & Ht & H & Hv).
  destruct (trimmed_head t Ht) as (c' & t' & ->). cbn [app] in E. injection E as <- ->.
  exists (c :: t'). split_and!; [done|done| |].
  - destruct v; simpl in *; destruct_ex; try done; split_and!; congruence || done || eauto.
  - intros r' Hr'. cbn [pValue app]. rewrite !bool_decide_false by done. by apply H.
Qed.

Lemma members_local_step fuel : value_local fuel -> members_local fuel -> members_local (S fuel).
Proof.
  intros HV HM first s ms r H. cbn [pMembers] in H. unfold closes in H.
  destruct (expect rbrace s) as [k|] eqn:Ec.
  { injection H as <- <-. split; [constructor|]. apply expect_local in Ec as (w & -> & Hw); [|done].
    exists (w ++ [rbrace]). rewrite last_snoc, <- app_assoc. split_and!; [done..|].
    intros r'. rewrite <- app_assoc. cbn [pMembers app]. unfold closes. by rewrite expect_spaces. }
  destruct (nextItem first s) as [k|] eqn:En; [|done].
  destruct (scanKey k) as [[key start]|] eqn:Ek; [|done].
  destruct (pValue fuel start) as [[v k1]|] eqn:Ev; [|done].
  destruct (pMembers fuel false k1) as [[ms' k2]|] eqn:Em; [|done]. injection H as <- <-.
  apply HV in Ev as (t & -> & Ht & Hsh & HVt). apply HM in Em as (Hms & u & -> & Hl & HMu).
  pose proof (trimmed_ne t Ht) as Htne.
  apply scanKey_local in Ek as (w & -> & Hkey & Hk); [|by destruct t].
  apply nextItem_local in En as (w' & -> & Hn); [|done].
  assert (u <> []) as Hu by (by intros ->). rewrite upto_app. split.
  { constructor.
    - split; [split_and!; [done|done| |done]; exists fuel; rewrite <- (app_nil_r t) at 1; apply HVt; by left|].
      exists (w' ++ quote :: w), (u ++ k2). cbn [fst snd]. reassoc.
    - eapply Forall_impl; [exact Hms|]. intros m [Hok (a & b & E)]. split; [done|].
      exists (w' ++ quote :: w ++ t ++ a), b. rewrite E. reassoc. }
  exists (w' ++ quote :: w ++ t ++ u). split_and!.
  - reassoc.
  - rewrite !app_comm_cons, !app_assoc. by apply last_app_Some.
  - intros r'. cbn [pMembers]. unfold closes.
    replace ((w' ++ quote :: w ++ t ++ u) ++ r') with (w' ++ quote :: w ++ t ++ u ++ r')
      by reassoc.
    destruct (Hn (quote :: w ++ t ++ u ++ r') eq_refl) as [-> Hh].
    rewrite (not_closed _ _ _ Ec Hh), Hk by (by apply head_app_same).
    rewrite HVt by (right; by apply head_app_same). by rewrite HMu, upto_app.
Qed.

Lemma elements_local_step fuel : value_local fuel -> elements_local fuel -> elements_local (S fuel).
Proof.
  intros HV HM first s vs r H. cbn [pElements] in H. unfold closes in H.
  destruct (expect rbracket s) as [k|] eqn:Ec.
  { injection H as <- <-. apply expect_local in Ec as (w & -> & Hw); [|done].
    exists (w ++ [rbracket]). rewrite last_snoc, <- app_assoc. split_and!; [done..|].
    intros r'. rewrite <- app_assoc. cbn [pElements app]. unfold closes. by rewrite expect_spaces. }
  destruct (nextItem first s) as [start|] eqn:En; [|done].
  destruct (pValue fuel start) as [[v k1]|] eqn:Ev; [|done].
  destruct (pElements fuel false k1) as [[vs' k2]|] eqn:Em; [|done]. injection H as <- <-.
  apply HV in Ev as (t & -> & Ht & Hsh & HVt). apply HM in Em as (u & -> & Hl & HMu).
  pose proof (trimmed_ne t Ht) as Htne.
  apply nextItem_local in En as (w' & -> & Hn); [|by destruct t].
  assert (u <> []) as Hu by (by intros ->).
  exists (w' ++ t ++ u). split_and!.
  - reassoc.
  - rewrite !app_assoc. by apply last_app_Some.
  - intros r'. cbn [pElements]. unfold closes.
    replace ((w' ++ t ++ u) ++ r') with (w' ++ t ++ u ++ r') by reassoc.
    destruct (Hn (t ++ u ++ r') ltac:(by apply head_app_same)) as [-> Hh].
    rewrite (not_closed _ _ _ Ec Hh).
    rewrite HVt by (right; by apply head_app_same). by rewrite HMu.
Qed.

Lemma grammar_local fuel : value_local fuel /\ members_local fuel /\ elements_local fuel.
Proof.
  induction fuel as [|fuel (HV & HM & HE)]; [done|]. split_and!.
  - by apply value_local_step.
  - by apply members_local_step.
  - by apply elements_local_step.
Qed.

Lemma pValue_local fuel : value_local fuel.
Proof. apply grammar_local. Qed.

(** The members of an object. *)
Lemma pValue_members fuel s ms r :
  pValue fuel s = Some (JObj ms, r) -> Forall (fun m => member_ok m /\ member_in s m) ms.
Proof.
  destruct fuel as [|fuel]; [done|]. destruct s as [|c s]; [done|]. cbn [pValue].
  destruct (c =?? lbrace).
  { destruct (pMembers fuel true s) as [[ms' k]|] eqn:E; [|done]. intros [= <- <-].
    apply (proj1 (proj2 (grammar_local fuel))) in E as [H _]. eapply Forall_impl; [exact H|].
    intros m [Hok (a & b & ->)]. split; [done|]. by exists (c :: a), b. }
  destruct (c =?? lbracket); [by destruct (pElements fuel true s) as [[? ?]|]|].
  by intros (t & _ & _ & _ & [])%scanScalar_local.
Qed.

Lemma pMembers_local fuel : members_local fuel.
Proof. apply grammar_local. Qed.

(** * The fuel of the grammar *)

Lemma pValue_length fuel s v r : pValue fuel s = Some (v, r) -> (length r < length s)%nat.
Proof.
  intros (t & -> & (c & k & ->)%trimmed_head & _)%pValue_local. rewrite length_app. simpl. lia.
Qed.

Lemma nextItem_length first s k : nextItem first s = Some k -> (length k <= length s)%nat.
Proof.
  unfold nextItem. destruct first.
  - intros [= <-]. apply skipSpace_length.
  - destruct (expect comma s) as [r|] eqn:E; [|done]. intros [= <-]. apply expect_length in E.
    pose proof (skipSpace_length r). lia.
Qed.

Lemma nextItem_false_length s k : nextItem false s = Some k -> (length k < length s)%nat.
Proof.
  unfold nextItem. destruct (expect comma s) as [r|] eqn:E; [|done]. intros [= <-]. apply expect_length in E.
  pose proof (skipSpace_length r). lia.
Qed.

Lemma scanKey_length k key start : scanKey k = Some (key, start) -> (length start < length k)%nat.
Proof.
  unfold scanKey. destruct k as [|q k]; [done|]. destruct (q =?? quote); [|done].
  destruct (scanString k) as [[t r]|] eqn:Es; [|done].
  destruct (expect colon r) as [r'|] eqn:Ec; [|done]. intros [= <- <-].
  apply scanString_inv in Es as (l & -> & _ & ->). apply expect_length in Ec.
  pose proof (skipSpace_length r'). simpl. rewrite length_app. simpl. lia.
Qed.

(** Fuel above twice the length changes nothing: the grammar is a function of
    the text. *)
Lemma grammar_fuel fuel :
  (forall s, (2 * length s + 1 <= fuel)%nat -> pValue (S fuel) s = pValue fuel s) /\
  (forall first s, (2 * length s + 2 <= fuel)%nat -> pMembers (S fuel) first s = pMembers fuel first s) /\
  (forall first s, (2 * length s + 2 <= fuel)%nat -> pElements (S fuel) first s = pElements fuel first s).
Proof.
  induction fuel as [|fuel (HV & HM & HE)]; [split_and!; intros; lia|]. split_and!.
  - intros [|c s] Hl; [done|]. simpl in Hl.
    remember (S fuel) as n eqn:En. cbn [pValue]. subst n. cbn [pValue]. by rewrite HM, HE by lia.
  - intros first s Hl. remember (S fuel) as n eqn:En. cbn [pMembers]. subst n.
    cbn [pMembers]. destruct (closes rbrace s); [done|].
    destruct (nextItem first s) as [k|] eqn:En; [|done].
    destruct (scanKey k) as [[key start]|] eqn:Ek; [|done].
    apply nextItem_length in En. apply scanKey_length in Ek. rewrite HV by lia.
    destruct (pValue fuel start) as [[v r]|] eqn:Ev; [|done].
    apply pValue_length in Ev. by rewrite <- HM by lia.
  - intros first s Hl. remember (S fuel) as n eqn:En. cbn [pElements]. subst n.
    cbn [pElements]. destruct (closes rbracket s); [done|].
    destruct (nextItem first s) as [k|] eqn:En; [|done].
    apply nextItem_length in En. rewrite HV by lia.
    destruct (pValue fuel k) as [[v r]|] eqn:Ev; [|done].
    apply pValue_length in Ev. by rewrite <- HE by lia.
Qed.

Lemma grammar_more_fuel fuel :
  (forall s x, pValue fuel s = Some x -> pValue (S fuel) s = Some x) /\
  (forall first s x, pMembers fuel first s = Some x -> pMembers (S fuel) first s = Some x) /\
  (forall first s x, pElements fuel first s = Some x -> pElements (S fuel) first s = Some x).
Proof.
  induction fuel as [|fuel (HV & HM & HE)]; [done|]. split_and!.
  - intros [|c s] x; [done|]. remember (S fuel) as n eqn:En. cbn [pValue]. subst n. cbn [pValue].
    destruct (c =?? lbrace).
    { destruct (pMembers fuel true s) as [[ms r]|] eqn:E; [|done]. by rewrite (HM _ _ _ E). }
    destruct (c =?? lbracket); [|done].
    destruct (pElements fuel true s) as [[ms r]|] eqn:E; [|done]. by rewrite (HE _ _ _ E).
  - intros first s x. remember (S fuel) as n eqn:En. cbn [pMembers]. subst n.
    cbn [pMembers]. destruct (closes rbrace s); [done|].
    destruct (nextItem first s) as [k|]; [|done]. destruct (scanKey k) as [[key start]|]; [|done].
    destruct (pValue fuel start) as [[v r]|] eqn:Ev; [|done]. rewrite (HV _ _ Ev).
    destruct (pMembers fuel false r) as [[ms r']|] eqn:E; [|done].
    apply HM in E. cbn [pMembers] in E. by rewrite E.
  - intros first s x. remember (S fuel) as n eqn:En. cbn [pElements]. subst n.
    cbn [pElements]. destruct (closes rbracket s); [done|].
    destruct (nextItem first s) as [k|]; [|done].
    destruct (pValue fuel k) as [[v r]|] eqn:Ev; [|done]. rewrite (HV _ _ Ev).
    destruct (pElements fuel false r) as [[ms r']|] eqn:E; [|done].
    apply HE in E. cbn [pElements] in E. by rewrite E.
Qed.

Lemma pValue_mono fuel fuel' s x :
  (fuel <= fuel')%nat -> pValue fuel s = Some x -> pValue fuel' s = Some x.
Proof. induction 1 as [|m Hm IH]; [done|]. intros H. by apply grammar_more_fuel, IH. Qed.

Lemma pValue_fuel fuel s x :
  pValue fuel s = Some x -> pValue (2 * length s + 3) s = Some x.
Proof.
  intros H. destruct (decide (fuel <= 2 * length s + 3)%nat) as [Hf|Hf].
  - by eapply pValue_mono.
  - assert (forall k, pValue (k + (2 * length s + 3)) s = pValue (2 * length s + 3) s) as Hk.
    { induction k as [|k IH]; [done|]. cbn [Nat.add]. rewrite (proj1 (grammar_fuel _)) by lia. done. }
    rewrite <- (Hk (fuel - (2 * length s + 3))%nat).
    by replace (fuel - (2 * length s + 3) + (2 * length s + 3))%nat with fuel by lia.
Qed.

(** The raw text of a value is a document with that value. *)
Lemma parseDocument_raw fuel t v : trimmed t -> pValue fuel t = Some (v, []) -> parseDocument t = Some v.
Proof.
  intros (c & l & Hc & _ & Hs & _) H. unfold parseDocument.
  assert (skipSpace t = t) as ->.
  { destruct t as [|c' t]; [done|]. injection Hc as ->. apply skipSpace_nonspace.
    by apply solid_not_space. }
  by rewrite (pValue_fuel fuel t (v, [])).
Qed.
