(* ===== verification/Decode.v ===== *)
(** internal/httpapi/decode.go: from the body of a request to a typed event.

    The body is read twice: [validateJSONObject] walks it with the streaming
    decoder and refuses repeated keys at every level; [json.Unmarshal] then
    splits it into fields, each of which is decoded with its own limits. *)

From stdpp Require Import gmap.
From S2P Require Import Prelude GoErrors Encoding Uuid Events Canonical Json.

(** * The patterns *)

Definition is_alpha (b : byte) : bool := in_range 65 90 b || in_range 97 122 b.

(** [uuidPattern]. *)
Definition uuidPattern (value : bytes) : bool :=
  (length value =?? 36%nat) &&
  forallb (fun i =>
    let b := nth i value x00 in
    if bool_decide (i ∈ [8; 13; 18; 23]%nat) then b =?? x2d else is_lower_hex b) (seq 0 36).

(** [digitsPattern]. *)
Definition digitsPattern (value : bytes) : bool := (length value =?? 6%nat) && forallb is_digit value.

(** [positiveIntPattern]. *)
Definition positiveIntPattern (value : bytes) : bool :=
  match value with
  | c :: r => in_range 49 57 c && forallb is_digit r
  | [] => false
  end.

(** The characters of [serviceNamePattern] in the middle and at the end. *)
Definition name_last (b : byte) : bool :=
  is_alpha b || is_digit b || (b =?? x5f) || (b =?? x27) || (b =?? x2d).
Definition name_middle (b : byte) : bool := name_last b || (b =?? x20).

(** [serviceNamePattern]: a letter, any number of middle characters, a last
    character. *)
Definition serviceNamePattern (value : bytes) : bool :=
  match value with
  | c :: r =>
      match last r with
      | Some l => is_alpha c && forallb name_middle (removelast r) && name_last l
      | None => false
      end
  | [] => false
  end.

(** [validCanonicalUUID]. *)
Definition validCanonicalUUID (value : bytes) : bool := uuidPattern value.

(** [validAppName]. *)
Definition validAppName (value : bytes) : bool :=
  (1 <=? length value)%nat && (length value <=? 32)%nat && printableASCII value.

(** [validServiceName]. *)
Definition validServiceName (value : bytes) : bool :=
  (2 <=? length value)%nat && (length value <=? 64)%nat && printableASCII value &&
  serviceNamePattern value.

(** * The walk over the whole document *)

(** [consumeValue] and [consumeObject] with their loops; [None] is fuel
    exhausted, which [consume_terminates] excludes. *)
Fixpoint consumeValue (fuel : nat) (decoder : Decoder) : option (result Decoder) :=
  match fuel with
  | O => None
  | S fuel =>
      match Token decoder with
      | Err e => Some (Err e)
      | Ok (TDelim delim, decoder) =>
          if delim =?? lbrace then consumeObject fuel ∅ decoder
          else if delim =?? lbracket then consumeArray fuel decoder
          else Some (Err errInvalidEvent)
      | Ok (_, decoder) => Some (Ok decoder)
      end
  end
with consumeObject (fuel : nat) (seen : gset bytes) (decoder : Decoder) : option (result Decoder) :=
  match fuel with
  | O => None
  | S fuel =>
      if More decoder then
        match Token decoder with
        | Err e => Some (Err e)
        | Ok (TString name, decoder) =>
            if bool_decide (name ∈ seen) then Some (Err errInvalidEvent)
            else
              match consumeValue fuel decoder with
              | Some (Ok decoder) => consumeObject fuel ({[name]} ∪ seen) decoder
              | other => other
              end
        | Ok _ => Some (Err errInvalidEvent)
        end
      else
        match Token decoder with
        | Err e => Some (Err e)
        | Ok (TDelim delim, decoder) =>
            if delim =?? rbrace then Some (Ok decoder) else Some (Err errInvalidEvent)
        | Ok _ => Some (Err errInvalidEvent)
        end
  end
with consumeArray (fuel : nat) (decoder : Decoder) : option (result Decoder) :=
  match fuel with
  | O => None
  | S fuel =>
      if More decoder then
        match consumeValue fuel decoder with
        | Some (Ok decoder) => consumeArray fuel decoder
        | other => other
        end
      else
        match Token decoder with
        | Err e => Some (Err e)
        | Ok (TDelim delim, decoder) =>
            if delim =?? rbracket then Some (Ok decoder) else Some (Err errInvalidEvent)
        | Ok _ => Some (Err errInvalidEvent)
        end
  end.

(** [validateJSONObject]: [Some (Some e)] is a returned error. *)
Definition validateJSONObject (data : bytes) : option (option error) :=
  let invalid := Some (Some (Sentinel errInvalidEvent)) in
  match Token (NewDecoder data) with
  | Err _ => invalid
  | Ok (TDelim delim, decoder) =>
      if delim <>?? lbrace then invalid
      else
        match consumeObject (2 * length data + 2) ∅ decoder with
        | None => None
        | Some (Err _) => invalid
        | Some (Ok decoder) =>
            match Token decoder with
            | Err e => if negb (errors_is e EOF) then invalid else Some None
            | Ok _ => invalid
            end
        end
  | Ok _ => invalid
  end.

(** * Fields *)

(** [strconv.ParseUint(s, 16, 16)] of four characters. *)
Definition parseHex4 (s : bytes) : option Z :=
  match s with
  | [h1; h2; h3; h4] =>
      match hexVal h1, hexVal h2, hexVal h3, hexVal h4 with
      | Some a, Some b, Some c, Some d => Some (a * 4096 + b * 256 + c * 16 + d)
      | _, _, _, _ => None
      end
  | _ => None
  end.

(** The loop of [validSurrogateEscapes] at index [i]; every iteration advances
    [i], so [length data] iterations are enough. *)
Fixpoint surrogateLoop (fuel : nat) (data : bytes) (i : nat) : bool :=
  match fuel with
  | O => true
  | S fuel =>
      let n := length data in
      let at_ k := nth k data x00 in
      if negb (i <? n - 1)%nat then true
      else if at_ i <>?? backslash then surrogateLoop fuel data (i + 1)
      else
        let i := (i + 1)%nat in
        if (n - 1 <=? i)%nat || (at_ i <>?? x75) then surrogateLoop fuel data (i + 1)
        else if (n <=? i + 4)%nat then false
        else
          match parseHex4 (slice (i + 1) (i + 5) data) with
          | None => false
          | Some value =>
              let i := (i + 4)%nat in
              if (0xd800 <=? value) && (value <=? 0xdbff) then
                if (n <=? i + 6)%nat || (at_ (i + 1)%nat <>?? backslash) || (at_ (i + 2)%nat <>?? x75)
                then false
                else
                  match parseHex4 (slice (i + 3) (i + 7) data) with
                  | None => false
                  | Some low =>
                      if (low <? 0xdc00) || (0xdfff <? low) then false
                      else surrogateLoop fuel data (i + 6 + 1)
                  end
              else if (0xdc00 <=? value) && (value <=? 0xdfff) then false
              else surrogateLoop fuel data (i + 1)
          end
  end.

(** [validSurrogateEscapes]. *)
Definition validSurrogateEscapes (data : bytes) : bool := surrogateLoop (length data) data 1.

(** [decodeJSONString]. *)
Definition decodeJSONString (trimmed : bytes) : result bytes :=
  match trimmed with
  | [] => Err errInvalidEvent
  | c :: _ =>
      if c <>?? quote then Err errInvalidEvent
      else if negb (validSurrogateEscapes trimmed) then Err errInvalidEvent
      else match Unmarshal_string trimmed with
           | Ok value => Ok value
           | Err _ => Err errInvalidEvent
           end
  end.

Abbreviation fieldMap := (gmap bytes bytes).

(** [requiredString]. *)
Definition requiredString (fields : fieldMap) (name : bytes) : result bytes :=
  match fields !! name with
  | None => Err errInvalidEvent
  | Some raw => decodeJSONString (TrimSpace raw)
  end.

(** [strconv.ParseInt(s, 10, 64)] of a text of digits: fails on overflow. *)
Definition parseIntDigits (s : bytes) : option Z :=
  if decVal s <? 2 ^ 63 then Some (decVal s) else None.

(** [requiredPositiveInt]. *)
Definition requiredPositiveInt (fields : fieldMap) (name : bytes) : result Z :=
  match fields !! name with
  | None => Err errInvalidEvent
  | Some raw =>
      let trimmed := TrimSpace raw in
      if negb (positiveIntPattern trimmed) then Err errInvalidEvent
      else match parseIntDigits trimmed with
           | None => Err errInvalidEvent
           | Some value => Ok value
           end
  end.

(** [hasExactFields]. *)
Definition hasExactFields (fields : fieldMap) (names : list bytes) : bool :=
  if size fields <>?? length names then false
  else forallb (fun name => bool_decide (is_Some (fields !! name))) names.

(** The loop of [requiredMeta] over the entries, in the order of the runtime. *)
Fixpoint metaLoop (entries : list (bytes * bytes)) (meta : fieldMap) (size : Z) : result fieldMap :=
  match entries with
  | [] => Ok meta
  | (key, rawValue) :: entries =>
      if (length key <? 1)%nat || (255 <? length key)%nat || negb (printableASCII key)
      then Err errInvalidEvent
      else
        match decodeJSONString (TrimSpace rawValue) with
        | Err _ => Err errInvalidEvent
        | Ok value =>
            let size := size + Z.of_nat (length key) + Z.of_nat (length value) in
            if 32768 <? size then Err errInvalidEvent
            else metaLoop entries (<[key := value]> meta) size
        end
  end.

Section Range.
(** The order in which the runtime ranges over a map: unspecified. *)
Context (range : fieldMap -> list (bytes * bytes)).

(** [requiredMeta]. *)
Definition requiredMeta (fields : fieldMap) (name : bytes) : result fieldMap :=
  match fields !! name with
  | None => Err errInvalidEvent
  | Some raw =>
      match TrimSpace raw with
      | [] => Err errInvalidEvent
      | (c :: _) as trimmed =>
          if c <>?? lbrace then Err errInvalidEvent
          else match Unmarshal_map trimmed with
               | Ok (Some rawMeta) => metaLoop (range rawMeta) ∅ 0
               | _ => Err errInvalidEvent
               end
      end
  end.

(** [decodeTest]. *)
Definition decodeTest (fields : fieldMap) : result Event :=
  if negb (hasExactFields fields [lit "AppName"; lit "Type"]) then Err errInvalidEvent
  else match requiredString fields (lit "AppName") with
       | Err _ => Err errInvalidEvent
       | Ok appName =>
           if negb (validAppName appName) then Err errInvalidEvent
           else Ok (EvTest (mkTestEvent appName))
       end.

(** [decodeVerification]. *)
Definition decodeVerification (fields : fieldMap) : result Event :=
  if negb (hasExactFields fields [lit "AppName"; lit "Type"; lit "Code"]) then Err errInvalidEvent
  else match requiredString fields (lit "AppName") with
       | Err _ => Err errInvalidEvent
       | Ok appName =>
           if negb (validAppName appName) then Err errInvalidEvent
           else match requiredString fields (lit "Code") with
                | Err _ => Err errInvalidEvent
                | Ok code =>
                    if negb (digitsPattern code) then Err errInvalidEvent
                    else Ok (EvVerification (mkVerificationEvent appName code))
                end
       end.

(** A field that must decode and pass a test, else [errInvalidEvent]. *)
Definition field {A B} (r : result A) (ok : A -> bool) (k : A -> result B) : result B :=
  match r with
  | Err _ => Err errInvalidEvent
  | Ok a => if negb (ok a) then Err errInvalidEvent else k a
  end.

(** [decodeAlert]. *)
Definition decodeAlert (fields : fieldMap) : result Event :=
  if negb (hasExactFields fields
       [lit "AppName"; lit "Type"; lit "AlertID"; lit "Summary"; lit "Details"; lit "ServiceID";
        lit "ServiceName"; lit "Meta"]) then Err errInvalidEvent
  else
    field (requiredString fields (lit "AppName")) validAppName (fun appName =>
    field (requiredPositiveInt fields (lit "AlertID")) (fun _ => true) (fun alertID =>
    field (requiredString fields (lit "Summary")) (fun s => negb (1024 <? runeCount s)) (fun summary =>
    field (requiredString fields (lit "Details")) (fun s => negb (6144 <? runeCount s)) (fun details =>
    field (requiredString fields (lit "ServiceID")) validCanonicalUUID (fun serviceID =>
    field (requiredString fields (lit "ServiceName")) validServiceName (fun serviceName =>
    field (requiredMeta fields (lit "Meta")) (fun _ => true) (fun meta =>
    Ok (EvAlert (mkAlertEvent appName alertID summary details serviceID serviceName (Some meta)))))))))).

(** The three states [decodeAlertStatus] accepts. *)
Definition knownAlertState (state : bytes) : bool :=
  (state =?? AlertStateUnacknowledged) || (state =?? AlertStateAcknowledged) || (state =?? AlertStateClosed).

(** [decodeAlertStatus]. *)
Definition decodeAlertStatus (fields : fieldMap) : result Event :=
  if negb (hasExactFields fields
       [lit "AppName"; lit "Type"; lit "AlertID"; lit "LogEntry"; lit "AlertState"]) then Err errInvalidEvent
  else
    field (requiredString fields (lit "AppName")) validAppName (fun appName =>
    field (requiredPositiveInt fields (lit "AlertID")) (fun _ => true) (fun alertID =>
    field (requiredString fields (lit "LogEntry")) (fun s => s <>?? []) (fun logEntry =>
    field (requiredString fields (lit "AlertState")) knownAlertState (fun state =>
    Ok (EvAlertStatus (mkAlertStatusEvent appName alertID logEntry state)))))).

(** The switch of [decodeEvent] on the type of the event. *)
Definition decodeTyped (fields : fieldMap) (typeName : bytes) : result Event :=
  if typeName =?? EventTypeTest then decodeTest fields
  else if typeName =?? EventTypeVerification then decodeVerification fields
  else if typeName =?? EventTypeAlert then decodeAlert fields
  else if typeName =?? EventTypeAlertStatus then decodeAlertStatus fields
  else Err errUnsupportedEvent.

(** [decodeEvent]; [None] is fuel exhausted ([decodeEvent_decides]). *)
Definition decodeEvent (data : bytes) : option (result Event) :=
  if negb (utf8Valid data) then Some (Err errInvalidEvent)
  else
    match validateJSONObject data with
    | None => None
    | Some (Some _) => Some (Err errInvalidEvent)
    | Some None =>
        match Unmarshal_map data with
        | Err _ | Ok None => Some (Err errInvalidEvent)
        | Ok (Some fields) =>
            match requiredString fields (lit "Type") with
            | Err _ => Some (Err errInvalidEvent)
            | Ok typeName => Some (decodeTyped fields typeName)
            end
        end
    end.
End Range.

(** The golden alert of the canonicalisation tests is decoded back. *)
Lemma decodeEvent_golden :
  decodeEvent map_to_list (canonicalText (EvAlert golden_alert)) = Some (Ok (EvAlert golden_alert)).
Proof. vm_compute. reflexivity. Qed.

(** White space, escapes and a surrogate pair; a repeated key written with an
    escape; a lone surrogate; an unknown type. *)
Lemma decodeEvent_examples :
  decodeEvent map_to_list (jlit " { `AppName` : `A\u0042` ,`Type`:`Test` } ") =
    Some (Ok (EvTest (mkTestEvent (lit "AB")))) /\
  decodeEvent map_to_list (jlit "{`AppName`:`A`,`Type`:`AlertStatus`,`AlertID`:9223372036854775807,`LogEntry`:`\ud83d\ude00`,`AlertState`:`Closed`}") =
    Some (Ok (EvAlertStatus (mkAlertStatusEvent (lit "A") (2 ^ 63 - 1) (lit "😀") (lit "Closed")))) /\
  decodeEvent map_to_list (jlit "{`AppName`:`A`,`Type`:`Test`,`T\u0079pe`:`Test`}") =
    Some (Err errInvalidEvent) /\
  decodeEvent map_to_list (jlit "{`AppName`:`A`,`Type`:`AlertStatus`,`AlertID`:1,`LogEntry`:`\ud83d`,`AlertState`:`Closed`}") =
    Some (Err errInvalidEvent) /\
  decodeEvent map_to_list (jlit "{`Type`:`Other`,`x`:[1,{},[null,true]]}") =
    Some (Err errUnsupportedEvent) /\
  decodeEvent map_to_list (jlit "{`Type`:`Test`,`AppName`:`A`,}") = Some (Err errInvalidEvent).
Proof. repeat apply conj; vm_compute; reflexivity. Qed.
