(* ===== verification/DecodeWalk.v ===== *)
(** The walk of decode.go over a document ([consumeValue], [consumeObject])
    against the grammar of Json.v: the streaming decoder accepts exactly the
    documents of the grammar whose objects have no repeated key, and the walk
    always ends. *)

From stdpp Require Import gmap.
From S2P Require Import Prelude GoErrors Encoding Events Canonical Json JsonFacts Decode.

(** * Repeated keys *)

Abbreviation member := (bytes * bytes * jv)%type.

Definition member_key (m : member) : bytes := unquote m.1.1.

(** No object of the value has two members with the same decoded key. *)
Fixpoint uniqueKeys (v : jv) : bool :=
  match v with
  | JArr vs => forallb uniqueKeys vs
  | JObj ms => bool_decide (NoDup (map member_key ms)) && forallb (fun m => uniqueKeys m.2) ms
  | _ => true
  end.

(** The same for the members still to come, given the keys seen. *)
Fixpoint freshKeys (seen : gset bytes) (ms : list member) : bool :=
  match ms with
  | [] => true
  | m :: ms =>
      negb (bool_decide (member_key m ∈ seen)) && uniqueKeys m.2 &&
      freshKeys ({[member_key m]} ∪ seen) ms
  end.

Lemma freshKeys_spec seen ms :
  freshKeys seen ms = true <->
  NoDup (map member_key ms) /\ Forall (fun k => k ∉ seen) (map member_key ms) /\
  forallb (fun m => uniqueKeys m.2) ms = true.
Proof.
  revert seen. induction ms as [|m ms IH]; intros seen; cbn [freshKeys map forallb].
  { split; [|done]. intros _. split_and!; [constructor|constructor|done]. }
  rewrite !andb_true_iff, negb_true_iff, bool_decide_eq_false, IH, NoDup_cons, Forall_cons.
  rewrite !Forall_forall. split.
  - intros [[Hm Hu] (Hd & Hs & Hf)]. split_and!; [|done|done| |done|done].
    + intros Hk. apply (Hs _ Hk). apply elem_of_union. left. by apply elem_of_singleton.
    + intros k Hk Hk'. apply (Hs k Hk). apply elem_of_union. by right.
  - intros ([Hm Hd] & [Hk Hs] & Hu & Hf). split_and!; [done..| |done].
    intros k Hin [->%elem_of_singleton|Hin']%elem_of_union; [done|]. by apply (Hs k).
Qed.

Lemma freshKeys_empty ms : freshKeys ∅ ms = uniqueKeys (JObj ms).
Proof.
  apply eq_true_iff_eq. rewrite freshKeys_spec. cbn [uniqueKeys].
  rewrite andb_true_iff, bool_decide_eq_true. split; [tauto|]. intros [H1 H2]. split_and!; [done| |done].
  apply Forall_forall. intros k _. apply not_elem_of_empty.
Qed.

(** * Tokens *)

Definition ok_of {A} (o : option (result A)) : option A :=
  match o with Some (Ok a) => Some a | _ => None end.

Lemma tokenLoop_skip st stk s : tokenLoop st stk s = tokenLoop st stk (skipSpace s).
Proof.
  induction s as [|c s IH]; [done|]. cbn [tokenLoop skipSpace]. destruct (isSpace c) eqn:E; [done|].
  cbn [tokenLoop]. by rewrite E.
Qed.

Lemma skip_fixed_head c r : skipSpace (c :: r) = c :: r -> isSpace c = false.
Proof. intros H. by eapply skipSpace_head. Qed.

(** The states in which a value is due. *)
Definition value_state (st : tokenState) : Prop :=
  st = tokenArrayStart \/ st = tokenArrayValue \/ st = tokenObjectValue.

(** Split a token on its first byte. *)
Ltac byte_eq c b := destruct (bool_decide_reflect (c = b)) as [->|?].

Lemma scanScalar_delim c r :
  c ∈ [rbracket; rbrace; colon; comma] -> scanScalar (c :: r) = None.
Proof.
  intros H. repeat (apply elem_of_cons in H as [->|H]; [done|]). by apply elem_of_nil in H.
Qed.

Lemma consumeValue_step fuel st stk k :
  value_state st -> skipSpace k = k ->
  ok_of (consumeValue (S fuel) (mkDecoder k st stk)) =
  match k with
  | [] => None
  | c :: r =>
      if c =?? lbrace then ok_of (consumeObject fuel ∅ (mkDecoder r tokenObjectStart (st :: stk)))
      else if c =?? lbracket then ok_of (consumeArray fuel (mkDecoder r tokenArrayStart (st :: stk)))
      else match scanScalar k with
           | Some (_, r) => Some (mkDecoder r (tokenValueEnd st) stk)
           | None => None
           end
  end.
Proof.
  intros Hst Hk. cbn [consumeValue]. unfold Token. cbn [dec_state dec_stack dec_buf].
  destruct k as [|c r]; [done|]. cbn [tokenLoop]. rewrite (skip_fixed_head c r Hk).
  assert (tokenValueAllowed st = true) as Ha by (by destruct Hst as [->|[->| ->]]).
  assert ((st =?? tokenObjectStart) || (st =?? tokenObjectKey) = false) as Hkey by (by destruct Hst as [->|[->| ->]]).
  byte_eq c lbracket; [unfold openDelim; by rewrite Ha|].
  byte_eq c rbracket.
  { rewrite (scanScalar_delim rbracket) by (apply (bool_decide_eq_true_1 _); reflexivity). unfold closeDelim.
    destruct ((st =?? tokenArrayStart) || _); [|done]. by destruct stk. }
  byte_eq c lbrace; [unfold openDelim; by rewrite Ha|].
  byte_eq c rbrace.
  { rewrite (scanScalar_delim rbrace) by (apply (bool_decide_eq_true_1 _); reflexivity). unfold closeDelim.
    destruct ((st =?? tokenObjectStart) || (st =?? tokenObjectComma)); [|done]. by destruct stk. }
  byte_eq c colon.
  { rewrite (scanScalar_delim colon) by (apply (bool_decide_eq_true_1 _); reflexivity). by destruct Hst as [->|[->| ->]]. }
  byte_eq c comma.
  { rewrite (scanScalar_delim comma) by (apply (bool_decide_eq_true_1 _); reflexivity). by destruct Hst as [->|[->| ->]]. }
  rewrite Hkey, andb_false_r, Ha. destruct (scanScalar (c :: r)) as [[v r']|]; [|done].
  by destruct v.
Qed.

(** The state of an array before an item, and before its value. *)
Definition array_state (first : bool) : tokenState := if first then tokenArrayStart else tokenArrayComma.
Definition item_state (first : bool) : tokenState := if first then tokenArrayStart else tokenArrayValue.

Lemma consumeValue_separator fuel st st' b stk s :
  (st, st', b) ∈ [(tokenArrayComma, tokenArrayValue, comma); (tokenObjectColon, tokenObjectValue, colon)] ->
  ok_of (consumeValue (S fuel) (mkDecoder s st stk)) =
  match expect b s with
  | Some r => ok_of (consumeValue (S fuel) (mkDecoder (skipSpace r) st' stk))
  | None => None
  end.
Proof.
  intros Hst.
  assert ((st = tokenArrayComma /\ st' = tokenArrayValue /\ b = comma) \/
          (st = tokenObjectColon /\ st' = tokenObjectValue /\ b = colon)) as Hc.
  { apply elem_of_cons in Hst as [[= -> -> ->]|[[= -> -> ->]|[]%elem_of_nil]%elem_of_cons]; auto. }
  clear Hst. cbn [consumeValue]. unfold Token. cbn [dec_state dec_stack dec_buf].
  rewrite (tokenLoop_skip st). unfold expect. pose proof (skipSpace_head s) as Hh.
  destruct (skipSpace s) as [|c r]; [done|]. specialize (Hh c r eq_refl).
  cbn [tokenLoop]. rewrite Hh.
  destruct (bool_decide_reflect (c = b)) as [->|Hb].
  { destruct Hc as [(-> & -> & ->)|(-> & -> & ->)]; cbn; by rewrite <- tokenLoop_skip. }
  byte_eq c lbracket; [by destruct Hc as [(-> & _)|(-> & _)]|].
  byte_eq c rbracket.
  { destruct Hc as [(-> & _)|(-> & _)]; [|done]. cbn. by destruct stk. }
  byte_eq c lbrace; [by destruct Hc as [(-> & _)|(-> & _)]|].
  byte_eq c rbrace; [by destruct Hc as [(-> & _)|(-> & _)]|].
  byte_eq c colon; [by destruct Hc as [(-> & _ & ->)|(-> & _ & ->)]|].
  byte_eq c comma; [by destruct Hc as [(-> & _ & ->)|(-> & _ & ->)]|].
  destruct Hc as [(-> & _)|(-> & _)]; cbn; by rewrite andb_false_r.
Qed.

Lemma consumeValue_item fuel first stk s :
  ok_of (consumeValue (S fuel) (mkDecoder s (array_state first) stk)) =
  match nextItem first s with
  | Some k => ok_of (consumeValue (S fuel) (mkDecoder k (item_state first) stk))
  | None => None
  end.
Proof.
  destruct first; cbn [array_state item_state nextItem].
  - cbn [consumeValue]. unfold Token. cbn [dec_state dec_stack dec_buf]. by rewrite tokenLoop_skip.
  - rewrite (consumeValue_separator _ _ tokenArrayValue comma) by in_list.
    by destruct (expect comma s).
Qed.

(** The state of an object before a member. *)
Definition object_state (first : bool) : tokenState := if first then tokenObjectStart else tokenObjectComma.

(** The name a token gives, if it is a string. *)
Definition name_token (t : result (token * Decoder)) : option (bytes * Decoder) :=
  match t with Ok (TString name, d) => Some (name, d) | _ => None end.

Definition name_at (stk : list tokenState) (k : bytes) : option (bytes * Decoder) :=
  match k with
  | q :: k =>
      if q =?? quote then
        match scanString k with
        | Some (t, r) => Some (unquote t, mkDecoder r tokenObjectColon stk)
        | None => None
        end
      else None
  | [] => None
  end.

Lemma token_name_start st stk k :
  st = tokenObjectStart \/ st = tokenObjectKey -> skipSpace k = k ->
  name_token (tokenLoop st stk k) = name_at stk k.
Proof.
  intros Hst Hk. destruct k as [|c r]; [done|]. cbn [tokenLoop name_at]. rewrite (skip_fixed_head c r Hk).
  byte_eq c quote.
  { destruct Hst as [->| ->]; cbn; by destruct (scanString r) as [[? ?]|]. }
  byte_eq c lbracket; [by destruct Hst as [->| ->]|].
  byte_eq c rbracket; [by destruct Hst as [->| ->]|].
  byte_eq c lbrace; [by destruct Hst as [->| ->]|].
  byte_eq c rbrace; [destruct Hst as [->| ->]; cbn; by destruct stk|].
  byte_eq c colon; [by destruct Hst as [->| ->]|].
  byte_eq c comma; [by destruct Hst as [->| ->]|].
  rewrite andb_false_l. by destruct Hst as [->| ->].
Qed.

Lemma token_name first stk s :
  name_token (tokenLoop (object_state first) stk s) =
  match nextItem first s with Some k => name_at stk k | None => None end.
Proof.
  rewrite tokenLoop_skip. destruct first; cbn [object_state nextItem].
  { apply token_name_start; [by left|apply skipSpace_idem]. }
  unfold expect. pose proof (skipSpace_head s) as Hh.
  destruct (skipSpace s) as [|c r]; [done|]. specialize (Hh c r eq_refl). cbn [tokenLoop]. rewrite Hh.
  byte_eq c comma.
  { etransitivity; [|apply (token_name_start tokenObjectKey stk (skipSpace r)); [by right|apply skipSpace_idem]].
    cbn. by rewrite <- tokenLoop_skip. }
  byte_eq c lbracket; [done|]. byte_eq c rbracket; [done|]. byte_eq c lbrace; [done|].
  byte_eq c rbrace; [cbn; by destruct stk|]. byte_eq c colon; [done|].
  cbn. by rewrite andb_false_r.
Qed.

(** * The walk and the grammar *)

Definition value_walk (fuel : nat) : Prop := forall st stk k, value_state st -> skipSpace k = k ->
  ok_of (consumeValue fuel (mkDecoder k st stk)) =
  match pValue fuel k with
  | Some (v, r) => if uniqueKeys v then Some (mkDecoder r (tokenValueEnd st) stk) else None
  | None => None
  end.

Definition object_walk (fuel : nat) : Prop := forall first seen top stk s,
  ok_of (consumeObject fuel seen (mkDecoder s (object_state first) (top :: stk))) =
  match pMembers fuel first s with
  | Some (ms, r) => if freshKeys seen ms then Some (mkDecoder r (tokenValueEnd top) stk) else None
  | None => None
  end.

Definition array_walk (fuel : nat) : Prop := forall first top stk s,
  ok_of (consumeArray fuel (mkDecoder s (array_state first) (top :: stk))) =
  match pElements fuel first s with
  | Some (vs, r) => if forallb uniqueKeys vs then Some (mkDecoder r (tokenValueEnd top) stk) else None
  | None => None
  end.

Lemma value_walk_step fuel : object_walk fuel -> array_walk fuel -> value_walk (S fuel).
Proof.
  intros HO HA st stk k Hst Hk. rewrite consumeValue_step by done. cbn [pValue].
  destruct k as [|c r]; [done|]. destruct (c =?? lbrace).
  { rewrite (HO true). destruct (pMembers fuel true r) as [[ms r']|]; [|done]. by rewrite freshKeys_empty. }
  destruct (c =?? lbracket).
  { rewrite (HA true). by destruct (pElements fuel true r) as [[vs r']|]. }
  destruct (scanScalar (c :: r)) as [[v r']|] eqn:E; [|done].
  apply scanScalar_local in E as (t & _ & _ & _ & Hv). by destruct v.
Qed.

(** The items of an array or object once it is not closed. *)
Lemma nextItem_nil first s : skipSpace s = [] -> nextItem first s = if first then Some [] else None.
Proof. intros H. destruct first; cbn; [by rewrite H|]. unfold expect. by rewrite H. Qed.

Lemma nextItem_bad first s c r :
  skipSpace s = c :: r -> c <> comma -> nextItem first s = if first then Some (c :: r) else None.
Proof.
  intros H Hc. destruct first; cbn; [by rewrite H|]. unfold expect. rewrite H. by rewrite bool_decide_false.
Qed.

Lemma nextItem_skipped first s k : nextItem first s = Some k -> skipSpace k = k.
Proof.
  unfold nextItem. destruct first; [intros [= <-]; apply skipSpace_idem|].
  destruct (expect comma s); [|done]. intros [= <-]. apply skipSpace_idem.
Qed.

Lemma array_walk_step fuel : value_walk fuel -> array_walk fuel -> array_walk (S fuel).
Proof.
  intros HV HA first top stk s. cbn [consumeArray pElements]. unfold More. cbn [dec_buf].
  unfold closes, expect. pose proof (skipSpace_head s) as Hh.
  destruct (skipSpace s) as [|c r] eqn:Es.
  { unfold Token. cbn [dec_buf dec_state dec_stack]. rewrite tokenLoop_skip, Es, (nextItem_nil _ _ Es).
    destruct first; [|done]. by destruct fuel. }
  specialize (Hh c r eq_refl). byte_eq c rbracket.
  { cbn [negb andb]. unfold Token. cbn [dec_buf dec_state dec_stack]. rewrite tokenLoop_skip, Es.
    cbn [tokenLoop]. rewrite Hh. by destruct first. }
  byte_eq c rbrace.
  { cbn [negb andb]. unfold Token. cbn [dec_buf dec_state dec_stack]. rewrite tokenLoop_skip, Es.
    cbn [tokenLoop]. rewrite Hh, (nextItem_bad _ _ _ _ Es) by done.
    destruct first; [|done]. by destruct fuel. }
  cbn [negb andb]. destruct fuel as [|fuel].
  { cbn. by destruct (nextItem first s). }
  transitivity (match ok_of (consumeValue (S fuel) (mkDecoder s (array_state first) (top :: stk))) with
                | Some d => ok_of (consumeArray (S fuel) d) | None => None end).
  { by destruct (consumeValue _ _) as [[d|e]|]. }
  rewrite consumeValue_item. destruct (nextItem first s) as [k|] eqn:En; [|done].
  pose proof (nextItem_skipped _ _ _ En) as Hk.
  rewrite HV by (done || destruct first; unfold value_state; auto).
  destruct (pValue (S fuel) k) as [[v r']|]; [|done].
  assert (tokenValueEnd (item_state first) = array_state false) as -> by (by destruct first).
  destruct (uniqueKeys v) eqn:Eu.
  - rewrite HA. destruct (pElements (S fuel) false r') as [[vs r'']|]; [|done].
    cbn [forallb]. by rewrite Eu.
  - destruct (pElements (S fuel) false r') as [[vs r'']|]; [|done]. cbn [forallb]. by rewrite Eu.
Qed.

(** A member: its name, its colon and its value. *)
Lemma consumeValue_member fuel stk k :
  match name_at stk k with
  | Some (name, d) => (name,.) <$> ok_of (consumeValue (S fuel) d)
  | None => None
  end =
  match scanKey k with
  | Some (key, start) =>
      (unquote key,.) <$> ok_of (consumeValue (S fuel) (mkDecoder start tokenObjectValue stk))
  | None => None
  end.
Proof.
  unfold name_at, scanKey. destruct k as [|q k]; [done|]. destruct (q =?? quote); [|done].
  destruct (scanString k) as [[t r]|]; [|done].
  rewrite (consumeValue_separator _ _ tokenObjectValue colon) by in_list.
  by destruct (expect colon r).
Qed.

Lemma scanKey_skipped k key start : scanKey k = Some (key, start) -> skipSpace start = start.
Proof.
  unfold scanKey. destruct k as [|q k]; [done|]. destruct (q =?? quote); [|done].
  destruct (scanString k) as [[t r]|]; [|done]. destruct (expect colon r); [|done].
  intros [= <- <-]. apply skipSpace_idem.
Qed.

Lemma object_walk_step fuel : value_walk fuel -> object_walk fuel -> object_walk (S fuel).
Proof.
  intros HV HO first seen top stk s. cbn [consumeObject pMembers]. unfold More. cbn [dec_buf].
  unfold closes, expect. pose proof (skipSpace_head s) as Hh.
  destruct (skipSpace s) as [|c r] eqn:Es.
  { unfold Token. cbn [dec_buf dec_state dec_stack]. rewrite tokenLoop_skip, Es, (nextItem_nil _ _ Es).
    by destruct first. }
  specialize (Hh c r eq_refl). byte_eq c rbrace.
  { cbn [negb andb]. unfold Token. cbn [dec_buf dec_state dec_stack]. rewrite tokenLoop_skip, Es.
    cbn [tokenLoop]. rewrite Hh. by destruct first. }
  byte_eq c rbracket.
  { cbn [negb andb]. unfold Token. cbn [dec_buf dec_state dec_stack]. rewrite tokenLoop_skip, Es.
    cbn [tokenLoop]. rewrite Hh, (nextItem_bad _ _ _ _ Es) by done. by destruct first. }
  cbn [negb andb].
  pose proof (token_name first (top :: stk) s) as Ht.
  unfold Token. cbn [dec_buf dec_state dec_stack].
  transitivity (match name_token (tokenLoop (object_state first) (top :: stk) s) with
    | Some (name, d) => if bool_decide (name ∈ seen) then None else
        match (name,.) <$> ok_of (consumeValue fuel d) with
        | Some (name, d) => ok_of (consumeObject fuel ({[name]} ∪ seen) d)
        | None => None
        end
    | None => None end).
  { destruct (tokenLoop _ _ _) as [[[b|name|v] d]|e]; [done| |done..]. cbn [name_token].
    case_bool_decide; [done|]. by destruct (consumeValue fuel d) as [[d'|e]|]. }
  rewrite Ht. clear Ht. destruct (nextItem first s) as [k|] eqn:En; [|done].
  destruct fuel as [|fuel].
  { destruct (name_at (top :: stk) k) as [[name d]|]; [|by destruct (scanKey k) as [[? ?]|]].
    destruct (scanKey k) as [[? ?]|]; cbn; by case_bool_decide. }
  transitivity (match (match name_at (top :: stk) k with
      | Some (name, d) => (name,.) <$> ok_of (consumeValue (S fuel) d)
      | None => None end) with
    | Some (name, d) => if bool_decide (name ∈ seen) then None else ok_of (consumeObject (S fuel) ({[name]} ∪ seen) d)
    | None => None end).
  { destruct (name_at _ k) as [[name d]|]; [|done].
    destruct (ok_of (consumeValue (S fuel) d)); cbn; [done|]. by case_bool_decide. }
  rewrite consumeValue_member. destruct (scanKey k) as [[key start]|] eqn:Ek; [|done].
  pose proof (scanKey_skipped _ _ _ Ek) as Hk. rewrite HV by (done || unfold value_state; auto).
  destruct (pValue (S fuel) start) as [[v r']|]; [|done].
  destruct (uniqueKeys v) eqn:Eu.
  - cbn [fmap option_fmap option_map]. rewrite (HO false).
    destruct (pMembers (S fuel) false r') as [[ms r'']|]; [|by case_bool_decide].
    cbn [freshKeys]. unfold member_key at 1 2. cbn [fst snd]. rewrite Eu. by case_bool_decide.
  - destruct (pMembers (S fuel) false r') as [[ms r'']|]; [|done].
    cbn [freshKeys fst snd]. rewrite Eu. by rewrite andb_false_r.
Qed.

Lemma walk_grammar fuel : value_walk fuel /\ object_walk fuel /\ array_walk fuel.
Proof.
  induction fuel as [|fuel (HV & HO & HA)]; [done|]. split_and!.
  - by apply value_walk_step.
  - by apply object_walk_step.
  - by apply array_walk_step.
Qed.

(** * Termination *)

Lemma tokenLoop_shorter st stk s t d :
  tokenLoop st stk s = Ok (t, d) -> (length (dec_buf d) < length s)%nat.
Proof.
  revert st. induction s as [|c s IH]; intros st; [done|]. cbn [tokenLoop length].
  assert (forall b start st, openDelim b start st stk s = Ok (t, d) -> (length (dec_buf d) < S (length s))%nat) as Ho.
  { intros b start st'. unfold openDelim. destruct (tokenValueAllowed st'); [|done]. intros [= <- <-]. simpl. lia. }
  assert (forall b s1 s2 st, closeDelim b s1 s2 st stk s = Ok (t, d) -> (length (dec_buf d) < S (length s))%nat) as Hc.
  { intros b s1 s2 st'. unfold closeDelim. destruct (_ || _); [|done]. destruct stk; [done|]. intros [= <- <-]. simpl. lia. }
  assert (forall st, tokenLoop st stk s = Ok (t, d) -> (length (dec_buf d) < S (length s))%nat) as Hi.
  { intros st' H. apply IH in H. lia. }
  destruct (isSpace c); [apply Hi|]. destruct (c =?? lbracket); [apply Ho|]. destruct (c =?? rbracket); [apply Hc|].
  destruct (c =?? lbrace); [apply Ho|]. destruct (c =?? rbrace); [apply Hc|].
  destruct (c =?? colon); [destruct (st =?? tokenObjectColon); [apply Hi|done]|].
  destruct (c =?? comma).
  { destruct (st =?? tokenArrayComma); [apply Hi|]. destruct (st =?? tokenObjectComma); [apply Hi|done]. }
  destruct ((c =?? quote) && _).
  { destruct (scanString s) as [[u r]|] eqn:E; [|done]. intros [= <- <-].
    apply scanString_inv in E as (l & _ & _ & ->). simpl. rewrite length_app. simpl. lia. }
  destruct (tokenValueAllowed st); [|done]. destruct (scanScalar (c :: s)) as [[v r]|] eqn:E; [|done].
  intros [= <- <-]. apply scanScalar_local in E as (u & E & Hu & _).
  apply (f_equal length) in E. rewrite length_app in E. apply trimmed_ne in Hu. destruct u; [done|]. simpl in *. lia.
Qed.

(** With fuel above twice the unread text the walk ends, and what it leaves is
    shorter. *)
Definition ends (d : Decoder) (o : option (result Decoder)) : Prop :=
  exists r, o = Some r /\ forall d', r = Ok d' -> (length (dec_buf d') < length (dec_buf d))%nat.

Lemma ends_err d e : ends d (Some (Err e)).
Proof. by eexists. Qed.

Lemma ends_ok d d' : (length (dec_buf d') < length (dec_buf d))%nat -> ends d (Some (Ok d')).
Proof. intros H. eexists. split; [done|]. by intros d'' [= <-]. Qed.

Lemma ends_shorter d d' o : (length (dec_buf d') <= length (dec_buf d))%nat -> ends d' o -> ends d o.
Proof. intros H (r & -> & Hr). exists r. split; [done|]. intros d'' E. specialize (Hr d'' E). lia. Qed.

(** A walk continued by another. *)
Lemma ends_then d o (k : Decoder -> option (result Decoder)) :
  ends d o -> (forall d', (length (dec_buf d') < length (dec_buf d))%nat -> ends d' (k d')) ->
  ends d (match o with Some (Ok d') => k d' | Some (Err e) => Some (Err e) | None => None end).
Proof.
  intros (r & -> & Hr) Hk. destruct r as [d'|e]; [|apply ends_err].
  specialize (Hr d' eq_refl). eapply ends_shorter; [|by apply Hk]. lia.
Qed.

Lemma ends_close b d : ends d
  match Token d with
  | Err e => Some (Err e)
  | Ok (TDelim delim, decoder) => if delim =?? b then Some (Ok decoder) else Some (Err errInvalidEvent)
  | Ok _ => Some (Err errInvalidEvent)
  end.
Proof.
  destruct (Token d) as [[t d']|e] eqn:E; [|apply ends_err]. apply tokenLoop_shorter in E.
  destruct t; [|apply ends_err..]. case_bool_decide; [by apply ends_ok|apply ends_err].
Qed.

Lemma walk_ends fuel :
  (forall d, (2 * length (dec_buf d) + 1 <= fuel)%nat -> ends d (consumeValue fuel d)) /\
  (forall d seen, (2 * length (dec_buf d) + 2 <= fuel)%nat -> ends d (consumeObject fuel seen d)) /\
  (forall d, (2 * length (dec_buf d) + 2 <= fuel)%nat -> ends d (consumeArray fuel d)).
Proof.
  induction fuel as [|fuel (HV & HO & HA)]; [split; [|split]; intros; lia|]. split; [|split].
  - intros d Hl. cbn [consumeValue]. destruct (Token d) as [[t d']|e] eqn:E; [|apply ends_err].
    apply tokenLoop_shorter in E. destruct t as [b|s|v]; [|by apply ends_ok..].
    case_bool_decide; [eapply ends_shorter; [|apply HO]; lia|].
    case_bool_decide; [eapply ends_shorter; [|apply HA]; lia|]. apply ends_err.
  - intros d seen Hl. cbn [consumeObject]. destruct (More d); [|apply ends_close].
    destruct (Token d) as [[t d']|e] eqn:E; [|apply ends_err].
    apply tokenLoop_shorter in E. destruct t as [b|s|v]; [apply ends_err| |apply ends_err].
    case_bool_decide; [apply ends_err|]. apply (ends_shorter d d'); [lia|].
    apply (ends_then _ _ (consumeObject fuel _)); [apply HV; lia|]. intros d'' Hd. apply HO. lia.
  - intros d Hl. cbn [consumeArray]. destruct (More d); [|apply ends_close].
    apply (ends_then _ _ (consumeArray fuel)); [apply HV; lia|]. intros d'' Hd. apply HA. lia.
Qed.

(** * The walk over a whole document *)

(** The document is an object of the grammar without repeated keys. *)
Definition uniqueObject (data : bytes) : bool :=
  match parseDocument data with
  | Some (JObj ms) => uniqueKeys (JObj ms)
  | _ => false
  end.

Lemma validate_total data : validateJSONObject data <> None.
Proof.
  unfold validateJSONObject. destruct (Token (NewDecoder data)) as [[t d]|e] eqn:E; [|done].
  apply tokenLoop_shorter in E. cbn [NewDecoder dec_buf] in E.
  destruct t as [b|s|v]; [|done..]. case_bool_decide; [|done].
  destruct (proj1 (proj2 (walk_ends (2 * length data + 2))) d ∅ ltac:(lia)) as (r & -> & _).
  cbn [negb]. destruct r as [d'|e]; [|done]. destruct (Token d') as [?|e]; [done|]. by destruct (errors_is e EOF).
Qed.

(** The end of the input is the only error of a token that is [io.EOF]. *)
Lemma token_EOF s :
  match tokenLoop tokenTopValue [] s with
  | Err e => negb (errors_is e EOF)
  | Ok _ => true
  end = match skipSpace s with [] => false | _ => true end.
Proof.
  rewrite tokenLoop_skip. pose proof (skipSpace_head s) as Hh. destruct (skipSpace s) as [|c r]; [done|].
  specialize (Hh c r eq_refl). cbn [tokenLoop]. rewrite Hh.
  byte_eq c lbracket; [done|]. byte_eq c rbracket; [done|]. byte_eq c lbrace; [done|].
  byte_eq c rbrace; [done|]. byte_eq c colon; [done|]. byte_eq c comma; [done|].
  change ((tokenTopValue =?? tokenObjectStart) || (tokenTopValue =?? tokenObjectKey)) with false.
  rewrite andb_false_r. cbn [tokenValueAllowed]. by destruct (scanScalar (c :: r)) as [[v r']|].
Qed.

Lemma validate_spec data :
  validateJSONObject data = Some (if uniqueObject data then None else Some (Sentinel errInvalidEvent)).
Proof.
  pose proof (validate_total data) as Ht. revert Ht.
  unfold validateJSONObject, uniqueObject, parseDocument, Token, NewDecoder.
  cbn [dec_buf dec_state dec_stack]. rewrite tokenLoop_skip.
  pose proof (skipSpace_head data) as Hh. replace (2 * length data + 3)%nat with (S (2 * length data + 2)) by lia.
  destruct (skipSpace data) as [|c s]; [done|]. specialize (Hh c s eq_refl).
  byte_eq c lbrace.
  { assert (tokenLoop tokenTopValue [] (lbrace :: s) =
            Ok (TDelim lbrace, mkDecoder s tokenObjectStart [tokenTopValue])) as -> by done.
    cbn [pValue]. rewrite !(bool_decide_true (lbrace = lbrace)) by done. cbn [negb].
    pose proof (proj1 (proj2 (walk_grammar (2 * length data + 2))) true ∅ tokenTopValue [] s) as H.
    cbn [object_state tokenValueEnd] in H. intros Ht.
    destruct (pMembers _ true s) as [[ms r]|].
    - rewrite freshKeys_empty in H. destruct (uniqueKeys (JObj ms)) eqn:Eu.
      + destruct (consumeObject _ _ _) as [[d|e]|]; [|done..]. cbn [ok_of] in H. injection H as ->.
        cbn [dec_buf dec_state dec_stack]. pose proof (token_EOF r) as Hr.
        destruct (tokenLoop _ _ r) as [?|e]; [by destruct (skipSpace r)|].
        rewrite Hr. destruct (skipSpace r); [by rewrite Eu|done].
      + destruct (consumeObject _ _ _) as [[d|e]|]; [done| |done].
        destruct (skipSpace r); [by rewrite Eu|done].
    - by destruct (consumeObject _ _ _) as [[d|e]|]. }
  cbn [tokenLoop pValue]. rewrite Hh, (bool_decide_false (c = lbrace)) by done.
  assert (forall o : option (jv * bytes), (forall v r, o = Some (v, r) -> match v with JObj _ => False | _ => True end) ->
    match (match o with Some (v, r) => match skipSpace r with [] => Some v | _ => None end | None => None end) with
    | Some (JObj ms) => uniqueKeys (JObj ms) | _ => false end = false) as Hno.
  { intros [[v r]|] Ho; [|done]. specialize (Ho v r eq_refl). destruct (skipSpace r); [|done]. by destruct v. }
  rewrite Hno.
  2:{ intros v r. destruct (c =?? lbracket); [destruct (pElements _ true s) as [[vs k]|]; [by intros [= <- <-]|done]|].
      intros (t & _ & _ & _ & Hv)%scanScalar_local. by destruct v. }
  intros _. byte_eq c lbracket; [done|]. byte_eq c rbracket; [done|].
  byte_eq c rbrace; [done|]. byte_eq c colon; [done|]. byte_eq c comma; [done|].
  change ((tokenTopValue =?? tokenObjectStart) || (tokenTopValue =?? tokenObjectKey)) with false.
  rewrite andb_false_r. cbn [tokenValueAllowed]. destruct (scanScalar (c :: s)) as [[v r]|]; [|done]. by destruct v.
Qed.

(** * Properties *)

(** More fuel does not change a walk that ended. *)
Lemma walk_more_fuel fuel :
  (forall d r, consumeValue fuel d = Some r -> consumeValue (S fuel) d = Some r) /\
  (forall seen d r, consumeObject fuel seen d = Some r -> consumeObject (S fuel) seen d = Some r) /\
  (forall d r, consumeArray fuel d = Some r -> consumeArray (S fuel) d = Some r).
Proof.
  induction fuel as [|fuel (HV & HO & HA)]; [done|]. split_and!.
  - intros d r. remember (S fuel) as n eqn:En. cbn [consumeValue]. subst n. cbn [consumeValue].
    destruct (Token d) as [[[b|s|v] d']|e]; try done.
    destruct (b =?? lbrace); [apply HO|]. destruct (b =?? lbracket); [apply HA|done].
  - intros seen d r. remember (S fuel) as n eqn:En. cbn [consumeObject]. subst n. cbn [consumeObject].
    destruct (More d); [|done]. destruct (Token d) as [[[b|s|v] d']|e]; try done.
    case_bool_decide; [done|]. destruct (consumeValue fuel d') as [[d''|e]|] eqn:E; [| |done].
    + rewrite (HV _ _ E). apply HO.
    + by rewrite (HV _ _ E).
  - intros d r. remember (S fuel) as n eqn:En. cbn [consumeArray]. subst n. cbn [consumeArray].
    destruct (More d); [|done]. destruct (consumeValue fuel d) as [[d''|e]|] eqn:E; [| |done].
    + rewrite (HV _ _ E). apply HA.
    + by rewrite (HV _ _ E).
Qed.

Lemma stable {A} (f : nat -> option A) n :
  (forall m x, f m = Some x -> f (S m) = Some x) -> f n <> None ->
  exists x, forall m, (n <= m)%nat -> f m = Some x.
Proof.
  intros Hs Hn. destruct (f n) as [x|] eqn:E; [|done]. exists x. intros m Hm. induction Hm; auto.
Qed.

Lemma ends_some d o : ends d o -> o <> None.
Proof. by intros (r & -> & _). Qed.

(** The walk of the decoder terminates: with fuel above twice the length of
    the unread text, [consumeValue], [consumeObject] and the array loop reach a
    result, the same for every such fuel; a value, an object or an array that
    is accepted leaves strictly less text. *)
Theorem consume_terminates (d : Decoder) (seen : gset bytes) :
  let n := (2 * length (dec_buf d) + 2)%nat in
  (exists r, forall fuel, (n <= fuel)%nat -> consumeValue fuel d = Some r) /\
  (exists r, forall fuel, (n <= fuel)%nat -> consumeObject fuel seen d = Some r) /\
  (exists r, forall fuel, (n <= fuel)%nat -> consumeArray fuel d = Some r) /\
  (forall d', consumeValue n d = Some (Ok d') \/ consumeObject n seen d = Some (Ok d') \/
              consumeArray n d = Some (Ok d') -> (length (dec_buf d') < length (dec_buf d))%nat).
Proof.
  intros n. destruct (walk_ends n) as (HV & HO & HA). split_and!.
  - apply stable; [intros; by apply walk_more_fuel|]. eapply ends_some, HV. lia.
  - apply (stable (fun fuel => consumeObject fuel seen d)); [intros; by apply walk_more_fuel|].
    eapply ends_some, HO. lia.
  - apply stable; [intros; by apply walk_more_fuel|]. eapply ends_some, HA. lia.
  - intros d' [E|[E|E]].
    + destruct (HV d ltac:(lia)) as (r & E' & Hr). apply Hr. congruence.
    + destruct (HO d seen ltac:(lia)) as (r & E' & Hr). apply Hr. congruence.
    + destruct (HA d ltac:(lia)) as (r & E' & Hr). apply Hr. congruence.
Qed.

(** (C33) [validateJSONObject] accepts exactly the documents that are one JSON
    object of the grammar in which no object, at any depth, has two members
    whose decoded names are equal; the streaming walk and the grammar by which
    the fields are split afterwards read the same members. Every other input
    is refused with [errInvalidEvent]. *)
Theorem validateJSONObject_decides (data : bytes) :
  validateJSONObject data = Some (if uniqueObject data then None else Some (Sentinel errInvalidEvent)).
Proof. apply validate_spec. Qed.
