(* ===== verification/Utf8.v ===== *)
(** UTF-8 texts: what a rune occupies, cutting a valid text at an ASCII byte,
    and encoding a rune. *)

From S2P Require Import Prelude GoErrors Encoding Events Canonical Json.

(** * Runes of a text *)

Ltac range_facts :=
  repeat match goal with
  | H : (_ && _) = true |- _ => apply andb_prop in H as [? ?]
  | H : is_cont _ = true |- _ => unfold is_cont in H
  | H : in_range _ _ _ = true |- _ => apply in_range_true in H
  end.

(** A valid rune is decoded from its own bytes. *)
Lemma decodeRune_take s s' r n :
  decodeRune s = (r, n) -> rune_invalid s = false -> s <> [] ->
  take n s' = take n s -> decodeRune s' = (r, n).
Proof.
  intros Hd Hi Hs Ht. unfold rune_invalid in Hi. rewrite Hd in Hi.
  destruct s as [|b0 s]; [done|]. cbn [decodeRune] in Hd.
  assert (forall k, n = S k -> exists t, s' = b0 :: t /\ take k t = take k s) as Hhd.
  { intros k ->. destruct s' as [|c t]; simpl in Ht; [done|]. injection Ht as -> Ht. eauto. }
  assert (n <> 1%nat \/ r <> RuneError) as Hne.
  { destruct (Z.eqb_spec r RuneError); [|by right]. left. intros ->. simpl in Hi. done. }
  destruct (bZ b0 <? 128) eqn:E0.
  { injection Hd as <- <-. destruct (Hhd 0%nat eq_refl) as (t & -> & _). cbn [decodeRune]. by rewrite E0. }
  destruct (in_range 194 223 b0) eqn:E1.
  { destruct s as [|b1 s]; [injection Hd as <- <-; by destruct Hne|].
    destruct (is_cont b1) eqn:C1; injection Hd as <- <-; [|by destruct Hne].
    destruct (Hhd 1%nat eq_refl) as ([|c1 t] & -> & Et); [done|]. simpl in Et. injection Et as ->.
    cbn [decodeRune]. by rewrite E0, E1, C1. }
  destruct (in_range 224 239 b0) eqn:E2.
  { destruct s as [|b1 [|b2 s]]; [injection Hd as <- <-; by destruct Hne..|].
    destruct (_ && is_cont b2) eqn:C1 in Hd; injection Hd as <- <-; [|by destruct Hne].
    destruct (Hhd 2%nat eq_refl) as ([|c1 [|c2 t]] & -> & Et); [done..|]. simpl in Et. injection Et as -> ->.
    cbn [decodeRune]. by rewrite E0, E1, E2, C1. }
  destruct (in_range 240 244 b0) eqn:E3; [|injection Hd as <- <-; by destruct Hne].
  destruct s as [|b1 [|b2 [|b3 s]]]; [injection Hd as <- <-; by destruct Hne..|].
  destruct (_ && is_cont b2 && is_cont b3) eqn:C1 in Hd; injection Hd as <- <-; [|by destruct Hne].
  destruct (Hhd 3%nat eq_refl) as ([|c1 [|c2 [|c3 t]]] & -> & Et); [done..|]. simpl in Et. injection Et as -> -> ->.
  cbn [decodeRune]. by rewrite E0, E1, E2, E3, C1.
Qed.

Lemma utf8Valid_cons s :
  s <> [] -> rune_invalid s = false -> utf8Valid (drop (decodeRune s).2 s) = true -> utf8Valid s = true.
Proof.
  intros Hs Hi Hv. unfold utf8Valid in *. destruct s as [|b s]; [done|].
  pose proof (decodeRune_width (b :: s) Hs) as Hw.
  cbn [length validLoop]. rewrite Hi. eapply validLoop_mono; [|exact Hv].
  rewrite length_drop. simpl in *. lia.
Qed.

Lemma rune_invalid_take s s' :
  rune_invalid s = false -> s <> [] -> take (decodeRune s).2 s' = take (decodeRune s).2 s ->
  rune_invalid s' = false /\ (decodeRune s').2 = (decodeRune s).2.
Proof.
  intros Hi Hs Ht. destruct (decodeRune s) as [r n] eqn:E.
  pose proof (decodeRune_take s s' r n E Hi Hs Ht) as E'. unfold rune_invalid in *. by rewrite E', E in *.
Qed.

Lemma utf8Valid_app a b : utf8Valid a = true -> utf8Valid b = true -> utf8Valid (a ++ b) = true.
Proof.
  intros Ha Hb. remember (length a) as n eqn:En. revert a En Ha.
  induction (lt_wf n) as [n _ IH]. intros a -> Ha. destruct a as [|c a]; [done|].
  destruct (utf8Valid_step (c :: a) ltac:(done) Ha) as [Hi Hd].
  pose proof (decodeRune_width (c :: a) ltac:(done)) as Hw.
  destruct (rune_invalid_take (c :: a) ((c :: a) ++ b)) as [Hi' Hw']; [done|done|by rewrite take_app_le by lia|].
  apply utf8Valid_cons; [done|done|]. rewrite Hw', drop_app_le by lia.
  eapply IH; [|done|done]. rewrite length_drop. simpl in *. lia.
Qed.

(** A text can be cut before an ASCII byte. *)
Lemma utf8Valid_cut a c b :
  bZ c < 128 -> utf8Valid (a ++ c :: b) = true -> utf8Valid a = true /\ utf8Valid (c :: b) = true.
Proof.
  intros Hc. remember (length a) as n eqn:En. revert a En.
  induction (lt_wf n) as [n _ IH]. intros a -> Hv. destruct a as [|x a]; [done|].
  destruct (utf8Valid_step ((x :: a) ++ c :: b) ltac:(done) Hv) as [Hi Hd].
  pose proof (decodeRune_width ((x :: a) ++ c :: b) ltac:(done)) as Hw.
  set (m := (decodeRune ((x :: a) ++ c :: b)).2) in *.
  assert (m <= length (x :: a))%nat as Hm.
  { destruct (Z.ltb_spec (bZ x) 128).
    - subst m. cbn [app]. rewrite decodeRune_ascii by done. simpl. lia.
    - pose proof (decodeRune_high x (a ++ c :: b) ltac:(lia) Hi) as Hh. change (decodeRune (x :: a ++ c :: b)).2 with m in Hh.
      destruct (Nat.le_gt_cases m (length (x :: a))) as [|Hgt]; [done|]. exfalso.
      rewrite app_comm_cons, take_app_ge in Hh by lia. apply Forall_app in Hh as [_ Hh].
      destruct (m - length (x :: a))%nat eqn:E; [lia|]. simpl in Hh. apply Forall_cons in Hh as [? _]. lia. }
  rewrite drop_app_le in Hd by done.
  destruct (IH (length (drop m (x :: a)))) with (a := drop m (x :: a)) as [H1 H2]; [|done|done|].
  { rewrite length_drop. simpl in *. lia. }
  split; [|done].
  destruct (rune_invalid_take ((x :: a) ++ c :: b) (x :: a)) as [Hi' Hw']; [done|done|by rewrite take_app_le by done|].
  apply utf8Valid_cons; [done|done|]. by rewrite Hw'.
Qed.

(** * Encoding *)

Lemma bZ_lit z : 0 <= z < 256 -> bZ (Zb z) = z.
Proof. intros H. rewrite bZ_Zb. by apply Z.mod_small. Qed.

(** The base-64 digits of a number. *)
Lemma digits2 a b : 0 <= b < 64 -> (a * 64 + b) / 64 = a /\ (a * 64 + b) mod 64 = b.
Proof. intros Hb. by apply (zdiv_split a b 64). Qed.

Lemma digits3 a b c :
  0 <= b < 64 -> 0 <= c < 64 ->
  let r := a * 4096 + b * 64 + c in r / 4096 = a /\ r / 64 mod 64 = b /\ r mod 64 = c.
Proof.
  intros Hb Hc r. subst r. replace (a * 4096 + b * 64 + c) with ((a * 64 + b) * 64 + c) by lia.
  destruct (digits2 (a * 64 + b) c Hc) as [E1 ->]. rewrite E1. destruct (digits2 a b Hb) as [E2 ->].
  split_and!; [|done|done]. change 4096 with (64 * 64). rewrite <- Z.div_div by lia. by rewrite E1, E2.
Qed.

Lemma digits4 a b c d :
  0 <= b < 64 -> 0 <= c < 64 -> 0 <= d < 64 ->
  let r := a * 262144 + b * 4096 + c * 64 + d in
  r / 262144 = a /\ r / 4096 mod 64 = b /\ r / 64 mod 64 = c /\ r mod 64 = d.
Proof.
  intros Hb Hc Hd r. subst r.
  replace (a * 262144 + b * 4096 + c * 64 + d) with ((a * 64 + b) * 4096 + c * 64 + d) by lia.
  destruct (digits3 (a * 64 + b) c d Hc Hd) as (E1 & -> & ->). rewrite E1.
  destruct (digits2 a b Hb) as [E2 ->]. split_and!; [|done..].
  change 262144 with (4096 * 64). rewrite <- Z.div_div by lia. by rewrite E1, E2.
Qed.

Lemma Zb_back z b : z = bZ b -> Zb z = b.
Proof. intros ->. apply Zb_bZ. Qed.

(** Encoding the decoded rune gives back its bytes. *)
Lemma encodeRune_decodeRune s :
  s <> [] -> rune_invalid s = false -> encodeRune (decodeRune s).1 = take (decodeRune s).2 s.
Proof.
  intros Hs Hi. unfold rune_invalid in Hi. destruct s as [|b0 s]; [done|].
  pose proof (bZ_range b0) as R0. cbn [decodeRune] in *. unfold encodeRune, surrogate.
  destruct (Z.ltb_spec (bZ b0) 128) as [H0|H0].
  { cbn [fst snd take]. rewrite (proj2 (Z.ltb_lt _ _) H0).
    replace ((bZ b0 <? 0) || _ || _) with false by lia. by rewrite Zb_bZ. }
  destruct (in_range 194 223 b0) eqn:E1.
  { destruct s as [|b1 s]; [done|]. destruct (is_cont b1) eqn:C1; [|done]. range_facts.
    cbn [fst snd take]. set (r := (bZ b0 - 192) * 64 + (bZ b1 - 128)).
    destruct (digits2 (bZ b0 - 192) (bZ b1 - 128) ltac:(lia)) as [D1 D2]. fold r in D1, D2.
    replace ((r <? 0) || _ || _) with false by lia.
    replace (r <? 128) with false by lia. replace (r <? 2048) with true by lia.
    rewrite D1, D2. f_equal; [|f_equal]; apply Zb_back; lia. }
  destruct (in_range 224 239 b0) eqn:E2.
  { destruct s as [|b1 [|b2 s]]; [done..|].
    destruct (in_range _ _ b1 && is_cont b2) eqn:C1; [|done]. range_facts.
    cbn [fst snd take]. set (r := (bZ b0 - 224) * 4096 + (bZ b1 - 128) * 64 + (bZ b2 - 128)).
    assert (128 <= bZ b1 <= 191) by (repeat case_match; lia).
    destruct (digits3 (bZ b0 - 224) (bZ b1 - 128) (bZ b2 - 128) ltac:(lia) ltac:(lia)) as (D1 & D2 & D3).
    fold r in D1, D2, D3.
    assert (2048 <= r < 65536 /\ ~ (0xd800 <= r <= 0xdfff)) as [Hr Hsur].
    { subst r. destruct (Z.eqb_spec (bZ b0) 224), (Z.eqb_spec (bZ b0) 237); lia. }
    replace ((r <? 0) || _ || _) with false by lia.
    replace (r <? 128) with false by lia. replace (r <? 2048) with false by lia.
    replace (r <? 65536) with true by lia.
    rewrite D1, D2, D3. repeat f_equal; apply Zb_back; lia. }
  destruct (in_range 240 244 b0) eqn:E3; [|done].
  destruct s as [|b1 [|b2 [|b3 s]]]; [done..|].
  destruct (in_range _ _ b1 && is_cont b2 && is_cont b3) eqn:C1; [|done]. range_facts.
  cbn [fst snd take].
  set (r := (bZ b0 - 240) * 262144 + (bZ b1 - 128) * 4096 + (bZ b2 - 128) * 64 + (bZ b3 - 128)).
  assert (128 <= bZ b1 <= 191) by (repeat case_match; lia).
  destruct (digits4 (bZ b0 - 240) (bZ b1 - 128) (bZ b2 - 128) (bZ b3 - 128) ltac:(lia) ltac:(lia) ltac:(lia))
    as (D1 & D2 & D3 & D4). fold r in D1, D2, D3, D4.
  assert (65536 <= r <= 0x10ffff) as Hr.
  { subst r. destruct (Z.eqb_spec (bZ b0) 240), (Z.eqb_spec (bZ b0) 244); lia. }
  replace ((r <? 0) || _ || _) with false by lia.
  replace (r <? 128) with false by lia. replace (r <? 2048) with false by lia.
  replace (r <? 65536) with false by lia.
  rewrite D1, D2, D3, D4. repeat f_equal; apply Zb_back; lia.
Qed.

Lemma utf8Valid_rune s : s <> [] -> rune_invalid s = false -> (decodeRune s).2 = length s -> utf8Valid s = true.
Proof. intros Hs Hi Hn. apply utf8Valid_cons; [done|done|]. rewrite Hn, drop_ge by lia. done. Qed.

(** More than one byte is never an invalid encoding. *)
Lemma utf8Valid_multi s n : (decodeRune s).2 = n -> n = length s -> (1 < n)%nat -> utf8Valid s = true.
Proof.
  intros Hd -> Hn. apply utf8Valid_rune; [intros ->; simpl in Hn; lia|unfold rune_invalid|done].
  destruct (decodeRune s) as [r m]. simpl in Hd. subst m. rewrite bool_decide_false by lia. apply andb_false_r.
Qed.

(** Whatever the rune, its encoding is valid. *)
Lemma encodeRune_valid r : utf8Valid (encodeRune r) = true.
Proof.
  unfold encodeRune, surrogate.
  destruct ((r <? 0) || _ || _) eqn:E; [done|].
  destruct (Z.ltb_spec r 128) as [H1|H1].
  { apply utf8Valid_rune; [done|..]; unfold rune_invalid; rewrite decodeRune_ascii by (rewrite bZ_lit; lia); [|done].
    replace (bZ (Zb r) =? RuneError) with false; [done|]. rewrite bZ_lit by lia. unfold RuneError. lia. }
  pose proof (Z.mod_pos_bound r 64 ltac:(lia)) as M0.
  pose proof (Z.mod_pos_bound (r / 64) 64 ltac:(lia)) as M1.
  pose proof (Z.mod_pos_bound (r / 4096) 64 ltac:(lia)) as M2.
  pose proof (Z.div_mod r 64 ltac:(lia)) as Q0.
  pose proof (Z.div_mod (r / 64) 64 ltac:(lia)) as Q1. rewrite Z.div_div in Q1 by lia. change (64 * 64) with 4096 in Q1.
  pose proof (Z.div_mod (r / 4096) 64 ltac:(lia)) as Q2. rewrite Z.div_div in Q2 by lia. change (4096 * 64) with 262144 in Q2.
  assert (forall b lo hi z, b = Zb z -> 0 <= z < 256 -> in_range lo hi b = (lo <=? z) && (z <=? hi)) as Hin.
  { intros b lo hi z -> Hz. unfold in_range. by rewrite bZ_lit. }
  destruct (Z.ltb_spec r 2048) as [H2|H2].
  { apply (utf8Valid_multi _ 2); [|done|lia]. cbn [decodeRune].
    unfold is_cont. rewrite !(Hin (Zb _) _ _ _ eq_refl), ?bZ_lit by lia.
    replace (192 + r / 64 <? 128) with false by lia. replace ((194 <=? 192 + r / 64) && _) with true by lia.
    by replace ((128 <=? 128 + r mod 64) && _) with true by lia. }
  destruct (Z.ltb_spec r 65536) as [H3|H3].
  { apply (utf8Valid_multi _ 3); [|done|lia]. cbn [decodeRune].
    unfold is_cont. rewrite !(Hin (Zb _) _ _ _ eq_refl), ?bZ_lit by lia.
    replace (224 + r / 4096 <? 128) with false by lia. replace ((194 <=? 224 + r / 4096) && _) with false by lia.
    replace ((224 <=? 224 + r / 4096) && _) with true by lia.
    replace (_ && _) with true; [done|]. symmetry.
    destruct (Z.eqb_spec (224 + r / 4096) 224), (Z.eqb_spec (224 + r / 4096) 237); lia. }
  apply (utf8Valid_multi _ 4); [|done|lia]. cbn [decodeRune].
  unfold is_cont. rewrite !(Hin (Zb _) _ _ _ eq_refl), ?bZ_lit by lia.
  replace (240 + r / 262144 <? 128) with false by lia. replace ((194 <=? 240 + r / 262144) && _) with false by lia.
  replace ((224 <=? 240 + r / 262144) && _) with false by lia.
  replace ((240 <=? 240 + r / 262144) && _) with true by lia.
  replace (_ && _ && _) with true; [done|]. symmetry.
  destruct (Z.eqb_spec (240 + r / 262144) 240), (Z.eqb_spec (240 + r / 262144) 244); lia.
Qed.
