(* ===== verification/JsonText.v ===== *)
(** String literals: [decodeJSONString] accepts exactly the literals whose
    surrogate escapes are paired, and returns the text they denote; the
    canonical escape of a text denotes that text. *)

From S2P Require Import Prelude GoErrors Encoding Uuid Events Canonical Json JsonFacts Utf8 Decode.

Definition isSome {A} (o : option A) : bool := match o with Some _ => true | None => false end.

Definition high_surrogate (v : Z) : bool := (0xd800 <=? v) && (v <=? 0xdbff).
Definition low_surrogate (v : Z) : bool := (0xdc00 <=? v) && (v <=? 0xdfff).

(** The text a literal denotes, an escaped surrogate being allowed only as half
    of a pair: the reference for [decodeJSONString]. *)
Fixpoint strictString (s : bytes) : option bytes :=
  match s with
  | [] => Some []
  | c :: s1 =>
      if c =?? backslash then
        match s1 with
        | [] => None
        | e :: s2 =>
            if e =?? x75 then
              match s2 with
              | h1 :: h2 :: h3 :: h4 :: s3 =>
                  match parseHex4 [h1; h2; h3; h4] with
                  | None => None
                  | Some v =>
                      if high_surrogate v then
                        match s3 with
                        | b :: u :: g1 :: g2 :: g3 :: g4 :: s4 =>
                            if (b =?? backslash) && (u =?? x75) then
                              match parseHex4 [g1; g2; g3; g4] with
                              | Some w =>
                                  if low_surrogate w
                                  then (encodeRune (utf16DecodeRune v w) ++.) <$> strictString s4
                                  else None
                              | None => None
                              end
                            else None
                        | _ => None
                        end
                      else if low_surrogate v then None
                      else (encodeRune v ++.) <$> strictString s3
                  end
              | _ => None
              end
            else (simple_unescape e ::.) <$> strictString s2
        end
      else (c ::.) <$> strictString s1
  end.

(** * Elements *)

Definition lexed (s : bytes) : Prop := exists l, s = items_text l /\ Forall item_ok l.

Lemma lexed_inv c s :
  lexed (c :: s) ->
  (c <> quote /\ c <> backslash /\ 32 <= bZ c /\ lexed s) \/
  (c = backslash /\ exists e s', s = e :: s' /\ simple_escape e = true /\ lexed s') \/
  (c = backslash /\ exists h1 h2 h3 h4 s' v, s = x75 :: h1 :: h2 :: h3 :: h4 :: s' /\
     parseHex4 [h1; h2; h3; h4] = Some v /\ lexed s').
Proof.
  intros (l & E & Hl). destruct Hl as [|i l Hi Hl]; [done|]. unfold items_text in E. cbn [map concat] in E.
  assert (lexed (items_text l)) as Hlex by (by exists l).
  destruct i as [b|e|h1 h2 h3 h4]; cbn [item_text app] in E; injection E as -> ->.
  - left. by destruct Hi as (? & ? & ?).
  - right; left. split; [done|]. by exists e, (items_text l).
  - right; right. split; [done|]. destruct Hi as (H1 & H2 & H3 & H4). unfold is_hex in *.
    exists h1, h2, h3, h4, (items_text l). unfold parseHex4.
    destruct (hexVal h1), (hexVal h2), (hexVal h3), (hexVal h4); try done. eauto.
Qed.

Lemma lexed_app_high h s : Forall (fun c => 128 <= bZ c) h -> lexed (h ++ s) -> lexed s.
Proof.
  induction 1 as [|c h Hc Hh IH]; [done|]. intros H. apply lexed_inv in H as [(_ & _ & _ & H)|[(-> & _)|(-> & _)]].
  - by apply IH.
  - by destruct Hc.
  - by destruct Hc.
Qed.

Lemma parseHex4_range h1 h2 h3 h4 v : parseHex4 [h1; h2; h3; h4] = Some v -> 0 <= v < 65536.
Proof.
  assert (forall h a, hexVal h = Some a -> 0 <= a < 16) as Hr.
  { intros h a. assert ((match hexVal h with Some a => (0 <=? a) && (a <? 16) | None => true end) = true) as H by byte_cases h.
    intros E. rewrite E in H. lia. }
  unfold parseHex4. destruct (hexVal h1) eqn:E1, (hexVal h2) eqn:E2, (hexVal h3) eqn:E3, (hexVal h4) eqn:E4; try done.
  intros [= <-]. apply Hr in E1, E2, E3, E4. lia.
Qed.

Lemma getu4_uni h1 h2 h3 h4 s : getu4 (backslash :: x75 :: h1 :: h2 :: h3 :: h4 :: s) = parseHex4 [h1; h2; h3; h4].
Proof. done. Qed.

Lemma getu4_simple e s : simple_escape e = true -> getu4 (backslash :: e :: s) = None.
Proof.
  intros He. pose proof (simple_escape_not_u e He). unfold getu4.
  destruct s as [|h1 [|h2 [|h3 [|h4 s]]]]; try done. by rewrite bool_decide_true, bool_decide_false.
Qed.

(** * Unquoting *)

Lemma strictString_high h s : Forall (fun c => 128 <= bZ c) h -> strictString (h ++ s) = (h ++.) <$> strictString s.
Proof.
  induction 1 as [|c h Hc Hh IH]; cbn [app strictString]; [by destruct (strictString s)|].
  rewrite bool_decide_false by (intros ->; by destruct Hc). rewrite IH. by destruct (strictString s).
Qed.

Lemma utf16_low v w : high_surrogate v = true -> low_surrogate w = false -> utf16DecodeRune v w = RuneError.
Proof.
  unfold high_surrogate, low_surrogate, utf16DecodeRune. intros Hv Hw.
  replace (_ && _ && _ && _) with false by lia. done.
Qed.

Lemma utf16_pair v w : high_surrogate v = true -> low_surrogate w = true -> (utf16DecodeRune v w =? RuneError) = false.
Proof.
  unfold high_surrogate, low_surrogate, utf16DecodeRune, RuneError. intros Hv Hw.
  replace (_ && _ && _ && _) with true by lia. lia.
Qed.

Lemma utf8Valid_tail c s : bZ c < 128 -> utf8Valid (c :: s) = true -> utf8Valid s = true.
Proof.
  intros Hc Hv. destruct (utf8Valid_step (c :: s) ltac:(done) Hv) as [_ H].
  rewrite decodeRune_ascii in H by done. exact H.
Qed.

Lemma utf8Valid_drop_ascii l s : Forall (fun c => bZ c < 128) l -> utf8Valid (l ++ s) = true -> utf8Valid s = true.
Proof. induction 1 as [|c l Hc Hl IH]; [done|]. intros H. by apply IH, (utf8Valid_tail c). Qed.

Lemma hex_ascii h : is_hex h = true -> bZ h < 128.
Proof.
  assert (implb (is_hex h) (bZ h <? 128) = true) as H by byte_cases h. intros E. rewrite E in H. simpl in H. lia.
Qed.

Lemma parseHex4_ascii h1 h2 h3 h4 v :
  parseHex4 [h1; h2; h3; h4] = Some v -> Forall (fun c => bZ c < 128) [h1; h2; h3; h4].
Proof.
  unfold parseHex4. intros H.
  repeat apply Forall_cons_2; [| | | |constructor]; apply hex_ascii; unfold is_hex; repeat case_match; congruence.
Qed.

Lemma ascii_valid c : bZ c < 128 -> utf8Valid [c] = true.
Proof.
  intros Hc. apply utf8Valid_rune; [done|unfold rune_invalid|]; rewrite decodeRune_ascii by done; [|done].
  replace (bZ c =? RuneError) with false; [done|]. unfold RuneError. lia.
Qed.

Lemma utf8Valid_cons_ascii c s : bZ c < 128 -> utf8Valid s = true -> utf8Valid (c :: s) = true.
Proof. intros Hc Hs. apply (utf8Valid_app [c]); [by apply ascii_valid|done]. Qed.

Lemma simple_escape_ascii e : simple_escape e = true -> bZ e < 128 /\ bZ (simple_unescape e) < 128.
Proof.
  assert (implb (simple_escape e) ((bZ e <? 128) && (bZ (simple_unescape e) <? 128)) = true) as H by byte_cases e.
  intros E. rewrite E in H. simpl in H. lia.
Qed.

(** A text denoted strictly is what [unquoteBytes] returns, and is valid. *)
Lemma unquote_strict fuel s v :
  (length s <= fuel)%nat -> lexed s -> utf8Valid s = true -> strictString s = Some v ->
  unquoteLoop fuel s = v /\ utf8Valid v = true.
Proof.
  revert s v. induction fuel as [|fuel IH]; intros s v Hf Hl Hv Hs.
  { destruct s; [|simpl in Hf; lia]. by injection Hs as <-. }
  destruct s as [|c s]; [by injection Hs as <-|]. simpl in Hf. cbn [unquoteLoop].
  destruct (lexed_inv c s Hl) as [(Hq & Hb & _ & Hl')|[(-> & e & s' & -> & He & Hl')|(-> & h1 & h2 & h3 & h4 & s' & w & -> & Hw & Hl')]].
  - rewrite bool_decide_false by done. destruct (Z.ltb_spec (bZ c) 128) as [Hc|Hc].
    + cbn [strictString] in Hs. rewrite bool_decide_false in Hs by done.
      destruct (strictString s) as [v'|] eqn:E; [|done]. injection Hs as <-.
      destruct (IH s v') as [-> Hu]; [lia|done|by apply (utf8Valid_tail c)|done|].
      split; [done|by apply utf8Valid_cons_ascii].
    + destruct (utf8Valid_step (c :: s) ltac:(done) Hv) as [Hi Hv'].
      pose proof (decodeRune_high c s Hc Hi) as Hh. pose proof (decodeRune_width (c :: s) ltac:(done)) as Hwd.
      pose proof (encodeRune_decodeRune (c :: s) ltac:(done) Hi) as He.
      destruct (decodeRune (c :: s)) as [r n]. cbn [fst snd] in *.
      rewrite <- (take_drop n (c :: s)) in Hs, Hl. rewrite strictString_high in Hs by done.
      destruct (strictString (drop n (c :: s))) as [v'|] eqn:E; [|done]. injection Hs as <-.
      destruct (IH (drop n (c :: s)) v') as [-> Hu]; [|by eapply lexed_app_high|done|done|].
      { rewrite length_drop. simpl in *. lia. }
      rewrite He. split; [done|]. apply utf8Valid_app; [|done]. rewrite <- He. apply encodeRune_valid.
  - rewrite bool_decide_true by done. rewrite getu4_simple by done.
    cbn [strictString] in Hs. rewrite bool_decide_true in Hs by done.
    rewrite bool_decide_false in Hs by (by apply simple_escape_not_u).
    destruct (strictString s') as [v'|] eqn:E; [|done]. injection Hs as <-.
    apply simple_escape_ascii in He as [He He']. simpl in Hf.
    destruct (IH s' v') as [-> Hu]; [lia|done| |done|].
    { apply (utf8Valid_drop_ascii [backslash; e]); [|done]. by repeat (apply Forall_cons_2; [done|]). }
    split; [done|by apply utf8Valid_cons_ascii].
  - rewrite bool_decide_true by done. rewrite getu4_uni, Hw. cbn [drop]. rewrite drop_0.
    assert (utf8Valid s' = true) as Hv'.
    { apply (utf8Valid_drop_ascii (backslash :: x75 :: [h1; h2; h3; h4])); [|done].
      repeat (apply Forall_cons_2; [done|]). by eapply parseHex4_ascii. }
    cbn [strictString] in Hs. rewrite !bool_decide_true, Hw in Hs by done.
    simpl in Hf. destruct (high_surrogate w) eqn:Hhi.
    + replace (surrogate w) with true by (symmetry; unfold surrogate, high_surrogate in *; lia).
      destruct s' as [|b [|u [|g1 [|g2 [|g3 [|g4 s4]]]]]]; try done.
      destruct ((b =?? backslash) && (u =?? x75)) eqn:Eb; [|done].
      apply andb_prop in Eb as [->%bool_decide_eq_true ->%bool_decide_eq_true].
      destruct (parseHex4 [g1; g2; g3; g4]) as [x|] eqn:Ex; [|done].
      destruct (low_surrogate x) eqn:Elo; [|done]. rewrite getu4_uni, Ex, utf16_pair by done.
      destruct (strictString s4) as [v'|] eqn:E; [|done]. injection Hs as <-. cbn [drop]. rewrite drop_0.
      destruct (lexed_inv _ _ Hl') as [(_ & ? & _)|[(_ & e & t & [= <- _] & He & _)|(_ & i1 & i2 & i3 & i4 & t & y & [= <- <- <- <- <-] & _ & Hl'')]];
        [done|by apply simple_escape_not_u in He|].
      destruct (IH s4 v') as [-> Hu]; [simpl in Hf; lia|done| |done|].
      { apply (utf8Valid_drop_ascii (backslash :: x75 :: [g1; g2; g3; g4])); [|done].
        repeat (apply Forall_cons_2; [done|]). by eapply parseHex4_ascii. }
      split; [done|]. apply utf8Valid_app; [apply encodeRune_valid|done].
    + destruct (low_surrogate w) eqn:Hlo; [done|].
      replace (surrogate w) with false by (symmetry; unfold surrogate, high_surrogate, low_surrogate in *; lia).
      destruct (strictString s') as [v'|] eqn:E; [|done]. injection Hs as <-.
      destruct (IH s' v') as [-> Hu]; [lia|done..|].
      split; [done|]. apply utf8Valid_app; [apply encodeRune_valid|done].
Qed.

(** * Surrogate escapes *)

Lemma nth_drop_head (data : bytes) i c r : drop i data = c :: r -> nth i data x00 = c.
Proof. intros H. rewrite <- (Nat.add_0_r i), <- nth_skipn. change skipn with (@drop byte). by rewrite H. Qed.

Lemma nth_drop (data : bytes) i k r : drop i data = r -> nth (i + k) data x00 = nth k r x00.
Proof. intros <-. rewrite nth_skipn. done. Qed.

Lemma slice_drop (data : bytes) i a b r : drop i data = r -> slice (i + a) (i + b) data = slice a b r.
Proof.
  intros <-. unfold slice. rewrite drop_drop. f_equal. lia.
Qed.

Lemma drop_length_eq (data : bytes) i r : drop i data = r -> r <> [] -> length data = (i + length r)%nat.
Proof.
  intros <- Hr. rewrite length_drop. destruct (Nat.le_gt_cases (length data) i); [by rewrite drop_ge in Hr|]. lia.
Qed.

Lemma drop_more (data : bytes) i k r : drop i data = r -> drop (i + k) data = drop k r.
Proof. intros <-. by rewrite drop_drop. Qed.

(** At position [i] of a literal, before the elements [s], the loop accepts
    exactly when [s] denotes a text. *)
Lemma surrogateLoop_spec fuel data i s :
  drop i data = s ++ [quote] -> (length s <= fuel)%nat -> lexed s ->
  surrogateLoop fuel data i = isSome (strictString s).
Proof.
  revert i s. induction fuel as [|fuel IH]; intros i s Hd Hf Hl.
  { destruct s; [done|simpl in Hf; lia]. }
  pose proof (drop_length_eq data i _ Hd ltac:(by destruct s)) as Hn. rewrite length_app in Hn. cbn [length] in Hn.
  assert (forall o (g : bytes -> bytes), isSome (g <$> o) = isSome o) as Hmap by (by intros [?|]).
  cbn [surrogateLoop]. destruct s as [|c s].
  { cbn [length] in Hn. replace (i <? length data - 1)%nat with false by (symmetry; apply Nat.ltb_ge; lia). done. }
  cbn [length] in Hn, Hf. replace (i <? length data - 1)%nat with true by (symmetry; apply Nat.ltb_lt; lia). cbn [negb].
  cbn [app] in Hd. rewrite (nth_drop_head data i c _ Hd).
  destruct (lexed_inv c s Hl) as [(Hq & Hb & _ & Hl')|[(-> & e & s' & -> & He & Hl')|(-> & h1 & h2 & h3 & h4 & s' & v & -> & Hv & Hl')]].
  - rewrite bool_decide_false by done. cbn [negb strictString]. rewrite (bool_decide_false (c = backslash)), Hmap by done.
    apply IH; [|lia|done]. by rewrite (drop_more data i 1 _ Hd).
  - rewrite bool_decide_true by done. cbn [negb]. cbn [length] in Hn, Hf.
    replace (length data - 1 <=? i + 1)%nat with false by (symmetry; apply Nat.leb_gt; lia).
    rewrite (nth_drop data i 1 _ Hd). cbn [nth orb app].
    rewrite (bool_decide_false (e = x75)) by (by apply simple_escape_not_u). cbn [negb strictString].
    rewrite (bool_decide_true (backslash = _)), (bool_decide_false (e = x75)), Hmap by (done || by apply simple_escape_not_u).
    rewrite <- Nat.add_assoc. change (1 + 1)%nat with 2%nat. apply IH; [|lia|done]. by rewrite (drop_more data i 2 _ Hd).
  - rewrite bool_decide_true by done. cbn [negb]. cbn [length] in Hn, Hf.
    replace (length data - 1 <=? i + 1)%nat with false by (symmetry; apply Nat.leb_gt; lia).
    rewrite (nth_drop data i 1 _ Hd). cbn [nth orb app negb]. rewrite bool_decide_true by done. cbn [negb].
    replace (length data <=? i + 1 + 4)%nat with false by (symmetry; apply Nat.leb_gt; lia).
    rewrite <- !Nat.add_assoc. cbn [Nat.add].
    rewrite (slice_drop data i 2 6 _ Hd). cbn [app]. change (slice 2 6 _) with [h1; h2; h3; h4]. rewrite Hv.
    cbn [strictString]. rewrite (bool_decide_true (backslash = _)), (bool_decide_true (x75 = _)), Hv by done.
    change ((0xd800 <=? v) && (v <=? 0xdbff)) with (high_surrogate v).
    change ((0xdc00 <=? v) && (v <=? 0xdfff)) with (low_surrogate v).
    destruct (high_surrogate v).
    2:{ destruct (low_surrogate v); [done|]. rewrite Hmap. apply IH; [|lia|done].
        by rewrite (drop_more data i 6 _ Hd). }
    rewrite !(nth_drop data i _ _ Hd), (slice_drop data i 8 12 _ Hd). cbn [nth app].
    destruct s' as [|c s'].
    { replace (length data <=? i + 11)%nat with true by (symmetry; apply Nat.leb_le; simpl in Hn; lia). done. }
    destruct (lexed_inv c s' Hl') as [(Hq & Hb & _)|[(-> & e & t & -> & He & _)|(-> & g1 & g2 & g3 & g4 & t & w & -> & Hw & Hl'')]].
    + cbn [nth app]. rewrite (bool_decide_false (c = backslash)) by done. cbn [negb].
      rewrite orb_true_r. by destruct s' as [|? [|? [|? [|? [|? ?]]]]].
    + cbn [nth app]. rewrite (bool_decide_false (e = x75)) by (by apply simple_escape_not_u). cbn [negb].
      rewrite orb_true_r. destruct t as [|? [|? [|? [|? ?]]]]; done.
    + cbn [length] in Hn, Hf. replace (length data <=? i + 11)%nat with false by (symmetry; apply Nat.leb_gt; lia).
      cbn [nth app]. rewrite !bool_decide_true by done. cbn [negb orb andb].
      change (slice 8 12 _) with [g1; g2; g3; g4]. rewrite Hw. unfold low_surrogate at 1.
      replace ((w <? 56320) || (57343 <? w)) with (negb ((0xdc00 <=? w) && (w <=? 0xdfff))) by lia.
      destruct ((0xdc00 <=? w) && (w <=? 0xdfff)); [|done]. cbn [negb]. rewrite Hmap.
      apply IH; [|lia|done]. by rewrite (drop_more data i 12 _ Hd).
Qed.

Lemma validSurrogateEscapes_spec inner :
  lexed inner ->
  validSurrogateEscapes (quote :: inner ++ [quote]) = isSome (strictString inner).
Proof.
  intros Hl. apply surrogateLoop_spec; [done| |done]. simpl. rewrite length_app. lia.
Qed.

(** * Raw strings *)

Lemma parseDocument_string t inner :
  trimmed t -> shape (JStr inner) t -> parseDocument t = Some (JStr inner).
Proof.
  intros Ht [-> (l & -> & Hl)]. apply (parseDocument_raw 1); [done|].
  cbn [pValue]. rewrite (bool_decide_false (quote = lbrace)), (bool_decide_false (quote = lbracket)) by done.
  unfold scanScalar. rewrite (bool_decide_true (quote = quote)) by done. by rewrite scanString_items.
Qed.

(** [decodeJSONString] of a raw string is the text it denotes. *)
Lemma decodeJSONString_string t inner :
  trimmed t -> shape (JStr inner) t -> utf8Valid inner = true ->
  decodeJSONString (TrimSpace t) =
  match strictString inner with Some v => Ok v | None => Err errInvalidEvent end.
Proof.
  intros Ht Hsh Hv. rewrite TrimSpace_trimmed by done.
  pose proof (parseDocument_string t inner Ht Hsh) as Hp. destruct Hsh as [-> Hl].
  assert (lexed inner) as Hlex by (destruct Hl as (l & -> & Hl); by exists l).
  unfold decodeJSONString, Unmarshal_string, validDocument. rewrite Hp. cbn [depth].
  rewrite bool_decide_true by done. cbn [negb].
  rewrite validSurrogateEscapes_spec by done.
  destruct (strictString inner) as [v|] eqn:Es; [|done]. cbn [isSome negb]. unfold unquote.
  change (0 <=? maxNestingDepth) with true. cbv iota.
  by destruct (unquote_strict (length inner) inner v) as [-> _].
Qed.

(** A raw text of another kind is refused. *)
Lemma decodeJSONString_other t : trimmed t -> head t <> Some quote -> decodeJSONString (TrimSpace t) = Err errInvalidEvent.
Proof.
  intros Ht Hh. rewrite TrimSpace_trimmed by done. destruct t as [|c t]; [done|]. cbn [decodeJSONString].
  rewrite bool_decide_false; [done|]. intros ->. by apply Hh.
Qed.

(** * Canonical strings *)

Lemma lexed_item i s : item_ok i -> lexed s -> lexed (item_text i ++ s).
Proof. intros Hi (l & -> & Hl). exists (i :: l). split; [done|by constructor]. Qed.

Lemma lexed_high h s : Forall (fun c => 128 <= bZ c) h -> lexed s -> lexed (h ++ s).
Proof.
  induction 1 as [|c h Hc Hh IH]; [done|]. intros Hs. apply (lexed_item (IChar c)); [|by apply IH].
  split_and!; [by intros ->; destruct Hc..|lia].
Qed.

Lemma lexed_nil : lexed [].
Proof. by exists []. Qed.

Lemma plain_char_item c : plain_char c = true -> item_ok (IChar c).
Proof.
  unfold plain_char. intros H.
  repeat match goal with H : (_ && _) = true |- _ => apply andb_prop in H as [? ?]
  | H : negb _ = true |- _ => apply negb_true_iff, bool_decide_eq_false in H end.
  split_and!; [done..|lia].
Qed.

(** The element an escaped ASCII character becomes. *)
Lemma escape_char_item c :
  bZ c < 128 -> plain_char c = false ->
  exists i, escape_char c = item_text i /\ item_ok i /\
    forall s, strictString (item_text i ++ s) = (c ::.) <$> strictString s.
Proof.
  intros Hc Hp.
  destruct (decide (c ∈ [quote; backslash; x08; x0c; x0a; x0d; x09])) as [Hin|Hn].
  { repeat (apply elem_of_cons in Hin as [->|Hin]; [eexists (IEsc _); split_and!; done|]).
    by apply elem_of_nil in Hin. }
  assert (escape_char c = lit "\u00" ++ [hexDigit (Z.shiftr (bZ c) 4); hexDigit (Z.land (bZ c) 15)]) as ->.
  { unfold escape_char. rewrite !bool_decide_false; [done|..]; intros ->; apply Hn; in_list. }
  exists (IUni x30 x30 (hexDigit (Z.shiftr (bZ c) 4)) (hexDigit (Z.land (bZ c) 15))).
  assert ((is_hex (hexDigit (Z.shiftr (bZ c) 4)) && is_hex (hexDigit (Z.land (bZ c) 15)) &&
    (parseHex4 [x30; x30; hexDigit (Z.shiftr (bZ c) 4); hexDigit (Z.land (bZ c) 15)] =?? Some (bZ c))) = true) as H
    by (clear; byte_cases c).
  apply andb_prop in H as [[H1 H2]%andb_prop H3%bool_decide_eq_true]. split_and!; [done|done|].
  intros s. cbn [item_text app strictString]. rewrite !bool_decide_true, H3 by done.
  replace (high_surrogate (bZ c)) with false by (unfold high_surrogate; lia).
  replace (low_surrogate (bZ c)) with false by (unfold low_surrogate; lia).
  assert (encodeRune (bZ c) = [c]) as ->; [|done].
  unfold encodeRune, surrogate. pose proof (bZ_range c). replace ((bZ c <? 0) || _ || _) with false by lia.
  rewrite (proj2 (Z.ltb_lt _ _) Hc). by rewrite Zb_bZ.
Qed.

Lemma escape_separator_strict r s :
  r = 0x2028 \/ r = 0x2029 ->
  strictString (escape_separator r ++ s) = ([xe2; x80; Zb (128 + Z.land r 63)] ++.) <$> strictString s.
Proof. intros [-> | ->]; vm_compute (escape_separator _); cbn -[encodeRune]; by destruct (strictString s). Qed.

Lemma escape_separator_lexed r s : r = 0x2028 \/ r = 0x2029 -> lexed s -> lexed (escape_separator r ++ s).
Proof.
  intros [-> | ->].
  - apply (lexed_item (IUni x32 x30 x32 x38)). repeat split.
  - apply (lexed_item (IUni x32 x30 x32 x39)). repeat split.
Qed.

(** The canonical escape of a valid text is a literal that denotes it. *)
Lemma escape_denotes fuel s :
  (length s <= fuel)%nat -> utf8Valid s = true ->
  lexed (escapeLoop fuel s) /\ strictString (escapeLoop fuel s) = Some s.
Proof.
  revert s. induction fuel as [|fuel IH]; intros s Hf Hv.
  { destruct s; [|simpl in Hf; lia]. split; [apply lexed_nil|done]. }
  destruct s as [|c s]; [split; [apply lexed_nil|done]|]. cbn [escapeLoop].
  pose proof (decodeRune_width (c :: s) ltac:(done)) as Hw.
  destruct (utf8Valid_step (c :: s) ltac:(done) Hv) as [Hi Hv'].
  destruct (Z.leb_spec 128 (bZ c)) as [Hc|Hc].
  - pose proof (decodeRune_high c s Hc Hi) as Hh.
    destruct (decodeRune (c :: s)) as [rn n] eqn:Ed. cbn [fst snd] in *.
    destruct (IH (drop n (c :: s))) as [IH1 IH2]; [rewrite length_drop; simpl in *; lia|done|].
    destruct (is_line_separator rn) eqn:Es.
    + destruct (decodeRune_separator _ _ _ Ed Es) as [Et Hr].
      split; [by apply escape_separator_lexed|].
      rewrite escape_separator_strict, IH2 by done. cbn [fmap option_fmap option_map]. rewrite <- Et.
      by rewrite take_drop.
    + split; [by apply lexed_high|]. rewrite strictString_high, IH2 by done.
      cbn [fmap option_fmap option_map]. by rewrite take_drop.
  - rewrite decodeRune_ascii in Hv' by done. cbn [fst snd drop] in Hv'. rewrite drop_0 in Hv'.
    simpl in Hf. destruct (IH s) as [IH1 IH2]; [lia|done|].
    destruct (plain_char c) eqn:Ep.
    + apply plain_char_item in Ep as Hci. split; [by apply (lexed_item (IChar c))|].
      cbn [app strictString]. destruct Hci as (_ & Hb & _). rewrite bool_decide_false, IH2 by done. done.
    + destruct (escape_char_item c Hc Ep) as (i & -> & Hok & Hst).
      split; [by apply lexed_item|]. by rewrite Hst, IH2.
Qed.

Lemma escapeString_lexed s : utf8Valid s = true -> lexed (escapeString s).
Proof. intros Hv. by apply (escape_denotes (length s) s). Qed.

Lemma escapeString_strict s : utf8Valid s = true -> strictString (escapeString s) = Some s.
Proof. intros Hv. by apply (escape_denotes (length s) s). Qed.
