(* ===== verification/DecodeSpec.v ===== *)
(** The specification of internal/httpapi/decode.go: [decodeEvent] is total and
    equals a decoder over the syntax tree of the document ([decodeRef]); what it
    returns is within the limits of its type and has a canonical form; every
    such event is decoded from its canonical form. *)

From stdpp Require Import gmap.
From S2P Require Import Prelude GoErrors Encoding Uuid Events Canonical.
From S2P Require Import Json JsonFacts Utf8 Decode DecodeWalk JsonText.

(** * The reference decoder *)

Definition findMember (ms : list member) (name : bytes) : option jv :=
  snd <$> List.find (fun m => member_key m =?? name) ms.

Definition stringOf (v : jv) : option bytes :=
  match v with JStr t => strictString t | _ => None end.

Definition positiveOf (v : jv) : option Z :=
  match v with
  | JNum l => if positiveIntPattern l && (decVal l <? 2 ^ 63) then Some (decVal l) else None
  | _ => None
  end.

(** A metadata key: between 1 and 255 printable ASCII bytes. *)
Definition metaKey (key : bytes) : bool :=
  (1 <=? length key)%nat && (length key <=? 255)%nat && printableASCII key.

Definition metaEntry (m : member) : option (bytes * bytes) :=
  if metaKey (member_key m) then (member_key m,.) <$> stringOf m.2 else None.

(** The bytes of all keys and values. *)
Definition metaSize (es : list (bytes * bytes)) : Z :=
  foldr (fun kv z => Z.of_nat (length kv.1) + Z.of_nat (length kv.2) + z) 0 es.

Definition metaOf (v : jv) : option fieldMap :=
  match v with
  | JObj ms =>
      match mapM metaEntry ms with
      | Some es => if metaSize es <=? 32768 then Some (list_to_map es) else None
      | None => None
      end
  | _ => None
  end.

(** Exactly the members of the given names. *)
Definition exactMembers (ms : list member) (names : list bytes) : bool :=
  (length ms =?? length names) && forallb (fun name => isSome (findMember ms name)) names.

(** A member that must be present, denote a value and pass a test. *)
Definition want {A B} (ms : list member) (name : string) (sem : jv -> option A) (ok : A -> bool)
    (next : A -> result B) : result B :=
  match findMember ms (lit name) ≫= sem with
  | Some a => if ok a then next a else Err errInvalidEvent
  | None => Err errInvalidEvent
  end.

Definition any {A} (a : A) : bool := true.

Definition refTest (ms : list member) : result Event :=
  if exactMembers ms [lit "AppName"; lit "Type"] then
    want ms "AppName" stringOf validAppName (fun appName => Ok (EvTest (mkTestEvent appName)))
  else Err errInvalidEvent.

Definition refVerification (ms : list member) : result Event :=
  if exactMembers ms [lit "AppName"; lit "Type"; lit "Code"] then
    want ms "AppName" stringOf validAppName (fun appName =>
    want ms "Code" stringOf digitsPattern (fun code =>
    Ok (EvVerification (mkVerificationEvent appName code))))
  else Err errInvalidEvent.

Definition refAlert (ms : list member) : result Event :=
  if exactMembers ms [lit "AppName"; lit "Type"; lit "AlertID"; lit "Summary"; lit "Details";
                      lit "ServiceID"; lit "ServiceName"; lit "Meta"] then
    want ms "AppName" stringOf validAppName (fun appName =>
    want ms "AlertID" positiveOf any (fun alertID =>
    want ms "Summary" stringOf (fun s => runeCount s <=? 1024) (fun summary =>
    want ms "Details" stringOf (fun s => runeCount s <=? 6144) (fun details =>
    want ms "ServiceID" stringOf validCanonicalUUID (fun serviceID =>
    want ms "ServiceName" stringOf validServiceName (fun serviceName =>
    want ms "Meta" metaOf any (fun meta =>
    Ok (EvAlert (mkAlertEvent appName alertID summary details serviceID serviceName (Some meta))))))))))
  else Err errInvalidEvent.

Definition refAlertStatus (ms : list member) : result Event :=
  if exactMembers ms [lit "AppName"; lit "Type"; lit "AlertID"; lit "LogEntry"; lit "AlertState"] then
    want ms "AppName" stringOf validAppName (fun appName =>
    want ms "AlertID" positiveOf any (fun alertID =>
    want ms "LogEntry" stringOf (fun s => s <>?? []) (fun logEntry =>
    want ms "AlertState" stringOf knownAlertState (fun state =>
    Ok (EvAlertStatus (mkAlertStatusEvent appName alertID logEntry state))))))
  else Err errInvalidEvent.

Definition refEvent (ms : list member) : result Event :=
  want ms "Type" stringOf any (fun typeName =>
    if typeName =?? EventTypeTest then refTest ms
    else if typeName =?? EventTypeVerification then refVerification ms
    else if typeName =?? EventTypeAlert then refAlert ms
    else if typeName =?? EventTypeAlertStatus then refAlertStatus ms
    else Err errUnsupportedEvent).

(** The decoder over the syntax tree: valid UTF-8, one JSON object of bounded
    depth without repeated keys at any level, and the fields of its type. *)
Definition decodeRef (data : bytes) : result Event :=
  if utf8Valid data then
    match validDocument data with
    | Some (JObj ms) => if uniqueKeys (JObj ms) then refEvent ms else Err errInvalidEvent
    | _ => Err errInvalidEvent
    end
  else Err errInvalidEvent.

(** * Maps of members *)

Lemma foldl_insert {A} (es : list (bytes * A)) (m : gmap bytes A) :
  NoDup (map fst es) -> foldl (fun m x => <[x.1 := x.2]> m) m es = list_to_map es ∪ m.
Proof.
  revert m. induction es as [|[k v] es IH]; intros m; cbn [map foldl list_to_map fst snd].
  { intros _. unfold list_to_map. simpl. by rewrite (left_id_L ∅ (∪) m). }
  intros [Hk Hnd]%NoDup_cons. rewrite IH, list_to_map_cons by done.
  rewrite <- insert_union_l. symmetry. apply insert_union_r. by apply not_elem_of_list_to_map_1.
Qed.

(** The members as entries: key and raw text. *)
Definition rawEntries (ms : list member) : list (bytes * bytes) := map (fun m => (member_key m, m.1.2)) ms.

Lemma rawEntries_keys ms : map fst (rawEntries ms) = map member_key ms.
Proof. unfold rawEntries. by rewrite map_map. Qed.

Definition membersMap (ms : list member) : fieldMap :=
  foldl (fun m x => <[unquote x.1.1 := x.1.2]> m) ∅ ms.

Lemma membersMap_entries ms : NoDup (map member_key ms) -> membersMap ms = list_to_map (rawEntries ms).
Proof.
  intros Hnd. rewrite <- (right_id_L ∅ (∪) (list_to_map _)). rewrite <- foldl_insert by by rewrite rawEntries_keys.
  unfold membersMap, rawEntries. generalize (∅ : fieldMap). clear Hnd.
  induction ms as [|m ms IH]; intros acc; [done|]. cbn [map foldl]. by rewrite IH.
Qed.

Lemma membersMap_lookup ms name :
  NoDup (map member_key ms) ->
  membersMap ms !! name = (fun m : member => m.1.2) <$> List.find (fun m => member_key m =?? name) ms.
Proof.
  intros Hnd. rewrite membersMap_entries by done. clear Hnd.
  induction ms as [|m ms IH]; [done|]. cbn [rawEntries map List.find]. rewrite list_to_map_cons.
  destruct (bool_decide_reflect (member_key m = name)) as [<-|Hn].
  - by rewrite lookup_insert_eq.
  - rewrite lookup_insert_ne by done. apply IH.
Qed.

Lemma membersMap_size ms : NoDup (map member_key ms) -> size (membersMap ms) = length ms.
Proof.
  intros Hnd. rewrite membersMap_entries by done. rewrite <- length_map_to_list.
  assert (NoDup (rawEntries ms).*1) as Hk.
  { change (fmap fst) with (map (@fst bytes bytes)). by rewrite rawEntries_keys. }
  rewrite (Permutation_length (map_to_list_to_map _ Hk)). unfold rawEntries. by rewrite length_map.
Qed.

(** * Fields *)

(** The text of a member that belongs to a valid document. *)
Definition member_wf (m : member) : Prop := member_ok m /\ utf8Valid m.1.2 = true.

Lemma utf8Valid_part a t b :
  trimmed t -> utf8Valid (a ++ t ++ b) = true -> utf8Valid t = true.
Proof.
  intros (c & l & Hc & Hl & (Hc1 & _)%solid_spec & (Hl1 & _)%solid_spec) Hv.
  destruct t as [|c' t]; [done|]. injection Hc as ->. cbn [app] in Hv.
  apply utf8Valid_cut in Hv as [_ Hv]; [|done].
  apply last_Some in Hl as [k E]. rewrite E in *.
  rewrite app_comm_cons, E, <- app_assoc in Hv. cbn [app] in Hv.
  apply utf8Valid_cut in Hv as [Hk _]; [|done].
  apply utf8Valid_app; [done|by apply ascii_valid].
Qed.

Lemma members_wf fuel data ms r :
  utf8Valid data = true -> pValue fuel data = Some (JObj ms, r) -> Forall member_wf ms.
Proof.
  intros Hv H. apply pValue_members in H. eapply Forall_impl; [exact H|].
  intros m [Hok (a & b & E)]. split; [done|]. destruct Hok as (_ & Ht & _).
  apply (utf8Valid_part a _ b); [done|]. by rewrite <- E.
Qed.

Lemma find_wf ms name m :
  Forall member_wf ms -> List.find (fun m => member_key m =?? name) ms = Some m -> member_wf m.
Proof. intros Hf [Hin _]%find_some. rewrite Forall_forall in Hf. by apply Hf, list_elem_of_In. Qed.

(** The text between the quotes of a valid raw string is valid. *)
Lemma string_inner_valid inner : utf8Valid (quote :: inner ++ [quote]) = true -> utf8Valid inner = true.
Proof.
  intros Hv. apply (utf8Valid_tail quote) in Hv; [|done]. by apply (utf8Valid_cut inner quote []) in Hv as [? _].
Qed.

Lemma shape_not_quote v t : shape v t -> match v with JStr _ => True | _ => head t <> Some quote end.
Proof. destruct v; simpl; intros H; try done; try tauto; by rewrite H. Qed.

(** The raw text of any value, decoded as a string. *)
Lemma decodeJSONString_member m :
  member_wf m ->
  decodeJSONString (TrimSpace m.1.2) = match stringOf m.2 with Some v => Ok v | None => Err errInvalidEvent end.
Proof.
  destruct m as [[key t] v]. intros [(_ & Ht & _ & Hsh) Hv]. cbn [fst snd] in *.
  pose proof (shape_not_quote v t Hsh) as Hq.
  destruct v as [| | |inner| |]; try by apply decodeJSONString_other.
  apply decodeJSONString_string; [done|done|]. destruct Hsh as [-> _]. by apply string_inner_valid.
Qed.

Section Fields.
Context (ms : list member) (Hwf : Forall member_wf ms) (Hnd : NoDup (map member_key ms)).

Lemma requiredString_spec name :
  requiredString (membersMap ms) name =
  match findMember ms name ≫= stringOf with Some v => Ok v | None => Err errInvalidEvent end.
Proof.
  unfold requiredString, findMember. rewrite membersMap_lookup by done.
  destruct (List.find _ ms) as [m|] eqn:E; [|done]. cbn [fmap option_fmap option_map].
  apply (find_wf ms name m Hwf) in E. by apply decodeJSONString_member.
Qed.

Lemma pattern_digits t : positiveIntPattern t = true -> forallb is_digit t = true.
Proof.
  destruct t as [|c r]; [done|]. intros [Hc Hr]%andb_prop. cbn [forallb]. rewrite Hr.
  apply in_range_true in Hc. unfold is_digit. by rewrite andb_true_r; lia.
Qed.

Lemma requiredPositiveInt_spec name :
  requiredPositiveInt (membersMap ms) name =
  match findMember ms name ≫= positiveOf with Some v => Ok v | None => Err errInvalidEvent end.
Proof.
  unfold requiredPositiveInt, findMember. rewrite membersMap_lookup by done.
  destruct (List.find _ ms) as [[[key t] v]|] eqn:E; [|done]. cbn [fmap option_fmap option_map mbind option_bind fst snd].
  apply (find_wf ms name _ Hwf) in E as [(_ & Ht & _ & Hsh) _]. cbn [fst snd] in *.
  rewrite TrimSpace_trimmed by done.
  destruct (positiveIntPattern t) eqn:Ep; cbn [negb].
  - apply pattern_digits in Ep as Hd. destruct t as [|c t]; [done|].
    assert (forall b, head (c :: t) = Some b -> is_digit b = false -> False) as Hno.
    { intros b [= <-] Hb. cbn [forallb] in Hd. by rewrite Hb in Hd. }
    destruct v as [|b|l|inner|vs|ms'].
    1, 2: destruct Hsh as (_ & _ & Hf); congruence.
    + destruct Hsh as [<- _]. unfold positiveOf. rewrite Ep. unfold parseIntDigits.
      by destruct (decVal (c :: t) <? 2 ^ 63).
    + exfalso. destruct Hsh as [Hsh _]. apply (Hno quote); [by rewrite Hsh|done].
    + exfalso. by apply (Hno lbracket).
    + exfalso. by apply (Hno lbrace).
  - destruct v as [|b|l|inner|vs|ms']; try done. destruct Hsh as [-> _]. unfold positiveOf. by rewrite Ep.
Qed.

Lemma hasExactFields_spec names :
  hasExactFields (membersMap ms) names = exactMembers ms names.
Proof.
  unfold hasExactFields, exactMembers. rewrite membersMap_size by done.
  destruct (length ms =?? length names); [|done]. cbn [negb andb].
  induction names as [|name names IH]; [done|]. cbn [forallb]. rewrite IH. f_equal.
  unfold findMember. rewrite membersMap_lookup by done. by destruct (List.find _ ms).
Qed.
End Fields.

(** * Metadata *)

Definition rawEntry (kv : bytes * bytes) : option (bytes * bytes) :=
  if metaKey kv.1 then
    match decodeJSONString (TrimSpace kv.2) with Ok v => Some (kv.1, v) | Err _ => None end
  else None.

Lemma metaSize_nonneg es : 0 <= metaSize es.
Proof. induction es as [|[k v] es IH]; simpl; lia. Qed.

Lemma metaKey_guard key :
  (length key <? 1)%nat || (255 <? length key)%nat || negb (printableASCII key) = negb (metaKey key).
Proof.
  unfold metaKey. rewrite !negb_andb. f_equal. f_equal.
  - destruct (Nat.leb_spec 1 (length key)), (Nat.ltb_spec (length key) 1); done || lia.
  - destruct (Nat.leb_spec (length key) 255), (Nat.ltb_spec 255 (length key)); done || lia.
Qed.

(** The loop stops at the first entry above the limit; its result is that of
    the whole list. *)
Lemma metaLoop_spec es meta sz :
  sz <= 32768 ->
  metaLoop es meta sz =
  match mapM rawEntry es with
  | Some kvs =>
      if sz + metaSize kvs <=? 32768 then Ok (foldl (fun m x => <[x.1 := x.2]> m) meta kvs)
      else Err errInvalidEvent
  | None => Err errInvalidEvent
  end.
Proof.
  revert meta sz. induction es as [|[k raw] es IH]; intros meta sz Hsz.
  { cbn. by replace (sz + 0 <=? 32768) with true by lia. }
  cbn [metaLoop mapM]. rewrite metaKey_guard. change (rawEntry (k, raw)) with
    (if metaKey k then match decodeJSONString (TrimSpace raw) with Ok v => Some (k, v) | Err _ => None end else None).
  destruct (metaKey k); [|done]. cbn [negb].
  destruct (decodeJSONString (TrimSpace raw)) as [v|e]; [|done]. cbn [mbind option_bind].
  destruct (Z.ltb_spec 32768 (sz + Z.of_nat (length k) + Z.of_nat (length v))) as [Hgt|Hle].
  - destruct (mapM rawEntry es) as [kvs|]; [|done]. cbn [mret option_ret metaSize foldr fst snd mbind option_bind].
    pose proof (metaSize_nonneg kvs). unfold metaSize in *.
    by replace (_ <=? 32768) with false by lia.
  - rewrite IH by done. destruct (mapM rawEntry es) as [kvs|]; [|done].
    cbn [mret option_ret metaSize foldr fst snd mbind option_bind foldl]. unfold metaSize.
    by rewrite !Z.add_assoc.
Qed.

Lemma mapM_perm {A B} (f : A -> option B) (l k : list A) :
  l ≡ₚ k ->
  match mapM f l, mapM f k with
  | Some x, Some y => x ≡ₚ y
  | None, None => True
  | _, _ => False
  end.
Proof.
  induction 1 as [|a l k H IH|a b l|l1 l2 l3 H1 IH1 H2 IH2]; cbn [mapM].
  - constructor.
  - destruct (f a); [|done]. cbn [mbind option_bind]. destruct (mapM f l), (mapM f k); cbn; try done.
    by constructor.
  - destruct (f a), (f b), (mapM f l); cbn; try done. by apply Permutation_swap.
  - destruct (mapM f l1), (mapM f l2), (mapM f l3); try done. by etransitivity.
Qed.

Lemma metaSize_perm x y : x ≡ₚ y -> metaSize x = metaSize y.
Proof. induction 1; simpl; lia. Qed.

Lemma mapM_rawEntries ms :
  Forall member_wf ms -> mapM rawEntry (rawEntries ms) = mapM metaEntry ms.
Proof.
  induction 1 as [|m ms Hm Hms IH]; [done|]. cbn [rawEntries map mapM].
  change (map _ ms) with (rawEntries ms). rewrite IH.
  change (rawEntry (member_key m, m.1.2)) with
    (if metaKey (member_key m) then match decodeJSONString (TrimSpace m.1.2) with Ok v => Some (member_key m, v) | Err _ => None end else None).
  change (metaEntry m) with (if metaKey (member_key m) then (member_key m,.) <$> stringOf m.2 else None).
  rewrite decodeJSONString_member by done.
  destruct (metaKey (member_key m)); [|done]. by destruct (stringOf m.2).
Qed.

Lemma mapM_metaEntry_keys ms es : mapM metaEntry ms = Some es -> map fst es = map member_key ms.
Proof.
  revert es. induction ms as [|m ms IH]; intros es; cbn [mapM]; [by intros [= <-]|].
  change (metaEntry m) with (if metaKey (member_key m) then (member_key m,.) <$> stringOf m.2 else None).
  destruct (metaKey (member_key m)); [|done].
  destruct (stringOf m.2) as [v|]; [|done]. cbn [fmap option_fmap option_map mbind option_bind].
  destruct (mapM metaEntry ms) as [es'|]; [|done]. intros [= <-]. cbn [map fst]. by rewrite (IH es').
Qed.

Lemma foldr_max_le {A} (f : A -> Z) l x : x ∈ l -> f x <= foldr (fun a d => Z.max (f a) d) 0 l.
Proof. induction 1 as [x l|x y l H IH]; simpl; lia. Qed.

Lemma depth_member ms m : m ∈ ms -> depth m.2 < depth (JObj ms).
Proof. intros H. cbn [depth]. pose proof (foldr_max_le (fun m : member => depth m.2) ms m H). simpl in *. lia. Qed.

Section Meta.
Context (range : fieldMap -> list (bytes * bytes)) (Hrange : forall m, range m ≡ₚ map_to_list m).
Context (ms : list member) (Hwf : Forall member_wf ms).
Context (Hu : uniqueKeys (JObj ms) = true) (Hd : depth (JObj ms) <= maxNestingDepth).

Lemma unique_NoDup ms' : uniqueKeys (JObj ms') = true -> NoDup (map member_key ms').
Proof. cbn [uniqueKeys]. by intros [H%bool_decide_eq_true _]%andb_prop. Qed.

Lemma unique_member ms' m : uniqueKeys (JObj ms') = true -> m ∈ ms' -> uniqueKeys m.2 = true.
Proof.
  cbn [uniqueKeys]. intros [_ H]%andb_prop Hm. rewrite forallb_forall in H. by apply H, list_elem_of_In.
Qed.

(** The map of a metadata object, ranged over in any order. *)
Lemma metaLoop_members ms' :
  Forall member_wf ms' -> NoDup (map member_key ms') ->
  metaLoop (range (membersMap ms')) ∅ 0 =
  match metaOf (JObj ms') with Some m => Ok m | None => Err errInvalidEvent end.
Proof.
  intros Hw Hnd. rewrite metaLoop_spec by lia. cbn [metaOf].
  assert (range (membersMap ms') ≡ₚ rawEntries ms') as Hp.
  { rewrite Hrange, membersMap_entries by done. apply map_to_list_to_map.
    change (fmap fst) with (map (@fst bytes bytes)). by rewrite rawEntries_keys. }
  apply (mapM_perm rawEntry) in Hp. rewrite mapM_rawEntries in Hp by done.
  destruct (mapM rawEntry _) as [x|], (mapM metaEntry ms') as [y|] eqn:E; try done.
  rewrite (metaSize_perm x y Hp), Z.add_0_l. destruct (metaSize y <=? 32768); [|done]. f_equal.
  apply mapM_metaEntry_keys in E. rewrite <- E in Hnd.
  assert (NoDup (map fst x)) as Hx by (by rewrite Hp).
  rewrite foldl_insert, (right_id_L ∅ (∪)) by done. by apply list_to_map_proper.
Qed.

Lemma requiredMeta_spec name :
  requiredMeta range (membersMap ms) name =
  match findMember ms name ≫= metaOf with Some m => Ok m | None => Err errInvalidEvent end.
Proof.
  unfold requiredMeta, findMember. rewrite membersMap_lookup by (by apply unique_NoDup).
  destruct (List.find _ ms) as [m|] eqn:E; [|done]. cbn [fmap option_fmap option_map mbind option_bind].
  pose proof (find_wf ms name m Hwf E) as [Hok Hv]. apply find_some in E as [Hin _].
  apply list_elem_of_In in Hin.
  pose proof (unique_member ms m Hu Hin) as Hmu. pose proof (depth_member ms m Hin) as Hmd.
  destruct m as [[key t] v], Hok as (_ & Ht & (fuel & Hp) & Hsh). cbn [fst snd] in *.
  rewrite TrimSpace_trimmed by done. destruct t as [|c t]; [by apply trimmed_ne in Ht|].
  assert (head (c :: t) <> Some lbrace -> metaOf v = None) as Hno.
  { by destruct v. }
  destruct (bool_decide_reflect (c = lbrace)) as [->|Hc]; cbn [negb].
  2:{ rewrite Hno; [done|]. simpl. congruence. }
  unfold Unmarshal_map, validDocument. rewrite (parseDocument_raw fuel _ v Ht Hp).
  replace (depth v <=? maxNestingDepth) with true by lia.
  destruct v as [|b|l|inner|vs|ms']; try done.
  apply metaLoop_members; [|by apply unique_NoDup].
  by apply (members_wf fuel (lbrace :: t) ms' []).
Qed.
End Meta.

(** * Equivalence *)

Lemma field_want {A B} ms name (sem : jv -> option A) (r : result A) ok ok' (k : A -> result B) k' :
  r = match findMember ms (lit name) ≫= sem with Some v => Ok v | None => Err errInvalidEvent end ->
  (forall a, ok a = ok' a) -> (forall a, k a = k' a) ->
  field r ok k = want ms name sem ok' k'.
Proof.
  intros -> Hok Hk. unfold field, want. destruct (_ ≫= sem) as [a|]; [|done].
  rewrite Hok, Hk. by destruct (ok' a).
Qed.

Lemma decodeTyped_spec range ms :
  (forall m, range m ≡ₚ map_to_list m) -> Forall member_wf ms ->
  uniqueKeys (JObj ms) = true -> depth (JObj ms) <= maxNestingDepth ->
  match requiredString (membersMap ms) (lit "Type") with
  | Err _ => Err errInvalidEvent
  | Ok typeName => decodeTyped range (membersMap ms) typeName
  end = refEvent ms.
Proof.
  intros Hr Hwf Hu Hd. pose proof (unique_NoDup ms Hu) as Hnd.
  unfold refEvent, want at 1. rewrite requiredString_spec by done.
  destruct (findMember ms (lit "Type") ≫= stringOf) as [ty|]; [|done]. unfold any at 1, decodeTyped.
  pose proof (fun s => requiredString_spec ms Hwf Hnd (lit s)) as HS.
  pose proof (fun s => requiredPositiveInt_spec ms Hwf Hnd (lit s)) as HI.
  pose proof (fun s => requiredMeta_spec range Hr ms Hwf Hu Hd (lit s)) as HM.
  assert (forall (s : bytes) n, negb (n <? runeCount s) = (runeCount s <=? n)) as Hcount by (intros; lia).
  repeat case_bool_decide; [| | | |done].
  - unfold decodeTest, refTest. rewrite hasExactFields_spec by done.
    destruct (exactMembers _ _); [|done]. cbn [negb].
    change (field (requiredString (membersMap ms) (lit "AppName")) validAppName
      (fun appName => Ok (EvTest (mkTestEvent appName))) = want ms "AppName" stringOf validAppName
      (fun appName => Ok (EvTest (mkTestEvent appName)))). by apply field_want.
  - unfold decodeVerification, refVerification. rewrite hasExactFields_spec by done.
    destruct (exactMembers _ _); [|done]. cbn [negb].
    apply (field_want ms "AppName" stringOf _ validAppName validAppName); [done..|]. intros appName.
    by apply (field_want ms "Code" stringOf _ digitsPattern digitsPattern).
  - unfold decodeAlert, refAlert. rewrite hasExactFields_spec by done.
    destruct (exactMembers _ _); [|done]. cbn [negb].
    repeat (apply field_want; [done|try done; intros; apply Hcount|intros ?]). done.
  - unfold decodeAlertStatus, refAlertStatus. rewrite hasExactFields_spec by done.
    destruct (exactMembers _ _); [|done]. cbn [negb].
    repeat (apply field_want; [done|done|intros ?]). done.
Qed.

Lemma utf8Valid_skip data : utf8Valid data = true -> utf8Valid (skipSpace data) = true.
Proof.
  intros Hv. destruct (skipSpace_split data) as (w & Ew & Hw).
  rewrite Ew in Hv. eapply utf8Valid_drop_ascii; [|exact Hv]. eapply Forall_impl; [exact Hw|].
  intros c Hc. assert (implb (isSpace c) (bZ c <? 128) = true) as H by (clear; byte_cases c).
  rewrite Hc in H. simpl in H. lia.
Qed.

Lemma decodeEvent_ref range data :
  (forall m, range m ≡ₚ map_to_list m) -> decodeEvent range data = Some (decodeRef data).
Proof.
  intros Hr. unfold decodeEvent, decodeRef. destruct (utf8Valid data) eqn:Hv; [|done]. cbn [negb].
  rewrite validate_spec. unfold uniqueObject, Unmarshal_map, validDocument.
  destruct (parseDocument data) as [v|] eqn:Ep; [|done].
  destruct v as [|b|l|inner|vs|ms]; try by destruct (depth _ <=? maxNestingDepth).
  destruct (uniqueKeys (JObj ms)) eqn:Hu.
  2:{ destruct (depth _ <=? maxNestingDepth); [by rewrite Hu|done]. }
  destruct (Z.leb_spec (depth (JObj ms)) maxNestingDepth) as [Hd|Hd]; [|done]. rewrite Hu.
  assert (Forall member_wf ms) as Hwf.
  { unfold parseDocument in Ep. destruct (pValue _ (skipSpace data)) as [[v r]|] eqn:E; [|done].
    destruct (skipSpace r); [|done]. injection Ep as ->.
    eapply members_wf; [|exact E]. by apply utf8Valid_skip. }
  rewrite <- (decodeTyped_spec range) by done. unfold membersMap.
  by destruct (requiredString _ _).
Qed.
