(* ===== verification/DecodeRoundTrip.v ===== *)
(** The events [decodeEvent] can return, and their canonical forms: every
    decoded event is within the limits of its type and has a canonical form,
    and every event within the limits is decoded from its canonical form. *)

From stdpp Require Import gmap sorting.
From S2P Require Import Prelude GoErrors Encoding Uuid Events Canonical.
From S2P Require Import Json JsonFacts Utf8 Decode DecodeWalk JsonText DecodeSpec.

(** * The limits of an event *)

Definition metaWithinLimits (meta : fieldMap) : bool :=
  forallb (fun kv => metaKey kv.1 && utf8Valid kv.2) (map_to_list meta) &&
  (metaSize (map_to_list meta) <=? 32768).

Definition positiveInt64 (z : Z) : bool := (0 <? z) && (z <? 2 ^ 63).

(** What the decoder promises of every event it returns. *)
Definition eventWithinLimits (e : Event) : bool :=
  match e with
  | EvTest e => validAppName (te_AppName e)
  | EvVerification e => validAppName (ve_AppName e) && digitsPattern (ve_Code e)
  | EvAlert e =>
      validAppName (ae_AppName e) && positiveInt64 (ae_AlertID e) &&
      (utf8Valid (ae_Summary e) && (runeCount (ae_Summary e) <=? 1024)) &&
      (utf8Valid (ae_Details e) && (runeCount (ae_Details e) <=? 6144)) &&
      validCanonicalUUID (ae_ServiceID e) && validServiceName (ae_ServiceName e) &&
      match ae_Meta e with Some m => metaWithinLimits m | None => false end
  | EvAlertStatus e =>
      validAppName (se_AppName e) && positiveInt64 (se_AlertID e) &&
      (utf8Valid (se_LogEntry e) && (se_LogEntry e <>?? [])) && knownAlertState (se_AlertState e)
  end.

(** * Decoded events are within the limits *)

Lemma want_inv {A B} ms name (sem : jv -> option A) ok (k : A -> result B) b :
  want ms name sem ok k = Ok b ->
  exists a, findMember ms (lit name) ≫= sem = Some a /\ ok a = true /\ k a = Ok b.
Proof.
  unfold want. destruct (_ ≫= sem) as [a|]; [|done]. destruct (ok a) eqn:E; [|done]. eauto.
Qed.

Lemma shape_string_lexed t inner : shape (JStr inner) t -> lexed inner.
Proof. intros [_ (l & -> & Hl)]. by exists l. Qed.

(** The value of a member of a valid document, as a string, is valid. *)
Lemma member_string_valid m v : member_wf m -> stringOf m.2 = Some v -> utf8Valid v = true.
Proof.
  destruct m as [[key t] w]. intros [(_ & _ & _ & Hsh) Hv]. cbn [fst snd] in *.
  destruct w as [| | |inner| |]; try done. cbn [stringOf]. intros Hs.
  pose proof (shape_string_lexed t inner Hsh) as Hl. destruct Hsh as [-> _].
  apply string_inner_valid in Hv. by destruct (unquote_strict (length inner) inner v (le_n _) Hl Hv Hs).
Qed.

Lemma find_string_valid ms name v :
  Forall member_wf ms -> findMember ms name ≫= stringOf = Some v -> utf8Valid v = true.
Proof.
  intros Hwf. unfold findMember. destruct (List.find _ ms) as [m|] eqn:E; [|done].
  apply (find_wf ms name m Hwf) in E. by apply member_string_valid.
Qed.

Lemma find_positive ms name z : findMember ms name ≫= positiveOf = Some z -> positiveInt64 z = true.
Proof.
  unfold findMember. destruct (List.find _ ms) as [[[key t] v]|]; [|done]. cbn.
  destruct v as [| |l| | |]; try done. cbn [positiveOf].
  destruct (positiveIntPattern l && (decVal l <? 2 ^ 63)) eqn:E; [|done]. intros [= <-].
  apply andb_prop in E as [Hp Hl]. unfold positiveInt64. rewrite Hl, andb_true_r.
  destruct l as [|c l]; [done|]. apply andb_prop in Hp as [Hc%in_range_true Hd].
  assert (forall k a, forallb is_digit k = true -> 0 < a -> 0 < foldl (fun a b => 10 * a + (bZ b - 48)) a k) as Hpos.
  { clear. induction k as [|b k IH]; intros a; [done|]. cbn [forallb foldl]. intros [Hb Hk]%andb_prop Ha.
    apply IH; [done|]. unfold is_digit in Hb. lia. }
  apply Z.ltb_lt. unfold decVal. cbn [foldl]. apply Hpos; [done|lia].
Qed.

Lemma mapM_metaEntry_ok ms es :
  Forall member_wf ms -> mapM metaEntry ms = Some es ->
  Forall (fun kv => metaKey kv.1 && utf8Valid kv.2 = true) es.
Proof.
  intros Hwf. revert es. induction Hwf as [|m ms Hm Hms IH]; intros es; cbn [mapM]; [by intros [= <-]|].
  change (metaEntry m) with (if metaKey (member_key m) then (member_key m,.) <$> stringOf m.2 else None).
  destruct (metaKey (member_key m)) eqn:Ek; [|done]. destruct (stringOf m.2) as [v|] eqn:Es; [|done].
  cbn [fmap option_fmap option_map mbind option_bind].
  destruct (mapM metaEntry ms) as [es'|]; [|done]. intros [= <-].
  constructor; [|by apply IH]. cbn [fst snd]. rewrite Ek. by apply (member_string_valid m).
Qed.

Lemma Forall_forallb {A} (f : A -> bool) l : Forall (fun x => f x = true) l -> forallb f l = true.
Proof. intros H. apply forallb_forall. intros x Hx%list_elem_of_In. rewrite Forall_forall in H. by apply H. Qed.

Lemma find_meta ms m :
  Forall member_wf ms -> uniqueKeys (JObj ms) = true ->
  findMember ms (lit "Meta") ≫= metaOf = Some m -> metaWithinLimits m = true.
Proof.
  intros Hwf Hu. unfold findMember. destruct (List.find _ ms) as [[[key t] v]|] eqn:E; [|done]. cbn.
  pose proof (find_wf ms _ _ Hwf E) as [(_ & _ & (fuel & Hp) & _) Hv]. apply find_some in E as [Hin%list_elem_of_In _].
  apply (unique_member ms _ Hu) in Hin. cbn [fst snd] in *. destruct v as [| | | | |ms']; try done. cbn [metaOf].
  pose proof (members_wf _ _ _ _ Hv Hp) as Hwf'. apply unique_NoDup in Hin.
  destruct (mapM metaEntry ms') as [es|] eqn:Ee; [|done].
  destruct (metaSize es <=? 32768) eqn:Es; [|done]. intros [= <-].
  pose proof (mapM_metaEntry_keys ms' es Ee) as Hk. rewrite <- Hk in Hin.
  pose proof (map_to_list_to_map (M := gmap bytes) es Hin) as Hperm.
  unfold metaWithinLimits. rewrite (metaSize_perm _ _ Hperm), Es, andb_true_r.
  apply Forall_forallb. rewrite Hperm. by apply (mapM_metaEntry_ok ms').
Qed.

(** Every event of the reference decoder is within the limits. *)
Lemma refEvent_within_limits ms e :
  Forall member_wf ms -> uniqueKeys (JObj ms) = true -> refEvent ms = Ok e -> eventWithinLimits e = true.
Proof.
  intros Hwf Hu H. apply want_inv in H as (ty & _ & _ & H). revert H.
  pose proof (fun s v => find_string_valid ms (lit s) v Hwf) as HS.
  pose proof (fun s v => find_positive ms (lit s) v) as HI.
  repeat case_bool_decide; [| | | |done].
  - unfold refTest. destruct (exactMembers _ _); [|done]. intros (a & _ & Ha & [= <-])%want_inv. done.
  - unfold refVerification. destruct (exactMembers _ _); [|done].
    intros (a & _ & Ha & (c & _ & Hc & [= <-])%want_inv)%want_inv. cbn. by rewrite Ha, Hc.
  - unfold refAlert. destruct (exactMembers _ _); [|done].
    intros (a & _ & Ha & (i & Hi & _ & (s & Hs & Hs' & (d & Hd & Hd' & (u & _ & Hu' & (n & _ & Hn &
      (m & Hm & _ & [= <-])%want_inv)%want_inv)%want_inv)%want_inv)%want_inv)%want_inv)%want_inv.
    cbn [eventWithinLimits ae_AppName ae_AlertID ae_Summary ae_Details ae_ServiceID ae_ServiceName ae_Meta].
    apply HI in Hi. apply HS in Hs, Hd. apply find_meta in Hm; [|done..].
    by rewrite Ha, Hi, Hs, Hs', Hd, Hd', Hu', Hn, Hm.
  - unfold refAlertStatus. destruct (exactMembers _ _); [|done].
    intros (a & _ & Ha & (i & Hi & _ & (l & Hl & Hl' & (s & _ & Hs & [= <-])%want_inv)%want_inv)%want_inv)%want_inv.
    cbn [eventWithinLimits se_AppName se_AlertID se_LogEntry se_AlertState].
    apply HI in Hi. apply HS in Hl. by rewrite Ha, Hi, Hl, Hl', Hs.
Qed.

Lemma validDocument_members data ms :
  utf8Valid data = true -> validDocument data = Some (JObj ms) -> Forall member_wf ms.
Proof.
  unfold validDocument, parseDocument. intros Hv.
  destruct (pValue _ (skipSpace data)) as [[v r]|] eqn:E; [|done].
  destruct (skipSpace r); [|done]. destruct (depth v <=? maxNestingDepth); [|done]. intros [= ->].
  eapply members_wf; [|exact E]. by apply utf8Valid_skip.
Qed.

Lemma decodeRef_within_limits data e : decodeRef data = Ok e -> eventWithinLimits e = true.
Proof.
  unfold decodeRef. destruct (utf8Valid data) eqn:Hv; [|done].
  destruct (validDocument data) as [[| | | | |ms]|] eqn:Ed; try done.
  destruct (uniqueKeys (JObj ms)) eqn:Hu; [|done]. apply refEvent_within_limits; [|done].
  by apply (validDocument_members data).
Qed.

(** * Events within the limits have a canonical form *)

Ltac split_bools :=
  repeat match goal with
  | H : (_ && _) = true |- _ => let H1 := fresh "Hb" in let H2 := fresh "Hb" in apply andb_prop in H as [H1 H2]
  end.

Lemma validAppName_utf8 s : validAppName s = true -> utf8Valid s = true.
Proof. unfold validAppName. intros H. split_bools. by apply printable_utf8. Qed.

Lemma validServiceName_utf8 s : validServiceName s = true -> utf8Valid s = true.
Proof. unfold validServiceName. intros H. split_bools. by apply printable_utf8. Qed.

(** Printable because each of its bytes is. *)
Lemma printable_nth s (P : byte -> bool) :
  (forall b, P b = true -> 32 <= bZ b <= 126) ->
  (forall i, (i < length s)%nat -> P (nth i s x00) = true) -> utf8Valid s = true.
Proof.
  intros HP Hn. apply printable_utf8. unfold printableASCII. apply forallb_forall.
  intros b (i & Hi & <-)%(In_nth _ _ x00). specialize (HP _ (Hn i Hi)). lia.
Qed.

Lemma digitsPattern_utf8 s : digitsPattern s = true -> utf8Valid s = true.
Proof.
  unfold digitsPattern. intros [_ H]%andb_prop. rewrite forallb_forall in H.
  apply (printable_nth s is_digit).
  - intros b. unfold is_digit. lia.
  - intros i Hi. by apply H, nth_In.
Qed.

Lemma uuidPattern_utf8 s : uuidPattern s = true -> utf8Valid s = true.
Proof.
  unfold uuidPattern. intros [Hl%bool_decide_eq_true H]%andb_prop. rewrite forallb_forall in H.
  apply (printable_nth s (fun b => (b =?? x2d) || is_lower_hex b)).
  - intros b Hb. assert (implb ((b =?? x2d) || is_lower_hex b) ((32 <=? bZ b) && (bZ b <=? 126)) = true) as Hi
      by (clear; byte_cases b). rewrite Hb in Hi. simpl in Hi. lia.
  - intros i Hi. specialize (H i). rewrite in_seq in H. specialize (H ltac:(lia)). simpl in H.
    case_bool_decide; rewrite H; by rewrite ?orb_true_r.
Qed.

Lemma knownAlertState_utf8 s : knownAlertState s = true -> utf8Valid s = true.
Proof.
  unfold knownAlertState. intros [[H|H]%orb_prop|H]%orb_prop; apply bool_decide_eq_true in H as ->; reflexivity.
Qed.

Create HintDb utf8.
#[export] Hint Resolve validAppName_utf8 validServiceName_utf8 digitsPattern_utf8 uuidPattern_utf8
  knownAlertState_utf8 : utf8.

Lemma metaWithinLimits_ok m : metaWithinLimits m = true -> meta_ok m = true.
Proof.
  unfold metaWithinLimits, meta_ok, entry_ok. intros [H _]%andb_prop. rewrite forallb_forall in *.
  intros kv Hkv. specialize (H kv Hkv). unfold metaKey in H. split_bools. by apply andb_true_iff.
Qed.

Lemma limits_canonicalizable e : eventWithinLimits e = true -> canonicalizable e = true /\ event_typed e.
Proof.
  destruct e as [e|e|e|e]; cbn [eventWithinLimits event_typed]; intros H; split_bools;
    unfold canonicalizable, validCanonicalUUID, positiveInt64, int64_range in *; cbn [event_texts forallb]; split; try done;
    try (repeat match goal with |- context [utf8Valid ?s] =>
           replace (utf8Valid s) with true by (symmetry; auto with utf8) end; cbn [andb]; try done).
  all: try (split_bools; lia).
  destruct (ae_Meta e) as [m|]; [|done]. by apply metaWithinLimits_ok.
Qed.

(** * The canonical text is valid UTF-8 *)

Lemma escapeLoop_valid fuel s : utf8Valid s = true -> utf8Valid (escapeLoop fuel s) = true.
Proof.
  revert s. induction fuel as [|fuel IH]; intros s Hv; [done|].
  destruct s as [|c s]; [done|]. cbn [escapeLoop].
  destruct (utf8Valid_step (c :: s) ltac:(done) Hv) as [Hi Hv'].
  destruct (Z.leb_spec 128 (bZ c)) as [Hc|Hc].
  - pose proof (decodeRune_width (c :: s) ltac:(done)) as Hw.
    pose proof (encodeRune_decodeRune (c :: s) ltac:(done) Hi) as He.
    destruct (decodeRune (c :: s)) as [rn n] eqn:Ed. cbn [fst snd] in *.
    apply utf8Valid_app; [|by apply IH]. destruct (is_line_separator rn) eqn:Es.
    + destruct (decodeRune_separator _ _ _ Ed Es) as [_ [-> | ->]]; reflexivity.
    + rewrite <- He. apply encodeRune_valid.
  - rewrite decodeRune_ascii in Hv' by done. cbn [fst snd drop] in Hv'. rewrite drop_0 in Hv'.
    apply utf8Valid_app; [|by apply IH]. destruct (plain_char c); [by apply ascii_valid|].
    assert (implb (bZ c <? 128) (utf8Valid (escape_char c)) = true) as H by (clear; byte_cases c).
    by rewrite (proj2 (Z.ltb_lt _ _) Hc) in H.
Qed.

Lemma quoted_valid s : utf8Valid s = true -> utf8Valid (quoted s) = true.
Proof.
  intros Hv. apply (utf8Valid_app [quote]); [done|]. apply utf8Valid_app; [|done].
  by apply escapeLoop_valid.
Qed.

Lemma formatInt_valid z : utf8Valid (formatInt z) = true.
Proof.
  apply printable_utf8. unfold printableASCII. apply forallb_forall. intros b Hb%list_elem_of_In.
  pose proof (formatInt_chars z) as H. rewrite Forall_forall in H. destruct (H b Hb) as [Hd | ->]; [|done].
  unfold is_digit in Hd. lia.
Qed.

Ltac text_valid :=
  repeat lazymatch goal with
  | |- utf8Valid (quoted _) = true => apply quoted_valid
  | |- utf8Valid (formatInt _) = true => apply formatInt_valid
  | |- utf8Valid (_ ++ _) = true => apply utf8Valid_app
  end; try done.

Lemma metaText_valid first kvs :
  Forall (fun kv => entry_ok kv = true) kvs -> utf8Valid (metaText first kvs) = true.
Proof.
  intros H. revert first. induction H as [|[k v] kvs Hkv Hkvs IH]; intros first; [done|].
  apply andb_prop in Hkv as [Hk%printable_utf8 Hv]. cbn [metaText].
  text_valid. by destruct first.
Qed.

Lemma canonicalText_valid e : canonicalizable e = true -> utf8Valid (canonicalText e) = true.
Proof.
  unfold canonicalizable. intros [Hv Hm]%andb_prop.
  destruct e as [e|e|e|e]; cbn [event_texts forallb] in Hv; split_bools; cbn [canonicalText];
    text_valid.
  destruct (ae_Meta e) as [m|]; [|done]. apply metaText_valid. by apply sortedEntries_ok.
Qed.

(** * Compact documents *)

(** The members of an object written without white space, up to and with the
    closing brace. *)
Fixpoint membersText (first : bool) (fs : list (bytes * bytes)) : bytes :=
  match fs with
  | [] => [rbrace]
  | (k, t) :: fs =>
      (if first then [] else [comma]) ++ quote :: k ++ quote :: colon :: t ++ membersText false fs
  end.

Definition objectText (fs : list (bytes * bytes)) : bytes := lbrace :: membersText true fs.

(** A byte that ends a value inside a compact object. *)
Definition stops (r : bytes) : Prop := head r = Some comma \/ head r = Some rbrace.

(** The text [t] is read as [v] before a comma or a closing brace. *)
Definition reads (t : bytes) (v : jv) : Prop :=
  trimmed t /\ exists fuel, forall r, stops r -> pValue fuel (t ++ r) = Some (v, r).

Definition compact_member (m : member) : Prop := lexed m.1.1 /\ reads m.1.2 m.2.

Definition memberTexts (ms : list member) : list (bytes * bytes) := map (fun m => m.1) ms.

Lemma membersText_stops fs r : stops (membersText false fs ++ r).
Proof. destruct fs as [|[k t] fs]; [by right|by left]. Qed.

Lemma trimmed_skipSpace t r : trimmed t -> skipSpace (t ++ r) = t ++ r.
Proof.
  intros (c & l & Hc & _ & Hs & _). destruct t as [|b t]; [done|]. injection Hc as ->.
  by apply skipSpace_nonspace, solid_not_space.
Qed.

Lemma pMembers_more fuel fuel' first s x :
  (fuel <= fuel')%nat -> pMembers fuel first s = Some x -> pMembers fuel' first s = Some x.
Proof. induction 1 as [|m Hm IH]; [done|]. intros H. by apply grammar_more_fuel, IH. Qed.

(** One member of a compact object. *)
Lemma pMembers_compact fuel first k t v rest ms r :
  lexed k -> trimmed t -> pValue fuel (t ++ rest) = Some (v, rest) ->
  pMembers fuel false rest = Some (ms, r) ->
  pMembers (S fuel) first ((if first then [] else [comma]) ++ quote :: k ++ quote :: colon :: t ++ rest) =
  Some ((k, t, v) :: ms, r).
Proof.
  intros (l & -> & Hl) Ht Hv Hm. cbn [pMembers]. unfold closes.
  assert (expect rbrace ((if first then [] else [comma]) ++ quote :: items_text l ++ quote :: colon :: t ++ rest) = None) as ->.
  { by destruct first. }
  assert (nextItem first ((if first then [] else [comma]) ++ quote :: items_text l ++ quote :: colon :: t ++ rest) =
          Some (quote :: items_text l ++ quote :: colon :: t ++ rest)) as -> by (by destruct first).
  unfold scanKey. rewrite (bool_decide_true (quote = quote)) by done. rewrite scanString_items by done.
  change (expect colon (colon :: t ++ rest)) with (Some (t ++ rest)). cbv iota beta.
  rewrite trimmed_skipSpace, Hv by done. by rewrite Hm, upto_app.
Qed.

Lemma pMembers_text ms :
  Forall compact_member ms ->
  exists fuel, forall first r, pMembers fuel first (membersText first (memberTexts ms) ++ r) = Some (ms, r).
Proof.
  induction 1 as [|[[k t] v] ms [Hk (Ht & f1 & Hv)] Hms (f2 & IH)]; cbn [memberTexts map fst snd] in *.
  { exists 1%nat. by intros []. }
  exists (S (f1 + f2)). intros first r. cbn [membersText].
  change (map _ ms) with (memberTexts ms).
  replace (((if first then [] else [comma]) ++ quote :: k ++ quote :: colon :: t ++ membersText false (memberTexts ms)) ++ r)
    with ((if first then [] else [comma]) ++ quote :: k ++ quote :: colon :: t ++ (membersText false (memberTexts ms) ++ r))
    by (destruct first; reassoc).
  apply pMembers_compact; [done|done| |].
  - eapply pValue_mono; [|by apply Hv, membersText_stops]. lia.
  - eapply pMembers_more; [|apply IH]. lia.
Qed.

Lemma objectText_trimmed fs : trimmed (objectText fs).
Proof.
  exists lbrace, rbrace. split_and!; [done| |done..]. unfold objectText.
  assert (forall first, last (membersText first fs) = Some rbrace) as H.
  { induction fs as [|[k t] fs IH]; intros first; [done|]. cbn [membersText].
    apply last_app_Some, (last_app_Some [quote]), last_app_Some, (last_app_Some [quote; colon]), last_app_Some, IH. }
  apply (last_app_Some [lbrace]), H.
Qed.

(** A compact object is read back as its members. *)
Lemma reads_object ms : Forall compact_member ms -> reads (objectText (memberTexts ms)) (JObj ms).
Proof.
  intros H. split; [apply objectText_trimmed|]. destruct (pMembers_text ms H) as (fuel & Hm).
  exists (S fuel). intros r _. unfold objectText. cbn [pValue app]. by rewrite bool_decide_true, Hm.
Qed.

Lemma objectText_document ms :
  Forall compact_member ms -> parseDocument (objectText (memberTexts ms)) = Some (JObj ms).
Proof.
  intros H. destruct (pMembers_text ms H) as (fuel & Hm).
  apply (parseDocument_raw (S fuel)); [apply objectText_trimmed|]. unfold objectText. cbn [pValue].
  rewrite bool_decide_true by done. by rewrite <- (app_nil_r (membersText _ _)), Hm.
Qed.

(** * Canonical values *)

Lemma quoted_trimmed s : trimmed (quoted s).
Proof. exists quote, quote. split_and!; [done| |done..]. unfold quoted. apply last_app_Some. apply last_snoc. Qed.

Lemma reads_quoted s : utf8Valid s = true -> reads (quoted s) (JStr (escapeString s)).
Proof.
  intros Hv. split; [apply quoted_trimmed|]. exists 1%nat. intros r _.
  destruct (escapeString_lexed s Hv) as (l & E & Hl). unfold quoted. rewrite E.
  rewrite <- !app_assoc. cbn [app pValue].
  rewrite (bool_decide_false (quote = lbrace)), (bool_decide_false (quote = lbracket)) by done.
  unfold scanScalar. rewrite (bool_decide_true (quote = quote)) by done. by rewrite scanString_items.
Qed.

(** The decimal text of a positive integer does not start with zero. *)
Lemma decLoop_pattern fuel z :
  0 < z < 10 ^ Z.of_nat fuel -> positiveIntPattern (decLoop fuel z []) = true.
Proof.
  revert z. induction fuel as [|fuel IH]; intros z Hz; [simpl in Hz; lia|]. cbn [decLoop].
  assert (forall d, 0 <= d < 10 -> is_digit (decDigit d) = true) as Hdig.
  { intros d Hd. unfold is_digit. rewrite decDigit_val by lia. lia. }
  destruct (Z.ltb_spec z 10) as [H|H].
  - cbn [positiveIntPattern forallb]. rewrite andb_true_r. apply in_range_true. rewrite decDigit_val; lia.
  - rewrite decLoop_app. rewrite Nat2Z.inj_succ, Z.pow_succ_r in Hz by lia.
    assert (0 < z / 10 < 10 ^ Z.of_nat fuel) as Hz'.
    { split; [apply Z.div_str_pos; lia|apply Z.div_lt_upper_bound; lia]. }
    specialize (IH _ Hz'). destruct (decLoop fuel (z / 10) []) as [|c l]; [done|].
    cbn [positiveIntPattern app] in *. apply andb_prop in IH as [-> Hl]. rewrite forallb_app, Hl.
    cbn [forallb]. rewrite Hdig; [done|]. apply Z.mod_pos_bound. lia.
Qed.

Lemma formatInt_positive z :
  positiveInt64 z = true -> positiveIntPattern (formatInt z) = true /\ decVal (formatInt z) = z.
Proof.
  unfold positiveInt64. intros H. assert (0 < z < 2 ^ 63) as Hz by lia.
  unfold formatInt. replace (z <? 0) with false by lia.
  split; [apply decLoop_pattern|apply decLoop_val]; change (Z.of_nat 20) with 20; lia.
Qed.

Lemma scanNumber_digits t r : positiveIntPattern t = true -> stops r -> scanNumber (t ++ r) = Some (t, r).
Proof.
  intros Hp Hr. pose proof (pattern_digits t Hp) as Hd. destruct t as [|c t]; [done|].
  apply andb_prop in Hp as [Hc%in_range_true _].
  assert (forall b, bZ b < 49 -> c <> b) as Hne by (intros b Hb ->; lia).
  assert (Forall (fun b => is_digit b = true) (c :: t)) as Hf.
  { rewrite forallb_forall in Hd. apply Forall_forall. intros b Hb. by apply Hd, list_elem_of_In. }
  destruct r as [|b r]; [by destruct Hr|].
  assert (b = comma \/ b = rbrace) as Hb by (destruct Hr as [[= ->]|[= ->]]; auto). clear Hr.
  assert (scanInt ((c :: t) ++ b :: r) = Some (c :: t, b :: r)) as Hint.
  { cbn [app scanInt]. rewrite bool_decide_false by (by apply Hne). apply Forall_cons in Hf as Hf'. destruct Hf' as [-> _].
    f_equal. apply (spanDigits_app (c :: t) (b :: r)); [done|]. intros c' k [= <- _]. by destruct Hb as [-> | ->]. }
  unfold scanNumber. unfold scan_then at 1.
  assert (scanMinus ((c :: t) ++ b :: r) = Some ([], (c :: t) ++ b :: r)) as ->.
  { cbn [app scanMinus]. by rewrite bool_decide_false by (by apply Hne). }
  assert (scan_then scanFrac scanExp (b :: r) = Some ([], b :: r)) as Hend by (by destruct Hb as [-> | ->]).
  unfold scan_then at 1. rewrite Hint, Hend. cbn [prepend]. by rewrite app_nil_r.
Qed.

Lemma reads_int z : positiveInt64 z = true -> reads (formatInt z) (JNum (formatInt z)).
Proof.
  intros Hz. destruct (formatInt_positive z Hz) as [Hp _]. set (t := formatInt z) in *. split.
  - apply trimmed_solid; [by intros E; rewrite E in Hp|].
    apply pattern_digits in Hp. rewrite forallb_forall in Hp. apply Forall_forall.
    intros b Hb. by apply solid_digit, Hp, list_elem_of_In.
  - exists 1%nat. intros r Hr. pose proof (scanNumber_digits t r Hp Hr) as Hs.
    destruct t as [|c t]; [done|]. cbn [app] in *. apply andb_prop in Hp as [Hc%in_range_true _].
    cbn [pValue]. assert (forall b, 57 < bZ b \/ bZ b < 49 -> c <> b) as Hne by (intros b Hb ->; lia).
    rewrite !bool_decide_false by (apply Hne; first [left; reflexivity|right; reflexivity]).
    unfold scanScalar. rewrite !bool_decide_false by (apply Hne; first [left; reflexivity|right; reflexivity]). by rewrite Hs.
Qed.

(** * The canonical text as a compact document *)

Definition str_member (name : string) (s : bytes) : member := (lit name, quoted s, JStr (escapeString s)).
Definition int_member (name : string) (z : Z) : member := (lit name, formatInt z, JNum (formatInt z)).

Definition entry_member (kv : bytes * bytes) : member :=
  (escapeString kv.1, quoted kv.2, JStr (escapeString kv.2)).

Definition meta_members (meta : fieldMap) : list member := map entry_member (sortedEntries meta).

Definition meta_member (meta : fieldMap) : member :=
  (lit "Meta", objectText (memberTexts (meta_members meta)), JObj (meta_members meta)).

(** The members of the canonical form. *)
Definition canonicalMembers (e : Event) : list member :=
  match e with
  | EvTest e => [str_member "AppName" (te_AppName e); str_member "Type" EventTypeTest]
  | EvVerification e =>
      [str_member "AppName" (ve_AppName e); str_member "Type" EventTypeVerification;
       str_member "Code" (ve_Code e)]
  | EvAlert e =>
      [str_member "AppName" (ae_AppName e); str_member "Type" EventTypeAlert;
       int_member "AlertID" (ae_AlertID e); str_member "Summary" (ae_Summary e);
       str_member "Details" (ae_Details e); str_member "ServiceID" (ae_ServiceID e);
       str_member "ServiceName" (ae_ServiceName e); meta_member (default ∅ (ae_Meta e))]
  | EvAlertStatus e =>
      [str_member "AppName" (se_AppName e); str_member "Type" EventTypeAlertStatus;
       int_member "AlertID" (se_AlertID e); str_member "LogEntry" (se_LogEntry e);
       str_member "AlertState" (se_AlertState e)]
  end.

Lemma metaText_members kvs first :
  membersText first (memberTexts (map entry_member kvs)) = metaText first kvs ++ [rbrace].
Proof.
  revert first. induction kvs as [|[k v] kvs IH]; intros first; [done|].
  cbn [memberTexts map membersText metaText fst snd entry_member].
  change (map _ (map entry_member kvs)) with (memberTexts (map entry_member kvs)). rewrite IH.
  rewrite <- !app_assoc. f_equal. unfold quoted at 2.
  change (jlit ":") with [colon]. rewrite <- !app_assoc. done.
Qed.

Lemma canonicalText_members e : canonicalText e = objectText (memberTexts (canonicalMembers e)).
Proof.
  destruct e as [e|e|e|e]; cbn [canonicalText canonicalMembers]; [reflexivity|reflexivity| |reflexivity].
  assert (forall r, objectText (memberTexts (meta_members (default ∅ (ae_Meta e)))) ++ r =
          lbrace :: metaText true (sortedEntries (default ∅ (ae_Meta e))) ++ rbrace :: r) as Hm.
  { intros r. unfold objectText, meta_members. rewrite metaText_members. cbn [app]. by rewrite <- app_assoc. }
  unfold meta_member. cbn [memberTexts map fst str_member int_member].
  unfold objectText at 1. cbn [membersText]. rewrite Hm. reflexivity.
Qed.

Lemma entry_members_compact kvs :
  Forall (fun kv => entry_ok kv = true) kvs -> Forall compact_member (map entry_member kvs).
Proof.
  induction 1 as [|[k v] kvs Hkv Hkvs IH]; constructor; [|done].
  apply andb_prop in Hkv as [Hk%printable_utf8 Hv]. split; [by apply escapeString_lexed|by apply reads_quoted].
Qed.

Lemma literal_lexed k : forallb (fun c => (32 <=? bZ c) && (c <>?? quote) && (c <>?? backslash)) k = true -> lexed k.
Proof.
  induction k as [|c k IH]; [intros _; apply lexed_nil|]. cbn [forallb]. intros H. split_bools.
  apply (lexed_item (IChar c)); [|by apply IH].
  repeat match goal with H : negb _ = true |- _ => apply negb_true_iff, bool_decide_eq_false in H end.
  split_and!; [done..|lia].
Qed.

Lemma str_member_compact name s :
  forallb (fun c => (32 <=? bZ c) && (c <>?? quote) && (c <>?? backslash)) (lit name) = true ->
  utf8Valid s = true -> compact_member (str_member name s).
Proof. intros Hn Hs. split; [by apply literal_lexed|by apply reads_quoted]. Qed.

Lemma int_member_compact name z :
  forallb (fun c => (32 <=? bZ c) && (c <>?? quote) && (c <>?? backslash)) (lit name) = true ->
  positiveInt64 z = true -> compact_member (int_member name z).
Proof. intros Hn Hz. split; [by apply literal_lexed|by apply reads_int]. Qed.

Lemma meta_member_compact m : meta_ok m = true -> compact_member (meta_member m).
Proof.
  intros Hm. split; [by apply literal_lexed|]. apply reads_object, entry_members_compact, sortedEntries_ok, Hm.
Qed.

#[export] Hint Resolve metaWithinLimits_ok : utf8.

Lemma canonicalMembers_compact e : eventWithinLimits e = true -> Forall compact_member (canonicalMembers e).
Proof.
  destruct e as [e|e|e|e]; cbn [eventWithinLimits canonicalMembers]; intros H; split_bools;
    repeat (apply Forall_cons_2; [|]); try apply Forall_nil_2;
    try (apply str_member_compact; [done|auto with utf8]); try (apply int_member_compact; done); try done.
  destruct (ae_Meta e) as [m|]; [|done]. apply meta_member_compact. auto with utf8.
Qed.

(** * The metadata object *)

Lemma entry_member_key kv : printableASCII kv.1 = true -> member_key (entry_member kv) = kv.1.
Proof.
  intros Hk%printable_utf8. unfold member_key, entry_member, unquote. cbn [fst snd].
  eapply unquote_strict; [done|by apply escapeString_lexed|by apply escapeLoop_valid|by apply escapeString_strict].
Qed.

Lemma sortedEntries_keys meta : map fst (sortedEntries meta) = sortStrings (map fst (map_to_list meta)).
Proof. unfold sortedEntries, metaEntries. rewrite map_map. apply map_id. Qed.

Lemma sortedEntries_NoDup meta : NoDup (map fst (sortedEntries meta)).
Proof.
  rewrite sortedEntries_keys. unfold sortStrings. rewrite (merge_sort_Permutation bytes_le).
  apply NoDup_fst_map_to_list.
Qed.

Lemma sortedEntries_perm meta : sortedEntries meta ≡ₚ map_to_list meta.
Proof.
  apply NoDup_Permutation.
  - eapply (NoDup_fmap_1 fst). apply sortedEntries_NoDup.
  - apply NoDup_map_to_list.
  - intros [k v]. by rewrite sortedEntries_elem, elem_of_map_to_list.
Qed.

Lemma entry_members_keys kvs :
  Forall (fun kv => entry_ok kv = true) kvs -> map member_key (map entry_member kvs) = map fst kvs.
Proof.
  induction 1 as [|kv kvs Hkv Hkvs IH]; [done|]. cbn [map]. rewrite IH. f_equal.
  apply andb_prop in Hkv as [Hk _]. by apply entry_member_key.
Qed.

Lemma mapM_entry_members kvs :
  Forall (fun kv => metaKey kv.1 && utf8Valid kv.2 = true) kvs ->
  mapM metaEntry (map entry_member kvs) = Some kvs.
Proof.
  induction 1 as [|[k v] kvs Hkv Hkvs IH]; [done|]. cbn [map mapM]. rewrite IH.
  cbn [fst snd] in Hkv. apply andb_prop in Hkv as [Hk Hv].
  assert (metaEntry (entry_member (k, v)) = Some (k, v)) as ->; [|done].
  unfold metaEntry. rewrite entry_member_key by (unfold metaKey in Hk; split_bools; done).
  cbn [fst snd entry_member stringOf]. rewrite Hk. by rewrite escapeString_strict.
Qed.

Lemma meta_members_meta m : metaWithinLimits m = true -> metaOf (JObj (meta_members m)) = Some m.
Proof.
  intros Hm. cbn [metaOf]. unfold meta_members. unfold metaWithinLimits in Hm. apply andb_prop in Hm as [Hf Hs].
  rewrite mapM_entry_members.
  - rewrite (metaSize_perm _ _ (sortedEntries_perm m)), Hs. f_equal.
    rewrite (list_to_map_proper _ (map_to_list m)).
    + apply list_to_map_to_list.
    + apply sortedEntries_NoDup.
    + apply sortedEntries_perm.
  - rewrite sortedEntries_perm. apply Forall_forall. intros kv Hkv. rewrite forallb_forall in Hf.
    by apply Hf, list_elem_of_In.
Qed.

Lemma meta_members_unique m : meta_ok m = true -> uniqueKeys (JObj (meta_members m)) = true.
Proof.
  intros Hm. cbn [uniqueKeys]. unfold meta_members.
  rewrite entry_members_keys by (by apply sortedEntries_ok). rewrite bool_decide_true by apply sortedEntries_NoDup.
  apply forallb_forall. intros x (kv & <- & _)%in_map_iff. done.
Qed.

Lemma meta_members_depth m : depth (JObj (meta_members m)) = 1.
Proof.
  cbn [depth]. unfold meta_members. induction (sortedEntries m) as [|kv l IH]; [done|].
  cbn [map foldr entry_member snd depth] in *. lia.
Qed.

(** * Round trip *)

Lemma canonicalMembers_depth e : depth (JObj (canonicalMembers e)) <= maxNestingDepth.
Proof.
  unfold maxNestingDepth. destruct e as [e|e|e|e]; cbn [canonicalMembers]; try (cbn; lia).
  pose proof (meta_members_depth (default ∅ (ae_Meta e))) as H.
  cbn [depth foldr str_member int_member meta_member fst snd] in *. lia.
Qed.

Lemma canonicalMembers_unique e : canonicalizable e = true -> uniqueKeys (JObj (canonicalMembers e)) = true.
Proof.
  intros Hc. destruct e as [e|e|e|e]; cbn [canonicalMembers]; try reflexivity.
  unfold canonicalizable in Hc. apply andb_prop in Hc as [_ Hm]. destruct (ae_Meta e) as [m|]; [|done].
  apply meta_members_unique in Hm. apply andb_true_iff. split; [reflexivity|].
  apply forallb_forall. intros x Hx. repeat (destruct Hx as [<-|Hx]; [done|]). by destruct Hx.
Qed.

Lemma want_found {A B} ms name (sem : jv -> option A) ok (k : A -> result B) v a :
  findMember ms (lit name) = Some v -> sem v = Some a -> ok a = true -> want ms name sem ok k = k a.
Proof. unfold want. intros -> Hs Ho. cbn [mbind option_bind]. by rewrite Hs, Ho. Qed.

Lemma stringOf_escape s : utf8Valid s = true -> stringOf (JStr (escapeString s)) = Some s.
Proof. apply escapeString_strict. Qed.

Lemma positiveOf_format z : positiveInt64 z = true -> positiveOf (JNum (formatInt z)) = Some z.
Proof.
  intros Hz. destruct (formatInt_positive z Hz) as [Hp Hd]. cbn [positiveOf]. rewrite Hp, Hd.
  unfold positiveInt64 in Hz. apply andb_prop in Hz as [_ ->]. done.
Qed.

Ltac found :=
  erewrite want_found; [|reflexivity
    |first [apply stringOf_escape; auto with utf8; done | apply positiveOf_format; done
           |apply meta_members_meta; done]
    |done].

Lemma refEvent_canonical e : eventWithinLimits e = true -> refEvent (canonicalMembers e) = Ok e.
Proof.
  intros H. unfold refEvent.
  destruct e as [e|e|e|e]; cbn [eventWithinLimits] in H; split_bools; found.
  - unfold refTest. change (exactMembers _ _) with true. cbv iota. found. by destruct e.
  - change (refVerification (canonicalMembers (EvVerification e)) = Ok (EvVerification e)).
    unfold refVerification. change (exactMembers _ _) with true. cbv iota. do 2 found. by destruct e.
  - change (refAlert (canonicalMembers (EvAlert e)) = Ok (EvAlert e)).
    destruct (ae_Meta e) as [m|] eqn:Em; [|done].
    unfold refAlert. change (exactMembers _ _) with true. cbv iota. do 6 found.
    erewrite want_found; [|reflexivity|rewrite Em; by apply (meta_members_meta m)|done].
    rewrite <- Em. by destruct e.
  - change (refAlertStatus (canonicalMembers (EvAlertStatus e)) = Ok (EvAlertStatus e)).
    unfold refAlertStatus. change (exactMembers _ _) with true. cbv iota. do 4 found. by destruct e.
Qed.

Lemma decodeRef_canonical e : eventWithinLimits e = true -> decodeRef (canonicalText e) = Ok e.
Proof.
  intros H. destruct (limits_canonicalizable e H) as [Hc _]. unfold decodeRef.
  rewrite canonicalText_valid by done. unfold validDocument. rewrite canonicalText_members.
  rewrite objectText_document by (by apply canonicalMembers_compact).
  rewrite (proj2 (Z.leb_le _ _) (canonicalMembers_depth e)), canonicalMembers_unique by done.
  by apply refEvent_canonical.
Qed.

(** * Properties *)

(** (C16) [decodeEvent] is total and decides as the reference decoder over the
    syntax tree, whatever the iteration order of maps: the body must be valid
    UTF-8 and one JSON object of bounded depth without repeated keys, hold
    exactly the members of its type, and every member must denote a value in
    its range, no escaped surrogate being unpaired; the failure is
    [errUnsupportedEvent] for another type and [errInvalidEvent] otherwise. *)
Theorem decodeEvent_decides (range : fieldMap -> list (bytes * bytes)) (data : bytes)
    (Hrange : forall m, range m ≡ₚ map_to_list m) :
  decodeEvent range data = Some (decodeRef data).
Proof. by apply decodeEvent_ref. Qed.

(** (C17) Encoding and decoding are inverse: an event can be decoded from some
    body exactly when it is within the limits, and it is then decoded from its
    canonical form, so the canonical bytes kept of an accepted event determine
    it through the decoder itself. *)
Theorem decodeEvent_roundtrip (range : fieldMap -> list (bytes * bytes)) (e : Event)
    (Hrange : forall m, range m ≡ₚ map_to_list m) :
  ((exists data, decodeEvent range data = Some (Ok e)) <-> eventWithinLimits e = true) /\
  (eventWithinLimits e = true ->
   exists c, CanonicalizeEvent range (EIValue e) = Ok c /\ decodeEvent range (ce_data c) = Some (Ok e)).
Proof.
  split; [split|].
  - intros (data & Hd). rewrite decodeEvent_ref in Hd by done. injection Hd as Hd.
    by apply (decodeRef_within_limits data).
  - intros H. exists (canonicalText e). rewrite decodeEvent_ref by done. by rewrite decodeRef_canonical.
  - intros H. destruct (limits_canonicalizable e H) as [Hc _]. eexists. split.
    + rewrite CanonicalizeEvent_spec by done. cbn [underlying]. by rewrite Hc.
    + cbn [ce_data]. rewrite decodeEvent_ref by done. by rewrite decodeRef_canonical.
Qed.

(** * Witnesses *)

Lemma reverse_range_perm m : reverse_range m ≡ₚ map_to_list m.
Proof. apply reverse_Permutation. Qed.

Definition spaced_alert : bytes :=
  jlit " { `Type`:`Alert`, `Meta`:{`b`:`\u0041\n`,`a`:``}, `AlertID`: 7 ,`AppName`:`On Call`, `Summary`:`s`, `Details`:`\ud83d\ude00`,`ServiceName`:`Svc`,`ServiceID`:`11111111-2222-4333-8444-555555555555`}".

Definition spaced_alert_event : Event :=
  EvAlert (mkAlertEvent (lit "On Call") 7 (lit "s") (lit "😀") (lit "11111111-2222-4333-8444-555555555555")
    (lit "Svc") (Some (<[lit "b" := lit "A" ++ [x0a]]> {[lit "a" := []]}))).

Lemma decodeEvent_decides_witness :
  decodeEvent reverse_range spaced_alert = Some (decodeRef spaced_alert) /\
  decodeRef spaced_alert = Ok spaced_alert_event.
Proof.
  split; [|vm_compute; reflexivity].
  apply (decodeEvent_decides reverse_range spaced_alert). exact reverse_range_perm.
Defined.

Lemma decodeEvent_roundtrip_witness :
  exists c, CanonicalizeEvent reverse_range (EIValue spaced_alert_event) = Ok c /\
    decodeEvent reverse_range (ce_data c) = Some (Ok spaced_alert_event).
Proof.
  apply (decodeEvent_roundtrip reverse_range spaced_alert_event).
  - exact reverse_range_perm.
  - vm_compute. reflexivity.
Defined.
