(* ===== verification/EventLimits.v ===== *)
(** The limits of a decoded event, spelled out: what a reader of an accepted
    event may rely on, without the patterns of the decoder. *)

From Stdlib Require Import ZifyBool.
From stdpp Require Import gmap sorting.
From S2P Require Import Prelude GoErrors Encoding Uuid Events Canonical.
From S2P Require Import Json Utf8 Decode DecodeSpec DecodeRoundTrip.

(** * The limits *)

Definition length_in (lo hi : Z) (s : bytes) : Prop := lo <= Z.of_nat (length s) <= hi.
Definition printable (s : bytes) : Prop := Forall (fun b => 32 <= bZ b <= 126) s.

Definition letter (b : byte) : Prop := 65 <= bZ b <= 90 \/ 97 <= bZ b <= 122.
Definition digit (b : byte) : Prop := 48 <= bZ b <= 57.

(** The characters of a service name: letters, digits, underscore, apostrophe
    and hyphen. *)
Definition name_char (b : byte) : Prop := letter b \/ digit b \/ bZ b = 95 \/ bZ b = 39 \/ bZ b = 45.

Definition app_name (s : bytes) : Prop := length_in 1 32 s /\ printable s.

(** A service name begins with a letter and does not end in a space. *)
Definition service_name (s : bytes) : Prop :=
  length_in 2 64 s /\
  exists first middle last, s = first :: middle ++ [last] /\
    letter first /\ Forall (fun b => name_char b \/ bZ b = 32) middle /\ name_char last.

Definition six_digits (s : bytes) : Prop := length s = 6%nat /\ Forall digit s.

Definition canonical_uuid (s : bytes) : Prop := exists x : arr 16, s = formatUUID x.

Definition text_limits (runes : Z) (s : bytes) : Prop := utf8Valid s = true /\ runeCount s <= runes.

Definition meta_limits (meta : fieldMap) : Prop :=
  (forall key value, meta !! key = Some value ->
    length_in 1 255 key /\ printable key /\ utf8Valid value = true) /\
  metaSize (map_to_list meta) <= 32768.

Definition event_limits (e : Event) : Prop :=
  match e with
  | EvTest e => app_name (te_AppName e)
  | EvVerification e => app_name (ve_AppName e) /\ six_digits (ve_Code e)
  | EvAlert e =>
      app_name (ae_AppName e) /\ 0 < ae_AlertID e < 2 ^ 63 /\
      text_limits 1024 (ae_Summary e) /\ text_limits 6144 (ae_Details e) /\
      canonical_uuid (ae_ServiceID e) /\ service_name (ae_ServiceName e) /\
      exists meta, ae_Meta e = Some meta /\ meta_limits meta
  | EvAlertStatus e =>
      app_name (se_AppName e) /\ 0 < se_AlertID e < 2 ^ 63 /\
      utf8Valid (se_LogEntry e) = true /\ se_LogEntry e <> [] /\
      se_AlertState e ∈ [lit "Unacknowledged"; lit "Acknowledged"; lit "Closed"]
  end.

(** * The patterns of the decoder mean these limits *)

Lemma printableASCII_printable s : printableASCII s = true -> printable s.
Proof.
  unfold printableASCII, printable. rewrite forallb_forall, Forall_forall.
  intros H b Hb%list_elem_of_In%H. lia.
Qed.

Lemma validAppName_limits s : validAppName s = true -> app_name s.
Proof.
  unfold validAppName. intros [[H1 H2]%andb_prop H3%printableASCII_printable]%andb_prop.
  split; [unfold length_in; lia|done].
Qed.

Lemma name_last_char b : name_last b = true -> name_char b.
Proof.
  unfold name_char, letter, digit. intros H.
  assert (((65 <=? bZ b) && (bZ b <=? 90)) || ((97 <=? bZ b) && (bZ b <=? 122)) || ((48 <=? bZ b) && (bZ b <=? 57)) ||
          (bZ b =? 95) || (bZ b =? 39) || (bZ b =? 45) = true) as Hb; [|lia].
  assert (forall c, implb (name_last c)
    (((65 <=? bZ c) && (bZ c <=? 90)) || ((97 <=? bZ c) && (bZ c <=? 122)) || ((48 <=? bZ c) && (bZ c <=? 57)) ||
     (bZ c =? 95) || (bZ c =? 39) || (bZ c =? 45)) = true) as Hall by (clear; intros c; byte_cases c).
  specialize (Hall b). by rewrite H in Hall.
Qed.

Lemma name_middle_char b : name_middle b = true -> name_char b \/ bZ b = 32.
Proof.
  unfold name_middle. intros [H|H%bool_decide_eq_true]%orb_prop; [left; by apply name_last_char|right; by subst].
Qed.

Lemma validServiceName_limits s : validServiceName s = true -> service_name s.
Proof.
  unfold validServiceName. intros [[[H1 H2]%andb_prop _]%andb_prop H3]%andb_prop.
  split; [unfold length_in; lia|]. destruct s as [|c r]; [done|]. cbn [serviceNamePattern] in H3.
  destruct (last r) as [l|] eqn:El; [|done]. apply andb_prop in H3 as [[Hc Hm]%andb_prop Hl].
  apply last_Some in El as [m ->]. rewrite removelast_last in Hm.
  exists c, m, l. split; [done|]. split; [|split; [|by apply name_last_char]].
  - unfold is_alpha, in_range in Hc. unfold letter. lia.
  - rewrite forallb_forall in Hm. apply Forall_forall. intros b Hb%list_elem_of_In. by apply name_middle_char, Hm.
Qed.

Lemma digitsPattern_limits s : digitsPattern s = true -> six_digits s.
Proof.
  unfold digitsPattern. intros [H1%bool_decide_eq_true H2]%andb_prop. split; [done|].
  rewrite forallb_forall in H2. apply Forall_forall. intros b Hb%list_elem_of_In%H2.
  unfold is_digit in Hb. unfold digit. lia.
Qed.

(** A lower-case hexadecimal text of even length decodes. *)
Lemma hexDecode_lower n s :
  length s = (2 * n)%nat -> Forall (fun b => is_lower_hex b = true) s -> exists l, hexDecode s = Some l /\ length l = n.
Proof.
  revert n. induction s as [|h|h b s IH] using list_ind2; intros n Hn Hf.
  - exists []. cbn in *. split; [done|cbn; lia].
  - cbn in Hn. lia.
  - apply Forall_cons in Hf as [Hh Hf]. apply Forall_cons in Hf as [Hb Hf]. destruct n as [|n]; [cbn in Hn; lia|].
    destruct (IH n) as (l & Hl & Hln); [cbn in Hn; lia|done|].
    destruct (hex_pair_inv h b Hh Hb) as (x & y & Hx & Hy & _). cbn [hexDecode]. rewrite Hx, Hy, Hl.
    eexists. split; [done|]. cbn. lia.
Qed.

Lemma dash_positions i : bool_decide (i ∈ [8; 13; 18; 23]%nat) = existsb (Nat.eqb i) [8; 13; 18; 23]%nat.
Proof.
  apply Bool.eq_true_iff_eq. rewrite bool_decide_eq_true, existsb_exists, list_elem_of_In. split.
  - intros H. exists i. split; [done|apply Nat.eqb_refl].
  - by intros (x & H & <-%Nat.eqb_eq).
Qed.

Lemma uuidPattern_nth s i :
  uuidPattern s = true -> (i < 36)%nat ->
  if existsb (Nat.eqb i) [8; 13; 18; 23]%nat then nth i s x00 = x2d else is_lower_hex (nth i s x00) = true.
Proof.
  unfold uuidPattern. intros [_ H]%andb_prop Hi. rewrite forallb_forall in H.
  specialize (H i). rewrite in_seq, dash_positions in H. specialize (H ltac:(lia)). cbv zeta in H.
  destruct (existsb _ _); [by apply bool_decide_eq_true in H|done].
Qed.

Lemma uuidPattern_canonical s : uuidPattern s = true -> canonical_uuid s.
Proof.
  intros H. assert (length s = 36%nat) as Hlen.
  { unfold uuidPattern in H. apply andb_prop in H as [H _]. by apply bool_decide_eq_true in H. }
  pose proof (fun i => uuidPattern_nth s i H) as Hn. clear H.
  assert (uuid_dashes s = true /\ Forall (fun b => is_lower_hex b = true) (uuid_compact s)) as [Hd Hf].
  { do 36 (destruct s as [|? s]; [discriminate|]). destruct s as [|? s]; [|discriminate].
    pose proof (Hn 8%nat ltac:(lia)) as E8. pose proof (Hn 13%nat ltac:(lia)) as E13.
    pose proof (Hn 18%nat ltac:(lia)) as E18. pose proof (Hn 23%nat ltac:(lia)) as E23. cbn in E8, E13, E18, E23. subst.
    split; [reflexivity|]. unfold uuid_compact, slice. cbn [take drop Nat.sub app].
    repeat (apply Forall_cons; split); try apply Forall_nil_2;
    lazymatch goal with |- is_lower_hex ?x = true =>
      let rec go i := (first [exact (Hn i ltac:(lia)) | go (S i)]) in go 0%nat end. }
  destruct (hexDecode_lower 16 (uuid_compact s)) as (l & Hl & Hll); [|done|].
  { unfold uuid_compact, slice. rewrite !length_app, !length_take, !length_drop, Hlen. done. }
  exists (mk_arr 16 l). symmetry. apply uuid_text_of_compact; [done|done|].
  rewrite mk_arr_exact by done. by apply hexEncode_decode.
Qed.

Lemma metaWithinLimits_limits meta : metaWithinLimits meta = true -> meta_limits meta.
Proof.
  unfold metaWithinLimits. intros [H Hs]%andb_prop. split; [|lia].
  rewrite forallb_forall in H. intros key value Hk.
  specialize (H (key, value)). rewrite <- list_elem_of_In, elem_of_map_to_list in H. specialize (H Hk).
  unfold metaKey in H. cbn [fst snd] in H. apply andb_prop in H as [[[H1 H2]%andb_prop H3]%andb_prop H4].
  split; [unfold length_in; lia|]. split; [by apply printableASCII_printable|done].
Qed.

Lemma eventWithinLimits_limits e : eventWithinLimits e = true -> event_limits e.
Proof.
  destruct e as [e|e|e|e]; cbn [eventWithinLimits event_limits].
  - apply validAppName_limits.
  - intros [H1 H2]%andb_prop. split; [by apply validAppName_limits|by apply digitsPattern_limits].
  - intros [[[[[[H1 H2]%andb_prop [H3 H4]%andb_prop]%andb_prop [H5 H6]%andb_prop]%andb_prop H7]%andb_prop H8]%andb_prop H9]%andb_prop.
    unfold positiveInt64 in H2. unfold text_limits. split_and!; try lia; try done.
    + by apply validAppName_limits.
    + by apply uuidPattern_canonical.
    + by apply validServiceName_limits.
    + destruct (ae_Meta e) as [meta|]; [|done]. exists meta. split; [done|]. by apply metaWithinLimits_limits.
  - intros [[[H1 H2]%andb_prop [H3 H4]%andb_prop]%andb_prop H5]%andb_prop. unfold positiveInt64 in H2.
    apply negb_true_iff, bool_decide_eq_false in H4. split_and!; try lia; try done; [by apply validAppName_limits|].
    unfold knownAlertState in H5. rewrite !elem_of_cons.
    apply orb_prop in H5 as [[H5|H5]%orb_prop|H5]; apply bool_decide_eq_true in H5 as ->; auto.
Qed.

(** * Claims *)

(** (C34) Every decoded event is well typed: its texts are valid UTF-8 within
    their limits, its identifiers, codes, states and positive 64-bit numbers
    have their form, its metadata is a non-nil map within its limits; so it
    has a canonical form. *)
Theorem decodeEvent_typed (range : fieldMap -> list (bytes * bytes)) (data : bytes) (e : Event)
    (Hrange : forall m, range m ≡ₚ map_to_list m)
    (Hdecode : decodeEvent range data = Some (Ok e)) :
  event_limits e /\ canonicalizable e = true /\ event_typed e.
Proof.
  rewrite decodeEvent_ref in Hdecode by done. injection Hdecode as Hdecode.
  apply decodeRef_within_limits in Hdecode. split; [by apply eventWithinLimits_limits|]. by apply limits_canonicalizable.
Qed.

Lemma decodeEvent_typed_witness :
  event_limits spaced_alert_event /\ canonicalizable spaced_alert_event = true /\
  event_typed spaced_alert_event.
Proof.
  apply (decodeEvent_typed reverse_range spaced_alert spaced_alert_event).
  - exact reverse_range_perm.
  - vm_compute. reflexivity.
Defined.
