(* ===== verification/Metrics.v ===== *)
(** internal/httpapi/metrics.go: the request counters and their exposition. *)

From stdpp Require Import gmap sorting.
From S2P Require Import Prelude GoErrors Encoding Events Canonical.

(** [metricKey]. *)
Record metricKey : Type := mkMetricKey { mk_route : bytes; mk_result : bytes }.

#[export] Instance metricKey_eq_dec : EqDecision metricKey.
Proof. solve_decision. Defined.

#[export] Instance metricKey_countable : Countable metricKey :=
  inj_countable' (fun k => (mk_route k, mk_result k)) (fun p => mkMetricKey p.1 p.2)
    ltac:(by intros []).

(** [requestMetrics]: the map of [uint64] counters; the mutex makes [increment]
    and the snapshot of [render] atomic. *)
Record requestMetrics : Type := mkMetrics { rm_counts : gmap metricKey Z }.

(** [newRequestMetrics]. *)
Definition newRequestMetrics : requestMetrics := mkMetrics ∅.

(** [requestMetrics.increment]: a missing counter counts as zero, and a counter
    wraps at 64 bits. *)
Definition increment (route result : bytes) (m : requestMetrics) : requestMetrics :=
  let key := mkMetricKey route result in
  mkMetrics (<[key := (default 0 (rm_counts m !! key) + 1) mod 2 ^ 64]> (rm_counts m)).

(** The order [sort.Slice] is given: by route, then by result. *)
Definition bytes_ltb (a b : bytes) : bool := bytes_leb a b && (a <>?? b).

Definition key_less (i j : metricKey) : bool :=
  if mk_route i =?? mk_route j then bytes_ltb (mk_result i) (mk_result j)
  else bytes_ltb (mk_route i) (mk_route j).

Definition key_le (i j : metricKey) : Prop := key_less j i = false.

#[export] Instance key_le_dec : RelDecision key_le.
Proof. intros i j. apply bool_eq_dec. Defined.

Section Render.
(** The iteration order of maps, and [strconv.Quote], to which [%q] refers. *)
Context (range : gmap metricKey Z -> list (metricKey * Z)) (Quote : bytes -> bytes).

(** The exposition line of one counter. *)
Definition metricLine (key : metricKey) (count : Z) : bytes :=
  lit "ms_oncall_gateway_http_requests_total{route=" ++ Quote (mk_route key) ++ lit ",result=" ++
  Quote (mk_result key) ++ lit "} " ++ formatInt count ++ [x0a].

Definition metricHeader : bytes :=
  lit "# HELP ms_oncall_gateway_http_requests_total HTTP requests handled by route and bounded result." ++ [x0a] ++
  lit "# TYPE ms_oncall_gateway_http_requests_total counter" ++ [x0a].

(** [requestMetrics.render]. *)
Definition render (m : requestMetrics) : bytes :=
  let keys := merge_sort key_le (map fst (range (rm_counts m))) in
  metricHeader ++ concat (map (fun key => metricLine key (default 0 (rm_counts m !! key))) keys).
End Render.

(** * Facts *)

Lemma bytes_leb_total a b : bytes_leb a b = true \/ bytes_leb b a = true.
Proof. apply (bytes_le_total a b). Qed.

Lemma bytes_ltb_false a b : bytes_ltb a b = false <-> bytes_leb b a = true.
Proof.
  unfold bytes_ltb. rewrite andb_false_iff, negb_false_iff, bool_decide_eq_true. split.
  - intros [H| ->]; [|apply bytes_leb_refl]. destruct (bytes_leb_total a b); [congruence|done].
  - intros H. destruct (bytes_leb a b) eqn:E; [|by left]. right. by apply (anti_symm bytes_le).
Qed.

(** The comparison as an order. *)
Lemma key_le_spec i j :
  key_le i j <->
  if decide (mk_route i = mk_route j) then bytes_le (mk_result i) (mk_result j)
  else bytes_le (mk_route i) (mk_route j).
Proof.
  unfold key_le, key_less, bytes_le. case_bool_decide as H; case_decide as H'; try congruence; apply bytes_ltb_false.
Qed.

#[export] Instance key_le_total : Total key_le.
Proof.
  intros i j. rewrite !key_le_spec. repeat case_decide; try congruence; apply bytes_le_total.
Qed.

#[export] Instance key_le_antisymm : AntiSymm (=) key_le.
Proof.
  intros [r s] [r' s']. rewrite !key_le_spec. cbn [mk_route mk_result]. repeat case_decide; try congruence.
  - subst r'. intros H1 H2. f_equal. by apply (anti_symm bytes_le).
  - intros H1 H2. exfalso. assert (r = r'); [|done]. by apply (anti_symm bytes_le).
Qed.

#[export] Instance key_le_trans : Transitive key_le.
Proof.
  intros [r s] [r' s'] [r'' s'']. rewrite !key_le_spec. cbn [mk_route mk_result].
  repeat case_decide; subst; try congruence; try apply (transitivity (R := bytes_le)); try done.
  intros H1 H2. assert (r' = r''); [|done]. by apply (anti_symm bytes_le).
Qed.

(** How many of the requests [l] were recorded under [key]. *)
Definition occurrences (key : metricKey) (l : list metricKey) : nat :=
  length (filter (fun k => k = key) l).

(** The counters after a sequence of recordings. *)
Definition recorded (l : list metricKey) : requestMetrics :=
  foldl (fun m k => increment (mk_route k) (mk_result k) m) newRequestMetrics l.

Lemma recorded_snoc l k : recorded (l ++ [k]) = increment (mk_route k) (mk_result k) (recorded l).
Proof. unfold recorded. by rewrite foldl_app. Qed.

Lemma recorded_lookup l key :
  rm_counts (recorded l) !! key =
  if decide (key ∈ l) then Some (Z.of_nat (occurrences key l) mod 2 ^ 64) else None.
Proof.
  induction l as [|k l IH] using rev_ind.
  { rewrite decide_False by apply not_elem_of_nil. apply lookup_empty. }
  rewrite recorded_snoc. unfold increment. cbn [rm_counts]. replace (mkMetricKey (mk_route k) (mk_result k)) with k by (by destruct k).
  unfold occurrences in *. rewrite filter_app, length_app.
  destruct (decide (k = key)) as [->|Hne].
  - rewrite lookup_insert_eq, decide_True by (apply elem_of_app; right; by apply list_elem_of_singleton).
    f_equal. rewrite IH, filter_cons_True by done. cbn [filter length].
    case_decide as Hin; cbn [default from_option id].
    + rewrite Zplus_mod_idemp_l. f_equal. simpl. lia.
    + destruct (filter (fun k => k = key) l) as [|x f] eqn:Ef; [done|].
      assert (x ∈ filter (fun k => k = key) l) as [-> Hx]%list_elem_of_filter by (rewrite Ef; apply list_elem_of_here).
      done.
  - rewrite lookup_insert_ne by done. rewrite IH, filter_cons_False by done. cbn [length].
    rewrite Nat.add_0_r. destruct (decide (key ∈ l)) as [Hin|Hin].
    + rewrite decide_True by (apply elem_of_app; by left). done.
    + rewrite decide_False; [done|]. intros [?| ->%list_elem_of_singleton]%elem_of_app; done.
Qed.

(** Rendering does not depend on the iteration order of the map. *)
Lemma render_order range1 range2 Quote m :
  (forall m, range1 m ≡ₚ map_to_list m) -> (forall m, range2 m ≡ₚ map_to_list m) ->
  render range1 Quote m = render range2 Quote m.
Proof.
  intros H1 H2. unfold render. do 3 f_equal. apply (Sorted_unique key_le); try apply (Sorted_merge_sort _).
  rewrite !(merge_sort_Permutation key_le). apply Permutation_map. by rewrite H1, H2.
Qed.
