(* ===== verification/Handler.v ===== *)
(** internal/httpapi/handler.go: routing, the checks of a webhook request, the
    hand-over to the sink, and the response.

    The response writer, the body, the sink, the counters and the logger are
    external calls; the checks are functions of the request. *)

From stdpp Require Import gmap.
From S2P Require Import Prelude Effects GoTime GoErrors Encoding Uuid Events Canonical.
From S2P Require Import Json Decode Metrics.

(** * Requests and calls *)

Definition DefaultListenAddress : bytes := lit "127.0.0.1:8080".
Definition MaxBodyBytes : Z := 262144.
Definition idempotencyKeyHeader : bytes := lit "Idempotency-Key".
Definition webhookPathPrefix : bytes := lit "/v1/goalert/contact-method/".

(** What the handler reads of [*http.Request]; header names are canonical. *)
Record HttpRequest : Type := mkHttpRequest {
  hr_Method : bytes;
  hr_Path : bytes;
  hr_RawQuery : bytes;
  hr_Header : gmap bytes (list bytes);
  hr_ContentLength : Z
}.

(** [r.Header.Values(name)] of a canonical name. *)
Definition Values (r : HttpRequest) (name : bytes) : list bytes := default [] (hr_Header r !! name).

(** The calls: the [http.ResponseWriter], [io.ReadAll(io.LimitReader(r.Body, n))],
    [Sink.Enqueue], the counters ([HSnapshot] is the copy [render] takes under
    the lock) and the log. *)
Inductive http_op : Type :=
| HSetHeader (name value : bytes)
| HWriteHeader (status : Z)
| HWrite (body : bytes)
| HReadBody (limit : Z)
| HEnqueue (ctx : Ctx) (delivery : Delivery)
| HIncrement (route result : bytes)
| HSnapshot
| HLog (route result : bytes) (status : Z) (eventType : option bytes).

Definition HttpE : sig := Sig http_op (fun o =>
  match o with
  | HReadBody _ => (bytes * option error)%type
  | HEnqueue _ _ => (Acceptance * option error)%type
  | HSnapshot => requestMetrics
  | _ => unit
  end).

(** [Handler]: whether the sink is nil; the logger never is. *)
Record Handler : Type := mkHandler { sink_nil : bool }.

(** [NewHandler] over a sink. *)
Definition NewHandler (sink_is_nil : bool) : Handler := mkHandler sink_is_nil.

(** [http.Server] as [NewServer] fills it in. *)
Record Server : Type := mkServer {
  srv_Addr : bytes;
  srv_Handler : Handler;
  srv_ReadHeaderTimeout : Duration;
  srv_ReadTimeout : Duration;
  srv_WriteTimeout : Duration;
  srv_IdleTimeout : Duration;
  srv_MaxHeaderBytes : Z
}.

(** [NewServer]. *)
Definition NewServer (address : bytes) (handler : Handler) : Server :=
  mkServer address handler (5 * Second) (10 * Second) (10 * Second) (60 * Second) (Z.shiftl 32 10).

(** * Texts *)

(** [strings.HasPrefix] with [strings.TrimPrefix]. *)
Definition cutPrefix (prefix s : bytes) : option bytes :=
  if has_prefix prefix s then Some (drop (length prefix) s) else None.

(** [webhookToken]. *)
Definition webhookToken (path : bytes) : option bytes :=
  match cutPrefix webhookPathPrefix path with
  | None => None
  | Some token => if (token =?? []) || bool_decide (x2f ∈ token) then None else Some token
  end.

Fixpoint runesLoop (fuel : nat) (s : bytes) : list Z :=
  match fuel, s with
  | S fuel, _ :: _ => (decodeRune s).1 :: runesLoop fuel (drop (decodeRune s).2 s)
  | _, _ => []
  end.

(** [range s] of a string. *)
Definition runes (s : bytes) : list Z := runesLoop (length s) s.

(** Simple case folding onto ASCII letters: besides the capitals, U+017F folds
    to s and U+212A to k. Two texts are compared by it exactly when one of them
    is ASCII, as every text the handler compares with is. *)
Definition foldRune (r : Z) : Z :=
  if (65 <=? r) && (r <=? 90) then r + 32
  else if r =? 0x17f then 115 else if r =? 0x212a then 107 else r.

(** [strings.EqualFold]. *)
Definition EqualFold (s t : bytes) : bool := map foldRune (runes s) =?? map foldRune (runes t).

(** A JSON string as [json.Encoder] writes it: like the canonical form, with an
    escaped replacement character for every invalid byte. *)
Fixpoint jsonStringLoop (fuel : nat) (s : bytes) : bytes :=
  match fuel, s with
  | S fuel, c :: s' =>
      if 128 <=? bZ c then
        if rune_invalid s then lit "\ufffd" ++ jsonStringLoop fuel s'
        else let '(r, n) := decodeRune s in
             (if is_line_separator r then escape_separator r else take n s) ++ jsonStringLoop fuel (drop n s)
      else (if plain_char c then [c] else escape_char c) ++ jsonStringLoop fuel s'
  | _, _ => []
  end.

Definition jsonString (s : bytes) : bytes := [quote] ++ jsonStringLoop (length s) s ++ [quote].

(** The encoded [problem] response. *)
Definition problemBody (status : Z) (code : bytes) : bytes :=
  jlit "{`type`:`about:blank`,`title`:`Request rejected`,`status`:" ++ formatInt status ++
  jlit ",`code`:" ++ jsonString code ++ jlit "}" ++ [x0a].

(** The encoded response to an accepted delivery. *)
Definition acceptedBody (acceptance : Acceptance) : bytes :=
  jlit "{`receipt_id`:" ++ jsonString (a_ReceiptID acceptance) ++ jlit ",`status`:`accepted`,`duplicate`:" ++
  (if a_Duplicate acceptance then lit "true" else lit "false") ++ jlit "}" ++ [x0a].

(** * The handler *)

(** [Handler.record]; the empty event type is not logged. *)
Definition record (route result : bytes) (status : Z) (eventType : bytes) : prog HttpE unit :=
  let! _ := @call HttpE (HIncrement route result) in
  @call HttpE (HLog route result status (if eventType =?? [] then None else Some eventType)).

(** [Handler.problem]. *)
Definition problem (route result : bytes) (status : Z) (eventType : bytes) : prog HttpE unit :=
  let! _ := @call HttpE (HSetHeader (lit "Content-Type") (lit "application/problem+json")) in
  let! _ := @call HttpE (HWriteHeader status) in
  let! _ := @call HttpE (HWrite (problemBody status result)) in
  record route result status eventType.

Definition MethodGet : bytes := lit "GET".
Definition MethodPost : bytes := lit "POST".

(** [Handler.handleHealth]. *)
Definition handleHealth (r : HttpRequest) : prog HttpE unit :=
  if hr_Method r <>?? MethodGet then
    let! _ := @call HttpE (HSetHeader (lit "Allow") MethodGet) in
    problem (lit "health") (lit "method_not_allowed") 405 []
  else
    let! _ := @call HttpE (HSetHeader (lit "Content-Type") (lit "text/plain; charset=utf-8")) in
    let! _ := @call HttpE (HWriteHeader 200) in
    let! _ := @call HttpE (HWrite (lit "ok" ++ [x0a])) in
    record (lit "health") (lit "ok") 200 [].

(** [validContentEncoding]. *)
Definition validContentEncoding (values : list bytes) : bool :=
  match values with
  | [] => true
  | [value] => EqualFold value (lit "identity")
  | _ => false
  end.

Section Handler.
(** The iteration orders of maps, [strconv.Quote], [mime.ParseMediaType] (an
    error is [None]), and the dependencies that are nil. *)
Context (range : gmap bytes bytes -> list (bytes * bytes)).
Context (rangeMetrics : gmap metricKey Z -> list (metricKey * Z)).
Context (Quote : bytes -> bytes).
Context (ParseMediaType : bytes -> option (bytes * gmap bytes bytes)).

(** [validContentType]. *)
Definition validContentType (values : list bytes) : bool :=
  match values with
  | [value] =>
      match ParseMediaType value with
      | None => false
      | Some (mediaType, params) =>
          if negb (EqualFold mediaType (lit "application/json")) then false
          else if size params =?? 0%nat then true
          else match params !! lit "charset" with
               | Some charset => (size params =?? 1%nat) && EqualFold charset (lit "utf-8")
               | None => false
               end
      end
  | _ => false
  end.

(** [Handler.handleMetrics]. *)
Definition handleMetrics (r : HttpRequest) : prog HttpE unit :=
  if hr_Method r <>?? MethodGet then
    let! _ := @call HttpE (HSetHeader (lit "Allow") MethodGet) in
    problem (lit "metrics") (lit "method_not_allowed") 405 []
  else
    let! _ := record (lit "metrics") (lit "ok") 200 [] in
    let! _ := @call HttpE (HSetHeader (lit "Content-Type") (lit "text/plain; version=0.0.4; charset=utf-8")) in
    let! _ := @call HttpE (HWriteHeader 200) in
    let! counts := @call HttpE HSnapshot in
    @call HttpE (HWrite (render rangeMetrics Quote counts)).

(** [decodeEvent] of a body; it is total ([decodeEvent_decides]). *)
Definition decodeBody (body : bytes) : result Event :=
  match decodeEvent range body with Some r => r | None => Err errInvalidEvent end.

(** The end of [Handler.handleWebhook]: hand the delivery to the sink. *)
Definition handleDelivery (h : Handler) (delivery : Delivery) : prog HttpE unit :=
  let eventType := Kind (d_Event delivery) in
  if sink_nil h then problem (lit "webhook") (lit "internal_error") 500 eventType
  else
  let! '(acceptance, err) := @call HttpE (HEnqueue CtxReq delivery) in
  if opt_errors_is err ErrSinkUnavailable then
    let! _ := @call HttpE (HSetHeader (lit "Retry-After") (lit "30")) in
    problem (lit "webhook") (lit "unavailable") 503 eventType
  else if is_err err || (a_ReceiptID acceptance =?? []) then
    problem (lit "webhook") (lit "internal_error") 500 eventType
  else
    let! _ := @call HttpE (HSetHeader (lit "Content-Type") (lit "application/json")) in
    let! _ := @call HttpE (HWriteHeader 202) in
    let! _ := @call HttpE (HWrite (acceptedBody acceptance)) in
    record (lit "webhook") (lit "accepted") 202 eventType.

(** [Handler.handleWebhook]. *)
Definition handleWebhook (h : Handler) (r : HttpRequest) (token : bytes) : prog HttpE unit :=
  let webhook result status := problem (lit "webhook") (lit result) status [] in
  if hr_Method r <>?? MethodPost then
    let! _ := @call HttpE (HSetHeader (lit "Allow") MethodPost) in
    webhook "method_not_allowed"%string 405
  else if hr_RawQuery r <>?? [] then webhook "invalid_request"%string 400
  else if negb (validContentEncoding (Values r (lit "Content-Encoding"))) ||
          negb (validContentType (Values r (lit "Content-Type")))
  then webhook "unsupported_media_type"%string 415
  else
  match Values r idempotencyKeyHeader with
  | [identity] =>
      if negb (validCanonicalUUID identity) then webhook "invalid_request"%string 400
      else if MaxBodyBytes <? hr_ContentLength r then webhook "request_too_large"%string 413
      else
      let! '(body, err) := @call HttpE (HReadBody (MaxBodyBytes + 1)) in
      if is_err err then webhook "invalid_request"%string 400
      else if MaxBodyBytes <? Z.of_nat (length body) then webhook "request_too_large"%string 413
      else
      match decodeBody body with
      | Err e =>
          if errors_is e errUnsupportedEvent then webhook "unsupported_event_type"%string 422
          else webhook "invalid_request"%string 400
      | Ok event => handleDelivery h (mkDelivery token identity event)
      end
  | _ => webhook "invalid_request"%string 400
  end.

(** [Handler.ServeHTTP]. *)
Definition ServeHTTP (h : Handler) (r : HttpRequest) : prog HttpE unit :=
  if hr_Path r =?? lit "/healthz" then handleHealth r
  else if hr_Path r =?? lit "/metrics" then handleMetrics r
  else
  match webhookToken (hr_Path r) with
  | None => problem (lit "not_found") (lit "not_found") 404 []
  | Some token => handleWebhook h r token
  end.

(** [UnavailableSink.Enqueue], the sink of the runtime without persistence. *)
Definition UnavailableSink_Enqueue (ctx : Ctx) (delivery : Delivery) : Acceptance * option error :=
  (mkAcceptance [] false, Some (Sentinel ErrSinkUnavailable)).
End Handler.
