(* ===== verification/HandlerSpec.v ===== *)
(** Properties of the HTTP handler: every request is answered, counted and
    logged exactly once, with one of thirteen outcomes; only a valid delivery
    reaches the sink; the reply is decided by the first check that fails. *)

From stdpp Require Import gmap.
From S2P Require Import Prelude Effects GoErrors Encoding Uuid Events Canonical.
From S2P Require Import Json Decode DecodeWalk DecodeSpec DecodeRoundTrip EventLimits Metrics Handler.

(** * One reply per request *)

(** The outcomes: route, result and status. *)
Definition outcomes : list (bytes * bytes * Z) :=
  [(lit "not_found", lit "not_found", 404);
   (lit "health", lit "ok", 200); (lit "health", lit "method_not_allowed", 405);
   (lit "metrics", lit "ok", 200); (lit "metrics", lit "method_not_allowed", 405);
   (lit "webhook", lit "method_not_allowed", 405); (lit "webhook", lit "invalid_request", 400);
   (lit "webhook", lit "unsupported_media_type", 415); (lit "webhook", lit "request_too_large", 413);
   (lit "webhook", lit "unsupported_event_type", 422); (lit "webhook", lit "internal_error", 500);
   (lit "webhook", lit "unavailable", 503); (lit "webhook", lit "accepted", 202)].

(** What has been done for a request: the status line, the body, the counter
    and the log record. *)
Record reply_state : Type := mkReply {
  rs_status : option Z;
  rs_body : bool;
  rs_counted : option metricKey;
  rs_logged : option (metricKey * Z)
}.

Definition reply_start : reply_state := mkReply None false None None.

(** The protocol: headers before the status line, one status line, one body
    after it; one counter; one log record, of what was counted; the body of the
    request is read and the sink called before anything is written or counted. *)
Definition reply_step (q : reply_state) (e : event HttpE) : option reply_state :=
  match projT1 e with
  | HSetHeader _ _ => match rs_status q with None => Some q | Some _ => None end
  | HWriteHeader status =>
      match rs_status q with
      | None => Some (mkReply (Some status) (rs_body q) (rs_counted q) (rs_logged q))
      | Some _ => None
      end
  | HWrite _ =>
      match rs_status q, rs_body q with
      | Some _, false => Some (mkReply (rs_status q) true (rs_counted q) (rs_logged q))
      | _, _ => None
      end
  | HReadBody _ | HEnqueue _ _ =>
      match rs_status q, rs_counted q with None, None => Some q | _, _ => None end
  | HIncrement route result =>
      match rs_counted q with
      | None => Some (mkReply (rs_status q) (rs_body q) (Some (mkMetricKey route result)) (rs_logged q))
      | Some _ => None
      end
  | HSnapshot => Some q
  | HLog route result status _ =>
      match rs_logged q with
      | None =>
          if rs_counted q =?? Some (mkMetricKey route result)
          then Some (mkReply (rs_status q) (rs_body q) (rs_counted q) (Some (mkMetricKey route result, status)))
          else None
      | Some _ => None
      end
  end.

(** A complete reply with one of the outcomes. *)
Definition replied (q : reply_state) : Prop :=
  exists route result status, (route, result, status) ∈ outcomes /\
    q = mkReply (Some status) true (Some (mkMetricKey route result)) (Some (mkMetricKey route result, status)).

Abbreviation hkeeps := (keeps reply_step).

Lemma hkeeps_call {A} q q' (o : http_op) (f : ans HttpE o -> prog HttpE A) post :
  (forall r, reply_step q (@ev HttpE o r) = Some q') -> (forall r, hkeeps q' (f r) post) ->
  hkeeps q (bind (@call HttpE o) f) post.
Proof. intros Hs Hk r. exists q'. split; [apply Hs|apply Hk]. Qed.

Lemma problem_keeps route result status eventType :
  (route, result, status) ∈ outcomes ->
  hkeeps reply_start (problem route result status eventType) (fun _ => replied).
Proof.
  intros Hin. unfold problem, record.
  eapply hkeeps_call; [done|intros _]. eapply hkeeps_call; [done|intros _]. eapply hkeeps_call; [done|intros _].
  eapply hkeeps_call; [done|intros _]. intros r. eexists. split.
  - cbn. by rewrite bool_decide_true.
  - by exists route, result, status.
Qed.

(** A response header, then the rest. *)
Lemma header_keeps {A} name value (p : prog HttpE A) post :
  hkeeps reply_start p post -> hkeeps reply_start (bind (@call HttpE (HSetHeader name value)) (fun _ => p)) post.
Proof. intros H. eapply hkeeps_call; [done|]. by intros _. Qed.

Ltac outcome := apply (bool_decide_eq_true_1 _); vm_compute; reflexivity.
Ltac keeps_problem :=
  cbv zeta;
  repeat lazymatch goal with |- keeps _ _ (bind (call (HSetHeader _ _)) _) _ => apply header_keeps end;
  apply problem_keeps; outcome.

Lemma handleHealth_keeps r : hkeeps reply_start (handleHealth r) (fun _ => replied).
Proof.
  unfold handleHealth. case_bool_decide; cbn [negb]; [|keeps_problem]. unfold record.
  do 4 (eapply hkeeps_call; [done|intros _]). intros x. eexists. split; [cbn; by rewrite bool_decide_true|].
  exists (lit "health"), (lit "ok"), 200. split; [outcome|done].
Qed.

Section Spec.
Context (range : gmap bytes bytes -> list (bytes * bytes)).
Context (rangeMetrics : gmap metricKey Z -> list (metricKey * Z)).
Context (Quote : bytes -> bytes).
Context (ParseMediaType : bytes -> option (bytes * gmap bytes bytes)).

Abbreviation serve := (ServeHTTP range rangeMetrics Quote ParseMediaType).

Lemma handleMetrics_keeps r : hkeeps reply_start (handleMetrics rangeMetrics Quote r) (fun _ => replied).
Proof.
  unfold handleMetrics. case_bool_decide; cbn [negb]; [|keeps_problem]. unfold record. cbn [bind].
  eapply (hkeeps_call _ _ (HIncrement _ _)); [done|intros _].
  eapply (hkeeps_call _ _ (HLog _ _ _ _)); [intros x; cbn; by rewrite bool_decide_true|intros _].
  do 3 (eapply hkeeps_call; [done|intros ?]). intros x. eexists. split; [done|].
  exists (lit "metrics"), (lit "ok"), 200. split; [outcome|done].
Qed.

Lemma handleDelivery_keeps h d : hkeeps reply_start (handleDelivery h d) (fun _ => replied).
Proof.
  unfold handleDelivery. destruct (sink_nil h); [keeps_problem|].
  eapply (hkeeps_call _ reply_start); [done|intros [acceptance err]].
  destruct (opt_errors_is err ErrSinkUnavailable); [keeps_problem|].
  destruct (is_err err || _); [keeps_problem|]. unfold record.
  do 4 (eapply hkeeps_call; [done|intros _]). intros x. eexists. split; [cbn; by rewrite bool_decide_true|].
  exists (lit "webhook"), (lit "accepted"), 202. split; [outcome|done].
Qed.

Lemma handleWebhook_keeps h r token :
  hkeeps reply_start (handleWebhook range ParseMediaType h r token) (fun _ => replied).
Proof.
  unfold handleWebhook. case_bool_decide; cbn [negb]; [|keeps_problem].
  case_bool_decide; cbn [negb]; [|keeps_problem].
  destruct (negb (validContentEncoding _) || _); [keeps_problem|].
  destruct (Values r idempotencyKeyHeader) as [|identity [|? ?]]; [keeps_problem| |keeps_problem].
  destruct (validCanonicalUUID identity); cbn [negb]; [|keeps_problem].
  destruct (MaxBodyBytes <? hr_ContentLength r); [keeps_problem|].
  eapply (hkeeps_call _ reply_start); [done|intros [body err]].
  destruct (is_err err); [keeps_problem|]. destruct (MaxBodyBytes <? _); [keeps_problem|].
  destruct (decodeBody range body) as [event|e]; [apply handleDelivery_keeps|].
  destruct (errors_is e errUnsupportedEvent); keeps_problem.
Qed.

Lemma ServeHTTP_keeps h r : hkeeps reply_start (serve h r) (fun _ => replied).
Proof.
  unfold ServeHTTP. case_bool_decide; [apply handleHealth_keeps|].
  case_bool_decide; [apply handleMetrics_keeps|].
  destruct (webhookToken (hr_Path r)); [apply handleWebhook_keeps|keeps_problem].
Qed.
End Spec.

(** * What a trace shows *)

(** The counters incremented, in order. *)
Definition increments (tr : trace HttpE) : list metricKey :=
  omap (fun e : event HttpE => match projT1 e with
    | HIncrement route result => Some (mkMetricKey route result) | _ => None end) tr.

(** The reply: status lines and bodies written, in order. *)
Definition replies (tr : trace HttpE) : list (Z + bytes) :=
  omap (fun e : event HttpE => match projT1 e with
    | HWriteHeader status => Some (inl status) | HWrite body => Some (inr body) | _ => None end) tr.

(** The deliveries given to the sink, with its answers. *)
Definition deliveries (tr : trace HttpE) : list (Delivery * (Acceptance * option error)) :=
  omap (fun e : event HttpE =>
    match e return option (Delivery * (Acceptance * option error)) with
    | existT (HEnqueue _ d) a => Some (d, a)
    | _ => None
    end) tr.

Lemma increments_cons e tr :
  increments (e :: tr) =
  match projT1 e with
  | HIncrement route result => mkMetricKey route result :: increments tr | _ => increments tr end.
Proof. destruct e as [[] a]; done. Qed.

Lemma replies_cons e tr :
  replies (e :: tr) =
  match projT1 e with
  | HWriteHeader status => inl status :: replies tr | HWrite body => inr body :: replies tr
  | _ => replies tr
  end.
Proof. destruct e as [[] a]; done. Qed.

Lemma reply_increments q tr q' :
  proto_run reply_step q tr = Some q' ->
  match rs_counted q with
  | None => increments tr = option_list (rs_counted q')
  | Some _ => increments tr = [] /\ rs_counted q' = rs_counted q
  end.
Proof.
  revert q. induction tr as [|[o a] tr IH]; intros q; cbn [proto_run].
  { intros [= <-]. by destruct (rs_counted q) eqn:E; rewrite ?E. }
  destruct (reply_step q (existT o a)) as [q1|] eqn:Es; [|done]. intros H%IH.
  unfold reply_step in Es. cbn [projT1] in Es.
  rewrite increments_cons. cbn [projT1].
  destruct q as [st bd ct lg]. cbn [rs_status rs_body rs_counted rs_logged] in *.
  destruct o; repeat case_match; simplify_eq/=; try done.
  destruct H as [-> ->]. done.
Qed.

(** The status line and the body are written in this order, once. *)
Lemma reply_replies q tr q' status :
  proto_run reply_step q tr = Some q' -> rs_status q' = Some status -> rs_body q' = true ->
  match rs_status q, rs_body q with
  | None, false => exists body, replies tr = [inl status; inr body]
  | Some st, false => st = status /\ exists body, replies tr = [inr body]
  | Some st, true => st = status /\ replies tr = []
  | None, true => True
  end.
Proof.
  intros H Hs Hb. revert q H. induction tr as [|[o a] tr IH]; intros q; cbn [proto_run].
  { intros [= ->]. by rewrite Hs, Hb. }
  destruct (reply_step q (existT o a)) as [q1|] eqn:Es; [|done]. intros H%IH.
  unfold reply_step in Es. cbn [projT1] in Es. rewrite replies_cons. cbn [projT1].
  destruct q as [st bd ct lg]. cbn [rs_status rs_body rs_counted rs_logged] in *.
  destruct o; repeat case_match; simplify_eq/=; try done.
  - destruct H as (-> & body & ->). eauto.
  - destruct H as (-> & ->). eauto.
Qed.

Section Runs.
Context (range : gmap bytes bytes -> list (bytes * bytes)).
Context (rangeMetrics : gmap metricKey Z -> list (metricKey * Z)).
Context (Quote : bytes -> bytes).
Context (ParseMediaType : bytes -> option (bytes * gmap bytes bytes)).

Abbreviation serve := (ServeHTTP range rangeMetrics Quote ParseMediaType).

Lemma serve_replied h r tr : runs (serve h r) tr tt ->
  exists q, proto_run reply_step reply_start tr = Some q /\ replied q.
Proof. intros H. by apply (keeps_runs reply_step reply_start (serve h r) (fun _ => replied)) with (a := tt); [apply ServeHTTP_keeps|]. Qed.

Lemma serve_increments h r tr : runs (serve h r) tr tt ->
  exists route result status, (route, result, status) ∈ outcomes /\ increments tr = [mkMetricKey route result].
Proof.
  intros (q & Hq & route & result & status & Hin & ->)%serve_replied.
  apply reply_increments in Hq. cbn in Hq. eauto.
Qed.

(** ** The checks of a webhook request *)

(** A request that passes every check before its body is read. *)
Definition webhook_ready (r : HttpRequest) (token identity : bytes) : Prop :=
  hr_Method r = lit "POST" /\ hr_Path r = webhookPathPrefix ++ token /\ token <> [] /\ (x2f ∉ token) /\
  hr_RawQuery r = [] /\ Values r idempotencyKeyHeader = [identity] /\ uuidPattern identity = true /\
  validContentEncoding (Values r (lit "Content-Encoding")) = true /\
  validContentType ParseMediaType (Values r (lit "Content-Type")) = true /\
  hr_ContentLength r <= MaxBodyBytes.

Lemma webhookToken_Some path token :
  webhookToken path = Some token <-> path = webhookPathPrefix ++ token /\ token <> [] /\ (x2f ∉ token).
Proof.
  unfold webhookToken, cutPrefix, has_prefix. case_bool_decide as H.
  - destruct H as [k ->]. rewrite drop_app_length.
    destruct ((k =?? []) || bool_decide (x2f ∈ k)) eqn:E.
    + split; [done|]. intros [->%app_inv_head [Hne Hs]].
      apply orb_true_iff in E as [E|E]; by apply bool_decide_eq_true in E.
    + apply orb_false_iff in E as [E1%bool_decide_eq_false E2%bool_decide_eq_false].
      split; [by intros [= <-]|]. by intros [->%app_inv_head _].
  - split; [done|]. intros [-> _]. destruct H. by eexists.
Qed.

(** The first check that fails decides the code and the status. *)
Fixpoint firstFailing (checks : list (bool * (string * Z))) : option (bytes * Z) :=
  match checks with
  | [] => None
  | (true, _) :: checks => firstFailing checks
  | (false, (code, status)) :: _ => Some (lit code, status)
  end.

(** The checks before the body, in order. *)
Definition requestChecks (r : HttpRequest) : list (bool * (string * Z)) :=
  [(hr_Method r =?? lit "POST", ("method_not_allowed"%string, 405));
   (hr_RawQuery r =?? [], ("invalid_request"%string, 400));
   (validContentEncoding (Values r (lit "Content-Encoding")) &&
    validContentType ParseMediaType (Values r (lit "Content-Type")), ("unsupported_media_type"%string, 415));
   (match Values r idempotencyKeyHeader with [identity] => uuidPattern identity | _ => false end,
    ("invalid_request"%string, 400));
   (hr_ContentLength r <=? MaxBodyBytes, ("request_too_large"%string, 413))].

(** The checks of the body that was read. *)
Definition bodyChecks (read : bytes * option error) : list (bool * (string * Z)) :=
  [(negb (is_err read.2), ("invalid_request"%string, 400));
   (Z.of_nat (length read.1) <=? MaxBodyBytes, ("request_too_large"%string, 413));
   (match decodeRef read.1 with Err e => negb (errors_is e errUnsupportedEvent) | Ok _ => true end,
    ("unsupported_event_type"%string, 422));
   (is_ok (decodeRef read.1), ("invalid_request"%string, 400))].

(** The checks of the answer of the sink. *)
Definition sinkChecks (answer : Acceptance * option error) : list (bool * (string * Z)) :=
  [(negb (opt_errors_is answer.2 ErrSinkUnavailable), ("unavailable"%string, 503));
   (negb (is_err answer.2), ("internal_error"%string, 500));
   (a_ReceiptID answer.1 <>?? [], ("internal_error"%string, 500))].

Definition rejected (f : bytes * Z) : list (Z + bytes) := [inl f.2; inr (problemBody f.2 f.1)].

(** What the webhook route replies, given what was read and what the sink
    answered, and whether the sink was called. *)
Definition webhookReply (h : Handler) (r : HttpRequest) (read : bytes * option error)
    (answer : Acceptance * option error) : list (Z + bytes) * bool :=
  match firstFailing (requestChecks r) with
  | Some f => (rejected f, false)
  | None =>
    match firstFailing (bodyChecks read) with
    | Some f => (rejected f, false)
    | None =>
      if sink_nil h then (rejected (lit "internal_error", 500), false)
      else match firstFailing (sinkChecks answer) with
           | Some f => (rejected f, true)
           | None => ([inl 202; inr (acceptedBody answer.1)], true)
           end
    end
  end.

Lemma runs_header {A} name value (p : prog HttpE A) tr a :
  runs (bind (@call HttpE (HSetHeader name value)) (fun _ => p)) tr a ->
  exists tr', tr = @ev HttpE (HSetHeader name value) tt :: tr' /\ runs p tr' a.
Proof. intros ([] & tr' & -> & H). eauto. Qed.

(** The trace of a problem response. *)
Lemma runs_problem route result status eventType tr :
  runs (problem route result status eventType) tr tt ->
  replies tr = rejected (result, status) /\ deliveries tr = [] /\
  (forall l a, @ev HttpE (HReadBody l) a ∉ tr).
Proof.
  unfold problem, record. intros H. repeat runs_step. destruct H as (r3 & tr4 & -> & -> & _). subst.
  split_and!; [done|done|]. intros l a Hin.
  repeat (apply elem_of_cons in Hin as [E|Hin]; [discriminate (f_equal (@projT1 _ _) E)|]). by apply elem_of_nil in Hin.
Qed.

(** The replies and deliveries of a trace after a call. *)
Definition shows (tr : trace HttpE) (x : list (Z + bytes) * list (Delivery * (Acceptance * option error))) : Prop :=
  replies tr = x.1 /\ deliveries tr = x.2.

Lemma shows_problem route result status eventType tr :
  runs (problem route result status eventType) tr tt -> shows tr (rejected (result, status), []).
Proof. by intros (? & ? & _)%runs_problem. Qed.

Lemma runs_handleDelivery h d tr :
  runs (handleDelivery h d) tr tt ->
  if sink_nil h then shows tr (rejected (lit "internal_error", 500), [])
  else exists answer, shows tr
    (match firstFailing (sinkChecks answer) with
     | Some f => rejected f | None => [inl 202; inr (acceptedBody answer.1)] end, [(d, answer)]).
Proof.
  unfold handleDelivery. destruct (sink_nil h); [apply shows_problem|].
  intros ([acceptance err] & tr' & -> & H). cbn [bind] in H. exists (acceptance, err).
  enough (shows tr' (match firstFailing (sinkChecks (acceptance, err)) with
     | Some f => rejected f | None => [inl 202; inr (acceptedBody acceptance)] end, [])) as [H1 H2].
  { split; [exact H1|]. cbn. f_equal. exact H2. }
  cbn [firstFailing sinkChecks fst snd].
  destruct (opt_errors_is err ErrSinkUnavailable); cbn [negb].
  { apply runs_header in H as (tr2 & -> & H). apply shows_problem in H. exact H. }
  destruct (is_err err); cbn [negb orb] in *; [by apply shows_problem in H|].
  destruct (a_ReceiptID acceptance =?? []); cbn [negb]; [by apply shows_problem in H|].
  unfold record in H. repeat runs_step. destruct H as (r3 & tr4 & -> & -> & _). subst. done.
Qed.

(** A run of the webhook route shows the reply its checks decide, for the body
    that was read and the answer of the sink. *)
Definition webhook_shows (h : Handler) (r : HttpRequest) (token : bytes) (tr : trace HttpE)
    (read : bytes * option error) (answer : Acceptance * option error) : Prop :=
  replies tr = (webhookReply h r read answer).1 /\
  (firstFailing (requestChecks r) = None -> @ev HttpE (HReadBody (MaxBodyBytes + 1)) read ∈ tr) /\
  if (webhookReply h r read answer).2 then
    exists identity event, Values r idempotencyKeyHeader = [identity] /\ uuidPattern identity = true /\
      is_err read.2 = false /\ Z.of_nat (length read.1) <= MaxBodyBytes /\ decodeRef read.1 = Ok event /\
      deliveries tr = [(mkDelivery token identity event, answer)]
  else deliveries tr = [].

(** A rejection before the body is read. *)
Lemma early_reply h r token tr f :
  shows tr (rejected f, []) -> firstFailing (requestChecks r) = Some f ->
  exists read answer, webhook_shows h r token tr read answer.
Proof.
  intros [H1 H2] Hf. exists ([], None), (mkAcceptance [] false, None).
  unfold webhook_shows, webhookReply. by rewrite Hf.
Qed.

(** A rejection of the body. *)
Lemma body_reply h r token tr f read :
  firstFailing (requestChecks r) = None ->
  shows tr (rejected f, []) -> firstFailing (bodyChecks read) = Some f ->
  exists read' answer,
    webhook_shows h r token (@ev HttpE (HReadBody (MaxBodyBytes + 1)) read :: tr) read' answer.
Proof.
  intros Hr [H1 H2] Hf. exists read, (mkAcceptance [] false, None).
  unfold webhook_shows, webhookReply. rewrite Hr, Hf.
  split_and!; [exact H1|intros _; apply list_elem_of_here|exact H2].
Qed.

Lemma decodeBody_ref body : (forall m, range m ≡ₚ map_to_list m) -> decodeBody range body = decodeRef body.
Proof. intros Hr. unfold decodeBody. by rewrite decodeEvent_ref. Qed.

Lemma runs_handleWebhook h r token tr :
  (forall m, range m ≡ₚ map_to_list m) ->
  runs (handleWebhook range ParseMediaType h r token) tr tt ->
  exists read answer, webhook_shows h r token tr read answer.
Proof.
  intros Hr H. unfold handleWebhook in H. cbv zeta in H. change MethodPost with (lit "POST") in H.
  destruct (hr_Method r =?? lit "POST") eqn:E1; cbn [negb] in H.
  2:{ apply runs_header in H as (tr' & -> & H). apply shows_problem in H.
      eapply early_reply; [exact H|]. unfold requestChecks. by rewrite E1. }
  destruct (hr_RawQuery r =?? []) eqn:E2; cbn [negb] in H.
  2:{ apply shows_problem in H. eapply early_reply; [exact H|]. unfold requestChecks. by rewrite E1, E2. }
  rewrite <- negb_andb in H. destruct (validContentEncoding _ && _) eqn:E3; cbn [negb] in H.
  2:{ apply shows_problem in H. eapply early_reply; [exact H|]. unfold requestChecks. by rewrite E1, E2, E3. }
  assert (match Values r idempotencyKeyHeader with [_] => False | _ => True end ->
    shows tr (rejected (lit "invalid_request", 400), []) ->
    exists read answer, webhook_shows h r token tr read answer) as Hid.
  { intros Hv Hs. eapply early_reply; [exact Hs|]. unfold requestChecks. rewrite E1, E2, E3.
    by destruct (Values r idempotencyKeyHeader) as [|identity [|? ?]]. }
  destruct (Values r idempotencyKeyHeader) as [|identity [|? ?]] eqn:Ev;
    [apply shows_problem in H; by apply Hid| |apply shows_problem in H; by apply Hid].
  clear Hid. unfold validCanonicalUUID in H. destruct (uuidPattern identity) eqn:Eu; cbn [negb] in H.
  2:{ apply shows_problem in H. eapply early_reply; [exact H|]. unfold requestChecks. by rewrite E1, E2, E3, Ev, Eu. }
  rewrite Z.ltb_antisym in H. destruct (hr_ContentLength r <=? MaxBodyBytes) eqn:E5; cbn [negb] in H.
  2:{ apply shows_problem in H. eapply early_reply; [exact H|]. unfold requestChecks. by rewrite E1, E2, E3, Ev, Eu, E5. }
  assert (firstFailing (requestChecks r) = None) as Hok.
  { unfold requestChecks. by rewrite E1, E2, E3, Ev, Eu, E5. }
  clear E1 E2 E3 E5. destruct H as ([body err] & tr' & -> & H). cbn [bind] in H.
  rewrite decodeBody_ref in H by done.
  destruct (is_err err) eqn:E6.
  { apply shows_problem in H. eapply body_reply; [done|exact H|]. unfold bodyChecks. cbn [fst snd]. by rewrite E6. }
  rewrite Z.ltb_antisym in H. destruct (Z.of_nat (length body) <=? MaxBodyBytes) eqn:E7; cbn [negb] in H.
  2:{ apply shows_problem in H. eapply body_reply; [done|exact H|]. unfold bodyChecks. cbn [fst snd]. by rewrite E6, E7. }
  destruct (decodeRef body) as [event|e] eqn:E8.
  2:{ destruct (errors_is e errUnsupportedEvent) eqn:E9; apply shows_problem in H;
        (eapply body_reply; [done|exact H|]); unfold bodyChecks; cbn [fst snd]; by rewrite E6, E7, E8, ?E9. }
  apply runs_handleDelivery in H.
  assert (firstFailing (bodyChecks (body, err)) = None) as Hbody.
  { unfold bodyChecks. cbn [fst snd]. by rewrite E6, E7, E8. }
  exists (body, err). unfold webhook_shows, webhookReply. rewrite Hok, Hbody.
  destruct (sink_nil h).
  { exists (mkAcceptance [] false, None). destruct H as [H1 H2]. split_and!; [exact H1|intros _; apply list_elem_of_here|exact H2]. }
  destruct H as (answer & H1 & H2). exists answer.
  split_and!; [|intros _; apply list_elem_of_here|].
  - etransitivity; [exact H1|]. by destruct (firstFailing (sinkChecks answer)).
  - destruct (firstFailing (sinkChecks answer)); cbn [snd];
      (exists identity, event; split_and!; [done|done|done|cbn [fst]; lia|done|exact H2]).
Qed.

Lemma webhookReply_called h r read answer :
  (webhookReply h r read answer).2 = true -> firstFailing (requestChecks r) = None.
Proof. unfold webhookReply. by destruct (firstFailing (requestChecks r)). Qed.

Lemma requestChecks_ready r token identity :
  webhookToken (hr_Path r) = Some token -> Values r idempotencyKeyHeader = [identity] ->
  firstFailing (requestChecks r) = None -> webhook_ready r token identity.
Proof.
  intros (Hp & Hne & Hs)%webhookToken_Some Hv. unfold requestChecks, webhook_ready. rewrite Hv. cbn [firstFailing].
  destruct (bool_decide_reflect (hr_Method r = lit "POST")); [|done].
  destruct (bool_decide_reflect (hr_RawQuery r = [])); [|done].
  destruct (validContentEncoding _ && _) eqn:E3; [|done]. apply andb_prop in E3 as [? ?].
  destruct (uuidPattern identity) eqn:Eu; [|done].
  destruct (Z.leb_spec (hr_ContentLength r) MaxBodyBytes); [|done].
  intros _. repeat (split; [first [assumption|reflexivity]|]). assumption.
Qed.

(** A reply 202 is only written for an accepted delivery. *)
Lemma firstFailing_status checks f : firstFailing checks = Some f -> exists b c, (b, (c, f.2)) ∈ checks.
Proof.
  induction checks as [|[b [c st]] checks IH]; [done|]. cbn [firstFailing]. destruct b.
  - intros (b & c' & H)%IH. exists b, c'. by apply elem_of_cons; right.
  - intros [= <-]. exists false, c. apply list_elem_of_here.
Qed.

Lemma rejected_status checks f :
  firstFailing checks = Some f -> Forall (fun x => x.2.2 <> 202) checks -> inl 202 ∉ rejected f.
Proof.
  intros (b & c & Hin)%firstFailing_status Hf. rewrite Forall_forall in Hf. specialize (Hf _ Hin). cbn in Hf.
  unfold rejected. intros [E|[E|[]%elem_of_nil]%elem_of_cons]%elem_of_cons; congruence.
Qed.

Lemma not_202_requestChecks r : Forall (fun x => x.2.2 <> 202) (requestChecks r).
Proof. unfold requestChecks. repeat apply Forall_cons_2; try apply Forall_nil_2; discriminate. Qed.

Lemma not_202_bodyChecks read : Forall (fun x => x.2.2 <> 202) (bodyChecks read).
Proof. unfold bodyChecks. repeat apply Forall_cons_2; try apply Forall_nil_2; discriminate. Qed.

Lemma not_202_sinkChecks answer : Forall (fun x => x.2.2 <> 202) (sinkChecks answer).
Proof. unfold sinkChecks. repeat apply Forall_cons_2; try apply Forall_nil_2; discriminate. Qed.

Lemma webhookReply_accepted h r read answer :
  inl 202 ∈ (webhookReply h r read answer).1 <->
  (webhookReply h r read answer).2 = true /\ firstFailing (sinkChecks answer) = None.
Proof.
  unfold webhookReply.
  destruct (firstFailing (requestChecks r)) as [f|] eqn:E1.
  { split; [|by intros []]. intros H. exfalso. revert H. apply (rejected_status _ _ E1), not_202_requestChecks. }
  destruct (firstFailing (bodyChecks read)) as [f|] eqn:E2.
  { split; [|by intros []]. intros H. exfalso. revert H. apply (rejected_status _ _ E2), not_202_bodyChecks. }
  destruct (sink_nil h).
  { split; [|by intros []]. intros [E|[E|[]%elem_of_nil]%elem_of_cons]%elem_of_cons; done. }
  destruct (firstFailing (sinkChecks answer)) as [f|] eqn:E3.
  { split; [|by intros []]. intros H. exfalso. revert H. apply (rejected_status _ _ E3), not_202_sinkChecks. }
  split; [done|]. intros _. apply list_elem_of_here.
Qed.

Lemma sinkChecks_success answer :
  firstFailing (sinkChecks answer) = None <-> answer.2 = None /\ a_ReceiptID answer.1 <> [].
Proof.
  destruct answer as [acc [e|]]; cbn.
  - split; [|by intros []]. by destruct (errors_is e ErrSinkUnavailable).
  - case_bool_decide as E; cbn; split; [done|by intros []| |done]. by split.
Qed.

(** The other routes neither call the sink nor accept anything. *)
Lemma runs_other h r tr :
  webhookToken (hr_Path r) = None \/ hr_Path r = lit "/healthz" \/ hr_Path r = lit "/metrics" ->
  runs (serve h r) tr tt -> deliveries tr = [] /\ inl 202 ∉ replies tr.
Proof.
  intros Hp H. unfold ServeHTTP in H.
  assert (forall route result status tr, runs (problem route result status []) tr tt -> status <> 202 ->
    deliveries tr = [] /\ inl 202 ∉ replies tr) as Hprob.
  { intros route result status tr' [H1 H2]%shows_problem Hs. cbn [fst snd] in *. rewrite H1. split; [done|].
    intros [E|[E|[]%elem_of_nil]%elem_of_cons]%elem_of_cons; [|done]. cbn in E. congruence. }
  assert (forall name value route result status tr,
    runs (bind (@call HttpE (HSetHeader name value)) (fun _ => problem route result status [])) tr tt -> status <> 202 ->
    deliveries tr = [] /\ inl 202 ∉ replies tr) as Hprob'.
  { intros name value route result status tr' (tr2 & -> & H2)%runs_header Hs.
    destruct (Hprob _ _ _ _ H2 Hs) as [H3 H4]. split; [exact H3|exact H4]. }
  case_bool_decide as H1.
  { unfold handleHealth in H. case_bool_decide; cbn [negb] in H; [|by eapply Hprob'].
    unfold record in H. repeat runs_step. destruct H as (x & tr4 & -> & -> & _). subst. split; [done|].
    intros [E|[E|[]%elem_of_nil]%elem_of_cons]%elem_of_cons; done. }
  case_bool_decide as H2.
  { unfold handleMetrics in H. case_bool_decide; cbn [negb] in H; [|by eapply Hprob'].
    set (g := render rangeMetrics Quote) in H. clearbody g.
    destruct H as (x1 & t1 & -> & x2 & t2 & -> & x3 & t3 & -> & x4 & t4 & -> & x5 & t5 & -> & x6 & t6 & -> & -> & _).
    split; [reflexivity|].
    rewrite !replies_cons. cbn [projT1 ev]. apply not_elem_of_cons; split; [discriminate|].
    apply not_elem_of_cons; split; [discriminate|apply not_elem_of_nil]. }
  destruct Hp as [Hp|[Hp|Hp]]; [|done..]. rewrite Hp in H. by eapply Hprob.
Qed.

Lemma serve_webhook h r token :
  webhookToken (hr_Path r) = Some token -> serve h r = handleWebhook range ParseMediaType h r token.
Proof.
  intros Ht. unfold ServeHTTP. rewrite Ht. apply webhookToken_Some in Ht as [-> _].
  rewrite !bool_decide_false; [done|..]; intros E; by vm_compute in E.
Qed.
End Runs.

(** * Log records *)

(** The log records written, in order. *)
Definition logged (tr : trace HttpE) : list (metricKey * Z) :=
  omap (fun e : event HttpE => match projT1 e with
    | HLog route result status _ => Some (mkMetricKey route result, status) | _ => None end) tr.

Lemma logged_cons e tr :
  logged (e :: tr) =
  match projT1 e with
  | HLog route result status _ => (mkMetricKey route result, status) :: logged tr | _ => logged tr end.
Proof. destruct e as [[] a]; done. Qed.

Lemma reply_logged q tr q' :
  proto_run reply_step q tr = Some q' ->
  match rs_logged q with
  | None => logged tr = option_list (rs_logged q')
  | Some _ => logged tr = [] /\ rs_logged q' = rs_logged q
  end.
Proof.
  revert q. induction tr as [|[o a] tr IH]; intros q; cbn [proto_run].
  { intros [= <-]. by destruct (rs_logged q) eqn:E; rewrite ?E. }
  destruct (reply_step q (existT o a)) as [q1|] eqn:Es; [|done]. intros H%IH.
  unfold reply_step in Es. cbn [projT1] in Es.
  rewrite logged_cons. cbn [projT1].
  destruct q as [st bd ct lg]. cbn [rs_status rs_body rs_counted rs_logged] in *.
  destruct o; repeat case_match; simplify_eq/=; try done.
  destruct H as [-> ->]. done.
Qed.

(** * Claims *)

Section Claims.
Context (range : gmap bytes bytes -> list (bytes * bytes)).
Context (rangeMetrics : gmap metricKey Z -> list (metricKey * Z)).
Context (Quote : bytes -> bytes).
Context (ParseMediaType : bytes -> option (bytes * gmap bytes bytes)).

(** (C18) Every request is answered exactly once: whatever the request, the
    body, the sink and the counters answer, one status line is written and then
    one body, one counter is incremented and one log record with the same
    labels and status is written, with one of the thirteen outcomes; headers
    are only set before the status line, and nothing is read or handed to the
    sink once something was written. *)
Theorem handler_replies_once (h : Handler) (r : HttpRequest) (tr : trace HttpE)
    (Hrun : runs (ServeHTTP range rangeMetrics Quote ParseMediaType h r) tr tt) :
  (exists q, proto_run reply_step reply_start tr = Some q) /\
  exists route result status body,
    (route, result, status) ∈ outcomes /\
    replies tr = [inl status; inr body] /\
    increments tr = [mkMetricKey route result] /\
    logged tr = [(mkMetricKey route result, status)].
Proof.
  apply serve_replied in Hrun as (q & Hq & route & result & status & Hin & ->).
  split; [by eexists|].
  pose proof (reply_replies _ _ _ status Hq eq_refl eq_refl) as (body & Hb).
  pose proof (reply_increments _ _ _ Hq) as Hi. pose proof (reply_logged _ _ _ Hq) as Hl.
  exists route, result, status, body. done.
Qed.

(** (C15) Only valid deliveries reach the sink, and 202 means accepted. Whatever
    the environment answers, a request hands at most one delivery to the sink,
    and then: it is a POST without query and with acceptable media type and
    encoding on the webhook path of that token, its single identity header is
    the canonical UUID handed over, the body was read completely and has at
    most 262144 bytes, and the event is the one the body decodes to, within
    its limits. The reply is 202 exactly if the sink answered without an error
    and with a receipt. *)
Theorem handler_enqueues_valid (h : Handler) (r : HttpRequest) (tr : trace HttpE)
    (Hrange : forall m, range m ≡ₚ map_to_list m)
    (Hrun : runs (ServeHTTP range rangeMetrics Quote ParseMediaType h r) tr tt) :
  (length (deliveries tr) <= 1)%nat /\
  (forall d answer, (d, answer) ∈ deliveries tr ->
    webhook_ready ParseMediaType r (d_Token d) (d_Identity d) /\
    exists body, @ev HttpE (HReadBody (MaxBodyBytes + 1)) (body, None) ∈ tr /\
      Z.of_nat (length body) <= MaxBodyBytes /\
      decodeEvent range body = Some (Ok (d_Event d)) /\ event_limits (d_Event d)) /\
  (inl 202 ∈ replies tr <->
    exists d receipt duplicate, deliveries tr = [(d, (mkAcceptance receipt duplicate, None))] /\ receipt <> []).
Proof.
  destruct (webhookToken (hr_Path r)) as [token|] eqn:Et.
  2:{ destruct (runs_other range rangeMetrics Quote ParseMediaType h r tr) as [Hd H202]; [by left|done|].
      rewrite Hd. split_and!; [cbn; lia|by intros ?? []%elem_of_nil|]. split; [done|]. by intros (? & ? & ? & [=] & _). }
  rewrite (serve_webhook range rangeMetrics Quote ParseMediaType h r token) in Hrun by done.
  apply runs_handleWebhook in Hrun as ([body err] & answer & Hreply & Hread & Hd); [|done].
  rewrite Hreply, webhookReply_accepted, sinkChecks_success.
  destruct (webhookReply ParseMediaType h r (body, err) answer).2 eqn:Ec.
  2:{ rewrite Hd. split_and!; [cbn; lia|by intros ?? []%elem_of_nil|]. split; [by intros []|]. by intros (? & ? & ? & [=] & _). }
  destruct Hd as (identity & event & Hv & Hu & He & Hlen & Hdec & ->). cbn [fst snd] in *.
  split_and!; [cbn; lia| |].
  - intros d answer' [= -> ->]%list_elem_of_singleton. cbn [d_Token d_Identity d_Event].
    assert (firstFailing (requestChecks ParseMediaType r) = None) as Hok by by eapply webhookReply_called.
    split; [by apply requestChecks_ready|]. exists body.
    destruct err; [done|]. split_and!; [by apply Hread|done| |by eapply eventWithinLimits_limits, decodeRef_within_limits].
    by rewrite decodeEvent_ref, Hdec.
  - destruct answer as [[receipt duplicate] err']. cbn [fst snd a_ReceiptID]. split.
    + intros (_ & -> & Hne). by exists (mkDelivery token identity event), receipt, duplicate.
    + intros (d & rc & dup & [= _ -> _ ->] & Hne). split; [done|]. by split.
Qed.

(** (C32) What the webhook route replies: for a path with a token, the status
    and the code are those of the first check that fails, in the order method,
    query, media type, identity, announced length, reading, length, event,
    sink present, sink available, sink answer; if none fails the reply is 202
    with the receipt. *)
Theorem handler_decides (h : Handler) (r : HttpRequest) (token : bytes) (tr : trace HttpE)
    (Hrange : forall m, range m ≡ₚ map_to_list m)
    (Htoken : webhookToken (hr_Path r) = Some token)
    (Hrun : runs (ServeHTTP range rangeMetrics Quote ParseMediaType h r) tr tt) :
  exists read answer,
    replies tr = (webhookReply ParseMediaType h r read answer).1 /\
    (firstFailing (requestChecks ParseMediaType r) = None ->
      @ev HttpE (HReadBody (MaxBodyBytes + 1)) read ∈ tr) /\
    match deliveries tr with
    | [] => (webhookReply ParseMediaType h r read answer).2 = false
    | [(d, answer')] =>
        (webhookReply ParseMediaType h r read answer).2 = true /\ answer' = answer /\
        d_Token d = token /\ Values r idempotencyKeyHeader = [d_Identity d] /\ decodeRef read.1 = Ok (d_Event d)
    | _ => False
    end.
Proof.
  rewrite (serve_webhook range rangeMetrics Quote ParseMediaType h r token) in Hrun by done.
  apply runs_handleWebhook in Hrun as (read & answer & Hreply & Hread & Hd); [|done].
  exists read, answer. split; [exact Hreply|]. split; [exact Hread|].
  destruct (webhookReply ParseMediaType h r read answer).2.
  - by destruct Hd as (identity & event & Hv & _ & _ & _ & Hdec & ->).
  - by rewrite Hd.
Qed.

(** The label pairs of the counters. *)
Definition labels : list metricKey := map (fun o => mkMetricKey o.1.1 o.1.2) outcomes.

(** (C35) The counters count the requests. After any requests ran, their
    increments interleaved in any order [l], there were as many increments as
    requests, the counter of a label pair is the number of requests that
    recorded it modulo 2^64, and only the thirteen label pairs have a counter,
    so a client cannot make the exposition grow. *)
Theorem metrics_count_requests (reqs : list (Handler * HttpRequest * trace HttpE)) (l : list metricKey)
    (Hruns : Forall (fun x => runs (ServeHTTP range rangeMetrics Quote ParseMediaType x.1.1 x.1.2) x.2 tt) reqs)
    (Hl : l ≡ₚ concat (map (fun x => increments x.2) reqs)) :
  length l = length reqs /\
  (forall key, default 0 (rm_counts (recorded l) !! key) =
    Z.of_nat (length (filter (fun x => increments x.2 = [key]) reqs)) mod 2 ^ 64) /\
  (forall key, is_Some (rm_counts (recorded l) !! key) -> key ∈ labels).
Proof.
  assert (forall key, occurrences key l = length (filter (fun x => increments x.2 = [key]) reqs)) as Hocc.
  { intros key. unfold occurrences. rewrite Hl. clear l Hl.
    induction Hruns as [|x reqs Hx _ IH]; [done|].
    apply serve_increments in Hx as (route & result & status & _ & E).
    cbn [map concat]. rewrite filter_app, length_app, IH, E.
    destruct (decide (mkMetricKey route result = key)) as [Hk|Hk].
    - rewrite !filter_cons_True by congruence. done.
    - rewrite !filter_cons_False by congruence. done. }
  split_and!.
  - rewrite Hl. clear l Hl Hocc. induction Hruns as [|x reqs Hx _ IH]; [done|].
    apply serve_increments in Hx as (route & result & status & _ & E).
    cbn [map concat length]. by rewrite length_app, IH, E.
  - intros key. rewrite recorded_lookup, <- Hocc. case_decide as Hin; [done|].
    assert (filter (fun k => k = key) l = []) as E; [|unfold occurrences; by rewrite E].
    apply elem_of_nil_inv. intros x [-> Hx]%list_elem_of_filter. done.
  - intros key. rewrite recorded_lookup. case_decide as Hin; [|by intros []]. intros _.
    rewrite Hl in Hin. clear l Hl Hocc. induction Hruns as [|x reqs Hx _ IH]; [by apply elem_of_nil in Hin|].
    apply serve_increments in Hx as (route & result & status & Hout & E).
    cbn [map concat] in Hin. rewrite E in Hin. apply elem_of_app in Hin as [->%list_elem_of_singleton|Hin]; [|by apply IH].
    apply list_elem_of_fmap. by exists (route, result, status).
Qed.
End Claims.

(** * A concrete environment *)

(** A media type parser for the types the samples use. *)
Definition sample_media_type (value : bytes) : option (bytes * gmap bytes bytes) :=
  if value =?? lit "application/json; charset=utf-8" then Some (lit "application/json", {[lit "charset" := lit "UTF-8"]})
  else if value =?? lit "application/json" then Some (lit "application/json", ∅)
  else None.

Definition sample_quote (s : bytes) : bytes := [quote] ++ s ++ [quote].

(** A server whose sink answers [answer], reading [body]; it counts. *)
Definition sample_server (body : bytes) (answer : Acceptance * option error)
    (o : http_op) (counts : requestMetrics) : ans HttpE o * requestMetrics :=
  match o return ans HttpE o * requestMetrics with
  | HReadBody limit => ((take (Z.to_nat limit) body, None), counts)
  | HEnqueue _ _ => (answer, counts)
  | HIncrement route result => (tt, increment route result counts)
  | HSnapshot => (counts, counts)
  | _ => (tt, counts)
  end.

Definition sample_identity : bytes := lit "00000000-0000-4000-8000-000000000001".

Definition sample_http (path : string) : HttpRequest :=
  mkHttpRequest (lit "POST") (lit path) []
    {[lit "Content-Type" := [lit "application/json; charset=utf-8"]; idempotencyKeyHeader := [sample_identity]]} (-1).

Definition sample_body : bytes := jlit "{`Type`:`Test`,`AppName`:`On Call`}".

(** The run of a request to the sample server. *)
Definition serve_sample (path : string) (body : bytes) (answer : Acceptance * option error) : trace HttpE :=
  run_trace (E := HttpE) (sample_server body answer)
    (ServeHTTP reverse_range (fun m => map_to_list m) sample_quote sample_media_type (NewHandler false) (sample_http path)) newRequestMetrics.

Lemma serve_sample_runs path body answer :
  runs (ServeHTTP reverse_range (fun m => map_to_list m) sample_quote sample_media_type (NewHandler false) (sample_http path))
    (serve_sample path body answer) tt.
Proof.
  pose proof (run_runs (E := HttpE) (sample_server body answer)
    (ServeHTTP reverse_range (fun m => map_to_list m) sample_quote sample_media_type (NewHandler false) (sample_http path)) newRequestMetrics) as H.
  by destruct (run _ _ _).1.
Qed.

Definition sample_accepted : Acceptance * option error := (mkAcceptance (lit "r-1") false, None).
Definition sample_path : string := "/v1/goalert/contact-method/tok".

Definition sample_delivery : Delivery := mkDelivery (lit "tok") sample_identity (EvTest (mkTestEvent (lit "On Call"))).

Lemma sample_delivered : deliveries (serve_sample sample_path sample_body sample_accepted) = [(sample_delivery, sample_accepted)].
Proof. vm_compute. reflexivity. Qed.

Lemma handler_replies_once_witness :
  exists route result status body, (route, result, status) ∈ outcomes /\
    replies (serve_sample sample_path sample_body sample_accepted) = [inl status; inr body].
Proof.
  destruct (handler_replies_once _ _ _ _ _ _ _ (serve_sample_runs sample_path sample_body sample_accepted))
    as (_ & route & result & status & body & Hin & Hr & _).
  exists route, result, status, body. split; [exact Hin|exact Hr].
Defined.

Lemma handler_enqueues_valid_witness :
  inl 202 ∈ replies (serve_sample sample_path sample_body sample_accepted).
Proof.
  apply (handler_enqueues_valid _ _ _ _ _ _ _ reverse_range_perm
    (serve_sample_runs sample_path sample_body sample_accepted)).
  exists sample_delivery, (lit "r-1"), false. split; [apply sample_delivered|discriminate].
Defined.

(** An unavailable sink: the reply is 503. *)
Lemma handler_decides_witness :
  exists read answer,
    replies (serve_sample sample_path sample_body (UnavailableSink_Enqueue CtxReq sample_delivery)) =
    (webhookReply sample_media_type (NewHandler false) (sample_http sample_path) read answer).1.
Proof.
  destruct (handler_decides reverse_range (fun m => map_to_list m) sample_quote sample_media_type (NewHandler false)
    (sample_http sample_path) (lit "tok") _ reverse_range_perm ltac:(vm_compute; reflexivity)
    (serve_sample_runs sample_path sample_body (UnavailableSink_Enqueue CtxReq sample_delivery)))
    as (read & answer & H & _).
  exists read, answer. exact H.
Defined.

Lemma metrics_count_requests_witness :
  default 0 (rm_counts (recorded
      [mkMetricKey (lit "not_found") (lit "not_found"); mkMetricKey (lit "webhook") (lit "accepted")])
    !! mkMetricKey (lit "webhook") (lit "accepted")) = 1.
Proof.
  exact (proj1 (proj2 (metrics_count_requests reverse_range (fun m => map_to_list m) sample_quote sample_media_type
    [(NewHandler false, sample_http sample_path, serve_sample sample_path sample_body sample_accepted);
     (NewHandler false, sample_http "/", serve_sample "/" [] sample_accepted)]
    [mkMetricKey (lit "not_found") (lit "not_found"); mkMetricKey (lit "webhook") (lit "accepted")]
    ltac:(repeat apply Forall_cons_2; [apply serve_sample_runs|apply serve_sample_runs|apply Forall_nil_2])
    ltac:(etransitivity; [apply perm_swap|vm_compute; reflexivity])))
    (mkMetricKey (lit "webhook") (lit "accepted"))).
Defined.
