(* ===== verification/Durable.v ===== *)
(** Durable acceptance: internal/durable/types.go and internal/durable/store.go.

    The service decides, for one prepared acceptance, between a new receipt,
    the receipt of an equivalent earlier acceptance, and a conflict. Its
    dependencies (receipt generator, repository, digest opener) are external
    calls with arbitrary answers. *)

From S2P Require Import Prelude Effects GoErrors Encoding Uuid.

(** * Values (types.go) *)

Definition ReceiptID := arr 16.
Definition DeliveryIdentity := arr 16.
Definition CanonicalDigest := arr 32.

(** [ParseReceiptID], [ParseDeliveryIdentity]. *)
Definition ParseReceiptID (value : bytes) : result ReceiptID := durable_parseUUID value.
Definition ParseDeliveryIdentity (value : bytes) : result DeliveryIdentity := durable_parseUUID value.

Record ProtectedValue : Type := mkProtectedValue { pv_ciphertext : bytes; pv_nonce : bytes }.

#[export] Instance ProtectedValue_eq_dec : EqDecision ProtectedValue.
Proof. solve_decision. Defined.

Definition zero_protected : ProtectedValue := mkProtectedValue [] [].

(** [NewProtectedValue]. *)
Definition NewProtectedValue (ciphertext nonce : bytes) : result ProtectedValue :=
  if (length ciphertext =?? 0%nat) || (length nonce =?? 0%nat) then Err ErrInvalidAcceptance
  else Ok (mkProtectedValue ciphertext nonce).

(** [ProtectedValue.valid]. *)
Definition protected_valid (v : ProtectedValue) : bool :=
  (0 <? Z.of_nat (length (pv_ciphertext v))) && (0 <? Z.of_nat (length (pv_nonce v))).

Record PreparedAcceptance : Type := mkPreparedAcceptance {
  pa_corePrincipalID : bytes;
  pa_destinationID : bytes;
  pa_deliveryIdentity : DeliveryIdentity;
  pa_formatVersion : Z;
  pa_canonicalEvent : ProtectedValue;
  pa_protectedDigest : ProtectedValue;
  pa_encryptionKeyID : bytes;
  pa_equivalenceDigest : CanonicalDigest
}.

(** [PreparedAcceptance.validate]. *)
Definition validate (a : PreparedAcceptance) : bool :=
  negb ((pa_corePrincipalID a =?? []) || (pa_destinationID a =?? []) ||
        arr_is_zero (pa_deliveryIdentity a) || (pa_formatVersion a <=? 0) ||
        negb (protected_valid (pa_canonicalEvent a)) || negb (protected_valid (pa_protectedDigest a)) ||
        (pa_encryptionKeyID a =?? [])).

(** [NewPreparedAcceptance]. *)
Definition NewPreparedAcceptance (corePrincipalID destinationID : bytes)
    (deliveryIdentity : DeliveryIdentity) (formatVersion : Z)
    (canonicalEvent protectedDigest : ProtectedValue) (encryptionKeyID : bytes)
    (equivalenceDigest : CanonicalDigest) : result PreparedAcceptance :=
  let acceptance := mkPreparedAcceptance corePrincipalID destinationID deliveryIdentity formatVersion
    canonicalEvent protectedDigest encryptionKeyID equivalenceDigest in
  if validate acceptance then Ok acceptance else Err ErrInvalidAcceptance.

(** * Store (store.go) *)

(** [Disposition] is a uint8; 0 is the disposition of the zero [Result]. *)
Definition Disposition := Z.
Definition AcceptedNew : Disposition := 1.
Definition AcceptedDuplicate : Disposition := 2.
Definition IdentityConflict : Disposition := 3.

Record Result : Type := mkResult { r_Disposition : Disposition; r_ReceiptID : ReceiptID }.

Record Candidate : Type := mkCandidate { c_ReceiptID : ReceiptID; c_Acceptance : PreparedAcceptance }.

Record StoredAcceptance : Type := mkStored {
  s_ReceiptID : ReceiptID;
  s_FormatVersion : Z;
  s_ProtectedDigest : ProtectedValue;
  s_EncryptionKeyID : bytes
}.

Record PersistenceResult : Type := mkPersistence { p_Inserted : bool; p_Stored : StoredAcceptance }.

Record DigestOpenRequest : Type := mkDigestOpenRequest {
  do_ProtectedDigest : ProtectedValue;
  do_EncryptionKeyID : bytes;
  do_CorePrincipalID : bytes;
  do_DestinationID : bytes;
  do_DeliveryIdentity : DeliveryIdentity;
  do_FormatVersion : Z
}.

(** [UUIDv4Generator.NewReceiptID], given the outcome of reading 16 random bytes. *)
Definition UUIDv4_NewReceiptID (read : result (arr 16)) : result ReceiptID :=
  match read with
  | Err _ => Err ErrReceiptGeneration
  | Ok receipt => Ok (mk_arr 16 (set_v4_bits (arr_list receipt)))
  end.

(** The interfaces [ReceiptGenerator], [Repository] and [DigestOpener]. *)
Inductive store_op : Type :=
| NewReceiptID
| InsertOrLoad (ctx : Ctx) (candidate : Candidate)
| OpenDigest (ctx : Ctx) (request : DigestOpenRequest).

Definition StoreE : sig := Sig store_op (fun o =>
  match o with
  | NewReceiptID => result ReceiptID
  | InsertOrLoad _ _ => result PersistenceResult
  | OpenDigest _ _ => result CanonicalDigest
  end).

(** [Service]: which dependencies are nil. *)
Record Service : Type := mkService {
  repository_nil : bool;
  opener_nil : bool;
  receipts_nil : bool
}.

(** [digestsEqual]: constant-time comparison. *)
Definition digestsEqual (left right : CanonicalDigest) : bool := left =?? right.

(** The first sentinel of a list that [errors.Is] finds in an error. *)
Fixpoint first_safe (safe : list sentinel) (e : error) : option sentinel :=
  match safe with
  | [] => None
  | s :: safe => if errors_is e s then Some s else first_safe safe e
  end.

(** [classifyRepositoryError]. *)
Definition classifyRepositoryError (e : error) : sentinel :=
  default ErrStoreFailure
    (first_safe [ErrStoreUnavailable; ErrStoreOutcomeUnknown; ErrStoreCanceled; ErrStoreFailure;
                 ErrStoredRecordUnreadable] e).

(** [Service.Accept]; [None] is a nil service. *)
Definition Accept (service : option Service) (ctx : Ctx) (acceptance : PreparedAcceptance)
  : prog StoreE (result Result) :=
  match service with
  | None => Ret (Err ErrStoreFailure)
  | Some service =>
    if repository_nil service || opener_nil service || receipts_nil service
    then Ret (Err ErrStoreFailure)
    else if negb (validate acceptance) then Ret (Err ErrInvalidAcceptance)
    else
      let! r := @call StoreE NewReceiptID in
      match r with
      | Err _ => Ret (Err ErrReceiptGeneration)
      | Ok receipt =>
        if arr_is_zero receipt then Ret (Err ErrReceiptGeneration)
        else
          let! p := @call StoreE (InsertOrLoad ctx (mkCandidate receipt acceptance)) in
          match p with
          | Err e => Ret (Err (classifyRepositoryError e))
          | Ok persisted =>
            if p_Inserted persisted then
              if s_ReceiptID (p_Stored persisted) <>?? receipt then Ret (Err ErrStoreFailure)
              else Ret (Ok (mkResult AcceptedNew receipt))
            else
              let stored := p_Stored persisted in
              if arr_is_zero (s_ReceiptID stored) || (s_FormatVersion stored <=? 0) ||
                 negb (protected_valid (s_ProtectedDigest stored)) || (s_EncryptionKeyID stored =?? [])
              then Ret (Err ErrStoredRecordUnreadable)
              else
                let! d := @call StoreE (OpenDigest ctx (mkDigestOpenRequest
                  (s_ProtectedDigest stored) (s_EncryptionKeyID stored)
                  (pa_corePrincipalID acceptance) (pa_destinationID acceptance)
                  (pa_deliveryIdentity acceptance) (s_FormatVersion stored))) in
                match d with
                | Err _ => Ret (Err ErrStoredRecordUnreadable)
                | Ok storedDigest =>
                  if (s_FormatVersion stored =? pa_formatVersion acceptance) &&
                     digestsEqual storedDigest (pa_equivalenceDigest acceptance)
                  then Ret (Ok (mkResult AcceptedDuplicate (s_ReceiptID stored)))
                  else Ret (Ok (mkResult IdentityConflict (zero_arr 16)))
                end
          end
      end
  end.

(** * Properties *)

Definition service_ready (service : option Service) : Prop :=
  exists s, service = Some s /\ repository_nil s = false /\ opener_nil s = false /\ receipts_nil s = false.

(** A stored row that the service is prepared to compare against. *)
Definition stored_readable (stored : StoredAcceptance) : Prop :=
  s_ReceiptID stored <> zero_arr 16 /\ 0 < s_FormatVersion stored /\
  protected_valid (s_ProtectedDigest stored) = true /\ s_EncryptionKeyID stored <> [].

(** The digest of a stored row is opened under the identity of the incoming
    acceptance and the format version of the row. *)
Definition open_request (stored : StoredAcceptance) (acceptance : PreparedAcceptance) : DigestOpenRequest :=
  mkDigestOpenRequest (s_ProtectedDigest stored) (s_EncryptionKeyID stored)
    (pa_corePrincipalID acceptance) (pa_destinationID acceptance)
    (pa_deliveryIdentity acceptance) (s_FormatVersion stored).

(** What the store promises about one decision: the calls it made, their
    answers, and the result they justify. *)
Inductive decision (ctx : Ctx) (a : PreparedAcceptance) : trace StoreE -> Result -> Prop :=
| decide_new receipt stored :
    receipt <> zero_arr 16 -> s_ReceiptID stored = receipt ->
    decision ctx a
      [@ev StoreE NewReceiptID (Ok receipt);
       @ev StoreE (InsertOrLoad ctx (mkCandidate receipt a)) (Ok (mkPersistence true stored))]
      (mkResult AcceptedNew receipt)
| decide_duplicate receipt stored :
    receipt <> zero_arr 16 -> stored_readable stored ->
    s_FormatVersion stored = pa_formatVersion a ->
    decision ctx a
      [@ev StoreE NewReceiptID (Ok receipt);
       @ev StoreE (InsertOrLoad ctx (mkCandidate receipt a)) (Ok (mkPersistence false stored));
       @ev StoreE (OpenDigest ctx (open_request stored a)) (Ok (pa_equivalenceDigest a))]
      (mkResult AcceptedDuplicate (s_ReceiptID stored))
| decide_conflict receipt stored digest :
    receipt <> zero_arr 16 -> stored_readable stored ->
    (s_FormatVersion stored = pa_formatVersion a -> digest <> pa_equivalenceDigest a) ->
    decision ctx a
      [@ev StoreE NewReceiptID (Ok receipt);
       @ev StoreE (InsertOrLoad ctx (mkCandidate receipt a)) (Ok (mkPersistence false stored));
       @ev StoreE (OpenDigest ctx (open_request stored a)) (Ok digest)]
      (mkResult IdentityConflict (zero_arr 16)).

Lemma service_ready_flags s :
  repository_nil s || opener_nil s || receipts_nil s = false <-> service_ready (Some s).
Proof.
  unfold service_ready. rewrite !orb_false_iff. split.
  - intros [[H1 H2] H3]. eauto.
  - intros (s' & E & H1 & H2 & H3). by simplify_eq.
Qed.

Lemma stored_readable_guard stored :
  arr_is_zero (s_ReceiptID stored) || (s_FormatVersion stored <=? 0) ||
    negb (protected_valid (s_ProtectedDigest stored)) || (s_EncryptionKeyID stored =?? []) = false
  <-> stored_readable stored.
Proof.
  unfold stored_readable.
  rewrite !orb_false_iff, arr_is_zero_false, Z.leb_gt, negb_false_iff, bool_decide_eq_false. tauto.
Qed.

Lemma Accept_runs_decision service ctx a tr res :
  runs (Accept service ctx a) tr (Ok res) ->
  service_ready service /\ validate a = true /\ decision ctx a tr res.
Proof.
  unfold Accept. intros H. destruct service as [s|]; [|by destruct H].
  destruct (_ || receipts_nil s) eqn:Hs; [by destruct H|]. apply service_ready_flags in Hs.
  destruct (validate a) eqn:Hv; simpl in H; [|by destruct H as [_ ?]].
  do 2 (split; [done|]). fold (open_request) in H.
  destruct H as (r & tr1 & -> & H). destruct r as [receipt|]; [|by destruct H].
  destruct (arr_is_zero receipt) eqn:Hz; [by destruct H|]. apply arr_is_zero_false in Hz.
  destruct H as (p & tr2 & -> & H). destruct p as [[ins stored]|]; [|by destruct H].
  cbn [p_Inserted p_Stored] in H. destruct ins.
  - case_bool_decide as Hr; destruct H as [-> H]; simplify_eq/=. by constructor.
  - destruct (_ || _) eqn:Hg; [by destruct H|]. apply stored_readable_guard in Hg.
    destruct H as (d & tr3 & -> & H). destruct d as [digest|]; [|by destruct H].
    destruct (_ && _) eqn:Hc; destruct H as [-> H]; simplify_eq.
    + apply andb_true_iff in Hc as [Hf Hd]. apply Z.eqb_eq in Hf.
      apply bool_decide_eq_true in Hd as ->. by constructor.
    + constructor; [done..|]. intros Hf ->. rewrite Hf, Z.eqb_refl in Hc.
      unfold digestsEqual in Hc. by rewrite bool_decide_eq_true_2 in Hc.
Qed.

Lemma decision_runs_Accept service ctx a tr res :
  service_ready service -> validate a = true -> decision ctx a tr res ->
  runs (Accept service ctx a) tr (Ok res).
Proof.
  intros (s & -> & Hr1 & Hr2 & Hr3) Hv Hd. unfold Accept. rewrite Hr1, Hr2, Hr3, Hv. simpl.
  destruct Hd as [receipt stored Hz Hs|receipt stored Hz Hg Hf|receipt stored digest Hz Hg Hd];
    exists (Ok receipt); eexists; (split; [done|]); rewrite (proj2 (arr_is_zero_false receipt) Hz);
    eexists (Ok _); eexists; (split; [done|]); cbn [p_Inserted p_Stored].
  - rewrite Hs, bool_decide_eq_true_2 by done. done.
  - rewrite (proj2 (stored_readable_guard stored) Hg).
    exists (Ok (pa_equivalenceDigest a)), []. split; [done|].
    rewrite Hf, Z.eqb_refl. unfold digestsEqual. by rewrite bool_decide_eq_true_2.
  - rewrite (proj2 (stored_readable_guard stored) Hg). exists (Ok digest), []. split; [done|].
    unfold digestsEqual. destruct (Z.eqb_spec (s_FormatVersion stored) (pa_formatVersion a)) as [E|E]; [|done].
    rewrite bool_decide_eq_false_2 by auto. done.
Qed.

(** A successful [Service.Accept] is exactly one of the three justified
    decisions: a new acceptance carrying the receipt that was just generated
    and inserted; a duplicate carrying the stored receipt, after the stored
    digest was opened under the identity of the request and found equal at
    the same format version; or a conflict, which carries no receipt, after
    the stored digest or version was found different. The converse holds too:
    each such sequence of answers produces that result. *)
Theorem Accept_decides service ctx a tr res :
  runs (Accept service ctx a) tr (Ok res) <->
  service_ready service /\ validate a = true /\ decision ctx a tr res.
Proof.
  split; [apply Accept_runs_decision|].
  intros (Hs & Hv & Hd). by apply decision_runs_Accept.
Qed.

(** The errors a caller of [Service.Accept] can see. *)
Definition store_errors : list sentinel :=
  [ErrInvalidAcceptance; ErrReceiptGeneration; ErrStoreUnavailable; ErrStoreOutcomeUnknown;
   ErrStoreCanceled; ErrStoreFailure; ErrStoredRecordUnreadable].

Lemma first_safe_elem safe e s : first_safe safe e = Some s -> s ∈ safe.
Proof.
  induction safe as [|x safe IH]; simpl; [done|].
  case_match; intros ?; simplify_eq; [apply list_elem_of_here|by apply list_elem_of_further, IH].
Qed.

Lemma classifyRepositoryError_elem e : classifyRepositoryError e ∈ store_errors.
Proof.
  unfold classifyRepositoryError, store_errors.
  destruct (first_safe _ e) as [s|] eqn:E; simpl; [|in_list].
  apply first_safe_elem, list_elem_of_In in E. apply list_elem_of_In. simpl in *. tauto.
Qed.

Lemma Accept_error_elem service ctx a tr e :
  runs (Accept service ctx a) tr (Err e) -> exists s, e = Sentinel s /\ s ∈ store_errors.
Proof.
  unfold Accept. intros H. runs_steps; simplify_eq; eexists; (split; [done|]);
    first [apply classifyRepositoryError_elem|unfold store_errors; in_list].
Qed.

(** Every failure of [Service.Accept] is one of the package's seven fixed
    sentinels: no error text of the repository, the opener or the receipt
    generator reaches the caller. The store-outcome-unknown error, which tells
    the caller that the row may exist, is returned only if the repository
    reported it for this candidate. *)
Theorem Accept_errors_fixed service ctx a tr e :
  runs (Accept service ctx a) tr (Err e) ->
  (exists s, e = Sentinel s /\ s ∈ store_errors) /\
  (e = Sentinel ErrStoreOutcomeUnknown ->
   exists receipt cause,
     errors_is cause ErrStoreOutcomeUnknown = true /\
     tr = [@ev StoreE NewReceiptID (Ok receipt);
           @ev StoreE (InsertOrLoad ctx (mkCandidate receipt a)) (Err cause)]).
Proof.
  intros H. split; [by eapply Accept_error_elem|]. intros ->. unfold Accept in H.
  runs_steps; simplify_eq. eexists _, _. split; [|done].
  unfold classifyRepositoryError in *.
  match goal with H : ErrStoreOutcomeUnknown = _ |- _ => symmetry in H; simpl in H end.
  repeat case_match; simplify_eq/=; done.
Qed.

Definition sample_acceptance : PreparedAcceptance :=
  mkPreparedAcceptance (lit "core") (lit "dest") (mk_arr 16 [x01]) 1
    (mkProtectedValue [x01] [x02]) (mkProtectedValue [x03] [x04]) (lit "k1") (zero_arr 32).

Definition sample_unknown : trace StoreE :=
  [@ev StoreE NewReceiptID (Ok (mk_arr 16 [x07]));
   @ev StoreE (InsertOrLoad CtxReq (mkCandidate (mk_arr 16 [x07]) sample_acceptance))
     (Err (safeError ErrStoreOutcomeUnknown "commit"))].

Lemma Accept_errors_fixed_witness :
  exists receipt cause,
    errors_is cause ErrStoreOutcomeUnknown = true /\
    sample_unknown =
      [@ev StoreE NewReceiptID (Ok receipt);
       @ev StoreE (InsertOrLoad CtxReq (mkCandidate receipt sample_acceptance)) (Err cause)].
Proof.
  apply (Accept_errors_fixed (Some (mkService false false false)) CtxReq sample_acceptance
    sample_unknown (Sentinel ErrStoreOutcomeUnknown)); [|reflexivity].
  exists (Ok (mk_arr 16 [x07])). eexists. split; [reflexivity|].
  exists (Err (safeError ErrStoreOutcomeUnknown "commit")), []. split; [reflexivity|].
  split; reflexivity.
Defined.

(** * The repository contract *)

(** The delivery identity of an acceptance, the key of the unique constraint. *)
Abbreviation ident := (bytes * bytes * DeliveryIdentity)%type.
Definition ident_of (a : PreparedAcceptance) : ident :=
  (pa_corePrincipalID a, pa_destinationID a, pa_deliveryIdentity a).

(** The table [durable_acceptances]: one candidate per delivery identity. *)
Abbreviation table := (gmap ident Candidate).

(** The columns of a row that a lookup returns. *)
Definition stored_of (c : Candidate) : StoredAcceptance :=
  mkStored (c_ReceiptID c) (pa_formatVersion (c_Acceptance c)) (pa_protectedDigest (c_Acceptance c))
    (pa_encryptionKeyID (c_Acceptance c)).

(** What a [Repository] promises about one call of [InsertOrLoad]: the row was
    absent and is now the candidate; the row was present and is returned; the
    call failed without effect; or it failed, the row was absent and was
    inserted, and the error says that the outcome is unknown. *)
Inductive repo_step (T : table) (c : Candidate) : result PersistenceResult -> table -> Prop :=
| repo_inserted stored :
    T !! ident_of (c_Acceptance c) = None -> s_ReceiptID stored = c_ReceiptID c ->
    repo_step T c (Ok (mkPersistence true stored)) (<[ident_of (c_Acceptance c) := c]> T)
| repo_loaded row :
    T !! ident_of (c_Acceptance c) = Some row ->
    repo_step T c (Ok (mkPersistence false (stored_of row))) T
| repo_failed e : repo_step T c (Err e) T
| repo_unknown e :
    T !! ident_of (c_Acceptance c) = None -> classifyRepositoryError e = ErrStoreOutcomeUnknown ->
    repo_step T c (Err e) (<[ident_of (c_Acceptance c) := c]> T).

Lemma repo_step_mono T c r T' : repo_step T c r T' -> T ⊆ T'.
Proof. destruct 1; try done; by apply insert_subseteq. Qed.
