(* ===== verification/Protection.v ===== *)
(** Payload protection: internal/protection/key.go and internal/protection/service.go.

    The canonical event and its digest are sealed under the active key with
    two fresh nonces and additional data that binds the purpose, the versions,
    the delivery identity, the principal, the destination and the key. The
    cipher is the interface [AEAD]; the key source, the random source and
    [ctx.Err()] are external calls. *)

From S2P Require Import Prelude Effects GoErrors Encoding Sha256 AesGcm Canonical Durable.

Definition PayloadProtectionFormatVersion : Z := 1.
Definition protectionDomainTag : bytes := lit "MS_ONCALL_GATEWAY_PAYLOAD_PROTECTION".
Definition purposeEvent : byte := x01.
Definition purposeDigest : byte := x02.
Definition gcmNonceSize : nat := 12.
Definition aes256KeySize : nat := 32.

(** * Additional authenticated data *)

(** [validateAADString]. *)
Definition validateAADString (value : bytes) : bool :=
  negb (negb (utf8Valid value) || (2 ^ 32 - 1 <? Z.of_nat (length value))).

(** [appendAADString]: a 32-bit big-endian length, then the text. *)
Definition appendAADString (aad value : bytes) : bytes :=
  aad ++ beBytes 4 (Z.of_nat (length value) mod 2 ^ 32) ++ value.

(** [buildAADForVersion]. *)
Definition buildAADForVersion (protectionFormatVersion : Z) (purpose : byte)
    (canonicalFormatVersion : Z) (deliveryIdentity : DeliveryIdentity)
    (corePrincipalID destinationID keyID : bytes) : result bytes :=
  if (protectionFormatVersion <=? 0) || (canonicalFormatVersion <=? 0) ||
     arr_is_zero deliveryIdentity || ((purpose <>?? purposeEvent) && (purpose <>?? purposeDigest))
  then Err ErrProtectionInvalid
  else if negb (forallb (fun value => (value <>?? []) && validateAADString value)
                  [corePrincipalID; destinationID; keyID])
  then Err ErrProtectionInvalid
  else
    let aad := protectionDomainTag in
    let aad := aad ++ [x00] in
    let aad := aad ++ beBytes 8 (protectionFormatVersion mod 2 ^ 64) in
    let aad := aad ++ [purpose] in
    let aad := aad ++ beBytes 8 (canonicalFormatVersion mod 2 ^ 64) in
    let aad := aad ++ arr_list deliveryIdentity in
    let aad := appendAADString aad corePrincipalID in
    let aad := appendAADString aad destinationID in
    let aad := appendAADString aad keyID in
    Ok aad.

(** [buildAAD]. *)
Definition buildAAD := buildAADForVersion PayloadProtectionFormatVersion.

(** * Keys (key.go) *)

Record Key : Type := mkKey { key_id : bytes; key_material : bytes }.

(** [NewKey]. *)
Definition NewKey (id material : bytes) : result Key :=
  if (id =?? []) || negb (validateAADString id) || (length material <>?? aes256KeySize)
  then Err ErrProtectionInvalid
  else Ok (mkKey id material).

(** [Key.valid]. *)
Definition key_valid (key : Key) : bool :=
  (key_id key <>?? []) && validateAADString (key_id key) && (length (key_material key) =?? aes256KeySize).

(** * Validation *)

(** [validatePrepareInput]. *)
Definition validatePrepareInput (corePrincipalID destinationID : bytes)
    (deliveryIdentity : DeliveryIdentity) (formatVersion : Z) (canonicalBytes : bytes)
    (canonicalDigest : CanonicalDigest) : bool :=
  if (corePrincipalID =?? []) || (destinationID =?? []) || arr_is_zero deliveryIdentity ||
     (formatVersion <=? 0) || (length canonicalBytes =?? 0%nat) then false
  else if negb (validateAADString corePrincipalID) then false
  else if negb (validateAADString destinationID) then false
  else Sum256 canonicalBytes =?? canonicalDigest.

(** [validateDigestOpenRequest]. *)
Definition validateDigestOpenRequest (request : DigestOpenRequest) : bool :=
  if (do_EncryptionKeyID request =?? []) || (do_CorePrincipalID request =?? []) ||
     (do_DestinationID request =?? []) || arr_is_zero (do_DeliveryIdentity request) ||
     (do_FormatVersion request <=? 0) || (length (pv_ciphertext (do_ProtectedDigest request)) =?? 0%nat) ||
     (length (pv_nonce (do_ProtectedDigest request)) <>?? gcmNonceSize) then false
  else forallb validateAADString
         [do_EncryptionKeyID request; do_CorePrincipalID request; do_DestinationID request].

(** * External calls *)

(** [KeySource], the random source ([io.ReadFull] of a nonce) and [ctx.Err()]. *)
Inductive prot_op : Type :=
| ActiveKey (ctx : Ctx)
| KeyByID (ctx : Ctx) (id : bytes)
| ReadNonce
| CtxErr (ctx : Ctx).

Definition ProtE : sig := Sig prot_op (fun o =>
  match o with
  | ActiveKey _ => result Key
  | KeyByID _ _ => result Key
  | ReadNonce => result (arr 12)
  | CtxErr _ => option error
  end).

(** [Service]: which dependencies are nil. *)
Record Service : Type := mkService { keys_nil : bool; random_nil : bool }.

Section Cipher.
Context `{A : AEAD}.

(** [newGCM]: [crypto/aes] accepts every key of 32 bytes, so only the key and
    the nonce size of the cipher can be refused. *)
Definition newGCM (key : Key) : result unit :=
  if negb (key_valid key) then Err ErrProtectionFailed
  else if aead_nonce_size <>?? gcmNonceSize then Err ErrProtectionFailed
  else Ok tt.

(** [sealProtected]. *)
Definition sealProtected (key : Key) (nonce plaintext aad : bytes) : result ProtectedValue :=
  match newGCM key with
  | Err _ => Err ErrProtectionFailed
  | Ok _ =>
      if length nonce <>?? aead_nonce_size then Err ErrProtectionFailed
      else match NewProtectedValue (seal (key_material key) nonce plaintext aad) nonce with
           | Err _ => Err ErrProtectionFailed
           | Ok protected => Ok protected
           end
  end.

(** [openProtected]. *)
Definition openProtected (key : Key) (protected : ProtectedValue) (aad : bytes) : result bytes :=
  match newGCM key with
  | Err _ => Err ErrProtectionFailed
  | Ok _ =>
      if length (pv_nonce protected) <>?? aead_nonce_size then Err ErrProtectionFailed
      else match aead_open (key_material key) (pv_nonce protected) (pv_ciphertext protected) aad with
           | None => Err ErrProtectionFailed
           | Some plaintext => Ok plaintext
           end
  end.

(** [Service.nonces]: two reads of the random source under its lock. *)
Definition nonces : prog ProtE (result (bytes * bytes)) :=
  let! r := @call ProtE ReadNonce in
  match r with
  | Err _ => Ret (Err ErrProtectionRandom)
  | Ok eventNonce =>
    let! r := @call ProtE ReadNonce in
    match r with
    | Err _ => Ret (Err ErrProtectionRandom)
    | Ok digestNonce => Ret (Ok (arr_list eventNonce, arr_list digestNonce))
    end
  end.

(** [Service.Prepare]; [None] is a nil service. *)
Definition Prepare (service : option Service) (ctx : Ctx) (corePrincipalID destinationID : bytes)
    (deliveryIdentity : DeliveryIdentity) (canonicalEvent : CanonicalEvent)
  : prog ProtE (result PreparedAcceptance) :=
  match service with
  | None => Ret (Err ErrProtectionInvalid)
  | Some service =>
    if keys_nil service || random_nil service || ctx_is_nil ctx then Ret (Err ErrProtectionInvalid)
    else
    let! e := @call ProtE (CtxErr ctx) in
    if is_err e then Ret (Err ErrProtectionFailed)
    else
    let canonicalBytes := ce_data canonicalEvent in
    let canonicalDigest : CanonicalDigest := ce_digest canonicalEvent in
    if negb (validatePrepareInput corePrincipalID destinationID deliveryIdentity
               (ce_formatVersion canonicalEvent) canonicalBytes canonicalDigest)
    then Ret (Err ErrProtectionInvalid)
    else
    let! k := @call ProtE (ActiveKey ctx) in
    match k with
    | Err _ => Ret (Err ErrProtectionKeyUnavailable)
    | Ok key =>
      if negb (key_valid key) then Ret (Err ErrProtectionKeyUnavailable)
      else
      let! e := @call ProtE (CtxErr ctx) in
      if is_err e then Ret (Err ErrProtectionFailed)
      else
      let! n := nonces in
      match n with
      | Err _ => Ret (Err ErrProtectionRandom)
      | Ok (eventNonce, digestNonce) =>
        if eventNonce =?? digestNonce then Ret (Err ErrProtectionRandom)
        else
        let! e := @call ProtE (CtxErr ctx) in
        if is_err e then Ret (Err ErrProtectionFailed)
        else
        match buildAAD purposeEvent (ce_formatVersion canonicalEvent) deliveryIdentity
                corePrincipalID destinationID (key_id key) with
        | Err _ => Ret (Err ErrProtectionInvalid)
        | Ok eventAAD =>
          match sealProtected key eventNonce canonicalBytes eventAAD with
          | Err _ => Ret (Err ErrProtectionFailed)
          | Ok protectedEvent =>
            match buildAAD purposeDigest (ce_formatVersion canonicalEvent) deliveryIdentity
                    corePrincipalID destinationID (key_id key) with
            | Err _ => Ret (Err ErrProtectionInvalid)
            | Ok digestAAD =>
              match sealProtected key digestNonce (arr_list canonicalDigest) digestAAD with
              | Err _ => Ret (Err ErrProtectionFailed)
              | Ok protectedDigest =>
                match NewPreparedAcceptance corePrincipalID destinationID deliveryIdentity
                        (ce_formatVersion canonicalEvent) protectedEvent protectedDigest
                        (key_id key) canonicalDigest with
                | Err _ => Ret (Err ErrProtectionFailed)
                | Ok prepared => Ret (Ok prepared)
                end
              end
            end
          end
        end
      end
    end
  end.

(** [Service.OpenDigest]. *)
Definition OpenDigest (service : option Service) (ctx : Ctx) (request : DigestOpenRequest)
  : prog ProtE (result CanonicalDigest) :=
  match service with
  | None => Ret (Err ErrProtectedDigestUnreadable)
  | Some service =>
    if keys_nil service || ctx_is_nil ctx then Ret (Err ErrProtectedDigestUnreadable)
    else
    let! e := @call ProtE (CtxErr ctx) in
    if is_err e then Ret (Err ErrProtectedDigestUnreadable)
    else if negb (validateDigestOpenRequest request) then Ret (Err ErrProtectedDigestUnreadable)
    else
    let! k := @call ProtE (KeyByID ctx (do_EncryptionKeyID request)) in
    match k with
    | Err _ => Ret (Err ErrProtectedDigestUnreadable)
    | Ok key =>
      if negb (key_valid key) || (key_id key <>?? do_EncryptionKeyID request)
      then Ret (Err ErrProtectedDigestUnreadable)
      else
      let! e := @call ProtE (CtxErr ctx) in
      if is_err e then Ret (Err ErrProtectedDigestUnreadable)
      else
      match buildAAD purposeDigest (do_FormatVersion request) (do_DeliveryIdentity request)
              (do_CorePrincipalID request) (do_DestinationID request) (do_EncryptionKeyID request) with
      | Err _ => Ret (Err ErrProtectedDigestUnreadable)
      | Ok aad =>
        match openProtected key (do_ProtectedDigest request) aad with
        | Err _ => Ret (Err ErrProtectedDigestUnreadable)
        | Ok plaintext =>
          if length plaintext <>?? 32%nat then Ret (Err ErrProtectedDigestUnreadable)
          else Ret (Ok (mk_arr 32 plaintext))
        end
      end
    end
  end.
End Cipher.

(** * Additional data: injectivity *)

Definition aad_text_ok (value : bytes) : Prop := value <> [] /\ validateAADString value = true.

Definition aad_guard (v : Z) (p : byte) (cf : Z) (id : DeliveryIdentity) (c d k : bytes) : Prop :=
  0 < v /\ 0 < cf /\ id <> zero_arr 16 /\ (p = purposeEvent \/ p = purposeDigest) /\
  aad_text_ok c /\ aad_text_ok d /\ aad_text_ok k.

(** One length-prefixed field. *)
Definition aad_field (value : bytes) : bytes := beBytes 4 (Z.of_nat (length value) mod 2 ^ 32) ++ value.

Definition aad_bytes (v : Z) (p : byte) (cf : Z) (id : DeliveryIdentity) (c d k : bytes) : bytes :=
  (protectionDomainTag ++ [x00]) ++ beBytes 8 (v mod 2 ^ 64) ++ [p] ++ beBytes 8 (cf mod 2 ^ 64) ++
  arr_list id ++ aad_field c ++ aad_field d ++ aad_field k.

Lemma aad_texts_guard c d k :
  forallb (fun value => (value <>?? []) && validateAADString value) [c; d; k] = true <->
  aad_text_ok c /\ aad_text_ok d /\ aad_text_ok k.
Proof.
  cbn [forallb]. rewrite !andb_true_iff, !negb_true_iff, !bool_decide_eq_false.
  unfold aad_text_ok. tauto.
Qed.

Lemma buildAAD_ok v p cf id c d k aad :
  buildAADForVersion v p cf id c d k = Ok aad <->
  aad_guard v p cf id c d k /\ aad = aad_bytes v p cf id c d k.
Proof.
  unfold buildAADForVersion, aad_guard. destruct (_ || _) eqn:G.
  - split; [done|]. intros [(Hv & Hc & Hid & Hp & _) _].
    apply Z.leb_gt in Hv, Hc. apply arr_is_zero_false in Hid. rewrite Hv, Hc, Hid in G.
    destruct Hp as [-> | ->]; vm_compute in G; done.
  - rewrite !orb_false_iff, !Z.leb_gt, arr_is_zero_false in G.
    destruct G as [[[Hv Hc] Hid] Hp].
    assert (p = purposeEvent \/ p = purposeDigest) as Hp'.
    { apply andb_false_iff in Hp as [Hp|Hp]; apply negb_false_iff, bool_decide_eq_true in Hp; auto. }
    destruct (forallb _ _) eqn:T.
    + apply aad_texts_guard in T. cbn [negb]. unfold aad_bytes, aad_field, appendAADString.
      rewrite <- !app_assoc. split; [intros ?; by simplify_eq|intros [_ ->]; done].
    + split; [done|]. intros [(_ & _ & _ & _ & T') _]. apply aad_texts_guard in T'. congruence.
Qed.

Lemma aad_text_length value : aad_text_ok value -> 0 <= Z.of_nat (length value) < 2 ^ 32.
Proof.
  intros [_ H]. unfold validateAADString in H.
  rewrite negb_true_iff, orb_false_iff, Z.ltb_ge in H. lia.
Qed.

Lemma aad_field_inj a b r1 r2 :
  aad_text_ok a -> aad_text_ok b -> aad_field a ++ r1 = aad_field b ++ r2 -> a = b /\ r1 = r2.
Proof.
  intros Ha Hb E. unfold aad_field in E. rewrite <- !app_assoc in E.
  apply aad_text_length in Ha, Hb.
  apply app_eq_length in E as [E1 E2]; [|by rewrite !beBytes_length].
  rewrite !Z.mod_small in E1 by done. apply beBytes_inj in E1; [|done..].
  apply app_eq_length in E2; [done|lia].
Qed.

Lemma aad_bytes_inj v p cf id c d k v' p' cf' id' c' d' k' :
  v < 2 ^ 63 -> v' < 2 ^ 63 -> cf < 2 ^ 63 -> cf' < 2 ^ 63 ->
  aad_guard v p cf id c d k -> aad_guard v' p' cf' id' c' d' k' ->
  aad_bytes v p cf id c d k = aad_bytes v' p' cf' id' c' d' k' ->
  v = v' /\ p = p' /\ cf = cf' /\ id = id' /\ c = c' /\ d = d' /\ k = k'.
Proof.
  intros V V' F F' (Hv & Hf & _ & _ & Hc & Hd & Hk) (Hv' & Hf' & _ & _ & Hc' & Hd' & Hk') E.
  unfold aad_bytes in E. rewrite !Z.mod_small in E by lia.
  apply app_inv_head in E. apply app_eq_length in E as [E1 E]; [|by rewrite !beBytes_length].
  apply app_eq_length in E as [Ep E]; [simplify_eq Ep|done]. apply app_eq_length in E as [E2 E]; [|by rewrite !beBytes_length].
  apply app_eq_length in E as [E3 E]; [|by rewrite !arr_length].
  apply beBytes_inj in E1, E2; [|lia..]. apply arr_eq in E3.
  apply aad_field_inj in E as [-> E]; [|done..]. apply aad_field_inj in E as [-> E]; [|done..].
  rewrite <- (app_nil_r (aad_field k)), <- (app_nil_r (aad_field k')) in E.
  apply aad_field_inj in E as [-> _]; done.
Qed.

(** The additional authenticated data determines every value it binds:
    two calls of [buildAADForVersion] that produce the same bytes agree on the
    protection version, the purpose, the canonical version, the delivery
    identity, the principal, the destination and the key. A ciphertext sealed
    for one of them is therefore never presented to the cipher as another's. *)
Theorem buildAAD_injective v p cf id c d k v' p' cf' id' c' d' k' aad
    (Hv : v < 2 ^ 63) (Hv' : v' < 2 ^ 63) (Hcf : cf < 2 ^ 63) (Hcf' : cf' < 2 ^ 63)
    (H : buildAADForVersion v p cf id c d k = Ok aad)
    (H' : buildAADForVersion v' p' cf' id' c' d' k' = Ok aad) :
  v = v' /\ p = p' /\ cf = cf' /\ id = id' /\ c = c' /\ d = d' /\ k = k'.
Proof.
  apply buildAAD_ok in H as [G ->]. apply buildAAD_ok in H' as [G' E]. by apply aad_bytes_inj.
Qed.

Lemma buildAAD_injective_witness :
  exists aad, buildAADForVersion 1 purposeEvent 1 (mk_arr 16 [x01]) (lit "core") (lit "dest") (lit "k") = Ok aad
    /\ (1 = 1 /\ purposeEvent = purposeEvent /\ 1 = 1 /\ mk_arr 16 [x01] = mk_arr 16 [x01] /\
        lit "core" = lit "core" /\ lit "dest" = lit "dest" /\ lit "k" = lit "k").
Proof.
  eexists. split; [vm_compute; reflexivity|].
  eapply (buildAAD_injective 1 purposeEvent 1 (mk_arr 16 [x01]) (lit "core") (lit "dest") (lit "k")
            1 purposeEvent 1 (mk_arr 16 [x01]) (lit "core") (lit "dest") (lit "k"));
    [lia..| |]; vm_compute; reflexivity.
Defined.

(** * Prepare and OpenDigest *)

Definition service_ready (service : option Service) : Prop :=
  exists s, service = Some s /\ keys_nil s = false /\ random_nil s = false.

(** The inputs [Prepare] accepts. *)
Definition prepare_input_ok (core dest : bytes) (id : DeliveryIdentity) (ce : CanonicalEvent) : Prop :=
  aad_text_ok core /\ aad_text_ok dest /\ id <> zero_arr 16 /\ 0 < ce_formatVersion ce /\
  ce_data ce <> [] /\ ce_digest ce = Sum256 (ce_data ce).

Lemma validatePrepareInput_true core dest id ce :
  validatePrepareInput core dest id (ce_formatVersion ce) (ce_data ce) (ce_digest ce) = true <->
  prepare_input_ok core dest id ce.
Proof.
  unfold validatePrepareInput, prepare_input_ok, aad_text_ok. destruct (_ || _) eqn:G.
  - split; [done|]. intros ([Hc _] & [Hd _] & Hid & Hf & Hb & _).
    rewrite !bool_decide_eq_false_2 in G by (try done; by destruct (ce_data ce)).
    apply arr_is_zero_false in Hid. apply Z.leb_gt in Hf. by rewrite Hid, Hf in G.
  - rewrite !orb_false_iff, Z.leb_gt, arr_is_zero_false, !bool_decide_eq_false in G.
    destruct G as [[[[Hc Hd] Hid] Hf] Hl].
    assert (ce_data ce <> []) by (intros E; by rewrite E in Hl).
    destruct (validateAADString core), (validateAADString dest); simpl;
      rewrite ?bool_decide_eq_true; intuition congruence.
Qed.

Lemma key_valid_true key :
  key_valid key = true <-> aad_text_ok (key_id key) /\ length (key_material key) = 32%nat.
Proof.
  unfold key_valid, aad_text_ok.
  by rewrite !andb_true_iff, negb_true_iff, bool_decide_eq_false, bool_decide_eq_true.
Qed.

Lemma Zpos_length {X} (l : list X) : (0 <? Z.of_nat (length l)) = true <-> l <> [].
Proof. rewrite Z.ltb_lt. destruct l; simpl; split; intros; try done; lia. Qed.

Lemma NewPreparedAcceptance_ok core dest id fv ev dg k d :
  core <> [] -> dest <> [] -> id <> zero_arr 16 -> 0 < fv -> k <> [] ->
  protected_valid ev = true -> protected_valid dg = true ->
  NewPreparedAcceptance core dest id fv ev dg k d = Ok (mkPreparedAcceptance core dest id fv ev dg k d).
Proof.
  intros ?? Hid Hf ? He Hd. unfold NewPreparedAcceptance, validate. simpl.
  apply arr_is_zero_false in Hid. apply Z.leb_gt in Hf.
  by rewrite !bool_decide_eq_false_2, Hid, Hf, He, Hd.
Qed.

Section CipherProofs.
Context `{A : AEAD} `{L : !AEADLaws A}.

(** What [Prepare] stores, as a function of the key and the two nonces. *)
Definition prepared_of (key : Key) (en dn : arr 12) (core dest : bytes) (id : DeliveryIdentity)
    (ce : CanonicalEvent) : PreparedAcceptance :=
  let aad p := aad_bytes PayloadProtectionFormatVersion p (ce_formatVersion ce) id core dest (key_id key) in
  mkPreparedAcceptance core dest id (ce_formatVersion ce)
    (mkProtectedValue (seal (key_material key) en (ce_data ce) (aad purposeEvent)) en)
    (mkProtectedValue (seal (key_material key) dn (ce_digest ce) (aad purposeDigest)) dn)
    (key_id key) (ce_digest ce).

(** The calls of a successful [Prepare]. *)
Definition prepare_trace (ctx : Ctx) (key : Key) (en dn : arr 12) : trace ProtE :=
  [@ev ProtE (CtxErr ctx) None; @ev ProtE (ActiveKey ctx) (Ok key); @ev ProtE (CtxErr ctx) None;
   @ev ProtE ReadNonce (Ok en); @ev ProtE ReadNonce (Ok dn); @ev ProtE (CtxErr ctx) None].

Lemma seal_nonempty key nonce p aad : seal key nonce p aad <> [].
Proof.
  intros E. pose proof (seal_length key nonce p aad) as H. rewrite E in H. simpl in H.
  pose proof overhead_pos. lia.
Qed.

Lemma sealProtected_ok key (nonce : arr 12) p aad :
  key_valid key = true -> aead_nonce_size = 12%nat ->
  sealProtected key nonce p aad = Ok (mkProtectedValue (seal (key_material key) nonce p aad) nonce).
Proof.
  intros Hk Hn. unfold sealProtected, newGCM. rewrite Hk, Hn.
  rewrite arr_length, !bool_decide_eq_true_2 by done. cbn [negb].
  unfold NewProtectedValue. rewrite arr_length.
  rewrite !bool_decide_eq_false_2; [done|lia|].
  intros E%nil_length_inv. by apply seal_nonempty in E.
Qed.

Lemma sealProtected_size key nonce p aad v :
  sealProtected key nonce p aad = Ok v -> aead_nonce_size = 12%nat.
Proof.
  unfold sealProtected, newGCM. destruct (negb (key_valid key)); [done|].
  destruct (decide (aead_nonce_size = 12%nat)); [done|].
  by rewrite bool_decide_eq_false_2 by done.
Qed.

Lemma openProtected_seal key (nonce : arr 12) p aad :
  key_valid key = true -> aead_nonce_size = 12%nat ->
  openProtected key (mkProtectedValue (seal (key_material key) nonce p aad) nonce) aad = Ok p.
Proof.
  intros Hk Hn. unfold openProtected, newGCM. cbn [pv_nonce pv_ciphertext].
  rewrite open_seal by (rewrite arr_length; done).
  rewrite Hk, Hn, arr_length, !bool_decide_eq_true_2 by done. done.
Qed.

Lemma buildAAD_guarded p core dest id ce key :
  p = purposeEvent \/ p = purposeDigest -> prepare_input_ok core dest id ce -> key_valid key = true ->
  buildAAD p (ce_formatVersion ce) id core dest (key_id key) =
  Ok (aad_bytes PayloadProtectionFormatVersion p (ce_formatVersion ce) id core dest (key_id key)).
Proof.
  intros Hp (Hc & Hd & Hid & Hf & _) [Hk _]%key_valid_true. apply buildAAD_ok.
  split; [|done]. unfold aad_guard. split; [done|tauto].
Qed.

(** Past the guards and the calls, [Prepare] computes [prepared_of]. *)
Lemma Prepare_runs_ok service ctx core dest id ce key (en dn : arr 12) :
  service_ready service -> ctx_is_nil ctx = false -> prepare_input_ok core dest id ce ->
  key_valid key = true -> en <> dn -> aead_nonce_size = 12%nat ->
  runs (Prepare service ctx core dest id ce) (prepare_trace ctx key en dn)
    (Ok (prepared_of key en dn core dest id ce)).
Proof.
  intros (s & -> & H1 & H2) Hctx Hin Hk Hne Hn. unfold Prepare. rewrite H1, H2, Hctx. cbn [orb].
  answer (@None error). rewrite (proj2 (validatePrepareInput_true _ _ _ _) Hin). cbn [negb].
  answer (Ok key). rewrite Hk. cbn [negb]. answer (@None error). answer (Ok en). answer (Ok dn).
  cbn [bind]. rewrite bool_decide_eq_false_2 by (intros E; by apply Hne, arr_eq).
  answer (@None error).
  rewrite !buildAAD_guarded, !sealProtected_ok by auto.
  destruct Hin as ([Hc _] & [Hd _] & Hid & Hf & _). apply key_valid_true in Hk as [[Hk _] _].
  rewrite NewPreparedAcceptance_ok; [done|done|done|done|done|done|..];
    unfold protected_valid; cbn [pv_ciphertext pv_nonce];
    rewrite andb_true_iff, !Zpos_length; (split; [apply seal_nonempty|]);
    intros E; eapply (f_equal length) in E; rewrite arr_length in E; done.
Qed.

(** Conversely, a successful [Prepare] made exactly those calls. *)
Lemma Prepare_runs_inv service ctx core dest id ce tr prepared :
  runs (Prepare service ctx core dest id ce) tr (Ok prepared) ->
  service_ready service /\ ctx_is_nil ctx = false /\ prepare_input_ok core dest id ce /\
  exists key en dn, key_valid key = true /\ en <> dn /\ aead_nonce_size = 12%nat /\
    tr = prepare_trace ctx key en dn /\ prepared = prepared_of key en dn core dest id ce.
Proof.
  unfold Prepare. intros H. destruct service as [s|]; [|by destruct H].
  destruct (_ || ctx_is_nil ctx) eqn:G; [by destruct H|].
  rewrite !orb_false_iff in G. destruct G as [[G1 G2] Hctx].
  destruct H as (r & tr1 & -> & H). destruct r; [by destruct H|]. cbn [is_err bind] in H.
  destruct (validatePrepareInput _ _ _ _ _ _) eqn:Hin; [|by destruct H].
  apply validatePrepareInput_true in Hin.
  destruct H as (r & tr2 & -> & H). destruct r as [key|]; [cbn [bind] in H|by destruct H].
  destruct (key_valid key) eqn:Hk; [|by destruct H].
  destruct H as (r & tr3 & -> & H). destruct r; [by destruct H|]. cbn [bind] in H.
  destruct H as (r & tr4 & -> & H). destruct r as [en|]; [cbn [bind] in H|by destruct H].
  destruct H as (r & tr5 & -> & H). destruct r as [dn|]; [cbn [bind] in H|by destruct H].
  cbn [bind] in H. case_bool_decide as Hne; [by destruct H|].
  destruct H as (r & tr6 & -> & H). destruct r; [by destruct H|]. cbn [is_err bind] in H.
  rewrite !buildAAD_guarded in H by auto.
  destruct (sealProtected _ en _ _) eqn:Es; [|by destruct H]. apply sealProtected_size in Es as Hn.
  assert (en <> dn) by congruence.
  assert (service_ready (Some s)) as Hs by (unfold service_ready; eauto).
  pose proof (Prepare_runs_ok (Some s) ctx core dest id ce key en dn) as P.
  split_and!; [done..|]. exists key, en, dn. split_and!; [done..| |].
  - rewrite sealProtected_ok in H by auto.
    destruct (NewPreparedAcceptance _ _ _ _ _ _ _ _); destruct H as [-> ?]; done.
  - rewrite sealProtected_ok in H, Es by auto. injection Es as <-.
    destruct (NewPreparedAcceptance _ _ _ _ _ _ _ _) eqn:E; destruct H as [-> ?]; simplify_eq.
    unfold NewPreparedAcceptance in E. case_match; by simplify_eq.
Qed.

(** The request the store builds for the digest of a prepared acceptance. *)
Definition digest_request (prepared : PreparedAcceptance) : DigestOpenRequest :=
  mkDigestOpenRequest (pa_protectedDigest prepared) (pa_encryptionKeyID prepared)
    (pa_corePrincipalID prepared) (pa_destinationID prepared) (pa_deliveryIdentity prepared)
    (pa_formatVersion prepared).

Definition open_trace (ctx : Ctx) (key : Key) : trace ProtE :=
  [@ev ProtE (CtxErr ctx) None; @ev ProtE (KeyByID ctx (key_id key)) (Ok key); @ev ProtE (CtxErr ctx) None].

Lemma prepared_request_valid key en dn core dest id ce :
  prepare_input_ok core dest id ce -> key_valid key = true ->
  validateDigestOpenRequest (digest_request (prepared_of key en dn core dest id ce)) = true.
Proof.
  intros ([Hc Hc'] & [Hd Hd'] & Hid & Hf & _) [[Hk Hk'] _]%key_valid_true.
  unfold validateDigestOpenRequest. cbn. apply arr_is_zero_false in Hid. apply Z.leb_gt in Hf.
  rewrite arr_length, Hid, Hf, Hc', Hd', Hk'.
  rewrite !bool_decide_eq_false_2 by (try done; intros E%nil_length_inv; by apply seal_nonempty in E).
  by rewrite bool_decide_eq_true_2.
Qed.

Lemma OpenDigest_prepared service ctx key en dn core dest id ce :
  (exists s, service = Some s /\ keys_nil s = false) -> ctx_is_nil ctx = false ->
  prepare_input_ok core dest id ce -> key_valid key = true -> aead_nonce_size = 12%nat ->
  runs (OpenDigest service ctx (digest_request (prepared_of key en dn core dest id ce)))
    (open_trace ctx key) (Ok (ce_digest ce)).
Proof.
  intros (s & -> & Hs) Hctx Hin Hk Hn. unfold OpenDigest. rewrite Hs, Hctx. cbn [orb].
  answer (@None error). rewrite prepared_request_valid by done. cbn [negb].
  answer (Ok key). rewrite Hk, bool_decide_eq_true_2 by done. cbn [negb orb].
  answer (@None error). cbn -[buildAAD openProtected aad_bytes].
  rewrite buildAAD_guarded by auto. rewrite openProtected_seal by done.
  rewrite arr_length, bool_decide_eq_true_2 by done. cbn [negb].
  split; [done|]. by rewrite mk_arr_id.
Qed.

(** What a successful [OpenDigest] did. *)
Lemma OpenDigest_runs_inv service ctx rq tr d :
  runs (OpenDigest service ctx rq) tr (Ok d) ->
  exists key aad plaintext,
    tr = [@ev ProtE (CtxErr ctx) None; @ev ProtE (KeyByID ctx (do_EncryptionKeyID rq)) (Ok key);
          @ev ProtE (CtxErr ctx) None] /\
    key_valid key = true /\ key_id key = do_EncryptionKeyID rq /\
    buildAAD purposeDigest (do_FormatVersion rq) (do_DeliveryIdentity rq) (do_CorePrincipalID rq)
      (do_DestinationID rq) (do_EncryptionKeyID rq) = Ok aad /\
    openProtected key (do_ProtectedDigest rq) aad = Ok plaintext /\ d = mk_arr 32 plaintext.
Proof.
  unfold OpenDigest. intros H. runs_steps; simplify_eq.
  repeat match goal with
    | H : is_err ?e = false |- _ => destruct e; [discriminate H|clear H]
    | H : _ || _ = false |- _ => apply orb_false_iff in H as [? ?]
    | H : negb _ = false |- _ => apply negb_false_iff in H
    end.
  match goal with H : (_ =?? do_EncryptionKeyID rq) = true |- _ => apply bool_decide_eq_true in H end.
  eexists _, _, _. split_and!; done.
Qed.

(** [Prepare] succeeds exactly when the service and the context are not
    nil, the inputs are well formed (the digest is the SHA-256 digest of the
    canonical bytes), no check of the context reports cancellation, the key
    source returns a valid active key and the random source two different
    12-byte nonces; its calls are then exactly these, in this order, and the
    result carries the principal, destination, identity, version, key id and
    digest of the request with the two ciphertexts sealed under that key and
    those nonces, each with the additional data of its own purpose. *)
Theorem Prepare_sound service ctx core dest id ce tr prepared :
  runs (Prepare service ctx core dest id ce) tr (Ok prepared) <->
  service_ready service /\ ctx_is_nil ctx = false /\ prepare_input_ok core dest id ce /\
  exists key en dn, key_valid key = true /\ en <> dn /\ aead_nonce_size = 12%nat /\
    tr = prepare_trace ctx key en dn /\ prepared = prepared_of key en dn core dest id ce.
Proof.
  split; [apply Prepare_runs_inv|].
  intros (Hs & Hc & Hi & key & en & dn & Hk & Hne & Hn & -> & ->). by apply Prepare_runs_ok.
Qed.

Lemma prepared_of_valid key en dn core dest id ce :
  prepare_input_ok core dest id ce -> key_valid key = true ->
  validate (prepared_of key en dn core dest id ce) = true.
Proof.
  intros ([Hc _] & [Hd _] & Hid & Hf & _) [[Hk _] _]%key_valid_true.
  unfold validate, protected_valid. cbn.
  apply arr_is_zero_false in Hid. apply Z.leb_gt in Hf.
  rewrite Hid, Hf, !bool_decide_eq_false_2 by done.
  rewrite !arr_length, !(proj2 (Zpos_length _)) by apply seal_nonempty. done.
Qed.

(** (C39) What [Prepare] protects can be read back. The result passes the
    store's validation; the canonical bytes are recovered from the event
    ciphertext under the additional data of the event purpose; and
    [OpenDigest], on the request the store builds from the stored values,
    returns the digest of the original event whenever the key source still
    has the key and the context is not cancelled. *)
Theorem Prepare_OpenDigest_roundtrip service ctx core dest id ce tr prepared
    (H : runs (Prepare service ctx core dest id ce) tr (Ok prepared)) :
  validate prepared = true /\
  exists key, @ev ProtE (ActiveKey ctx) (Ok key) ∈ tr /\
    (exists aad, buildAAD purposeEvent (pa_formatVersion prepared) (pa_deliveryIdentity prepared)
       (pa_corePrincipalID prepared) (pa_destinationID prepared) (pa_encryptionKeyID prepared) = Ok aad /\
       openProtected key (pa_canonicalEvent prepared) aad = Ok (ce_data ce)) /\
    forall service' ctx', (exists s, service' = Some s /\ keys_nil s = false) ->
      ctx_is_nil ctx' = false ->
      runs (OpenDigest service' ctx' (digest_request prepared)) (open_trace ctx' key) (Ok (ce_digest ce)).
Proof.
  apply Prepare_runs_inv in H as (_ & _ & Hi & key & en & dn & Hk & _ & Hn & -> & ->).
  split; [by apply prepared_of_valid|]. exists key. split; [unfold prepare_trace; in_list|]. split.
  - eexists. split; [apply buildAAD_guarded; auto|]. by apply openProtected_seal.
  - intros. by apply OpenDigest_prepared.
Qed.

Definition prepare_errors : list sentinel :=
  [ErrProtectionInvalid; ErrProtectionKeyUnavailable; ErrProtectionRandom; ErrProtectionFailed].

(** A [runs] hypothesis ending in an error: explore every branch. *)
Lemma Prepare_error_elem service ctx core dest id ce tr e :
  runs (Prepare service ctx core dest id ce) tr (Err e) ->
  exists s, e = Sentinel s /\ s ∈ prepare_errors.
Proof.
  unfold Prepare, nonces. intros H.
  runs_steps; simplify_eq; eexists; (split; [done|]); unfold prepare_errors; in_list.
Qed.

(** Failures of the protection service are its own fixed sentinels:
    [Prepare] returns one of four and [OpenDigest] always
    [ErrProtectedDigestUnreadable], whatever errors the key source, the random
    source or the context returned. *)
Theorem protection_errors_fixed service ctx core dest id ce request tr e :
  (runs (Prepare service ctx core dest id ce) tr (Err e) ->
   exists s, e = Sentinel s /\ s ∈ prepare_errors) /\
  (runs (OpenDigest service ctx request) tr (Err e) -> e = Sentinel ErrProtectedDigestUnreadable).
Proof.
  split; [apply Prepare_error_elem|].
  unfold OpenDigest. intros H. runs_steps; by simplify_eq.
Qed.
End CipherProofs.

(** * Instances at AES-256-GCM *)

Definition sample_key : Key := mkKey (lit "k1") (replicate 32 x2a).
Definition sample_ce : CanonicalEvent := mkCanonicalEvent 1 [x7b; x7d] (Sum256 [x7b; x7d]).
Definition sample_id : DeliveryIdentity := mk_arr 16 [x01].
Definition sample_en : arr 12 := mk_arr 12 [x01].
Definition sample_dn : arr 12 := mk_arr 12 [x02].

Lemma sample_input_ok : prepare_input_ok (lit "core") (lit "dest") sample_id sample_ce.
Proof. repeat split; vm_compute; try done; lia. Qed.

Lemma sample_prepare :
  runs (Prepare (Some (mkService false false)) CtxReq (lit "core") (lit "dest") sample_id sample_ce)
    (prepare_trace CtxReq sample_key sample_en sample_dn)
    (Ok (prepared_of sample_key sample_en sample_dn (lit "core") (lit "dest") sample_id sample_ce)).
Proof.
  apply Prepare_runs_ok; [by eexists|done|apply sample_input_ok|done| |done].
  intros E. apply (f_equal arr_list) in E. vm_compute in E. done.
Qed.

Lemma Prepare_OpenDigest_roundtrip_witness :
  validate (prepared_of sample_key sample_en sample_dn (lit "core") (lit "dest") sample_id sample_ce) = true.
Proof. exact (proj1 (Prepare_OpenDigest_roundtrip _ _ _ _ _ _ _ _ sample_prepare)). Defined.

Lemma Prepare_sound_witness :
  exists key en dn, key_valid key = true /\ en <> dn /\ aead_nonce_size = 12%nat /\
    prepare_trace CtxReq sample_key sample_en sample_dn = prepare_trace CtxReq key en dn /\
    prepared_of sample_key sample_en sample_dn (lit "core") (lit "dest") sample_id sample_ce =
    prepared_of key en dn (lit "core") (lit "dest") sample_id sample_ce.
Proof.
  apply (proj1 (Prepare_sound (Some (mkService false false)) CtxReq (lit "core") (lit "dest")
    sample_id sample_ce _ _) sample_prepare).
Defined.
