(* ===== verification/Intake.v ===== *)
(** Intake: internal/intake/service.go.

    [Accept] canonicalises an event, has it protected, checks that the
    protector returned what was asked for, and hands it to the durable store.
    The protector, the store and [ctx.Err()] are external calls here;
    Gateway.v supplies the real components. *)

From S2P Require Import Prelude Effects GoErrors Encoding Uuid Sha256 Events Canonical Durable.

(** [Request]. *)
Record Request : Type := mkRequest {
  rq_CorePrincipalID : bytes;
  rq_DestinationID : bytes;
  rq_DeliveryIdentity : bytes;
  rq_Event : EventI
}.

(** The interfaces [Protector] and [durable.Store], and [ctx.Err()]. *)
Inductive intake_op : Type :=
| IntakeCtxErr (ctx : Ctx)
| Protect (ctx : Ctx) (corePrincipalID destinationID : bytes) (deliveryIdentity : DeliveryIdentity)
    (canonicalEvent : CanonicalEvent)
| StoreAccept (ctx : Ctx) (prepared : PreparedAcceptance).

Definition IntakeE : sig := Sig intake_op (fun o =>
  match o with
  | IntakeCtxErr _ => option error
  | Protect _ _ _ _ _ => result PreparedAcceptance
  | StoreAccept _ _ => result Result
  end).

(** [Service]: which dependencies are nil. *)
Record Service : Type := mkService { protector_nil : bool; store_nil : bool }.

(** [preparedMatchesRequest]. *)
Definition preparedMatchesRequest (prepared : PreparedAcceptance) (request : Request)
    (deliveryIdentity : DeliveryIdentity) (canonicalEvent : CanonicalEvent) : bool :=
  if (pa_corePrincipalID prepared <>?? rq_CorePrincipalID request) ||
     (pa_destinationID prepared <>?? rq_DestinationID request) ||
     (pa_deliveryIdentity prepared <>?? deliveryIdentity) ||
     negb (pa_formatVersion prepared =? ce_formatVersion canonicalEvent) ||
     (pa_encryptionKeyID prepared =?? []) then false
  else
  let protectedEvent := pa_canonicalEvent prepared in
  let protectedDigest := pa_protectedDigest prepared in
  if (length (pv_ciphertext protectedEvent) =?? 0%nat) || (length (pv_nonce protectedEvent) =?? 0%nat) ||
     (length (pv_ciphertext protectedDigest) =?? 0%nat) || (length (pv_nonce protectedDigest) =?? 0%nat)
  then false
  else pa_equivalenceDigest prepared =?? ce_digest canonicalEvent.

(** [validResult]. *)
Definition validResult (r : Result) : bool :=
  if (r_Disposition r =? AcceptedNew) || (r_Disposition r =? AcceptedDuplicate)
  then negb (arr_is_zero (r_ReceiptID r))
  else if r_Disposition r =? IdentityConflict then arr_is_zero (r_ReceiptID r)
  else false.

(** [classifyProtectionError]. *)
Definition classifyProtectionError (e : error) : sentinel :=
  default ErrProtectionFailed
    (first_safe [ErrProtectionInvalid; ErrProtectionKeyUnavailable; ErrProtectionRandom;
                 ErrProtectionFailed; ErrProtectedDigestUnreadable] e).

(** [classifyStoreError]. *)
Definition classifyStoreError (e : error) : sentinel :=
  default ErrStoreFailure
    (first_safe [ErrInvalidAcceptance; ErrReceiptGeneration; ErrStoreUnavailable;
                 ErrStoreOutcomeUnknown; ErrStoreCanceled; ErrStoreFailure;
                 ErrStoredRecordUnreadable] e).

Section Accept.
(** The iteration order of Go maps, used by the canonicaliser. *)
Variable range : gmap bytes bytes -> list (bytes * bytes).

(** [Service.Accept]; [None] is a nil service. *)
Definition Accept (service : option Service) (ctx : Ctx) (request : Request)
  : prog IntakeE (result Result) :=
  match service with
  | None => Ret (Err ErrIntakeInvalidRequest)
  | Some service =>
    if protector_nil service || store_nil service || ctx_is_nil ctx
    then Ret (Err ErrIntakeInvalidRequest)
    else
    let! e := @call IntakeE (IntakeCtxErr ctx) in
    if is_err e then Ret (Err ErrIntakeCanceled)
    else if (rq_CorePrincipalID request =?? []) || (rq_DestinationID request =?? []) ||
            event_is_nil (rq_Event request) then Ret (Err ErrIntakeInvalidRequest)
    else
    match ParseDeliveryIdentity (rq_DeliveryIdentity request) with
    | Err _ => Ret (Err ErrIntakeInvalidRequest)
    | Ok deliveryIdentity =>
      if formatUUID deliveryIdentity <>?? rq_DeliveryIdentity request
      then Ret (Err ErrIntakeInvalidRequest)
      else
      match CanonicalizeEvent range (rq_Event request) with
      | Err _ => Ret (Err ErrCanonicalEvent)
      | Ok canonicalEvent =>
        let! e := @call IntakeE (IntakeCtxErr ctx) in
        if is_err e then Ret (Err ErrIntakeCanceled)
        else
        let! p := @call IntakeE (Protect ctx (rq_CorePrincipalID request) (rq_DestinationID request)
                                   deliveryIdentity canonicalEvent) in
        match p with
        | Err e => Ret (Err (classifyProtectionError e))
        | Ok prepared =>
          if negb (preparedMatchesRequest prepared request deliveryIdentity canonicalEvent)
          then Ret (Err ErrProtectionFailed)
          else
          let! e := @call IntakeE (IntakeCtxErr ctx) in
          if is_err e then Ret (Err ErrIntakeCanceled)
          else
          let! r := @call IntakeE (StoreAccept ctx prepared) in
          match r with
          | Err e => Ret (Err (classifyStoreError e))
          | Ok result => if negb (validResult result) then Ret (Err ErrStoreFailure) else Ret (Ok result)
          end
        end
      end
    end
  end.
End Accept.

(** * Properties *)

Definition service_ready (service : option Service) : Prop :=
  exists s, service = Some s /\ protector_nil s = false /\ store_nil s = false.

(** A request that passes the checks of [Accept], with the identity it parses
    to and the canonical form of its event. *)
Definition request_ok range (rq : Request) (id : DeliveryIdentity) (ce : CanonicalEvent) : Prop :=
  rq_CorePrincipalID rq <> [] /\ rq_DestinationID rq <> [] /\ event_is_nil (rq_Event rq) = false /\
  ParseDeliveryIdentity (rq_DeliveryIdentity rq) = Ok id /\ formatUUID id = rq_DeliveryIdentity rq /\
  CanonicalizeEvent range (rq_Event rq) = Ok ce.

(** The prepared acceptance is the one the request asked for. *)
Definition prepared_for (prepared : PreparedAcceptance) (rq : Request) (id : DeliveryIdentity)
    (ce : CanonicalEvent) : Prop :=
  pa_corePrincipalID prepared = rq_CorePrincipalID rq /\ pa_destinationID prepared = rq_DestinationID rq /\
  pa_deliveryIdentity prepared = id /\ pa_formatVersion prepared = ce_formatVersion ce /\
  pa_equivalenceDigest prepared = ce_digest ce /\ pa_encryptionKeyID prepared <> [] /\
  protected_valid (pa_canonicalEvent prepared) = true /\ protected_valid (pa_protectedDigest prepared) = true.

Lemma length_zero_bool {X} (l : list X) : (length l =?? 0%nat) = negb (0 <? Z.of_nat (length l)).
Proof. by destruct l. Qed.

Lemma preparedMatchesRequest_true prepared rq id ce :
  preparedMatchesRequest prepared rq id ce = true <-> prepared_for prepared rq id ce.
Proof.
  unfold preparedMatchesRequest, prepared_for, protected_valid. rewrite !length_zero_bool.
  destruct (_ || (pa_encryptionKeyID prepared =?? [])) eqn:G.
  - split; [done|]. intros (E1 & E2 & E3 & E4 & _ & Hk & _).
    rewrite E1, E2, E3, E4, !bool_decide_eq_true_2, Z.eqb_refl, bool_decide_eq_false_2 in G by done. done.
  - rewrite !orb_false_iff, !negb_false_iff, Z.eqb_eq, !bool_decide_eq_true, bool_decide_eq_false in G.
    destruct G as ((((E1 & E2) & E3) & E4) & Hk). rewrite E1, E2, E3, E4.
    destruct (0 <? Z.of_nat (length (pv_ciphertext (pa_canonicalEvent prepared)))),
      (0 <? Z.of_nat (length (pv_nonce (pa_canonicalEvent prepared)))),
      (0 <? Z.of_nat (length (pv_ciphertext (pa_protectedDigest prepared)))),
      (0 <? Z.of_nat (length (pv_nonce (pa_protectedDigest prepared)))); simpl;
      rewrite ?bool_decide_eq_true; intuition congruence.
Qed.

Lemma validResult_true r :
  validResult r = true <->
  ((r_Disposition r = AcceptedNew \/ r_Disposition r = AcceptedDuplicate) /\ r_ReceiptID r <> zero_arr 16) \/
  (r_Disposition r = IdentityConflict /\ r_ReceiptID r = zero_arr 16).
Proof.
  unfold validResult.
  destruct (Z.eqb_spec (r_Disposition r) AcceptedNew) as [->|H1]; simpl.
  { rewrite negb_true_iff, arr_is_zero_false. unfold AcceptedNew, IdentityConflict. intuition lia. }
  destruct (Z.eqb_spec (r_Disposition r) AcceptedDuplicate) as [->|H2]; simpl.
  { rewrite negb_true_iff, arr_is_zero_false. unfold AcceptedDuplicate, IdentityConflict. intuition lia. }
  destruct (Z.eqb_spec (r_Disposition r) IdentityConflict) as [->|H3]; simpl.
  - rewrite arr_is_zero_true. unfold IdentityConflict, AcceptedNew, AcceptedDuplicate. intuition lia.
  - intuition done.
Qed.

(** The calls of an acceptance that reaches the store. *)
Definition accept_trace (ctx : Ctx) (rq : Request) (id : DeliveryIdentity) (ce : CanonicalEvent)
    (prepared : PreparedAcceptance) (answer : result Result) : trace IntakeE :=
  [@ev IntakeE (IntakeCtxErr ctx) None; @ev IntakeE (IntakeCtxErr ctx) None;
   @ev IntakeE (Protect ctx (rq_CorePrincipalID rq) (rq_DestinationID rq) id ce) (Ok prepared);
   @ev IntakeE (IntakeCtxErr ctx) None; @ev IntakeE (StoreAccept ctx prepared) answer].

Definition intake_errors : list sentinel :=
  [ErrIntakeInvalidRequest; ErrIntakeCanceled; ErrCanonicalEvent;
   ErrProtectionInvalid; ErrProtectionKeyUnavailable; ErrProtectionRandom; ErrProtectionFailed;
   ErrProtectedDigestUnreadable;
   ErrInvalidAcceptance; ErrReceiptGeneration; ErrStoreUnavailable; ErrStoreOutcomeUnknown;
   ErrStoreCanceled; ErrStoreFailure; ErrStoredRecordUnreadable].

Lemma classifyProtectionError_elem e : classifyProtectionError e ∈ intake_errors.
Proof.
  unfold classifyProtectionError, intake_errors.
  destruct (first_safe _ e) as [s|] eqn:F; simpl; [|in_list].
  apply first_safe_elem, list_elem_of_In in F. apply list_elem_of_In. simpl in *. tauto.
Qed.

Lemma classifyStoreError_elem e : classifyStoreError e ∈ intake_errors.
Proof.
  unfold classifyStoreError, intake_errors.
  destruct (first_safe _ e) as [s|] eqn:F; simpl; [|in_list].
  apply first_safe_elem, list_elem_of_In in F. apply list_elem_of_In. simpl in *. tauto.
Qed.

Lemma Accept_intake_error_elem range service ctx rq tr e :
  runs (Accept range service ctx rq) tr (Err e) -> exists s, e = Sentinel s /\ s ∈ intake_errors.
Proof.
  unfold Accept. intros H. runs_steps; simplify_eq; eexists; (split; [done|]);
    first [apply classifyProtectionError_elem|apply classifyStoreError_elem|unfold intake_errors; in_list].
Qed.

Lemma guard_false_request rq :
  (rq_CorePrincipalID rq =?? []) || (rq_DestinationID rq =?? []) || event_is_nil (rq_Event rq) = false <->
  rq_CorePrincipalID rq <> [] /\ rq_DestinationID rq <> [] /\ event_is_nil (rq_Event rq) = false.
Proof. rewrite !orb_false_iff, !bool_decide_eq_false. tauto. Qed.

(** The events of a trace that stops before the store. *)
Definition before_store (e : event IntakeE) : Prop :=
  match projT1 e with StoreAccept _ _ => False | _ => True end.

(** Every execution either fails before the store is called, or passes the
    checks and returns what the store's answer is classified to. *)
Lemma Accept_inv range service ctx rq tr res :
  runs (Accept range service ctx rq) tr res ->
  ((exists e, res = Err e) /\ Forall before_store tr) \/
  exists id ce prepared answer,
    service_ready service /\ ctx_is_nil ctx = false /\ request_ok range rq id ce /\
    prepared_for prepared rq id ce /\ tr = accept_trace ctx rq id ce prepared answer /\
    res = match answer with
          | Ok r => if validResult r then Ok r else Err ErrStoreFailure
          | Err e => Err (classifyStoreError e)
          end.
Proof.
  unfold Accept. intros H.
  runs_steps; try (left; split; [by eauto|by repeat constructor]).
  all: right; repeat match goal with
    | H : is_err ?e = false |- _ => destruct e; [discriminate H|clear H]
    | H : negb _ = false |- _ => apply negb_false_iff in H
    | H : _ || ctx_is_nil _ = false |- _ => rewrite !orb_false_iff in H; destruct H as [[? ?] ?]
    | H : _ || event_is_nil _ = false |- _ => apply guard_false_request in H as (? & ? & ?)
    | H : preparedMatchesRequest _ _ _ _ = true |- _ => apply preparedMatchesRequest_true in H
    | H : bool_decide _ = true |- _ => apply bool_decide_eq_true in H
    end.
  all: eexists _, _, _, _; split; [unfold service_ready; by eauto|]; split; [done|].
  all: split; [unfold request_ok; by split_and!|]; split; [done|]; split; [done|].
  all: cbn match; try done; match goal with |- context [validResult ?a] => by destruct (validResult a) end.
Qed.

Lemma Accept_runs range service ctx rq id ce prepared answer :
  service_ready service -> ctx_is_nil ctx = false -> request_ok range rq id ce ->
  prepared_for prepared rq id ce ->
  runs (Accept range service ctx rq) (accept_trace ctx rq id ce prepared answer)
    (match answer with
     | Ok r => if validResult r then Ok r else Err ErrStoreFailure
     | Err e => Err (classifyStoreError e)
     end).
Proof.
  intros (s & -> & H1 & H2) Hctx (Hc & Hd & He & Hp & Hf & Hce) Hfor.
  unfold Accept. rewrite H1, H2, Hctx. cbn [orb]. answer (@None error).
  rewrite (proj2 (guard_false_request rq)), Hp, bool_decide_eq_true_2, Hce by done. cbn [negb].
  answer (@None error). answer (Ok prepared).
  rewrite (proj2 (preparedMatchesRequest_true _ _ _ _)) by done. cbn [negb].
  answer (@None error). answer answer.
  destruct answer as [r|e]; [destruct (validResult r)|]; done.
Qed.

(** [Accept] returns a result exactly when the request is well formed, no
    check of the context found it cancelled, the protector returned an
    acceptance for this very request (same principal, destination, identity,
    version and digest), and the store answered with that result and the
    result is consistent: an acceptance with a receipt or a conflict without
    one. It makes these five calls and no others. *)
Theorem intake_Accept_decides range service ctx rq tr res :
  runs (Accept range service ctx rq) tr (Ok res) <->
  service_ready service /\ ctx_is_nil ctx = false /\
  exists id ce prepared, request_ok range rq id ce /\ prepared_for prepared rq id ce /\
    validResult res = true /\ tr = accept_trace ctx rq id ce prepared (Ok res).
Proof.
  split.
  - intros H. apply Accept_inv in H as [[[e He] _]|(id & ce & p & a & ? & ? & ? & ? & -> & E)]; [done|].
    do 2 (split; [done|]). destruct a as [r|]; [|done]. destruct (validResult r) eqn:?; simplify_eq.
    eauto 10.
  - intros (Hs & Hc & id & ce & p & Hr & Hp & Hv & ->).
    pose proof (Accept_runs range service ctx rq id ce p (Ok res) Hs Hc Hr Hp) as H.
    cbn match in H. by rewrite Hv in H.
Qed.

(** Every failure of [Accept] is one of fifteen fixed sentinels, and the
    store is called at most once, only for a well-formed request, and only
    with an acceptance prepared for that request; when the store was called
    and did not report [ErrStoreOutcomeUnknown], the caller does not see that
    error either. *)
Theorem intake_Accept_fails_closed range service ctx rq tr e :
  runs (Accept range service ctx rq) tr (Err e) ->
  (exists s, e = Sentinel s /\ s ∈ intake_errors) /\
  (Forall before_store tr \/
   exists id ce prepared answer, request_ok range rq id ce /\ prepared_for prepared rq id ce /\
     tr = accept_trace ctx rq id ce prepared answer /\
     (e = Sentinel ErrStoreOutcomeUnknown ->
      exists cause, answer = Err cause /\ errors_is cause ErrStoreOutcomeUnknown = true)).
Proof.
  intros H. split; [by eapply Accept_intake_error_elem|].
  apply Accept_inv in H as [[_ Hb]|(id & ce & p & a & ? & ? & ? & ? & -> & E)]; [by left|right].
  eexists _, _, _, _. split_and!; [done..|]. intros ->. destruct a as [r|cause].
  - by destruct (validResult r).
  - exists cause. split; [done|]. injection E as E. unfold classifyStoreError in E. simpl in E.
    repeat case_match; simplify_eq/=; done.
Qed.

Definition sample_request : Request :=
  mkRequest (lit "core") (lit "dest") (lit "00000000-0000-4000-8000-000000000001")
    (EIValue (EvTest (mkTestEvent (lit "MS OnCall")))).

Lemma intake_Accept_fails_closed_witness :
  exists s, Sentinel ErrIntakeCanceled = Sentinel s /\ s ∈ intake_errors.
Proof.
  apply (intake_Accept_fails_closed map_to_list (Some (mkService false false)) CtxReq sample_request
    [@ev IntakeE (IntakeCtxErr CtxReq) (Some (Sentinel Canceled))] (Sentinel ErrIntakeCanceled)).
  exists (Some (Sentinel Canceled)), []. repeat split; reflexivity.
Defined.
