(* ===== verification/Gateway.v ===== *)
(** The acceptance path as a whole: intake over payload protection and the
    durable store, over a shared table and a key ring, with any number of
    concurrent requests.

    Intake.v, Protection.v and Durable.v prove their components against
    arbitrary dependencies; here the components are each other's
    dependencies, and the repository satisfies the contract [repo_step] that
    AcceptanceRepo.v derives for the PostgreSQL repository. *)

From S2P Require Import Prelude Effects Concurrency GoErrors Encoding Uuid Sha256 AesGcm Events.
From S2P Require Import Canonical Durable Protection Intake.

(** * Wiring *)

(** The calls that remain external: the receipt generator, the repository, and
    the calls of the protection service. *)
Inductive sys_op : Type :=
| SysReceipt
| SysInsertOrLoad (ctx : Ctx) (candidate : Candidate)
| SysProt (o : prot_op).

Definition SysE : sig := Sig sys_op (fun o =>
  match o with
  | SysReceipt => result ReceiptID
  | SysInsertOrLoad _ _ => result PersistenceResult
  | SysProt o => ans ProtE o
  end).

Section Wiring.
Context `{A : AEAD}.
Variable range : gmap bytes bytes -> list (bytes * bytes).

Definition lift_prot {X} (p : prog ProtE X) : prog SysE X :=
  @interp ProtE SysE X (fun o : op ProtE => @call SysE (SysProt o)) p.

(** [protection.NewService(keys)], [durable.NewService(repository, opener)] and
    [intake.NewService(protector, store)] with non-nil arguments; the opener
    and the protector are the same protection service. *)
Definition protector : option Protection.Service := Some (Protection.mkService false false).
Definition store : option Durable.Service := Some (Durable.mkService false false false).
Definition intake : option Intake.Service := Some (Intake.mkService false false).

Definition store_impl (o : op StoreE) : prog SysE (ans StoreE o) :=
  match o with
  | NewReceiptID => @call SysE SysReceipt
  | InsertOrLoad ctx c => @call SysE (SysInsertOrLoad ctx c)
  | Durable.OpenDigest ctx rq => lift_prot (Protection.OpenDigest protector ctx rq)
  end.

Definition intake_impl (o : op IntakeE) : prog SysE (ans IntakeE o) :=
  match o with
  | IntakeCtxErr ctx => @call SysE (SysProt (CtxErr ctx))
  | Protect ctx core dest id ce => lift_prot (Prepare protector ctx core dest id ce)
  | StoreAccept ctx prepared => interp store_impl (Durable.Accept store ctx prepared)
  end.

(** One request through the whole path. *)
Definition gateway_accept (ctx : Ctx) (rq : Request) : prog SysE (result Result) :=
  interp intake_impl (Intake.Accept range intake ctx rq).
End Wiring.

(** * The environment *)

Section Environment.
(** The key ring: the material of every key id the key source may return. *)
Variable ring : gmap bytes bytes.

(** The key source answers with an error or a key of the ring. *)
Definition key_answer (e : event ProtE) : Prop :=
  match e with
  | existT (ActiveKey _) (Ok key) => ring !! key_id key = Some (key_material key)
  | existT (KeyByID _ _) (Ok key) => ring !! key_id key = Some (key_material key)
  | _ => True
  end.

Definition sys_step (T : table) (o : sys_op) : ans SysE o -> table -> Prop :=
  match o with
  | SysReceipt => fun _ T' => T' = T
  | SysInsertOrLoad _ c => fun r T' => repo_step T c r T'
  | SysProt o => fun r T' => T' = T /\ key_answer (@ev ProtE o r)
  end.
End Environment.

(** * The specification: a ledger of deliveries *)

(** The receipt and the event digest recorded for a delivery identity. *)
Abbreviation ledger := (gmap ident (ReceiptID * CanonicalDigest)).

Definition ledger_of (T : table) : ledger :=
  (fun c => (c_ReceiptID c, pa_equivalenceDigest (c_Acceptance c))) <$> T.

(** One request for identity [k] with event digest [d], atomically. *)
Inductive accept_spec (L : ledger) (k : ident) (d : CanonicalDigest) : result Result -> ledger -> Prop :=
| spec_new r : L !! k = None -> r <> zero_arr 16 ->
    accept_spec L k d (Ok (mkResult AcceptedNew r)) (<[k := (r, d)]> L)
| spec_duplicate r : L !! k = Some (r, d) ->
    accept_spec L k d (Ok (mkResult AcceptedDuplicate r)) L
| spec_conflict r d' : L !! k = Some (r, d') -> d' <> d ->
    accept_spec L k d (Ok (mkResult IdentityConflict (zero_arr 16))) L
| spec_error s : s ∈ intake_errors -> accept_spec L k d (Err (Sentinel s)) L
| spec_unknown r : L !! k = None ->
    accept_spec L k d (Err (Sentinel ErrStoreOutcomeUnknown)) (<[k := (r, d)]> L).

(** * Rows *)

Section Proofs.
Context `{A : AEAD} `{L : !AEADLaws A}.
Context (range : gmap bytes bytes -> list (bytes * bytes)).
Context (Hrange : forall m, range m ≡ₚ map_to_list m).
Context (ring : gmap bytes bytes).

Definition canonical_of (e : Event) : CanonicalEvent :=
  mkCanonicalEvent 1 (canonicalText e) (Sum256 (canonicalText e)).

(** A row of the table was written by [Prepare] for some event, under a key of
    the ring. *)
Definition row_ok (k : ident) (c : Candidate) : Prop :=
  let '(core, dest, id) := k in
  c_ReceiptID c <> zero_arr 16 /\
  exists key en dn ce,
    ring !! key_id key = Some (key_material key) /\ key_valid key = true /\
    aead_nonce_size = 12%nat /\ prepare_input_ok core dest id ce /\ ce_formatVersion ce = 1 /\
    c_Acceptance c = prepared_of key en dn core dest id ce.

Definition Inv (T : table) : Prop := forall k c, T !! k = Some c -> row_ok k c.

(** Interference by other requests only adds rows that are in order. *)
Definition grows (T T' : table) : Prop := T ⊆ T' /\ Inv T'.

(** Either interference, or none. *)
Variable rely : table -> table -> Prop.
Hypothesis rely_grows : forall T T', rely T T' -> grows T T'.
Hypothesis rely_trans : forall T1 T2 T3, rely T1 T2 -> rely T2 T3 -> rely T1 T3.
Hypothesis rely_refl : forall T, Inv T -> rely T T.

Abbreviation gwp := (wp (E := SysE) (sys_step ring) rely grows Inv).

Lemma rely_Inv T T' : rely T T' -> Inv T'.
Proof. intros H. by apply rely_grows in H as [_ ?]. Qed.

Lemma grows_refl T : Inv T -> grows T T.
Proof. by split. Qed.

Lemma Inv_insert T c :
  Inv T -> row_ok (ident_of (c_Acceptance c)) c -> Inv (<[ident_of (c_Acceptance c) := c]> T).
Proof.
  intros Hi Hc k c' Hk. apply lookup_insert_Some in Hk as [[<- <-]|[_ Hk]]; auto.
Qed.

(** Calls of the protection service leave the table alone, and their answers
    come from the key ring. *)
Lemma wp_lift {X} (p : prog ProtE X) (Q : X -> Prop) T :
  Inv T -> (forall tr a, runs p tr a -> Forall (key_answer ring) tr -> Q a) ->
  gwp (lift_prot p) (fun a T' => Q a /\ rely T T') T.
Proof.
  intros Hi HQ.
  assert (forall T1, rely T T1 -> gwp (lift_prot p) (fun a T' => Q a /\ rely T T') T1) as H; [|by auto].
  clear Hi. induction p as [a|o k IH]; intros T1 HT1.
  - intros T' Hr. split; [by apply (HQ [])|by eapply rely_trans].
  - intros T2 r T3 Hr [-> Hk]. assert (Inv T2) by (by eapply rely_Inv).
    split; [done|]. split; [by apply grows_refl|]. apply IH; [|by eapply rely_trans].
    intros tr a Hrun Hall. apply (HQ (ev o r :: tr)); [simpl; eauto|by constructor].
Qed.

Lemma Prepare_row ctx core dest id ce tr a :
  ce_formatVersion ce = 1 ->
  runs (Prepare protector ctx core dest id ce) tr (Ok a) -> Forall (key_answer ring) tr ->
  ident_of a = (core, dest, id) /\ pa_equivalenceDigest a = ce_digest ce /\
  pa_formatVersion a = 1 /\ validate a = true /\
  forall receipt, receipt <> zero_arr 16 -> row_ok (core, dest, id) (mkCandidate receipt a).
Proof.
  intros Hv H Hall.
  apply Prepare_runs_inv in H as (_ & _ & Hin & key & en & dn & Hk & Hne & Hn & -> & ->).
  split_and!; [done|done|done|by apply prepared_of_valid|].
  intros receipt Hr. split; [done|]. exists key, en, dn, ce. split_and!; try done.
  rewrite Forall_forall in Hall. apply (Hall (@ev ProtE (ActiveKey ctx) (Ok key))).
  unfold prepare_trace. in_list.
Qed.

(** The digest the store opens for a row is the digest the row was made from. *)
Lemma OpenDigest_row ctx core dest id row a tr d :
  row_ok (core, dest, id) row -> ident_of a = (core, dest, id) ->
  runs (Protection.OpenDigest protector ctx (open_request (stored_of row) a)) tr (Ok d) ->
  Forall (key_answer ring) tr -> d = pa_equivalenceDigest (c_Acceptance row).
Proof.
  intros (_ & key & en & dn & ce & Hring & Hk & Hn & Hin & Hv & Ha) Hid H Hall.
  injection Hid as E1 E2 E3.
  assert (open_request (stored_of row) a =
          digest_request (prepared_of key en dn core dest id ce)) as Erq.
  { unfold open_request, stored_of, digest_request. rewrite Ha, E1, E2, E3. done. }
  rewrite Erq in H.
  apply OpenDigest_runs_inv in H as (key' & aad & pt & -> & Hk' & Hid' & Haad & Hopen & ->).
  inversion Hall as [|? ? _ Hall']; inversion Hall' as [|? ? Hring' _]; subst. simpl in Hring'.
  cbn [digest_request do_EncryptionKeyID prepared_of pa_encryptionKeyID] in Hid'.
  assert (key' = key) as ->.
  { destruct key', key; simpl in *. subst. rewrite Hring in Hring'. by simplify_eq. }
  cbn -[buildAAD openProtected aad_bytes] in Haad, Hopen.
  rewrite buildAAD_guarded in Haad by auto. injection Haad as <-.
  rewrite openProtected_seal in Hopen by done. injection Hopen as <-.
  rewrite Ha. apply mk_arr_id.
Qed.

(** * Linearisation of the store *)

(** The request took effect at one instant between its call and its return:
    the table went from [T1] to [T2] as the ledger specification allows. *)
Definition linearised (k : ident) (d : CanonicalDigest) (T : table) (res : result Result) (T' : table) : Prop :=
  exists T1 T2, rely T T1 /\ rely T2 T' /\ grows T1 T2 /\
    accept_spec (ledger_of T1) k d res (ledger_of T2).

Lemma lookup_ledger T k : ledger_of T !! k =
  (fun c => (c_ReceiptID c, pa_equivalenceDigest (c_Acceptance c))) <$> (T !! k).
Proof. apply lookup_fmap. Qed.

Lemma ledger_insert T k c :
  ledger_of (<[k := c]> T) =
  <[k := (c_ReceiptID c, pa_equivalenceDigest (c_Acceptance c))]> (ledger_of T).
Proof. exact (fmap_insert (M := gmap ident) _ T k c). Qed.

Lemma linearised_error k d T s T' :
  Inv T' -> s ∈ intake_errors -> rely T T' -> linearised k d T (Err (Sentinel s)) T'.
Proof.
  intros Hi Hs Hr. exists T', T'. split_and!; [done|by apply rely_refl|by apply grows_refl|by constructor].
Qed.

Lemma store_errors_intake s : s ∈ store_errors -> s ∈ intake_errors.
Proof. rewrite !list_elem_of_In. simpl. tauto. Qed.

(** After the repository loaded a row, the store compares the digests. *)
Lemma wp_compare ctx T0 T row k a :
  ident_of a = k -> pa_formatVersion a = 1 -> Inv T -> T !! k = Some row ->
  rely T0 T ->
  gwp (interp store_impl
        (let stored := stored_of row in
         if arr_is_zero (s_ReceiptID stored) || (s_FormatVersion stored <=? 0) ||
            negb (protected_valid (s_ProtectedDigest stored)) || (s_EncryptionKeyID stored =?? [])
         then Ret (Err ErrStoredRecordUnreadable)
         else
           let! d := @call StoreE (Durable.OpenDigest ctx (open_request stored a)) in
           match d with
           | Err _ => Ret (Err ErrStoredRecordUnreadable)
           | Ok storedDigest =>
             if (s_FormatVersion stored =? pa_formatVersion a) &&
                digestsEqual storedDigest (pa_equivalenceDigest a)
             then Ret (Ok (mkResult AcceptedDuplicate (s_ReceiptID stored)))
             else Ret (Ok (mkResult IdentityConflict (zero_arr 16)))
           end))
    (linearised k (pa_equivalenceDigest a) T0) T.
Proof.
  intros Hid Hv Hi Hrow HT0. cbv zeta. destruct k as [[core dest] id].
  assert (Hok := Hi _ _ Hrow).
  destruct (_ || _); [intros T' Hr; apply linearised_error;
    [by eapply rely_Inv|unfold intake_errors; in_list|by eapply rely_trans]|].
  cbn [bind call interp store_impl]. apply wp_bind; [exact rely_refl|done|].
  eapply wp_mono; [apply (wp_lift _ (fun r => forall d, r = Ok d -> d = pa_equivalenceDigest (c_Acceptance row)));
    [done|]|].
  { intros tr r Hrun Hall d ->. by eapply OpenDigest_row. }
  intros r T' [Hd HT'] Hi'. destruct r as [d|e];
    [|intros T3 Hr; apply linearised_error; [by eapply rely_Inv|unfold intake_errors; in_list|by eauto]].
  rewrite (Hd d eq_refl). 
  assert (s_FormatVersion (stored_of row) = 1) as Efv.
  { destruct Hok as (_ & key & en & dn & ce & _ & _ & _ & _ & Hfv & E). simpl. by rewrite E. }
  rewrite Efv, Hv, Z.eqb_refl. cbn [andb]. unfold digestsEqual.
  case_bool_decide as Heq; intros T3 Hr; exists T, T; split_and!;
    [done|by eauto|by apply grows_refl| |done|by eauto|by apply grows_refl|].
  - constructor. rewrite lookup_ledger, Hrow. simpl. by rewrite Heq.
  - econstructor; [|exact Heq]. by rewrite lookup_ledger, Hrow.
Qed.

(** The whole store. *)
Lemma wp_store ctx T k a :
  ident_of a = k -> pa_formatVersion a = 1 -> validate a = true ->
  (forall receipt, receipt <> zero_arr 16 -> row_ok k (mkCandidate receipt a)) -> Inv T ->
  gwp (interp store_impl (Durable.Accept store ctx a)) (linearised k (pa_equivalenceDigest a) T) T.
Proof.
  intros Hid Hv Hval Hrow Hi. unfold Durable.Accept, store. cbn [repository_nil opener_nil receipts_nil orb].
  rewrite Hval. cbn [negb bind call interp store_impl].
  intros T1 r T2 Hr1 ->. split; [by eapply rely_Inv|]. split; [apply grows_refl; by eapply rely_Inv|].
  cbn [bind]. destruct r as [receipt|e];
    [|intros T3 Hr; apply linearised_error; [by eapply rely_Inv|unfold intake_errors; in_list|by eauto]].
  destruct (arr_is_zero receipt) eqn:Hz;
    [intros T3 Hr; apply linearised_error; [by eapply rely_Inv|unfold intake_errors; in_list|by eauto]|].
  apply arr_is_zero_false in Hz. cbn [bind call interp store_impl].
  intros T3 p T4 Hr3 Hstep. assert (Inv T3) by (by eapply rely_Inv).
  assert (Hrow' := Hrow receipt Hz). rewrite <- Hid in Hrow'.
  assert (rely T T3) by eauto. destruct Hstep as [stored Hnone Hs|row Hsome|e|e Hnone He].
  - (* inserted *)
    assert (Inv (<[ident_of a := mkCandidate receipt a]> T3)) as Hi'
      by (by apply (Inv_insert T3 (mkCandidate receipt a))).
    assert (grows T3 (<[ident_of a := mkCandidate receipt a]> T3)) as Hg
      by (split; [by apply insert_subseteq|done]).
    split; [done|]. split; [done|]. cbn [bind p_Inserted p_Stored]. rewrite Hs. cbn [c_ReceiptID].
    rewrite bool_decide_eq_true_2 by done. intros T5 Hr5. exists T3, (<[ident_of a := mkCandidate receipt a]> T3).
    split_and!; [done..|]. rewrite ledger_insert, Hid. constructor; [|done].
    rewrite lookup_ledger, <- Hid. cbn [c_Acceptance] in Hnone. by rewrite Hnone.
  - (* loaded *)
    split; [done|]. split; [by apply grows_refl|]. apply wp_compare; [done|done|done| |done].
    rewrite <- Hid. exact Hsome.
  - (* failed *)
    split; [done|]. split; [by apply grows_refl|]. intros T5 Hr5.
    apply linearised_error; [by eapply rely_Inv|apply store_errors_intake, classifyRepositoryError_elem|by eauto].
  - (* outcome unknown *)
    assert (Inv (<[ident_of a := mkCandidate receipt a]> T3)) as Hi'
      by (by apply (Inv_insert T3 (mkCandidate receipt a))).
    assert (grows T3 (<[ident_of a := mkCandidate receipt a]> T3)) as Hg
      by (split; [by apply insert_subseteq|done]).
    split; [done|]. split; [done|]. cbn [bind]. rewrite He. intros T5 Hr5.
    exists T3, (<[ident_of a := mkCandidate receipt a]> T3). split_and!; [done..|].
    rewrite ledger_insert, Hid. constructor. rewrite lookup_ledger, <- Hid.
    cbn [c_Acceptance] in Hnone. by rewrite Hnone.
Qed.

(** * Linearisation of the whole path *)

(** The intake service passes a linearised answer of the store through. *)
Lemma linearised_classified k d T answer T' :
  linearised k d T answer T' ->
  linearised k d T
    (match answer with
     | Ok r => if validResult r then Ok r else Err ErrStoreFailure
     | Err e => Err (classifyStoreError e)
     end) T'.
Proof.
  intros (T1 & T2 & Hr1 & Hr2 & Hg & Hspec). exists T1, T2. split_and!; [done..|].
  inversion Hspec as [r Hn Hz|r Hs|r d' Hs Hd|s Hs|r Hn]; subst.
  - rewrite (proj2 (validResult_true _)); [by constructor|]. left. auto.
  - rewrite (proj2 (validResult_true _)); [by constructor|]. left. split; [by right|].
    rewrite lookup_ledger in Hs. destruct (T1 !! k) as [c|] eqn:Hc; [|done]. simplify_eq/=.
    apply (rely_Inv _ _ Hr1) in Hc. destruct k as [[core dest] id]. apply Hc.
  - rewrite (proj2 (validResult_true _)); [by econstructor|]. by right.
  - constructor. apply classifyStoreError_elem.
  - by constructor.
Qed.

Lemma linearised_extend k d T0 T T' T'' res :
  rely T0 T -> linearised k d T res T' -> rely T' T'' -> linearised k d T0 res T''.
Proof. intros H0 (T1 & T2 & H1 & H2 & Hg & Hs) H3. exists T1, T2. eauto 10. Qed.

Lemma request_canonical rq id ce :
  request_ok range rq id ce ->
  exists e, underlying (rq_Event rq) = Some e /\ canonicalizable e = true /\ ce = canonical_of e.
Proof. intros (_ & _ & _ & _ & _ & H). by apply CanonicalizeEvent_ok in H. Qed.

(** What a completed request did. *)
Definition request_outcome (rq : Request) (T : table) (res : result Result) (T' : table) : Prop :=
  rely T T' /\ (exists s, res = Err (Sentinel s) /\ s ∈ intake_errors) \/
  exists id ce, request_ok range rq id ce /\
    linearised (rq_CorePrincipalID rq, rq_DestinationID rq, id) (ce_digest ce) T res T'.

Lemma wp_error rq T T1 s :
  s ∈ intake_errors -> rely T T1 ->
  gwp (interp intake_impl (Ret (Err (Sentinel s)))) (request_outcome rq T) T1.
Proof. intros Hs Hr T' Hr'. left. eauto. Qed.

(** A branch of the intake service that returns a fixed error. *)
Ltac fails := apply wp_error; [unfold intake_errors; in_list|done].

(** A check of the context: continue in the same table. *)
Ltac context_check T0 :=
  let T1 := fresh "T" in let e := fresh "e" in
  intros T1 e ? ? [-> _]; assert (Inv T1) by (by eapply rely_Inv); assert (rely T0 T1) by eauto;
  split; [done|]; split; [by apply grows_refl|]; cbn [bind]; destruct (is_err e); [fails|].

Lemma wp_gateway ctx rq T :
  Inv T -> gwp (gateway_accept range ctx rq) (request_outcome rq T) T.
Proof.
  intros Hi. unfold gateway_accept, Intake.Accept, intake. cbn [protector_nil store_nil orb].
  assert (rely T T) as HT by auto.
  destruct (ctx_is_nil ctx); [fails|]. context_check T.
  destruct (_ || event_is_nil _) eqn:G; [fails|]. apply guard_false_request in G as (Hc & Hd & Hn).
  destruct (ParseDeliveryIdentity _) as [id|] eqn:Hp; [|fails].
  case_bool_decide as Hf; cbn [negb]; [|fails].
  destruct (CanonicalizeEvent _ _) as [ce|] eqn:Hce; [|fails].
  assert (request_ok range rq id ce) as Hok by (unfold request_ok; by split_and!).
  destruct (request_canonical _ _ _ Hok) as (evt & _ & _ & Ece).
  context_check T.
  cbn [bind call interp intake_impl]. apply wp_bind; [exact rely_refl|done|].
  eapply wp_mono; [apply (wp_lift _ (fun r => forall a, r = Ok a ->
      ident_of a = (rq_CorePrincipalID rq, rq_DestinationID rq, id) /\
      pa_equivalenceDigest a = ce_digest ce /\ pa_formatVersion a = 1 /\ validate a = true /\
      forall receipt, receipt <> zero_arr 16 ->
        row_ok (rq_CorePrincipalID rq, rq_DestinationID rq, id) (mkCandidate receipt a))); [done|]|].
  { intros tr r Hrun Hall a ->. eapply Prepare_row; [|done..]. by rewrite Ece. }
  intros r T5 [Ha Hr5] Hi5. assert (rely T T5) by eauto. cbn [bind].
  destruct r as [a|]; [|apply wp_error; [apply classifyProtectionError_elem|done]].
  destruct (Ha a eq_refl) as (Hid & Hdig & Hfv & Hval & Hrow).
  destruct (preparedMatchesRequest _ _ _ _); cbn [negb]; [|fails].
  context_check T.
  cbn [bind call interp intake_impl]. apply wp_bind; [exact rely_refl|done|].
  eapply wp_mono; [by eapply wp_store|].
  intros answer T8 Hlin _. apply linearised_classified in Hlin. rewrite Hdig in Hlin.
  assert (forall T', rely T8 T' -> request_outcome rq T
    (match answer with
     | Ok r => if validResult r then Ok r else Err ErrStoreFailure
     | Err e => Err (classifyStoreError e)
     end) T') as Hdone
    by (intros T' HT'; right; exists id, ce; split; [done|by eapply linearised_extend]).
  destruct answer as [r|e2]; [destruct (validResult r)|]; exact Hdone.
Qed.
End Proofs.

(** * Properties *)

Definition accepted (r : Result) : Prop :=
  r_Disposition r = AcceptedNew \/ r_Disposition r = AcceptedDuplicate.

Section Claims.
Context `{A : AEAD} `{L : !AEADLaws A}.

Definition alone (ring : gmap bytes bytes) (T T' : table) : Prop := T = T' /\ Inv ring T'.

(** (C2) A request that runs alone refines the ledger: either it fails with a
    fixed error and the table is unchanged, or the request is well formed and
    the call is one atomic step of the ledger specification for its delivery
    identity and event digest - a new entry exactly when none was recorded,
    the recorded receipt exactly when the recorded digest is the event's, a
    conflict when it is another one, or an error, which leaves the ledger
    unchanged or says that the outcome is unknown. *)
Theorem gateway_refines_ledger (range : gmap bytes bytes -> list (bytes * bytes)) (ring : gmap bytes bytes)
    (ctx : Ctx) (rq : Request) (T : table) (res : result Result) (T' : table)
    (Hrange : forall m, range m ≡ₚ map_to_list m)
    (HT : Inv ring T)
    (Hexec : exec (E := SysE) (sys_step ring) (gateway_accept range ctx rq) T res T') :
  Inv ring T' /\
  ((T' = T /\ exists s, res = Err (Sentinel s) /\ s ∈ intake_errors) \/
   exists id ce, request_ok range rq id ce /\
     accept_spec (ledger_of T) (rq_CorePrincipalID rq, rq_DestinationID rq, id) (ce_digest ce)
       res (ledger_of T')).
Proof.
  assert (forall T, Inv ring T -> alone ring T T) as Hrefl by done.
  assert (forall T1 T2, alone ring T1 T2 -> grows ring T1 T2) as Hgrow by (by intros ?? [-> ?]).
  assert (forall T1 T2 T3, alone ring T1 T2 -> alone ring T2 T3 -> alone ring T1 T3) as Htrans
    by (by intros ??? [-> ?] [-> ?]).
  destruct (wp_exec _ _ _ _ Hrefl _ _ _ _ _ HT
    (wp_gateway range Hrange ring (alone ring) Hgrow Htrans Hrefl ctx rq T HT) Hexec) as [Ho Hi].
  split; [done|]. destruct Ho as [[[-> _] He]|(id & ce & Hok & T1 & T2 & [-> _] & [-> _] & _ & Hs)].
  - by left.
  - right. eauto.
Qed.

(** The entry of the ledger a completed request saw or made. *)
Lemma outcome_recorded range ring rq T res T' :
  request_outcome range ring (grows ring) rq T (Ok res) T' ->
  exists id ce r d, request_ok range rq id ce /\
    ledger_of T' !! (rq_CorePrincipalID rq, rq_DestinationID rq, id) = Some (r, d) /\
    ((accepted res /\ r_ReceiptID res = r /\ d = ce_digest ce) \/
     (r_Disposition res = IdentityConflict /\ d <> ce_digest ce)).
Proof.
  intros [[_ (s & Hs & _)]|(id & ce & Hok & T1 & T2 & _ & [Hsub _] & _ & Hspec)]; [done|].
  assert (forall k v, ledger_of T2 !! k = Some v -> ledger_of T' !! k = Some v) as Hup.
  { intros k v. rewrite !lookup_ledger, !fmap_Some. intros (c & Hc & ->).
    exists c. split; [|done]. by eapply lookup_weaken. }
  exists id, ce. inversion Hspec as [r Hn Hz E1 E2|r Hs E1 E2|r d' Hs Hd E1 E2| |]; subst.
  - exists r, (ce_digest ce). split; [done|]. split; [|left; split; [by left|done]].
    apply Hup. rewrite <- E2. apply lookup_insert_eq.
  - exists r, (ce_digest ce). split; [done|]. split; [|left; split; [by right|done]].
    apply Hup. by rewrite <- E2.
  - exists r, d'. split; [done|]. split; [|by right]. apply Hup. by rewrite <- E2.
Qed.

(** Two requests for the same delivery: same principal, destination and
    identity. *)
Definition same_delivery (rq1 rq2 : Request) : Prop :=
  rq_CorePrincipalID rq1 = rq_CorePrincipalID rq2 /\ rq_DestinationID rq1 = rq_DestinationID rq2 /\
  rq_DeliveryIdentity rq1 = rq_DeliveryIdentity rq2.

Definition collision (e1 e2 : Event) : Prop :=
  canonicalText e1 <> canonicalText e2 /\ Sum256 (canonicalText e1) = Sum256 (canonicalText e2).

(** Events with the same digest are equal unless SHA-256 collides on them. *)
Lemma digest_events e1 e2 :
  event_typed e1 -> event_typed e2 -> canonicalizable e1 = true -> canonicalizable e2 = true ->
  Sum256 (canonicalText e1) = Sum256 (canonicalText e2) -> e1 = e2 \/ collision e1 e2.
Proof.
  intros Ht1 Ht2 Hc1 Hc2 Hd. destruct (decide (canonicalText e1 = canonicalText e2)) as [E|E].
  - left. by apply canonicalText_inj.
  - by right.
Qed.

(** Every completed request of a pool has the outcome its own execution
    would have under interference. *)
Lemma pool_outcomes range ring (rqs : list (Ctx * Request)) T0 T ps :
  (forall m, range m ≡ₚ map_to_list m) -> Inv ring T0 ->
  pool_steps (E := SysE) (sys_step ring)
    (T0, (fun cr => gateway_accept range cr.1 cr.2) <$> rqs) (T, ps) ->
  forall i cr res, rqs !! i = Some cr -> ps !! i = Some (Ret res) ->
    request_outcome range ring (grows ring) cr.2 T0 res T.
Proof.
  intros Hrange HT0 Hsteps i cr res Hi Hres.
  assert (forall T, Inv ring T -> grows ring T T) as Hrefl by done.
  assert (forall T1 T2 T3, grows ring T1 T2 -> grows ring T2 T3 -> grows ring T1 T3) as Htrans.
  { intros ??? [H1 _] [H2 ?]. split; [|done]. by etrans. }
  destruct (pool_sound (E := SysE) (sys_step ring) (grows ring) (grows ring) (Inv ring) Hrefl Htrans
    (fun _ _ _ _ H => H)
    (fun i res T => forall cr, rqs !! i = Some cr -> request_outcome range ring (grows ring) cr.2 T0 res T)
    _ _ Hsteps) as (_ & _ & H).
  - done.
  - intros j q Hj. simpl in Hj. rewrite list_lookup_fmap in Hj.
    destruct (rqs !! j) as [[c r]|] eqn:E; [|done]. simplify_eq/=.
    eapply wp_mono; [by apply (wp_gateway range Hrange ring (grows ring) (fun _ _ H => H) Htrans Hrefl)|].
    intros res' T' Ho cr' E'. by simplify_eq.
  - by apply (H i res).
Qed.

(** (C1) At-most-once acceptance under concurrency. Let any number of requests
    run concurrently, their calls interleaved arbitrarily, over a shared
    table. If two of them for the same delivery have completed and the first
    was accepted, then: if the second was accepted too, both callers hold the
    same receipt and they sent the same event (or SHA-256 collides on the two
    canonical texts); if the second sent the same event, it was accepted with
    that receipt; and a conflict is reported only for a different event. *)
Theorem gateway_idempotent (range : gmap bytes bytes -> list (bytes * bytes)) (ring : gmap bytes bytes)
    (rqs : list (Ctx * Request)) (T0 T : table) (ps : list (prog SysE (result Result)))
    (i j : nat) (c1 c2 : Ctx) (rq1 rq2 : Request) (res1 res2 : Result) (e1 e2 : Event)
    (Hrange : forall m, range m ≡ₚ map_to_list m)
    (HT0 : Inv ring T0)
    (Hsteps : pool_steps (E := SysE) (sys_step ring)
      (T0, (fun cr => gateway_accept range cr.1 cr.2) <$> rqs) (T, ps))
    (Hi : rqs !! i = Some (c1, rq1)) (Hj : rqs !! j = Some (c2, rq2))
    (Hsame : same_delivery rq1 rq2)
    (He1 : underlying (rq_Event rq1) = Some e1) (He2 : underlying (rq_Event rq2) = Some e2)
    (Ht1 : event_typed e1) (Ht2 : event_typed e2)
    (Hres1 : ps !! i = Some (Ret (Ok res1))) (Hres2 : ps !! j = Some (Ret (Ok res2)))
    (Hacc : accepted res1) :
  (accepted res2 -> r_ReceiptID res2 = r_ReceiptID res1 /\ (e1 = e2 \/ collision e1 e2)) /\
  (e1 = e2 -> accepted res2 /\ r_ReceiptID res2 = r_ReceiptID res1) /\
  (r_Disposition res2 = IdentityConflict -> e1 <> e2).
Proof.
  pose proof (pool_outcomes range ring rqs T0 T ps Hrange HT0 Hsteps) as Hout.
  pose proof (outcome_recorded _ _ _ _ _ _ (Hout i _ _ Hi Hres1)) as (id & ce & r & d & Hok1 & Hl1 & Hd1).
  pose proof (outcome_recorded _ _ _ _ _ _ (Hout j _ _ Hj Hres2)) as (id' & ce' & r' & d' & Hok2 & Hl2 & Hd2).
  destruct Hsame as (Ec & Ed & Eid).
  assert (id = id') as <-.
  { destruct Hok1 as (_ & _ & _ & P1 & _), Hok2 as (_ & _ & _ & P2 & _). simpl in *. congruence. }
  simpl in Hl1, Hl2. rewrite Ec, Ed, Hl2 in Hl1. injection Hl1 as -> ->.
  destruct (request_canonical range Hrange _ _ _ Hok1) as (e1' & U1 & K1 & ->).
  destruct (request_canonical range Hrange _ _ _ Hok2) as (e2' & U2 & K2 & ->).
  simpl in U1, U2. rewrite He1 in U1. rewrite He2 in U2. simplify_eq.
  unfold accepted in *.
  destruct Hd1 as [(_ & <- & ->)|[E _]]; [|destruct Hacc as [H|H]; rewrite H in E; done].
  destruct Hd2 as [(Ha & -> & Hd)|[Hc Hd]].
  - split; [|split; [done|intros Hc ->; destruct Ha as [H|H]; rewrite H in Hc; done]].
    intros _. split; [done|]. by apply digest_events.
  - split; [intros [H|H]; rewrite H in Hc; done|].
    split; [by intros ->|]. by intros _ ->.
Qed.
End Claims.

(** * A concrete environment *)

Definition sample_ring : gmap bytes bytes := {[ key_id sample_key := key_material sample_key ]}.

(** A repository that never fails, one key, and a counter as random source. *)
Definition sample_handler (o : sys_op) (s : table * nat) : ans SysE o * (table * nat) :=
  match o return ans SysE o * (table * nat) with
  | SysReceipt => (Ok (mk_arr 16 [x07; Zb (Z.of_nat s.2)]), (s.1, S s.2))
  | SysInsertOrLoad _ c =>
      match s.1 !! ident_of (c_Acceptance c) with
      | Some row => (Ok (mkPersistence false (stored_of row)), s)
      | None => (Ok (mkPersistence true (stored_of c)), (<[ident_of (c_Acceptance c) := c]> s.1, s.2))
      end
  | SysProt (ActiveKey _) => (Ok sample_key, s)
  | SysProt (KeyByID _ _) => (Ok sample_key, s)
  | SysProt ReadNonce => (Ok (mk_arr 12 [Zb (Z.of_nat s.2)]), (s.1, S s.2))
  | SysProt (CtxErr _) => (None, s)
  end.

Lemma sample_handler_steps (o : sys_op) T n :
  sys_step sample_ring T o (sample_handler o (T, n)).1 (sample_handler o (T, n)).2.1.
Proof.
  destruct o as [|ctx c|o]; simpl; [done| |].
  - destruct (T !! ident_of (c_Acceptance c)) as [row|] eqn:E; simpl; by constructor.
  - destruct o; simpl; done.
Qed.

Definition sample_run (rq : Request) (s : table * nat) : result Result * (table * nat) :=
  run (E := SysE) sample_handler (gateway_accept map_to_list CtxReq rq) s.

Lemma sample_exec (rq : Request) (s : table * nat) :
  exec (E := SysE) (sys_step sample_ring) (gateway_accept map_to_list CtxReq rq) s.1
    (sample_run rq s).1 (sample_run rq s).2.1.
Proof. destruct s as [T n]. apply (run_exec (E := SysE)), sample_handler_steps. Qed.

(** The same delivery sent twice, then another event under its identity. *)
Definition sample_other : Request :=
  mkRequest (lit "core") (lit "dest") (lit "00000000-0000-4000-8000-000000000001")
    (EIValue (EvTest (mkTestEvent (lit "other")))).
Definition sample_s1 : table * nat := (sample_run sample_request (∅, 0%nat)).2.
Definition sample_receipt : ReceiptID := mk_arr 16 [x07; x02].

Lemma sample_first : (sample_run sample_request (∅, 0%nat)).1 = Ok (mkResult AcceptedNew sample_receipt).
Proof. vm_compute. reflexivity. Qed.

Lemma sample_second : (sample_run sample_request sample_s1).1 = Ok (mkResult AcceptedDuplicate sample_receipt).
Proof. vm_compute. reflexivity. Qed.

Lemma sample_third : (sample_run sample_other sample_s1).1 = Ok (mkResult IdentityConflict (zero_arr 16)).
Proof. vm_compute. reflexivity. Qed.

Lemma Inv_empty `{A : AEAD} ring : Inv ring ∅.
Proof. intros k c. by rewrite lookup_empty. Qed.

Lemma gateway_refines_ledger_witness :
  Inv sample_ring sample_s1.1.
Proof.
  exact (proj1 (gateway_refines_ledger map_to_list sample_ring CtxReq sample_request ∅
    (sample_run sample_request (∅, 0%nat)).1 sample_s1.1 ltac:(done) (Inv_empty sample_ring)
    (sample_exec sample_request (∅, 0%nat)))).
Defined.

Definition sample_pool : list (Ctx * Request) := [(CtxReq, sample_request); (CtxReq, sample_request)].

Lemma sample_pool_steps :
  pool_steps (E := SysE) (sys_step sample_ring)
    (∅, (fun cr => gateway_accept map_to_list cr.1 cr.2) <$> sample_pool)
    ((sample_run sample_request sample_s1).2.1,
     [Ret (Ok (mkResult AcceptedNew sample_receipt)); Ret (Ok (mkResult AcceptedDuplicate sample_receipt))]).
Proof.
  eapply pool_steps_trans.
  - apply (exec_pool (E := SysE) _ (gateway_accept map_to_list CtxReq sample_request) ∅
      (sample_run sample_request (∅, 0%nat)).1 sample_s1.1 _ 0%nat); [done|].
    apply (sample_exec sample_request (∅, 0%nat)).
  - rewrite sample_first, <- sample_second.
    apply (exec_pool (E := SysE) _ (gateway_accept map_to_list CtxReq sample_request) sample_s1.1
      (sample_run sample_request sample_s1).1 (sample_run sample_request sample_s1).2.1
      [Ret (Ok (mkResult AcceptedNew sample_receipt)); gateway_accept map_to_list CtxReq sample_request] 1%nat);
      [done|].
    exact (sample_exec sample_request sample_s1).
Qed.

Lemma gateway_idempotent_witness :
  accepted (mkResult AcceptedDuplicate sample_receipt) /\
  r_ReceiptID (mkResult AcceptedDuplicate sample_receipt) = r_ReceiptID (mkResult AcceptedNew sample_receipt).
Proof.
  apply (gateway_idempotent map_to_list sample_ring sample_pool ∅
    ((sample_run sample_request sample_s1).2.1)
    [Ret (Ok (mkResult AcceptedNew sample_receipt)); Ret (Ok (mkResult AcceptedDuplicate sample_receipt))]
    0%nat 1%nat CtxReq CtxReq sample_request sample_request
    (mkResult AcceptedNew sample_receipt) (mkResult AcceptedDuplicate sample_receipt)
    (EvTest (mkTestEvent (lit "MS OnCall"))) (EvTest (mkTestEvent (lit "MS OnCall"))));
    [done|apply Inv_empty|apply sample_pool_steps|reflexivity|reflexivity|repeat split|reflexivity|
     reflexivity|exact I|exact I|reflexivity|reflexivity|left; reflexivity|reflexivity].
Defined.
