(* ===== verification/AcceptanceRepo.v ===== *)
(** The PostgreSQL acceptance repository: internal/postgres/acceptance.go.

    [InsertOrLoad] is one read-committed transaction on one pooled
    connection: insert the candidate unless its delivery identity is taken,
    otherwise read the row. The connection and the transaction are external
    calls; the second half of the file gives them the meaning of the two SQL
    statements over the table and derives the repository contract that
    Durable.v and Gateway.v rely on. *)

From S2P Require Import Prelude Effects Concurrency GoTime GoErrors Encoding Uuid Durable.

Definition acceptanceRollbackTimeout : Duration := 5 * Second.

(** The arguments of [insertAcceptanceSQL], in order. *)
Record InsertArgs : Type := mkInsertArgs {
  ia_receipt : bytes; ia_core : bytes; ia_dest : bytes; ia_identity : bytes; ia_version : Z;
  ia_event_ciphertext : bytes; ia_event_nonce : bytes;
  ia_digest_ciphertext : bytes; ia_digest_nonce : bytes; ia_key : bytes
}.

(** The columns of [selectAcceptanceSQL]. *)
Record SelectRow : Type := mkSelectRow {
  sr_receipt : bytes; sr_version : Z; sr_ciphertext : bytes; sr_nonce : bytes; sr_key : bytes
}.

(** [acceptanceConnection], [acceptanceTransaction] and [ctx.Err()]. *)
Inductive acc_op : Type :=
| AccAcquire (ctx : Ctx)
| AccBegin (ctx : Ctx)
| AccInsert (ctx : Ctx) (args : InsertArgs)
| AccSelect (ctx : Ctx) (core dest identity : bytes)
| AccCommit (ctx : Ctx)
| AccRollback (ctx : Ctx)
| AccRelease
| AccDestroy
| AccCtxErr (ctx : Ctx).

Definition AccE : sig := Sig acc_op (fun o =>
  match o with
  | AccAcquire _ => option error
  | AccBegin _ => option error
  | AccInsert _ _ => result bytes
  | AccSelect _ _ _ _ => result SelectRow
  | AccCommit _ => option error
  | AccRollback _ => option error
  | AccRelease => unit
  | AccDestroy => unit
  | AccCtxErr _ => option error
  end).

(** [AcceptanceRepository]: [acquire_nil] when the acquire function is nil. *)
Record Repository : Type := mkRepository { acquire_nil : bool; rollbackTimeout : Duration }.

(** [newAcceptanceRepository]. *)
Definition newAcceptanceRepository (acquire_is_nil : bool) : Repository :=
  mkRepository acquire_is_nil acceptanceRollbackTimeout.

(** [contextFailure(ctx, err)]: the second and third calls of [ctx.Err()]
    happen only when the checks before them fail. *)
Definition contextFailure (ctx : Ctx) (e : error) : prog AccE bool :=
  if errors_is e Canceled || errors_is e DeadlineExceeded then Ret true
  else
    let! c := @call AccE (AccCtxErr ctx) in
    if opt_errors_is c Canceled then Ret true
    else
      let! c := @call AccE (AccCtxErr ctx) in
      Ret (opt_errors_is c DeadlineExceeded).

(** The local variables [release] and [transactionOpen]. *)
Record Locals : Type := mkLocals { l_release : bool; l_open : bool }.

Section InsertOrLoad.
Variables (repository : Repository) (ctx : Ctx) (candidate : Candidate).

(** The deferred functions, last registered first. *)
Definition deferred {A} (l : Locals) (a : A) : prog AccE A :=
  let! _ := (if l_open l
             then let! _ := @call AccE (AccRollback (CtxDetached (rollbackTimeout repository))) in Ret tt
             else Ret tt) in
  let! _ := (if l_release l then @call AccE AccRelease else Ret tt) in
  Ret a.

(** The closure [rollback]. *)
Definition rollback (kind : sentinel) (destroy : bool) (operation : string)
  : prog AccE (result PersistenceResult) :=
  let! e := @call AccE (AccRollback (CtxDetached (rollbackTimeout repository))) in
  match e with
  | Some e =>
      if negb (errors_is e ErrTxClosed) then
        let! _ := @call AccE AccDestroy in
        deferred (mkLocals false false) (Err (safeError ErrStoreOutcomeUnknown "durable acceptance cleanup"))
      else if destroy then
        let! _ := @call AccE AccDestroy in
        deferred (mkLocals false false) (Err (safeError kind operation))
      else deferred (mkLocals true false) (Err (safeError kind operation))
  | None =>
      if destroy then
        let! _ := @call AccE AccDestroy in
        deferred (mkLocals false false) (Err (safeError kind operation))
      else deferred (mkLocals true false) (Err (safeError kind operation))
  end.

(** [transaction.Commit(ctx)] and the return that follows it. *)
Definition commit (persisted : PersistenceResult) : prog AccE (result PersistenceResult) :=
  let! e := @call AccE (AccCommit ctx) in
  if is_err e then
    let! _ := @call AccE AccDestroy in
    deferred (mkLocals false false) (Err (safeError ErrStoreOutcomeUnknown "durable acceptance commit"))
  else deferred (mkLocals true false) (Ok persisted).

Definition insert_args : InsertArgs :=
  let acceptance := c_Acceptance candidate in
  mkInsertArgs (formatUUID (c_ReceiptID candidate)) (pa_corePrincipalID acceptance)
    (pa_destinationID acceptance) (formatUUID (pa_deliveryIdentity acceptance))
    (pa_formatVersion acceptance)
    (pv_ciphertext (pa_canonicalEvent acceptance)) (pv_nonce (pa_canonicalEvent acceptance))
    (pv_ciphertext (pa_protectedDigest acceptance)) (pv_nonce (pa_protectedDigest acceptance))
    (pa_encryptionKeyID acceptance).

(** The lookup after a conflict: lines 204 to 252. *)
Definition load : prog AccE (result PersistenceResult) :=
  let acceptance := c_Acceptance candidate in
  let! r := @call AccE (AccSelect ctx (pa_corePrincipalID acceptance) (pa_destinationID acceptance)
                          (formatUUID (pa_deliveryIdentity acceptance))) in
  match r with
  | Err e =>
      let! c := contextFailure ctx e in
      if c then rollback ErrStoreCanceled false "durable acceptance lookup"
      else if isConnectionInterruption e
      then rollback ErrStoreUnavailable true "durable acceptance lookup"
      else rollback ErrStoreFailure false "durable acceptance lookup"
  | Ok row =>
      match ParseReceiptID (sr_receipt row), NewProtectedValue (sr_ciphertext row) (sr_nonce row) with
      | Ok storedReceipt, Ok storedDigest =>
          if (sr_version row <=? 0) || (sr_key row =?? [])
          then rollback ErrStoredRecordUnreadable false "durable acceptance stored record"
          else commit (mkPersistence false
                 (mkStored storedReceipt (sr_version row) storedDigest (sr_key row)))
      | _, _ => rollback ErrStoredRecordUnreadable false "durable acceptance stored record"
      end
  end.

(** The insert and what follows: lines 157 to 202. *)
Definition insertThenLoad : prog AccE (result PersistenceResult) :=
  let! r := @call AccE (AccInsert ctx insert_args) in
  match r with
  | Ok insertedReceipt =>
      match ParseReceiptID insertedReceipt with
      | Err _ => rollback ErrStoreFailure false "durable acceptance insert result"
      | Ok persistedReceipt =>
          if persistedReceipt <>?? c_ReceiptID candidate
          then rollback ErrStoreFailure false "durable acceptance insert result"
          else commit (mkPersistence true
                 (mkStored (c_ReceiptID candidate) 0 zero_protected []))
      end
  | Err e =>
      if negb (errors_is e ErrNoRows) then
        let! c := contextFailure ctx e in
        if c then rollback ErrStoreCanceled false "durable acceptance insert"
        else if isConnectionInterruption e
        then rollback ErrStoreOutcomeUnknown true "durable acceptance insert"
        else rollback ErrStoreFailure false "durable acceptance insert"
      else load
  end.
End InsertOrLoad.

(** [AcceptanceRepository.InsertOrLoad]; [None] is a nil repository. *)
Definition InsertOrLoad (repository : option Repository) (ctx : Ctx) (candidate : Candidate)
  : prog AccE (result PersistenceResult) :=
  match repository with
  | None => Ret (Err (safeError ErrStoreFailure "durable acceptance configuration"))
  | Some repository =>
    if acquire_nil repository
    then Ret (Err (safeError ErrStoreFailure "durable acceptance configuration"))
    else
    let! e := @call AccE (AccAcquire ctx) in
    match e with
    | Some e =>
        let! c := contextFailure ctx e in
        if c then Ret (Err (safeError ErrStoreCanceled "durable acceptance connection"))
        else Ret (Err (safeError ErrStoreUnavailable "durable acceptance connection"))
    | None =>
      let! e := @call AccE (AccBegin ctx) in
      match e with
      | Some e =>
          if isConnectionInterruption e then
            let! _ := @call AccE AccDestroy in
            let! c := contextFailure ctx e in
            if c then deferred repository (mkLocals false false)
                        (Err (safeError ErrStoreCanceled "durable acceptance begin"))
            else deferred repository (mkLocals false false)
                   (Err (safeError ErrStoreUnavailable "durable acceptance begin"))
          else deferred repository (mkLocals true false)
                 (Err (safeError ErrStoreFailure "durable acceptance begin"))
      | None => insertThenLoad repository ctx candidate
      end
    end
  end.

(** * Connection discipline *)

(** The life of the pooled connection: not held, held outside a transaction,
    inside a transaction, or held in a state that must not be reused (a
    transaction whose end failed, or an interrupted begin). *)
Inductive conn : Type := Idle | Held | InTx | Dirty.

(** The protocol; [None] is a violation. *)
Definition conn_step (q : conn) (e : event AccE) : option conn :=
  match q, e with
  | q, existT (AccCtxErr _) _ => Some q
  | Idle, existT (AccAcquire _) None => Some Held
  | Idle, existT (AccAcquire _) (Some _) => Some Idle
  | Held, existT (AccBegin _) None => Some InTx
  | Held, existT (AccBegin _) (Some err) => Some (if isConnectionInterruption err then Dirty else Held)
  | InTx, existT (AccInsert _ _) _ => Some InTx
  | InTx, existT (AccSelect _ _ _ _) _ => Some InTx
  | InTx, existT (AccCommit _) r => Some (if is_err r then Dirty else Held)
  | InTx, existT (AccRollback _) None => Some Held
  | InTx, existT (AccRollback _) (Some err) => Some (if errors_is err ErrTxClosed then Held else Dirty)
  | Held, existT AccRelease _ => Some Idle
  | Held, existT AccDestroy _ => Some Idle
  | Dirty, existT AccDestroy _ => Some Idle
  | _, _ => None
  end.

Definition conn_run : conn -> trace AccE -> option conn := proto_run conn_step.

(** From state [q], every execution of [p] keeps to the protocol and gives the
    connection back. *)
Definition returns_conn {A} (q : conn) (p : prog AccE A) : Prop :=
  keeps conn_step q p (fun _ q' => q' = Idle).

Lemma returns_call {A} q (o : op AccE) (f : ans AccE o -> prog AccE A) :
  (forall r, exists q', conn_step q (ev o r) = Some q' /\ returns_conn q' (f r)) ->
  returns_conn q (bind (call o) f).
Proof. apply keeps_call. Qed.

Lemma returns_ret {A} (a : A) : returns_conn Idle (Ret a).
Proof. done. Qed.

Lemma returns_contextFailure {A} q ctx e (f : bool -> prog AccE A) :
  (forall b, returns_conn q (f b)) -> returns_conn q (bind (contextFailure ctx e) f).
Proof.
  intros H. unfold contextFailure. case_match; [apply H|].
  intros c. exists q. split; [by destruct q|]. simpl. case_match; [apply H|].
  intros c'. exists q. split; [by destruct q|]. apply H.
Qed.

Lemma returns_deferred {A} r (a : A) :
  returns_conn Held (deferred r (mkLocals true false) a) /\ returns_conn Idle (deferred r (mkLocals false false) a).
Proof. split; [|done]. intros u. by exists Idle. Qed.

Lemma returns_destroy {A} q r (a : A) :
  q = Held \/ q = Dirty ->
  returns_conn q (bind (@call AccE AccDestroy) (fun _ => deferred r (mkLocals false false) a)).
Proof.
  intros Hq. apply (returns_call q AccDestroy). intros u. exists Idle.
  split; [by destruct Hq as [-> | ->]|]. apply returns_deferred.
Qed.

Lemma returns_rollback r kind destroy operation : returns_conn InTx (rollback r kind destroy operation).
Proof.
  apply (returns_call InTx (AccRollback _)). intros [e|]; simpl.
  - destruct (errors_is e ErrTxClosed); eexists; (split; [done|]); simpl.
    + destruct destroy; [apply returns_destroy; by left|apply returns_deferred].
    + apply returns_destroy. by right.
  - eexists. split; [done|]. destruct destroy; [apply returns_destroy; by left|apply returns_deferred].
Qed.

Lemma returns_commit r ctx p : returns_conn InTx (commit r ctx p).
Proof.
  apply (returns_call InTx (AccCommit _)). intros e. destruct (is_err e) eqn:He; eexists.
  - split; [simpl; by rewrite He|]. apply returns_destroy. by right.
  - split; [simpl; by rewrite He|]. apply returns_deferred.
Qed.

Lemma returns_load r ctx c : returns_conn InTx (load r ctx c).
Proof.
  apply (returns_call InTx (AccSelect _ _ _ _)). intros res. eexists. split; [done|].
  destruct res as [row|e].
  - repeat case_match; first [apply returns_rollback|apply returns_commit].
  - apply returns_contextFailure. intros b. repeat case_match; apply returns_rollback.
Qed.

Lemma returns_insertThenLoad r ctx c : returns_conn InTx (insertThenLoad r ctx c).
Proof.
  apply (returns_call InTx (AccInsert _ _)). intros res. eexists. split; [done|].
  destruct res as [row|e]; repeat case_match;
    first [apply returns_rollback|apply returns_commit|apply returns_load|idtac].
  all: apply returns_contextFailure; intros []; apply returns_rollback.
Qed.

(** The connection protocol of [InsertOrLoad], whatever the pool and the
    server answer: at most one connection is acquired; it is given back
    exactly once, by [Release] or by [Destroy], and not used afterwards; it is
    never given back inside an open transaction; and a connection whose begin
    was interrupted, whose commit failed or whose rollback failed is
    destroyed, never released to the pool. *)
Theorem InsertOrLoad_connection repository ctx candidate tr res :
  runs (InsertOrLoad repository ctx candidate) tr res -> conn_run Idle tr = Some Idle.
Proof.
  intros H. cut (returns_conn Idle (InsertOrLoad repository ctx candidate)).
  { intros Hk. by destruct (keeps_runs _ _ _ _ _ _ Hk H) as (q & Hq & ->). }
  clear H.
  unfold InsertOrLoad. destruct repository as [r|]; [|apply returns_ret].
  destruct (acquire_nil r); [apply returns_ret|].
  apply (returns_call Idle (AccAcquire _)). intros [e|]; eexists; (split; [done|]).
  { apply returns_contextFailure. intros []; apply returns_ret. }
  apply (returns_call Held (AccBegin _)). intros [e|]; eexists; (split; [done|]).
  2: apply returns_insertThenLoad.
  destruct (isConnectionInterruption e); [|apply returns_deferred].
  apply (returns_call Dirty AccDestroy). intros u. exists Idle. split; [done|].
  apply returns_contextFailure. intros []; apply returns_deferred.
Qed.

(** * The meaning of the statements *)

(** The row an insert writes. The digest of the event is not a column in clear:
    [ghost] records which event the ciphertexts were made from. *)
Definition row_of_args (ghost : CanonicalDigest) (args : InsertArgs) : option Candidate :=
  match pg_uuid (ia_receipt args), pg_uuid (ia_identity args) with
  | Some receipt, Some id =>
      Some (mkCandidate receipt
        (mkPreparedAcceptance (ia_core args) (ia_dest args) id (ia_version args)
          (mkProtectedValue (ia_event_ciphertext args) (ia_event_nonce args))
          (mkProtectedValue (ia_digest_ciphertext args) (ia_digest_nonce args))
          (ia_key args) ghost))
  | _, _ => None
  end.

Definition select_row (c : Candidate) : SelectRow :=
  mkSelectRow (formatUUID (c_ReceiptID c)) (pa_formatVersion (c_Acceptance c))
    (pv_ciphertext (pa_protectedDigest (c_Acceptance c)))
    (pv_nonce (pa_protectedDigest (c_Acceptance c))) (pa_encryptionKeyID (c_Acceptance c)).

(** The committed table, the row this session inserted but did not commit, and
    the rows it committed. *)
Record db : Type := mkDb { db_table : table; db_pending : option Candidate; db_mine : list Candidate }.

Definition drop_pending (s : db) : db := mkDb (db_table s) None (db_mine s).

Definition apply_pending (s : db) : db :=
  match db_pending s with
  | Some c => mkDb (<[ident_of (c_Acceptance c) := c]> (db_table s)) None (c :: db_mine s)
  | None => drop_pending s
  end.

(** One call of the session. An insert returns its receipt when the identity
    is free and no row ([ErrNoRows]) only when it is taken; a select returns
    the committed row; a commit applies the pending row, and a failed commit
    may or may not have; every other call, and every failure, leaves the
    table as it is. *)
Definition sql_step (ghost : CanonicalDigest) (s : db) (o : acc_op) : ans AccE o -> db -> Prop :=
  match o with
  | AccInsert _ args => fun r s' =>
      match r with
      | Ok text => exists c, row_of_args ghost args = Some c /\
          db_table s !! ident_of (c_Acceptance c) = None /\ text = formatUUID (c_ReceiptID c) /\
          s' = mkDb (db_table s) (Some c) (db_mine s)
      | Err e => s' = drop_pending s /\
          (errors_is e ErrNoRows = true ->
           exists c row, row_of_args ghost args = Some c /\
             db_table s !! ident_of (c_Acceptance c) = Some row)
      end
  | AccSelect _ core dest identity => fun r s' => s' = s /\
      match r with
      | Ok row => exists id c, pg_uuid identity = Some id /\
          db_table s !! (core, dest, id) = Some c /\ row = select_row c
      | Err _ => True
      end
  | AccCommit _ => fun r s' => s' = apply_pending s \/ (is_err r = true /\ s' = drop_pending s)
  | AccCtxErr _ => fun _ s' => s' = s
  | _ => fun _ s' => s' = drop_pending s
  end.

(** The unique constraint keeps other sessions from committing a row for an
    identity this session has inserted. *)
Definition db_inv (s : db) : Prop :=
  forall c, db_pending s = Some c -> db_table s !! ident_of (c_Acceptance c) = None.

(** Other sessions only add rows, which are not this session's. *)
Definition db_rely (s s' : db) : Prop :=
  db_table s ⊆ db_table s' /\ db_pending s' = db_pending s /\ db_mine s' = db_mine s /\ db_inv s'.

Definition db_grows (s s' : db) : Prop := db_table s ⊆ db_table s'.

(** The call took one step of the repository contract at one instant, from
    the table [T1] to [T2], and committed the candidate exactly when that step
    inserts it. [T] and [mine] describe the state at the start of the call. *)
Definition contract (T : table) (mine : list Candidate) (c : Candidate) (r : result PersistenceResult) (s' : db) : Prop :=
  exists T1 T2, T ⊆ T1 /\ repo_step T1 c r T2 /\ T2 ⊆ db_table s' /\
    ((T2 = T1 /\ db_mine s' = mine) \/
     (T1 !! ident_of (c_Acceptance c) = None /\ T2 = <[ident_of (c_Acceptance c) := c]> T1 /\
      db_mine s' = c :: mine)).

Lemma row_of_insert_args c :
  row_of_args (pa_equivalenceDigest (c_Acceptance c)) (insert_args c) = Some c.
Proof.
  destruct c as [receipt [core dest id fv [ec en] [dc dn] key d]].
  unfold row_of_args, insert_args. cbn -[pg_uuid formatUUID]. by rewrite !pg_uuid_format.
Qed.

Section Refinement.
Variable ghost : CanonicalDigest.

Abbreviation swp := (wp (E := AccE) (sql_step ghost) db_rely db_grows db_inv).

Lemma sql_step_keeps s o r s' : db_inv s -> sql_step ghost s o r s' -> db_inv s' /\ db_grows s s'.
Proof.
  intros Hi. unfold db_grows. destruct o; simpl; try (by intros ->).
  - destruct r as [text|e].
    + intros (c & _ & Hn & _ & ->). split; [|done]. intros c' E. by simplify_eq/=.
    + by intros [-> _].
  - by intros [-> _].
  - intros [->|[_ ->]]; [|done]. unfold apply_pending. destruct (db_pending s) as [c|] eqn:E; [|done].
    split; [done|]. apply insert_subseteq. auto.
Qed.

(** Calls that neither insert nor commit. *)
Definition cleanup (o : acc_op) : Prop :=
  match o with AccInsert _ _ | AccCommit _ => False | _ => True end.

(** The state at the start of the call is still there. *)
Definition untouched (T : table) (mine : list Candidate) (s : db) : Prop :=
  T ⊆ db_table s /\ db_mine s = mine.

Lemma untouched_rely T mine s s' : untouched T mine s -> db_rely s s' -> untouched T mine s'.
Proof. intros [HT Hm] (Hsub & _ & Hm' & _). split; [by etrans|congruence]. Qed.

Lemma untouched_step T mine s o r s' :
  cleanup o -> untouched T mine s -> sql_step ghost s o r s' -> untouched T mine s'.
Proof. intros Ho H. destruct o; simpl; try done; try (by intros ->). by intros [-> _]. Qed.

(** A program of clean-up calls returns what its executions under arbitrary
    answers return, and inserts nothing. *)
Lemma wp_cleanup {A} (p : prog AccE A) (P : A -> Prop) T mine s :
  calls_only (E := AccE) cleanup p -> (forall tr a, runs p tr a -> P a) -> untouched T mine s ->
  swp p (fun a s' => P a /\ untouched T mine s') s.
Proof.
  intros Hc HP HJ. apply (wp_frame (E := AccE) (sql_step ghost) db_rely db_grows db_inv
    ltac:(by intros s1 s2 (_ & _ & _ & ?)) cleanup); [done|done|apply untouched_rely| |done].
  intros s1 o r s2 Ho H1 Hi Hst. destruct (sql_step_keeps s1 o r s2 Hi Hst) as [Hi' Hg].
  split; [done|]. split; [done|]. by eapply untouched_step.
Qed.

(** Clean-up programs that can only fail satisfy the contract without effect. *)
Definition only_fails (p : prog AccE (result PersistenceResult)) : Prop :=
  calls_only (E := AccE) cleanup p /\ forall tr r, runs p tr r -> exists e, r = Err e.

Lemma wp_fails T mine c p s : untouched T mine s -> only_fails p -> swp p (contract T mine c) s.
Proof.
  intros HT [Hc Hp]. eapply wp_mono; [by apply (wp_cleanup p (fun r => exists e, r = Err e) T mine)|].
  intros r s' [[e ->] [Hsub Hm]]. exists (db_table s'), (db_table s'). split; [done|].
  split; [constructor|]. split; [done|by left].
Qed.

(** After the effect is settled, the clean-up returns the value. *)
Lemma wp_settled T mine c r p s T1 T2 :
  calls_only (E := AccE) cleanup p -> (forall tr a, runs p tr a -> a = r) ->
  T ⊆ T1 -> repo_step T1 c r T2 -> T2 ⊆ db_table s ->
  ((T2 = T1 /\ db_mine s = mine) \/
   (T1 !! ident_of (c_Acceptance c) = None /\ T2 = <[ident_of (c_Acceptance c) := c]> T1 /\
    db_mine s = c :: mine)) ->
  swp p (contract T mine c) s.
Proof.
  intros Hc Hp H1 H2 H3 H4. eapply wp_mono; [by apply (wp_cleanup p (fun a => a = r) T2 (db_mine s))|].
  intros a s' [-> [Hsub Hm]]. exists T1, T2. split; [done|]. split; [done|]. split; [done|]. by rewrite Hm.
Qed.

Lemma deferred_result {A} r l (a : A) tr b : runs (deferred r l a) tr b -> b = a.
Proof. destruct l as [[] []]; cbn; intros H; by destruct_ex. Qed.

Lemma deferred_cleanup {A} r l (a : A) : calls_only (E := AccE) cleanup (deferred r l a).
Proof. destruct l as [[] []]; cbn; auto. Qed.

Lemma destroy_result {A} r l (a : A) tr b :
  runs (bind (@call AccE AccDestroy) (fun _ => deferred r l a)) tr b -> b = a.
Proof. intros (u & tr' & -> & H). by eapply deferred_result. Qed.

Lemma destroy_cleanup {A} r l (a : A) :
  calls_only (E := AccE) cleanup (bind (@call AccE AccDestroy) (fun _ => deferred r l a)).
Proof. split; [done|]. intros u. apply deferred_cleanup. Qed.

Lemma deferred_fails r l e : only_fails (deferred r l (Err e)).
Proof. split; [apply deferred_cleanup|]. intros tr a ->%deferred_result. eauto. Qed.

Lemma destroy_fails r l e : only_fails (bind (@call AccE AccDestroy) (fun _ => deferred r l (Err e))).
Proof. split; [apply destroy_cleanup|]. intros tr a ->%destroy_result. eauto. Qed.

Lemma ret_fails e : only_fails (Ret (Err e)).
Proof. split; [done|]. intros tr a [_ ->]. eauto. Qed.

Lemma call_fails (o : acc_op) f :
  cleanup o -> (forall r, only_fails (f r)) -> only_fails (bind (@call AccE o) f).
Proof.
  intros Ho Hf. split; [split; [done|intros r; apply Hf]|].
  intros tr res (r & tr' & -> & H). by eapply (Hf r).
Qed.

Lemma rollback_fails r kind destroy operation : only_fails (rollback r kind destroy operation).
Proof.
  apply (call_fails (AccRollback _)); [done|]. intros [e|]; repeat case_match;
    first [apply destroy_fails|apply deferred_fails].
Qed.

Lemma contextFailure_fails ctx e f :
  (forall b, only_fails (f b)) -> only_fails (bind (contextFailure ctx e) f).
Proof.
  intros Hf. unfold contextFailure. case_match; [apply Hf|].
  apply (call_fails (AccCtxErr _)); [done|]. intros c. case_match; [apply Hf|].
  apply (call_fails (AccCtxErr _)); [done|]. intros c'. apply Hf.
Qed.

(** Committing the pending candidate. *)
Lemma wp_commit_insert rp ctx T mine c s stored :
  untouched T mine s -> db_pending s = Some c -> s_ReceiptID stored = c_ReceiptID c ->
  swp (commit rp ctx (mkPersistence true stored)) (contract T mine c) s.
Proof.
  intros HT Hp Hs s1 e s2 Hr Hst. pose proof Hr as (Hsub & Hp1 & _ & Hi).
  destruct (sql_step_keeps _ _ _ _ Hi Hst) as [Hi2 Hg]. split; [done|]. split; [done|].
  apply (untouched_rely _ _ _ s1) in HT as [HT Hm]; [|done]. rewrite Hp in Hp1.
  assert (db_table s1 !! ident_of (c_Acceptance c) = None) as Hnone by auto.
  simpl in Hst. unfold apply_pending in Hst. rewrite Hp1, Hm in Hst. cbn [bind].
  destruct (is_err e); destruct Hst as [->|[? ->]]; try done.
  - eapply wp_settled; [apply destroy_cleanup|apply destroy_result|done|by apply (repo_unknown _ c)|done|by right].
  - apply wp_fails; [done|apply destroy_fails].
  - eapply wp_settled; [apply deferred_cleanup|apply deferred_result|done|by apply (repo_inserted _ c stored)|done|by right].
Qed.

(** Committing after a lookup. *)
Lemma wp_commit_loaded rp ctx T mine T1 c s row :
  T ⊆ T1 -> T1 !! ident_of (c_Acceptance c) = Some row -> untouched T1 mine s -> db_pending s = None ->
  swp (commit rp ctx (mkPersistence false (stored_of row))) (contract T mine c) s.
Proof.
  intros HT Hrow HT1 Hp s1 e s2 Hr Hst. pose proof Hr as (_ & Hp1 & _ & Hi).
  destruct (sql_step_keeps _ _ _ _ Hi Hst) as [Hi2 Hg]. split; [done|]. split; [done|].
  apply (untouched_rely _ _ _ s1) in HT1 as [HT1 Hm]; [|done].
  simpl in Hst. unfold apply_pending in Hst. rewrite Hp1, Hp in Hst. cbn [bind].
  assert (s2 = drop_pending s1) as -> by (by destruct Hst as [?|[? ?]]).
  destruct (is_err e).
  - apply wp_fails; [|apply destroy_fails]. split; [|done]. simpl. by transitivity T1.
  - eapply wp_settled; [apply deferred_cleanup|apply deferred_result|done|by apply (repo_loaded _ c row)|done|by left].
Qed.

Lemma select_row_stored c row receipt digest :
  row = select_row c -> ParseReceiptID (sr_receipt row) = Ok receipt ->
  NewProtectedValue (sr_ciphertext row) (sr_nonce row) = Ok digest ->
  mkStored receipt (sr_version row) digest (sr_key row) = stored_of c.
Proof.
  intros -> Hr Hd. unfold stored_of, ParseReceiptID in *. cbn -[durable_parseUUID formatUUID NewProtectedValue] in *.
  assert (receipt = c_ReceiptID c) as ->.
  { destruct (arr_is_zero (c_ReceiptID c)) eqn:Hz.
    - apply arr_is_zero_true in Hz. rewrite Hz in Hr. vm_compute in Hr. done.
    - rewrite durable_parse_format in Hr by done. by simplify_eq. }
  unfold NewProtectedValue in Hd. destruct (_ || _); simplify_eq.
  by destruct (pa_protectedDigest (c_Acceptance c)).
Qed.

Lemma wp_load rp ctx T mine c s row :
  untouched T mine s -> db_pending s = None -> db_table s !! ident_of (c_Acceptance c) = Some row ->
  swp (load rp ctx c) (contract T mine c) s.
Proof.
  intros HT Hp Hrow s1 res s2 Hr Hst. pose proof Hr as (Hsub & Hp1 & _ & Hi).
  destruct (sql_step_keeps _ _ _ _ Hi Hst) as [Hi2 Hg]. split; [done|]. split; [done|].
  simpl in Hst. destruct Hst as [-> Hres]. apply (untouched_rely _ _ _ s1) in HT; [|done].
  destruct res as [r|e].
  - destruct Hres as (id & c' & Hid & Hc' & Er). rewrite pg_uuid_format in Hid. simplify_eq Hid. intros <-.
    assert (c' = row) as ->.
    { eapply lookup_weaken in Hrow; [|exact Hsub].
      change (db_table s1 !! ident_of (c_Acceptance c) = Some c') in Hc'. congruence. }
    cbn [bind]. destruct (ParseReceiptID (sr_receipt r)) as [receipt|] eqn:Hrc;
      [destruct (NewProtectedValue _ _) as [digest|] eqn:Hd|];
      try (apply wp_fails; [done|apply rollback_fails]).
    destruct (_ || _); [apply wp_fails; [done|apply rollback_fails]|].
    rewrite (select_row_stored row r receipt digest) by done.
    apply wp_commit_loaded with (db_table s1); [apply HT| |split; [done|apply HT]|congruence]. by eapply lookup_weaken.
  - apply wp_fails; [done|]. apply (contextFailure_fails ctx e). intros b.
    repeat case_match; apply rollback_fails.
Qed.

Lemma wp_insert rp ctx T mine c s :
  ghost = pa_equivalenceDigest (c_Acceptance c) -> untouched T mine s ->
  swp (insertThenLoad rp ctx c) (contract T mine c) s.
Proof.
  intros Hghost HT s1 res s2 Hr Hst. pose proof Hr as (_ & _ & _ & Hi).
  destruct (sql_step_keeps _ _ _ _ Hi Hst) as [Hi2 Hg]. split; [done|]. split; [done|].
  simpl in Hst. rewrite Hghost, row_of_insert_args in Hst. apply (untouched_rely _ _ _ s1) in HT; [|done].
  destruct res as [text|e].
  - destruct Hst as (c' & Ec & Hnone & -> & ->). simplify_eq Ec. intros <-. cbn [bind].
    destruct (ParseReceiptID _) as [receipt|]; [|apply wp_fails; [done|apply rollback_fails]].
    destruct (negb _); [apply wp_fails; [done|apply rollback_fails]|].
    by apply wp_commit_insert.
  - destruct Hst as [-> Hrow]. cbn [bind]. destruct (errors_is e ErrNoRows); cbn [negb].
    + destruct Hrow as (c' & row & Ec & Hrow); [done|]. simplify_eq Ec. intros <-.
      by eapply wp_load.
    + apply wp_fails; [done|]. apply (contextFailure_fails ctx e). intros b.
      repeat case_match; apply rollback_fails.
Qed.

Lemma wp_InsertOrLoad repository ctx candidate s :
  ghost = pa_equivalenceDigest (c_Acceptance candidate) ->
  swp (InsertOrLoad repository ctx candidate) (contract (db_table s) (db_mine s) candidate) s.
Proof.
  intros Hghost. unfold InsertOrLoad. assert (untouched (db_table s) (db_mine s) s) as HT by done.
  destruct repository as [rp|]; [|apply wp_fails; [done|apply ret_fails]].
  destruct (acquire_nil rp); [apply wp_fails; [done|apply ret_fails]|].
  intros s1 e s2 Hr Hst. pose proof Hr as (_ & _ & _ & Hi).
  destruct (sql_step_keeps _ _ _ _ Hi Hst) as [Hi2 Hg]. split; [done|]. split; [done|].
  simpl in Hst. subst s2. apply (untouched_rely _ _ _ s1) in HT; [|done]. cbn [bind]. destruct e as [e|].
  { apply wp_fails; [done|]. apply (contextFailure_fails ctx e). intros []; apply ret_fails. }
  intros s3 e s4 Hr3 Hst. pose proof Hr3 as (_ & _ & _ & Hi3).
  destruct (sql_step_keeps _ _ _ _ Hi3 Hst) as [Hi4 Hg4]. split; [done|]. split; [done|].
  simpl in Hst. subst s4. apply (untouched_rely _ _ (drop_pending s1) s3) in HT; [|done]. cbn [bind].
  destruct e as [e|]; [|by apply wp_insert]. apply wp_fails; [done|].
  destruct (isConnectionInterruption e); [|apply deferred_fails].
  apply (call_fails AccDestroy); [done|]. intros u. apply (contextFailure_fails ctx e).
  intros []; apply deferred_fails.
Qed.
End Refinement.

(** (C3) [InsertOrLoad] implements the repository contract. Run against the
    meaning of its two statements, with other sessions committing rows
    between any two of its calls and with calls failing at will, it inserts
    the candidate exactly when the delivery identity is free, returns the
    stored receipt, version, digest and key of the row exactly when it is
    taken, and fails without effect or - only with the outcome-unknown error -
    after the candidate was inserted; the effect takes place at one instant,
    and this session committed the candidate exactly when that effect says
    so. *)
Theorem InsertOrLoad_contract repository ctx (candidate : Candidate) (s s' : db) res
    (Hexec : iexec (E := AccE) (sql_step (pa_equivalenceDigest (c_Acceptance candidate))) db_rely
      (InsertOrLoad repository ctx candidate) s res s') :
  contract (db_table s) (db_mine s) candidate res s'.
Proof.
  exact (wp_iexec _ _ db_grows db_inv _ _ _ _ _ (wp_InsertOrLoad _ repository ctx candidate s eq_refl) Hexec).
Qed.

(** * A concrete call *)

Definition sample_repository : option Repository := Some (newAcceptanceRepository false).
Definition sample_candidate : Candidate := mkCandidate (mk_arr 16 [x07]) sample_acceptance.
Definition sample_inserted : PersistenceResult :=
  mkPersistence true (mkStored (mk_arr 16 [x07]) 0 zero_protected []).

Definition sample_trace : trace AccE :=
  [@ev AccE (AccAcquire CtxReq) None; @ev AccE (AccBegin CtxReq) None;
   @ev AccE (AccInsert CtxReq (insert_args sample_candidate)) (Ok (formatUUID (mk_arr 16 [x07])));
   @ev AccE (AccCommit CtxReq) (Some (Sentinel EOF)); @ev AccE AccDestroy tt].

Lemma InsertOrLoad_connection_witness : conn_run Idle sample_trace = Some Idle.
Proof.
  apply (InsertOrLoad_connection sample_repository CtxReq sample_candidate sample_trace
    (Err (safeError ErrStoreOutcomeUnknown "durable acceptance commit"))).
  answer (@None error). answer (@None error). answer (Ok (formatUUID (mk_arr 16 [x07]))).
  answer (Some (Sentinel EOF)). answer tt. split; reflexivity.
Defined.

Definition db_with (c : option Candidate) : db := mkDb ∅ c [].
Definition db_after : db :=
  mkDb (<[ident_of sample_acceptance := sample_candidate]> ∅) None [sample_candidate].

Lemma db_rely_refl s : db_inv s -> db_rely s s.
Proof. by split. Qed.

Lemma InsertOrLoad_contract_witness :
  contract ∅ [] sample_candidate (Ok sample_inserted) db_after.
Proof.
  apply (InsertOrLoad_contract sample_repository CtxReq sample_candidate (db_with None) db_after
    (Ok sample_inserted)).
  assert (forall c, db_inv (db_with c)) as Hi by (intros c c' _; apply lookup_empty).
  assert (db_inv db_after) as Hi' by done.
  exists (db_with None), None, (db_with None). split; [by apply db_rely_refl|]. split; [done|].
  exists (db_with None), None, (db_with None). split; [by apply db_rely_refl|]. split; [done|].
  exists (db_with None), (Ok (formatUUID (mk_arr 16 [x07]))), (db_with (Some sample_candidate)).
  split; [by apply db_rely_refl|]. split.
  { exists sample_candidate. split; [exact (row_of_insert_args sample_candidate)|].
    split; [apply lookup_empty|]. split; reflexivity. }
  exists (db_with (Some sample_candidate)), None, db_after.
  split; [by apply db_rely_refl|]. split; [by left|].
  exists db_after, tt, db_after. split; [by apply db_rely_refl|]. split; [done|].
  split; [reflexivity|by apply db_rely_refl].
Defined.
