(* ===== verification/PgTypes.v ===== *)
(** Values of the PostgreSQL driver as authentication_state.go and the other
    repositories use them: [pgtype.Timestamptz], the finite instants in it, and
    the precision of a stored instant. *)

From Stdlib Require Import ZifyBool.
From S2P Require Import Prelude GoErrors GoTime.

(** [pgtype.Timestamptz]: null, an infinity, or an instant. *)
Inductive Timestamptz : Type :=
| TzNull
| TzInfinity (negative : bool)
| TzTime (t : Time).

#[export] Instance Timestamptz_eq_dec : EqDecision Timestamptz.
Proof. solve_decision. Defined.

(** What a [timestamptz] column holds of an instant: the driver sends whole
    microseconds. *)
Definition pg_time (t : Time) : Time := t_truncate t Microsecond.

(** [finiteTimestamp]. *)
Definition finiteTimestamp (value : Timestamptz) : bool :=
  match value with TzTime t => negb (t_is_zero t) | _ => false end.

(** [value.Time] of a timestamp known to be finite. *)
Definition tz_time (value : Timestamptz) : Time :=
  match value with TzTime t => t | _ => zero_time end.

(** [optionalFiniteTime]. *)
Definition optionalFiniteTime (value : Timestamptz) : result Time :=
  match value with
  | TzNull => Ok zero_time
  | TzInfinity _ => Err ErrAuthenticationStateIntegrity
  | TzTime t => if t_is_zero t then Err ErrAuthenticationStateIntegrity else Ok t
  end.

(** [x, err := r; if err != nil { return e }]. *)
Declare Scope result_scope.
Notation "'check!' x ':=' r 'or' e 'in' k" := (match r with Ok x => k | Err _ => Err e end)
  (at level 10, x name, r at level 100, e at level 100, k at level 200) : result_scope.
Open Scope result_scope.

Definition tz_of (t : Time) : Timestamptz := if t_is_zero t then TzNull else TzTime t.

(** A guard that fails. *)
Lemma if_err_ok {A} (b : bool) (r : result A) (x y : A) :
  (forall a, r <> Ok a) -> (if b then r else Ok x) = Ok y <-> b = false /\ y = x.
Proof. intros Hr. destruct b; (split; [|by intros [? ->]]); [by intros ?%Hr|by intros [= ->]]. Qed.

Lemma optionalFiniteTime_ok v t : optionalFiniteTime v = Ok t <-> v = tz_of t.
Proof.
  unfold optionalFiniteTime, tz_of. destruct v as [|n|t'].
  - split; [by intros [= <-]|]. unfold_time. destruct (t =? 0) eqn:E; [|done]. bool_hyps. by subst.
  - split; [done|]. by case_match.
  - destruct (t_is_zero t') eqn:E.
    + split; [done|]. destruct (t_is_zero t) eqn:E'; [done|]. intros [= ->]. congruence.
    + split; [intros [= ->]; by rewrite E|]. destruct (t_is_zero t); [done|]. by intros [= ->].
Qed.

Lemma finiteTimestamp_true v : finiteTimestamp v = true <-> v = TzTime (tz_time v) /\ tz_time v <> 0.
Proof.
  destruct v as [|n|t]; simpl; [split; [done|by intros []]..|].
  unfold_time. rewrite negb_true_iff, Z.eqb_neq. by split; [|intros []].
Qed.

(** One [check!] of a chain. *)
Lemma check_ok {A B} (r : result A) (e : error) (k : A -> result B) b :
  (check! x := r or e in k x) = Ok b <-> exists a, r = Ok a /\ k a = Ok b.
Proof.
  destruct r as [a|e']; split; [eauto| |done|].
  - by intros (? & [= ->] & ?).
  - by intros (? & ? & ?).
Qed.
