(* ===== verification/SecurityTypes.v ===== *)
(** Security state values: internal/securitystate/types.go and
    destination_verifier.go.

    Identifiers, nonces, tokens and their verifiers, principals, credentials,
    destinations and destination tokens with the validation of their
    lifecycle history and the instants at which they are usable. *)

From Stdlib Require Import ZifyBool.
From S2P Require Import Prelude GoErrors GoTime Encoding Uuid Sha256.

(** * Constants *)

Definition replayNonceEncodedLength : nat := 22.
Definition opaqueTokenPrefix : bytes := lit "mso1_".
Definition opaqueTokenBodyLength : nat := 43.
Definition keyIDMaxBytes : Z := 128.
Definition credentialMaxLifetime : Duration := 90 * 24 * Hour.
Definition credentialMaxOverlap : Duration := 24 * Hour.
Definition tokenMaxLifetime : Duration := 90 * 24 * Hour.
Definition tokenMaxCleanup : Duration := 24 * Hour.
Definition tokenMaxOverlap : Duration := 24 * Hour.

(** * Identifiers *)

Definition GatewayAudienceID := arr 16.
Definition CorePrincipalID := arr 16.
Definition CredentialSlotID := arr 16.
Definition CredentialRecordID := arr 16.
Definition CredentialID := arr 16.
Definition DestinationID := arr 16.
Definition DestinationTokenRecordID := arr 16.

(** [ParseGatewayAudienceID] to [ParseDestinationTokenRecordID]: only a
    credential id must be a version 4 UUID. *)
Definition ParseGatewayAudienceID (value : bytes) : result GatewayAudienceID := state_parseUUID value false.
Definition ParseCorePrincipalID (value : bytes) : result CorePrincipalID := state_parseUUID value false.
Definition ParseCredentialSlotID (value : bytes) : result CredentialSlotID := state_parseUUID value false.
Definition ParseCredentialRecordID (value : bytes) : result CredentialRecordID := state_parseUUID value false.
Definition ParseCredentialID (value : bytes) : result CredentialID := state_parseUUID value true.
Definition ParseDestinationID (value : bytes) : result DestinationID := state_parseUUID value false.
Definition ParseDestinationTokenRecordID (value : bytes) : result DestinationTokenRecordID :=
  state_parseUUID value false.

(** * Nonces, tokens, secrets and keys *)

Definition ReplayNonce := arr 16.
Definition OpaqueDestinationToken := arr 32.
Definition AuthenticationSecret := arr 32.

(** [ParseReplayNonce]. *)
Definition ParseReplayNonce (value : bytes) : result ReplayNonce :=
  if (length value <>?? replayNonceEncodedLength) || bool_decide (x3d ∈ value) then Err ErrInvalidState
  else match b64Decode value with
       | None => Err ErrInvalidState
       | Some decoded =>
           if (length decoded <>?? 16%nat) || (b64Encode decoded <>?? value) then Err ErrInvalidState
           else Ok (mk_arr 16 decoded)
       end.

(** [ParseOpaqueDestinationToken]. *)
Definition ParseOpaqueDestinationToken (value : bytes) : result OpaqueDestinationToken :=
  if (length value <>?? (length opaqueTokenPrefix + opaqueTokenBodyLength)%nat) ||
     negb (has_prefix opaqueTokenPrefix value) then Err ErrInvalidState
  else
    let body := drop (length opaqueTokenPrefix) value in
    match b64Decode body with
    | None => Err ErrInvalidState
    | Some decoded =>
        if (length decoded <>?? 32%nat) || (b64Encode decoded <>?? body) then Err ErrInvalidState
        else Ok (mk_arr 32 decoded)
    end.

(** [TokenVerifier]: [None] is the zero value, whose [present] flag is false. *)
Definition TokenVerifier := option (arr 32).

(** [NewTokenVerifier]. *)
Definition NewTokenVerifier (value : bytes) : result TokenVerifier :=
  if length value <>?? 32%nat then Err ErrInvalidState else Ok (Some (mk_arr 32 value)).

Definition verifier_is_zero (v : TokenVerifier) : bool := negb (bool_decide (is_Some v)).

(** [NewAuthenticationSecret]. *)
Definition NewAuthenticationSecret (value : bytes) : result AuthenticationSecret :=
  if length value <>?? 32%nat then Err ErrInvalidState else Ok (mk_arr 32 value).

(** [DestinationVerifierKey] holds its bytes. *)
Definition DestinationVerifierKey := bytes.

(** [NewDestinationVerifierKey]. *)
Definition NewDestinationVerifierKey (value : bytes) : result DestinationVerifierKey :=
  if Z.of_nat (length value) <? 32 then Err ErrInvalidState else Ok value.

(** [validKeyID]. *)
Definition validKeyID (value : bytes) : bool :=
  (value <>?? []) && utf8Valid value && (Z.of_nat (length value) <=? keyIDMaxBytes).

(** [AuthenticationKeyID] and [DestinationVerifierKeyID] hold their text. *)
Definition AuthenticationKeyID := bytes.
Definition DestinationVerifierKeyID := bytes.

(** [NewAuthenticationKeyID], [NewDestinationVerifierKeyID]. *)
Definition NewAuthenticationKeyID (value : bytes) : result AuthenticationKeyID :=
  if negb (validKeyID value) then Err ErrInvalidState else Ok value.
Definition NewDestinationVerifierKeyID (value : bytes) : result DestinationVerifierKeyID :=
  if negb (validKeyID value) then Err ErrInvalidState else Ok value.

(** * The destination token verifier (destination_verifier.go) *)

Definition destinationTokenVerifierDomain : bytes := lit "MS_ONCALL_GATEWAY_DESTINATION_TOKEN_V1".

(** The bytes written to the MAC. *)
Definition verifierMessage (audience : GatewayAudienceID) (token : OpaqueDestinationToken) : bytes :=
  destinationTokenVerifierDomain ++ [x00] ++ formatUUID audience ++ [x00] ++ arr_list token.

(** [ComputeDestinationTokenVerifier]. *)
Definition ComputeDestinationTokenVerifier (audience : GatewayAudienceID)
    (token : OpaqueDestinationToken) (key : DestinationVerifierKey) : result TokenVerifier :=
  if arr_is_zero audience || (Z.of_nat (length key) <? 32) then Err ErrInvalidState
  else NewTokenVerifier (HMAC_SHA256 key (verifierMessage audience token)).

(** * Principals and credential slots *)

Record Principal : Type := mkPrincipal {
  p_audienceID : GatewayAudienceID;
  p_id : CorePrincipalID;
  p_enabled : bool;
  p_intakeAuthorized : bool;
  p_createdAt : Time;
  p_stateChangedAt : Time
}.

(** [NewPrincipal]. *)
Definition NewPrincipal (audienceID : GatewayAudienceID) (id : CorePrincipalID)
    (enabled intakeAuthorized : bool) (createdAt stateChangedAt : Time) : result Principal :=
  if arr_is_zero audienceID || arr_is_zero id || t_is_zero createdAt || t_before stateChangedAt createdAt
  then Err ErrInvalidState
  else Ok (mkPrincipal audienceID id enabled intakeAuthorized createdAt stateChangedAt).

(** [Principal.AuthorizesIntake]. *)
Definition AuthorizesIntake (value : Principal) (audienceID : GatewayAudienceID) : bool :=
  negb (arr_is_zero audienceID) && (audienceID =?? p_audienceID value) && p_enabled value &&
  p_intakeAuthorized value.

Record CredentialSlot : Type := mkSlot {
  sl_audienceID : GatewayAudienceID;
  sl_principalID : CorePrincipalID;
  sl_id : CredentialSlotID;
  sl_createdAt : Time
}.

(** [NewCredentialSlot]. *)
Definition NewCredentialSlot (audienceID : GatewayAudienceID) (principal : Principal)
    (id : CredentialSlotID) (createdAt : Time) : result CredentialSlot :=
  if arr_is_zero audienceID || (p_audienceID principal <>?? audienceID) ||
     arr_is_zero (p_id principal) || arr_is_zero id || t_is_zero createdAt then
    if negb (arr_is_zero audienceID) && negb (arr_is_zero (p_audienceID principal)) &&
       (p_audienceID principal <>?? audienceID)
    then Err ErrAudienceMismatch
    else Err ErrInvalidState
  else Ok (mkSlot audienceID (p_id principal) id createdAt).

(** * Lifecycle history *)

(** [validateLifecycleHistory]. *)
Definition validateLifecycleHistory (createdAt stateChangedAt activatedAt retirementStartedAt
    retirementDeadline revokedAt : Time) (maxRetirementOverlap : Duration) : bool :=
  if t_is_zero createdAt || t_before stateChangedAt createdAt then false
  else if negb (t_is_zero activatedAt) &&
          (t_before activatedAt createdAt || t_after activatedAt stateChangedAt) then false
  else if negb (Bool.eqb (t_is_zero retirementStartedAt) (t_is_zero retirementDeadline)) then false
  else if negb (t_is_zero retirementStartedAt) &&
          (t_is_zero activatedAt || t_before retirementStartedAt activatedAt ||
           t_after retirementStartedAt stateChangedAt ||
           negb (t_after retirementDeadline retirementStartedAt) ||
           (maxRetirementOverlap <? t_sub retirementDeadline retirementStartedAt)) then false
  else if negb (t_is_zero revokedAt) &&
          (t_before revokedAt createdAt || t_after revokedAt stateChangedAt) then false
  else true.

(** * Credentials *)

(** [CredentialState], a uint8. *)
Definition CredentialState := Z.
Definition CredentialDisabled : CredentialState := 1.
Definition CredentialActive : CredentialState := 2.
Definition CredentialRetiring : CredentialState := 3.
Definition CredentialRevoked : CredentialState := 4.

Record CredentialSpec : Type := mkCredentialSpec {
  cs_AudienceID : GatewayAudienceID;
  cs_Principal : Principal;
  cs_Slot : CredentialSlot;
  cs_RecordID : CredentialRecordID;
  cs_PublicID : CredentialID;
  cs_State : CredentialState;
  cs_NotBefore : Time;
  cs_ExpiresAt : Time;
  cs_ActivatedAt : Time;
  cs_RetirementStartedAt : Time;
  cs_RetirementDeadline : Time;
  cs_RevokedAt : Time;
  cs_CreatedAt : Time;
  cs_StateChangedAt : Time
}.

(** [validateCredentialSpec]; [None] is success. *)
Definition validateCredentialSpec (spec : CredentialSpec) : option sentinel :=
  let aud := cs_AudienceID spec in
  if arr_is_zero aud || (p_audienceID (cs_Principal spec) <>?? aud) ||
     (sl_audienceID (cs_Slot spec) <>?? aud) ||
     (sl_principalID (cs_Slot spec) <>?? p_id (cs_Principal spec)) then
    if negb (arr_is_zero aud) &&
       ((negb (arr_is_zero (p_audienceID (cs_Principal spec))) &&
         (p_audienceID (cs_Principal spec) <>?? aud)) ||
        (negb (arr_is_zero (sl_audienceID (cs_Slot spec))) && (sl_audienceID (cs_Slot spec) <>?? aud)))
    then Some ErrAudienceMismatch
    else Some ErrInvalidState
  else if arr_is_zero (cs_RecordID spec) || arr_is_zero (cs_PublicID spec) ||
          arr_is_zero (sl_id (cs_Slot spec)) || t_is_zero (cs_CreatedAt spec) ||
          t_before (cs_NotBefore spec) (cs_CreatedAt spec) ||
          negb (t_after (cs_ExpiresAt spec) (cs_NotBefore spec)) ||
          (credentialMaxLifetime <? t_sub (cs_ExpiresAt spec) (cs_NotBefore spec))
  then Some ErrInvalidState
  else if negb (validateLifecycleHistory (cs_CreatedAt spec) (cs_StateChangedAt spec)
                  (cs_ActivatedAt spec) (cs_RetirementStartedAt spec) (cs_RetirementDeadline spec)
                  (cs_RevokedAt spec) credentialMaxOverlap)
  then Some ErrInvalidState
  else if cs_State spec =? CredentialDisabled then
    if negb (t_is_zero (cs_RevokedAt spec)) then Some ErrInvalidState else None
  else if cs_State spec =? CredentialActive then
    if t_is_zero (cs_ActivatedAt spec) || negb (t_is_zero (cs_RetirementStartedAt spec)) ||
       negb (t_is_zero (cs_RetirementDeadline spec)) || negb (t_is_zero (cs_RevokedAt spec))
    then Some ErrInvalidState else None
  else if cs_State spec =? CredentialRetiring then
    if t_is_zero (cs_ActivatedAt spec) || t_is_zero (cs_RetirementStartedAt spec) ||
       negb (t_is_zero (cs_RevokedAt spec))
    then Some ErrInvalidState else None
  else if cs_State spec =? CredentialRevoked then
    if t_is_zero (cs_RevokedAt spec) then Some ErrInvalidState else None
  else Some ErrInvalidState.

(** [Credential] holds its specification. *)
Definition Credential := CredentialSpec.

(** [NewCredential]. *)
Definition NewCredential (spec : CredentialSpec) : result Credential :=
  match validateCredentialSpec spec with Some e => Err e | None => Ok spec end.

(** [Credential.UsableAt]. *)
Definition credential_UsableAt (value : Credential) (now : Time) : bool :=
  if negb (cs_State value =? CredentialActive) && negb (cs_State value =? CredentialRetiring) then false
  else if t_before now (cs_NotBefore value) || t_before now (cs_ActivatedAt value) ||
          negb (t_before now (cs_ExpiresAt value)) then false
  else negb (cs_State value =? CredentialRetiring) || t_before now (cs_RetirementDeadline value).

(** * Destinations *)

Definition DestinationState := Z.
Definition DestinationEnabled : DestinationState := 1.
Definition DestinationDisabled : DestinationState := 2.

Record Destination : Type := mkDestination {
  dst_audienceID : GatewayAudienceID;
  dst_id : DestinationID;
  dst_state : DestinationState;
  dst_createdAt : Time;
  dst_stateChangedAt : Time;
  dst_createdRep : TimeRep;
  dst_changedRep : TimeRep
}.

(** [NewDestination]. *)
Definition NewDestination (audienceID : GatewayAudienceID) (id : DestinationID)
    (state : DestinationState) (createdAt stateChangedAt : Stamp) : result Destination :=
  if arr_is_zero audienceID || arr_is_zero id ||
     (negb (state =? DestinationEnabled) && negb (state =? DestinationDisabled)) ||
     t_is_zero createdAt.1 || t_before stateChangedAt.1 createdAt.1
  then Err ErrInvalidState
  else Ok (mkDestination audienceID id state createdAt.1 stateChangedAt.1 createdAt.2 stateChangedAt.2).

(** [Destination.Enabled]. *)
Definition destination_Enabled (value : Destination) : bool := dst_state value =? DestinationEnabled.

(** * Destination tokens *)

Definition DestinationTokenState := Z.
Definition DestinationTokenStaged : DestinationTokenState := 1.
Definition DestinationTokenActive : DestinationTokenState := 2.
Definition DestinationTokenRetiring : DestinationTokenState := 3.
Definition DestinationTokenRevoked : DestinationTokenState := 4.

Record DestinationTokenSpec : Type := mkTokenSpec {
  ts_AudienceID : GatewayAudienceID;
  ts_Destination : Destination;
  ts_RecordID : DestinationTokenRecordID;
  ts_Verifier : TokenVerifier;
  ts_VerifierKeyID : DestinationVerifierKeyID;
  ts_State : DestinationTokenState;
  ts_CreatedAt : Time;
  ts_ActivatedAt : Time;
  ts_RetirementStartedAt : Time;
  ts_RevokedAt : Time;
  ts_ExpiresAt : Time;
  ts_StagedCleanupDeadline : Time;
  ts_RetirementDeadline : Time;
  ts_StateChangedAt : Time
}.

(** [validateDestinationTokenSpec]; [None] is success. *)
Definition validateDestinationTokenSpec (spec : DestinationTokenSpec) : option sentinel :=
  let aud := ts_AudienceID spec in
  if arr_is_zero aud || (dst_audienceID (ts_Destination spec) <>?? aud) then
    if negb (arr_is_zero aud) && negb (arr_is_zero (dst_audienceID (ts_Destination spec))) &&
       (dst_audienceID (ts_Destination spec) <>?? aud)
    then Some ErrAudienceMismatch
    else Some ErrInvalidState
  else if arr_is_zero (dst_id (ts_Destination spec)) || arr_is_zero (ts_RecordID spec) ||
          verifier_is_zero (ts_Verifier spec) || (ts_VerifierKeyID spec =?? []) ||
          t_is_zero (ts_CreatedAt spec) || negb (t_after (ts_ExpiresAt spec) (ts_CreatedAt spec)) ||
          (tokenMaxLifetime <? t_sub (ts_ExpiresAt spec) (ts_CreatedAt spec)) ||
          negb (t_after (ts_StagedCleanupDeadline spec) (ts_CreatedAt spec)) ||
          (tokenMaxCleanup <? t_sub (ts_StagedCleanupDeadline spec) (ts_CreatedAt spec))
  then Some ErrInvalidState
  else if negb (validateLifecycleHistory (ts_CreatedAt spec) (ts_StateChangedAt spec)
                  (ts_ActivatedAt spec) (ts_RetirementStartedAt spec) (ts_RetirementDeadline spec)
                  (ts_RevokedAt spec) tokenMaxOverlap)
  then Some ErrInvalidState
  else if ts_State spec =? DestinationTokenStaged then
    if negb (t_is_zero (ts_ActivatedAt spec)) || negb (t_is_zero (ts_RetirementStartedAt spec)) ||
       negb (t_is_zero (ts_RetirementDeadline spec)) || negb (t_is_zero (ts_RevokedAt spec))
    then Some ErrInvalidState else None
  else if ts_State spec =? DestinationTokenActive then
    if t_is_zero (ts_ActivatedAt spec) || negb (t_is_zero (ts_RetirementStartedAt spec)) ||
       negb (t_is_zero (ts_RetirementDeadline spec)) || negb (t_is_zero (ts_RevokedAt spec))
    then Some ErrInvalidState else None
  else if ts_State spec =? DestinationTokenRetiring then
    if t_is_zero (ts_ActivatedAt spec) || t_is_zero (ts_RetirementStartedAt spec) ||
       negb (t_is_zero (ts_RevokedAt spec))
    then Some ErrInvalidState else None
  else if ts_State spec =? DestinationTokenRevoked then
    if t_is_zero (ts_RevokedAt spec) then Some ErrInvalidState else None
  else Some ErrInvalidState.

(** [DestinationToken] holds its specification. *)
Definition DestinationToken := DestinationTokenSpec.

(** [NewDestinationToken]. *)
Definition NewDestinationToken (spec : DestinationTokenSpec) : result DestinationToken :=
  match validateDestinationTokenSpec spec with Some e => Err e | None => Ok spec end.

(** [DestinationToken.UsableAt]. *)
Definition token_UsableAt (value : DestinationToken) (now : Time) : bool :=
  if negb (destination_Enabled (ts_Destination value)) ||
     (negb (ts_State value =? DestinationTokenActive) && negb (ts_State value =? DestinationTokenRetiring)) ||
     t_before now (ts_ActivatedAt value) || negb (t_before now (ts_ExpiresAt value)) then false
  else negb (ts_State value =? DestinationTokenRetiring) || t_before now (ts_RetirementDeadline value).

(** * Canonical texts *)

Lemma state_parse_iff v req id :
  state_parseUUID v req = Ok id <->
  v = formatUUID id /\ id <> zero_arr 16 /\ (req = true -> is_v4 id = true).
Proof.
  rewrite <- arr_is_zero_false. split; [apply state_parseUUID_inv|].
  intros (-> & Hz & Hv). by apply state_parse_format.
Qed.

(** Every identifier has exactly one text: parsing accepts a text if and
    only if it is the lower-case hyphenated form of a non-zero identifier (of
    version 4 for a credential id), and returns that identifier. *)
Theorem identifiers_canonical value (id : arr 16) :
  (ParseDestinationID value = Ok id <-> value = formatUUID id /\ id <> zero_arr 16) /\
  (ParseCredentialID value = Ok id <-> value = formatUUID id /\ is_v4 id = true) /\
  (ParseGatewayAudienceID value = Ok id <-> ParseDestinationID value = Ok id).
Proof.
  unfold ParseDestinationID, ParseCredentialID, ParseGatewayAudienceID.
  rewrite !state_parse_iff. split; [|split; [|done]].
  - split; [by intros (-> & ? & _)|by intros (-> & ?)].
  - split; [by intros (-> & _ & Hv); auto|].
    intros (-> & Hv). split; [done|]. split; [by apply arr_is_zero_false, v4_nonzero|done].
Qed.

Lemma b64_decode_inv n value decoded :
  b64Decode value = Some decoded ->
  (length decoded <>?? n) || (b64Encode decoded <>?? value) = false ->
  length decoded = n /\ b64Encode (mk_arr n decoded) = value.
Proof.
  intros _ H. apply orb_false_iff in H as [H1 H2]. bool_hyps. split; [done|].
  by rewrite mk_arr_exact.
Qed.

Lemma ParseReplayNonce_iff value n : ParseReplayNonce value = Ok n <-> value = b64Encode n.
Proof.
  unfold ParseReplayNonce. split.
  - intros H. repeat case_match; simplify_eq. symmetry. by eapply b64_decode_inv.
  - intros ->. rewrite b64Encode_length, arr_length, b64Decode_encode, arr_length, mk_arr_id.
    assert (x3d ∉ b64Encode n) as Hn.
    { intros Hin. pose proof (b64Encode_alphabet n) as Ha. rewrite Forall_forall in Ha.
      apply Ha in Hin. apply list_elem_of_In in Hin. vm_compute in Hin. intuition done. }
    rewrite (bool_decide_eq_false_2 (x3d ∈ _)), !bool_decide_eq_true_2 by done. done.
Qed.

Lemma ParseOpaqueDestinationToken_iff value t :
  ParseOpaqueDestinationToken value = Ok t <-> value = opaqueTokenPrefix ++ b64Encode t.
Proof.
  unfold ParseOpaqueDestinationToken. split.
  - intros H. destruct (_ || _) eqn:G; [done|]. apply orb_false_iff in G as [_ G]. bool_hyps.
    unfold has_prefix in G. bool_hyps. destruct G as [body ->]. rewrite drop_app_length in H.
    repeat case_match; simplify_eq. f_equal. symmetry. by eapply b64_decode_inv.
  - intros ->. rewrite length_app, b64Encode_length, arr_length, drop_app_length.
    rewrite b64Decode_encode, arr_length, mk_arr_id.
    unfold has_prefix. rewrite (bool_decide_eq_true_2 (_ `prefix_of` _)) by (by apply prefix_app_r).
    rewrite !bool_decide_eq_true_2 by done. done.
Qed.

(** Nonces and destination tokens have exactly one text, the unpadded
    URL-safe base64 of their bytes, for a token after its prefix: the parsers
    accept that text and no other (no padding, no line breaks, no stray
    trailing bits) and return the bytes. *)
Theorem token_texts_canonical value (n : ReplayNonce) (t : OpaqueDestinationToken) :
  (ParseReplayNonce value = Ok n <-> value = b64Encode n) /\
  (ParseOpaqueDestinationToken value = Ok t <-> value = opaqueTokenPrefix ++ b64Encode t).
Proof. split; [apply ParseReplayNonce_iff|apply ParseOpaqueDestinationToken_iff]. Qed.

(** * Verifiers *)

Lemma verifierMessage_inj a t a' t' :
  verifierMessage a t = verifierMessage a' t' -> a = a' /\ t = t'.
Proof.
  unfold verifierMessage. intros E. apply app_inv_head, app_inv_head in E.
  apply app_eq_length in E as [E1 E]; [|by rewrite !formatUUID_length].
  apply app_inv_head in E. split; [by apply formatUUID_inj|by apply arr_eq].
Qed.

Lemma ComputeVerifier_ok a t k v :
  ComputeDestinationTokenVerifier a t k = Ok v <->
  a <> zero_arr 16 /\ (32 <= length k)%nat /\ v = Some (HMAC_SHA256 k (verifierMessage a t)).
Proof.
  unfold ComputeDestinationTokenVerifier, NewTokenVerifier.
  destruct (_ || _) eqn:G.
  - split; [done|]. intros (Ha & Hk & _). apply orb_true_iff in G as [G|G]; bool_hyps; [done|lia].
  - apply orb_false_iff in G as [Ha Hk]. bool_hyps.
    rewrite arr_length, bool_decide_eq_true_2, mk_arr_id by done. cbn [negb].
    split; [intros ?; simplify_eq; split_and!; [done|lia|done]|by intros (_ & _ & ->)].
Qed.

(** A stored verifier identifies one token of one audience: verifiers are
    computed for every non-zero audience and every key of at least 32 bytes,
    and two of them under one key are equal only for the same audience and
    token, or when HMAC-SHA-256 collides on two different messages. *)
Theorem verifier_binds_token a t a' t' k v
    (H : ComputeDestinationTokenVerifier a t k = Ok v)
    (H' : ComputeDestinationTokenVerifier a' t' k = Ok v) :
  (a = a' /\ t = t') \/
  (verifierMessage a t <> verifierMessage a' t' /\
   HMAC_SHA256 k (verifierMessage a t) = HMAC_SHA256 k (verifierMessage a' t')).
Proof.
  apply ComputeVerifier_ok in H as (_ & _ & ->). apply ComputeVerifier_ok in H' as (_ & _ & E).
  apply (inj Some) in E. destruct (decide (verifierMessage a t = verifierMessage a' t')) as [Em|Em].
  - left. by apply verifierMessage_inj.
  - by right.
Qed.

(** The vector of destination_lifecycle_test.go. *)
Definition golden_token_text : bytes := lit "mso1_AAECAwQFBgcICQoLDA0ODxAREhMUFRYXGBkaGxwdHh8".
Definition golden_audience_text : bytes := lit "11111111-2222-3333-8444-555555555555".
Definition golden_key : DestinationVerifierKey := Zb <$> seqZ 0 32.

Example golden_verifier :
  match ParseOpaqueDestinationToken golden_token_text, ParseGatewayAudienceID golden_audience_text with
  | Ok token, Ok audience =>
      match ComputeDestinationTokenVerifier audience token golden_key with
      | Ok (Some v) => hexEncode v
      | _ => []
      end
  | _, _ => []
  end = lit "89090ee7ca4101838432e2efaee10d35355d6361e0c41a0776ec9d67c2470640".
Proof. vm_compute. reflexivity. Qed.

Definition sample_audience : GatewayAudienceID := mk_arr 16 [x01].
Definition sample_token : OpaqueDestinationToken := mk_arr 32 [x02].

Lemma verifier_binds_token_witness :
  let v := Some (HMAC_SHA256 golden_key (verifierMessage sample_audience sample_token)) in
  (sample_audience = sample_audience /\ sample_token = sample_token) \/
  (verifierMessage sample_audience sample_token <> verifierMessage sample_audience sample_token /\
   HMAC_SHA256 golden_key (verifierMessage sample_audience sample_token) =
   HMAC_SHA256 golden_key (verifierMessage sample_audience sample_token)).
Proof.
  apply (verifier_binds_token sample_audience sample_token sample_audience sample_token golden_key
    (Some (HMAC_SHA256 golden_key (verifierMessage sample_audience sample_token))));
    vm_compute; reflexivity.
Defined.

(** * Usability windows *)

(** A guard that rejects. *)
Lemma if_false_true (b c : bool) : (if b then false else c) = true <-> b = false /\ c = true.
Proof. destruct b; intuition done. Qed.

(** The history a valid credential or token carries. *)
Definition history_ok (created changed activated started deadline revoked : Time) (overlap : Duration) : Prop :=
  created <> 0 /\ created <= changed /\
  (activated <> 0 -> created <= activated <= changed) /\
  (started = 0 <-> deadline = 0) /\
  (started <> 0 -> activated <> 0 /\ activated <= started <= changed /\ started < deadline <= started + overlap) /\
  (revoked <> 0 -> created <= revoked <= changed).

Lemma lifecycle_history_true created changed activated started deadline revoked overlap :
  0 <= overlap < int64_max ->
  validateLifecycleHistory created changed activated started deadline revoked overlap = true <->
  history_ok created changed activated started deadline revoked overlap.
Proof.
  intros Ho. unfold validateLifecycleHistory, history_ok. unfold_time.
  rewrite !if_false_true. lia.
Qed.

(** A guard that returns an error, in the chain of an optional error. *)
Lemma if_some_none {A} (b : bool) (x : A) o : (if b then Some x else o) = None <-> b = false /\ o = None.
Proof. destruct b; intuition done. Qed.

Lemma if_guard_none {A} (b : bool) (x y : option A) :
  x <> None -> (if b then x else y) = None <-> b = false /\ y = None.
Proof. destruct b; intuition done. Qed.

(** What a valid credential carries. *)
Record credential_ok (c : CredentialSpec) : Prop := {
  co_audience : cs_AudienceID c <> zero_arr 16;
  co_principal : p_audienceID (cs_Principal c) = cs_AudienceID c;
  co_slot : sl_audienceID (cs_Slot c) = cs_AudienceID c /\ sl_principalID (cs_Slot c) = p_id (cs_Principal c);
  co_ids : cs_RecordID c <> zero_arr 16 /\ cs_PublicID c <> zero_arr 16 /\ sl_id (cs_Slot c) <> zero_arr 16;
  co_life : cs_CreatedAt c <= cs_NotBefore c < cs_ExpiresAt c /\
            cs_ExpiresAt c <= cs_NotBefore c + credentialMaxLifetime;
  co_history : history_ok (cs_CreatedAt c) (cs_StateChangedAt c) (cs_ActivatedAt c)
    (cs_RetirementStartedAt c) (cs_RetirementDeadline c) (cs_RevokedAt c) credentialMaxOverlap;
  co_state :
    (cs_State c = CredentialDisabled /\ cs_RevokedAt c = 0) \/
    (cs_State c = CredentialActive /\ cs_ActivatedAt c <> 0 /\ cs_RetirementStartedAt c = 0 /\
     cs_RetirementDeadline c = 0 /\ cs_RevokedAt c = 0) \/
    (cs_State c = CredentialRetiring /\ cs_ActivatedAt c <> 0 /\ cs_RetirementStartedAt c <> 0 /\
     cs_RevokedAt c = 0) \/
    (cs_State c = CredentialRevoked /\ cs_RevokedAt c <> 0)
}.

Lemma validateCredentialSpec_none c : validateCredentialSpec c = None <-> credential_ok c.
Proof.
  unfold validateCredentialSpec. cbv zeta.
  rewrite if_guard_none by (by case_match). rewrite !if_some_none.
  rewrite !orb_false_iff, !negb_false_iff, !arr_is_zero_false, !bool_decide_eq_true.
  rewrite lifecycle_history_true by (vm_compute; intuition done).
  unfold t_is_zero, t_before, t_after.
  split.
  - intros [[[[Ha Hp] Hs] Hsp] [[[[[[[Hr Hi] Hsl] Hc] Hn] He] Hl] [Hh Hst]]].
    split; try done.
    + clear -Hn He Hl. unfold credentialMaxLifetime, Hour, Minute, Second in *. unfold_time. lia.
    + clear -Hst Hh. unfold history_ok in Hh. repeat case_match; try done; lia.
  - intros [Ha Hp [Hs Hsp] (Hr & Hi & Hsl) Hl Hh Hst].
    assert (cs_CreatedAt c <> 0) by apply Hh.
    split_and!; try done; unfold_time; unfold credentialMaxLifetime, Hour, Minute, Second in *; try lia.
    clear -Hst Hh. unfold CredentialDisabled, CredentialActive, CredentialRetiring, CredentialRevoked in *.
    repeat case_match; try done; exfalso; lia.
Qed.

Lemma NewCredential_ok spec c : NewCredential spec = Ok c <-> c = spec /\ credential_ok spec.
Proof.
  unfold NewCredential. rewrite <- validateCredentialSpec_none.
  destruct (validateCredentialSpec spec); (split; [intros; by simplify_eq|by intros [-> ?]]).
Qed.

(** What a valid destination token carries. *)
Record token_ok (t : DestinationTokenSpec) : Prop := {
  to_audience : ts_AudienceID t <> zero_arr 16;
  to_destination : dst_audienceID (ts_Destination t) = ts_AudienceID t /\
                   dst_id (ts_Destination t) <> zero_arr 16;
  to_ids : ts_RecordID t <> zero_arr 16 /\ is_Some (ts_Verifier t) /\ ts_VerifierKeyID t <> [];
  to_life : ts_CreatedAt t < ts_ExpiresAt t <= ts_CreatedAt t + tokenMaxLifetime;
  to_cleanup : ts_CreatedAt t < ts_StagedCleanupDeadline t <= ts_CreatedAt t + tokenMaxCleanup;
  to_history : history_ok (ts_CreatedAt t) (ts_StateChangedAt t) (ts_ActivatedAt t)
    (ts_RetirementStartedAt t) (ts_RetirementDeadline t) (ts_RevokedAt t) tokenMaxOverlap;
  to_state :
    (ts_State t = DestinationTokenStaged /\ ts_ActivatedAt t = 0 /\ ts_RetirementStartedAt t = 0 /\
     ts_RetirementDeadline t = 0 /\ ts_RevokedAt t = 0) \/
    (ts_State t = DestinationTokenActive /\ ts_ActivatedAt t <> 0 /\ ts_RetirementStartedAt t = 0 /\
     ts_RetirementDeadline t = 0 /\ ts_RevokedAt t = 0) \/
    (ts_State t = DestinationTokenRetiring /\ ts_ActivatedAt t <> 0 /\ ts_RetirementStartedAt t <> 0 /\
     ts_RevokedAt t = 0) \/
    (ts_State t = DestinationTokenRevoked /\ ts_RevokedAt t <> 0)
}.

Lemma verifier_zero_false v : verifier_is_zero v = false <-> is_Some v.
Proof. unfold verifier_is_zero. by rewrite negb_false_iff, bool_decide_eq_true. Qed.

Lemma validateDestinationTokenSpec_none t : validateDestinationTokenSpec t = None <-> token_ok t.
Proof.
  unfold validateDestinationTokenSpec. cbv zeta.
  rewrite if_guard_none by (by case_match). rewrite !if_some_none.
  rewrite !orb_false_iff, !negb_false_iff, !arr_is_zero_false, verifier_zero_false,
    !bool_decide_eq_true, bool_decide_eq_false.
  rewrite lifecycle_history_true by (vm_compute; intuition done).
  unfold t_is_zero, t_before, t_after.
  split.
  - intros [[Ha Hd] [[[[[[[[[Hdi Hr] Hv] Hk] Hc] He] Hl] Hs] Hsl] [Hh Hst]]].
    split; try done.
    + clear -He Hl. unfold tokenMaxLifetime, Hour, Minute, Second in *. unfold_time. lia.
    + clear -Hs Hsl. unfold tokenMaxCleanup, Hour, Minute, Second in *. unfold_time. lia.
    + clear -Hst. repeat case_match; simplify_eq; bool_hyps; tauto.
  - intros [Ha [Hd Hdi] (Hr & Hv & Hk) Hl Hs Hh Hst].
    assert (ts_CreatedAt t <> 0) by apply Hh.
    split_and!; try done; unfold_time;
      unfold tokenMaxLifetime, tokenMaxCleanup, Hour, Minute, Second in *; try lia.
    clear -Hst Hh.
    unfold DestinationTokenStaged, DestinationTokenActive, DestinationTokenRetiring, DestinationTokenRevoked in *.
    repeat case_match; try done; exfalso; lia.
Qed.

Lemma NewDestinationToken_ok spec t : NewDestinationToken spec = Ok t <-> t = spec /\ token_ok spec.
Proof.
  unfold NewDestinationToken. rewrite <- validateDestinationTokenSpec_none.
  destruct (validateDestinationTokenSpec spec); (split; [intros; by simplify_eq|by intros [-> ?]]).
Qed.

(** A valid credential is usable at an instant exactly when it is active
    or retiring and the instant lies in its window: from the later of its
    not-before and activation instants up to its expiry and, when retiring,
    its retirement deadline. Such a credential is not revoked, belongs with
    its principal and slot to one audience, its window is at most 90 days
    long, and a retiring one is usable for at most 24 hours after its
    retirement started. *)
Theorem credential_usable_window spec c now
    (Hc : NewCredential spec = Ok c) :
  (credential_UsableAt c now = true <->
   (cs_State c = CredentialActive \/ cs_State c = CredentialRetiring /\ now < cs_RetirementDeadline c) /\
   cs_NotBefore c <= now /\ cs_ActivatedAt c <= now /\ now < cs_ExpiresAt c) /\
  (credential_UsableAt c now = true ->
   cs_RevokedAt c = 0 /\
   p_audienceID (cs_Principal c) = cs_AudienceID c /\ sl_audienceID (cs_Slot c) = cs_AudienceID c /\
   cs_CreatedAt c <= now < cs_NotBefore c + 90 * 24 * Hour /\
   (cs_State c = CredentialRetiring -> now < cs_RetirementStartedAt c + 24 * Hour)).
Proof.
  apply NewCredential_ok in Hc as [-> Hok].
  assert (credential_UsableAt spec now = true <->
   (cs_State spec = CredentialActive \/ cs_State spec = CredentialRetiring /\ now < cs_RetirementDeadline spec) /\
   cs_NotBefore spec <= now /\ cs_ActivatedAt spec <= now /\ now < cs_ExpiresAt spec) as Hiff.
  { unfold credential_UsableAt. rewrite !if_false_true.
    unfold_time. unfold CredentialActive, CredentialRetiring. lia. }
  split; [done|]. rewrite Hiff. clear Hiff.
  destruct Hok as [_ Hp [Hs _] _ Hl (_ & _ & _ & _ & Hret & _) Hst]. intros (Hu & Hn & Ha & He).
  unfold credentialMaxLifetime, credentialMaxOverlap, CredentialActive, CredentialRetiring,
    CredentialDisabled, CredentialRevoked in *.
  split_and!; [lia|done|done|lia|lia|]. intros Hr. lia.
Qed.

(** A valid destination token is usable at an instant exactly when its
    destination is enabled, it is active or retiring, and the instant lies
    between its activation and its expiry and, when retiring, before its
    retirement deadline. Such a token is neither staged nor revoked, belongs
    to the audience of its destination, was created at most 90 days before,
    and a retiring one is usable for at most 24 hours after its retirement
    started. *)
Theorem token_usable_window spec t now
    (Ht : NewDestinationToken spec = Ok t) :
  (token_UsableAt t now = true <->
   dst_state (ts_Destination t) = DestinationEnabled /\
   (ts_State t = DestinationTokenActive \/ ts_State t = DestinationTokenRetiring /\ now < ts_RetirementDeadline t) /\
   ts_ActivatedAt t <= now < ts_ExpiresAt t) /\
  (token_UsableAt t now = true ->
   ts_ActivatedAt t <> 0 /\ ts_RevokedAt t = 0 /\ dst_audienceID (ts_Destination t) = ts_AudienceID t /\
   ts_CreatedAt t <= now < ts_CreatedAt t + 90 * 24 * Hour /\
   (ts_State t = DestinationTokenRetiring -> now < ts_RetirementStartedAt t + 24 * Hour)).
Proof.
  apply NewDestinationToken_ok in Ht as [-> Hok].
  assert (token_UsableAt spec now = true <->
   dst_state (ts_Destination spec) = DestinationEnabled /\
   (ts_State spec = DestinationTokenActive \/ ts_State spec = DestinationTokenRetiring /\ now < ts_RetirementDeadline spec) /\
   ts_ActivatedAt spec <= now < ts_ExpiresAt spec) as Hiff.
  { unfold token_UsableAt, destination_Enabled. rewrite !if_false_true.
    unfold_time. unfold DestinationTokenActive, DestinationTokenRetiring, DestinationEnabled. lia. }
  split; [done|]. rewrite Hiff. clear Hiff.
  destruct Hok as [_ [Hd _] _ Hl _ (_ & _ & Hact & _ & Hret & _) Hst]. intros (He & Hu & Hn).
  unfold tokenMaxLifetime, tokenMaxOverlap, DestinationTokenActive, DestinationTokenRetiring,
    DestinationTokenStaged, DestinationTokenRevoked in *.
  assert (ts_ActivatedAt spec <> 0) by lia.
  split_and!; [done|lia|done|lia|lia|]. intros Hr. lia.
Qed.

(** A retiring credential and a retiring token, one hour into their overlap. *)
Definition sample_t0 : Time := of_unix 1900000000.

Definition sample_principal : Principal :=
  mkPrincipal sample_audience (mk_arr 16 [x02]) true true sample_t0 sample_t0.
Definition sample_slot : CredentialSlot :=
  mkSlot sample_audience (mk_arr 16 [x02]) (mk_arr 16 [x03]) sample_t0.

Definition sample_credential : CredentialSpec :=
  mkCredentialSpec sample_audience sample_principal sample_slot (mk_arr 16 [x04]) (mk_arr 16 [x05])
    CredentialRetiring sample_t0 (sample_t0 + 90 * 24 * Hour) (sample_t0 + Hour)
    (sample_t0 + 2 * Hour) (sample_t0 + 26 * Hour) 0 sample_t0 (sample_t0 + 2 * Hour).

Lemma credential_usable_window_witness :
  cs_RevokedAt sample_credential = 0 /\
  p_audienceID (cs_Principal sample_credential) = cs_AudienceID sample_credential /\
  sl_audienceID (cs_Slot sample_credential) = cs_AudienceID sample_credential /\
  cs_CreatedAt sample_credential <= sample_t0 + 3 * Hour < cs_NotBefore sample_credential + 90 * 24 * Hour /\
  (cs_State sample_credential = CredentialRetiring ->
   sample_t0 + 3 * Hour < cs_RetirementStartedAt sample_credential + 24 * Hour).
Proof.
  apply (proj2 (credential_usable_window sample_credential sample_credential (sample_t0 + 3 * Hour)
    ltac:(vm_compute; reflexivity))).
  vm_compute. reflexivity.
Defined.

Definition sample_destination : Destination :=
  mkDestination sample_audience (mk_arr 16 [x06]) DestinationEnabled sample_t0 sample_t0 utc_rep utc_rep.

Definition sample_token_spec : DestinationTokenSpec :=
  mkTokenSpec sample_audience sample_destination (mk_arr 16 [x07]) (Some (zero_arr 32)) (lit "key")
    DestinationTokenRetiring sample_t0 (sample_t0 + Hour) (sample_t0 + 2 * Hour) 0
    (sample_t0 + 90 * 24 * Hour) (sample_t0 + 24 * Hour) (sample_t0 + 26 * Hour) (sample_t0 + 2 * Hour).

Lemma token_usable_window_witness :
  ts_ActivatedAt sample_token_spec <> 0 /\ ts_RevokedAt sample_token_spec = 0 /\
  dst_audienceID (ts_Destination sample_token_spec) = ts_AudienceID sample_token_spec /\
  ts_CreatedAt sample_token_spec <= sample_t0 + 3 * Hour < ts_CreatedAt sample_token_spec + 90 * 24 * Hour /\
  (ts_State sample_token_spec = DestinationTokenRetiring ->
   sample_t0 + 3 * Hour < ts_RetirementStartedAt sample_token_spec + 24 * Hour).
Proof.
  apply (proj2 (token_usable_window sample_token_spec sample_token_spec (sample_t0 + 3 * Hour)
    ltac:(vm_compute; reflexivity))).
  vm_compute. reflexivity.
Defined.
