(* ===== verification/Authentication.v ===== *)
(** Request authentication: internal/authentication/request.go and service.go.

    [Authenticate] parses the canonical request, verifies its MAC under the
    secret of the credential, checks the timestamp, reserves the nonce and
    returns the principal. The registries, the secret source, the replay
    store, the clock and [ctx.Err()] are external calls. *)

From Stdlib Require Import ZifyBool.
From S2P Require Import Prelude Effects Concurrency GoErrors GoTime Encoding Uuid Sha256 Canonical Durable SecurityTypes.

Definition authenticationScheme : bytes := lit "MSOnCall-HMAC-SHA256".
Definition authorizationCredential : bytes := lit " Credential=".
Definition authorizationSignature : bytes := lit ", Signature=".
Definition canonicalPathPrefix : bytes := lit "/v1/goalert/contact-method/".
Definition canonicalSigningDomain : bytes := lit "MS_ONCALL_GATEWAY_REQUEST_V1".
Definition maximumTimestampDifference : Z := 60.

(** * Requests (request.go) *)

Record Request : Type := NewRequest {
  rq_method : bytes;
  rq_path : bytes;
  rq_deliveryIdentity : bytes;
  rq_authorizationValues : list bytes;
  rq_timestampValues : list bytes;
  rq_nonceValues : list bytes;
  rq_rawBody : bytes
}.

Record parsedRequest : Type := mkParsed {
  pr_path : bytes;
  pr_deliveryIdentity : bytes;
  pr_credentialID : CredentialID;
  pr_signature : arr 32;
  pr_timestampText : bytes;
  pr_timestamp : Z;
  pr_nonceText : bytes;
  pr_nonce : ReplayNonce;
  pr_rawBody : bytes
}.

(** * Parsing *)

(** [validCanonicalPath]. *)
Definition validCanonicalPath (path : bytes) : bool :=
  if negb (has_prefix canonicalPathPrefix path) then false
  else is_ok (ParseOpaqueDestinationToken (drop (length canonicalPathPrefix) path)).

(** The UTF-8 forms of the characters [strings.TrimSpace] removes. *)
Definition spaceRunes : list bytes :=
  [[x09]; [x0a]; [x0b]; [x0c]; [x0d]; [x20]; [xc2; x85]; [xc2; xa0]; [xe1; x9a; x80];
   [xe2; x80; xa8]; [xe2; x80; xa9]; [xe2; x80; xaf]; [xe2; x81; x9f]; [xe3; x80; x80]] ++
  ((fun z => [xe2; x80; Zb z]) <$> seqZ 128 11).

(** [strings.TrimSpace(value) == value]. *)
Definition trimmed (value : bytes) : bool :=
  forallb (fun sp => negb (has_prefix sp value) && negb (bool_decide (sp `suffix_of` value))) spaceRunes.

(** [exactlyOne]. *)
Definition exactlyOne (values : list bytes) : option bytes :=
  match values with
  | [value] =>
      if (value =?? []) || negb (trimmed value) || bool_decide (x0d ∈ value) || bool_decide (x0a ∈ value)
      then None else Some value
  | _ => None
  end.

(** [strings.Index]. *)
Fixpoint strings_Index (s sub : bytes) : option nat :=
  if has_prefix sub s then Some 0%nat
  else match s with
       | [] => None
       | _ :: s => S <$> strings_Index s sub
       end.

(** [parseAuthorization]. *)
Definition parseAuthorization (value : bytes) : option (CredentialID * arr 32) :=
  let prefix := authenticationScheme ++ authorizationCredential in
  if negb (has_prefix prefix value) then None
  else
    let remainder := drop (length prefix) value in
    match strings_Index remainder authorizationSignature with
    | None | Some O => None
    | Some separatorIndex =>
        let signatureText := drop (separatorIndex + length authorizationSignature) remainder in
        if bool_decide (is_Some (strings_Index signatureText authorizationSignature)) then None
        else
          let credentialText := take separatorIndex remainder in
          match ParseCredentialID credentialText with
          | Err _ => None
          | Ok credentialID =>
              if formatUUID credentialID <>?? credentialText then None
              else if (length signatureText <>?? 43%nat) || bool_decide (x3d ∈ signatureText) then None
              else match b64Decode signatureText with
                   | None => None
                   | Some decoded =>
                       if (length decoded <>?? 32%nat) || (b64Encode decoded <>?? signatureText) then None
                       else Some (credentialID, mk_arr 32 decoded)
                   end
          end
    end.

(** [parseTimestamp]. *)
Definition parseTimestamp (value : bytes) : option Z :=
  if (value =?? []) || ((1 <? Z.of_nat (length value)) && (hd x00 value =?? x30)) then None
  else if negb (forallb is_digit value) then None
  else parseUintDigits value.

(** [parseRequest]. *)
Definition parseRequest (request : Request) : result parsedRequest :=
  if (rq_method request <>?? lit "POST") || negb (validCanonicalPath (rq_path request))
  then Err ErrRequestInvalid
  else match ParseDeliveryIdentity (rq_deliveryIdentity request) with
  | Err _ => Err ErrRequestInvalid
  | Ok deliveryIdentity =>
    if formatUUID deliveryIdentity <>?? rq_deliveryIdentity request then Err ErrRequestInvalid
    else match exactlyOne (rq_authorizationValues request) with
    | None => Err ErrAuthenticationFailed
    | Some authorization =>
      match exactlyOne (rq_timestampValues request) with
      | None => Err ErrAuthenticationFailed
      | Some timestampText =>
        match exactlyOne (rq_nonceValues request) with
        | None => Err ErrAuthenticationFailed
        | Some nonceText =>
          match parseAuthorization authorization with
          | None => Err ErrAuthenticationFailed
          | Some (credentialID, signature) =>
            match parseTimestamp timestampText with
            | None => Err ErrAuthenticationFailed
            | Some timestamp =>
              match ParseReplayNonce nonceText with
              | Err _ => Err ErrAuthenticationFailed
              | Ok nonce =>
                  Ok (mkParsed (rq_path request) (rq_deliveryIdentity request) credentialID signature
                        timestampText timestamp nonceText nonce (rq_rawBody request))
              end
            end
          end
        end
      end
    end
  end.

(** [credentialRecordValid]. *)
Definition credentialRecordValid (credential : Credential) (audience : GatewayAudienceID)
    (publicID : CredentialID) : bool :=
  if (cs_PublicID credential <>?? publicID) || (cs_AudienceID credential <>?? audience) ||
     arr_is_zero (p_id (cs_Principal credential)) || arr_is_zero (sl_id (cs_Slot credential)) ||
     arr_is_zero (cs_RecordID credential) then false
  else (cs_State credential =? CredentialDisabled) || (cs_State credential =? CredentialActive) ||
       (cs_State credential =? CredentialRetiring) || (cs_State credential =? CredentialRevoked).

(** [strings.Join]. *)
Fixpoint strings_Join (parts : list bytes) (sep : bytes) : bytes :=
  match parts with
  | [] => []
  | [p] => p
  | p :: parts => p ++ sep ++ strings_Join parts sep
  end.

(** The nine lines that are signed. *)
Definition signingFields (audience : bytes) (request : parsedRequest) : list bytes :=
  [canonicalSigningDomain; audience; lit "POST"; pr_path request; formatUUID (pr_credentialID request);
   pr_deliveryIdentity request; pr_timestampText request; pr_nonceText request;
   hexEncode (Sum256 (pr_rawBody request))].

Definition signingInput (audience : bytes) (request : parsedRequest) : bytes :=
  strings_Join (signingFields audience request) [x0a].

(** [requestMAC]. *)
Definition requestMAC (audience : bytes) (request : parsedRequest) (secret : AuthenticationSecret) : arr 32 :=
  HMAC_SHA256 secret (signingInput audience request).

(** [timestampWithinWindow]: the subtraction of uint64 values never wraps. *)
Definition timestampWithinWindow (now signed : Z) : bool :=
  if now <? signed then (signed - now) mod 2 ^ 64 <=? maximumTimestampDifference
  else (now - signed) mod 2 ^ 64 <=? maximumTimestampDifference.

(** * Authenticate *)

Definition ReplayReserved : Z := 1.
Definition ReplayDuplicate : Z := 2.

(** The interfaces of interfaces.go the service uses, its clock and [ctx.Err()]. *)
Inductive auth_op : Type :=
| AuthCtxErr (ctx : Ctx)
| Clock
| BoundAudience (ctx : Ctx)
| LookupCredential (ctx : Ctx) (audience : GatewayAudienceID) (id : CredentialID)
| LookupSecret (ctx : Ctx) (audience : GatewayAudienceID) (id : CredentialID)
| Reserve (ctx : Ctx) (record : CredentialRecordID) (nonce : ReplayNonce) (now : Time)
| LookupPrincipal (ctx : Ctx) (audience : GatewayAudienceID) (id : CorePrincipalID).

Definition AuthE : sig := Sig auth_op (fun o =>
  match o with
  | AuthCtxErr _ => option error
  | Clock => Time
  | BoundAudience _ => result GatewayAudienceID
  | LookupCredential _ _ _ => result Credential
  | LookupSecret _ _ _ => result AuthenticationSecret
  | Reserve _ _ _ _ => result Z
  | LookupPrincipal _ _ _ => result Principal
  end).

(** [Service]: the configured audience and whether some dependency is nil. *)
Record Service : Type := mkService { configuredAudience : GatewayAudienceID; some_dependency_nil : bool }.

(** [NewService]. *)
Definition NewService (audience : GatewayAudienceID) (nil_dependency : bool) : result Service :=
  if arr_is_zero audience || nil_dependency then Err ErrConfigurationInvalid
  else Ok (mkService audience nil_dependency).

(** [contextDone]. *)
Definition contextDone (ctx : Ctx) : prog AuthE bool :=
  let! e := @call AuthE (AuthCtxErr ctx) in
  Ret (opt_errors_is e Canceled || opt_errors_is e DeadlineExceeded).

Definition err_of {A} (r : result A) : option error := match r with Ok _ => None | Err e => Some e end.

(** [dependencyCanceled]. *)
Definition dependencyCanceled (ctx : Ctx) (e : option error) : prog AuthE bool :=
  let! done := contextDone ctx in
  Ret (done || opt_errors_is e Canceled || opt_errors_is e DeadlineExceeded).

(** [Service.Authenticate]; [None] is a nil service. *)
Definition Authenticate (service : option Service) (ctx : Ctx) (request : Request)
  : prog AuthE (result CorePrincipalID) :=
  match service with
  | None => Ret (Err ErrConfigurationInvalid)
  | Some service =>
  let audience := configuredAudience service in
  if arr_is_zero audience || some_dependency_nil service then Ret (Err ErrConfigurationInvalid)
  else if ctx_is_nil ctx then Ret (Err ErrRequestInvalid)
  else
  let! done := contextDone ctx in
  if done then Ret (Err ErrAuthCanceled)
  else
  match parseRequest request with
  | Err e => Ret (Err e)
  | Ok parsed =>
  let! now := @call AuthE Clock in
  if t_is_zero now || (t_unix now <? 0) then Ret (Err ErrConfigurationInvalid)
  else
  let! done := contextDone ctx in
  if done then Ret (Err ErrAuthCanceled)
  else
  let! bound := @call AuthE (BoundAudience ctx) in
  let! done := dependencyCanceled ctx (err_of bound) in
  if done then Ret (Err ErrAuthCanceled)
  else
  match bound with
  | Err _ => Ret (Err ErrUnavailable)
  | Ok boundAudience =>
  if arr_is_zero boundAudience || (boundAudience <>?? audience) then Ret (Err ErrUnavailable)
  else
  let! cred := @call AuthE (LookupCredential ctx audience (pr_credentialID parsed)) in
  let! done := dependencyCanceled ctx (err_of cred) in
  if done then Ret (Err ErrAuthCanceled)
  else
  match cred with
  | Err e => if singleCauseMatches e ErrCredentialNotFound then Ret (Err ErrAuthenticationFailed)
             else Ret (Err ErrUnavailable)
  | Ok credential =>
  if negb (credentialRecordValid credential audience (pr_credentialID parsed)) then Ret (Err ErrUnavailable)
  else if negb (credential_UsableAt credential now) then Ret (Err ErrAuthenticationFailed)
  else
  let! sec := @call AuthE (LookupSecret ctx audience (pr_credentialID parsed)) in
  let! done := dependencyCanceled ctx (err_of sec) in
  if done then Ret (Err ErrAuthCanceled)
  else
  match sec with
  | Err _ => Ret (Err ErrUnavailable)
  | Ok secret =>
  if requestMAC (formatUUID audience) parsed secret <>?? pr_signature parsed
  then Ret (Err ErrAuthenticationFailed)
  else if negb (timestampWithinWindow (to_uint64 (t_unix now)) (pr_timestamp parsed))
  then Ret (Err ErrAuthenticationFailed)
  else
  let! done := contextDone ctx in
  if done then Ret (Err ErrAuthCanceled)
  else
  let! res := @call AuthE (Reserve ctx (cs_RecordID credential) (pr_nonce parsed) now) in
  let! done := dependencyCanceled ctx (err_of res) in
  if done then Ret (Err ErrAuthCanceled)
  else
  match res with
  | Err _ => Ret (Err ErrUnavailable)
  | Ok disposition =>
  if disposition =? ReplayDuplicate then Ret (Err ErrAuthenticationFailed)
  else if negb (disposition =? ReplayReserved) then Ret (Err ErrUnavailable)
  else
  let! prin := @call AuthE (LookupPrincipal ctx audience (p_id (cs_Principal credential))) in
  let! done := dependencyCanceled ctx (err_of prin) in
  if done then Ret (Err ErrAuthCanceled)
  else
  match prin with
  | Err e => if singleCauseMatches e ErrPrincipalNotAuthorized then Ret (Err ErrForbidden)
             else Ret (Err ErrUnavailable)
  | Ok principal =>
  if arr_is_zero (p_id principal) || arr_is_zero (p_audienceID principal) ||
     (p_id principal <>?? p_id (cs_Principal credential)) || (p_audienceID principal <>?? audience)
  then Ret (Err ErrUnavailable)
  else if negb (p_enabled principal) || negb (p_intakeAuthorized principal) then Ret (Err ErrForbidden)
  else Ret (Ok (p_id principal))
  end end end end end end end.

(** * The signed text *)

Definition no_newline (s : bytes) : Prop := Forall (fun b => b <> x0a) s.

Lemma strings_Join_inj l k :
  Forall no_newline l -> Forall no_newline k -> length l = length k ->
  strings_Join l [x0a] = strings_Join k [x0a] -> l = k.
Proof.
  intros Hl. revert k. induction Hl as [|p l Hp Hl IH]; intros k Hk Hlen E.
  - by destruct k.
  - destruct Hk as [|q k Hq Hk]; [done|]. injection Hlen as Hlen.
    destruct l as [|p' l], k as [|q' k]; try done; [by simpl in E; subst|].
    change (p ++ x0a :: strings_Join (p' :: l) [x0a] = q ++ x0a :: strings_Join (q' :: k) [x0a]) in E.
    apply (app_sep_inj (fun b => b <> x0a)) in E as [-> E]; [|done|done|by intros H].
    f_equal. by apply IH.
Qed.

Lemma b64_no_newline l : no_newline (b64Encode l).
Proof.
  eapply Forall_impl; [apply b64Encode_alphabet|]. intros b Hb ->.
  apply list_elem_of_In in Hb. vm_compute in Hb. intuition done.
Qed.

Lemma lower_hex_no_newline b : is_lower_hex b = true -> b <> x0a.
Proof. by intros H ->. Qed.

Lemma hex_no_newline l : no_newline (hexEncode l).
Proof. eapply Forall_impl; [apply hexEncode_lower|]. intros b Hb. by apply lower_hex_no_newline. Qed.

Lemma digits_no_newline s : forallb is_digit s = true -> no_newline s.
Proof.
  intros H. apply Forall_forall. intros b Hb ->. rewrite forallb_forall in H.
  apply list_elem_of_In, H in Hb. vm_compute in Hb. done.
Qed.

Lemma uuid_no_newline v : no_newline (formatUUID v).
Proof.
  eapply Forall_impl; [apply formatUUID_lower_forall|].
  intros b [Hb| ->]; [by apply lower_hex_no_newline|done].
Qed.

(** What a parsed request consists of. *)
Record parsed_ok (rq : Request) (p : parsedRequest) : Prop := {
  po_method : rq_method rq = lit "POST";
  po_path : exists token : OpaqueDestinationToken,
    pr_path p = canonicalPathPrefix ++ opaqueTokenPrefix ++ b64Encode token;
  po_identity : exists id, pr_deliveryIdentity p = formatUUID id;
  po_digits : forallb is_digit (pr_timestampText p) = true;
  po_timestamp : pr_timestamp p = decVal (pr_timestampText p) /\ pr_timestamp p < 2 ^ 64;
  po_nonce : pr_nonceText p = b64Encode (pr_nonce p);
  po_copied : pr_path p = rq_path rq /\ pr_deliveryIdentity p = rq_deliveryIdentity rq /\
    pr_rawBody p = rq_rawBody rq /\ rq_timestampValues rq = [pr_timestampText p] /\
    rq_nonceValues rq = [pr_nonceText p]
}.

Lemma validCanonicalPath_true path :
  validCanonicalPath path = true ->
  exists token : OpaqueDestinationToken, path = canonicalPathPrefix ++ opaqueTokenPrefix ++ b64Encode token.
Proof.
  unfold validCanonicalPath, has_prefix. case_bool_decide as Hp; [cbn [negb]|done].
  destruct Hp as [rest ->]. rewrite drop_app_length.
  destruct (ParseOpaqueDestinationToken rest) as [token|] eqn:E; [|done]. intros _.
  apply ParseOpaqueDestinationToken_iff in E as ->. by exists token.
Qed.

Lemma parseTimestamp_some value z :
  parseTimestamp value = Some z -> forallb is_digit value = true /\ z = decVal value /\ z < 2 ^ 64.
Proof.
  unfold parseTimestamp, parseUintDigits. destruct (_ || _); [done|].
  destruct (forallb is_digit value); [cbn [negb]|done].
  destruct value as [|b v]; [done|]. destruct (decVal (b :: v) <? 2 ^ 64) eqn:E; [|done].
  intros ?. simplify_eq. split_and!; [done..|]. lia.
Qed.

Lemma exactlyOne_some values v : exactlyOne values = Some v -> values = [v].
Proof. unfold exactlyOne. destruct values as [|x [|]]; [done| |done]. case_match; [done|]. by intros [= ->]. Qed.

Lemma parseRequest_ok rq p : parseRequest rq = Ok p -> parsed_ok rq p.
Proof.
  unfold parseRequest. destruct (_ || _) eqn:G; [done|]. apply orb_false_iff in G as [Gm Gp].
  bool_hyps. apply validCanonicalPath_true in Gp.
  destruct (ParseDeliveryIdentity _) as [id|] eqn:Hid; [|done]. case_bool_decide as Hf; [cbn [negb]|done].
  destruct (exactlyOne (rq_authorizationValues rq)) as [auth|] eqn:Ha; [|done].
  destruct (exactlyOne (rq_timestampValues rq)) as [ts|] eqn:Ht; [|done].
  destruct (exactlyOne (rq_nonceValues rq)) as [nt|] eqn:Hn; [|done].
  destruct (parseAuthorization auth) as [[cid sg]|]; [|done].
  destruct (parseTimestamp ts) as [t|] eqn:Hts; [|done].
  destruct (ParseReplayNonce nt) as [n|] eqn:Hnt; [|done]. intros [= <-].
  apply parseTimestamp_some in Hts as (Hd & -> & Hb). apply ParseReplayNonce_iff in Hnt.
  apply exactlyOne_some in Ht, Hn. split; cbn -[formatUUID]; eauto 10.
Qed.

Lemma signing_no_newline a rq p : no_newline a -> parsed_ok rq p -> Forall no_newline (signingFields a p).
Proof.
  intros Ha [_ [token Hpath] [id Hid] Hd _ Hn _]. unfold signingFields.
  rewrite Hpath, Hid, Hn.
  assert (no_newline canonicalPathPrefix /\ no_newline opaqueTokenPrefix /\
    no_newline canonicalSigningDomain /\ no_newline (lit "POST")) as (H1 & H2 & H3 & H4)
    by (by repeat constructor).
  repeat (apply Forall_cons_2; [eauto using uuid_no_newline, b64_no_newline, hex_no_newline, digits_no_newline|]).
  all: try (by repeat constructor).
  all: repeat apply Forall_app_2; try done; apply b64_no_newline.
Qed.

Lemma signingInput_inj a1 a2 rq1 rq2 p1 p2 :
  no_newline a1 -> no_newline a2 -> parsed_ok rq1 p1 -> parsed_ok rq2 p2 ->
  signingInput a1 p1 = signingInput a2 p2 ->
  a1 = a2 /\ pr_path p1 = pr_path p2 /\ pr_credentialID p1 = pr_credentialID p2 /\
  pr_deliveryIdentity p1 = pr_deliveryIdentity p2 /\ pr_timestamp p1 = pr_timestamp p2 /\
  pr_nonce p1 = pr_nonce p2 /\ Sum256 (pr_rawBody p1) = Sum256 (pr_rawBody p2).
Proof.
  intros Ha1 Ha2 H1 H2 E.
  apply strings_Join_inj in E; [|by eapply signing_no_newline..|done].
  unfold signingFields in E.
  injection E as E1 E2 E3 E4 E5 E6 E7.
  destruct H1 as [_ _ _ _ [T1 _] N1 _], H2 as [_ _ _ _ [T2 _] N2 _].
  split_and!; [done|done|by apply formatUUID_inj|done|congruence| |].
  - rewrite N1, N2 in E6. apply b64Encode_inj in E6. by apply arr_eq.
  - apply hexEncode_inj in E7. by apply arr_eq.
Qed.

(** The MAC covers the whole request. If two well-formed requests carry
    the same MAC under one secret, then they agree on the audience, the path
    (and so the destination token), the credential, the delivery identity,
    the timestamp, the nonce and the body, unless HMAC-SHA-256 collides on two
    different signed texts or SHA-256 on two different bodies. *)
Theorem requestMAC_binds rq1 rq2 p1 p2 (a1 a2 : GatewayAudienceID) secret
    (H1 : parseRequest rq1 = Ok p1) (H2 : parseRequest rq2 = Ok p2)
    (Hmac : requestMAC (formatUUID a1) p1 secret = requestMAC (formatUUID a2) p2 secret) :
  (a1 = a2 /\ rq_path rq1 = rq_path rq2 /\ pr_credentialID p1 = pr_credentialID p2 /\
   rq_deliveryIdentity rq1 = rq_deliveryIdentity rq2 /\ pr_timestamp p1 = pr_timestamp p2 /\
   pr_nonce p1 = pr_nonce p2 /\ rq_rawBody rq1 = rq_rawBody rq2) \/
  (signingInput (formatUUID a1) p1 <> signingInput (formatUUID a2) p2 /\
   HMAC_SHA256 secret (signingInput (formatUUID a1) p1) =
   HMAC_SHA256 secret (signingInput (formatUUID a2) p2)) \/
  (rq_rawBody rq1 <> rq_rawBody rq2 /\ Sum256 (rq_rawBody rq1) = Sum256 (rq_rawBody rq2)).
Proof.
  apply parseRequest_ok in H1 as P1, H2 as P2.
  destruct (decide (signingInput (formatUUID a1) p1 = signingInput (formatUUID a2) p2)) as [E|E];
    [|by right; left].
  eapply signingInput_inj in E as (Ea & Ep & Ec & Ed & Et & En & Eb);
    [|apply uuid_no_newline..|done|done].
  destruct P1 as [_ _ _ _ _ _ (<- & <- & <- & _)], P2 as [_ _ _ _ _ _ (<- & <- & <- & _)].
  destruct (decide (pr_rawBody p1 = pr_rawBody p2)) as [Er|Er]; [left|by right; right].
  split_and!; try done. by apply formatUUID_inj.
Qed.

(** * What an authenticated request went through *)

(** The calls other than the checks of the context. *)
Definition dependency (e : event AuthE) : bool :=
  match projT1 e with AuthCtxErr _ => false | _ => true end.
Definition deps (tr : trace AuthE) : trace AuthE := filter (fun e => dependency e = true) tr.

Lemma deps_app tr1 tr2 : deps (tr1 ++ tr2) = deps tr1 ++ deps tr2.
Proof. exact (filter_app _ tr1 tr2). Qed.

Definition is_reserve (e : event AuthE) : Prop :=
  match projT1 e with Reserve _ _ _ _ => True | _ => False end.

(** Every error a caller can see. *)
Definition auth_errors : list sentinel :=
  [ErrConfigurationInvalid; ErrRequestInvalid; ErrAuthenticationFailed; ErrForbidden; ErrUnavailable; ErrAuthCanceled].

Ltac in_auth_errors := first [assumption | unfold auth_errors; in_list].

Section Sound.
Variables (service : option Service) (ctx : Ctx) (rq : Request).

(** The request was verified at instant [now] with this credential and secret. *)
Record verified (aud : GatewayAudienceID) (p : parsedRequest) (now : Time) (c : Credential)
    (secret : AuthenticationSecret) : Prop := {
  v_service : service = Some (mkService aud false);
  v_audience : aud <> zero_arr 16;
  v_parsed : parseRequest rq = Ok p;
  v_now : 0 <= t_unix now;
  v_credential : credentialRecordValid c aud (pr_credentialID p) = true;
  v_usable : credential_UsableAt c now = true;
  v_mac : requestMAC (formatUUID aud) p secret = pr_signature p;
  v_window : timestampWithinWindow (to_uint64 (t_unix now)) (pr_timestamp p) = true
}.

(** The calls up to and including the reservation of the nonce. *)
Definition verify_trace (aud : GatewayAudienceID) (p : parsedRequest) (now : Time) (c : Credential)
    (secret : AuthenticationSecret) (r : result Z) : trace AuthE :=
  [@ev AuthE Clock now; @ev AuthE (BoundAudience ctx) (Ok aud);
   @ev AuthE (LookupCredential ctx aud (pr_credentialID p)) (Ok c);
   @ev AuthE (LookupSecret ctx aud (pr_credentialID p)) (Ok secret);
   @ev AuthE (Reserve ctx (cs_RecordID c) (pr_nonce p) now) r].

(** Every execution stops before the reservation, or reserves the nonce of a
    verified request and then returns the principal only if it was free. *)
Inductive auth_outcome : trace AuthE -> result CorePrincipalID -> Prop :=
| outcome_early tr s : s ∈ auth_errors -> Forall (fun e => ~ is_reserve e) tr -> auth_outcome tr (Err (Sentinel s))
| outcome_reserved aud p now c secret r tr s :
    s ∈ auth_errors -> verified aud p now c secret -> deps tr = verify_trace aud p now c secret r ->
    auth_outcome tr (Err (Sentinel s))
| outcome_principal aud p now c secret r tr s :
    s ∈ auth_errors -> verified aud p now c secret ->
    deps tr = verify_trace aud p now c secret (Ok ReplayReserved) ++
      [@ev AuthE (LookupPrincipal ctx aud (p_id (cs_Principal c))) r] ->
    auth_outcome tr (Err (Sentinel s))
| outcome_authenticated aud p now c secret principal tr :
    verified aud p now c secret ->
    deps tr = verify_trace aud p now c secret (Ok ReplayReserved) ++
      [@ev AuthE (LookupPrincipal ctx aud (p_id (cs_Principal c))) (Ok principal)] ->
    p_id principal = p_id (cs_Principal c) -> AuthorizesIntake principal aud = true ->
    auth_outcome tr (Ok (p_id principal)).

Lemma parseRequest_err e : parseRequest rq = Err e -> exists s, e = Sentinel s /\ s ∈ auth_errors.
Proof.
  unfold parseRequest. intros H.
  repeat case_match; simplify_eq; eexists; (split; [done|in_auth_errors]).
Qed.

Lemma contextDone_inv {A} (f : bool -> prog AuthE A) tr a :
  runs (bind (contextDone ctx) f) tr a ->
  exists e tr' b, tr = @ev AuthE (AuthCtxErr ctx) e :: tr' /\ runs (f b) tr' a.
Proof. intros (e & tr' & -> & H). cbn in H. eexists _, _, _. split; [done|exact H]. Qed.

Lemma dependencyCanceled_inv {A} e (f : bool -> prog AuthE A) tr a :
  runs (bind (dependencyCanceled ctx e) f) tr a ->
  exists e tr' b, tr = @ev AuthE (AuthCtxErr ctx) e :: tr' /\ runs (f b) tr' a.
Proof. intros (e' & tr' & -> & H). cbn in H. eexists _, _, _. split; [done|exact H]. Qed.

(** Leave an execution that ended before the reservation. *)
Ltac early H :=
  destruct H as [-> ->]; apply outcome_early; [in_auth_errors|];
  repeat (apply Forall_cons_2; [by intros []|]); apply Forall_nil_2.

(** Pass a check of the context, or leave. *)
Ltac pass_check H lemma :=
  let e := fresh "e" in let b := fresh "b" in
  apply lemma in H as (e & ? & b & -> & H); destruct b; [early H|].

(** The next call. *)
Ltac next_call H r := destruct H as (r & ? & -> & H); cbn [bind] in H.

Lemma principal_authorizes principal aud pid :
  aud <> zero_arr 16 ->
  arr_is_zero (p_id principal) || arr_is_zero (p_audienceID principal) ||
    (p_id principal <>?? pid) || (p_audienceID principal <>?? aud) = false ->
  negb (p_enabled principal) || negb (p_intakeAuthorized principal) = false ->
  p_id principal = pid /\ AuthorizesIntake principal aud = true.
Proof.
  intros Ha G1 G2. bool_hyps. split; [done|]. unfold AuthorizesIntake.
  apply arr_is_zero_false in Ha. rewrite Ha, bool_decide_eq_true_2 by done.
  by repeat match goal with H : _ = true |- _ => rewrite H end.
Qed.

(** From the reservation on. *)
Lemma Authenticate_reserve aud p now c secret pre tr res :
  verified aud p now c secret ->
  deps pre = take 4 (verify_trace aud p now c secret (Ok 0)) ->
  runs (let! res := @call AuthE (Reserve ctx (cs_RecordID c) (pr_nonce p) now) in
        let! done := dependencyCanceled ctx (err_of res) in
        if done then Ret (Err ErrAuthCanceled)
        else match res with
        | Err _ => Ret (Err ErrUnavailable)
        | Ok disposition =>
        if disposition =? ReplayDuplicate then Ret (Err ErrAuthenticationFailed)
        else if negb (disposition =? ReplayReserved) then Ret (Err ErrUnavailable)
        else
        let! prin := @call AuthE (LookupPrincipal ctx aud (p_id (cs_Principal c))) in
        let! done := dependencyCanceled ctx (err_of prin) in
        if done then Ret (Err ErrAuthCanceled)
        else match prin with
        | Err e => if singleCauseMatches e ErrPrincipalNotAuthorized then Ret (Err ErrForbidden)
                   else Ret (Err ErrUnavailable)
        | Ok principal =>
        if arr_is_zero (p_id principal) || arr_is_zero (p_audienceID principal) ||
           (p_id principal <>?? p_id (cs_Principal c)) || (p_audienceID principal <>?? aud)
        then Ret (Err ErrUnavailable)
        else if negb (p_enabled principal) || negb (p_intakeAuthorized principal) then Ret (Err ErrForbidden)
        else Ret (Ok (p_id principal))
        end end) tr res ->
  auth_outcome (pre ++ tr) res.
Proof.
  intros Hv Hpre H. next_call H r.
  assert (forall tr', deps (pre ++ tr') = take 4 (verify_trace aud p now c secret r) ++ deps tr') as Hd.
  { intros tr'. by rewrite deps_app, Hpre. }
  apply dependencyCanceled_inv in H as (e & ? & b & -> & H).
  destruct b; [destruct H as [-> ->]; eapply outcome_reserved; [in_auth_errors|done|]; by rewrite Hd|].
  destruct r as [d|]; [|destruct H as [-> ->]; eapply outcome_reserved; [in_auth_errors|done|]; by rewrite Hd].
  destruct (d =? ReplayDuplicate);
    [destruct H as [-> ->]; eapply outcome_reserved; [in_auth_errors|done|]; by rewrite Hd|].
  destruct (Z.eqb_spec d ReplayReserved) as [->|];
    [cbn [negb] in H|destruct H as [-> ->]; eapply outcome_reserved; [in_auth_errors|done|]; by rewrite Hd].
  next_call H r. apply dependencyCanceled_inv in H as (e' & ? & b & -> & H).
  destruct b; [destruct H as [-> ->]; eapply outcome_principal; [in_auth_errors|done|]; by rewrite Hd|].
  destruct r as [principal|e''].
  2: destruct (singleCauseMatches _ _); destruct H as [-> ->];
     (eapply outcome_principal; [in_auth_errors|done|]; by rewrite Hd).
  destruct (_ || _) eqn:G1; [destruct H as [-> ->]; eapply outcome_principal; [in_auth_errors|done|]; by rewrite Hd|].
  destruct (negb (p_enabled principal) || negb (p_intakeAuthorized principal)) eqn:G2; [destruct H as [-> ->]; eapply outcome_principal; [in_auth_errors|done|]; by rewrite Hd|].
  destruct H as [-> ->].
  eapply principal_authorizes in G2 as [Hid Hauth]; [|apply Hv|exact G1].
  eapply outcome_authenticated; [done| |done|done]. by rewrite Hd.
Qed.

Lemma Authenticate_outcome tr res : runs (Authenticate service ctx rq) tr res -> auth_outcome tr res.
Proof.
  unfold Authenticate. intros H. destruct service as [[aud nil_dep]|] eqn:Es; [|early H].
  cbn [configuredAudience some_dependency_nil] in H.
  destruct (_ || _) eqn:G; [early H|]. apply orb_false_iff in G as [Ha ->]. apply arr_is_zero_false in Ha.
  destruct (ctx_is_nil ctx); [early H|]. pass_check H (@contextDone_inv).
  destruct (parseRequest rq) as [p|e0] eqn:Hp; [|apply parseRequest_err in Hp as (s & -> & Hs); early H].
  next_call H now. destruct (_ || _) eqn:Gn; [early H|]. apply orb_false_iff in Gn as [_ Gn].
  pass_check H (@contextDone_inv). next_call H bound. pass_check H (@dependencyCanceled_inv).
  destruct bound as [baud|]; [|early H].
  destruct (_ || _) eqn:Gb; [early H|]. apply orb_false_iff in Gb as [_ Gb]. bool_hyps. subst baud.
  next_call H cred. pass_check H (@dependencyCanceled_inv).
  destruct cred as [c|]; [|destruct (singleCauseMatches _ _); early H].
  destruct (credentialRecordValid _ _ _) eqn:Hc; [cbn [negb] in H|early H].
  destruct (credential_UsableAt c now) eqn:Hu; [cbn [negb] in H|early H].
  next_call H sec. pass_check H (@dependencyCanceled_inv). destruct sec as [secret|]; [|early H].
  case_bool_decide as Hm; [cbn [negb] in H|early H].
  destruct (timestampWithinWindow _ _) eqn:Hw; [cbn [negb] in H|early H].
  pass_check H (@contextDone_inv).
  assert (verified aud p now c secret) as Hv by (by split).
  match goal with |- auth_outcome (?a :: ?b :: ?d :: ?f :: ?g :: ?h :: ?i :: ?j :: ?k :: ?l :: ?t) res =>
    change (auth_outcome ([a; b; d; f; g; h; i; j; k; l] ++ t) res) end.
  by eapply Authenticate_reserve.
Qed.
End Sound.

Lemma timestampWithinWindow_true now signed :
  0 <= now < 2 ^ 64 -> 0 <= signed < 2 ^ 64 ->
  timestampWithinWindow now signed = true <-> Z.abs (now - signed) <= 60.
Proof.
  intros Hn Hs. unfold timestampWithinWindow, maximumTimestampDifference.
  destruct (now <? signed) eqn:E; rewrite Z.mod_small by lia; lia.
Qed.

Lemma decVal_nonneg s : forallb is_digit s = true -> 0 <= decVal s.
Proof.
  unfold decVal. assert (forall a, 0 <= a -> forallb is_digit s = true ->
    0 <= foldl (fun a b => 10 * a + (bZ b - 48)) a s) as H; [|by apply H].
  induction s as [|b s IH]; intros a Ha Hs; [done|]. simpl in *. bool_hyps.
  apply IH; [|done]. unfold is_digit in *. lia.
Qed.

Lemma window_seconds rq p now :
  parsed_ok rq p -> 0 <= t_unix now < 2 ^ 63 ->
  timestampWithinWindow (to_uint64 (t_unix now)) (pr_timestamp p) = true ->
  Z.abs (t_unix now - pr_timestamp p) <= 60.
Proof.
  intros [_ _ _ Hd [Ht Hlt] _ _] Hn. unfold to_uint64. rewrite Z.mod_small by lia.
  apply decVal_nonneg in Hd. apply timestampWithinWindow_true; lia.
Qed.

(** (C31) A request is authenticated only after every check: the request was
    well formed; the bound audience is the configured one; the credential
    with the presented id belongs to that audience and was usable at the
    instant read from the clock; the signature is the MAC of this request
    under its secret; the timestamp is within 60 seconds of the clock; the
    nonce was reserved, for this credential record, and was free; and the
    principal of the credential is enabled and authorised for intake at this
    audience. Nothing else was called, the calls happened in this order, and
    the result is that principal. *)
Theorem Authenticate_sound service ctx rq tr pid
    (H : runs (Authenticate service ctx rq) tr (Ok pid)) :
  exists aud p now c secret principal,
    verified service rq aud p now c secret /\
    deps tr = verify_trace ctx aud p now c secret (Ok ReplayReserved) ++
      [@ev AuthE (LookupPrincipal ctx aud (p_id (cs_Principal c))) (Ok principal)] /\
    pid = p_id principal /\ pid = p_id (cs_Principal c) /\ AuthorizesIntake principal aud = true /\
    (t_unix now < 2 ^ 63 -> Z.abs (t_unix now - pr_timestamp p) <= 60).
Proof.
  apply Authenticate_outcome in H. inversion H as [| | |aud p now c secret principal tr' Hv Hd Hp Ha E1 E2].
  subst. exists aud, p, now, c, secret, principal. split_and!; try done.
  intros Hlt. eapply window_seconds; [|split; [|exact Hlt]|]; [|apply Hv..].
  apply parseRequest_ok. apply Hv.
Qed.

(** No unverified request reaches the replay store. In every execution,
    failing ones included, the nonce is reserved at most once, and only after
    the request, the credential, its validity at that instant, the MAC and the
    timestamp were all verified; the reservation is for the record of that
    credential and the nonce of that request. *)
Theorem Authenticate_reserve_guarded service ctx rq tr res
    (H : runs (Authenticate service ctx rq) tr res) :
  Forall (fun e => ~ is_reserve e) tr \/
  exists aud p now c secret r rest,
    verified service rq aud p now c secret /\
    deps tr = verify_trace ctx aud p now c secret r ++ rest /\ Forall (fun e => ~ is_reserve e) rest.
Proof.
  apply Authenticate_outcome in H.
  destruct H as [tr s _ Hr|aud p now c sec r tr s _ Hv Hd|aud p now c sec r tr s _ Hv Hd
    |aud p now c sec prin tr Hv Hd _ _]; [by left|right..]; eexists _, _, _, _, _, _, _;
    (split; [exact Hv|]).
  - split; [rewrite app_nil_r; exact Hd|constructor].
  - split; [exact Hd|]. apply Forall_cons_2; [by intros []|constructor].
  - split; [exact Hd|]. apply Forall_cons_2; [by intros []|constructor].
Qed.

(** Every failure is one of six fixed errors: nothing a dependency
    reported reaches the caller. *)
Theorem Authenticate_errors_fixed service ctx rq tr e
    (H : runs (Authenticate service ctx rq) tr (Err e)) :
  exists s, e = Sentinel s /\ s ∈ auth_errors.
Proof. apply Authenticate_outcome in H. inversion H; subst; eauto. Qed.

(** * Completeness *)

(** The calls of an authenticated request whose context is never cancelled. *)
Definition auth_trace (ctx : Ctx) (aud : GatewayAudienceID) (p : parsedRequest) (now : Time) (c : Credential)
    (secret : AuthenticationSecret) (principal : Principal) : trace AuthE :=
  let check := @ev AuthE (AuthCtxErr ctx) None in
  [check; @ev AuthE Clock now; check; @ev AuthE (BoundAudience ctx) (Ok aud); check;
   @ev AuthE (LookupCredential ctx aud (pr_credentialID p)) (Ok c); check;
   @ev AuthE (LookupSecret ctx aud (pr_credentialID p)) (Ok secret); check; check;
   @ev AuthE (Reserve ctx (cs_RecordID c) (pr_nonce p) now) (Ok ReplayReserved); check;
   @ev AuthE (LookupPrincipal ctx aud (p_id (cs_Principal c))) (Ok principal); check].

Lemma Authenticate_runs service ctx rq aud p now c secret principal :
  ctx_is_nil ctx = false -> verified service rq aud p now c secret ->
  p_id principal = p_id (cs_Principal c) -> AuthorizesIntake principal aud = true ->
  runs (Authenticate service ctx rq) (auth_trace ctx aud p now c secret principal) (Ok (p_id principal)).
Proof.
  intros Hctx Hv Hid Hauth.
  destruct Hv as [-> Ha Hp Hn Hc Hu Hm Hw]. unfold Authenticate. cbn [configuredAudience some_dependency_nil].
  apply arr_is_zero_false in Ha as Ha'. rewrite Ha', Hctx. cbn [orb].
  answer (@None error). rewrite Hp. answer now.
  assert (t_is_zero now || (t_unix now <? 0) = false) as ->.
  { apply orb_false_iff. split; [|by apply Z.ltb_ge]. apply Z.eqb_neq. intros ->. by vm_compute in Hn. }
  answer (@None error). answer (Ok aud). answer (@None error).
  cbn [err_of opt_errors_is orb]. rewrite Ha', bool_decide_eq_true_2 by done. cbn [orb negb].
  answer (Ok c). answer (@None error). cbn [err_of opt_errors_is orb]. rewrite Hc, Hu. cbn [negb].
  answer (Ok secret). answer (@None error). cbn [err_of opt_errors_is orb].
  rewrite Hm, bool_decide_eq_true_2, Hw by done. cbn [negb].
  answer (@None error). answer (Ok ReplayReserved). answer (@None error).
  answer (Ok principal). answer (@None error). cbn [err_of opt_errors_is orb].
  unfold AuthorizesIntake in Hauth. bool_hyps. subst aud.
  assert (p_id (cs_Principal c) <> zero_arr 16) as Hz.
  { unfold credentialRecordValid in Hc. apply if_false_true in Hc as [Hc _]. by bool_hyps. }
  apply arr_is_zero_false in Hz, Ha'. rewrite Hid, Hz, Ha', !bool_decide_eq_true_2 by done.
  repeat match goal with H : _ principal = true |- _ => rewrite H end. done.
Qed.

(** Conversely, no valid request is refused: when the request is verified
    at the instant of the clock, the nonce is free, the principal of the
    credential is the one looked up, enabled and authorised, and the context
    is never cancelled, [Authenticate] returns that principal. *)
Theorem Authenticate_complete service ctx rq aud p now c secret principal
    (Hctx : ctx_is_nil ctx = false)
    (Hv : verified service rq aud p now c secret)
    (Hid : p_id principal = p_id (cs_Principal c))
    (Hauth : AuthorizesIntake principal aud = true) :
  runs (Authenticate service ctx rq) (auth_trace ctx aud p now c secret principal) (Ok (p_id principal)).
Proof. by apply Authenticate_runs. Qed.

(** * Replay *)

(** What a successful thread left in the log. *)
Lemma success_logged service ctx rq tr pid :
  runs (Authenticate (Some service) ctx rq) tr (Ok pid) ->
  exists p c now, parseRequest rq = Ok p /\
    @ev AuthE (LookupCredential ctx (configuredAudience service) (pr_credentialID p)) (Ok c) ∈ tr /\
    @ev AuthE (Reserve ctx (cs_RecordID c) (pr_nonce p) now) (Ok ReplayReserved) ∈ tr.
Proof.
  intros H. apply Authenticate_outcome in H.
  inversion H as [| | |aud p now c secret principal tr' Hv Hd Hp Ha E1 E2]. subst.
  pose proof (v_service _ _ _ _ _ _ _ Hv) as Es. simplify_eq/=.
  assert (forall e, e ∈ deps tr -> e ∈ tr) as Hin by (intros e He; by apply list_elem_of_filter in He as [_ ?]).
  exists p, c, now. split; [apply Hv|].
  split; apply Hin; rewrite Hd; unfold verify_trace; in_list.
Qed.

Section Replay.
(** The credential registry resolves a public id to one record. *)
Variable record_of : GatewayAudienceID -> CredentialID -> CredentialRecordID.

(** The reservations: a nonce is reserved for a record once. A failed call may
    or may not have reserved it. *)
Definition replay_step (R : gset (arr 16 * arr 16)) (o : auth_op) : ans AuthE o -> gset (arr 16 * arr 16) -> Prop :=
  match o with
  | Reserve _ record nonce _ => fun r R' =>
      match r with
      | Ok d => (d = ReplayReserved /\ ((record, nonce) ∉ R) /\ R' = {[ (record, nonce) ]} ∪ R) \/
                (d = ReplayDuplicate /\ ((record, nonce) ∈ R) /\ R' = R)
      | Err _ => R' = R \/ R' = {[ (record, nonce) ]} ∪ R
      end
  | LookupCredential _ aud id => fun r R' => R' = R /\
      match r with Ok c => cs_RecordID c = record_of aud id | Err _ => True end
  | _ => fun _ R' => R' = R
  end.

(** The key a call reserved. *)
Definition reserved_key (e : event AuthE) : option (arr 16 * arr 16) :=
  match e with
  | existT (Reserve _ record nonce _) (Ok d) => if d =? ReplayReserved then Some (record, nonce) else None
  | _ => None
  end.

(** A logged lookup respects the registry. *)
Definition lookup_ok (e : event AuthE) : Prop :=
  match e with
  | existT (LookupCredential _ aud id) (Ok c) => cs_RecordID c = record_of aud id
  | _ => True
  end.

Lemma replay_step_key R o r R' :
  replay_step R o r R' ->
  R ⊆ R' /\ lookup_ok (@ev AuthE o r) /\
  (forall k, reserved_key (@ev AuthE o r) = Some k -> (k ∉ R) /\ (k ∈ R')).
Proof.
  destruct o; simpl; try (intros ->; by split_and!).
  - intros [-> H]. split_and!; [done| |done]. by destruct r.
  - destruct r as [d|e]; simpl.
    + intros [(-> & Hn & ->)|(-> & Hn & ->)]; split_and!; try done; [set_solver|].
      intros k. simpl. intros [= <-]. set_solver.
    + intros [->| ->]; split_and!; try done; set_solver.
Qed.

(** In a log, a key is reserved once and lookups respect the registry. *)
Lemma replay_log {A} (c c' : gset (arr 16 * arr 16) * list (prog AuthE A)) log :
  pool_trace (E := AuthE) replay_step c log c' ->
  NoDup (omap (fun x => reserved_key x.2) log) /\ (forall x, x ∈ log -> lookup_ok x.2).
Proof.
  intros H. split.
  - refine (proj1 (pool_trace_keys (E := AuthE) replay_step reserved_key
      (fun (R : gset (arr 16 * arr 16)) k => k ∈ R) _ _ _ _ _ H)).
    + intros s o r s' k Hs Hk. apply replay_step_key in Hs as (Hsub & _). auto.
    + intros s o r s' k Hs Hk. apply replay_step_key in Hs as (_ & _ & Hkey). auto.
  - refine (pool_trace_forall (E := AuthE) replay_step lookup_ok _ _ _ _ H).
    intros s o r s' Hs. by apply replay_step_key in Hs as (_ & ? & _).
Qed.

(** (C4) A request cannot be replayed. Let any number of requests be
    authenticated concurrently, their calls interleaved arbitrarily, against
    a replay store that grants a nonce of a credential record once. Two
    different requests that are both authenticated differ in their credential
    or in their nonce; in particular a captured request sent again, at the
    same time or later, is never authenticated a second time. *)
Theorem Authenticate_no_replay (service : Service) (rqs : list (Ctx * Request))
    (R0 R : gset (arr 16 * arr 16)) (ps : list (prog AuthE (result CorePrincipalID)))
    (log : list (nat * event AuthE)) (i j : nat) (c1 c2 : Ctx) (rq1 rq2 : Request)
    (pid1 pid2 : CorePrincipalID) (p1 p2 : parsedRequest)
    (Hlog : pool_trace (E := AuthE) replay_step
      (R0, (fun cr => Authenticate (Some service) cr.1 cr.2) <$> rqs) log (R, ps))
    (Hi : rqs !! i = Some (c1, rq1)) (Hj : rqs !! j = Some (c2, rq2)) (Hij : i <> j)
    (Hp1 : parseRequest rq1 = Ok p1) (Hp2 : parseRequest rq2 = Ok p2)
    (Hr1 : ps !! i = Some (Ret (Ok pid1))) (Hr2 : ps !! j = Some (Ret (Ok pid2))) :
  (pr_credentialID p1, pr_nonce p1) <> (pr_credentialID p2, pr_nonce p2).
Proof.
  intros [= Ec En].
  destruct (replay_log _ _ _ Hlog) as [Hnd Hlk].
  assert (forall i c rq pid p, rqs !! i = Some (c, rq) -> ps !! i = Some (Ret (Ok pid)) ->
    parseRequest rq = Ok p -> exists x, x ∈ log /\ x.1 = i /\
      reserved_key x.2 = Some (record_of (configuredAudience service) (pr_credentialID p), pr_nonce p)) as Hkey.
  { intros n c rq pid p Hn Hr Hp.
    pose proof (pool_trace_runs _ _ _ _ n (Authenticate (Some service) c rq) _ Hlog
      ltac:(simpl; rewrite list_lookup_fmap, Hn; done) Hr [] (Ok pid) ltac:(done)) as Hruns.
    rewrite app_nil_r in Hruns.
    apply success_logged in Hruns as (p' & cr & now & Hp' & Hl & Hres).
    rewrite Hp in Hp'. injection Hp' as <-.
    apply thread_log_elem in Hl, Hres. exists (n, @ev AuthE (Reserve c (cs_RecordID cr) (pr_nonce p) now) (Ok ReplayReserved)).
    split; [exact Hres|]. split; [done|]. apply Hlk in Hl. simpl in Hl. simpl. by rewrite Hl. }
  destruct (Hkey i c1 rq1 pid1 p1) as (x & Hx & Ex & Kx); [done..|].
  destruct (Hkey j c2 rq2 pid2 p2) as (y & Hy & Ey & Ky); [done..|].
  rewrite <- Ec, <- En in Ky.
  assert (x = y) by (by eapply (NoDup_omap_inj (fun x => reserved_key x.2) log)). congruence.
Qed.
End Replay.

(** * The golden vector of service_test.go *)

Definition uuid_of (text : bytes) : arr 16 :=
  match state_parseUUID text false with Ok v => v | Err _ => zero_arr 16 end.

Definition golden_auth_audience : GatewayAudienceID := uuid_of (lit "123e4567-e89b-12d3-a456-426614174000").
Definition golden_credential_text : bytes := lit "01234567-89ab-4def-8123-456789abcdef".
Definition golden_signature_text : bytes := lit "Lmxexoh8H9V0wAtro_hqBgRr0XoJnA8yVZW0Ug3MtBk".
Definition golden_path : bytes := canonicalPathPrefix ++ golden_token_text.
Definition golden_identity : bytes := lit "11111111-2222-4333-8444-555555555555".
Definition golden_body : bytes := jlit "{`AppName`:`GoAlert`,`Type`:`Test`}".
Definition golden_nonce_text : bytes := lit "EBESExQVFhcYGRobHB0eHw".
Definition golden_secret : AuthenticationSecret := mk_arr 32 (Zb <$> seqZ 0 32).
Definition golden_now : Time := of_unix 1700000000.

Definition golden_authorization (signature : bytes) : bytes :=
  authenticationScheme ++ authorizationCredential ++ golden_credential_text ++
  authorizationSignature ++ signature.

Definition golden_request : Request :=
  NewRequest (lit "POST") golden_path golden_identity [golden_authorization golden_signature_text]
    [lit "1700000000"] [golden_nonce_text] golden_body.

(** The parsed form of a request with the golden credential, path and time. *)
Definition golden_form (signature : arr 32) (nonceText : bytes) (nonce : ReplayNonce) : parsedRequest :=
  mkParsed golden_path golden_identity (uuid_of golden_credential_text) signature (lit "1700000000")
    1700000000 nonceText nonce golden_body.

Definition decode32 (s : bytes) : arr 32 := mk_arr 32 (default [] (b64Decode s)).
Definition decode16 (s : bytes) : arr 16 := mk_arr 16 (default [] (b64Decode s)).

Definition golden_parsed : parsedRequest :=
  golden_form (decode32 golden_signature_text) golden_nonce_text (decode16 golden_nonce_text).

Definition golden_principal : Principal :=
  mkPrincipal golden_auth_audience (uuid_of (lit "22222222-3333-4444-8555-666666666666")) true true
    (golden_now - 48 * Hour) (golden_now - 48 * Hour).

Definition golden_credential : Credential :=
  mkCredentialSpec golden_auth_audience golden_principal
    (mkSlot golden_auth_audience (p_id golden_principal)
       (uuid_of (lit "33333333-4444-5555-8666-777777777777")) (golden_now - 48 * Hour))
    (uuid_of (lit "44444444-5555-6666-8777-888888888888")) (uuid_of golden_credential_text)
    CredentialActive (golden_now - 24 * Hour) (golden_now + 24 * Hour) (golden_now - 24 * Hour) 0 0 0
    (golden_now - 48 * Hour) (golden_now - 24 * Hour).

Definition golden_service : Service := mkService golden_auth_audience false.

Lemma golden_parse : parseRequest golden_request = Ok golden_parsed.
Proof. vm_compute. reflexivity. Qed.

Example golden_mac :
  b64Encode (requestMAC (formatUUID golden_auth_audience) golden_parsed golden_secret) = golden_signature_text.
Proof. vm_compute. reflexivity. Qed.

Lemma golden_verified :
  verified (Some golden_service) golden_request golden_auth_audience golden_parsed golden_now
    golden_credential golden_secret.
Proof.
  split; [done| |apply golden_parse|done|by vm_compute..].
  intros E. apply (f_equal arr_list) in E. by vm_compute in E.
Qed.

Lemma Authenticate_complete_witness :
  runs (Authenticate (Some golden_service) CtxReq golden_request)
    (auth_trace CtxReq golden_auth_audience golden_parsed golden_now golden_credential golden_secret
       golden_principal) (Ok (p_id golden_principal)).
Proof.
  apply (Authenticate_complete (Some golden_service) CtxReq golden_request golden_auth_audience
    golden_parsed golden_now golden_credential golden_secret golden_principal);
    [reflexivity|apply golden_verified|reflexivity|vm_compute; reflexivity].
Defined.

Lemma golden_runs :
  runs (Authenticate (Some golden_service) CtxReq golden_request)
    (auth_trace CtxReq golden_auth_audience golden_parsed golden_now golden_credential golden_secret
       golden_principal) (Ok (p_id golden_principal)).
Proof.
  apply Authenticate_runs; [done|apply golden_verified|done|by vm_compute].
Qed.

Lemma Authenticate_sound_witness :
  exists aud p now c secret principal,
    verified (Some golden_service) golden_request aud p now c secret /\
    p_id golden_principal = p_id principal /\ AuthorizesIntake principal aud = true.
Proof.
  destruct (Authenticate_sound (Some golden_service) CtxReq golden_request _ _ golden_runs)
    as (aud & p & now & c & secret & principal & Hv & _ & Hp & _ & Ha & _).
  exists aud, p, now, c, secret, principal. split; [exact Hv|]. split; [exact Hp|exact Ha].
Defined.

Lemma Authenticate_reserve_guarded_witness :
  Forall (fun e => ~ is_reserve e)
    (auth_trace CtxReq golden_auth_audience golden_parsed golden_now golden_credential golden_secret
       golden_principal) \/
  exists aud p now c secret r rest,
    verified (Some golden_service) golden_request aud p now c secret /\
    deps (auth_trace CtxReq golden_auth_audience golden_parsed golden_now golden_credential golden_secret
       golden_principal) = verify_trace CtxReq aud p now c secret r ++ rest /\
    Forall (fun e => ~ is_reserve e) rest.
Proof. exact (Authenticate_reserve_guarded _ _ _ _ _ golden_runs). Defined.

Lemma Authenticate_errors_fixed_witness :
  exists s, Sentinel ErrAuthCanceled = Sentinel s /\ s ∈ auth_errors.
Proof.
  apply (Authenticate_errors_fixed (Some golden_service) CtxReq golden_request
    [@ev AuthE (AuthCtxErr CtxReq) (Some (Sentinel Canceled))] (Sentinel ErrAuthCanceled)).
  exists (Some (Sentinel Canceled)), []. split; [reflexivity|]. split; reflexivity.
Defined.

Lemma requestMAC_binds_witness :
  requestMAC (formatUUID golden_auth_audience) golden_parsed golden_secret =
  requestMAC (formatUUID golden_auth_audience) golden_parsed golden_secret /\
  ((golden_auth_audience = golden_auth_audience /\ rq_path golden_request = rq_path golden_request /\
    pr_credentialID golden_parsed = pr_credentialID golden_parsed /\
    rq_deliveryIdentity golden_request = rq_deliveryIdentity golden_request /\
    pr_timestamp golden_parsed = pr_timestamp golden_parsed /\
    pr_nonce golden_parsed = pr_nonce golden_parsed /\
    rq_rawBody golden_request = rq_rawBody golden_request) \/
   (signingInput (formatUUID golden_auth_audience) golden_parsed <>
    signingInput (formatUUID golden_auth_audience) golden_parsed /\
    HMAC_SHA256 golden_secret (signingInput (formatUUID golden_auth_audience) golden_parsed) =
    HMAC_SHA256 golden_secret (signingInput (formatUUID golden_auth_audience) golden_parsed)) \/
   (rq_rawBody golden_request <> rq_rawBody golden_request /\
    Sum256 (rq_rawBody golden_request) = Sum256 (rq_rawBody golden_request))).
Proof.
  split; [reflexivity|].
  exact (requestMAC_binds golden_request golden_request golden_parsed golden_parsed
    golden_auth_audience golden_auth_audience golden_secret golden_parse golden_parse eq_refl).
Defined.

(** ** Two requests, one replay store *)

Definition golden_nonce2_text : bytes := lit "AAAAAAAAAAAAAAAAAAAAAA".
Definition golden_signature2 : arr 32 :=
  requestMAC (formatUUID golden_auth_audience)
    (golden_form (zero_arr 32) golden_nonce2_text (decode16 golden_nonce2_text)) golden_secret.
Definition golden_request2 : Request :=
  NewRequest (lit "POST") golden_path golden_identity [golden_authorization (b64Encode golden_signature2)]
    [lit "1700000000"] [golden_nonce2_text] golden_body.
Definition golden_parsed2 : parsedRequest :=
  golden_form golden_signature2 golden_nonce2_text (decode16 golden_nonce2_text).

Lemma golden_parse2 : parseRequest golden_request2 = Ok golden_parsed2.
Proof. vm_compute. reflexivity. Qed.

Definition golden_handler (o : auth_op) (s : gset (arr 16 * arr 16) * unit)
  : ans AuthE o * (gset (arr 16 * arr 16) * unit) :=
  match o return ans AuthE o * (gset (arr 16 * arr 16) * unit) with
  | AuthCtxErr _ => (None, s)
  | Clock => (golden_now, s)
  | BoundAudience _ => (Ok golden_auth_audience, s)
  | LookupCredential _ _ _ => (Ok golden_credential, s)
  | LookupSecret _ _ _ => (Ok golden_secret, s)
  | Reserve _ record nonce _ =>
      if decide ((record, nonce) ∈ s.1) then (Ok ReplayDuplicate, s)
      else (Ok ReplayReserved, ({[ (record, nonce) ]} ∪ s.1, s.2))
  | LookupPrincipal _ _ _ => (Ok golden_principal, s)
  end.

Definition golden_record (_ : GatewayAudienceID) (_ : CredentialID) : CredentialRecordID :=
  cs_RecordID golden_credential.

Lemma golden_handler_steps (o : auth_op) R x :
  replay_step golden_record R o (golden_handler o (R, x)).1 (golden_handler o (R, x)).2.1.
Proof.
  destruct o; simpl; try done. case_decide; simpl; [right|left]; done.
Qed.

Definition golden_run (rq : Request) (R : gset (arr 16 * arr 16)) :=
  run (E := AuthE) golden_handler (Authenticate (Some golden_service) CtxReq rq) (R, tt).

Lemma golden_first : (golden_run golden_request ∅).1 = Ok (p_id golden_principal).
Proof. vm_compute. reflexivity. Qed.

Lemma golden_second : (golden_run golden_request2 (golden_run golden_request ∅).2.1).1 = Ok (p_id golden_principal).
Proof. vm_compute. reflexivity. Qed.

(** The same request a second time is refused. *)
Example golden_replayed :
  (golden_run golden_request (golden_run golden_request ∅).2.1).1 = Err ErrAuthenticationFailed.
Proof. vm_compute. reflexivity. Qed.

Lemma golden_exec rq R :
  exec (E := AuthE) (replay_step golden_record) (Authenticate (Some golden_service) CtxReq rq) R
    (golden_run rq R).1 (golden_run rq R).2.1.
Proof. apply (run_exec (E := AuthE)), golden_handler_steps. Qed.

Definition golden_pool : list (Ctx * Request) := [(CtxReq, golden_request); (CtxReq, golden_request2)].

Lemma golden_pool_trace :
  exists log R, pool_trace (E := AuthE) (replay_step golden_record)
    (∅, (fun cr => Authenticate (Some golden_service) cr.1 cr.2) <$> golden_pool) log
    (R, [Ret (Ok (p_id golden_principal)); Ret (Ok (p_id golden_principal))]).
Proof.
  destruct (exec_pool_trace (E := AuthE) (replay_step golden_record)
    (Authenticate (Some golden_service) CtxReq golden_request) ∅ _ _
    ((fun cr => Authenticate (Some golden_service) cr.1 cr.2) <$> golden_pool) 0%nat ltac:(done)
    (golden_exec golden_request ∅)) as [log1 H1].
  destruct (exec_pool_trace (E := AuthE) (replay_step golden_record)
    (Authenticate (Some golden_service) CtxReq golden_request2) (golden_run golden_request ∅).2.1 _ _
    [Ret (Ok (p_id golden_principal)); Authenticate (Some golden_service) CtxReq golden_request2] 1%nat ltac:(done)
    (golden_exec golden_request2 _)) as [log2 H2].
  rewrite golden_first in H1. rewrite golden_second in H2.
  exists (log1 ++ log2). eexists. eapply pool_trace_app; [exact H1|exact H2].
Qed.

Lemma Authenticate_no_replay_witness :
  (pr_credentialID golden_parsed, pr_nonce golden_parsed) <>
  (pr_credentialID golden_parsed2, pr_nonce golden_parsed2).
Proof.
  destruct golden_pool_trace as (log & R & H).
  apply (Authenticate_no_replay golden_record golden_service golden_pool ∅ R
    [Ret (Ok (p_id golden_principal)); Ret (Ok (p_id golden_principal))] log 0%nat 1%nat CtxReq CtxReq
    golden_request golden_request2 (p_id golden_principal) (p_id golden_principal) golden_parsed golden_parsed2);
    [exact H|reflexivity|reflexivity|discriminate|exact golden_parse|exact golden_parse2|reflexivity|reflexivity].
Defined.
