(* ===== verification/Ownership.v ===== *)
(** Shared memory. The other files model a Go slice by its contents. This file
    models the memory behind the slices that the constructors and accessors of
    durable/types.go, protection/key.go, securitystate/types.go,
    authentication/request.go and httpapi/canonical.go take and return, a
    client that keeps the slices it passed and received and writes to them at
    will, and proves that the values behave as their contents: every
    constructor and accessor copies, so that no write reaches a value. *)

From S2P Require Import Prelude GoErrors Encoding Uuid Sha256 Events Canonical Durable Protection SecurityTypes Authentication.

(** * Arrays and slices *)

(** The backing array of a [[]byte] or a [[]string]. *)
Inductive array : Type :=
| ABytes (data : list byte)
| AStrings (data : list bytes).

(** The element types. *)
Class Elem (A : Type) : Type := {
  to_array : list A -> array;
  of_array : array -> list A;
  of_to_array l : of_array (to_array l) = l
}.

#[export] Instance byte_elem : Elem byte :=
  {| to_array := ABytes; of_array a := match a with ABytes l => l | AStrings _ => [] end; of_to_array _ := eq_refl |}.

#[export] Instance string_elem : Elem bytes :=
  {| to_array := AStrings; of_array a := match a with AStrings l => l | ABytes _ => [] end; of_to_array _ := eq_refl |}.

Abbreviation memory := (gmap positive array).

(** A slice: an array, an offset and a length; [None] is the nil slice. *)
Record window : Type := mkWindow { wd_array : positive; wd_offset : nat; wd_len : nat }.
Abbreviation slice := (option window).

Definition len (s : slice) : nat := match s with Some w => wd_len w | None => 0%nat end.

Definition contents {A} `{Elem A} (m : memory) (w : window) : list A :=
  match m !! wd_array w with Some a => take (wd_len w) (drop (wd_offset w) (of_array a)) | None => [] end.

(** The elements of a slice. *)
Definition read {A} `{Elem A} (m : memory) (s : slice) : list A :=
  match s with Some w => contents m w | None => [] end.

(** A new array, for elements that are not empty. *)
Definition alloc {A} `{Elem A} (m : memory) (data : list A) : slice * memory :=
  match data with
  | [] => (None, m)
  | _ => let l := fresh (dom m) in (Some (mkWindow l 0 (length data)), <[l := to_array data]> m)
  end.

(** [append([]T(nil), s...)]. *)
Definition clone A `{Elem A} (m : memory) (s : slice) : slice * memory := alloc m (read (A := A) m s).

(** * Values in memory *)

(** [durable.ProtectedValue]. *)
Record hProtectedValue : Type := mkHProtected { hp_ciphertext : slice; hp_nonce : slice }.

(** [durable.PreparedAcceptance]. *)
Record hPreparedAcceptance : Type := mkHPrepared {
  ha_corePrincipalID : bytes;
  ha_destinationID : bytes;
  ha_deliveryIdentity : DeliveryIdentity;
  ha_formatVersion : Z;
  ha_canonicalEvent : hProtectedValue;
  ha_protectedDigest : hProtectedValue;
  ha_encryptionKeyID : bytes;
  ha_equivalenceDigest : CanonicalDigest
}.

(** [protection.Key]. *)
Record hKey : Type := mkHKey { hk_id : bytes; hk_material : slice }.

(** [httpapi.CanonicalEvent]. *)
Record hCanonicalEvent : Type := mkHEvent { he_formatVersion : Z; he_data : slice; he_digest : arr 32 }.

(** [authentication.Request]. *)
Record hRequest : Type := mkHRequest {
  hr_method : bytes;
  hr_path : bytes;
  hr_deliveryIdentity : bytes;
  hr_authorizationValues : slice;
  hr_timestampValues : slice;
  hr_nonceValues : slice;
  hr_rawBody : slice
}.

(** * The constructors and accessors *)

(** [NewProtectedValue]. *)
Definition heap_NewProtectedValue (m : memory) (ciphertext nonce : slice) : result hProtectedValue * memory :=
  if (len ciphertext =?? 0%nat) || (len nonce =?? 0%nat) then (Err ErrInvalidAcceptance, m)
  else
    let (c, m) := clone byte m ciphertext in
    let (n, m) := clone byte m nonce in
    (Ok (mkHProtected c n), m).

(** [cloneProtectedValue]. *)
Definition heap_cloneProtectedValue (m : memory) (value : hProtectedValue) : hProtectedValue * memory :=
  let (c, m) := clone byte m (hp_ciphertext value) in
  let (n, m) := clone byte m (hp_nonce value) in
  (mkHProtected c n, m).

(** [ProtectedValue.Ciphertext], [ProtectedValue.Nonce]. *)
Definition heap_Ciphertext (m : memory) (value : hProtectedValue) : slice * memory := clone byte m (hp_ciphertext value).
Definition heap_Nonce (m : memory) (value : hProtectedValue) : slice * memory := clone byte m (hp_nonce value).

(** [ProtectedValue.valid], [PreparedAcceptance.validate]. *)
Definition heap_valid (value : hProtectedValue) : bool :=
  (0 <? Z.of_nat (len (hp_ciphertext value))) && (0 <? Z.of_nat (len (hp_nonce value))).

Definition heap_validate (a : hPreparedAcceptance) : bool :=
  negb ((ha_corePrincipalID a =?? []) || (ha_destinationID a =?? []) || arr_is_zero (ha_deliveryIdentity a) ||
        (ha_formatVersion a <=? 0) || negb (heap_valid (ha_canonicalEvent a)) || negb (heap_valid (ha_protectedDigest a)) ||
        (ha_encryptionKeyID a =?? [])).

(** [NewPreparedAcceptance]. *)
Definition heap_NewPreparedAcceptance (m : memory) (corePrincipalID destinationID : bytes)
    (deliveryIdentity : DeliveryIdentity) (formatVersion : Z) (canonicalEvent protectedDigest : hProtectedValue)
    (encryptionKeyID : bytes) (equivalenceDigest : CanonicalDigest) : result hPreparedAcceptance * memory :=
  let (event, m) := heap_cloneProtectedValue m canonicalEvent in
  let (digest, m) := heap_cloneProtectedValue m protectedDigest in
  let acceptance := mkHPrepared corePrincipalID destinationID deliveryIdentity formatVersion event digest
    encryptionKeyID equivalenceDigest in
  if heap_validate acceptance then (Ok acceptance, m) else (Err ErrInvalidAcceptance, m).

(** [PreparedAcceptance.CanonicalEvent], [PreparedAcceptance.ProtectedDigest]. *)
Definition heap_CanonicalEvent (m : memory) (a : hPreparedAcceptance) : hProtectedValue * memory :=
  heap_cloneProtectedValue m (ha_canonicalEvent a).
Definition heap_ProtectedDigest (m : memory) (a : hPreparedAcceptance) : hProtectedValue * memory :=
  heap_cloneProtectedValue m (ha_protectedDigest a).

(** [NewKey], [Key.materialCopy]. *)
Definition heap_NewKey (m : memory) (id : bytes) (material : slice) : result hKey * memory :=
  if (id =?? []) || negb (validateAADString id) || (len material <>?? aes256KeySize) then (Err ErrProtectionInvalid, m)
  else let (s, m) := clone byte m material in (Ok (mkHKey id s), m).

Definition heap_materialCopy (m : memory) (key : hKey) : slice * memory := clone byte m (hk_material key).

(** [NewDestinationVerifierKey], [DestinationVerifierKey.Bytes]. *)
Definition heap_NewDestinationVerifierKey (m : memory) (value : slice) : result slice * memory :=
  if Z.of_nat (len value) <? 32 then (Err ErrInvalidState, m)
  else let (s, m) := clone byte m value in (Ok s, m).

Definition heap_VerifierKeyBytes (m : memory) (key : slice) : slice * memory := clone byte m key.

(** [NewRequest]. *)
Definition heap_NewRequest (m : memory) (method path deliveryIdentity : bytes)
    (authorizationValues timestampValues nonceValues rawBody : slice) : hRequest * memory :=
  let (a, m) := clone bytes m authorizationValues in
  let (t, m) := clone bytes m timestampValues in
  let (n, m) := clone bytes m nonceValues in
  let (b, m) := clone byte m rawBody in
  (mkHRequest method path deliveryIdentity a t n b, m).

(** [CanonicalizeEvent] stores the array it built; [CanonicalEvent.Bytes]. *)
Definition heap_CanonicalizeEvent (range : gmap bytes bytes -> list (bytes * bytes)) (m : memory) (event : EventI)
  : result hCanonicalEvent * memory :=
  match CanonicalizeEvent range event with
  | Err e => (Err e, m)
  | Ok ce => let (s, m) := alloc m (ce_data ce) in (Ok (mkHEvent (ce_formatVersion ce) s (ce_digest ce)), m)
  end.

Definition heap_EventBytes (m : memory) (event : hCanonicalEvent) : slice * memory := clone byte m (he_data event).

(** * A client *)

(** What a client holds: opaque values, and the arrays it can write to. *)
Inductive object : Type :=
| OKey (k : hKey)
| OVerifierKey (k : slice)
| OProtected (v : hProtectedValue)
| OPrepared (a : hPreparedAcceptance)
| OEvent (e : hCanonicalEvent)
| ORequest (r : hRequest).

Record world : Type := mkWorld {
  w_memory : memory;
  w_known : gset positive;
  w_objects : list object
}.

(** What a client does: make an array, overwrite an element of one it knows,
    call a constructor with slices it knows, call an accessor. *)
Inductive action : Type :=
| MakeBytes (data : bytes)
| MakeStrings (data : list bytes)
| WriteByte (l : positive) (i : nat) (b : byte)
| WriteString (l : positive) (i : nat) (v : bytes)
| DoNewKey (id : bytes) (material : slice)
| DoMaterialCopy (i : nat)
| DoNewVerifierKey (value : slice)
| DoVerifierKeyBytes (i : nat)
| DoNewProtected (ciphertext nonce : slice)
| DoCiphertext (i : nat)
| DoNonce (i : nat)
| DoNewPrepared (core dest : bytes) (identity : DeliveryIdentity) (version : Z) (i j : nat) (key : bytes)
    (digest : CanonicalDigest)
| DoPreparedEvent (i : nat)
| DoPreparedDigest (i : nat)
| DoCanonicalize (event : EventI)
| DoEventBytes (i : nat)
| DoNewRequest (method path identity : bytes) (auth timestamps nonces body : slice).

(** A slice a client may pass: the nil slice or a part of a known array. *)
Definition passable A `{Elem A} (m : memory) (K : gset positive) (s : slice) : bool :=
  match s with
  | None => true
  | Some w => bool_decide (wd_array w ∈ K) && (wd_offset w + wd_len w <=? length (of_array (A := A) (default (ABytes []) (m !! wd_array w))))%nat
  end.

(** The client learns the array of a slice. *)
Definition learn (s : slice) (K : gset positive) : gset positive :=
  match s with Some w => {[ wd_array w ]} ∪ K | None => K end.

Definition lend (w : world) (x : slice * memory) : option world :=
  Some (mkWorld x.2 (learn x.1 (w_known w)) (w_objects w)).

Definition keep (w : world) (x : object * memory) : option world :=
  Some (mkWorld x.2 (w_known w) (w_objects w ++ [x.1])).

Definition keep_result {A} (w : world) (f : A -> object) (x : result A * memory) : option world :=
  match x.1 with
  | Ok a => keep w (f a, x.2)
  | Err _ => Some (mkWorld x.2 (w_known w) (w_objects w))
  end.

Section Client.
(** The iteration order of maps, used by the canonicaliser. *)
Variable range : gmap bytes bytes -> list (bytes * bytes).

(** [None]: the client cannot do this; an index out of range panics. *)
Definition step (w : world) (a : action) : option world :=
  let m := w_memory w in
  let K := w_known w in
  match a with
  | MakeBytes data => lend w (alloc m data)
  | MakeStrings data => lend w (alloc m data)
  | WriteByte l i b =>
      match m !! l with
      | Some (ABytes data) =>
          if bool_decide (l ∈ K) && (i <? length data)%nat then Some (mkWorld (<[l := ABytes (<[i := b]> data)]> m) K (w_objects w)) else None
      | _ => None
      end
  | WriteString l i v =>
      match m !! l with
      | Some (AStrings data) =>
          if bool_decide (l ∈ K) && (i <? length data)%nat then Some (mkWorld (<[l := AStrings (<[i := v]> data)]> m) K (w_objects w)) else None
      | _ => None
      end
  | DoNewKey id s => if passable byte m K s then keep_result w OKey (heap_NewKey m id s) else None
  | DoMaterialCopy i => match w_objects w !! i with Some (OKey k) => lend w (heap_materialCopy m k) | _ => None end
  | DoNewVerifierKey s => if passable byte m K s then keep_result w OVerifierKey (heap_NewDestinationVerifierKey m s) else None
  | DoVerifierKeyBytes i =>
      match w_objects w !! i with Some (OVerifierKey k) => lend w (heap_VerifierKeyBytes m k) | _ => None end
  | DoNewProtected c n =>
      if passable byte m K c && passable byte m K n then keep_result w OProtected (heap_NewProtectedValue m c n) else None
  | DoCiphertext i => match w_objects w !! i with Some (OProtected v) => lend w (heap_Ciphertext m v) | _ => None end
  | DoNonce i => match w_objects w !! i with Some (OProtected v) => lend w (heap_Nonce m v) | _ => None end
  | DoNewPrepared core dest identity version i j key digest =>
      match w_objects w !! i, w_objects w !! j with
      | Some (OProtected e), Some (OProtected d) =>
          keep_result w OPrepared (heap_NewPreparedAcceptance m core dest identity version e d key digest)
      | _, _ => None
      end
  | DoPreparedEvent i =>
      match w_objects w !! i with
      | Some (OPrepared a) => let (v, m) := heap_CanonicalEvent m a in keep w (OProtected v, m)
      | _ => None
      end
  | DoPreparedDigest i =>
      match w_objects w !! i with
      | Some (OPrepared a) => let (v, m) := heap_ProtectedDigest m a in keep w (OProtected v, m)
      | _ => None
      end
  | DoCanonicalize e => keep_result w OEvent (heap_CanonicalizeEvent range m e)
  | DoEventBytes i => match w_objects w !! i with Some (OEvent e) => lend w (heap_EventBytes m e) | _ => None end
  | DoNewRequest method path identity a t n b =>
      if passable bytes m K a && passable bytes m K t && passable bytes m K n && passable byte m K b
      then let (r, m) := heap_NewRequest m method path identity a t n b in keep w (ORequest r, m)
      else None
  end.

Fixpoint steps (w : world) (l : list action) : option world :=
  match l with [] => Some w | a :: l => match step w a with Some w => steps w l | None => None end end.

(** * The same client over contents *)

(** The values of the other files. *)
Inductive value : Type :=
| VKey (k : Key)
| VVerifierKey (k : DestinationVerifierKey)
| VProtected (v : ProtectedValue)
| VPrepared (a : PreparedAcceptance)
| VEvent (e : CanonicalEvent)
| VRequest (r : Request).

(** The client's own arrays, and values that nothing can change. *)
Record view : Type := mkView { v_arrays : memory; v_values : list value }.

(** A slice with these elements is handed out: a new array, unless it is empty. *)
Definition hands_out {A} `{Elem A} (data : list A) (x y : view) : Prop :=
  v_values y = v_values x /\
  ((data = [] /\ v_arrays y = v_arrays x) \/
   exists l, data <> [] /\ v_arrays x !! l = None /\ v_arrays y = <[l := to_array data]> (v_arrays x)).

Definition adds (v : value) (x y : view) : Prop := y = mkView (v_arrays x) (v_values x ++ [v]).

Definition adds_result {A} (f : A -> value) (r : result A) (x y : view) : Prop :=
  match r with Ok a => adds (f a) x y | Err _ => y = x end.

Definition view_step (x : view) (a : action) (y : view) : Prop :=
  let m := v_arrays x in
  match a with
  | MakeBytes data => hands_out data x y
  | MakeStrings data => hands_out data x y
  | WriteByte l i b => exists data, m !! l = Some (ABytes data) /\ (i < length data)%nat /\ y = mkView (<[l := ABytes (<[i := b]> data)]> m) (v_values x)
  | WriteString l i v => exists data, m !! l = Some (AStrings data) /\ (i < length data)%nat /\ y = mkView (<[l := AStrings (<[i := v]> data)]> m) (v_values x)
  | DoNewKey id s => adds_result VKey (NewKey id (read m s)) x y
  | DoMaterialCopy i => exists k, v_values x !! i = Some (VKey k) /\ hands_out (key_material k) x y
  | DoNewVerifierKey s => adds_result VVerifierKey (NewDestinationVerifierKey (read m s)) x y
  | DoVerifierKeyBytes i => exists k, v_values x !! i = Some (VVerifierKey k) /\ hands_out (A := byte) k x y
  | DoNewProtected c n => adds_result VProtected (NewProtectedValue (read m c) (read m n)) x y
  | DoCiphertext i => exists v, v_values x !! i = Some (VProtected v) /\ hands_out (pv_ciphertext v) x y
  | DoNonce i => exists v, v_values x !! i = Some (VProtected v) /\ hands_out (pv_nonce v) x y
  | DoNewPrepared core dest identity version i j key digest => exists e d,
      v_values x !! i = Some (VProtected e) /\ v_values x !! j = Some (VProtected d) /\
      adds_result VPrepared (NewPreparedAcceptance core dest identity version e d key digest) x y
  | DoPreparedEvent i => exists a, v_values x !! i = Some (VPrepared a) /\ adds (VProtected (pa_canonicalEvent a)) x y
  | DoPreparedDigest i => exists a, v_values x !! i = Some (VPrepared a) /\ adds (VProtected (pa_protectedDigest a)) x y
  | DoCanonicalize e => adds_result VEvent (CanonicalizeEvent range e) x y
  | DoEventBytes i => exists e, v_values x !! i = Some (VEvent e) /\ hands_out (ce_data e) x y
  | DoNewRequest method path identity a t n b =>
      adds (VRequest (NewRequest method path identity (read m a) (read m t) (read m n) (read m b))) x y
  end.
End Client.

(** * What the memory holds *)

Definition protected_of (m : memory) (v : hProtectedValue) : ProtectedValue :=
  mkProtectedValue (read m (hp_ciphertext v)) (read m (hp_nonce v)).

Definition value_of (m : memory) (o : object) : value :=
  match o with
  | OKey k => VKey (mkKey (hk_id k) (read m (hk_material k)))
  | OVerifierKey k => VVerifierKey (read (A := byte) m k)
  | OProtected v => VProtected (protected_of m v)
  | OPrepared a =>
      VPrepared (mkPreparedAcceptance (ha_corePrincipalID a) (ha_destinationID a) (ha_deliveryIdentity a)
        (ha_formatVersion a) (protected_of m (ha_canonicalEvent a)) (protected_of m (ha_protectedDigest a))
        (ha_encryptionKeyID a) (ha_equivalenceDigest a))
  | OEvent e => VEvent (mkCanonicalEvent (he_formatVersion e) (read m (he_data e)) (he_digest e))
  | ORequest r =>
      VRequest (NewRequest (hr_method r) (hr_path r) (hr_deliveryIdentity r) (read m (hr_authorizationValues r))
        (read m (hr_timestampValues r)) (read m (hr_nonceValues r)) (read m (hr_rawBody r)))
  end.

(** The arrays a client knows, and the values it holds. *)
Definition view_of (w : world) : view :=
  mkView (filter (fun x => x.1 ∈ w_known w) (w_memory w)) (map (value_of (w_memory w)) (w_objects w)).

(** * Ownership *)

(** A slice lies within its array. *)
Definition bounded A `{Elem A} (m : memory) (s : slice) : Prop :=
  match s with
  | None => True
  | Some w => exists a, m !! wd_array w = Some a /\ (wd_offset w + wd_len w <= length (of_array (A := A) a))%nat
  end.

(** The client does not know the array of a slice. *)
Definition hidden (K : gset positive) (s : slice) : Prop :=
  match s with None => True | Some w => wd_array w ∉ K end.

Definition owned A `{Elem A} (m : memory) (K : gset positive) (s : slice) : Prop := bounded A m s /\ hidden K s.

Definition owned_protected (m : memory) (K : gset positive) (v : hProtectedValue) : Prop :=
  owned byte m K (hp_ciphertext v) /\ owned byte m K (hp_nonce v).

Definition owned_object (m : memory) (K : gset positive) (o : object) : Prop :=
  match o with
  | OKey k => owned byte m K (hk_material k)
  | OVerifierKey k => owned byte m K k
  | OProtected v => owned_protected m K v
  | OPrepared a => owned_protected m K (ha_canonicalEvent a) /\ owned_protected m K (ha_protectedDigest a)
  | OEvent e => owned byte m K (he_data e)
  | ORequest r =>
      owned bytes m K (hr_authorizationValues r) /\ owned bytes m K (hr_timestampValues r) /\
      owned bytes m K (hr_nonceValues r) /\ owned byte m K (hr_rawBody r)
  end.

(** No array of a value is known to the client. *)
Definition inv (w : world) : Prop :=
  w_known w ⊆ dom (w_memory w) /\ Forall (owned_object (w_memory w) (w_known w)) (w_objects w).

(** The arrays the client does not know stay as they are and unknown. *)
Definition frame (m : memory) (K : gset positive) (m' : memory) (K' : gset positive) : Prop :=
  forall l a, l ∉ K -> m !! l = Some a -> m' !! l = Some a /\ l ∉ K'.

Lemma frame_grow m m' K : m ⊆ m' -> frame m K m' K.
Proof. intros Hs l a Hl Ha. split; [exact (lookup_weaken _ _ _ _ Ha Hs)|exact Hl]. Qed.

Section Slices.
Context {A : Type} `{Elem A}.

Lemma owned_frame m K m' K' s :
  owned A m K s -> frame m K m' K' -> owned A m' K' s /\ read (A := A) m' s = read m s.
Proof.
  destruct s as [w|]; [|done]. intros [(a & Ha & Hb) Hh] Hf. destruct (Hf _ _ Hh Ha) as [Ha' Hh'].
  unfold owned, read, contents. cbn. rewrite Ha, Ha'. eauto.
Qed.

Lemma bounded_grow m m' s : bounded A m s -> m ⊆ m' -> bounded A m' s /\ read (A := A) m' s = read m s.
Proof.
  destruct s as [w|]; [|done]. intros (a & Ha & Hb) Hs. pose proof (lookup_weaken _ _ _ _ Ha Hs) as Ha'.
  unfold read, contents. cbn. rewrite Ha, Ha'. eauto.
Qed.

Lemma length_read m s : bounded A m s -> length (read (A := A) m s) = len s.
Proof.
  destruct s as [w|]; [|done]. intros (a & Ha & Hb). unfold read, contents. rewrite Ha.
  rewrite length_take, length_drop. cbn. lia.
Qed.

(** A new slice. *)
Lemma alloc_spec m K (data : list A) s m' : alloc m data = (s, m') -> K ⊆ dom m ->
  m ⊆ m' /\ K ⊆ dom m' /\ owned A m' K s /\ read m' s = data /\ len s = length data.
Proof.
  unfold alloc. destruct data as [|x data]; intros [= <- <-] HK.
  - repeat split; done.
  - pose proof (is_fresh (dom m)) as Hf.
    assert (Hn : m !! fresh (dom m) = None) by (apply not_elem_of_dom; exact Hf).
    split; [apply insert_subseteq, Hn|]. split; [set_solver|].
    split; [|split; [|done]].
    + split; [|cbn; set_solver]. cbn. eexists. split; [apply lookup_insert_eq|]. rewrite of_to_array. cbn. lia.
    + unfold read, contents. cbn [wd_array wd_len wd_offset]. rewrite lookup_insert_eq, of_to_array. cbn [drop].
      apply take_ge. done.
Qed.

Lemma clone_spec m K s c m' : clone A m s = (c, m') -> K ⊆ dom m ->
  m ⊆ m' /\ K ⊆ dom m' /\ owned A m' K c /\ read m' c = read (A := A) m s /\ len c = length (read (A := A) m s).
Proof. apply alloc_spec. Qed.

(** What a client passes. *)
Lemma passable_spec m K s : passable A m K s = true -> K ⊆ dom m ->
  bounded A m s /\ read (A := A) (filter (fun x => x.1 ∈ K) m) s = read m s.
Proof.
  destruct s as [w|]; [|done]. cbn. rewrite andb_true_iff, bool_decide_eq_true, Nat.leb_le. intros [Hk Hb] HK.
  destruct (m !! wd_array w) as [a|] eqn:Ha.
  2: { apply not_elem_of_dom in Ha. set_solver. }
  split; [eauto|]. unfold contents. rewrite Ha.
  replace (filter (fun x => x.1 ∈ K) m !! wd_array w) with (Some a); [done|].
  symmetry. apply map_lookup_filter_Some. done.
Qed.

End Slices.

Lemma owned_grow A `{Elem A} m m' K s : owned A m K s -> m ⊆ m' -> owned A m' K s /\ read (A := A) m' s = read m s.
Proof. intros Ho Hs. exact (owned_frame _ _ _ _ _ Ho (frame_grow _ _ _ Hs)). Qed.

(** ** Values across steps *)

Lemma owned_protected_frame m K m' K' v : owned_protected m K v -> frame m K m' K' ->
  owned_protected m' K' v /\ protected_of m' v = protected_of m v.
Proof.
  intros [Hc Hn] Hf. destruct (owned_frame _ _ _ _ _ Hc Hf) as [Hc' Ec].
  destruct (owned_frame _ _ _ _ _ Hn Hf) as [Hn' En]. unfold protected_of. rewrite Ec, En. done.
Qed.

Lemma owned_object_frame m K m' K' o : owned_object m K o -> frame m K m' K' ->
  owned_object m' K' o /\ value_of m' o = value_of m o.
Proof.
  intros Ho Hf. destruct o as [k|k|v|a|e|r]; cbn in Ho |- *.
  - destruct (owned_frame _ _ _ _ _ Ho Hf) as [? ->]. done.
  - destruct (owned_frame _ _ _ _ _ Ho Hf) as [? ->]. done.
  - destruct (owned_protected_frame _ _ _ _ _ Ho Hf) as [? ->]. done.
  - destruct Ho as [H1 H2]. destruct (owned_protected_frame _ _ _ _ _ H1 Hf) as [? ->].
    destruct (owned_protected_frame _ _ _ _ _ H2 Hf) as [? ->]. done.
  - destruct (owned_frame _ _ _ _ _ Ho Hf) as [? ->]. done.
  - destruct Ho as (H1 & H2 & H3 & H4). destruct (owned_frame _ _ _ _ _ H1 Hf) as [? ->].
    destruct (owned_frame _ _ _ _ _ H2 Hf) as [? ->]. destruct (owned_frame _ _ _ _ _ H3 Hf) as [? ->].
    destruct (owned_frame _ _ _ _ _ H4 Hf) as [? ->]. done.
Qed.

Lemma owned_objects_frame m K m' K' l : Forall (owned_object m K) l -> frame m K m' K' ->
  Forall (owned_object m' K') l /\ map (value_of m') l = map (value_of m) l.
Proof.
  intros Ho Hf. induction Ho as [|o l Ho _ IH]; [done|].
  destruct IH as [IH1 IH2]. destruct (owned_object_frame _ _ _ _ _ Ho Hf) as [H1 H2]. cbn. rewrite H2, IH2. auto.
Qed.

(** The known part of a memory that grew. *)
Lemma known_grow (m m' : memory) (K : gset positive) : m ⊆ m' -> K ⊆ dom m ->
  filter (fun x : positive * array => x.1 ∈ K) m' = filter (fun x => x.1 ∈ K) m.
Proof.
  intros Hs HK. apply map_eq. intros l. apply option_eq. intros a. rewrite !map_lookup_filter_Some. cbn.
  split; intros [Ha Hl]; (split; [|exact Hl]).
  - apply HK, elem_of_dom in Hl as [b Hb]. rewrite (lookup_weaken _ _ _ _ Hb Hs) in Ha. congruence.
  - exact (lookup_weaken _ _ _ _ Ha Hs).
Qed.

(** The client gets a copy. *)
Lemma lend_spec A `{Elem A} w w' (data : list A) : inv w -> lend w (alloc (w_memory w) data) = Some w' ->
  inv w' /\ hands_out data (view_of w) (view_of w').
Proof.
  destruct w as [m K os]. intros [HK Ho] [= <-]. cbn [w_memory w_known w_objects] in *.
  destruct data as [|x data]; cbn.
  { split; [split; done|]. split; [done|]. left. done. }
  set (l := fresh (dom m)). set (a := to_array (x :: data)).
  assert (Hl : l ∉ dom m) by apply is_fresh.
  assert (Hf : frame m K (<[l := a]> m) ({[l]} ∪ K)).
  { intros l' b Hl' Hb. assert (l' <> l) by (intros ->; apply Hl, elem_of_dom; eauto).
    rewrite lookup_insert_ne by done. set_solver. }
  destruct (owned_objects_frame _ _ _ _ _ Ho Hf) as [Ho' Ev].
  split; [split; cbn; [set_solver|exact Ho']|]. split; [exact Ev|]. right. exists l. split; [done|]. split.
  - apply map_lookup_filter_None. left. apply not_elem_of_dom, Hl.
  - apply map_eq. intros l'. apply option_eq. intros b. unfold view_of. cbn [v_arrays w_memory w_known]. fold a.
    destruct (decide (l' = l)) as [->|Hne].
    + rewrite lookup_insert_eq, map_lookup_filter_Some, lookup_insert_eq. cbn. set_solver.
    + rewrite lookup_insert_ne, !map_lookup_filter_Some, lookup_insert_ne by done. cbn. set_solver.
Qed.

(** A constructor's value. *)
Lemma keep_spec w w' m o : inv w -> w_memory w ⊆ m -> owned_object m (w_known w) o -> keep w (o, m) = Some w' ->
  inv w' /\ adds (value_of m o) (view_of w) (view_of w').
Proof.
  intros [HK Ho] Hs Hn [= <-]. destruct (owned_objects_frame _ _ _ _ _ Ho (frame_grow _ _ _ Hs)) as [Ho' Ev].
  split.
  - split; cbn; [etransitivity; [exact HK|apply subseteq_dom, Hs]|]. apply Forall_app. auto.
  - unfold adds, view_of. cbn. rewrite map_app, Ev, (known_grow _ _ _ Hs HK). done.
Qed.

(** A call that fails leaves nothing but garbage. *)
Lemma garbage_spec w m : inv w -> w_memory w ⊆ m ->
  inv (mkWorld m (w_known w) (w_objects w)) /\ view_of (mkWorld m (w_known w) (w_objects w)) = view_of w.
Proof.
  intros [HK Ho] Hs. destruct (owned_objects_frame _ _ _ _ _ Ho (frame_grow _ _ _ Hs)) as [Ho' Ev].
  split.
  - split; cbn; [etransitivity; [exact HK|apply subseteq_dom, Hs]|done].
  - unfold view_of. cbn. rewrite Ev, (known_grow _ _ _ Hs HK). done.
Qed.

(** A constructor does what its model over contents does. *)
Definition constructs {H A} (m : memory) (K : gset positive) (f : H -> object) (g : A -> value)
    (x : result H * memory) (r : result A) : Prop :=
  m ⊆ x.2 /\
  match x.1, r with
  | Ok h, Ok a => owned_object x.2 K (f h) /\ value_of x.2 (f h) = g a
  | Err _, Err _ => True
  | _, _ => False
  end.

Lemma keep_result_spec {H A} w w' (f : H -> object) (g : A -> value) x r : inv w ->
  constructs (w_memory w) (w_known w) f g x r -> keep_result w f x = Some w' ->
  inv w' /\ adds_result g r (view_of w) (view_of w').
Proof.
  intros Hi [Hs Hc] Hk. destruct x as [[h|e] m], r as [a|e']; cbn in *; try contradiction.
  - destruct Hc as [Ho <-]. exact (keep_spec _ _ _ _ Hi Hs Ho Hk).
  - injection Hk as <-. exact (garbage_spec _ _ Hi Hs).
Qed.

(** A write to an array of the client. *)
Lemma write_spec w l a : inv w -> l ∈ w_known w ->
  inv (mkWorld (<[l := a]> (w_memory w)) (w_known w) (w_objects w)) /\
  view_of (mkWorld (<[l := a]> (w_memory w)) (w_known w) (w_objects w)) =
    mkView (<[l := a]> (v_arrays (view_of w))) (v_values (view_of w)).
Proof.
  intros [HK Ho] Hl.
  assert (Hf : frame (w_memory w) (w_known w) (<[l := a]> (w_memory w)) (w_known w)).
  { intros l' b Hl' Hb. rewrite lookup_insert_ne by (intros <-; done). done. }
  destruct (owned_objects_frame _ _ _ _ _ Ho Hf) as [Ho' Ev]. split.
  - split; cbn; [set_solver|exact Ho'].
  - unfold view_of. cbn. rewrite Ev. f_equal. apply map_filter_insert_True. done.
Qed.

(** ** The constructors *)

(** The next copy the goal makes. *)
Ltac cloned HK HK' Hs Ho Er :=
  match goal with
  | |- context [clone ?A ?m ?s] =>
      let E := fresh in destruct (clone A m s) as [? ?] eqn:E;
      destruct (clone_spec m _ s _ _ E HK) as (Hs & HK' & Ho & Er & _)
  end.

Lemma heap_cloneProtectedValue_spec m K v v' m' : heap_cloneProtectedValue m v = (v', m') -> K ⊆ dom m ->
  owned_protected m K v -> m ⊆ m' /\ K ⊆ dom m' /\ owned_protected m' K v' /\ protected_of m' v' = protected_of m v.
Proof.
  intros E HK [_ Hn]. revert E. unfold heap_cloneProtectedValue.
  cloned HK HK1 Hs1 Ho1 Er1. cloned HK1 HK2 Hs2 Ho2 Er2. intros [= <- <-].
  destruct (owned_grow _ _ _ _ _ Ho1 Hs2) as [Ho1' Er1']. destruct (owned_grow _ _ _ _ _ Hn Hs1) as [_ Hn'].
  repeat split; try solve [apply Ho1'|apply Ho2|done]; [etransitivity; eassumption|].
  unfold protected_of. cbn. congruence.
Qed.

Lemma heap_NewProtectedValue_spec m K c n : K ⊆ dom m -> bounded byte m c -> bounded byte m n ->
  constructs m K OProtected VProtected (heap_NewProtectedValue m c n) (NewProtectedValue (read m c) (read m n)).
Proof.
  intros HK Hc Hn. unfold heap_NewProtectedValue, NewProtectedValue, constructs.
  rewrite !length_read by done. destruct (_ || _); [done|].
  cloned HK HK1 Hs1 Ho1 Er1. cloned HK1 HK2 Hs2 Ho2 Er2. cbn.
  destruct (owned_grow _ _ _ _ _ Ho1 Hs2) as [Ho1' Er1']. destruct (bounded_grow _ _ _ Hn Hs1) as [_ Hn'].
  split; [etransitivity; eassumption|]. split; [done|]. unfold protected_of. cbn. congruence.
Qed.

Lemma heap_valid_spec m K v : owned_protected m K v -> heap_valid v = protected_valid (protected_of m v).
Proof.
  intros [[Hc _] [Hn _]]. unfold heap_valid, protected_valid. cbn. rewrite !length_read by done. done.
Qed.

Lemma heap_NewPreparedAcceptance_spec m K core dest identity version e d key digest : K ⊆ dom m ->
  owned_protected m K e -> owned_protected m K d ->
  constructs m K OPrepared VPrepared (heap_NewPreparedAcceptance m core dest identity version e d key digest)
    (NewPreparedAcceptance core dest identity version (protected_of m e) (protected_of m d) key digest).
Proof.
  intros HK He Hd. unfold heap_NewPreparedAcceptance, NewPreparedAcceptance, constructs.
  destruct (heap_cloneProtectedValue m e) as [e' m1] eqn:E1.
  destruct (heap_cloneProtectedValue_spec _ K _ _ _ E1 HK He) as (Hs1 & HK1 & He' & Ee).
  destruct (owned_protected_frame _ _ _ _ _ Hd (frame_grow _ _ K Hs1)) as [Hd1 Ed1].
  destruct (heap_cloneProtectedValue m1 d) as [d' m2] eqn:E2.
  destruct (heap_cloneProtectedValue_spec _ K _ _ _ E2 HK1 Hd1) as (Hs2 & HK2 & Hd' & Ed).
  destruct (owned_protected_frame _ _ _ _ _ He' (frame_grow _ _ K Hs2)) as [He2 Ee2].
  assert (Hv : heap_validate (mkHPrepared core dest identity version e' d' key digest) =
    validate (mkPreparedAcceptance core dest identity version (protected_of m e) (protected_of m d) key digest)).
  { unfold heap_validate, validate. cbn [ha_corePrincipalID ha_destinationID ha_deliveryIdentity ha_formatVersion
      ha_canonicalEvent ha_protectedDigest ha_encryptionKeyID pa_corePrincipalID pa_destinationID pa_deliveryIdentity
      pa_formatVersion pa_canonicalEvent pa_protectedDigest pa_encryptionKeyID].
    rewrite (heap_valid_spec m2 K e'), (heap_valid_spec m2 K d') by done. congruence. }
  rewrite Hv. destruct (validate _); cbn; (split; [etransitivity; eassumption|]); [|done].
  split; [done|]. congruence.
Qed.

Lemma heap_NewKey_spec m K id s : K ⊆ dom m -> bounded byte m s ->
  constructs m K OKey VKey (heap_NewKey m id s) (NewKey id (read m s)).
Proof.
  intros HK Hb. unfold heap_NewKey, NewKey, constructs. rewrite length_read by done.
  destruct (_ || _ || _); [done|]. cloned HK HK1 Hs1 Ho1 Er1. cbn. split; [done|]. split; [done|]. congruence.
Qed.

Lemma heap_NewDestinationVerifierKey_spec m K s : K ⊆ dom m -> bounded byte m s ->
  constructs m K OVerifierKey VVerifierKey (heap_NewDestinationVerifierKey m s) (NewDestinationVerifierKey (read m s)).
Proof.
  intros HK Hb. unfold heap_NewDestinationVerifierKey, NewDestinationVerifierKey, constructs. rewrite length_read by done.
  destruct (_ <? _); [done|]. cloned HK HK1 Hs1 Ho1 Er1. cbn. split; [done|]. split; [done|]. congruence.
Qed.

Lemma heap_CanonicalizeEvent_spec range m K e : K ⊆ dom m ->
  constructs m K OEvent VEvent (heap_CanonicalizeEvent range m e) (CanonicalizeEvent range e).
Proof.
  intros HK. unfold heap_CanonicalizeEvent, constructs. destruct (CanonicalizeEvent range e) as [[v d g]|x]; [|done].
  cbn [ce_data ce_formatVersion ce_digest].
  destruct (alloc m d) as [s m'] eqn:E. destruct (alloc_spec m K d s m' E HK) as (Hs & _ & Ho & Er & _). cbn.
  split; [done|]. split; [done|]. congruence.
Qed.

Lemma heap_NewRequest_spec m K method path identity a t n b r m' :
  heap_NewRequest m method path identity a t n b = (r, m') -> K ⊆ dom m ->
  bounded bytes m a -> bounded bytes m t -> bounded bytes m n -> bounded byte m b ->
  m ⊆ m' /\ owned_object m' K (ORequest r) /\
  value_of m' (ORequest r) = VRequest (NewRequest method path identity (read m a) (read m t) (read m n) (read m b)).
Proof.
  intros E HK Ha Ht Hn Hb. revert E. unfold heap_NewRequest.
  cloned HK HK1 Hs1 Ho1 Er1. cloned HK1 HK2 Hs2 Ho2 Er2. cloned HK2 HK3 Hs3 Ho3 Er3. cloned HK3 HK4 Hs4 Ho4 Er4.
  intros [= <- <-].
  destruct (bounded_grow _ _ _ Ht Hs1) as [_ Et].
  assert (Hs12 := transitivity Hs1 Hs2). destruct (bounded_grow _ _ _ Hn Hs12) as [_ En].
  assert (Hs13 := transitivity Hs12 Hs3). destruct (bounded_grow _ _ _ Hb Hs13) as [_ Eb].
  assert (Hs34 := transitivity Hs3 Hs4). assert (Hs24 := transitivity Hs2 Hs34).
  destruct (owned_grow _ _ _ _ _ Ho1 Hs24) as [Ho1' E1]. destruct (owned_grow _ _ _ _ _ Ho2 Hs34) as [Ho2' E2].
  destruct (owned_grow _ _ _ _ _ Ho3 Hs4) as [Ho3' E3].
  split; [etransitivity; eassumption|]. split; [done|]. cbn. congruence.
Qed.

(** ** Steps *)

Lemma held w i o : inv w -> w_objects w !! i = Some o ->
  owned_object (w_memory w) (w_known w) o /\ v_values (view_of w) !! i = Some (value_of (w_memory w) o).
Proof.
  intros [_ Ho] Hi. split; [exact (proj1 (Forall_lookup _ _) Ho _ _ Hi)|]. cbn.
  change (map ?f ?l) with (f <$> l). rewrite list_lookup_fmap, Hi. done.
Qed.

(** What a client passes, seen through its view. *)
Lemma passed A `{Elem A} w s : inv w -> passable A (w_memory w) (w_known w) s = true ->
  bounded A (w_memory w) s /\ read (A := A) (v_arrays (view_of w)) s = read (w_memory w) s.
Proof. intros [HK _] Hp. exact (passable_spec _ _ _ Hp HK). Qed.

Lemma keep_clone w w' v : inv w -> owned_protected (w_memory w) (w_known w) v ->
  (let (u, m) := heap_cloneProtectedValue (w_memory w) v in keep w (OProtected u, m)) = Some w' ->
  inv w' /\ adds (VProtected (protected_of (w_memory w) v)) (view_of w) (view_of w').
Proof.
  intros Hi Hv E. destruct (heap_cloneProtectedValue _ _) as [u m] eqn:Ec.
  destruct (heap_cloneProtectedValue_spec _ _ _ _ _ Ec (proj1 Hi) Hv) as (Hs & _ & Ho & Ev).
  rewrite <- Ev. exact (keep_spec _ _ _ (OProtected u) Hi Hs Ho E).
Qed.

(** The cases of a step that returns. *)
Ltac taken :=
  repeat match goal with
  | H : match ?x with _ => _ end = Some _ |- _ => destruct x eqn:?; try discriminate H
  end.

Lemma step_refines range w a w' : inv w -> step range w a = Some w' ->
  inv w' /\ view_step range (view_of w) a (view_of w').
Proof.
  intros Hi. pose proof (proj1 Hi) as HK. destruct a; cbn [step view_step]; intros E.
  - exact (lend_spec _ _ _ _ Hi E).
  - exact (lend_spec _ _ _ _ Hi E).
  - taken. injection E as <-. apply andb_true_iff in Heqb0 as [Hk%bool_decide_eq_true Hlt%Nat.ltb_lt].
    destruct (write_spec w l (ABytes (<[i:=b]> data)) Hi Hk) as [Hi' Ev]. split; [exact Hi'|].
    exists data. split; [|split; [exact Hlt|exact Ev]]. apply map_lookup_filter_Some. done.
  - taken. injection E as <-. apply andb_true_iff in Heqb as [Hk%bool_decide_eq_true Hlt%Nat.ltb_lt].
    destruct (write_spec w l (AStrings (<[i:=v]> data)) Hi Hk) as [Hi' Ev]. split; [exact Hi'|].
    exists data. split; [|split; [exact Hlt|exact Ev]]. apply map_lookup_filter_Some. done.
  - destruct (passable byte _ _ material) eqn:Hp; [|done]. destruct (passed _ _ _ Hi Hp) as [Hb ->].
    exact (keep_result_spec _ _ _ _ _ _ Hi (heap_NewKey_spec _ _ _ _ HK Hb) E).
  - taken. destruct (held _ _ _ Hi Heqo) as [_ Hv]. destruct (lend_spec _ _ _ _ Hi E). eauto.
  - destruct (passable byte _ _ _) eqn:Hp; [|done]. destruct (passed _ _ _ Hi Hp) as [Hb ->].
    exact (keep_result_spec _ _ _ _ _ _ Hi (heap_NewDestinationVerifierKey_spec _ _ _ HK Hb) E).
  - taken. destruct (held _ _ _ Hi Heqo) as [_ Hv]. destruct (lend_spec _ _ _ _ Hi E). eauto.
  - destruct (passable byte _ _ ciphertext) eqn:Hp; [|done]. destruct (passed _ _ _ Hi Hp) as [Hc ->].
    destruct (passable byte _ _ nonce) eqn:Hq; [|done]. destruct (passed _ _ _ Hi Hq) as [Hn ->].
    exact (keep_result_spec _ _ _ _ _ _ Hi (heap_NewProtectedValue_spec _ _ _ _ HK Hc Hn) E).
  - taken. destruct (held _ _ _ Hi Heqo) as [_ Hv]. destruct (lend_spec _ _ _ _ Hi E). eauto.
  - taken. destruct (held _ _ _ Hi Heqo) as [_ Hv]. destruct (lend_spec _ _ _ _ Hi E). eauto.
  - taken. subst. destruct (held _ _ _ Hi Heqo) as [He Hv]. destruct (held _ _ _ Hi Heqo1) as [Hd Hu].
    destruct (keep_result_spec _ _ _ _ _ _ Hi
      (heap_NewPreparedAcceptance_spec _ _ core dest identity version _ _ key digest HK He Hd) E) as [Hi' Ha].
    split; [exact Hi'|]. eauto 6.
  - destruct (w_objects w !! i) as [[]|] eqn:Ho; try discriminate. destruct (held _ _ _ Hi Ho) as [[He _] Hv].
    destruct (keep_clone _ _ _ Hi He E). eauto.
  - destruct (w_objects w !! i) as [[]|] eqn:Ho; try discriminate. destruct (held _ _ _ Hi Ho) as [[_ He] Hv].
    destruct (keep_clone _ _ _ Hi He E). eauto.
  - exact (keep_result_spec _ _ _ _ _ _ Hi (heap_CanonicalizeEvent_spec _ _ _ _ HK) E).
  - taken. destruct (held _ _ _ Hi Heqo) as [_ Hv]. destruct (lend_spec _ _ _ _ Hi E). eauto.
  - destruct (passable bytes _ _ auth && _ && _ && _) eqn:Hp; [|done].
    apply andb_true_iff in Hp as [Hp Hpb]. apply andb_true_iff in Hp as [Hp Hpn]. apply andb_true_iff in Hp as [Hpa Hpt].
    destruct (passed _ _ _ Hi Hpa) as [Ha ->], (passed _ _ _ Hi Hpt) as [Ht ->], (passed _ _ _ Hi Hpn) as [Hn ->],
      (passed _ _ _ Hi Hpb) as [Hb ->].
    destruct (heap_NewRequest _ _ _ _ _ _ _ _) as [r m] eqn:Er.
    destruct (heap_NewRequest_spec _ _ _ _ _ _ _ _ _ _ _ Er HK Ha Ht Hn Hb) as (Hs & Ho & Ev).
    rewrite <- Ev. exact (keep_spec _ _ _ _ Hi Hs Ho E).
Qed.

(** Steps over contents. *)
Inductive view_steps (range : gmap bytes bytes -> list (bytes * bytes)) : view -> list action -> view -> Prop :=
| view_done x : view_steps range x [] x
| view_next x a y l z : view_step range x a y -> view_steps range y l z -> view_steps range x (a :: l) z.

Lemma view_step_prefix range x a y : view_step range x a y -> v_values x `prefix_of` v_values y.
Proof.
  assert (Hadd : forall v, adds v x y -> v_values x `prefix_of` v_values y).
  { intros v ->. apply prefix_app_r. done. }
  assert (Hres : forall A (f : A -> value) r, adds_result f r x y -> v_values x `prefix_of` v_values y).
  { intros A f [v|e]; cbn; [apply Hadd|intros ->; done]. }
  assert (Hout : forall A (HE : Elem A) (d : list A), hands_out d x y -> v_values x `prefix_of` v_values y).
  { intros A HE d [-> _]. done. }
  destruct a; cbn [view_step]; intros Hs;
    repeat match goal with H : exists _, _ |- _ => destruct H as [? H] | H : _ /\ _ |- _ => destruct H as [? H] end;
    first [exact (Hadd _ Hs)|exact (Hres _ _ _ Hs)|exact (Hout _ _ _ Hs)|subst; done].
Qed.

Lemma view_steps_prefix range x l y : view_steps range x l y -> v_values x `prefix_of` v_values y.
Proof. induction 1 as [x|x a y l z Hs _ IH]; [done|]. etransitivity; [exact (view_step_prefix _ _ _ _ Hs)|exact IH]. Qed.

Lemma steps_refine range l w w' : inv w -> steps range w l = Some w' -> inv w' /\ view_steps range (view_of w) l (view_of w').
Proof.
  revert w. induction l as [|a l IH]; intros w Hi E; cbn [steps] in E.
  - injection E as <-. split; [exact Hi|constructor].
  - destruct (step range w a) as [w1|] eqn:Es; [|discriminate].
    destruct (step_refines _ _ _ _ Hi Es) as [Hi1 Hv]. destruct (IH _ Hi1 E) as [Hi' Hl].
    split; [exact Hi'|]. econstructor; eassumption.
Qed.

(** A client that has called nothing. *)
Definition outset : world := mkWorld ∅ ∅ [].

Lemma inv_outset : inv outset.
Proof. split; [done|constructor]. Qed.

(** (C24) A client that keeps every slice it passes to the constructors of keys,
    verifier keys, protected values, prepared acceptances and requests, and
    every slice the accessors return, and that writes to their arrays at any
    time, sees exactly what the models over contents give: each call returns the
    value computed from the contents at that moment, each accessor hands out a
    new array with the contents of the value, and no write changes a value that
    was made before, so that the secret material and the signed bytes cannot be
    altered from outside. *)
Theorem slices_refine_values range l1 l2 w1 w2 :
  steps range outset l1 = Some w1 -> steps range w1 l2 = Some w2 ->
  view_steps range (mkView ∅ []) l1 (view_of w1) /\
  view_steps range (view_of w1) l2 (view_of w2) /\
  v_values (view_of w1) `prefix_of` v_values (view_of w2).
Proof.
  intros E1 E2. destruct (steps_refine _ _ _ _ inv_outset E1) as [Hi1 H1]. destruct (steps_refine _ _ _ _ Hi1 E2) as [_ H2].
  split; [exact H1|]. split; [exact H2|]. exact (view_steps_prefix _ _ _ _ H2).
Qed.

Lemma slices_refine_values_witness : exists w1 w2,
  steps map_to_list outset
    [MakeBytes (repeat x07 32); DoNewKey (lit "k1") (Some (mkWindow 1 0 32));
     DoNewProtected (Some (mkWindow 1 0 4)) (Some (mkWindow 1 4 2))] = Some w1 /\
  steps map_to_list w1 [WriteByte 1 0 x00; DoMaterialCopy 0; DoCiphertext 1; WriteByte 5 0 x00; WriteByte 6 0 x00] = Some w2 /\
  v_values (view_of w1) = [VKey (mkKey (lit "k1") (repeat x07 32)); VProtected (mkProtectedValue (repeat x07 4) (repeat x07 2))] /\
  v_values (view_of w1) `prefix_of` v_values (view_of w2).
Proof.
  do 2 eexists. split; [vm_compute; reflexivity|]. split; [vm_compute; reflexivity|]. split; [vm_compute; reflexivity|].
  refine (proj2 (proj2 (slices_refine_values map_to_list
    [MakeBytes (repeat x07 32); DoNewKey (lit "k1") (Some (mkWindow 1 0 32));
     DoNewProtected (Some (mkWindow 1 0 4)) (Some (mkWindow 1 4 2))]
    [WriteByte 1 0 x00; DoMaterialCopy 0; DoCiphertext 1; WriteByte 5 0 x00; WriteByte 6 0 x00] _ _ _ _)));
    vm_compute; reflexivity.
Defined.
