(* ===== verification/AuthState.v ===== *)
(** The PostgreSQL authentication state: internal/postgres/authentication_state.go.

    [BoundAudience], [Credential], [Principal] and [Reserve] each run one
    statement on one pooled connection. The connection and [ctx.Err()] are
    external calls; a row is one call, [QueryRow] with its [Scan]. The second
    half gives the statements their meaning over the tables and composes the
    repository with the authentication service of Authentication.v. *)

From Stdlib Require Import ZifyBool.
From S2P Require Import Prelude Effects Concurrency GoErrors GoTime Encoding Uuid PgTypes SecurityTypes Authentication.

Definition replayReservationLifetime : Duration := 5 * Minute.

(** * Rows *)

(** [pgtype.Text] and [pgtype.Bool] are options. The row of
    [selectCredentialSQL], in the order of [destinations]. *)
Record credentialRecord : Type := mkCredentialRecord {
  cr_count : Z;
  cr_audienceMatches : bool;
  cr_recordText : bytes;
  cr_publicText : bytes;
  cr_credentialSlotText : bytes;
  cr_credentialAudienceText : bytes;
  cr_credentialPrincipalText : bytes;
  cr_stateText : bytes;
  cr_notBefore : Time;
  cr_expiresAt : Time;
  cr_activatedAt : Timestamptz;
  cr_retirementStartedAt : Timestamptz;
  cr_retirementDeadline : Timestamptz;
  cr_revokedAt : Timestamptz;
  cr_createdAt : Time;
  cr_stateChangedAt : Time;
  cr_slotText : option bytes;
  cr_slotAudienceText : option bytes;
  cr_slotPrincipalText : option bytes;
  cr_slotCreatedAt : Timestamptz;
  cr_principalText : option bytes;
  cr_principalAudienceText : option bytes;
  cr_principalEnabled : option bool;
  cr_principalIntakeAuthorized : option bool;
  cr_principalCreatedAt : Timestamptz;
  cr_principalStateChangedAt : Timestamptz
}.

(** The row of [selectBoundAudienceSQL]. *)
Record audienceRow : Type := mkAudienceRow {
  ar_count : Z; ar_audienceText : bytes; ar_singleton : bool
}.

(** The row of [selectPrincipalSQL]. *)
Record principalRow : Type := mkPrincipalRow {
  pw_count : Z;
  pw_principalText : bytes;
  pw_audienceText : bytes;
  pw_enabled : bool;
  pw_intakeAuthorized : bool;
  pw_createdAt : Time;
  pw_stateChangedAt : Time
}.

(** * External calls *)

(** [acquire], [authenticationStateConnection] with the four statements, and
    [ctx.Err()]. *)
Inductive state_op : Type :=
| StAcquire (ctx : Ctx)
| StSelectAudience (ctx : Ctx)
| StSelectCredential (ctx : Ctx) (audience public : bytes)
| StSelectPrincipal (ctx : Ctx) (audience principal : bytes)
| StInsertReplay (ctx : Ctx) (record nonce : bytes) (now expiresAt : Time)
| StRelease
| StDestroy
| StCtxErr (ctx : Ctx).

(** [StAcquire] answers whether the connection is non-nil, and the error. A
    statement answers [None] when [QueryRow] returns a nil row, else the
    result of [Scan]. *)
Definition StateE : sig := Sig state_op (fun o =>
  match o with
  | StAcquire _ => (bool * option error)%type
  | StSelectAudience _ => option (result audienceRow)
  | StSelectCredential _ _ _ => option (result credentialRecord)
  | StSelectPrincipal _ _ _ => option (result principalRow)
  | StInsertReplay _ _ _ _ _ => option (result bool)
  | StRelease => unit
  | StDestroy => unit
  | StCtxErr _ => option error
  end).

(** [AuthenticationStateRepository]: [acquire_is_nil] when it has no acquire
    function; [None] below is a nil repository. *)
Record StateRepository : Type := mkStateRepository { acquire_is_nil : bool }.

(** The closure of [NewAuthenticationStateRepository]: a connection that comes
    with an error is destroyed, a missing one is an error. [StAcquire] is here
    [pool.Acquire] and [StDestroy] is [destroyPoolConnection]. *)
Definition poolAcquire (ctx : Ctx) : prog StateE (bool * option error) :=
  let! a := @call StateE (StAcquire ctx) in
  match a with
  | (connection, Some e) =>
      if connection then let! _ := @call StateE StDestroy in Ret (false, Some e)
      else Ret (false, Some e)
  | (connection, None) =>
      if connection then Ret (true, None)
      else Ret (false, Some (Sentinel ErrAuthenticationStateUnavailable))
  end.

(** [NewAuthenticationStateRepository]. *)
Definition NewAuthenticationStateRepository (pool_is_nil : bool) : StateRepository :=
  mkStateRepository pool_is_nil.

(** A repository whose acquire function is that closure. *)
Definition via_pool {A} (p : prog StateE A) : prog StateE A :=
  interp (F := StateE) (fun o : op StateE =>
    match o return prog StateE (ans StateE o) with
    | StAcquire ctx => poolAcquire ctx
    | o => @call StateE o
    end) p.

(** * Contexts and errors *)

(** [!nilInterface(ctx) && errors.Is(ctx.Err(), target)]. *)
Definition ctxErrIs (ctx : Ctx) (target : sentinel) : prog StateE bool :=
  if ctx_is_nil ctx then Ret false
  else let! c := @call StateE (StCtxErr ctx) in Ret (opt_errors_is c target).

(** [contextSentinel]. *)
Definition contextSentinel (ctx : Ctx) (e : option error) : prog StateE (option sentinel) :=
  let! canceled := (if opt_errors_is e Canceled then Ret true else ctxErrIs ctx Canceled) in
  if canceled then Ret (Some Canceled)
  else
  let! deadline := (if opt_errors_is e DeadlineExceeded then Ret true
                    else ctxErrIs ctx DeadlineExceeded) in
  if deadline then Ret (Some DeadlineExceeded) else Ret None.

(** [repositoryReadError]. *)
Definition repositoryReadError (ctx : Ctx) (e : error) (operation : string) : prog StateE error :=
  let! cancellation := contextSentinel ctx (Some e) in
  match cancellation with
  | Some c => Ret (safeError c operation)
  | None => Ret (safeError ErrAuthenticationStateUnavailable operation)
  end.

(** [newReplayOutcomeUnknownError]. *)
Definition newReplayOutcomeUnknownError (cancellation : option sentinel) : error :=
  ReplayUnknown
    (match cancellation with
     | Some c => if errors_is c Canceled || errors_is c DeadlineExceeded then Some c else None
     | None => None
     end).

(** [readConnection]: [Ok] is a held connection. *)
Definition readConnection (repository : option StateRepository) (ctx : Ctx) (operation : string)
  : prog StateE (result unit) :=
  match repository with
  | None => Ret (Err (safeError ErrAuthenticationStateUnavailable operation))
  | Some repository =>
  if acquire_is_nil repository || ctx_is_nil ctx
  then Ret (Err (safeError ErrAuthenticationStateUnavailable operation))
  else
  let! cancellation := contextSentinel ctx None in
  match cancellation with
  | Some c => Ret (Err (safeError c operation))
  | None =>
  let! a := @call StateE (StAcquire ctx) in
  match a with
  | (connection, Some e) =>
      let! _ := (if connection then @call StateE StDestroy else Ret tt) in
      let! cancellation := contextSentinel ctx (Some e) in
      match cancellation with
      | Some c => Ret (Err (safeError c operation))
      | None => Ret (Err (safeError ErrAuthenticationStateUnavailable operation))
      end
  | (connection, None) =>
      if connection then Ret (Ok tt)
      else Ret (Err (safeError ErrAuthenticationStateUnavailable operation))
  end end end.

(** The closure [finish]; no path calls it twice. *)
Definition finish (destroy : bool) : prog StateE unit :=
  if destroy then @call StateE StDestroy else @call StateE StRelease.

(** * Reading the bound audience *)

(** The checks after the scan. *)
Definition audienceOfRow (row : audienceRow) : result GatewayAudienceID :=
  if negb (ar_count row =? 1) || negb (ar_singleton row) then Err ErrAudienceUnavailable
  else match ParseGatewayAudienceID (ar_audienceText row) with
       | Err _ => Err ErrAudienceUnavailable
       | Ok audience =>
           if arr_is_zero audience || (formatUUID audience <>?? ar_audienceText row)
           then Err ErrAudienceUnavailable else Ok audience
       end.

(** [AuthenticationStateRepository.BoundAudience]. *)
Definition repo_BoundAudience (repository : option StateRepository) (ctx : Ctx)
  : prog StateE (result GatewayAudienceID) :=
  let! opened := readConnection repository ctx "security realm connection" in
  match opened with
  | Err e => Ret (Err e)
  | Ok _ =>
  let! row := @call StateE (StSelectAudience ctx) in
  match row with
  | None =>
      let! _ := finish true in
      Ret (Err (safeError ErrAuthenticationStateUnavailable "security realm query"))
  | Some (Err e) =>
      let! _ := finish (isConnectionInterruption e) in
      let! e' := repositoryReadError ctx e "security realm query" in
      Ret (Err e')
  | Some (Ok row) =>
      let! _ := finish false in
      Ret (audienceOfRow row)
  end end.

(** * Reading a credential *)

(** [credentialState]. *)
Definition credentialState (value : bytes) : result CredentialState :=
  if value =?? lit "disabled" then Ok CredentialDisabled
  else if value =?? lit "active" then Ok CredentialActive
  else if value =?? lit "retiring" then Ok CredentialRetiring
  else if value =?? lit "revoked" then Ok CredentialRevoked
  else Err ErrAuthenticationStateIntegrity.

Definition is_none {A} (o : option A) : bool := negb (bool_decide (is_Some o)).

(** The first guard of [credentialRecord.credential]. *)
Definition recordIncomplete (record : credentialRecord) : bool :=
  negb (cr_count record =? 1) || negb (cr_audienceMatches record) ||
  is_none (cr_slotText record) || is_none (cr_slotAudienceText record) ||
  is_none (cr_slotPrincipalText record) || negb (finiteTimestamp (cr_slotCreatedAt record)) ||
  is_none (cr_principalText record) || is_none (cr_principalAudienceText record) ||
  is_none (cr_principalEnabled record) || is_none (cr_principalIntakeAuthorized record) ||
  negb (finiteTimestamp (cr_principalCreatedAt record)) ||
  negb (finiteTimestamp (cr_principalStateChangedAt record)).

(** The text of a column known not to be null. *)
Definition text_of (o : option bytes) : bytes := default [] o.

(** [credentialRecord.credential]. *)
Definition record_credential (record : credentialRecord) (expectedAudience : GatewayAudienceID)
    (expectedPublicID : CredentialID) : result Credential :=
  let bad := Sentinel ErrAuthenticationStateIntegrity in
  if recordIncomplete record then Err bad
  else
  check! recordID := ParseCredentialRecordID (cr_recordText record) or bad in
  check! publicID := ParseCredentialID (cr_publicText record) or bad in
  check! credentialSlotID := ParseCredentialSlotID (cr_credentialSlotText record) or bad in
  check! credentialAudience := ParseGatewayAudienceID (cr_credentialAudienceText record) or bad in
  check! credentialPrincipalID := ParseCorePrincipalID (cr_credentialPrincipalText record) or bad in
  check! slotID := ParseCredentialSlotID (text_of (cr_slotText record)) or bad in
  check! slotAudience := ParseGatewayAudienceID (text_of (cr_slotAudienceText record)) or bad in
  check! slotPrincipalID := ParseCorePrincipalID (text_of (cr_slotPrincipalText record)) or bad in
  check! principalID := ParseCorePrincipalID (text_of (cr_principalText record)) or bad in
  check! principalAudience := ParseGatewayAudienceID (text_of (cr_principalAudienceText record)) or bad in
  if (publicID <>?? expectedPublicID) || (credentialAudience <>?? expectedAudience) ||
     (credentialSlotID <>?? slotID) || (credentialPrincipalID <>?? slotPrincipalID) ||
     (credentialPrincipalID <>?? principalID) || (slotAudience <>?? credentialAudience) ||
     (principalAudience <>?? credentialAudience) then Err bad
  else
  check! principal := NewPrincipal principalAudience principalID
      (default false (cr_principalEnabled record))
      (default false (cr_principalIntakeAuthorized record))
      (tz_time (cr_principalCreatedAt record)) (tz_time (cr_principalStateChangedAt record)) or bad in
  check! slot := NewCredentialSlot slotAudience principal slotID (tz_time (cr_slotCreatedAt record)) or bad in
  check! state := credentialState (cr_stateText record) or bad in
  check! activatedAt := optionalFiniteTime (cr_activatedAt record) or bad in
  check! retirementStartedAt := optionalFiniteTime (cr_retirementStartedAt record) or bad in
  check! retirementDeadline := optionalFiniteTime (cr_retirementDeadline record) or bad in
  check! revokedAt := optionalFiniteTime (cr_revokedAt record) or bad in
  NewCredential (mkCredentialSpec credentialAudience principal slot recordID publicID state
    (cr_notBefore record) (cr_expiresAt record) activatedAt retirementStartedAt retirementDeadline
    revokedAt (cr_createdAt record) (cr_stateChangedAt record)).

(** [AuthenticationStateRepository.Credential]. The context is examined after
    the scan even when the scan succeeded. *)
Definition repo_Credential (repository : option StateRepository) (ctx : Ctx)
    (expectedAudience : GatewayAudienceID) (expectedPublicID : CredentialID)
  : prog StateE (result Credential) :=
  if arr_is_zero expectedAudience || arr_is_zero expectedPublicID ||
     match ParseCredentialID (formatUUID expectedPublicID) with
     | Ok parsedPublicID => parsedPublicID <>?? expectedPublicID
     | Err _ => true
     end
  then Ret (Err (safeError ErrAuthenticationStateIntegrity "authentication credential input"))
  else
  let! opened := readConnection repository ctx "authentication credential connection" in
  match opened with
  | Err e => Ret (Err e)
  | Ok _ =>
  let! row := @call StateE (StSelectCredential ctx (formatUUID expectedAudience) (formatUUID expectedPublicID)) in
  match row with
  | None =>
      let! _ := finish true in
      Ret (Err (safeError ErrAuthenticationStateUnavailable "authentication credential query"))
  | Some scanned =>
  let! cancellation := contextSentinel ctx (err_of scanned) in
  match cancellation with
  | Some c =>
      let! _ := finish (opt_interruption (err_of scanned)) in
      Ret (Err (safeError c "authentication credential query"))
  | None =>
  match scanned with
  | Err e =>
      if is_sentinel e ErrNoRows then
        let! _ := finish false in Ret (Err ErrCredentialNotFound)
      else
        let! _ := finish (isConnectionInterruption e) in
        let! e' := repositoryReadError ctx e "authentication credential query" in
        Ret (Err e')
  | Ok record =>
      let! _ := finish false in
      match record_credential record expectedAudience expectedPublicID with
      | Err _ => Ret (Err (safeError ErrAuthenticationStateIntegrity "authentication credential record"))
      | Ok credential => Ret (Ok credential)
      end
  end end end end.

(** * Reading a principal *)

(** The checks after the scan. *)
Definition principalOfRow (row : principalRow) (expectedAudience : GatewayAudienceID)
    (expectedPrincipalID : CorePrincipalID) : result Principal :=
  let bad := safeError ErrAuthenticationStateIntegrity "core principal record" in
  match ParseCorePrincipalID (pw_principalText row), ParseGatewayAudienceID (pw_audienceText row) with
  | Ok principalID, Ok audience =>
      if negb (pw_count row =? 1) || (principalID <>?? expectedPrincipalID) ||
         (audience <>?? expectedAudience) then Err bad
      else
        check! principal := NewPrincipal audience principalID (pw_enabled row) (pw_intakeAuthorized row)
            (pw_createdAt row) (pw_stateChangedAt row) or bad in
        Ok principal
  | _, _ => Err bad
  end.

(** [AuthenticationStateRepository.Principal]. *)
Definition repo_Principal (repository : option StateRepository) (ctx : Ctx)
    (expectedAudience : GatewayAudienceID) (expectedPrincipalID : CorePrincipalID)
  : prog StateE (result Principal) :=
  if arr_is_zero expectedAudience || arr_is_zero expectedPrincipalID
  then Ret (Err (safeError ErrAuthenticationStateIntegrity "core principal input"))
  else
  let! opened := readConnection repository ctx "core principal connection" in
  match opened with
  | Err e => Ret (Err e)
  | Ok _ =>
  let! row := @call StateE (StSelectPrincipal ctx (formatUUID expectedAudience) (formatUUID expectedPrincipalID)) in
  match row with
  | None =>
      let! _ := finish true in
      Ret (Err (safeError ErrAuthenticationStateUnavailable "core principal query"))
  | Some (Err e) =>
      let! cancellation := contextSentinel ctx (Some e) in
      match cancellation with
      | Some c =>
          let! _ := finish (isConnectionInterruption e) in
          Ret (Err (safeError c "core principal query"))
      | None =>
          let! _ := finish (isConnectionInterruption e) in
          if is_sentinel e ErrNoRows
          then Ret (Err (safeError ErrAuthenticationStateIntegrity "core principal record"))
          else let! e' := repositoryReadError ctx e "core principal query" in Ret (Err e')
      end
  | Some (Ok row) =>
      let! _ := finish false in
      Ret (principalOfRow row expectedAudience expectedPrincipalID)
  end end.

(** * Reserving a nonce *)

(** What follows the scan of the insert: lines 343 to 361. *)
Definition reserveOutcome (ctx : Ctx) (scanned : result bool) : prog StateE (result Z) :=
  match scanned with
  | Ok true => let! _ := @call StateE StRelease in Ret (Ok ReplayReserved)
  | _ =>
  let e := err_of scanned in
  let! interrupted :=
    (if opt_interruption e then Ret true
     else let! c := contextSentinel ctx e in Ret (bool_decide (is_Some c))) in
  if interrupted then
    let! _ := @call StateE StDestroy in
    let! c := contextSentinel ctx e in
    Ret (Err (newReplayOutcomeUnknownError c))
  else
  match e with
  | Some e =>
      if is_sentinel e ErrNoRows then let! _ := @call StateE StRelease in Ret (Ok ReplayDuplicate)
      else if singleCausePostgresError e then
        let! _ := @call StateE StRelease in Ret (Err ErrReplayUnavailable)
      else
        let! _ := @call StateE StDestroy in Ret (Err (newReplayOutcomeUnknownError None))
  | None =>
      let! _ := @call StateE StDestroy in Ret (Err (newReplayOutcomeUnknownError None))
  end end.

(** [AuthenticationStateRepository.Reserve]. *)
Definition repo_Reserve (repository : option StateRepository) (ctx : Ctx)
    (recordID : CredentialRecordID) (nonce : ReplayNonce) (now : Time) : prog StateE (result Z) :=
  match repository with
  | None => Ret (Err ErrReplayUnavailable)
  | Some repository =>
  if acquire_is_nil repository || ctx_is_nil ctx || arr_is_zero recordID || t_is_zero now
  then Ret (Err ErrReplayUnavailable)
  else
  let! cancellation := contextSentinel ctx None in
  match cancellation with
  | Some c => Ret (Err (safeError c "replay reservation canceled"))
  | None =>
  let expiresAt := t_add now replayReservationLifetime in
  if negb (t_after expiresAt now) then Ret (Err ErrReplayUnavailable)
  else
  let! a := @call StateE (StAcquire ctx) in
  match a with
  | (connection, Some e) =>
      let! _ := (if connection then @call StateE StDestroy else Ret tt) in
      let! cancellation := contextSentinel ctx (Some e) in
      match cancellation with
      | Some c => Ret (Err (safeError c "replay reservation connection"))
      | None => Ret (Err ErrReplayUnavailable)
      end
  | (connection, None) =>
  if negb connection then Ret (Err ErrReplayUnavailable)
  else
  let! row := @call StateE (StInsertReplay ctx (formatUUID recordID) (arr_list nonce) now expiresAt) in
  match row with
  | None =>
      let! _ := @call StateE StDestroy in Ret (Err (newReplayOutcomeUnknownError None))
  | Some scanned => reserveOutcome ctx scanned
  end end end end.

(** * Connection discipline *)

(** The life of the connection of one call: not acquired, fresh, used by the
    statement, not to be reused, given back (or never obtained). *)
Inductive held : Type := NotHeld | Fresh | Used | Broken | Given.

(** A statement that returned a nil row or an interruption breaks the
    connection. *)
Definition after_scan {R} (scanned : option (result R)) : held :=
  match scanned with
  | None => Broken
  | Some (Err e) => if isConnectionInterruption e then Broken else Used
  | Some (Ok _) => Used
  end.

(** The protocol: one acquisition, one statement, one way back. *)
Definition held_step (q : held) (e : event StateE) : option held :=
  match q, e with
  | q, existT (StCtxErr _) _ => Some q
  | NotHeld, existT (StAcquire _) (connection, e) =>
      Some (if connection then (if is_err e then Broken else Fresh) else Given)
  | Fresh, existT (StSelectAudience _) r => Some (after_scan r)
  | Fresh, existT (StSelectCredential _ _ _) r => Some (after_scan r)
  | Fresh, existT (StSelectPrincipal _ _ _) r => Some (after_scan r)
  | Fresh, existT (StInsertReplay _ _ _ _ _) r => Some (after_scan r)
  | Used, existT StRelease _ => Some Given
  | Used, existT StDestroy _ => Some Given
  | Broken, existT StDestroy _ => Some Given
  | _, _ => None
  end.

Definition over (q : held) : Prop := q = NotHeld \/ q = Given.

Abbreviation hkeeps := (keeps (E := StateE) held_step).

Lemma keeps_ctxErrIs q ctx t : hkeeps q (ctxErrIs ctx t) (fun _ q' => q' = q).
Proof. unfold ctxErrIs. case_match; [done|]. intros c. exists q. split; [by destruct q|done]. Qed.

(** Looking at the context leaves the connection alone. *)
Lemma keeps_contextSentinel {A} q ctx e (f : option sentinel -> prog StateE A) post :
  (forall c, hkeeps q (f c) post) -> hkeeps q (bind (contextSentinel ctx e) f) post.
Proof.
  intros H. apply (keeps_bind _ q _ f (fun _ q' => q' = q)); [|by intros c q' ->].
  assert (forall (b : bool) t (k : bool -> prog StateE (option sentinel)),
    (forall c, hkeeps q (k c) (fun _ q' => q' = q)) ->
    hkeeps q (bind (if b then Ret true else ctxErrIs ctx t) k) (fun _ q' => q' = q)) as Hif.
  { intros b t k Hk. apply keeps_bind with (fun _ q' => q' = q); [|by intros c q' ->].
    destruct b; [done|apply keeps_ctxErrIs]. }
  apply Hif. intros []; [done|]. apply Hif. by intros [].
Qed.

Lemma keeps_readError {A} q ctx e o (f : error -> prog StateE A) post :
  (forall e, hkeeps q (f e) post) -> hkeeps q (bind (repositoryReadError ctx e o) f) post.
Proof.
  intros H. apply (keeps_bind _ q _ f (fun _ q' => q' = q)); [|by intros c q' ->].
  unfold repositoryReadError. apply keeps_contextSentinel. by intros [].
Qed.

(** After the failure of an acquisition. *)
Lemma keeps_drop {A} (connection : bool) (p : prog StateE A) post :
  hkeeps Given p post ->
  hkeeps (if connection then Broken else Given)
    (bind (if connection then @call StateE StDestroy else Ret tt) (fun _ => p)) post.
Proof. intros H. destruct connection; [|done]. intros u. by exists Given. Qed.

Lemma keeps_readConnection {A} repository ctx o (f : result unit -> prog StateE A) :
  hkeeps Fresh (f (Ok tt)) (fun _ => over) ->
  (forall q e, over q -> hkeeps q (f (Err e)) (fun _ => over)) ->
  hkeeps NotHeld (bind (readConnection repository ctx o) f) (fun _ => over).
Proof.
  intros Hok Herr.
  apply keeps_bind with (fun r q => match r with Ok _ => q = Fresh | Err _ => over q end).
  2:{ intros [[]|e] q' H; [by subst|auto]. }
  unfold readConnection, over. destruct repository as [r|]; [|by left].
  destruct (_ || _); [by left|]. apply keeps_contextSentinel. intros [c|]; [by left|].
  apply (keeps_call held_step NotHeld (StAcquire ctx)). intros [connection [e|]].
  - exists (if connection then Broken else Given). split; [by destruct connection|].
    apply keeps_drop, keeps_contextSentinel. intros []; by right.
  - exists (if connection then Fresh else Given). split; [by destruct connection|].
    destruct connection; [done|by right].
Qed.

(** [finish] gives back a used connection, and destroys a broken one. *)
Lemma keeps_finish {A R} (scanned : option (result R)) destroy (p : prog StateE A) post :
  (after_scan scanned = Broken -> destroy = true) -> hkeeps Given p post ->
  hkeeps (after_scan scanned) (bind (finish destroy) (fun _ => p)) post.
Proof.
  intros Hd H. assert (after_scan scanned = Used \/ after_scan scanned = Broken) as [E|E].
  { destruct scanned as [[|e]|]; simpl; auto. destruct (isConnectionInterruption e); auto. }
  - rewrite E. destruct destroy; intros u; by exists Given.
  - rewrite E, Hd by done. intros u. by exists Given.
Qed.

(** Scans whose result is known. *)
Lemma keeps_finish_err {A R} e (p : prog StateE A) post :
  hkeeps Given p post ->
  hkeeps (after_scan (Some (Err e : result R))) (bind (finish (isConnectionInterruption e)) (fun _ => p)) post.
Proof. intros H. apply keeps_finish; [|done]. simpl. by destruct (isConnectionInterruption e). Qed.

Ltac given := first [by right | by left | done].

Lemma BoundAudience_keeps repository ctx :
  hkeeps NotHeld (repo_BoundAudience repository ctx) (fun _ => over).
Proof.
  apply keeps_readConnection; [|by intros q e Hq].
  apply (keeps_call held_step Fresh (StSelectAudience ctx)). intros scanned.
  exists (after_scan scanned). split; [done|]. destruct scanned as [[row|e]|].
  - apply keeps_finish; given.
  - apply keeps_finish_err, keeps_readError. given.
  - apply keeps_finish; given.
Qed.

Lemma Credential_keeps repository ctx audience public :
  hkeeps NotHeld (repo_Credential repository ctx audience public) (fun _ => over).
Proof.
  unfold repo_Credential. destruct (_ || _); [by left|].
  apply keeps_readConnection; [|by intros q e Hq].
  apply (keeps_call held_step Fresh (StSelectCredential _ _ _)). intros scanned.
  exists (after_scan scanned). split; [done|].
  destruct scanned as [scanned|]; [|apply keeps_finish; given].
  apply keeps_contextSentinel. intros [c|].
  { apply keeps_finish; [|given]. destruct scanned as [|e]; simpl; [done|].
    by destruct (isConnectionInterruption e). }
  destruct scanned as [record|e].
  - apply keeps_finish; [done|]. destruct (record_credential _ _ _); given.
  - destruct (is_sentinel e ErrNoRows) eqn:E.
    + apply is_sentinel_true in E as ->. apply keeps_finish; given.
    + apply keeps_finish_err, keeps_readError. given.
Qed.

Lemma Principal_keeps repository ctx audience principal :
  hkeeps NotHeld (repo_Principal repository ctx audience principal) (fun _ => over).
Proof.
  unfold repo_Principal. destruct (_ || _); [by left|].
  apply keeps_readConnection; [|by intros q e Hq].
  apply (keeps_call held_step Fresh (StSelectPrincipal _ _ _)). intros scanned.
  exists (after_scan scanned). split; [done|].
  destruct scanned as [[row|e]|]; [apply keeps_finish; given| |apply keeps_finish; given].
  apply keeps_contextSentinel. intros [c|]; apply keeps_finish_err; [given|].
  destruct (is_sentinel e ErrNoRows); [given|]. apply keeps_readError. given.
Qed.

Lemma reserveOutcome_keeps ctx scanned :
  hkeeps (after_scan (Some scanned)) (reserveOutcome ctx scanned) (fun _ => over).
Proof.
  assert (forall {A} q (p : prog StateE A), q = Used \/ q = Broken -> hkeeps Given p (fun _ => over) ->
    hkeeps q (bind (@call StateE StDestroy) (fun _ => p)) (fun _ => over)) as Hdestroy.
  { intros A q p [-> | ->] H u; by exists Given. }
  assert (forall {A} (p : prog StateE A), hkeeps Given p (fun _ => over) ->
    hkeeps Used (bind (@call StateE StRelease) (fun _ => p)) (fun _ => over)) as Hrelease.
  { intros A p H u; by exists Given. }
  assert (forall e q (f : bool -> prog StateE (result Z)),
    (opt_interruption e = false -> q = Used) -> q = Used \/ q = Broken ->
    hkeeps q (f true) (fun _ => over) -> (q = Used -> hkeeps q (f false) (fun _ => over)) ->
    hkeeps q (bind (if opt_interruption e then Ret true
       else let! c := contextSentinel ctx e in Ret (bool_decide (is_Some c))) f) (fun _ => over)) as Hint.
  { intros e q f Hu Hq Ht Hf. apply keeps_bind with (fun b q' => q' = q /\ (b = false -> q = Used)).
    - destruct (opt_interruption e); [done|]. apply keeps_contextSentinel. intros c. by split; auto.
    - intros [] q' [-> H]; auto. }
  assert (forall q e, q = Used \/ q = Broken ->
    hkeeps q (let! _ := @call StateE StDestroy in let! c := contextSentinel ctx e in
      Ret (Err (newReplayOutcomeUnknownError c) : result Z)) (fun _ => over)) as Hunknown.
  { intros q e Hq. apply Hdestroy; [done|]. apply keeps_contextSentinel. given. }
  destruct scanned as [[]|e]; unfold reserveOutcome; cbn [err_of after_scan].
  - apply Hrelease. given.
  - apply Hint; [done|by left|by apply Hunknown; left|]. intros _. apply Hdestroy; [by left|given].
  - apply Hint; simpl; [by intros ->|destruct (isConnectionInterruption e); auto| |].
    + apply Hunknown. destruct (isConnectionInterruption e); auto.
    + intros ->. destruct (is_sentinel _ _); [apply Hrelease; given|].
      destruct (singleCausePostgresError e); [apply Hrelease; given|apply Hdestroy; [by left|given]].
Qed.

Lemma Reserve_keeps repository ctx record nonce now :
  hkeeps NotHeld (repo_Reserve repository ctx record nonce now) (fun _ => over).
Proof.
  unfold repo_Reserve. destruct repository as [r|]; [|by left]. destruct (_ || _); [by left|].
  apply keeps_contextSentinel. intros [c|]; [by left|]. destruct (negb _); [by left|].
  apply (keeps_call held_step NotHeld (StAcquire ctx)). intros [connection [e|]].
  - exists (if connection then Broken else Given). split; [by destruct connection|].
    apply keeps_drop, keeps_contextSentinel. intros []; by right.
  - exists (if connection then Fresh else Given). split; [by destruct connection|].
    destruct connection; [|by right].
    apply (keeps_call held_step Fresh (StInsertReplay _ _ _ _ _)). intros scanned.
    exists (after_scan scanned). split; [done|].
    destruct scanned as [scanned|]; [apply reserveOutcome_keeps|].
    intros u. exists Given. split; [done|by right].
Qed.

(** The pool closure keeps to the protocol of the call it stands for. *)
Lemma keeps_via_pool {A} q (p : prog StateE A) post : hkeeps q p post -> hkeeps q (via_pool p) post.
Proof.
  revert q. induction p as [a|o k IH]; intros q H; [done|].
  destruct o; try (intros r; destruct (H r) as (q' & Hs & Hk); exists q'; split; [done|by apply IH]).
  assert (q = NotHeld) as ->.
  { destruct (H (false, @None error)) as (q' & Hs & _). by destruct q. }
  intros [connection e]. exists (if connection then (if is_err e then Broken else Fresh) else Given).
  split; [done|].
  assert (forall (b : bool) (e : option error), hkeeps (if b then if is_err e then Broken else Fresh else Given)
    (via_pool (k (b, e))) post) as Hk.
  { intros b e'. destruct (H (b, e')) as (q' & Hs & Hk). apply IH. simpl in Hs. by injection Hs as <-. }
  destruct e as [e|], connection; cbn.
  - intros u. exists Given. split; [done|]. exact (Hk false (Some e)).
  - exact (Hk false (Some e)).
  - exact (Hk true None).
  - exact (Hk false (Some (Sentinel ErrAuthenticationStateUnavailable))).
Qed.

(** Every execution, over an arbitrary acquire function and over the pool. *)
Definition gives_back {A} (p : prog StateE A) : Prop :=
  forall tr a, runs p tr a \/ runs (via_pool p) tr a ->
  exists q, proto_run held_step NotHeld tr = Some q /\ (q = NotHeld \/ q = Given).

Lemma keeps_gives_back {A} (p : prog StateE A) : hkeeps NotHeld p (fun _ => over) -> gives_back p.
Proof.
  intros H tr a [Hr|Hr]; [exact (keeps_runs _ _ _ _ _ _ H Hr)|].
  exact (keeps_runs _ _ _ _ _ _ (keeps_via_pool _ _ _ H) Hr).
Qed.

(** The connection protocol of the four operations, whatever the pool and
    the server answer and whatever the context does: at most one connection
    is acquired and at most one statement runs on it; a connection obtained,
    even together with an error, is given back exactly once and not used
    afterwards; and one whose statement was interrupted or returned no row
    object is destroyed, never released to the pool. *)
Theorem state_connections repository ctx audience public principal record nonce now :
  gives_back (repo_BoundAudience repository ctx) /\
  gives_back (repo_Credential repository ctx audience public) /\
  gives_back (repo_Principal repository ctx audience principal) /\
  gives_back (repo_Reserve repository ctx record nonce now).
Proof.
  split_and!; apply keeps_gives_back;
    [apply BoundAudience_keeps|apply Credential_keeps|apply Principal_keeps|apply Reserve_keeps].
Qed.

(** * Rows and values *)

(** The row the statement returns for a stored credential. *)
Definition state_text (state : CredentialState) : bytes :=
  if state =? CredentialDisabled then lit "disabled"
  else if state =? CredentialActive then lit "active"
  else if state =? CredentialRetiring then lit "retiring"
  else lit "revoked".

Definition row_of_credential (c : Credential) : credentialRecord :=
  let p := cs_Principal c in
  let s := cs_Slot c in
  mkCredentialRecord 1 true (formatUUID (cs_RecordID c)) (formatUUID (cs_PublicID c))
    (formatUUID (sl_id s)) (formatUUID (cs_AudienceID c)) (formatUUID (p_id p))
    (state_text (cs_State c)) (cs_NotBefore c) (cs_ExpiresAt c)
    (tz_of (cs_ActivatedAt c)) (tz_of (cs_RetirementStartedAt c)) (tz_of (cs_RetirementDeadline c))
    (tz_of (cs_RevokedAt c)) (cs_CreatedAt c) (cs_StateChangedAt c)
    (Some (formatUUID (sl_id s))) (Some (formatUUID (sl_audienceID s)))
    (Some (formatUUID (sl_principalID s))) (TzTime (sl_createdAt s))
    (Some (formatUUID (p_id p))) (Some (formatUUID (p_audienceID p)))
    (Some (p_enabled p)) (Some (p_intakeAuthorized p))
    (TzTime (p_createdAt p)) (TzTime (p_stateChangedAt p)).

(** A credential that is valid with its principal and slot. *)
Record stored_ok (c : Credential) : Prop := {
  so_credential : credential_ok c;
  so_public : is_v4 (cs_PublicID c) = true;
  so_principal : p_id (cs_Principal c) <> zero_arr 16;
  so_principal_times : p_createdAt (cs_Principal c) <> 0 /\ p_stateChangedAt (cs_Principal c) <> 0 /\
    p_createdAt (cs_Principal c) <= p_stateChangedAt (cs_Principal c);
  so_slot_time : sl_createdAt (cs_Slot c) <> 0
}.

Lemma NewPrincipal_ok aud id en auth created changed p :
  NewPrincipal aud id en auth created changed = Ok p <->
  p = mkPrincipal aud id en auth created changed /\
  aud <> zero_arr 16 /\ id <> zero_arr 16 /\ created <> 0 /\ created <= changed.
Proof.
  unfold NewPrincipal. rewrite if_err_ok by done. rewrite !orb_false_iff, !arr_is_zero_false.
  unfold_time. rewrite Z.eqb_neq, Z.ltb_ge. tauto.
Qed.

Lemma NewCredentialSlot_ok aud p id created s :
  NewCredentialSlot aud p id created = Ok s <->
  s = mkSlot aud (p_id p) id created /\ aud <> zero_arr 16 /\ p_audienceID p = aud /\
  p_id p <> zero_arr 16 /\ id <> zero_arr 16 /\ created <> 0.
Proof.
  unfold NewCredentialSlot. rewrite if_err_ok by (by case_match).
  rewrite !orb_false_iff, negb_false_iff, !arr_is_zero_false, bool_decide_eq_true.
  unfold_time. rewrite Z.eqb_neq. tauto.
Qed.

Lemma credentialState_ok text s :
  credentialState text = Ok s <->
  text = state_text s /\ (s = CredentialDisabled \/ s = CredentialActive \/ s = CredentialRetiring \/ s = CredentialRevoked).
Proof.
  unfold credentialState. split.
  - intros H. repeat case_match; simplify_eq; bool_hyps; subst; split; auto.
  - by intros [-> [-> | [-> | [-> | ->]]]].
Qed.

Lemma is_none_false {A} (o : option A) : is_none o = false <-> is_Some o.
Proof. unfold is_none. by rewrite negb_false_iff, bool_decide_eq_true. Qed.

Lemma recordIncomplete_false r :
  recordIncomplete r = false <->
  cr_count r = 1 /\ cr_audienceMatches r = true /\
  is_Some (cr_slotText r) /\ is_Some (cr_slotAudienceText r) /\ is_Some (cr_slotPrincipalText r) /\
  finiteTimestamp (cr_slotCreatedAt r) = true /\
  is_Some (cr_principalText r) /\ is_Some (cr_principalAudienceText r) /\
  is_Some (cr_principalEnabled r) /\ is_Some (cr_principalIntakeAuthorized r) /\
  finiteTimestamp (cr_principalCreatedAt r) = true /\ finiteTimestamp (cr_principalStateChangedAt r) = true.
Proof.
  unfold recordIncomplete. rewrite !orb_false_iff, !is_none_false, !negb_false_iff, Z.eqb_eq. tauto.
Qed.

Lemma record_credential_inv r aud id c :
  record_credential r aud id = Ok c ->
  r = row_of_credential c /\ stored_ok c /\ cs_AudienceID c = aud /\ cs_PublicID c = id.
Proof.
  unfold record_credential. cbv zeta. intros H.
  destruct (recordIncomplete r) eqn:G; [done|]. apply recordIncomplete_false in G.
  repeat (apply check_ok in H; destruct H as (? & ? & H)).
  match type of H with (if ?b then _ else _) = _ => destruct b eqn:Gids; [done|] end.
  repeat (apply check_ok in H; destruct H as (? & ? & H)).
  rewrite !orb_false_iff, !negb_false_iff, !bool_decide_eq_true in Gids.
  destruct Gids as [[[[[[-> ->] <-] <-] <-] ->] ->].
  unfold ParseCredentialRecordID, ParseCredentialID, ParseCredentialSlotID, ParseGatewayAudienceID,
    ParseCorePrincipalID in *.
  repeat match goal with
  | H : state_parseUUID _ _ = Ok _ |- _ => apply state_parse_iff in H as (? & ? & ?)
  | H : optionalFiniteTime _ = Ok _ |- _ => apply optionalFiniteTime_ok in H
  | H : NewPrincipal _ _ _ _ _ _ = Ok _ |- _ => apply NewPrincipal_ok in H as (-> & ? & ? & ? & ?)
  | H : NewCredentialSlot _ _ _ _ = Ok _ |- _ => apply NewCredentialSlot_ok in H as (-> & ? & ? & ? & ? & ?)
  | H : credentialState _ = Ok _ |- _ => apply credentialState_ok in H as [? ?]
  | H : NewCredential _ = Ok _ |- _ => apply NewCredential_ok in H as [-> ?]
  end.
  destruct r; simpl in *. repeat (setoid_rewrite finiteTimestamp_true in G).
  destruct G as (-> & -> & [? ->] & [? ->] & [? ->] & [-> ?] & [? ->] & [? ->] & [? ->] & [? ->] & [-> ?] & [-> ?]).
  simpl in *. subst. split; [done|]. split; [|done]. split; simpl; auto.
Qed.

Lemma record_credential_row c :
  stored_ok c -> record_credential (row_of_credential c) (cs_AudienceID c) (cs_PublicID c) = Ok c.
Proof.
  intros [Hc Hv Hp (Hpc & Hpm & Hpo) Hs]. pose proof Hc as [Ha Hpa [Hsa Hsp] (Hr & Hi & Hsl) _ _ Hst].
  unfold record_credential. cbv zeta.
  assert (recordIncomplete (row_of_credential c) = false) as ->.
  { apply recordIncomplete_false. simpl. rewrite !negb_true_iff. unfold_time. rewrite !Z.eqb_neq.
    by split_and!. }
  repeat (apply check_ok; eexists; split; [apply state_parse_iff; split_and!; simpl; congruence || done|]).
  rewrite Hsa, Hsp, Hpa, !bool_decide_eq_true_2 by done. cbn [negb orb].
  apply check_ok. exists (cs_Principal c). split.
  { apply NewPrincipal_ok. split_and!; [|done..]. rewrite <- Hpa. simpl. by destruct (cs_Principal c). }
  apply check_ok. exists (cs_Slot c). split.
  { apply NewCredentialSlot_ok. split_and!; [|done..]. rewrite <- Hsa, <- Hsp. simpl. by destruct (cs_Slot c). }
  apply check_ok. exists (cs_State c). split; [apply credentialState_ok; split; [done|]; tauto|].
  repeat (apply check_ok; eexists; split; [by apply optionalFiniteTime_ok|]).
  apply NewCredential_ok. by destruct c.
Qed.

Lemma record_credential_iff r aud id c :
  record_credential r aud id = Ok c <->
  r = row_of_credential c /\ stored_ok c /\ cs_AudienceID c = aud /\ cs_PublicID c = id.
Proof.
  split; [apply record_credential_inv|]. intros (-> & Hok & <- & <-). by apply record_credential_row.
Qed.

(** Reading a credential is the inverse of storing it: the columns a
    query returns are accepted exactly when they are the columns of a valid
    credential (its texts canonical, its lifecycle history valid, its
    principal and slot of the same audience and owner) for the expected
    audience and public id, and then that credential is returned. Two
    different rows never denote the same credential. *)
Theorem credential_row_roundtrip r aud id c :
  record_credential r aud id = Ok c <->
  r = row_of_credential c /\ stored_ok c /\ cs_AudienceID c = aud /\ cs_PublicID c = id.
Proof. apply record_credential_iff. Qed.

(** * Outcomes of the reads *)

Definition read_kinds : list sentinel :=
  [Canceled; DeadlineExceeded; ErrAuthenticationStateUnavailable; ErrAuthenticationStateIntegrity].

(** A fixed error of the repository: no text of the driver is kept. *)
Definition read_error (e : error) : Prop :=
  exists k (o : string), e = safeError k o /\ k ∈ read_kinds.

Lemma contextSentinel_result ctx e tr c :
  runs (contextSentinel ctx e) tr c -> c = None \/ c = Some Canceled \/ c = Some DeadlineExceeded.
Proof.
  unfold contextSentinel. intros H. apply runs_bind in H as (t1 & t2 & [] & -> & _ & H).
  - destruct H as [_ ->]. auto.
  - apply runs_bind in H as (t3 & t4 & [] & -> & _ & H); destruct H as [_ ->]; auto.
Qed.

(** An error of the connection or of the context. *)
Definition transport_kinds : list sentinel := [Canceled; DeadlineExceeded; ErrAuthenticationStateUnavailable].

Definition transport_error (e : error) : Prop :=
  exists k (o : string), e = safeError k o /\ k ∈ transport_kinds.

Lemma safeError_transport k o : k ∈ transport_kinds -> transport_error (safeError k o).
Proof. by exists k, o. Qed.

Lemma transport_read e : transport_error e -> read_error e.
Proof.
  intros (k & o & -> & Hk). exists k, o. split; [done|]. unfold transport_kinds, read_kinds in *.
  rewrite !elem_of_cons in *. tauto.
Qed.

Lemma contextSentinel_kind ctx e tr k : runs (contextSentinel ctx e) tr (Some k) -> k ∈ transport_kinds.
Proof.
  intros H. apply contextSentinel_result in H as [?|[?|?]]; simplify_eq; in_list.
Qed.

Lemma repositoryReadError_result ctx e o tr e' : runs (repositoryReadError ctx e o) tr e' -> transport_error e'.
Proof.
  unfold repositoryReadError. intros H. apply runs_bind in H as (t1 & t2 & [k|] & -> & Hc & H);
    destruct H as [_ ->]; eexists _, _; (split; [done|]); [by eapply contextSentinel_kind|in_list].
Qed.

Lemma safeError_read k o : k ∈ read_kinds -> read_error (safeError k o).
Proof. by exists k, o. Qed.

Lemma readConnection_result repository ctx o tr r :
  runs (readConnection repository ctx o) tr r -> r = Ok tt \/ exists e, r = Err e /\ transport_error e.
Proof.
  assert (forall k, k ∈ transport_kinds -> exists e, @Err unit (safeError k o) = Err e /\ transport_error e) as He.
  { intros k Hk. eexists. split; [done|]. by apply safeError_transport. }
  unfold readConnection. intros H. destruct repository as [rp|]; [|destruct H as [_ ->]; right; apply He; in_list].
  destruct (_ || _); [destruct H as [_ ->]; right; apply He; in_list|].
  apply runs_bind in H as (t1 & t2 & [k|] & -> & Hc & H).
  { destruct H as [_ ->]. right. apply He. by eapply contextSentinel_kind. }
  destruct H as (acquired & t3 & -> & H). cbn [bind] in H. destruct acquired as [connection [e|]].
  - apply runs_bind in H as (t4 & t5 & [] & -> & _ & H).
    apply runs_bind in H as (t6 & t7 & [k|] & -> & Hk & H); destruct H as [_ ->]; right; apply He;
      [by eapply contextSentinel_kind|in_list].
  - destruct connection; destruct H as [_ ->]; [by left|]. right. apply He. in_list.
Qed.

(** The result of a statement on a connection [readConnection] obtained. *)
Lemma runs_read {A} repository ctx o (q : op StateE) (f : ans StateE q -> prog StateE (result A)) tr r :
  runs (let! opened := readConnection repository ctx o in
        match opened with Err e => Ret (Err e) | Ok _ => bind (@call StateE q) f end) tr r ->
  (exists e, r = Err e /\ transport_error e) \/
  exists x t1 t2, tr = t1 ++ @ev StateE q x :: t2 /\ runs (f x) t2 r.
Proof.
  intros H. apply runs_bind in H as (t1 & t2 & opened & -> & Ho & H).
  apply readConnection_result in Ho as [-> | (e & -> & He)].
  - right. destruct H as (x & t3 & -> & H). eauto.
  - left. destruct H as [_ ->]. eauto.
Qed.

(** What the bound audience is read from. *)
Definition audience_row (a : GatewayAudienceID) : audienceRow := mkAudienceRow 1 (formatUUID a) true.

Lemma audienceOfRow_ok row a : audienceOfRow row = Ok a <-> row = audience_row a /\ a <> zero_arr 16.
Proof.
  unfold audienceOfRow, ParseGatewayAudienceID. destruct row as [n text singleton]. simpl. split.
  - destruct (_ || _) eqn:G; [done|]. rewrite orb_false_iff, !negb_false_iff, Z.eqb_eq in G.
    destruct G as [-> ->]. destruct (state_parseUUID text false) as [v|] eqn:E; [|done].
    apply state_parse_iff in E as (-> & Hz & _). destruct (_ || _); [done|]. by intros [= ->].
  - intros [[= -> -> ->] Hz]. simpl. rewrite state_parse_format; [|by apply arr_is_zero_false|done].
    apply arr_is_zero_false in Hz. rewrite Hz. by rewrite bool_decide_eq_true_2.
Qed.

(** What a principal is read from. *)
Definition principal_row (p : Principal) : principalRow :=
  mkPrincipalRow 1 (formatUUID (p_id p)) (formatUUID (p_audienceID p)) (p_enabled p) (p_intakeAuthorized p)
    (p_createdAt p) (p_stateChangedAt p).

Definition principal_ok (p : Principal) : Prop :=
  p_audienceID p <> zero_arr 16 /\ p_id p <> zero_arr 16 /\ p_createdAt p <> 0 /\
  p_createdAt p <= p_stateChangedAt p.

Lemma principalOfRow_ok row aud id p :
  principalOfRow row aud id = Ok p <->
  row = principal_row p /\ principal_ok p /\ p_audienceID p = aud /\ p_id p = id.
Proof.
  unfold principalOfRow, ParseCorePrincipalID, ParseGatewayAudienceID. cbv zeta.
  destruct row as [n idText audText en auth created changed]. simpl. split.
  - destruct (state_parseUUID idText false) as [i|] eqn:Ei; [|done].
    destruct (state_parseUUID audText false) as [a|] eqn:Ea; [|done].
    apply state_parse_iff in Ei as (-> & _ & _). apply state_parse_iff in Ea as (-> & _ & _).
    destruct (_ || _ || _) eqn:G; [done|]. rewrite !orb_false_iff, !negb_false_iff, Z.eqb_eq, !bool_decide_eq_true in G.
    destruct G as [[-> ->] ->]. destruct (NewPrincipal _ _ _ _ _ _) as [p'|] eqn:E; [|done].
    apply NewPrincipal_ok in E as (-> & H). by intros [= <-].
  - intros ([= -> -> -> -> -> -> ->] & (Ha & Hi & Hc & Ho) & <- & <-).
    rewrite !state_parse_format by (try done; by apply arr_is_zero_false).
    rewrite !bool_decide_eq_true_2 by done. simpl.
    rewrite (proj2 (NewPrincipal_ok _ _ _ _ _ _ p)); [done|]. split; [by destruct p|done].
Qed.

(** What a read may return: a value whose row the database returned, or a
    fixed error. *)
Definition read_outcome {A} (tr : trace StateE) (r : result A) (seen : A -> event StateE) (ok : A -> Prop) : Prop :=
  match r with
  | Ok a => seen a ∈ tr /\ ok a
  | Err e => read_error e
  end.

Ltac in_trace := rewrite ?elem_of_app, ?elem_of_cons; auto.

Lemma finish_read {A} destroy (p : prog StateE A) tr a :
  runs (bind (finish destroy) (fun _ => p)) tr a -> exists tr', runs p tr' a.
Proof. unfold finish. destruct destroy; intros (u & t & -> & H); eauto. Qed.

Lemma BoundAudience_outcome repository ctx tr r :
  runs (repo_BoundAudience repository ctx) tr r ->
  read_outcome tr r (fun a => @ev StateE (StSelectAudience ctx) (Some (Ok (audience_row a))))
    (fun a => a <> zero_arr 16) \/ r = Err ErrAudienceUnavailable.
Proof.
  intros H. apply (runs_read _ _ _ (StSelectAudience ctx)) in H as [(e & -> & He)|(x & t1 & t2 & -> & H)]; [left; by apply transport_read|].
  destruct x as [[row|e]|]; apply finish_read in H as [t3 H].
  - destruct H as [_ ->]. destruct (audienceOfRow row) as [a|e] eqn:E.
    + left. apply audienceOfRow_ok in E as [-> Ha]. split; [in_trace|done].
    + right. unfold audienceOfRow in E. repeat case_match; by simplify_eq.
  - left. apply runs_bind in H as (t4 & t5 & e' & -> & He & [_ ->]). by eapply transport_read, repositoryReadError_result.
  - left. destruct H as [_ ->]. apply safeError_read. in_list.
Qed.

Lemma Credential_outcome repository ctx aud id tr r :
  runs (repo_Credential repository ctx aud id) tr r ->
  let query := StSelectCredential ctx (formatUUID aud) (formatUUID id) in
  read_outcome tr r (fun c => @ev StateE query (Some (Ok (row_of_credential c))))
    (fun c => stored_ok c /\ cs_AudienceID c = aud /\ cs_PublicID c = id) \/
  (r = Err ErrCredentialNotFound /\ @ev StateE query (Some (Err ErrNoRows)) ∈ tr).
Proof.
  intros H. cbv zeta. unfold repo_Credential in H.
  match type of H with runs (if ?b then _ else _) _ _ => destruct b end.
  { destruct H as [_ ->]. left. apply safeError_read. in_list. }
  apply (runs_read _ _ _ (StSelectCredential _ _ _)) in H as [(e & -> & He)|(x & t1 & t2 & -> & H)]; [left; by apply transport_read|].
  destruct x as [scanned|]; [|apply finish_read in H as (t3 & _ & ->); left; apply safeError_read; in_list].
  apply runs_bind in H as (t3 & t4 & [k|] & -> & Hk & H).
  { apply finish_read in H as (t5 & _ & ->). left. by eapply transport_read, safeError_transport, contextSentinel_kind. }
  destruct scanned as [record|e].
  - apply finish_read in H as [t5 H]. left.
    destruct (record_credential record aud id) as [c|e] eqn:E; destruct H as [_ ->].
    + apply record_credential_iff in E as (-> & Hc). split; [in_trace|done].
    + apply safeError_read. in_list.
  - destruct (is_sentinel e ErrNoRows) eqn:E; apply finish_read in H as [t5 H].
    + apply is_sentinel_true in E as ->. destruct H as [_ ->]. right. split; [done|in_trace].
    + left. apply runs_bind in H as (t6 & t7 & e' & -> & He & [_ ->]). by eapply transport_read, repositoryReadError_result.
Qed.

Lemma Principal_outcome repository ctx aud id tr r :
  runs (repo_Principal repository ctx aud id) tr r ->
  read_outcome tr r
    (fun p => @ev StateE (StSelectPrincipal ctx (formatUUID aud) (formatUUID id)) (Some (Ok (principal_row p))))
    (fun p => principal_ok p /\ p_audienceID p = aud /\ p_id p = id).
Proof.
  unfold repo_Principal. intros H. destruct (_ || _).
  { destruct H as [_ ->]. apply safeError_read. in_list. }
  apply (runs_read _ _ _ (StSelectPrincipal _ _ _)) in H as [(e & -> & He)|(x & t1 & t2 & -> & H)]; [by apply transport_read|].
  destruct x as [[row|e]|].
  - apply finish_read in H as (t3 & _ & ->). destruct (principalOfRow row aud id) as [p|e] eqn:E.
    + apply principalOfRow_ok in E as [-> Hp]. split; [in_trace|done].
    + unfold principalOfRow in E. repeat case_match; simplify_eq; apply safeError_read; in_list.
  - apply runs_bind in H as (t3 & t4 & [k|] & -> & Hk & H); apply finish_read in H as [t5 H].
    { destruct H as [_ ->]. by eapply transport_read, safeError_transport, contextSentinel_kind. }
    destruct (is_sentinel e ErrNoRows); [destruct H as [_ ->]; apply safeError_read; in_list|].
    apply runs_bind in H as (t6 & t7 & e' & -> & He & [_ ->]). by eapply transport_read, repositoryReadError_result.
  - apply finish_read in H as (t3 & _ & ->). apply safeError_read. in_list.
Qed.

(** What the three reads return, in every execution: a value only when
    the database returned exactly the row of that value during the call (one
    realm row for the audience, the row of a valid credential or principal
    with the requested audience and identifier), [ErrCredentialNotFound] only
    when it returned no row, and otherwise one of the fixed errors, which
    carry no text of the driver. *)
Theorem state_reads_sound repository ctx aud public principal tr :
  (forall r, runs (repo_BoundAudience repository ctx) tr r ->
     read_outcome tr r (fun a => @ev StateE (StSelectAudience ctx) (Some (Ok (audience_row a))))
       (fun a => a <> zero_arr 16) \/ r = Err ErrAudienceUnavailable) /\
  (forall r, runs (repo_Credential repository ctx aud public) tr r ->
     let query := StSelectCredential ctx (formatUUID aud) (formatUUID public) in
     read_outcome tr r (fun c => @ev StateE query (Some (Ok (row_of_credential c))))
       (fun c => stored_ok c /\ cs_AudienceID c = aud /\ cs_PublicID c = public) \/
     (r = Err ErrCredentialNotFound /\ @ev StateE query (Some (Err ErrNoRows)) ∈ tr)) /\
  (forall r, runs (repo_Principal repository ctx aud principal) tr r ->
     read_outcome tr r
       (fun p => @ev StateE (StSelectPrincipal ctx (formatUUID aud) (formatUUID principal)) (Some (Ok (principal_row p))))
       (fun p => principal_ok p /\ p_audienceID p = aud /\ p_id p = principal)).
Proof.
  split_and!; [apply BoundAudience_outcome|apply Credential_outcome|apply Principal_outcome].
Qed.

(** * Reserving a nonce *)

(** What the server answered to a statement: the SQLSTATE of its error message,
    if an error that the driver returns is one, or wraps nothing but one. *)
Fixpoint server_report (e : error) : option bytes :=
  match e with
  | Sentinel _ | ReplayUnknown _ => None
  | SafeErr k _ | InternalErr k _ => server_report k
  | Foreign d many causes =>
      match f_pg d with
      | Some (code, _) => Some code
      | None => if many then None else match causes with [] => None | c :: _ => server_report c end
      end
  end.

(** The conditions of PostgreSQL after which it is open whether the statement
    took effect: class 08 (connection exception), statement_completion_unknown
    and the five ends of a session by the operator. *)
Definition completion_unknown (code : bytes) : bool :=
  (take 2 code =?? lit "08") ||
  bool_decide (code ∈ [lit "40003"; lit "57P01"; lit "57P02"; lit "57P03"; lit "57P04"; lit "57P05"]).

(** The server answered that the statement failed: it had no effect. *)
Definition statement_refused (e : error) : bool :=
  match server_report e with Some code => negb (completion_unknown code) | None => false end.

(** An error on the single-cause chain is what the server reported, and the
    first one that [errors.As] finds. *)
Lemma single_pg_report e :
  singleCausePostgresError e = true ->
  exists code constraint, server_report e = Some code /\ errors_as f_pg e = Some (code, constraint).
Proof.
  unfold singleCausePostgresError. generalize maximumDependencyErrorDepth as n. intros n.
  revert e. induction n as [|n IH]; intros e; [done|].
  destruct e as [s|k op|k b|c|d many causes]; cbn [single_pg_from typed_nil unwraps_many errors_unwrap server_report errors_as].
  - intros H. exfalso. destruct s, n as [|[|n]]; done.
  - apply IH.
  - apply IH.
  - by destruct n.
  - destruct (f_typed_nil d); [done|]. destruct many; [done|]. destruct (f_pg d) as [[code constraint]|]; [eauto|].
    destruct causes as [|c causes]; [by destruct n|]. apply IH.
Qed.

Lemma has_prefix_take p code : (take (length p) code =?? p) = has_prefix p code.
Proof.
  unfold has_prefix. apply bool_decide_ext. split.
  - intros <-. apply prefix_take.
  - intros [k ->]. by rewrite take_app_length.
Qed.

Lemma class_08 code : (take 2 code =?? lit "08") = has_prefix (lit "08") code.
Proof. exact (has_prefix_take (lit "08") code). Qed.

Lemma interruption_code e code constraint :
  errors_as f_pg e = Some (code, constraint) -> isConnectionInterruption e = false -> completion_unknown code = false.
Proof.
  unfold isConnectionInterruption. intros ->. destruct (_ || bool_decide (is_Some _)); [done|].
  rewrite !orb_false_iff, !bool_decide_eq_false. intros Hc. unfold completion_unknown. rewrite class_08, orb_false_iff.
  split; [apply Hc|]. apply bool_decide_eq_false. intros H. repeat (apply elem_of_cons in H as [->|H]; [tauto|]).
  by apply not_elem_of_nil in H.
Qed.

(** What the code takes for a refusal is one. *)
Lemma refused_sound e :
  singleCausePostgresError e = true -> isConnectionInterruption e = false -> statement_refused e = true.
Proof.
  intros Hs Hi. destruct (single_pg_report e Hs) as (code & constraint & Hr & Ha). unfold statement_refused.
  rewrite Hr, (interruption_code e code constraint Ha Hi). reflexivity.
Qed.

(** The result [Reserve] derives from the row of its statement. *)
Definition reserve_result (scanned : option (result bool)) (r : result Z) : Prop :=
  match r with
  | Ok d => (d = ReplayReserved /\ scanned = Some (Ok true)) \/
            (d = ReplayDuplicate /\ scanned = Some (Err ErrNoRows))
  | Err e => scanned <> Some (Ok true) /\
      (errors_is e ErrReplayOutcomeUnknown = true \/
       exists e', scanned = Some (Err e') /\ statement_refused e' = true)
  end.

Lemma unknown_result scanned c :
  scanned <> Some (Ok true) -> reserve_result scanned (Err (newReplayOutcomeUnknownError c)).
Proof. intros H. split; [done|]. by left. Qed.

(** No insert was issued. *)
Definition no_insert (e : event StateE) : Prop :=
  match e with existT (StInsertReplay _ _ _ _ _) _ => False | _ => True end.

Lemma quiet_nil : Forall no_insert [].
Proof. constructor. Qed.
Lemma quiet_cons (o : state_op) (r : ans StateE o) tr :
  no_insert (@ev StateE o r) -> Forall no_insert tr -> Forall no_insert (@ev StateE o r :: tr).
Proof. by constructor. Qed.
Lemma quiet_app t1 t2 : Forall no_insert t1 -> Forall no_insert t2 -> Forall no_insert (t1 ++ t2).
Proof. apply Forall_app_2. Qed.

Create HintDb quiet.
#[export] Hint Resolve quiet_nil quiet_cons quiet_app : quiet.
#[export] Hint Extern 1 (no_insert _) => exact I : quiet.

Lemma quiet_ctxErrIs ctx t tr b : runs (ctxErrIs ctx t) tr b -> Forall no_insert tr.
Proof.
  unfold ctxErrIs. case_match; [by intros [-> _]|]. intros (c & t' & -> & -> & _). auto with quiet.
Qed.

Lemma quiet_contextSentinel ctx e tr c : runs (contextSentinel ctx e) tr c -> Forall no_insert tr.
Proof.
  assert (forall (b : bool) t tr x, runs (if b then Ret true else ctxErrIs ctx t) tr x -> Forall no_insert tr) as Hq.
  { intros [] t t' x; [by intros [-> _]|apply quiet_ctxErrIs]. }
  unfold contextSentinel. intros H. apply runs_bind in H as (t1 & t2 & [] & -> & H1 & H); apply Hq in H1.
  - destruct H as [-> _]. auto with quiet.
  - apply runs_bind in H as (t3 & t4 & [] & -> & H2 & H); apply Hq in H2; destruct H as [-> _]; auto with quiet.
Qed.
#[export] Hint Resolve quiet_contextSentinel : quiet.

Lemma reserveOutcome_result ctx scanned tr r :
  runs (reserveOutcome ctx scanned) tr r -> reserve_result (Some scanned) r /\ Forall no_insert tr.
Proof.
  assert (forall e t (r : result Z), Some scanned <> Some (Ok true) ->
    runs (let! _ := @call StateE StDestroy in let! c := contextSentinel ctx e in
          Ret (Err (newReplayOutcomeUnknownError c))) t r ->
    reserve_result (Some scanned) r /\ Forall no_insert t) as Hu.
  { intros e t r' Hs (u & t3 & -> & H). cbn [bind] in H.
    apply runs_bind in H as (t4 & t5 & c & -> & Hc & -> & ->). split; [by apply unknown_result|].
    eauto with quiet. }
  unfold reserveOutcome. intros H. destruct scanned as [[]|e]; cbn [err_of] in H.
  - destruct H as (u & t & -> & -> & ->). split; [by left|auto with quiet].
  - cbn [opt_interruption] in H. apply bind_assoc_runs in H.
    apply runs_bind in H as (t1 & t2 & c & -> & Hc & H). cbn [bind] in H.
    destruct (bool_decide _); [apply Hu in H as [??]; [eauto with quiet|done]|].
    destruct H as (u & t3 & -> & -> & ->). split; [by apply unknown_result|eauto with quiet].
  - cbn [opt_interruption] in H. destruct (isConnectionInterruption e) eqn:Ei; [by eapply Hu|].
    apply bind_assoc_runs in H. apply runs_bind in H as (t1 & t2 & c & -> & Hc & H). cbn [bind] in H.
    destruct (bool_decide _); [apply Hu in H as [??]; [eauto with quiet|done]|].
    destruct (is_sentinel e ErrNoRows) eqn:En;
      [|destruct (singleCausePostgresError e) eqn:Ep]; destruct H as (u & t3 & -> & -> & ->);
      (split; [|eauto with quiet]).
    + apply is_sentinel_true in En as ->. by right.
    + split; [done|]. right. exists e. split; [done|]. by apply refused_sound.
    + by apply unknown_result.
Qed.

Abbreviation reserve_query ctx record nonce now :=
  (StInsertReplay ctx (formatUUID record) (arr_list nonce) now (t_add now replayReservationLifetime)).

(** An execution of [Reserve] fails before its statement, or its result is
    that of its only statement. *)
Lemma Reserve_runs repository ctx (record : CredentialRecordID) (nonce : ReplayNonce) now tr r :
  runs (repo_Reserve repository ctx record nonce now) tr r ->
  ((exists e, r = Err e) /\ Forall no_insert tr) \/
  exists t1 scanned t2,
    tr = t1 ++ @ev StateE (reserve_query ctx record nonce now) scanned :: t2 /\
    Forall no_insert t1 /\ Forall no_insert t2 /\ reserve_result scanned r.
Proof.
  unfold repo_Reserve. intros H.
  destruct repository as [rp|]; [|destruct H as [-> ->]; left; eauto with quiet].
  destruct (_ || _); [destruct H as [-> ->]; left; eauto with quiet|].
  apply runs_bind in H as (t1 & t2 & [k|] & -> & Hc & H); [destruct H as [-> ->]; left; eauto with quiet|].
  cbv zeta in H. destruct (negb _); [destruct H as [-> ->]; left; eauto with quiet|].
  destruct H as (acquired & t3 & -> & H). cbn [bind] in H. destruct acquired as [connection [e|]].
  { left. apply runs_bind in H as (t4 & t5 & u & -> & Hd & H).
    assert (Forall no_insert t4) by (destruct connection; [destruct Hd as (? & ? & -> & -> & _)|destruct Hd as [-> _]]; auto with quiet).
    apply runs_bind in H as (t6 & t7 & [k|] & -> & Hk & -> & ->); split; eauto 10 with quiet. }
  destruct connection; simpl negb in H; [|destruct H as [-> ->]; left; eauto 10 with quiet].
  destruct H as (scanned & t4 & -> & H). cbn [bind] in H. right.
  eexists (t1 ++ [_]), scanned, t4. split; [by rewrite <- app_assoc|]. split; [eauto with quiet|].
  destruct scanned as [scanned|]; [by apply reserveOutcome_result in H as [? ?]|].
  destruct H as (u & t5 & -> & -> & ->). split; [auto with quiet|]. by apply unknown_result.
Qed.

(** * The meaning of the statements *)

Abbreviation replay_key := (arr 16 * arr 16)%type.

(** The replay table, with the rows [(reserved_at, expires_at)] of each key,
    and the keys this session inserted. *)
Record replay_db : Type := mkReplayDb {
  rd_rows : gmap replay_key (Time * Time);
  rd_mine : list replay_key
}.

Definition put_row (key : replay_key) (row : Time * Time) (s : replay_db) : replay_db :=
  mkReplayDb (<[key := row]> (rd_rows s)) (key :: rd_mine s).

(** The insert with [ON CONFLICT DO NOTHING RETURNING true], a statement of
    its own transaction: it returns a row exactly when it inserted; no row,
    only when the key was taken; a refused statement has no effect; any other
    failure may come before or after the insertion. *)
Definition insert_step (key : replay_key) (row : Time * Time) (s : replay_db)
    (scanned : option (result bool)) (s' : replay_db) : Prop :=
  let free := rd_rows s !! key = None in
  match scanned with
  | Some (Ok b) => b = true /\ free /\ s' = put_row key row s
  | Some (Err e) =>
      if is_sentinel e ErrNoRows then is_Some (rd_rows s !! key) /\ s' = s
      else if statement_refused e then s' = s
      else s' = s \/ (free /\ s' = put_row key row s)
  | None => s' = s \/ (free /\ s' = put_row key row s)
  end.

Section Database.
(** The public id of a credential is unique and its record id is fixed. *)
Variable record_of : CredentialID -> CredentialRecordID.

Definition state_step (s : replay_db) (o : state_op) : ans StateE o -> replay_db -> Prop :=
  match o with
  | StInsertReplay _ record nonce now expiresAt => fun scanned s' =>
      match pg_uuid record with
      | Some id => insert_step (id, mk_arr 16 nonce) (now, expiresAt) s scanned s'
      | None => s' = s
      end
  | StSelectCredential _ _ public => fun scanned s' => s' = s /\
      match scanned with
      | Some (Ok row) => forall id, public = formatUUID id -> cr_recordText row = formatUUID (record_of id)
      | _ => True
      end
  | _ => fun _ s' => s' = s
  end.

(** Other sessions only add rows; they are not this session's. *)
Definition state_rely (s s' : replay_db) : Prop :=
  rd_rows s ⊆ rd_rows s' /\ rd_mine s' = rd_mine s.

(** At one instant the call reserved the free key, found it taken, or failed:
    without effect or, only when it reports an unknown outcome, after
    reserving it. *)
Definition reserve_contract (s : replay_db) (key : replay_key) (now : Time) (r : result Z) (s' : replay_db) : Prop :=
  exists s1 s2, state_rely s s1 /\ state_rely s2 s' /\
    let free := rd_rows s1 !! key = None in
    let reserved := put_row key (now, now + 5 * Minute) s1 in
    match r with
    | Ok d => (d = ReplayReserved /\ free /\ s2 = reserved) \/
              (d = ReplayDuplicate /\ is_Some (rd_rows s1 !! key) /\ s2 = s1)
    | Err e => s2 = s1 \/ (free /\ s2 = reserved /\ errors_is e ErrReplayOutcomeUnknown = true)
    end.

Lemma quiet_chain s tr s' :
  Forall no_insert tr -> ichain (E := StateE) state_step state_rely s tr s' -> state_rely s s'.
Proof.
  intros Hq. revert s. induction Hq as [|[o r] tr Ho Hq IH]; intros s; [done|].
  intros (s1 & s2 & [H1 H1'] & Hs & H). assert (s2 = s1) as -> by (destruct o; by (simpl in Hs; destruct_ex)).
  apply IH in H as [H2 H2']. split; [by etrans|congruence].
Qed.

Lemma insert_step_contract key row s scanned s' r :
  insert_step key row s scanned s' -> reserve_result scanned r ->
  match r with
  | Ok d => (d = ReplayReserved /\ rd_rows s !! key = None /\ s' = put_row key row s) \/
            (d = ReplayDuplicate /\ is_Some (rd_rows s !! key) /\ s' = s)
  | Err e => s' = s \/ (rd_rows s !! key = None /\ s' = put_row key row s /\
                        errors_is e ErrReplayOutcomeUnknown = true)
  end.
Proof.
  unfold insert_step. cbv zeta. intros Hs Hr. destruct r as [d|e].
  - destruct Hr as [[-> ->]|[-> ->]]; simpl in Hs; [left|right]; by destruct_ex.
  - destruct Hr as [Hn Hr]. destruct scanned as [[b|e']|].
    + destruct Hs as (-> & _). done.
    + destruct (is_sentinel e' ErrNoRows); [left; by destruct Hs|].
      destruct (statement_refused e') eqn:Er; [by left|]. destruct Hs as [->|[Hf ->]]; [by left|].
      right. destruct Hr as [Hr|(e2 & E & Hr)]; [done|]. simplify_eq. congruence.
    + destruct Hs as [->|[Hf ->]]; [by left|]. right. destruct Hr as [Hr|(e2 & E & Hr)]; done.
Qed.

(** (C6) [Reserve] implements the replay store that request authentication
    relies on. Run against the meaning of its statement, with other sessions
    inserting rows between any two of its calls and every call failing at
    will, it reserves the nonce of the record for five minutes exactly when
    the pair was free and reports a duplicate only when it was taken; when it
    fails it inserted nothing, unless it reports that the outcome is unknown.
    The effect takes place at one instant. *)
Theorem Reserve_implements_replay_store repository ctx (record : CredentialRecordID) (nonce : ReplayNonce)
    (now : Time) (s s' : replay_db) (r : result Z)
    (Hexec : iexec (E := StateE) state_step state_rely (repo_Reserve repository ctx record nonce now) s r s') :
  reserve_contract s (record, nonce) now r s'.
Proof.
  apply iexec_ichain in Hexec as (tr & Hruns & Hch).
  apply Reserve_runs in Hruns as [[[e ->] Hq]|(t1 & scanned & t2 & -> & Hq1 & Hq2 & Hr)].
  - apply quiet_chain in Hch; [|done]. exists s', s'. split; [done|]. by split; [|left].
  - apply ichain_split in Hch as (s1 & s2 & H1 & Hs & H2).
    apply quiet_chain in H1; [|done]. apply quiet_chain in H2; [|done].
    exists s1, s2. split; [done|]. split; [done|]. simpl in Hs. rewrite pg_uuid_format, mk_arr_id in Hs.
    by apply (insert_step_contract _ _ _ _ _ r) in Hs.
Qed.
End Database.

(** * Authentication over the database *)

(** The calls of the service answered by the repository over the pool; the
    clock, the secret source and the context of the service stay external. *)
Definition stack_impl (repository : option StateRepository) (o : auth_op)
  : prog (SumE StateE AuthE) (ans AuthE o) :=
  match o return prog (SumE StateE AuthE) (ans AuthE o) with
  | BoundAudience ctx => lift_l (via_pool (repo_BoundAudience repository ctx))
  | LookupCredential ctx audience id => lift_l (via_pool (repo_Credential repository ctx audience id))
  | Reserve ctx record nonce now => lift_l (via_pool (repo_Reserve repository ctx record nonce now))
  | LookupPrincipal ctx audience id => lift_l (via_pool (repo_Principal repository ctx audience id))
  | o => @call (SumE StateE AuthE) (inr o)
  end.

Definition authenticate_stack (repository : option StateRepository) (service : Service) (ctx : Ctx)
    (request : Request) : prog (SumE StateE AuthE) (result CorePrincipalID) :=
  interp (E := AuthE) (stack_impl repository) (Authenticate (Some service) ctx request).

Definition is_acquire (o : state_op) : bool := match o with StAcquire _ => true | _ => false end.

(** Through the pool, every call but the acquisition is made as it is. *)
Lemma runs_via_pool {A} (p : prog StateE A) tr a :
  runs (via_pool p) tr a ->
  exists utr, runs p utr a /\
    (forall (o : state_op) r, is_acquire o = false -> @ev StateE o r ∈ utr -> @ev StateE o r ∈ tr).
Proof.
  intros H. apply runs_interp_in in H as (utr & H & Hin). exists utr. split; [done|].
  intros o r Ho Hr. destruct (Hin o r Hr) as (t & Ht & Hsub). apply Hsub.
  destruct o; try done; destruct Ht as (r' & t' & -> & -> & <-); apply list_elem_of_here.
Qed.

Lemma runs_stack {A} (p : prog StateE A) tr a :
  runs (lift_l (F := AuthE) (via_pool p)) tr a ->
  exists utr, runs p utr a /\
    (forall (o : state_op) r, is_acquire o = false -> @ev StateE o r ∈ utr ->
     @ev (SumE StateE AuthE) (inl o) r ∈ tr).
Proof.
  intros H. apply runs_lift_l in H as (t & H & Hl). apply runs_via_pool in H as (utr & H & Hp).
  exists utr. split; [done|]. intros o r Ho Hr. by apply Hl, Hp.
Qed.

(** What a successful request left in the database log. *)
Lemma stack_success repository service ctx rq tr pid :
  runs (authenticate_stack repository service ctx rq) tr (Ok pid) ->
  exists p c now, parseRequest rq = Ok p /\
    @ev (SumE StateE AuthE) (inl (StSelectCredential ctx (formatUUID (configuredAudience service))
        (formatUUID (pr_credentialID p)))) (Some (Ok (row_of_credential c))) ∈ tr /\
    @ev (SumE StateE AuthE) (inl (reserve_query ctx (cs_RecordID c) (pr_nonce p) now)) (Some (Ok true)) ∈ tr.
Proof.
  intros H. apply runs_interp_in in H as (utr & H & Hin).
  apply success_logged in H as (p & c & now & Hp & Hl & Hr). exists p, c, now. split; [done|].
  destruct (Hin _ _ Hl) as (t1 & H1 & Hs1). destruct (Hin _ _ Hr) as (t2 & H2 & Hs2).
  apply runs_stack in H1 as (u1 & H1 & He1). apply runs_stack in H2 as (u2 & H2 & He2). split.
  - apply Hs1, He1; [done|]. by apply Credential_outcome in H1 as [[H1 _]|[H1 _]].
  - apply Hs2, He2; [done|].
    apply Reserve_runs in H2 as [[[e H2] _]|(t3 & scanned & t4 & -> & _ & _ & Hres)]; [done|].
    destruct Hres as [[_ ->]|[E _]]; [|done]. apply elem_of_app. right. apply list_elem_of_here.
Qed.

(** The key a statement inserted. *)
Definition inserted_key (e : event (SumE StateE AuthE)) : option replay_key :=
  match e with
  | existT (inl (StInsertReplay _ record nonce _ _)) (Some (Ok true)) =>
      (fun id => (id, mk_arr 16 nonce)) <$> pg_uuid record
  | _ => None
  end.

(** A logged lookup respects the registry. *)
Definition row_ok (record_of : CredentialID -> CredentialRecordID) (e : event (SumE StateE AuthE)) : Prop :=
  match e with
  | existT (inl (StSelectCredential _ _ public)) (Some (Ok row)) =>
      forall id, public = formatUUID id -> cr_recordText row = formatUUID (record_of id)
  | _ => True
  end.

(** The database with the external calls of the service. *)
Definition stack_step (record_of : CredentialID -> CredentialRecordID) (s : replay_db)
    (o : op (SumE StateE AuthE)) : ans (SumE StateE AuthE) o -> replay_db -> Prop :=
  match o with
  | inl o => state_step record_of s o
  | inr _ => fun _ s' => s' = s
  end.

Section Stack.
Variable record_of : CredentialID -> CredentialRecordID.

Lemma insert_step_grows key row s scanned s' k :
  insert_step key row s scanned s' -> is_Some (rd_rows s !! k) -> is_Some (rd_rows s' !! k).
Proof.
  assert (is_Some (rd_rows s !! k) -> is_Some (rd_rows (put_row key row s) !! k)) as Hp.
  { simpl. rewrite lookup_insert_is_Some. destruct (decide (key = k)); auto. }
  unfold insert_step. cbv zeta. intros H Hk. repeat case_match; destruct_ex; subst; auto.
  all: destruct H as [->|[_ ->]]; auto.
Qed.

Lemma stack_step_grows s o r s' k :
  stack_step record_of s o r s' -> is_Some (rd_rows s !! k) -> is_Some (rd_rows s' !! k).
Proof.
  destruct o as [o|o]; [|by intros ->]. destruct o; simpl; try (by intros ->).
  - by intros [-> _].
  - destruct (pg_uuid record); [apply insert_step_grows|by intros ->].
Qed.

Lemma stack_step_key s o r s' k :
  stack_step record_of s o r s' -> inserted_key (ev o r) = Some k ->
  ~ is_Some (rd_rows s !! k) /\ is_Some (rd_rows s' !! k).
Proof.
  destruct o as [o|o]; [|done]. destruct o; simpl; try done.
  destruct (pg_uuid record) as [id|]; [|by destruct r as [[[]|]|]].
  destruct r as [[[]|]|]; try done. simpl. intros (_ & Hn & ->) [= <-]. rewrite Hn. split; [by intros [? ?]|].
  simpl. rewrite lookup_insert_eq. eauto.
Qed.

Lemma stack_step_row s o r s' : stack_step record_of s o r s' -> row_ok record_of (ev o r).
Proof.
  destruct o as [o|o]; [|done]. destruct o; simpl; try done. intros [_ H]. by destruct r as [[]|].
Qed.

Lemma stack_log {A} c c' (log : list (nat * event (SumE StateE AuthE))) :
  pool_trace (A := A) (stack_step record_of) c log c' ->
  NoDup (omap (fun x => inserted_key x.2) log) /\ (forall x, x ∈ log -> row_ok record_of x.2).
Proof.
  intros H. split.
  - exact (proj1 (pool_trace_keys _ inserted_key (fun s k => is_Some (rd_rows s !! k)) _ _ _
      stack_step_grows stack_step_key H)).
  - exact (pool_trace_forall _ (row_ok record_of) _ _ _ stack_step_row H).
Qed.

(** (C5) A request cannot be replayed against the gateway and its database.
    Let any number of requests be authenticated concurrently by the service
    over the PostgreSQL repository, their database calls interleaved
    arbitrarily and failing at will. Two different requests that are both
    authenticated differ in their credential or in their nonce: the same
    request sent again is never authenticated a second time. *)
Theorem authenticate_stack_no_replay (repository : option StateRepository) (service : Service)
    (rqs : list (Ctx * Request)) (s0 s : replay_db)
    (ps : list (prog (SumE StateE AuthE) (result CorePrincipalID)))
    (log : list (nat * event (SumE StateE AuthE))) (i j : nat) (c1 c2 : Ctx) (rq1 rq2 : Request)
    (pid1 pid2 : CorePrincipalID) (p1 p2 : parsedRequest)
    (Hlog : pool_trace (stack_step record_of)
      (s0, (fun cr => authenticate_stack repository service cr.1 cr.2) <$> rqs) log (s, ps))
    (Hi : rqs !! i = Some (c1, rq1)) (Hj : rqs !! j = Some (c2, rq2)) (Hij : i <> j)
    (Hp1 : parseRequest rq1 = Ok p1) (Hp2 : parseRequest rq2 = Ok p2)
    (Hr1 : ps !! i = Some (Ret (Ok pid1))) (Hr2 : ps !! j = Some (Ret (Ok pid2))) :
  (pr_credentialID p1, pr_nonce p1) <> (pr_credentialID p2, pr_nonce p2).
Proof.
  intros [= Ec En]. destruct (stack_log _ _ _ Hlog) as [Hnd Hlk].
  assert (forall i c rq pid p, rqs !! i = Some (c, rq) -> ps !! i = Some (Ret (Ok pid)) ->
    parseRequest rq = Ok p -> exists x, x ∈ log /\ x.1 = i /\
      inserted_key x.2 = Some (record_of (pr_credentialID p), pr_nonce p)) as Hkey.
  { intros n c rq pid p Hn Hr Hp.
    pose proof (pool_trace_runs _ _ _ _ n (authenticate_stack repository service c rq) _ Hlog
      ltac:(simpl; rewrite list_lookup_fmap, Hn; done) Hr [] (Ok pid) ltac:(done)) as Hruns.
    rewrite app_nil_r in Hruns.
    apply stack_success in Hruns as (p' & cr & now & Hp' & Hl & Hres).
    rewrite Hp in Hp'. injection Hp' as <-. apply thread_log_elem in Hl, Hres.
    eexists. split; [exact Hres|]. split; [done|]. apply Hlk in Hl.
    specialize (Hl _ eq_refl). apply formatUUID_inj in Hl. simpl. rewrite pg_uuid_format, mk_arr_id, Hl. done. }
  destruct (Hkey i c1 rq1 pid1 p1) as (x & Hx & Ex & Kx); [done..|].
  destruct (Hkey j c2 rq2 pid2 p2) as (y & Hy & Ey & Ky); [done..|].
  rewrite <- Ec, <- En in Ky.
  assert (x = y) by (by eapply (NoDup_omap_inj (fun x => inserted_key x.2) log)). congruence.
Qed.
End Stack.

(** * Retention *)

(** A reservation is asked for at an instant at which the request is verified. *)
Lemma reserve_event_verified service ctx rq tr res ctx' record nonce now r :
  runs (Authenticate service ctx rq) tr res -> @ev AuthE (Reserve ctx' record nonce now) r ∈ tr ->
  exists aud p c secret, verified service rq aud p now c secret.
Proof.
  intros H Hin. apply Authenticate_outcome in H.
  assert (@ev AuthE (Reserve ctx' record nonce now) r ∈ deps tr) as Hd.
  { apply list_elem_of_filter. done. }
  assert (forall aud p now' c secret r' rest,
    deps tr = verify_trace ctx aud p now' c secret r' ++ rest -> Forall (fun e => ~ is_reserve e) rest ->
    now = now') as Hnow.
  { intros aud p now' c secret r' rest E Hrest. rewrite E in Hd.
    apply elem_of_app in Hd as [Hd|Hd]; [|rewrite Forall_forall in Hrest; by apply Hrest in Hd].
    unfold verify_trace in Hd. rewrite !elem_of_cons, elem_of_nil in Hd.
    destruct Hd as [E'|[E'|[E'|[E'|[E'|[]]]]]]; apply (f_equal (fun e => projT1 e)) in E'; by simplify_eq/=. }
  destruct H as [tr s _ Hr|aud p now' c sec r' tr s _ Hv E|aud p now' c sec r' tr s _ Hv E
    |aud p now' c sec prin tr Hv E _ _].
  - rewrite Forall_forall in Hr. by apply Hr in Hin.
  - assert (now = now') as -> by (apply (Hnow aud p now' c sec r' []); [by rewrite app_nil_r|constructor]). eauto.
  - assert (now = now') as -> by (eapply Hnow; [exact E|]; apply Forall_cons_2; [by intros []|constructor]). eauto.
  - assert (now = now') as -> by (eapply Hnow; [exact E|]; apply Forall_cons_2; [by intros []|constructor]). eauto.
Qed.

(** (C40) A reservation outlives the request it protects: when one request
    reaches the replay store at two instants (clock values before the year
    292 billion), the second instant lies before the expiry of the row the
    first one wrote. Rows may therefore be removed once they expire without
    letting a captured request through again. *)
Theorem reservation_outlives_request service ctx1 ctx2 rq tr1 tr2 res1 res2 ca cb record1 record2
    nonce1 nonce2 now1 now2 r1 r2
    (H1 : runs (Authenticate service ctx1 rq) tr1 res1) (H2 : runs (Authenticate service ctx2 rq) tr2 res2)
    (E1 : @ev AuthE (Reserve ca record1 nonce1 now1) r1 ∈ tr1)
    (E2 : @ev AuthE (Reserve cb record2 nonce2 now2) r2 ∈ tr2)
    (B1 : t_unix now1 < 2 ^ 63) (B2 : t_unix now2 < 2 ^ 63) :
  t_before now2 (t_add now1 replayReservationLifetime) = true.
Proof.
  destruct (reserve_event_verified _ _ _ _ _ _ _ _ _ _ H1 E1) as (a1 & p1 & c1 & s1 & V1).
  destruct (reserve_event_verified _ _ _ _ _ _ _ _ _ _ H2 E2) as (a2 & p2 & c2 & s2 & V2).
  pose proof (v_parsed _ _ _ _ _ _ _ V1) as Hp. rewrite (v_parsed _ _ _ _ _ _ _ V2) in Hp. injection Hp as ->.
  pose proof (parseRequest_ok _ _ (v_parsed _ _ _ _ _ _ _ V1)) as Hok.
  pose proof (window_seconds _ _ now1 Hok (conj (v_now _ _ _ _ _ _ _ V1) B1) (v_window _ _ _ _ _ _ _ V1)) as W1.
  pose proof (window_seconds _ _ now2 Hok (conj (v_now _ _ _ _ _ _ _ V2) B2) (v_window _ _ _ _ _ _ _ V2)) as W2.
  unfold t_unix, Second, replayReservationLifetime, Minute in *. unfold_time. unfold Second in *.
  pose proof (Z.div_mod now1 1000000000). pose proof (Z.div_mod now2 1000000000).
  pose proof (Z.mod_pos_bound now1 1000000000). pose proof (Z.mod_pos_bound now2 1000000000). lia.
Qed.

(** * The golden request over the database *)

Definition golden_record_of (_ : CredentialID) : CredentialRecordID := cs_RecordID golden_credential.

Example golden_row_read :
  record_credential (row_of_credential golden_credential) golden_auth_audience (uuid_of golden_credential_text) =
  Ok golden_credential.
Proof. vm_compute. reflexivity. Qed.

(** A database that never fails. *)
Definition golden_state (o : state_op) (s : replay_db) : ans StateE o * replay_db :=
  match o return ans StateE o * replay_db with
  | StAcquire _ => ((true, None), s)
  | StSelectAudience _ => (Some (Ok (audience_row golden_auth_audience)), s)
  | StSelectCredential _ _ _ => (Some (Ok (row_of_credential golden_credential)), s)
  | StSelectPrincipal _ _ _ => (Some (Ok (principal_row golden_principal)), s)
  | StInsertReplay _ record nonce now expiresAt =>
      match pg_uuid record with
      | None => (Some (Err EOF), s)
      | Some id =>
          if decide (rd_rows s !! (id, mk_arr 16 nonce) = None)
          then (Some (Ok true), put_row (id, mk_arr 16 nonce) (now, expiresAt) s)
          else (Some (Err ErrNoRows), s)
      end
  | StRelease => (tt, s)
  | StDestroy => (tt, s)
  | StCtxErr _ => (None, s)
  end.

Definition golden_stack_handler (o : op (SumE StateE AuthE)) (s : replay_db * unit)
  : ans (SumE StateE AuthE) o * (replay_db * unit) :=
  match o return ans (SumE StateE AuthE) o * (replay_db * unit) with
  | inl o => let '(r, s') := golden_state o s.1 in (r, (s', s.2))
  | inr (AuthCtxErr _) => (None, s)
  | inr Clock => (golden_now, s)
  | inr (LookupSecret _ _ _) => (Ok golden_secret, s)
  | inr (BoundAudience _) => (Err ErrUnavailable, s)
  | inr (LookupCredential _ _ _) => (Err ErrUnavailable, s)
  | inr (Reserve _ _ _ _) => (Err ErrUnavailable, s)
  | inr (LookupPrincipal _ _ _) => (Err ErrUnavailable, s)
  end.

Lemma golden_state_steps (o : state_op) s :
  state_step golden_record_of s o (golden_state o s).1 (golden_state o s).2.
Proof.
  destruct o; try done. simpl. destruct (pg_uuid record) as [id|]; [|done].
  destruct (decide _) as [E|E]; simpl; [done|]. split; [|done]. by apply not_eq_None_Some.
Qed.

Lemma golden_stack_steps (o : op (SumE StateE AuthE)) s x :
  stack_step golden_record_of s o (golden_stack_handler o (s, x)).1 (golden_stack_handler o (s, x)).2.1.
Proof.
  destruct o as [o|o]; [|by destruct o]. simpl. pose proof (golden_state_steps o s) as H.
  by destruct (golden_state o s).
Qed.

Definition golden_stack_run (rq : Request) (s : replay_db) :=
  run golden_stack_handler
    (authenticate_stack (Some (NewAuthenticationStateRepository false)) golden_service CtxReq rq) (s, tt).

Definition empty_db : replay_db := mkReplayDb ∅ [].

Lemma golden_stack_first : (golden_stack_run golden_request empty_db).1 = Ok (p_id golden_principal).
Proof. vm_compute. reflexivity. Qed.

Lemma golden_stack_second :
  (golden_stack_run golden_request2 (golden_stack_run golden_request empty_db).2.1).1 = Ok (p_id golden_principal).
Proof. vm_compute. reflexivity. Qed.

(** The same request a second time is refused. *)
Example golden_stack_replayed :
  (golden_stack_run golden_request (golden_stack_run golden_request empty_db).2.1).1 = Err ErrAuthenticationFailed.
Proof. vm_compute. reflexivity. Qed.

Lemma golden_stack_exec rq s :
  exec (stack_step golden_record_of)
    (authenticate_stack (Some (NewAuthenticationStateRepository false)) golden_service CtxReq rq) s
    (golden_stack_run rq s).1 (golden_stack_run rq s).2.1.
Proof. apply (run_exec (stack_step golden_record_of)), golden_stack_steps. Qed.

Lemma golden_stack_trace :
  exists log s, pool_trace (stack_step golden_record_of)
    (empty_db, (fun cr => authenticate_stack (Some (NewAuthenticationStateRepository false)) golden_service cr.1 cr.2)
       <$> golden_pool) log
    (s, [Ret (Ok (p_id golden_principal)); Ret (Ok (p_id golden_principal))]).
Proof.
  destruct (exec_pool_trace (stack_step golden_record_of) _ empty_db _ _
    ((fun cr => authenticate_stack (Some (NewAuthenticationStateRepository false)) golden_service cr.1 cr.2)
       <$> golden_pool) 0%nat ltac:(done) (golden_stack_exec golden_request empty_db)) as [log1 H1].
  destruct (exec_pool_trace (stack_step golden_record_of) _ (golden_stack_run golden_request empty_db).2.1 _ _
    [Ret (Ok (p_id golden_principal));
     authenticate_stack (Some (NewAuthenticationStateRepository false)) golden_service CtxReq golden_request2]
    1%nat ltac:(done) (golden_stack_exec golden_request2 _)) as [log2 H2].
  rewrite golden_stack_first in H1. rewrite golden_stack_second in H2.
  exists (log1 ++ log2). eexists. eapply pool_trace_app; [exact H1|exact H2].
Qed.

Lemma authenticate_stack_no_replay_witness :
  (pr_credentialID golden_parsed, pr_nonce golden_parsed) <>
  (pr_credentialID golden_parsed2, pr_nonce golden_parsed2).
Proof.
  destruct golden_stack_trace as (log & s & H).
  apply (authenticate_stack_no_replay golden_record_of (Some (NewAuthenticationStateRepository false))
    golden_service golden_pool empty_db s
    [Ret (Ok (p_id golden_principal)); Ret (Ok (p_id golden_principal))] log 0%nat 1%nat CtxReq CtxReq
    golden_request golden_request2 (p_id golden_principal) (p_id golden_principal) golden_parsed golden_parsed2);
    [exact H|reflexivity|reflexivity|discriminate|exact golden_parse|exact golden_parse2|reflexivity|reflexivity].
Defined.

Lemma reservation_outlives_request_witness :
  t_before golden_now (t_add golden_now replayReservationLifetime) = true.
Proof.
  apply (reservation_outlives_request (Some golden_service) CtxReq CtxReq golden_request _ _ _ _ CtxReq CtxReq
    (cs_RecordID golden_credential) (cs_RecordID golden_credential) (pr_nonce golden_parsed) (pr_nonce golden_parsed)
    golden_now golden_now (Ok ReplayReserved) (Ok ReplayReserved) golden_runs golden_runs);
    [in_list|in_list|reflexivity|reflexivity].
Defined.

Definition one_row : replay_db :=
  put_row (cs_RecordID golden_credential, pr_nonce golden_parsed) (golden_now, golden_now + 5 * Minute) empty_db.

(** The context is alive, the acquisition and the insert succeed. *)
Lemma Reserve_implements_replay_store_witness :
  reserve_contract empty_db (cs_RecordID golden_credential, pr_nonce golden_parsed) golden_now
    (Ok ReplayReserved) one_row.
Proof.
  apply (Reserve_implements_replay_store golden_record_of (Some (NewAuthenticationStateRepository false)) CtxReq
    (cs_RecordID golden_credential) (pr_nonce golden_parsed) golden_now empty_db one_row (Ok ReplayReserved)).
  exists empty_db, None, empty_db. split; [done|]. split; [done|].
  exists empty_db, None, empty_db. split; [done|]. split; [done|].
  exists empty_db, (true, None), empty_db. split; [done|]. split; [done|].
  exists empty_db, (Some (Ok true)), one_row. split; [done|]. split; [vm_compute; done|].
  exists one_row, tt, one_row. split; [done|]. split; [done|]. split; [reflexivity|done].
Defined.
