(* ===== verification/TokenRows.v ===== *)
(** Rows of gateway_destinations and gateway_destination_tokens as
    internal/postgres/destination_token_lifecycle.go reads them, and the state
    texts of destination_resolver.go. *)

From Stdlib Require Import ZifyBool.
From S2P Require Import Prelude GoErrors GoTime Encoding Uuid PgTypes Sha256 SecurityTypes.

(** [destinationState]. *)
Definition destinationState (value : bytes) : result DestinationState :=
  if value =?? lit "enabled" then Ok DestinationEnabled
  else if value =?? lit "disabled" then Ok DestinationDisabled
  else Err ErrDestinationResolverIntegrity.

(** [destinationTokenState]. *)
Definition destinationTokenState (value : bytes) : result DestinationTokenState :=
  if value =?? lit "staged" then Ok DestinationTokenStaged
  else if value =?? lit "active" then Ok DestinationTokenActive
  else if value =?? lit "retiring" then Ok DestinationTokenRetiring
  else if value =?? lit "revoked" then Ok DestinationTokenRevoked
  else Err ErrDestinationResolverIntegrity.

(** The last two fields are the representations that the driver gave to the two
    times it scanned. *)
Record lifecycleDestinationRecord : Type := mkDestinationRecord {
  ldr_destinationText : bytes;
  ldr_audienceText : bytes;
  ldr_stateText : bytes;
  ldr_createdAt : Timestamptz;
  ldr_stateChangedAt : Timestamptz;
  ldr_createdRep : TimeRep;
  ldr_changedRep : TimeRep
}.

(** [lifecycleDestinationRecord.destination]. *)
Definition record_destination (record : lifecycleDestinationRecord) (expectedAudience : GatewayAudienceID)
    (expectedDestination : DestinationID) (now : Time) : result Destination :=
  let bad := Sentinel ErrDestinationLifecycleReconciliation in
  if negb (finiteTimestamp (ldr_createdAt record)) || negb (finiteTimestamp (ldr_stateChangedAt record))
  then Err bad
  else if t_after (tz_time (ldr_createdAt record)) now || t_after (tz_time (ldr_stateChangedAt record)) now
  then Err bad
  else
  check! destination := ParseDestinationID (ldr_destinationText record) or bad in
  check! audience := ParseGatewayAudienceID (ldr_audienceText record) or bad in
  check! state := destinationState (ldr_stateText record) or bad in
  if (destination <>?? expectedDestination) || (audience <>?? expectedAudience) then Err bad
  else
  check! value := NewDestination audience destination state (tz_time (ldr_createdAt record), ldr_createdRep record)
      (tz_time (ldr_stateChangedAt record), ldr_changedRep record) or bad in
  Ok value.

Record lifecycleTokenRecord : Type := mkTokenRecord {
  ltr_recordText : bytes;
  ltr_audienceText : bytes;
  ltr_destinationText : bytes;
  ltr_verifierBytes : bytes;
  ltr_keyIDText : bytes;
  ltr_stateText : bytes;
  ltr_createdAt : Timestamptz;
  ltr_activatedAt : Timestamptz;
  ltr_retirementStartedAt : Timestamptz;
  ltr_revokedAt : Timestamptz;
  ltr_expiresAt : Timestamptz;
  ltr_stagedCleanupDeadline : Timestamptz;
  ltr_retirementDeadline : Timestamptz;
  ltr_stateChangedAt : Timestamptz
}.

(** [lifecycleTokenRecord.token]. *)
Definition record_token (record : lifecycleTokenRecord) (expectedAudience : GatewayAudienceID)
    (destination : Destination) : result DestinationToken :=
  let bad := Sentinel ErrDestinationLifecycleReconciliation in
  if negb (finiteTimestamp (ltr_createdAt record)) || negb (finiteTimestamp (ltr_expiresAt record)) ||
     negb (finiteTimestamp (ltr_stagedCleanupDeadline record)) ||
     negb (finiteTimestamp (ltr_stateChangedAt record)) then Err bad
  else
  check! recordID := ParseDestinationTokenRecordID (ltr_recordText record) or bad in
  check! audience := ParseGatewayAudienceID (ltr_audienceText record) or bad in
  check! destinationID := ParseDestinationID (ltr_destinationText record) or bad in
  check! verifier := NewTokenVerifier (ltr_verifierBytes record) or bad in
  check! keyID := NewDestinationVerifierKeyID (ltr_keyIDText record) or bad in
  check! state := destinationTokenState (ltr_stateText record) or bad in
  check! activatedAt := optionalFiniteTime (ltr_activatedAt record) or bad in
  check! retirementStartedAt := optionalFiniteTime (ltr_retirementStartedAt record) or bad in
  check! revokedAt := optionalFiniteTime (ltr_revokedAt record) or bad in
  check! retirementDeadline := optionalFiniteTime (ltr_retirementDeadline record) or bad in
  if (audience <>?? expectedAudience) || (destinationID <>?? dst_id destination) ||
     (dst_audienceID destination <>?? audience) then Err bad
  else
  check! value := NewDestinationToken (mkTokenSpec audience destination recordID verifier keyID state
      (tz_time (ltr_createdAt record)) activatedAt retirementStartedAt revokedAt
      (tz_time (ltr_expiresAt record)) (tz_time (ltr_stagedCleanupDeadline record)) retirementDeadline
      (tz_time (ltr_stateChangedAt record))) or bad in
  Ok value.

(** * Rows and values *)

Definition destination_text (state : DestinationState) : bytes :=
  if state =? DestinationEnabled then lit "enabled" else lit "disabled".

Definition token_text (state : DestinationTokenState) : bytes :=
  if state =? DestinationTokenStaged then lit "staged"
  else if state =? DestinationTokenActive then lit "active"
  else if state =? DestinationTokenRetiring then lit "retiring"
  else lit "revoked".

(** The columns of a stored destination and of a stored token. *)
Definition row_of_destination (d : Destination) : lifecycleDestinationRecord :=
  mkDestinationRecord (formatUUID (dst_id d)) (formatUUID (dst_audienceID d)) (destination_text (dst_state d))
    (TzTime (dst_createdAt d)) (TzTime (dst_stateChangedAt d)) (dst_createdRep d) (dst_changedRep d).

Definition row_of_token (t : DestinationToken) : lifecycleTokenRecord :=
  mkTokenRecord (formatUUID (ts_RecordID t)) (formatUUID (ts_AudienceID t))
    (formatUUID (dst_id (ts_Destination t))) (match ts_Verifier t with Some v => arr_list v | None => [] end)
    (ts_VerifierKeyID t) (token_text (ts_State t)) (TzTime (ts_CreatedAt t)) (tz_of (ts_ActivatedAt t))
    (tz_of (ts_RetirementStartedAt t)) (tz_of (ts_RevokedAt t)) (TzTime (ts_ExpiresAt t))
    (TzTime (ts_StagedCleanupDeadline t)) (tz_of (ts_RetirementDeadline t)) (TzTime (ts_StateChangedAt t)).

Definition destination_ok (d : Destination) : Prop :=
  dst_audienceID d <> zero_arr 16 /\ dst_id d <> zero_arr 16 /\
  (dst_state d = DestinationEnabled \/ dst_state d = DestinationDisabled) /\
  dst_createdAt d <> 0 /\ dst_createdAt d <= dst_stateChangedAt d.

Lemma NewDestination_ok aud id st created changed d :
  NewDestination aud id st created changed = Ok d <->
  d = mkDestination aud id st created.1 changed.1 created.2 changed.2 /\ destination_ok d.
Proof.
  unfold NewDestination, destination_ok. rewrite if_err_ok by done.
  rewrite !orb_false_iff, !arr_is_zero_false. unfold_time.
  split.
  - intros [H ->]. split; [done|]. simpl. decompose [and] H. split_and!; try done; lia.
  - intros [-> H]. simpl in *. split; [|done]. decompose [and] H. split_and!; try done; lia.
Qed.

Lemma destinationState_ok text s :
  destinationState text = Ok s <->
  text = destination_text s /\ (s = DestinationEnabled \/ s = DestinationDisabled).
Proof.
  unfold destinationState. split.
  - intros H. repeat case_match; simplify_eq; bool_hyps; subst; auto.
  - by intros [-> [-> | ->]].
Qed.

Lemma destinationTokenState_ok text s :
  destinationTokenState text = Ok s <->
  text = token_text s /\ (s = DestinationTokenStaged \/ s = DestinationTokenActive \/
                          s = DestinationTokenRetiring \/ s = DestinationTokenRevoked).
Proof.
  unfold destinationTokenState. split.
  - intros H. repeat case_match; simplify_eq; bool_hyps; subst; auto.
  - by intros [-> [-> | [-> | [-> | ->]]]].
Qed.

Lemma NewTokenVerifier_ok b v : NewTokenVerifier b = Ok v <-> exists a, v = Some a /\ b = arr_list a.
Proof.
  unfold NewTokenVerifier. split.
  - destruct (negb _) eqn:G; [done|]. apply negb_false_iff, bool_decide_eq_true in G. intros [= <-].
    exists (mk_arr 32 b). split; [done|]. by rewrite mk_arr_exact.
  - intros (a & -> & ->). rewrite arr_length, mk_arr_id. done.
Qed.

Lemma NewKeyID_ok k k' : NewDestinationVerifierKeyID k = Ok k' <-> k' = k /\ validKeyID k = true.
Proof.
  unfold NewDestinationVerifierKeyID. destruct (validKeyID k); simpl; (split; [by intros [=]|]); [by intros [-> _]|by intros []].
Qed.

Lemma record_destination_iff r aud id now d :
  record_destination r aud id now = Ok d <->
  r = row_of_destination d /\ destination_ok d /\ dst_audienceID d = aud /\ dst_id d = id /\
  dst_stateChangedAt d <> 0 /\ dst_createdAt d <= now /\ dst_stateChangedAt d <= now.
Proof.
  unfold record_destination, ParseDestinationID, ParseGatewayAudienceID. cbv zeta. split.
  - intros H. destruct (negb _ || negb _) eqn:G1; [done|].
    rewrite orb_false_iff, !negb_false_iff, !finiteTimestamp_true in G1.
    destruct (t_after _ _ || t_after _ _) eqn:G2; [done|].
    repeat (apply check_ok in H; destruct H as (? & ? & H)).
    destruct (negb _ || negb _) eqn:G3; [done|]. bool_hyps. subst.
    apply check_ok in H as (v & Hv & [= <-]). apply NewDestination_ok in Hv as [-> Hok].
    repeat match goal with
    | H : state_parseUUID _ _ = Ok _ |- _ => apply state_parse_iff in H as (? & ? & ?)
    | H : destinationState _ = Ok _ |- _ => apply destinationState_ok in H as [? ?]
    end.
    destruct r; simpl in *. destruct G1 as [[-> ?] [-> ?]]. simpl in *. subst. unfold_time.
    split_and!; try done; lia.
  - intros (-> & (Ha & Hi & Hs & Hc & Ho) & <- & <- & Hm & Hn & Hmn). simpl. unfold_time.
    assert ((dst_createdAt d =? 0) = false) as -> by lia. assert ((dst_stateChangedAt d =? 0) = false) as -> by lia.
    assert ((now <? dst_createdAt d) = false) as -> by lia. assert ((now <? dst_stateChangedAt d) = false) as -> by lia.
    cbn [negb orb].
    repeat (apply check_ok; eexists; split; [apply state_parse_iff; by split_and!|]).
    apply check_ok. exists (dst_state d). split; [by apply destinationState_ok|].
    rewrite !bool_decide_eq_true_2 by done. cbn [negb orb].
    apply check_ok. exists d. split; [|done]. apply NewDestination_ok. split; [by destruct d|done].
Qed.

(** A token whose key id is a text and whose times are instants. *)
Definition token_stored (t : DestinationToken) : Prop :=
  token_ok t /\ validKeyID (ts_VerifierKeyID t) = true /\
  ts_ExpiresAt t <> 0 /\ ts_StagedCleanupDeadline t <> 0 /\ ts_StateChangedAt t <> 0.

Lemma record_token_iff r aud d t :
  record_token r aud d = Ok t <->
  r = row_of_token t /\ token_stored t /\ ts_AudienceID t = aud /\ ts_Destination t = d.
Proof.
  unfold record_token, ParseDestinationTokenRecordID, ParseDestinationID, ParseGatewayAudienceID. cbv zeta. split.
  - intros H. destruct (_ || _) eqn:G1; [done|].
    rewrite !orb_false_iff, !negb_false_iff, !finiteTimestamp_true in G1.
    repeat (apply check_ok in H; destruct H as (? & ? & H)).
    match type of H with (if ?b then _ else _) = _ => destruct b eqn:G3; [done|] end.
    rewrite !orb_false_iff, !negb_false_iff, !bool_decide_eq_true in G3. destruct G3 as [[-> ->] Hda].
    apply check_ok in H as (v & Hv & [= <-]). apply NewDestinationToken_ok in Hv as [-> Hok].
    repeat match goal with
    | H : state_parseUUID _ _ = Ok _ |- _ => apply state_parse_iff in H as (? & ? & ?)
    | H : optionalFiniteTime _ = Ok _ |- _ => apply optionalFiniteTime_ok in H
    | H : destinationTokenState _ = Ok _ |- _ => apply destinationTokenState_ok in H as [? ?]
    | H : NewTokenVerifier _ = Ok _ |- _ => apply NewTokenVerifier_ok in H as (? & ? & ?)
    | H : NewDestinationVerifierKeyID _ = Ok _ |- _ => apply NewKeyID_ok in H as [? ?]
    end.
    destruct r; simpl in *. destruct G1 as [[[[-> ?] [-> ?]] [-> ?]] [-> ?]]. simpl in *. subst.
    split_and!; try done.
  - intros (-> & (Hok & Hk & He & Hs & Hm) & <- & <-).
    pose proof Hok as [Ha [Hd Hdi] (Hr & Hv & Hk') _ _ [Hc _] Hst]. simpl. unfold t_is_zero.
    apply Z.eqb_neq in He, Hs, Hm, Hc. rewrite He, Hs, Hm, Hc. cbn [negb orb].
    repeat (apply check_ok; eexists; split; [apply state_parse_iff; by split_and!|]).
    apply check_ok. exists (ts_Verifier t). split.
    { apply NewTokenVerifier_ok. destruct Hv as [v ->]. eauto. }
    apply check_ok. exists (ts_VerifierKeyID t). split; [by apply NewKeyID_ok|].
    apply check_ok. exists (ts_State t). split; [apply destinationTokenState_ok; split; [done|]; clear -Hst; tauto|].
    repeat (apply check_ok; eexists; split; [by apply optionalFiniteTime_ok|]).
    rewrite Hd, !bool_decide_eq_true_2 by done. cbn [negb orb].
    apply check_ok. exists t. split; [|done]. apply NewDestinationToken_ok. by destruct t.
Qed.

(** (C30) Reading a destination or a token is the inverse of storing it: its
    columns are accepted exactly when they are the columns of a valid value
    of the expected audience and destination (for a destination, one not
    dated after [now]), and then that value is returned. *)
Theorem token_row_roundtrip dr tr aud id now d t :
  (record_destination dr aud id now = Ok d <->
   dr = row_of_destination d /\ destination_ok d /\ dst_audienceID d = aud /\ dst_id d = id /\
   dst_stateChangedAt d <> 0 /\ dst_createdAt d <= now /\ dst_stateChangedAt d <= now) /\
  (record_token tr aud d = Ok t <->
   tr = row_of_token t /\ token_stored t /\ ts_AudienceID t = aud /\ ts_Destination t = d).
Proof. split; [apply record_destination_iff|apply record_token_iff]. Qed.
