(* ===== verification/TokenSchema.v ===== *)
(** The constraints that migrations/000002_security_state_v1.sql puts on
    gateway_destination_tokens, and their agreement with the validation of
    internal/securitystate/types.go. *)

From Stdlib Require Import ZifyBool.
From S2P Require Import Prelude GoErrors GoTime Encoding Uuid PgTypes SecurityTypes TokenRows.

(** * The constraints of gateway_destination_tokens *)

(** Comparison of instants and infinities; null is not comparable. *)
Definition tz_ltb (a b : Timestamptz) : bool :=
  match a, b with
  | TzTime x, TzTime y => x <? y
  | TzInfinity true, TzTime _ | TzInfinity true, TzInfinity false | TzTime _, TzInfinity false => true
  | _, _ => false
  end.

Definition tz_leb (a b : Timestamptz) : bool := tz_ltb a b || (a =?? b).

(** The time zone of a session. The days of an interval are days of its
    calendar: [t + INTERVAL '90 days'] is the instant with the same local time
    90 days later, which need not be 90 times 24 hours later. Hours and minutes
    of an interval are exact. *)
Class Zone : Type := plus_90_days : Time -> Time.

(** Its 90 days are never longer than 90 times 24 hours. *)
Class ShortDays (zone : Zone) : Prop := short_days t : zone t <= t + 90 * 24 * Hour.

(** A zone whose clock never changes. *)
Definition fixed_zone : Zone := fun t => t + 90 * 24 * Hour.

#[export] Instance fixed_zone_short : ShortDays fixed_zone.
Proof. intros t. apply Z.le_refl. Qed.

(** A zone whose clock is put forward by [shift] at the instant [change]. *)
Definition changing_zone (change : Time) (shift : Duration) : Zone :=
  fun t => let later := t + 90 * 24 * Hour in
    if (t <? change) && (change <=? later - shift) then later - shift else later.

#[export] Instance changing_zone_short change : ShortDays (changing_zone change Hour).
Proof. intros t. unfold changing_zone, Hour, Minute, Second. destruct (_ && _); lia. Qed.

Definition tz_plus_90_days {zone : Zone} (a : Timestamptz) : Timestamptz :=
  match a with TzTime x => TzTime (zone x) | a => a end.

(** [value + INTERVAL] of an interval in hours or minutes. *)
Definition tz_plus (a : Timestamptz) (d : Duration) : Timestamptz :=
  match a with TzTime x => TzTime (x + d) | a => a end.

Definition tz_null (a : Timestamptz) : bool := match a with TzNull => true | _ => false end.

(** The check constraints. *)
Definition token_row_checks {zone : Zone} (r : lifecycleTokenRecord) : bool :=
  let created := ltr_createdAt r in
  let changed := ltr_stateChangedAt r in
  let activated := ltr_activatedAt r in
  let started := ltr_retirementStartedAt r in
  let deadline := ltr_retirementDeadline r in
  let revoked := ltr_revokedAt r in
  (* record_id_nonzero, verifier_size, key_id_present, state *)
  (ltr_recordText r <>?? formatUUID (zero_arr 16)) && (length (ltr_verifierBytes r) =?? 32%nat) &&
  negb (ltr_keyIDText r =?? []) &&
  ((ltr_stateText r =?? lit "staged") || (ltr_stateText r =?? lit "active") ||
   (ltr_stateText r =?? lit "retiring") || (ltr_stateText r =?? lit "revoked")) &&
  (* lifetime, staged_cleanup_bound *)
  tz_ltb created (ltr_expiresAt r) && tz_leb (ltr_expiresAt r) (tz_plus_90_days created) &&
  tz_ltb created (ltr_stagedCleanupDeadline r) &&
  tz_leb (ltr_stagedCleanupDeadline r) (tz_plus created (24 * Hour)) &&
  (* state_time_order *)
  tz_leb created changed &&
  (tz_null activated || (tz_leb created activated && tz_leb activated changed)) &&
  (tz_null started ||
   (negb (tz_null activated) && tz_leb activated started && tz_leb started changed)) &&
  (tz_null revoked || (tz_leb created revoked && tz_leb revoked changed)) &&
  (* retirement_bound *)
  ((tz_null started && tz_null deadline) ||
   (negb (tz_null started) && negb (tz_null deadline) && tz_ltb started deadline &&
    tz_leb deadline (tz_plus started (24 * Hour)))) &&
  (* state_fields *)
  (((ltr_stateText r =?? lit "staged") && tz_null activated && tz_null started && tz_null deadline && tz_null revoked) ||
   ((ltr_stateText r =?? lit "active") && negb (tz_null activated) && tz_null started && tz_null deadline &&
    tz_null revoked) ||
   ((ltr_stateText r =?? lit "retiring") && negb (tz_null activated) && negb (tz_null started) &&
    negb (tz_null deadline) && tz_null revoked) ||
   ((ltr_stateText r =?? lit "revoked") && negb (tz_null revoked))).

(** A known state. *)
Definition known_state (s : DestinationTokenState) : Prop :=
  s = DestinationTokenStaged \/ s = DestinationTokenActive \/ s = DestinationTokenRetiring \/ s = DestinationTokenRevoked.

Lemma tz_leb_time x y : tz_leb (TzTime x) (TzTime y) = (x <=? y).
Proof.
  unfold tz_leb. simpl. destruct (decide (x = y)) as [->|Hne].
  - rewrite bool_decide_eq_true_2 by done. lia.
  - rewrite bool_decide_eq_false_2 by congruence. lia.
Qed.

Lemma tz_null_of t : tz_null (tz_of t) = (t =? 0).
Proof. unfold tz_of, t_is_zero. by destruct (t =? 0). Qed.

Lemma tz_of_time t : t <> 0 -> tz_of t = TzTime t.
Proof. unfold tz_of, t_is_zero. by destruct (Z.eqb_spec t 0). Qed.


(** The constraints on optional columns. *)
Lemma check_between c a ch :
  tz_null (tz_of a) || (tz_leb (TzTime c) (tz_of a) && tz_leb (tz_of a) (TzTime ch)) = true <->
  a = 0 \/ c <= a <= ch.
Proof.
  rewrite tz_null_of. destruct (Z.eqb_spec a 0) as [E|E]; [by split; auto|].
  rewrite tz_of_time, !tz_leb_time by done. lia.
Qed.

Lemma check_started a st ch :
  tz_null (tz_of st) ||
  (negb (tz_null (tz_of a)) && tz_leb (tz_of a) (tz_of st) && tz_leb (tz_of st) (TzTime ch)) = true <->
  st = 0 \/ a <> 0 /\ a <= st <= ch.
Proof.
  rewrite !tz_null_of. destruct (Z.eqb_spec st 0) as [E|E]; [by split; auto|].
  destruct (Z.eqb_spec a 0) as [Ea|Ea]; [simpl; split; [done|tauto]|].
  rewrite !tz_of_time, !tz_leb_time by done. lia.
Qed.

Lemma check_retirement st d overlap :
  (tz_null (tz_of st) && tz_null (tz_of d)) ||
  (negb (tz_null (tz_of st)) && negb (tz_null (tz_of d)) && tz_ltb (tz_of st) (tz_of d) &&
   tz_leb (tz_of d) (tz_plus (tz_of st) overlap)) = true <->
  st = 0 /\ d = 0 \/ st <> 0 /\ d <> 0 /\ st < d <= st + overlap.
Proof.
  rewrite !tz_null_of. destruct (Z.eqb_spec st 0) as [E|E], (Z.eqb_spec d 0) as [Ed|Ed]; simpl; try tauto; try lia.
  rewrite !tz_of_time by done. cbn [tz_ltb tz_plus]. rewrite tz_leb_time. lia.
Qed.

(** The check constraints of a stored token, on its values. *)
Definition columns_ok {zone : Zone} (t : DestinationToken) : Prop :=
  ts_RecordID t <> zero_arr 16 /\ is_Some (ts_Verifier t) /\ ts_VerifierKeyID t <> [] /\
  ts_CreatedAt t < ts_ExpiresAt t <= zone (ts_CreatedAt t) /\
  ts_CreatedAt t < ts_StagedCleanupDeadline t <= ts_CreatedAt t + tokenMaxCleanup /\
  ts_CreatedAt t <= ts_StateChangedAt t /\
  (ts_ActivatedAt t = 0 \/ ts_CreatedAt t <= ts_ActivatedAt t <= ts_StateChangedAt t) /\
  (ts_RetirementStartedAt t = 0 \/
   ts_ActivatedAt t <> 0 /\ ts_ActivatedAt t <= ts_RetirementStartedAt t <= ts_StateChangedAt t) /\
  (ts_RevokedAt t = 0 \/ ts_CreatedAt t <= ts_RevokedAt t <= ts_StateChangedAt t) /\
  (ts_RetirementStartedAt t = 0 /\ ts_RetirementDeadline t = 0 \/
   ts_RetirementStartedAt t <> 0 /\ ts_RetirementDeadline t <> 0 /\
   ts_RetirementStartedAt t < ts_RetirementDeadline t <= ts_RetirementStartedAt t + tokenMaxOverlap) /\
  (ts_State t = DestinationTokenStaged /\ ts_ActivatedAt t = 0 /\ ts_RetirementStartedAt t = 0 /\
   ts_RetirementDeadline t = 0 /\ ts_RevokedAt t = 0 \/
   ts_State t = DestinationTokenActive /\ ts_ActivatedAt t <> 0 /\ ts_RetirementStartedAt t = 0 /\
   ts_RetirementDeadline t = 0 /\ ts_RevokedAt t = 0 \/
   ts_State t = DestinationTokenRetiring /\ ts_ActivatedAt t <> 0 /\ ts_RetirementStartedAt t <> 0 /\
   ts_RetirementDeadline t <> 0 /\ ts_RevokedAt t = 0 \/
   ts_State t = DestinationTokenRevoked /\ ts_RevokedAt t <> 0).

Lemma verifier_column v : (length (match v with Some a => arr_list (n := 32) a | None => [] end) =?? 32%nat) = true <-> is_Some v.
Proof.
  destruct v as [a|]; rewrite bool_decide_eq_true; [|split; [done|by intros []]].
  rewrite arr_length. split; [by eauto|done].
Qed.

(** The text columns of a row say what its state is. *)
Lemma token_text_is s :
  known_state s ->
  (token_text s =?? lit "staged") = (s =? DestinationTokenStaged) /\
  (token_text s =?? lit "active") = (s =? DestinationTokenActive) /\
  (token_text s =?? lit "retiring") = (s =? DestinationTokenRetiring) /\
  (token_text s =?? lit "revoked") = (s =? DestinationTokenRevoked).
Proof. by intros [-> | [-> | [-> | ->]]]. Qed.

Lemma token_row_checks_iff {zone : Zone} t :
  known_state (ts_State t) -> token_row_checks (row_of_token t) = true <-> columns_ok t.
Proof.
  intros Hs. unfold token_row_checks, columns_ok, row_of_token.
  cbn [ltr_recordText ltr_verifierBytes ltr_keyIDText ltr_stateText ltr_createdAt ltr_activatedAt
    ltr_retirementStartedAt ltr_revokedAt ltr_expiresAt ltr_stagedCleanupDeadline ltr_retirementDeadline
    ltr_stateChangedAt]. cbv zeta.
  destruct (token_text_is _ Hs) as (-> & -> & -> & ->).
  rewrite !andb_true_iff, verifier_column, !check_between, check_started, check_retirement, !tz_null_of.
  cbn [tz_plus tz_plus_90_days tz_ltb]. rewrite !tz_leb_time, !negb_true_iff, !bool_decide_eq_false.
  assert (formatUUID (ts_RecordID t) <> formatUUID (zero_arr 16) <-> ts_RecordID t <> zero_arr 16) as ->.
  { split; [intros H E; apply H; by rewrite E|intros H E; by apply H, formatUUID_inj]. }
  unfold known_state, DestinationTokenStaged, DestinationTokenActive, DestinationTokenRetiring,
    DestinationTokenRevoked, tokenMaxLifetime, tokenMaxCleanup, tokenMaxOverlap in *.
  rewrite !Z.ltb_lt, !Z.leb_le. split.
  - intros [[[[[[[[[[[[[HR HV] HK] _] He1] He2] Hc1] Hc2] Hch] Ha] Hs'] Hre] Hret] Hst].
    do 10 (split; [by first [assumption|split; assumption]|]). clear -Hst. lia.
  - intros (HR & HV & HK & [He1 He2] & [Hc1 Hc2] & Hch & Ha & Hs' & Hre & Hret & Hst).
    do 13 (split; [|first [assumption|clear -Hst; lia]]). assumption.
Qed.

(** A token of a known state whose destination belongs to its audience, which
    the foreign keys ensure of a row. *)
Definition token_columns (t : DestinationToken) : Prop :=
  known_state (ts_State t) /\ ts_CreatedAt t <> 0 /\ ts_AudienceID t <> zero_arr 16 /\
  dst_audienceID (ts_Destination t) = ts_AudienceID t /\ dst_id (ts_Destination t) <> zero_arr 16.

Definition valid_token (t : DestinationToken) : Prop := NewDestinationToken t = Ok t.

Lemma token_checks_valid {zone : Zone} t :
  token_columns t ->
  token_row_checks (row_of_token t) = true /\ ts_ExpiresAt t <= ts_CreatedAt t + tokenMaxLifetime <->
  valid_token t /\ ts_ExpiresAt t <= zone (ts_CreatedAt t).
Proof.
  intros (Hstate & Hcreated & Haudience & Hdestination). unfold valid_token.
  rewrite token_row_checks_iff, NewDestinationToken_ok by done. unfold columns_ok. split.
  - intros [(Hr & Hv & Hk & [Hl Hl'] & Hc & Hch & Ha & Hs & Hre & Hret & Hst) Hm]. split; [|done]. split; [done|].
    split; [done|done|done|done|done| |].
    + clear -Hcreated Hch Ha Hs Hre Hret. unfold history_ok. lia.
    + clear -Hst. destruct Hst as [?|[?|[(? & ? & ? & _ & ?)|?]]]; [by left|by right; left|by right; right; left|by right; right; right].
  - intros [[_ [_ _ (Hr & Hv & Hk) [Hl Hl'] Hc (_ & Hch & Ha & Hd & Hs & Hre) Hst]] Hz]. split; [|done].
    split; [done|]. split; [done|]. split; [done|]. split; [done|]. split; [done|]. split; [done|].
    clear -Ha Hd Hs Hre Hst. split; [lia|]. split; [lia|]. split; [lia|]. split; [lia|].
    clear -Hd Hst. destruct Hst as [?|[?|[?|?]]]; [by left|by right; left| |by right; right; right].
    right; right; left. lia.
Qed.

(** A zone with short days admits only valid tokens. *)
Lemma checked_valid `{!ShortDays zone} t : token_columns t -> token_row_checks (row_of_token t) = true -> valid_token t.
Proof.
  intros Ht Hc. apply (token_checks_valid t Ht). split; [done|].
  apply token_row_checks_iff in Hc; [|apply Ht]. destruct Hc as (_ & _ & _ & [_ Hl] & _).
  pose proof (short_days (ts_CreatedAt t)). unfold tokenMaxLifetime. lia.
Qed.

(** A token with the longest lifetime the code permits, and one hour more. *)
Definition longest_token (extra : Duration) : DestinationToken :=
  mkTokenSpec sample_audience sample_destination (mk_arr 16 [x03]) (Some (mk_arr 32 [x04])) (lit "k") DestinationTokenStaged
    sample_t0 0 0 0 (sample_t0 + tokenMaxLifetime + extra) (sample_t0 + Hour) 0 sample_t0.

(** (C29) How far the schema and the code agree on what a token row is. For a
    token of a known state whose destination belongs to its audience (the
    foreign keys), the check constraints, evaluated in whatever time zone the
    session has, and the code's validation differ in the longest lifetime only:
    90 days of the calendar against 90 times 24 hours. Where the two are equal,
    as in every zone whose clock does not change in that time, the constraints
    accept the columns exactly when the code accepts the token. Where the clock
    goes forward in between, the schema refuses a token that the code accepts;
    where it goes back, it admits one that the code refuses. *)
Theorem schema_agrees :
  (forall (zone : Zone) t, token_columns t ->
     token_row_checks (row_of_token t) = true /\ ts_ExpiresAt t <= ts_CreatedAt t + tokenMaxLifetime <->
     valid_token t /\ ts_ExpiresAt t <= zone (ts_CreatedAt t)) /\
  (forall (zone : Zone) t, token_columns t -> zone (ts_CreatedAt t) = ts_CreatedAt t + tokenMaxLifetime ->
     token_row_checks (row_of_token t) = true <-> valid_token t) /\
  (exists t, token_columns t /\ valid_token t /\
     token_row_checks (zone := changing_zone (sample_t0 + 24 * Hour) Hour) (row_of_token t) = false) /\
  (exists t, token_columns t /\ ~ valid_token t /\
     token_row_checks (zone := changing_zone (sample_t0 + 24 * Hour) (- Hour)) (row_of_token t) = true).
Proof.
  assert (forall extra, token_columns (longest_token extra)) as Hcol.
  { intros extra. split; [by left|]. split_and!; first [done|vm_compute; discriminate]. }
  split_and!.
  - intros zone t Ht. by apply token_checks_valid.
  - intros zone t Ht Hz. pose proof (token_checks_valid t Ht) as Hv. rewrite Hz in Hv. split; intros H.
    + apply Hv. split; [done|]. apply token_row_checks_iff in H; [|apply Ht]. destruct H as (_ & _ & _ & [_ Hl] & _). lia.
    + apply Hv. split; [done|]. apply NewDestinationToken_ok in H as [_ []]. lia.
  - exists (longest_token 0). split; [done|]. split; vm_compute; reflexivity.
  - exists (longest_token Hour). split; [done|]. split; [|vm_compute; reflexivity]. vm_compute. discriminate.
Qed.

Lemma schema_agrees_witness :
  token_row_checks (zone := fixed_zone) (row_of_token sample_token_spec) = true <-> valid_token sample_token_spec.
Proof.
  apply (proj1 (proj2 schema_agrees) fixed_zone sample_token_spec).
  - split; [right; right; left; reflexivity|]. split_and!; vm_compute; first [discriminate|reflexivity].
  - reflexivity.
Defined.
