(* ===== verification/AuthSchema.v ===== *)
(** The tables of migrations/000002_security_state_v1.sql that request
    authentication reads and writes, with their constraints; the statements of
    internal/postgres/authentication_state.go executed over them; and what the
    repository answers over a database that satisfies its schema. *)

From Stdlib Require Import ZifyBool.
From S2P Require Import Prelude Effects Concurrency GoErrors GoTime Encoding Uuid Events Canonical PgTypes SecurityTypes.
From S2P Require Import Authentication AuthState TokenRows TokenSchema.

(** * The tables *)

(** gateway_security_realm. *)
Record realmTuple : Type := mkRealmTuple { re_singleton : bool; re_audience : arr 16 }.

(** core_principals. *)
Record principalTuple : Type := mkPrincipalTuple {
  pt_id : arr 16;
  pt_audience : arr 16;
  pt_enabled : bool;
  pt_authorized : bool;
  pt_created : Timestamptz;
  pt_changed : Timestamptz
}.

(** core_credential_slots. *)
Record slotTuple : Type := mkSlotTuple {
  sw_id : arr 16;
  sw_audience : arr 16;
  sw_principal : arr 16;
  sw_created : Timestamptz
}.

(** core_authentication_credentials. *)
Record credentialTuple : Type := mkCredentialTuple {
  ct_record : arr 16;
  ct_public : arr 16;
  ct_slot : arr 16;
  ct_audience : arr 16;
  ct_principal : arr 16;
  ct_state : bytes;
  ct_notBefore : Timestamptz;
  ct_expires : Timestamptz;
  ct_activated : Timestamptz;
  ct_started : Timestamptz;
  ct_deadline : Timestamptz;
  ct_revoked : Timestamptz;
  ct_created : Timestamptz;
  ct_changed : Timestamptz
}.

(** authentication_replay_reservations. *)
Record reservationTuple : Type := mkReservationTuple {
  rv_record : arr 16;
  rv_nonce : bytes;
  rv_reserved : Timestamptz;
  rv_expires : Timestamptz
}.

Record securityTables : Type := mkTables {
  tb_realm : list realmTuple;
  tb_principals : list principalTuple;
  tb_slots : list slotTuple;
  tb_credentials : list credentialTuple;
  tb_reservations : list reservationTuple
}.

(** * The constraints *)

Definition nonzero (id : arr 16) : bool := negb (arr_is_zero id).

Definition realm_checks (r : realmTuple) : bool := re_singleton r && nonzero (re_audience r).

Definition principal_checks (p : principalTuple) : bool :=
  negb (tz_null (pt_created p)) && negb (tz_null (pt_changed p)) &&
  nonzero (pt_id p) && tz_leb (pt_created p) (pt_changed p).

Definition slot_checks (s : slotTuple) : bool := negb (tz_null (sw_created s)) && nonzero (sw_id s).

(** The pattern of a version 4 identifier in the text of a [uuid]. *)
Definition v4_pattern (text : bytes) : bool :=
  (length text =?? 36%nat) &&
  forallb (fun i => let b := nth i text x00 in if bool_decide (i ∈ [8; 13; 18; 23]%nat) then b =?? x2d else is_lower_hex b)
    (seq 0 36) &&
  (text !! 14%nat =?? Some x34) &&
  ((text !! 19%nat =?? Some x38) || (text !! 19%nat =?? Some x39) ||
   (text !! 19%nat =?? Some x61) || (text !! 19%nat =?? Some x62)).

Definition credential_checks {zone : Zone} (c : credentialTuple) : bool :=
  let created := ct_created c in
  let changed := ct_changed c in
  let activated := ct_activated c in
  let started := ct_started c in
  let deadline := ct_deadline c in
  let revoked := ct_revoked c in
  let state := ct_state c in
  (* not null *)
  negb (tz_null (ct_notBefore c)) && negb (tz_null (ct_expires c)) && negb (tz_null created) && negb (tz_null changed) &&
  (* record_id_nonzero, public_id_v4, state *)
  nonzero (ct_record c) && v4_pattern (formatUUID (ct_public c)) &&
  ((state =?? lit "disabled") || (state =?? lit "active") || (state =?? lit "retiring") || (state =?? lit "revoked")) &&
  (* lifetime *)
  tz_leb created (ct_notBefore c) && tz_ltb (ct_notBefore c) (ct_expires c) &&
  tz_leb (ct_expires c) (tz_plus_90_days (ct_notBefore c)) &&
  (* state_time_order *)
  tz_leb created changed &&
  (tz_null activated || (tz_leb created activated && tz_leb activated changed)) &&
  (tz_null started || (negb (tz_null activated) && tz_leb activated started && tz_leb started changed)) &&
  (tz_null revoked || (tz_leb created revoked && tz_leb revoked changed)) &&
  (* retirement_bound *)
  ((tz_null started && tz_null deadline) ||
   (negb (tz_null started) && negb (tz_null deadline) && tz_ltb started deadline &&
    tz_leb deadline (tz_plus started (24 * Hour)))) &&
  (* state_fields *)
  (((state =?? lit "disabled") && tz_null revoked) ||
   ((state =?? lit "active") && negb (tz_null activated) && tz_null started && tz_null deadline && tz_null revoked) ||
   ((state =?? lit "retiring") && negb (tz_null activated) && negb (tz_null started) && negb (tz_null deadline) &&
    tz_null revoked) ||
   ((state =?? lit "revoked") && negb (tz_null revoked))).

Definition reservation_checks (r : reservationTuple) : bool :=
  negb (tz_null (rv_reserved r)) && negb (tz_null (rv_expires r)) && (length (rv_nonce r) =?? 16%nat) &&
  (rv_expires r =?? tz_plus (rv_reserved r) (5 * Minute)).

(** A unique key, and a reference to one. *)
Definition unique {A K} `{EqDecision K} (key : A -> K) (rows : list A) : bool := bool_decide (NoDup (map key rows)).

Definition references {A B K} `{EqDecision K} (from : A -> K) (to : B -> K) (rows : list A) (target : list B) : bool :=
  forallb (fun a => existsb (fun b => from a =?? to b) target) rows.

(** One row of a state for each slot. *)
Definition one_per_slot (state : bytes) (rows : list credentialTuple) : bool :=
  unique ct_slot (filter (fun c => ct_state c = state) rows).

(** Every constraint of the tables, in the time zone of the session. *)
Definition security_schema {zone : Zone} (db : securityTables) : bool :=
  forallb realm_checks (tb_realm db) && forallb principal_checks (tb_principals db) &&
  forallb slot_checks (tb_slots db) && forallb credential_checks (tb_credentials db) &&
  forallb reservation_checks (tb_reservations db) &&
  (* keys *)
  unique re_singleton (tb_realm db) && unique re_audience (tb_realm db) &&
  unique pt_id (tb_principals db) && unique sw_id (tb_slots db) &&
  unique ct_record (tb_credentials db) && unique ct_public (tb_credentials db) &&
  one_per_slot (lit "active") (tb_credentials db) && one_per_slot (lit "retiring") (tb_credentials db) &&
  unique (fun r => (rv_record r, rv_nonce r)) (tb_reservations db) &&
  (* references *)
  references pt_audience re_audience (tb_principals db) (tb_realm db) &&
  references (fun s => (sw_audience s, sw_principal s)) (fun p => (pt_audience p, pt_id p))
    (tb_slots db) (tb_principals db) &&
  references (fun c => (ct_audience c, ct_principal c, ct_slot c)) (fun s => (sw_audience s, sw_principal s, sw_id s))
    (tb_credentials db) (tb_slots db) &&
  references rv_record ct_record (tb_reservations db) (tb_credentials db).

(** * The statements *)

(** Scanning a column into a [time.Time]. *)
Definition scan_time (value : Timestamptz) : result Time :=
  match value with TzTime t => Ok t | _ => Err (Foreign (plain_foreign 1) false []) end.

(** [min] of the texts. *)
Definition min_text (texts : list bytes) : bytes :=
  match texts with [] => [] | t :: ts => foldl (fun a b => if bytes_leb a b then a else b) t ts end.

(** [selectBoundAudienceSQL]. *)
Definition select_audience (db : securityTables) : audienceRow :=
  mkAudienceRow (Z.of_nat (length (tb_realm db))) (min_text (map (fun r => formatUUID (re_audience r)) (tb_realm db)))
    (match tb_realm db with [] => false | rs => forallb re_singleton rs end).

(** A left join: the matching rows, or one row of nulls. *)
Definition left_join {A} (rows : list A) : list (option A) := match rows with [] => [None] | _ => map Some rows end.

(** [selectCredentialSQL]: the joined rows. *)
Definition credential_join (db : securityTables) (public : bytes)
  : list (credentialTuple * option slotTuple * option principalTuple) :=
  c ← filter (fun c => formatUUID (ct_public c) = public) (tb_credentials db);
  s ← left_join (filter (fun s => sw_id s = ct_slot c) (tb_slots db));
  p ← left_join (filter (fun p => pt_id p = ct_principal c) (tb_principals db));
  [(c, s, p)].

Definition tz_col {A} (col : A -> Timestamptz) (row : option A) : Timestamptz :=
  match row with Some a => col a | None => TzNull end.

(** [QueryRow(...).Scan(...)] of [selectCredentialSQL]. *)
Definition select_credential (db : securityTables) (audience public : bytes) : result credentialRecord :=
  let rows := credential_join db public in
  match rows with
  | [] => Err ErrNoRows
  | (c, s, p) :: _ =>
      match scan_time (ct_notBefore c), scan_time (ct_expires c), scan_time (ct_created c), scan_time (ct_changed c) with
      | Ok notBefore, Ok expires, Ok created, Ok changed =>
          Ok (mkCredentialRecord (Z.of_nat (length rows)) (formatUUID (ct_audience c) =?? audience)
                (formatUUID (ct_record c)) (formatUUID (ct_public c)) (formatUUID (ct_slot c))
                (formatUUID (ct_audience c)) (formatUUID (ct_principal c)) (ct_state c)
                notBefore expires (ct_activated c) (ct_started c) (ct_deadline c) (ct_revoked c) created changed
                ((fun s => formatUUID (sw_id s)) <$> s) ((fun s => formatUUID (sw_audience s)) <$> s)
                ((fun s => formatUUID (sw_principal s)) <$> s) (tz_col sw_created s)
                ((fun p => formatUUID (pt_id p)) <$> p) ((fun p => formatUUID (pt_audience p)) <$> p)
                (pt_enabled <$> p) (pt_authorized <$> p) (tz_col pt_created p) (tz_col pt_changed p))
      | _, _, _, _ => Err (Foreign (plain_foreign 1) false [])
      end
  end.

(** [QueryRow(...).Scan(...)] of [selectPrincipalSQL]. *)
Definition select_principal (db : securityTables) (audience principal : bytes) : result principalRow :=
  let rows := filter (fun p => formatUUID (pt_audience p) = audience /\ formatUUID (pt_id p) = principal)
    (tb_principals db) in
  match rows with
  | [] => Err ErrNoRows
  | p :: _ =>
      match scan_time (pt_created p), scan_time (pt_changed p) with
      | Ok created, Ok changed =>
          Ok (mkPrincipalRow (Z.of_nat (length rows)) (formatUUID (pt_id p)) (formatUUID (pt_audience p))
                (pt_enabled p) (pt_authorized p) created changed)
      | _, _ => Err (Foreign (plain_foreign 1) false [])
      end
  end.

#[local] Arguments select_credential : simpl never.
#[local] Arguments select_principal : simpl never.
#[local] Arguments formatUUID : simpl never.

(** The row [insertReplayReservationSQL] proposes. *)
Definition proposed_reservation (record : arr 16) (nonce : bytes) (now expiresAt : Time) : reservationTuple :=
  mkReservationTuple record nonce (TzTime (pg_time now)) (TzTime (pg_time expiresAt)).

(** * Values in the tables *)

(** The columns of a credential. *)
Definition tuple_of_credential (k : Credential) : credentialTuple :=
  mkCredentialTuple (cs_RecordID k) (cs_PublicID k) (sl_id (cs_Slot k)) (cs_AudienceID k) (p_id (cs_Principal k))
    (state_text (cs_State k)) (TzTime (cs_NotBefore k)) (TzTime (cs_ExpiresAt k))
    (tz_of (cs_ActivatedAt k)) (tz_of (cs_RetirementStartedAt k)) (tz_of (cs_RetirementDeadline k))
    (tz_of (cs_RevokedAt k)) (TzTime (cs_CreatedAt k)) (TzTime (cs_StateChangedAt k)).

Definition principal_of (p : principalTuple) : Principal :=
  mkPrincipal (pt_audience p) (pt_id p) (pt_enabled p) (pt_authorized p) (tz_time (pt_created p)) (tz_time (pt_changed p)).

Definition slot_of (s : slotTuple) : CredentialSlot :=
  mkSlot (sw_audience s) (sw_principal s) (sw_id s) (tz_time (sw_created s)).

Definition state_of (text : bytes) : CredentialState :=
  match credentialState text with Ok s => s | Err _ => 0 end.

(** The credential of three rows. *)
Definition credential_of (c : credentialTuple) (s : slotTuple) (p : principalTuple) : Credential :=
  mkCredentialSpec (ct_audience c) (principal_of p) (slot_of s) (ct_record c) (ct_public c) (state_of (ct_state c))
    (tz_time (ct_notBefore c)) (tz_time (ct_expires c)) (tz_time (ct_activated c)) (tz_time (ct_started c))
    (tz_time (ct_deadline c)) (tz_time (ct_revoked c)) (tz_time (ct_created c)) (tz_time (ct_changed c)).

(** Every stored instant is finite and not the zero time of Go. *)
Definition finite (v : Timestamptz) : bool := finiteTimestamp v.
Definition finite_or_null (v : Timestamptz) : bool := tz_null v || finite v.

Definition finite_credential (c : credentialTuple) : bool :=
  finite (ct_notBefore c) && finite (ct_expires c) && finite (ct_created c) && finite (ct_changed c) &&
  finite_or_null (ct_activated c) && finite_or_null (ct_started c) && finite_or_null (ct_deadline c) &&
  finite_or_null (ct_revoked c).

Definition finite_times (db : securityTables) : bool :=
  forallb (fun p => finite (pt_created p) && finite (pt_changed p)) (tb_principals db) &&
  forallb (fun s => finite (sw_created s)) (tb_slots db) && forallb finite_credential (tb_credentials db).

Lemma finite_or_null_of v : finite_or_null v = true -> v = tz_of (tz_time v).
Proof.
  unfold finite_or_null. destruct v as [|n|t]; cbn; [done|done|]. intros H. rewrite tz_of_time; [done|].
  unfold_time. lia.
Qed.

Lemma finite_of v : finite v = true -> v = TzTime (tz_time v) /\ tz_time v <> 0.
Proof. apply finiteTimestamp_true. Qed.

Lemma version_digit b : (Some (hexDigit (bZ b / 16)) =?? Some x34) = (Z.shiftr (bZ b) 4 =? 4).
Proof. apply eqb_prop. byte_cases b. Qed.

Lemma variant_digit b :
  (let d := Some (hexDigit (bZ b / 16)) in (d =?? Some x38) || (d =?? Some x39) || (d =?? Some x61) || (d =?? Some x62)) =
  (Z.shiftr (bZ b) 6 =? 2).
Proof. apply eqb_prop. byte_cases b. Qed.

Lemma high_digit_lower b : is_lower_hex (hexDigit (bZ b / 16)) = true.
Proof. byte_cases b. Qed.

Lemma low_digit_lower b : is_lower_hex (hexDigit (bZ b mod 16)) = true.
Proof. byte_cases b. Qed.

(** The pattern is the version and the variant of the identifier. *)
Lemma v4_pattern_text (id : arr 16) : v4_pattern (formatUUID id) = is_v4 id.
Proof.
  destruct id as [l Hl]. pose proof Hl as H. apply Nat.eqb_eq in H.
  do 16 (destruct l as [|? l]; [discriminate|]). destruct l; [|discriminate].
  unfold is_v4, uuid_byte. cbn [arr_list nth]. rewrite <- version_digit, <- variant_digit. unfold v4_pattern.
  match goal with |- ?a && ?b && ?c && ?d = _ => assert (a = true) as -> by reflexivity; assert (b = true) as -> end.
  { lazy -[hexDigit is_lower_hex Z.div Z.modulo bZ]. rewrite !high_digit_lower, !low_digit_lower. reflexivity. }
  reflexivity.
Qed.

(** The columns a query returns of a state. *)
Definition known_credential_state (s : CredentialState) : Prop :=
  s = CredentialDisabled \/ s = CredentialActive \/ s = CredentialRetiring \/ s = CredentialRevoked.

Lemma state_text_is s :
  known_credential_state s ->
  (state_text s =?? lit "disabled") = (s =? CredentialDisabled) /\
  (state_text s =?? lit "active") = (s =? CredentialActive) /\
  (state_text s =?? lit "retiring") = (s =? CredentialRetiring) /\
  (state_text s =?? lit "revoked") = (s =? CredentialRevoked).
Proof. by intros [-> | [-> | [-> | ->]]]. Qed.

(** The check constraints on the columns of a credential give what the code
    asks of it beyond its references. *)
Lemma credential_checks_valid `{!ShortDays zone} k :
  known_credential_state (cs_State k) -> cs_CreatedAt k <> 0 -> cs_AudienceID k <> zero_arr 16 ->
  p_audienceID (cs_Principal k) = cs_AudienceID k ->
  sl_audienceID (cs_Slot k) = cs_AudienceID k -> sl_principalID (cs_Slot k) = p_id (cs_Principal k) ->
  sl_id (cs_Slot k) <> zero_arr 16 ->
  credential_checks (tuple_of_credential k) = true -> credential_ok k /\ is_v4 (cs_PublicID k) = true.
Proof.
  intros Hs Hc Ha Hp Hsa Hsp Hsl. unfold credential_checks, tuple_of_credential.
  cbn [ct_record ct_public ct_slot ct_audience ct_principal ct_state ct_notBefore ct_expires ct_activated ct_started
    ct_deadline ct_revoked ct_created ct_changed tz_null negb andb]. cbv zeta.
  destruct (state_text_is _ Hs) as (-> & -> & -> & ->). unfold nonzero.
  rewrite !andb_true_iff, v4_pattern_text, !check_between, check_started, check_retirement, !tz_null_of.
  cbn [tz_plus tz_plus_90_days tz_ltb]. rewrite !tz_leb_time, !negb_true_iff, arr_is_zero_false.
  unfold known_credential_state, CredentialDisabled, CredentialActive, CredentialRetiring, CredentialRevoked in *.
  rewrite Z.ltb_lt, !Z.leb_le. intros [[[[[[[[[[[HR HV] _] Hl1] Hl2] Hl3] Hch] Hac] Hst] Hre] Hret] Hfields].
  pose proof (short_days (cs_NotBefore k)) as Hdays.
  split; [|done]. split; [done|done|done| | | |].
  - split; [done|]. split; [by apply arr_is_zero_false, v4_nonzero|done].
  - split; [done|]. unfold credentialMaxLifetime, Hour, Minute, Second in *. lia.
  - unfold history_ok, credentialMaxOverlap. clear -Hc Hch Hac Hst Hre Hret. lia.
  - unfold CredentialDisabled, CredentialActive, CredentialRetiring, CredentialRevoked. clear -Hfields. lia.
Qed.

(** * What the constraints say *)

Lemma unique_filter {A K} `{EqDecision K} (key : A -> K) (P : A -> Prop) `{!forall x, Decision (P x)} rows a :
  unique key rows = true -> a ∈ rows -> P a -> (forall x, P x -> key x = key a) -> filter P rows = [a].
Proof.
  unfold unique. rewrite bool_decide_eq_true. intros Hnd Ha HP Hkey.
  induction rows as [|x rows IH]; [by apply elem_of_nil in Ha|].
  cbn in Hnd. apply NoDup_cons in Hnd as [Hx Hnd]. apply elem_of_cons in Ha as [->|Ha].
  - rewrite filter_cons_True by done. f_equal. apply elem_of_nil_inv. intros y [Hy Hin]%list_elem_of_filter.
    apply Hx. rewrite <- (Hkey y Hy). by apply list_elem_of_fmap_2.
  - rewrite filter_cons_False; [by apply IH|]. intros E%Hkey. apply Hx. rewrite E. by apply list_elem_of_fmap_2.
Qed.

Lemma references_elem {A B K} `{EqDecision K} (from : A -> K) (to : B -> K) rows target a :
  references from to rows target = true -> a ∈ rows -> exists b, b ∈ target /\ from a = to b.
Proof.
  unfold references. rewrite forallb_forall. intros H Ha%list_elem_of_In%H. apply existsb_exists in Ha as (b & Hb & E).
  apply bool_decide_eq_true in E. exists b. by rewrite list_elem_of_In.
Qed.

Lemma forallb_elem {A} (P : A -> bool) rows a : forallb P rows = true -> a ∈ rows -> P a = true.
Proof. rewrite forallb_forall. intros H Ha. by apply H, list_elem_of_In. Qed.

(** The constraints, one by one. *)
Record schema_facts {zone : Zone} (db : securityTables) : Prop := {
  sf_realm : forallb realm_checks (tb_realm db) = true;
  sf_principals : forallb principal_checks (tb_principals db) = true;
  sf_slots : forallb slot_checks (tb_slots db) = true;
  sf_credentials : forallb credential_checks (tb_credentials db) = true;
  sf_singleton : unique re_singleton (tb_realm db) = true;
  sf_principal_key : unique pt_id (tb_principals db) = true;
  sf_slot_key : unique sw_id (tb_slots db) = true;
  sf_public_key : unique ct_public (tb_credentials db) = true;
  sf_principal_realm : references pt_audience re_audience (tb_principals db) (tb_realm db) = true;
  sf_slot_principal : references (fun s => (sw_audience s, sw_principal s)) (fun p => (pt_audience p, pt_id p))
    (tb_slots db) (tb_principals db) = true;
  sf_credential_slot : references (fun c => (ct_audience c, ct_principal c, ct_slot c))
    (fun s => (sw_audience s, sw_principal s, sw_id s)) (tb_credentials db) (tb_slots db) = true
}.

Lemma security_schema_facts {zone : Zone} db : security_schema db = true -> schema_facts db.
Proof. unfold security_schema. rewrite !andb_true_iff. intros H. destruct_ex. by split. Qed.

Lemma finite_times_facts db :
  finite_times db = true ->
  forallb (fun p => finite (pt_created p) && finite (pt_changed p)) (tb_principals db) = true /\
  forallb (fun s => finite (sw_created s)) (tb_slots db) = true /\
  forallb finite_credential (tb_credentials db) = true.
Proof. unfold finite_times. rewrite !andb_true_iff. tauto. Qed.

Section Database.
Context {zone : Zone} `{!ShortDays zone} (db : securityTables) (Hschema : schema_facts db) (Hfinite : finite_times db = true).

(** One realm at most. *)
Lemma realm_is r : r ∈ tb_realm db -> tb_realm db = [r].
Proof.
  assert (forall r, r ∈ tb_realm db -> re_singleton r = true) as Hs.
  { intros x Hx. apply (forallb_elem _ _ _ (sf_realm _ Hschema)) in Hx.
    unfold realm_checks in Hx. by apply andb_true_iff in Hx as [? _]. }
  intros Hr. pose proof (sf_singleton _ Hschema) as Hu. unfold unique in Hu. apply bool_decide_eq_true in Hu.
  destruct (tb_realm db) as [|x [|y rows]]; [by apply elem_of_nil in Hr|by apply list_elem_of_singleton in Hr as ->|].
  exfalso. apply NoDup_cons in Hu as [Hx _]. apply Hx. cbn. rewrite (Hs x) by apply list_elem_of_here.
  rewrite (Hs y) by apply list_elem_of_further, list_elem_of_here. apply list_elem_of_here.
Qed.

Lemma principal_facts p :
  p ∈ tb_principals db ->
  principal_ok (principal_of p) /\ p_stateChangedAt (principal_of p) <> 0 /\
  pt_created p = TzTime (tz_time (pt_created p)) /\ pt_changed p = TzTime (tz_time (pt_changed p)) /\
  exists r, r ∈ tb_realm db /\ re_audience r = pt_audience p.
Proof.
  intros Hp. destruct (finite_times_facts _ Hfinite) as (Hfp & _ & _).
  pose proof (forallb_elem _ _ _ (sf_principals _ Hschema) Hp) as Hc.
  pose proof (forallb_elem _ _ _ Hfp Hp) as Hf.
  destruct (references_elem _ _ _ _ _ (sf_principal_realm _ Hschema) Hp) as (r & Hr & E).
  pose proof (forallb_elem _ _ _ (sf_realm _ Hschema) Hr) as Hrc.
  cbn beta in Hf. apply andb_true_iff in Hf as [[E1 Hz1]%finite_of [E2 Hz2]%finite_of].
  unfold principal_checks, realm_checks, nonzero in *. rewrite !andb_true_iff, !negb_true_iff in Hc. rewrite andb_true_iff, negb_true_iff in Hrc.
  destruct Hc as [[_ Hid%arr_is_zero_false] Ho], Hrc as [_ Hra%arr_is_zero_false].
  rewrite E1, E2, tz_leb_time, Z.leb_le in Ho.
  split; [split; [cbn; congruence|done]|]. split; [done|]. split; [done|]. split; [done|]. by exists r.
Qed.

(** A stored credential has its slot and its principal, and no others. *)
Lemma credential_join_one c :
  c ∈ tb_credentials db ->
  exists s p, credential_join db (formatUUID (ct_public c)) = [(c, Some s, Some p)] /\ s ∈ tb_slots db /\ p ∈ tb_principals db /\
    (sw_audience s, sw_principal s, sw_id s) = (ct_audience c, ct_principal c, ct_slot c) /\
    (pt_audience p, pt_id p) = (ct_audience c, ct_principal c).
Proof.
  intros Hc.
  destruct (references_elem _ _ _ _ _ (sf_credential_slot _ Hschema) Hc) as (s & Hs & Es).
  destruct (references_elem _ _ _ _ _ (sf_slot_principal _ Hschema) Hs) as (p & Hp & Ep).
  injection Es as Es1 Es2 Es3. injection Ep as Ep1 Ep2.
  exists s, p. split; [|split_and!; [done|done|congruence|congruence]].
  unfold credential_join. rewrite (unique_filter _ _ _ c (sf_public_key _ Hschema) Hc) by (try done; intros x; apply formatUUID_inj).
  cbn. rewrite (unique_filter _ _ _ s (sf_slot_key _ Hschema) Hs) by (intros; congruence). cbn.
  rewrite (unique_filter _ _ _ p (sf_principal_key _ Hschema) Hp) by (intros; congruence). done.
Qed.

Lemma credential_join_none id :
  (forall c, c ∈ tb_credentials db -> ct_public c <> id) -> credential_join db (formatUUID id) = [].
Proof.
  intros H. unfold credential_join. assert (filter (fun c => formatUUID (ct_public c) = formatUUID id) (tb_credentials db) = []) as ->; [|done].
  apply elem_of_nil_inv. intros c [E Hc]%list_elem_of_filter. apply formatUUID_inj in E. by apply (H c).
Qed.

(** The credential of a stored row, valid and read back as it is. *)
Lemma credential_stored c :
  c ∈ tb_credentials db ->
  exists s p, credential_join db (formatUUID (ct_public c)) = [(c, Some s, Some p)] /\ p ∈ tb_principals db /\
    pt_audience p = ct_audience c /\ stored_ok (credential_of c s p) /\
    select_credential db (formatUUID (ct_audience c)) (formatUUID (ct_public c)) = Ok (row_of_credential (credential_of c s p)).
Proof.
  intros Hc. destruct (credential_join_one c Hc) as (s & p & Ej & Hs & Hp & Es & Ep). injection Es as Es1 Es2 Es3.
  injection Ep as Ep1 Ep2. exists s, p. split; [done|]. split; [done|]. split; [done|].
  destruct (principal_facts p Hp) as ((Ha & Hid & Hpc & Hpo) & Hpch & E1 & E2 & _).
  destruct (finite_times_facts _ Hfinite) as (_ & Hfs & Hfc).
  pose proof (forallb_elem _ _ _ (sf_slots _ Hschema) Hs) as Hsc.
  pose proof (forallb_elem _ _ _ (sf_credentials _ Hschema) Hc) as Hcc.
  pose proof (forallb_elem _ _ _ Hfc Hc) as Hcf.
  pose proof (forallb_elem _ _ _ Hfs Hs) as Hsf.
  cbn beta in Hsf. apply finite_of in Hsf as [E3 Hz3].
  unfold slot_checks, nonzero in Hsc. rewrite andb_true_iff, !negb_true_iff, arr_is_zero_false in Hsc. destruct Hsc as [_ Hsid].
  unfold finite_credential in Hcf. rewrite !andb_true_iff in Hcf.
  destruct Hcf as [[[[[[[[F1 _]%finite_of [F2 _]%finite_of] [F3 Hz]%finite_of] [F4 _]%finite_of] F5%finite_or_null_of] F6%finite_or_null_of] F7%finite_or_null_of] F8%finite_or_null_of].
  assert (known_credential_state (state_of (ct_state c)) /\ ct_state c = state_text (state_of (ct_state c))) as [Hk Est].
  { unfold credential_checks in Hcc. cbv zeta in Hcc. rewrite !andb_true_iff, !orb_true_iff, !bool_decide_eq_true in Hcc.
    destruct Hcc as [[[[[[[[[[_ Hst] _] _] _] _] _] _] _] _] _].
    unfold known_credential_state. destruct Hst as [[[-> | ->] | ->] | ->]; vm_compute; auto. }
  assert (tuple_of_credential (credential_of c s p) = c) as Etup.
  { destruct c. unfold tuple_of_credential, credential_of. cbn in *. f_equal; congruence. }
  split.
  - assert (credential_ok (credential_of c s p) /\ is_v4 (ct_public c) = true) as [Hok Hv].
    { apply (credential_checks_valid (credential_of c s p)); [exact Hk|exact Hz|..|by rewrite Etup].
      all: cbn in *; congruence. }
    split; [done|done|by cbn in *|done|done].
  - unfold select_credential. rewrite Ej. cbv zeta. rewrite F1, F2, F3, F4. cbn [scan_time length].
    f_equal. unfold row_of_credential, credential_of. cbn. rewrite bool_decide_eq_true_2 by done.
    rewrite <- F5, <- F6, <- F7, <- F8, <- Est, <- E1, <- E2, <- E3, Es1, Es2, Es3, Ep1, Ep2. done.
Qed.

(** The rows of a principal. *)
Lemma principal_selected p :
  p ∈ tb_principals db ->
  select_principal db (formatUUID (pt_audience p)) (formatUUID (pt_id p)) = Ok (principal_row (principal_of p)).
Proof.
  intros Hp. destruct (principal_facts p Hp) as (_ & _ & E1 & E2 & _). unfold select_principal.
  rewrite (unique_filter _ _ _ p (sf_principal_key _ Hschema) Hp) by (try done; by intros x [_ E%formatUUID_inj]).
  rewrite E1, E2. done.
Qed.

End Database.

(** * The repository over the tables *)

(** A query is answered from the tables, or the connection fails. *)
Definition served {A} (answer : result A) (r : option (result A)) : Prop :=
  r = Some answer \/ r = None \/ exists e, r = Some (Err e) /\ is_sentinel e ErrNoRows = false.

Definition answered (db : securityTables) (e : event StateE) : Prop :=
  match e with
  | existT (StSelectAudience _) r => served (Ok (select_audience db)) r
  | existT (StSelectCredential _ audience public) r => served (select_credential db audience public) r
  | existT (StSelectPrincipal _ audience principal) r => served (select_principal db audience principal) r
  | _ => True
  end.

(** A call that does not fail. *)
Definition healthy (db : securityTables) (e : event StateE) : Prop :=
  match e with
  | existT (StAcquire _) a => a = (true, None)
  | existT (StCtxErr _) c => c = None
  | existT (StSelectAudience _) r => r = Some (Ok (select_audience db))
  | existT (StSelectCredential _ audience public) r => r = Some (select_credential db audience public)
  | existT (StSelectPrincipal _ audience principal) r => r = Some (select_principal db audience principal)
  | _ => True
  end.

Definition usable (repository : option StateRepository) (ctx : Ctx) : Prop :=
  exists rp, repository = Some rp /\ acquire_is_nil rp = false /\ ctx_is_nil ctx = false.

(** The stored credential with a public id. *)
Definition stored_credential (db : securityTables) (id : CredentialID) : result Credential :=
  match credential_join db (formatUUID id) with
  | (c, Some s, Some p) :: _ => Ok (credential_of c s p)
  | _ => Err ErrCredentialNotFound
  end.

Section Reads.
Context (db : securityTables) (repository : option StateRepository) (ctx : Ctx).

(** The read failed, because a call did. *)
Definition read_failed {A} (tr : trace StateE) (r : result A) : Prop :=
  exists e, r = Err e /\ transport_error e /\ (usable repository ctx -> ~ Forall (healthy db) tr).

Lemma contextSentinel_healthy e tr c :
  runs (contextSentinel ctx e) tr c -> opt_errors_is e Canceled = false -> opt_errors_is e DeadlineExceeded = false ->
  Forall (healthy db) tr -> c = None.
Proof.
  unfold contextSentinel, ctxErrIs. intros H E1 E2. rewrite E1, E2 in H.
  destruct (ctx_is_nil ctx); cbn [bind] in H; [by destruct H|].
  intros Hh. destruct H as (c1 & t1 & -> & H). apply Forall_cons in Hh as [-> Hh]. cbn in H.
  destruct H as (c2 & t2 & -> & H). apply Forall_cons in Hh as [-> _]. by destruct H.
Qed.

Lemma readConnection_healthy o tr r :
  usable repository ctx -> runs (readConnection repository ctx o) tr r -> Forall (healthy db) tr -> r = Ok tt.
Proof.
  intros (rp & -> & Ha & Hc) H Hh. unfold readConnection in H. rewrite Ha, Hc in H. cbn [orb] in H.
  apply runs_bind in H as (t1 & t2 & c & -> & H1 & H). apply Forall_app in Hh as [Hh1 Hh].
  rewrite (contextSentinel_healthy _ _ _ H1) in H by done. destruct H as (a & t3 & -> & H).
  apply Forall_cons in Hh as [-> _]. by destruct H.
Qed.

Lemma runs_read_served {A} o (q : op StateE) (f : ans StateE q -> prog StateE (result A)) tr r :
  runs (let! opened := readConnection repository ctx o in
        match opened with Err e => Ret (Err e) | Ok _ => bind (@call StateE q) f end) tr r ->
  read_failed tr r \/ exists x t1 t2, tr = t1 ++ @ev StateE q x :: t2 /\ runs (f x) t2 r.
Proof.
  intros H. apply runs_bind in H as (t1 & t2 & opened & -> & Ho & H).
  destruct (readConnection_result _ _ _ _ _ Ho) as [-> | (e & -> & He)].
  - right. destruct H as (x & t3 & -> & H). eauto.
  - left. destruct H as [-> ->]. exists e. split; [done|]. split; [done|]. intros Hu Hh.
    apply Forall_app in Hh as [Hh _]. apply (readConnection_healthy _ _ _ Hu Ho) in Hh. done.
Qed.

(** A failure after the query. *)
Lemma failed_after {A} t1 (q : op StateE) (x : ans StateE q) t2 (e : error) :
  transport_error e -> (Forall (healthy db) t2 -> ~ healthy db (@ev StateE q x)) ->
  read_failed (A := A) (t1 ++ @ev StateE q x :: t2) (Err e).
Proof.
  intros He Hn. exists e. split; [done|]. split; [done|]. intros _ Hh.
  apply Forall_app in Hh as [_ Hh]. apply Forall_cons in Hh as [Hx Hh]. by apply Hn.
Qed.

Lemma finish_forall {A} (P : event StateE -> Prop) destroy (p : prog StateE A) tr a :
  runs (bind (finish destroy) (fun _ => p)) tr a -> exists tr', runs p tr' a /\ (Forall P tr -> Forall P tr').
Proof.
  unfold finish. destruct destroy; intros (u & t & -> & H); exists t; (split; [exact H|]); by intros [_ ?]%Forall_cons.
Qed.

(** What the schema leaves of the three reads. *)
Context {zone : Zone} `{!ShortDays zone} (Hschema : schema_facts db) (Hfinite : finite_times db = true).

Lemma realm_nonzero x : x ∈ tb_realm db -> re_singleton x = true /\ arr_is_zero (re_audience x) = false.
Proof.
  intros Hx. pose proof (forallb_elem _ _ _ (sf_realm _ Hschema) Hx) as Hc. unfold realm_checks, nonzero in Hc.
  by apply andb_true_iff in Hc as [? ?%negb_true_iff].
Qed.

Lemma BoundAudience_served tr r x :
  x ∈ tb_realm db -> runs (repo_BoundAudience repository ctx) tr r -> Forall (answered db) tr ->
  r = Ok (re_audience x) \/ read_failed tr r.
Proof.
  intros Hx H Ha. apply runs_read_served in H as [H|(row & t1 & t2 & -> & H)]; [by right|].
  apply Forall_app in Ha as [_ Ha]. apply Forall_cons in Ha as [Ha _]. cbn in Ha.
  destruct row as [[row|e]|]; apply (finish_forall (healthy db)) in H as (t3 & H & Hh).
  - left. destruct H as [_ ->]. destruct Ha as [[= ->]|[?|(e & ? & _)]]; [|done..].
    apply audienceOfRow_ok. destruct (realm_nonzero x Hx) as [Hs Hz%arr_is_zero_false].
    unfold select_audience, audience_row. rewrite (realm_is _ Hschema x Hx). cbn. rewrite Hs. done.
  - right. apply runs_bind in H as (t4 & t5 & e' & -> & He & [_ ->]).
    apply failed_after; [by eapply repositoryReadError_result|]. done.
  - right. destruct H as [_ ->]. apply failed_after; [apply safeError_transport; in_list|done].
Qed.

(** The answer of the tables for the bound audience. *)
Lemma credential_answer id x :
  x ∈ tb_realm db ->
  (exists k, select_credential db (formatUUID (re_audience x)) (formatUUID id) = Ok (row_of_credential k) /\
     stored_credential db id = Ok k /\ stored_ok k /\ cs_AudienceID k = re_audience x /\ cs_PublicID k = id) \/
  (select_credential db (formatUUID (re_audience x)) (formatUUID id) = Err ErrNoRows /\
   stored_credential db id = Err ErrCredentialNotFound).
Proof.
  intros Hx. destruct (decide (Exists (fun c => ct_public c = id) (tb_credentials db))) as [Hex|Hno].
  - left. apply Exists_exists in Hex as (c & Hin & <-).
    destruct (credential_stored _ Hschema Hfinite c Hin) as (s & p & Ej & Hp & Ep & Hok & Esel).
    destruct (principal_facts _ Hschema Hfinite p Hp) as (_ & _ & _ & _ & y & Hy & Ey).
    rewrite (realm_is _ Hschema x Hx) in Hy. apply list_elem_of_singleton in Hy as ->.
    exists (credential_of c s p). rewrite Ey, Ep. split; [done|]. split; [|done].
    unfold stored_credential. by rewrite Ej.
  - right. assert (credential_join db (formatUUID id) = []) as Ej.
    { apply credential_join_none. intros c Hin E. apply Hno, Exists_exists. eauto. }
    unfold select_credential, stored_credential. by rewrite Ej.
Qed.

Lemma Credential_served tr r id x :
  x ∈ tb_realm db -> is_v4 id = true -> runs (repo_Credential repository ctx (re_audience x) id) tr r ->
  Forall (answered db) tr -> r = stored_credential db id \/ read_failed tr r.
Proof.
  intros Hx Hv H Ha. unfold repo_Credential in H.
  rewrite (proj2 (realm_nonzero x Hx)), (v4_nonzero _ Hv) in H.
  unfold ParseCredentialID in H. rewrite state_parse_format, bool_decide_eq_true_2 in H; [|done|by apply v4_nonzero|done].
  cbn [orb negb] in H. apply runs_read_served in H as [H|(row & t1 & t2 & -> & H)]; [by right|].
  apply Forall_app in Ha as [_ Ha]. apply Forall_cons in Ha as [Ha _]. cbn in Ha.
  destruct row as [scanned|]; [|apply finish_read in H as (t3 & _ & ->); right;
    apply failed_after; [apply safeError_transport; in_list|done]].
  apply runs_bind in H as (t3 & t4 & [c|] & -> & Hk & H).
  { apply finish_read in H as (t5 & _ & ->). right.
    apply failed_after; [by eapply safeError_transport, contextSentinel_kind|].
    intros [Hh _]%Forall_app Hx'. cbn in Hx'. injection Hx' as ->. apply (contextSentinel_healthy _ _ _ Hk) in Hh; [done|..].
    all: by destruct (credential_answer id x Hx) as [(k & -> & _)|[-> _]]. }
  destruct scanned as [record|e].
  - left. apply finish_read in H as [t5 H]. destruct Ha as [Ha|[?|(e & ? & _)]]; [|done..].
    destruct (credential_answer id x Hx) as [(k & Ek & -> & Hok & Hka & Hkp)|[Ek _]]; rewrite Ek in Ha; [|done].
    injection Ha as ->.
    rewrite (proj2 (record_credential_iff (row_of_credential k) (re_audience x) id k)) in H by done. by destruct H.
  - destruct (is_sentinel e ErrNoRows) eqn:E; apply finish_read in H as [t5 H].
    + left. apply is_sentinel_true in E as ->. destruct Ha as [Ha|[?|(e & [= <-] & ?)]]; [|done..].
      destruct (credential_answer id x Hx) as [(k & Ek & _)|[_ ->]]; [by rewrite Ek in Ha|]. by destruct H.
    + right. apply runs_bind in H as (t6 & t7 & e' & -> & He & [_ ->]).
      apply failed_after; [by eapply repositoryReadError_result|]. intros _ Hh. cbn in Hh.
      destruct (credential_answer id x Hx) as [(k & Ek & _)|[Ek _]]; rewrite Ek in Hh; [done|].
      injection Hh as ->. done.
Qed.

Lemma Principal_served tr r p :
  p ∈ tb_principals db -> runs (repo_Principal repository ctx (pt_audience p) (pt_id p)) tr r ->
  Forall (answered db) tr -> r = Ok (principal_of p) \/ read_failed tr r.
Proof.
  intros Hp H Ha. unfold repo_Principal in H.
  destruct (principal_facts _ Hschema Hfinite p Hp) as (Hok & _). pose proof Hok as (Hza & Hzi & _).
  apply arr_is_zero_false in Hza, Hzi. cbn in Hza, Hzi. rewrite Hza, Hzi in H. cbn [orb] in H.
  apply runs_read_served in H as [H|(row & t1 & t2 & -> & H)]; [by right|].
  apply Forall_app in Ha as [_ Ha]. apply Forall_cons in Ha as [Ha _]. cbn in Ha.
  rewrite (principal_selected _ Hschema Hfinite p Hp) in Ha. destruct row as [[row|e]|].
  - left. apply finish_read in H as (t3 & _ & ->). destruct Ha as [[= ->]|[?|(e & ? & _)]]; [|done..].
    by apply principalOfRow_ok.
  - right. apply runs_bind in H as (t3 & t4 & [k|] & -> & Hk & H); apply finish_read in H as [t5 H].
    + destruct H as [_ ->]. apply failed_after; [by eapply safeError_transport, contextSentinel_kind|].
      intros _ Hh. cbn in Hh. by rewrite (principal_selected _ Hschema Hfinite p Hp) in Hh.
    + destruct Ha as [?|[?|(e' & [= <-] & E)]]; [done..|]. rewrite E in H.
      apply runs_bind in H as (t6 & t7 & e' & -> & He & [_ ->]). apply failed_after; [by eapply repositoryReadError_result|].
      intros _ Hh. cbn in Hh. by rewrite (principal_selected _ Hschema Hfinite p Hp) in Hh.
  - right. apply finish_read in H as (t3 & _ & ->). apply failed_after; [apply safeError_transport; in_list|done].
Qed.
End Reads.

(** * The reservation *)

Lemma pg_time_add t d : d mod Microsecond = 0 -> pg_time (t + d) = pg_time t + d.
Proof.
  intros Hd. unfold pg_time, t_truncate. change (Microsecond <=? 0) with false. cbv iota.
  rewrite Zplus_mod, Hd, Z.add_0_r, Zmod_mod. lia.
Qed.

(** * Claims *)

(** (C14) A database that satisfies its schema never looks corrupt. Let the
    tables satisfy every constraint of the migration, evaluated in a time zone
    whose 90 days are at most 90 times 24 hours; let their instants be finite
    and not Go's zero time, let the realm have its row, and let the statements be answered from them or fail. Then the
    bound audience is the one of the realm row; a credential is the one that
    is stored under the public id, or not found if none is; a stored principal
    is returned as it is stored; and any other result is a fixed error of the
    connection or the context, returned only because a call failed. The row a
    reservation inserts satisfies the constraints of its table. *)
Theorem schema_reads {zone : Zone} `{!ShortDays zone} (db : securityTables) (repository : option StateRepository) (ctx : Ctx) (tr : trace StateE)
    (x : realmTuple)
    (Hschema : security_schema db = true) (Hfinite : finite_times db = true)
    (Hanswered : Forall (answered db) tr) (Hx : x ∈ tb_realm db) :
  (forall r, runs (repo_BoundAudience repository ctx) tr r ->
     r = Ok (re_audience x) \/ read_failed db repository ctx tr r) /\
  (forall id r, is_v4 id = true -> runs (repo_Credential repository ctx (re_audience x) id) tr r ->
     r = stored_credential db id \/ read_failed db repository ctx tr r) /\
  (forall p r, p ∈ tb_principals db -> runs (repo_Principal repository ctx (pt_audience p) (pt_id p)) tr r ->
     r = Ok (principal_of p) \/ read_failed db repository ctx tr r) /\
  (forall record (nonce : ReplayNonce) now,
     reservation_checks (proposed_reservation record nonce now (t_add now replayReservationLifetime)) = true).
Proof.
  apply security_schema_facts in Hschema. split_and!.
  - intros r H. by eapply BoundAudience_served.
  - intros id r Hv H. by eapply Credential_served.
  - intros p r Hp H. by eapply Principal_served.
  - intros record nonce now. unfold reservation_checks, proposed_reservation, t_add.
    cbn [rv_nonce rv_reserved rv_expires tz_null negb andb tz_plus].
    rewrite arr_length, pg_time_add by done. by rewrite !bool_decide_eq_true_2.
Qed.

(** * Concrete tables *)

#[local] Existing Instance fixed_zone.

Definition golden_tables : securityTables :=
  mkTables [mkRealmTuple true golden_auth_audience]
    [mkPrincipalTuple (p_id golden_principal) golden_auth_audience (p_enabled golden_principal)
       (p_intakeAuthorized golden_principal) (TzTime (p_createdAt golden_principal)) (TzTime (p_stateChangedAt golden_principal))]
    [mkSlotTuple (sl_id (cs_Slot golden_credential)) golden_auth_audience (p_id golden_principal)
       (TzTime (sl_createdAt (cs_Slot golden_credential)))]
    [tuple_of_credential golden_credential]
    [proposed_reservation (cs_RecordID golden_credential) (replicate 16 x07) golden_now (t_add golden_now replayReservationLifetime)].

Example golden_tables_schema : security_schema golden_tables = true /\ finite_times golden_tables = true.
Proof. split; vm_compute; reflexivity. Qed.

Example golden_stored : stored_credential golden_tables (cs_PublicID golden_credential) = Ok golden_credential.
Proof. vm_compute. reflexivity. Qed.

(** A server without failures. *)
Definition tables_server (db : securityTables) (o : state_op) (s : unit) : ans StateE o * unit :=
  match o return ans StateE o * unit with
  | StAcquire _ => ((true, None), s)
  | StSelectAudience _ => (Some (Ok (select_audience db)), s)
  | StSelectCredential _ audience public => (Some (select_credential db audience public), s)
  | StSelectPrincipal _ audience principal => (Some (select_principal db audience principal), s)
  | StInsertReplay _ _ _ _ _ => (Some (Ok true), s)
  | StRelease => (tt, s)
  | StDestroy => (tt, s)
  | StCtxErr _ => (None, s)
  end.

Lemma tables_server_answered {A} db (p : prog StateE A) s :
  Forall (answered db) (run_trace (E := StateE) (tables_server db) p s).
Proof.
  revert s. induction p as [a|o k IH]; intros s; [constructor|].
  destruct o; cbn -[select_audience]; (constructor; [try (by left); done|apply IH]).
Qed.

Definition golden_read : prog StateE (result Credential) :=
  repo_Credential (Some (mkStateRepository false)) CtxReq golden_auth_audience (cs_PublicID golden_credential).

Lemma schema_reads_witness :
  (run (E := StateE) (tables_server golden_tables) golden_read tt).1 = stored_credential golden_tables (cs_PublicID golden_credential) \/
  read_failed golden_tables (Some (mkStateRepository false)) CtxReq
    (run_trace (E := StateE) (tables_server golden_tables) golden_read tt) (run (E := StateE) (tables_server golden_tables) golden_read tt).1.
Proof.
  apply (proj1 (proj2 (schema_reads golden_tables (Some (mkStateRepository false)) CtxReq
    (run_trace (E := StateE) (tables_server golden_tables) golden_read tt) (mkRealmTuple true golden_auth_audience)
    (proj1 golden_tables_schema) (proj2 golden_tables_schema)
    (tables_server_answered golden_tables golden_read tt) ltac:(apply list_elem_of_here)))).
  - vm_compute. reflexivity.
  - apply run_runs.
Defined.
