(* ===== verification/Lifecycle.v ===== *)
(** The destination token lifecycle: internal/securitystate/destination_lifecycle.go.

    The classification of the live tokens of a destination, the commands and
    receipts with their validation, and the service that creates, activates,
    rotates and revokes tokens through its repository. The clock, the random
    source, the key source, the record id generator, the repository and
    [ctx.Err()] are external calls. *)

From Stdlib Require Import ZifyBool.
From S2P Require Import Prelude Effects GoErrors GoTime Encoding Uuid Sha256 SecurityTypes.

Definition MaximumDestinationTokenLifetime : Duration := 90 * 24 * Hour.
Definition MaximumStagedCleanupDuration : Duration := 24 * Hour.
Definition MaximumRetiringOverlapDuration : Duration := 24 * Hour.

(** [RotationCompletionReason], a uint8. *)
Definition RotationCompletionReason := Z.
Definition RotationVerifiedAndDrained : RotationCompletionReason := 1.
Definition RotationDeadlineElapsed : RotationCompletionReason := 2.

(** [RotationCompletionReason.Valid]. *)
Definition reason_Valid (reason : RotationCompletionReason) : bool :=
  (reason =? RotationVerifiedAndDrained) || (reason =? RotationDeadlineElapsed).

(** [DestinationLifecycleStatus], a uint8. *)
Definition DestinationLifecycleStatus := Z.
Definition LifecycleUnprovisioned : DestinationLifecycleStatus := 1.
Definition LifecycleStagedInitial : DestinationLifecycleStatus := 2.
Definition LifecycleActive : DestinationLifecycleStatus := 3.
Definition LifecycleActiveWithStaged : DestinationLifecycleStatus := 4.
Definition LifecycleActiveWithRetiring : DestinationLifecycleStatus := 5.
Definition LifecycleReconciliationRequired : DestinationLifecycleStatus := 6.

Record LifecycleTokenView : Type := mkView {
  v_recordID : DestinationTokenRecordID;
  v_state : DestinationTokenState;
  v_createdAt : Time;
  v_expiresAt : Time;
  v_stagedCleanupDeadline : Time;
  v_activatedAt : Time;
  v_retirementStartedAt : Time;
  v_retirementDeadline : Time;
  v_revokedAt : Time;
  v_stateChangedAt : Time
}.

(** [lifecycleTokenView]. *)
Definition lifecycleTokenView (token : DestinationToken) : LifecycleTokenView :=
  mkView (ts_RecordID token) (ts_State token) (ts_CreatedAt token) (ts_ExpiresAt token)
    (ts_StagedCleanupDeadline token) (ts_ActivatedAt token) (ts_RetirementStartedAt token)
    (ts_RetirementDeadline token) (ts_RevokedAt token) (ts_StateChangedAt token).

(** [DestinationLifecycleSnapshot]; a view and its [has] flag are an option. *)
Record DestinationLifecycleSnapshot : Type := mkSnapshot {
  sn_audienceID : GatewayAudienceID;
  sn_destinationID : DestinationID;
  sn_destinationEnabled : bool;
  sn_status : DestinationLifecycleStatus;
  sn_staged : option LifecycleTokenView;
  sn_active : option LifecycleTokenView;
  sn_retiring : option LifecycleTokenView
}.

#[export] Instance Destination_eq_dec : EqDecision Destination.
Proof. solve_decision. Defined.

(** The variables of the loop of [NewDestinationLifecycleSnapshot]. *)
Record scan_state : Type := mkScan {
  sc_stale : bool;
  sc_seen : list DestinationTokenRecordID;
  sc_staged : option LifecycleTokenView;
  sc_active : option LifecycleTokenView;
  sc_retiring : option LifecycleTokenView
}.

Definition has {A} (o : option A) : bool := bool_decide (is_Some o).

(** One iteration; [None] is the return with
    [ErrDestinationLifecycleReconciliation]. The destinations are compared as
    structs, with the representations of their times. *)
Definition scanToken (destination : Destination) (now : Time) (s : scan_state) (token : DestinationToken)
  : option scan_state :=
  if (ts_AudienceID token <>?? dst_audienceID destination) ||
     (dst_id (ts_Destination token) <>?? dst_id destination) ||
     (ts_Destination token <>?? destination) then None
  else if bool_decide (ts_RecordID token ∈ sc_seen s) then None
  else
    let seen := ts_RecordID token :: sc_seen s in
    let view := lifecycleTokenView token in
    let stale := sc_stale s || t_after (ts_CreatedAt token) now || t_after (ts_StateChangedAt token) now in
    if ts_State token =? DestinationTokenStaged then
      if has (sc_staged s) then None
      else Some (mkScan (stale || negb (t_before now (ts_ExpiresAt token)) ||
                         negb (t_before now (ts_StagedCleanupDeadline token)))
                   seen (Some view) (sc_active s) (sc_retiring s))
    else if ts_State token =? DestinationTokenActive then
      if has (sc_active s) then None
      else Some (mkScan (stale || negb (token_UsableAt token now)) seen (sc_staged s) (Some view) (sc_retiring s))
    else if ts_State token =? DestinationTokenRetiring then
      if has (sc_retiring s) then None
      else Some (mkScan (stale || negb (token_UsableAt token now)) seen (sc_staged s) (sc_active s) (Some view))
    else None.

Fixpoint scanTokens (destination : Destination) (now : Time) (s : scan_state) (tokens : list DestinationToken)
  : option scan_state :=
  match tokens with
  | [] => Some s
  | token :: tokens =>
      match scanToken destination now s token with
      | None => None
      | Some s => scanTokens destination now s tokens
      end
  end.

(** The times of a rotation in progress: both rows changed at its instant. *)
Definition rotationIncoherent (active retiring : option LifecycleTokenView) : bool :=
  match active, retiring with
  | Some active, Some retiring =>
      negb (t_equal (v_activatedAt active) (v_retirementStartedAt retiring)) ||
      negb (t_equal (v_stateChangedAt active) (v_activatedAt active)) ||
      negb (t_equal (v_stateChangedAt retiring) (v_retirementStartedAt retiring))
  | _, _ => false
  end.

(** [NewDestinationLifecycleSnapshot]. *)
Definition NewDestinationLifecycleSnapshot (destination : Destination) (tokens : list DestinationToken)
    (now : Time) : result DestinationLifecycleSnapshot :=
  if arr_is_zero (dst_id destination) || arr_is_zero (dst_audienceID destination) || t_is_zero now ||
     (3 <? Z.of_nat (length tokens)) then Err ErrDestinationLifecycleReconciliation
  else
  match scanTokens destination now (mkScan (negb (destination_Enabled destination)) [] None None None) tokens with
  | None => Err ErrDestinationLifecycleReconciliation
  | Some s =>
    let hasStaged := has (sc_staged s) in
    let hasActive := has (sc_active s) in
    let hasRetiring := has (sc_retiring s) in
    let snapshot status :=
      mkSnapshot (dst_audienceID destination) (dst_id destination) (destination_Enabled destination) status
        (sc_staged s) (sc_active s) (sc_retiring s) in
    if (hasStaged && hasRetiring) || (hasRetiring && negb hasActive)
    then Err ErrDestinationLifecycleReconciliation
    else if rotationIncoherent (sc_active s) (sc_retiring s) then Err ErrDestinationLifecycleReconciliation
    else if sc_stale s then Ok (snapshot LifecycleReconciliationRequired)
    else if negb hasStaged && negb hasActive && negb hasRetiring then Ok (snapshot LifecycleUnprovisioned)
    else if hasStaged && negb hasActive then Ok (snapshot LifecycleStagedInitial)
    else if hasActive && negb hasStaged && negb hasRetiring then Ok (snapshot LifecycleActive)
    else if hasActive && hasStaged && negb hasRetiring then Ok (snapshot LifecycleActiveWithStaged)
    else if hasActive && hasRetiring && negb hasStaged then Ok (snapshot LifecycleActiveWithRetiring)
    else Err ErrDestinationLifecycleReconciliation
  end.

(** * Rotation attempts *)

Record DestinationTokenRotationAttemptSnapshot : Type := mkAttempt {
  at_lifecycle : DestinationLifecycleSnapshot;
  at_newToken : LifecycleTokenView;
  at_oldToken : LifecycleTokenView
}.

(** [NewDestinationTokenRotationAttemptSnapshot]. *)
Definition NewDestinationTokenRotationAttemptSnapshot (lifecycle : DestinationLifecycleSnapshot)
    (newToken oldToken : DestinationToken) (newActiveRecordID oldRetiringRecordID : DestinationTokenRecordID)
    (now : Time) : result DestinationTokenRotationAttemptSnapshot :=
  if arr_is_zero (sn_audienceID lifecycle) || arr_is_zero (sn_destinationID lifecycle) || t_is_zero now ||
     arr_is_zero newActiveRecordID || arr_is_zero oldRetiringRecordID ||
     (newActiveRecordID =?? oldRetiringRecordID) ||
     (ts_RecordID newToken <>?? newActiveRecordID) || (ts_RecordID oldToken <>?? oldRetiringRecordID) ||
     (ts_AudienceID newToken <>?? sn_audienceID lifecycle) ||
     (ts_AudienceID oldToken <>?? sn_audienceID lifecycle) ||
     (dst_id (ts_Destination newToken) <>?? sn_destinationID lifecycle) ||
     (dst_id (ts_Destination oldToken) <>?? sn_destinationID lifecycle) ||
     t_after (ts_CreatedAt newToken) now || t_after (ts_CreatedAt oldToken) now ||
     t_after (ts_StateChangedAt newToken) now || t_after (ts_StateChangedAt oldToken) now ||
     (negb (t_is_zero (ts_RevokedAt newToken)) && t_after (ts_RevokedAt newToken) now) ||
     (negb (t_is_zero (ts_RevokedAt oldToken)) && t_after (ts_RevokedAt oldToken) now)
  then Err ErrDestinationLifecycleReconciliation
  else Ok (mkAttempt lifecycle (lifecycleTokenView newToken) (lifecycleTokenView oldToken)).

(** * Candidates and commands *)

Record StagedTokenCandidate : Type := mkStagedCandidate {
  sc_audienceID : GatewayAudienceID;
  sc_destination : DestinationID;
  sc_recordID : DestinationTokenRecordID;
  sc_verifier : TokenVerifier;
  sc_verifierKeyID : DestinationVerifierKeyID;
  sc_createdAt : Time;
  sc_expiresAt : Time;
  sc_stagedCleanupDeadline : Time
}.

(** [NewStagedTokenCandidate]. *)
Definition NewStagedTokenCandidate (audience : GatewayAudienceID) (destination : DestinationID)
    (recordID : DestinationTokenRecordID) (verifier : TokenVerifier) (keyID : DestinationVerifierKeyID)
    (createdAt expiresAt cleanupDeadline : Time) : result StagedTokenCandidate :=
  if arr_is_zero audience || arr_is_zero destination || arr_is_zero recordID || verifier_is_zero verifier ||
     (keyID =?? []) || t_is_zero createdAt || negb (t_after expiresAt createdAt) ||
     (MaximumDestinationTokenLifetime <? t_sub expiresAt createdAt) ||
     negb (t_after cleanupDeadline createdAt) ||
     (MaximumStagedCleanupDuration <? t_sub cleanupDeadline createdAt)
  then Err ErrDestinationLifecycleInvalid
  else Ok (mkStagedCandidate audience destination recordID verifier keyID createdAt expiresAt cleanupDeadline).

(** [NewStagedTokenCandidate] on the accessors of a candidate. *)
Definition revalidate (c : StagedTokenCandidate) : result StagedTokenCandidate :=
  NewStagedTokenCandidate (sc_audienceID c) (sc_destination c) (sc_recordID c) (sc_verifier c)
    (sc_verifierKeyID c) (sc_createdAt c) (sc_expiresAt c) (sc_stagedCleanupDeadline c).

Record CreateRotationStagedTokenCommand : Type := mkCreateRotation {
  cr_candidate : StagedTokenCandidate;
  cr_expectedActiveRecordID : DestinationTokenRecordID;
  cr_now : Time
}.

(** [NewCreateRotationStagedTokenCommand]. *)
Definition NewCreateRotationStagedTokenCommand (candidate : StagedTokenCandidate)
    (expectedActiveRecordID : DestinationTokenRecordID) (now : Time) : result CreateRotationStagedTokenCommand :=
  match revalidate candidate with
  | Err _ => Err ErrDestinationLifecycleInvalid
  | Ok validated =>
      if (sc_recordID validated <>?? sc_recordID candidate) || arr_is_zero expectedActiveRecordID ||
         (expectedActiveRecordID =?? sc_recordID candidate) || t_is_zero now ||
         negb (t_equal (sc_createdAt candidate) now)
      then Err ErrDestinationLifecycleInvalid
      else Ok (mkCreateRotation validated expectedActiveRecordID now)
  end.

Record ActivateRotationCommand : Type := mkActivateRotation {
  ar_AudienceID : GatewayAudienceID;
  ar_DestinationID : DestinationID;
  ar_StagedRecordID : DestinationTokenRecordID;
  ar_OldActiveRecordID : DestinationTokenRecordID;
  ar_Now : Time;
  ar_OverlapDeadline : Time
}.

Record RollbackRotationCommand : Type := mkRollbackRotation {
  rr_AudienceID : GatewayAudienceID;
  rr_DestinationID : DestinationID;
  rr_NewActiveRecordID : DestinationTokenRecordID;
  rr_OldRetiringRecordID : DestinationTokenRecordID;
  rr_Now : Time
}.

Record FinalizeRotationCommand : Type := mkFinalizeRotation {
  fr_AudienceID : GatewayAudienceID;
  fr_DestinationID : DestinationID;
  fr_NewActiveRecordID : DestinationTokenRecordID;
  fr_OldRetiringRecordID : DestinationTokenRecordID;
  fr_Reason : RotationCompletionReason;
  fr_Now : Time
}.

(** [canonicalDestinationLifecycleTimestamp]. *)
Definition canonicalDestinationLifecycleTimestamp (value : Time) : Time := t_truncate value Microsecond.

Record DestinationTokenRotationActivationReceipt : Type := mkActivationReceipt {
  rc_activatedAt : Time;
  rc_retirementDeadline : Time
}.

(** [DestinationTokenRotationActivationReceipt.valid]. *)
Definition receipt_valid (value : DestinationTokenRotationActivationReceipt) : bool :=
  negb (t_is_zero (rc_activatedAt value)) &&
  t_equal (rc_activatedAt value) (canonicalDestinationLifecycleTimestamp (rc_activatedAt value)) &&
  t_equal (rc_retirementDeadline value) (canonicalDestinationLifecycleTimestamp (rc_retirementDeadline value)) &&
  t_after (rc_retirementDeadline value) (rc_activatedAt value) &&
  (t_sub (rc_retirementDeadline value) (rc_activatedAt value) <=? MaximumRetiringOverlapDuration).

(** [DestinationTokenRotationActivationReceipt.validAt]. *)
Definition receipt_validAt (value : DestinationTokenRotationActivationReceipt) (now : Time) : bool :=
  receipt_valid value && negb (t_is_zero now) && negb (t_before now (rc_activatedAt value)) &&
  t_before now (rc_retirementDeadline value).

(** [NewDestinationTokenRotationActivationReceipt]. *)
Definition NewDestinationTokenRotationActivationReceipt (activatedAt retirementDeadline : Time)
  : result DestinationTokenRotationActivationReceipt :=
  let receipt := mkActivationReceipt activatedAt retirementDeadline in
  if negb (receipt_valid receipt) then Err ErrDestinationLifecycleInvalid else Ok receipt.

(** * One-time tokens *)

(** [CreatedStagedToken]: the record id and the encoded one-time token, which
    is empty in the zero value. *)
Record CreatedStagedToken : Type := mkCreated { ct_recordID : DestinationTokenRecordID; ct_token : bytes }.

Definition zero_created : CreatedStagedToken := mkCreated (zero_arr 16) [].

(** [UUIDv4DestinationTokenRecordIDGenerator.NewDestinationTokenRecordID], given
    the outcome of reading 16 random bytes; [nil_generator] for a nil receiver. *)
Definition NewDestinationTokenRecordID (nil_generator : bool) (read : result (arr 16))
  : result DestinationTokenRecordID :=
  if nil_generator then Err ErrDestinationLifecycleInvalid
  else match read with
       | Err _ => Err ErrDestinationLifecycleUnavailable
       | Ok value =>
           let value := mk_arr 16 (set_v4_bits (arr_list value)) in
           if arr_is_zero value then Err ErrDestinationLifecycleUnavailable else Ok value
       end.

(** * Error classification *)

(** [lifecycleSingleCauseMatches] and [lifecycleRepositorySingleCauseMatches]
    have the body of [singleCauseMatches]. *)
Fixpoint firstSingleCause (safe : list sentinel) (e : error) : option sentinel :=
  match safe with
  | [] => None
  | s :: safe => if singleCauseMatches e s then Some s else firstSingleCause safe e
  end.

(** [classifyDestinationLifecycleError] of a non-nil error. *)
Definition classifyLifecycle (e : error) : sentinel :=
  if singleCauseMatches e ErrDestinationLifecycleOutcomeUnknown then ErrDestinationLifecycleOutcomeUnknown
  else if singleCauseMatches e Canceled then ErrDestinationLifecycleCanceled
  else if singleCauseMatches e DeadlineExceeded then ErrDestinationLifecycleDeadline
  else if singleCauseMatches e ErrDestinationLifecycleCanceled then ErrDestinationLifecycleCanceled
  else if singleCauseMatches e ErrDestinationLifecycleDeadline then ErrDestinationLifecycleDeadline
  else default ErrDestinationLifecycleOutcomeUnknown
         (firstSingleCause [ErrDestinationLifecycleInvalid; ErrDestinationLifecycleConflict;
            ErrDestinationLifecycleReconciliation; ErrDestinationLifecycleUnavailable] e).

(** [classifyDestinationLifecycleError]. *)
Definition classifyDestinationLifecycleError (e : option error) : option error :=
  match e with None => None | Some e => Some (Sentinel (classifyLifecycle e)) end.

(** [classifyDestinationLifecycleInspectionError] of a non-nil error. *)
Definition classifyDestinationLifecycleInspectionError (e : error) : sentinel :=
  match firstSingleCause [ErrDestinationLifecycleCanceled; ErrDestinationLifecycleDeadline;
          ErrDestinationLifecycleInvalid; ErrDestinationLifecycleConflict;
          ErrDestinationLifecycleReconciliation; ErrDestinationLifecycleUnavailable] e with
  | Some s => s
  | None =>
      if singleCauseMatches e Canceled then ErrDestinationLifecycleCanceled
      else if singleCauseMatches e DeadlineExceeded then ErrDestinationLifecycleDeadline
      else ErrDestinationLifecycleUnavailable
  end.

(** * The service *)

(** The clock, the generators, the key source, the repository and [ctx.Err()]. *)
Inductive life_op : Type :=
| LfCtxErr (ctx : Ctx)
| LfNow
| LfNewRecordID (ctx : Ctx)
| LfRandom
| LfVerifierKey (ctx : Ctx) (audience : GatewayAudienceID) (keyID : DestinationVerifierKeyID)
| LfCreateStaged (ctx : Ctx) (candidate : StagedTokenCandidate) (now : Time)
| LfCreateRotationStaged (ctx : Ctx) (command : CreateRotationStagedTokenCommand)
| LfActivateInitial (ctx : Ctx) (audience : GatewayAudienceID) (destination : DestinationID)
    (staged : DestinationTokenRecordID) (now : Time)
| LfActivateRotation (ctx : Ctx) (command : ActivateRotationCommand)
| LfAbort (ctx : Ctx) (audience : GatewayAudienceID) (destination : DestinationID)
    (staged : DestinationTokenRecordID) (now : Time)
| LfRollback (ctx : Ctx) (command : RollbackRotationCommand)
| LfFinalize (ctx : Ctx) (command : FinalizeRotationCommand)
| LfInspect (ctx : Ctx) (audience : GatewayAudienceID) (destination : DestinationID) (now : Time).

Definition LifeE : sig := Sig life_op (fun o =>
  match o with
  | LfCtxErr _ => option error
  | LfNow => Time
  | LfNewRecordID _ => result DestinationTokenRecordID
  | LfRandom => result (arr 32)
  | LfVerifierKey _ _ _ => result DestinationVerifierKey
  | LfInspect _ _ _ _ => result DestinationLifecycleSnapshot
  | _ => option error
  end).

(** [DestinationTokenLifecycleService]: its settings, and whether its clock or
    its repository is nil. *)
Record LifecycleService : Type := mkLifecycleService {
  ls_clock_nil : bool;
  ls_repository_nil : bool;
  ls_activeKeyID : DestinationVerifierKeyID;
  ls_tokenLifetime : Duration;
  ls_cleanupDuration : Duration;
  ls_overlapDuration : Duration
}.

(** [NewDestinationTokenLifecycleService]; [nil_dependency] when one of the five
    dependencies is nil. *)
Definition NewDestinationTokenLifecycleService (nil_dependency : bool) (keyID : DestinationVerifierKeyID)
    (tokenLifetime cleanup overlap : Duration) : result LifecycleService :=
  if nil_dependency || (keyID =?? []) ||
     (tokenLifetime <=? 0) || (MaximumDestinationTokenLifetime <? tokenLifetime) ||
     (cleanup <=? 0) || (MaximumStagedCleanupDuration <? cleanup) ||
     (overlap <=? 0) || (MaximumRetiringOverlapDuration <? overlap) || (tokenLifetime <=? overlap)
  then Err ErrDestinationLifecycleInvalid
  else match NewDestinationVerifierKeyID keyID with
       | Err _ => Err ErrDestinationLifecycleInvalid
       | Ok parsed =>
           if parsed <>?? keyID then Err ErrDestinationLifecycleInvalid
           else Ok (mkLifecycleService false false parsed tokenLifetime cleanup overlap)
       end.

(** [lifecycleCancellation]: the context is examined only without an error. *)
Definition lifecycleCancellation (ctx : Ctx) (e : option error) : prog LifeE (option sentinel) :=
  match e with
  | Some e =>
      if singleCauseMatches e Canceled then Ret (Some ErrDestinationLifecycleCanceled)
      else if singleCauseMatches e DeadlineExceeded then Ret (Some ErrDestinationLifecycleDeadline)
      else Ret None
  | None =>
      if ctx_is_nil ctx then Ret None
      else
        let! c := @call LifeE (LfCtxErr ctx) in
        if opt_is_sentinel c Canceled then Ret (Some ErrDestinationLifecycleCanceled)
        else
          let! c := @call LifeE (LfCtxErr ctx) in
          if opt_is_sentinel c DeadlineExceeded then Ret (Some ErrDestinationLifecycleDeadline)
          else Ret None
  end.

(** [operationInput]; [None] is a nil service. *)
Definition operationInput (service : option LifecycleService) (ctx : Ctx) (audience : GatewayAudienceID)
    (destination : DestinationID) : prog LifeE (result (LifecycleService * Time)) :=
  match service with
  | None => Ret (Err ErrDestinationLifecycleInvalid)
  | Some service =>
    if ctx_is_nil ctx || ls_clock_nil service || ls_repository_nil service ||
       arr_is_zero audience || arr_is_zero destination
    then Ret (Err ErrDestinationLifecycleInvalid)
    else
    let! cancellation := lifecycleCancellation ctx None in
    match cancellation with
    | Some c => Ret (Err c)
    | None =>
      let! now := @call LifeE LfNow in
      if t_is_zero now then Ret (Err ErrDestinationLifecycleInvalid) else Ret (Ok (service, now))
    end
  end.

(** [recordOperationInput]. *)
Definition recordOperationInput (service : option LifecycleService) (ctx : Ctx) (audience : GatewayAudienceID)
    (destination : DestinationID) (record : DestinationTokenRecordID)
  : prog LifeE (result (LifecycleService * Time)) :=
  let! input := operationInput service ctx audience destination in
  match input with
  | Err e => Ret (Err e)
  | Ok input => if arr_is_zero record then Ret (Err ErrDestinationLifecycleInvalid) else Ret (Ok input)
  end.

(** [pairOperationInput]. *)
Definition pairOperationInput (service : option LifecycleService) (ctx : Ctx) (audience : GatewayAudienceID)
    (destination : DestinationID) (first second : DestinationTokenRecordID)
  : prog LifeE (result (LifecycleService * Time)) :=
  let! input := recordOperationInput service ctx audience destination first in
  match input with
  | Err e => Ret (Err e)
  | Ok input =>
      if arr_is_zero second || (first =?? second) then Ret (Err ErrDestinationLifecycleInvalid)
      else Ret (Ok input)
  end.

Definition created_error (e : error) : CreatedStagedToken * option error := (zero_created, Some e).

(** The record id and the entropy, read under [generationMu]: the second read
    happens only after a successful first one. *)
Definition generate (ctx : Ctx) : prog LifeE (option error * DestinationTokenRecordID * arr 32) :=
  let! r := @call LifeE (LfNewRecordID ctx) in
  match r with
  | Err e => Ret (Some e, zero_arr 16, zero_arr 32)
  | Ok recordID =>
      if arr_is_zero recordID then Ret (None, recordID, zero_arr 32)
      else
        let! entropy := @call LifeE LfRandom in
        match entropy with
        | Err e => Ret (Some e, recordID, zero_arr 32)
        | Ok entropy => Ret (None, recordID, entropy)
        end
  end.

(** The encoded token. *)
Definition encodeToken (entropy : arr 32) : bytes := opaqueTokenPrefix ++ b64Encode (arr_list entropy).

(** The call of the repository and what follows it. *)
Definition persistStaged (ctx : Ctx) (candidate : StagedTokenCandidate) (encoded : bytes) (now : Time)
    (rotation : option (DestinationTokenRecordID * OpaqueDestinationToken))
  : prog LifeE (CreatedStagedToken * option error) :=
  let conclude (repositoryErr : option error) : prog LifeE (CreatedStagedToken * option error) :=
    match repositoryErr with
    | Some e =>
        let classified := classifyLifecycle e in
        if classified =?? ErrDestinationLifecycleOutcomeUnknown
        then Ret (mkCreated (sc_recordID candidate) [], Some (Sentinel classified))
        else Ret (created_error (Sentinel classified))
    | None => Ret (mkCreated (sc_recordID candidate) encoded, None)
    end in
  match rotation with
  | Some (expectedActiveRecordID, _) =>
      match NewCreateRotationStagedTokenCommand candidate expectedActiveRecordID now with
      | Err _ => Ret (created_error ErrDestinationLifecycleInvalid)
      | Ok command =>
          let! e := @call LifeE (LfCreateRotationStaged ctx command) in conclude e
      end
  | None => let! e := @call LifeE (LfCreateStaged ctx candidate now) in conclude e
  end.

(** [createStagedToken]: [rotation] carries the expected active record and the
    current token of a rotation. *)
Definition createStagedToken (service : option LifecycleService) (ctx : Ctx) (audience : GatewayAudienceID)
    (destination : DestinationID) (rotation : option (DestinationTokenRecordID * OpaqueDestinationToken))
  : prog LifeE (CreatedStagedToken * option error) :=
  let! input := operationInput service ctx audience destination in
  match input with
  | Err e => Ret (created_error e)
  | Ok (service, now) =>
  let! '(recordErr, recordID, entropy) := generate ctx in
  let! cancellation := lifecycleCancellation ctx recordErr in
  match cancellation with
  | Some c => Ret (created_error (Sentinel c))
  | None =>
  if is_err recordErr || arr_is_zero recordID then Ret (created_error ErrDestinationLifecycleUnavailable)
  else
  let encoded := encodeToken entropy in
  match ParseOpaqueDestinationToken encoded with
  | Err _ => Ret (created_error ErrDestinationLifecycleUnavailable)
  | Ok rawToken =>
  if match rotation with Some (_, currentToken) => rawToken =?? currentToken | None => false end
  then Ret (created_error ErrDestinationLifecycleConflict)
  else
  let! key := @call LifeE (LfVerifierKey ctx audience (ls_activeKeyID service)) in
  let! cancellation := lifecycleCancellation ctx (match key with Err e => Some e | Ok _ => None end) in
  match cancellation with
  | Some c => Ret (created_error (Sentinel c))
  | None =>
  match key with
  | Err _ => Ret (created_error ErrDestinationLifecycleUnavailable)
  | Ok key =>
  match ComputeDestinationTokenVerifier audience rawToken key with
  | Err _ => Ret (created_error ErrDestinationLifecycleUnavailable)
  | Ok verifier =>
  match NewStagedTokenCandidate audience destination recordID verifier (ls_activeKeyID service) now
          (t_add now (ls_tokenLifetime service)) (t_add now (ls_cleanupDuration service)) with
  | Err _ => Ret (created_error ErrDestinationLifecycleInvalid)
  | Ok candidate => persistStaged ctx candidate encoded now rotation
  end end end end end end end.

(** [CreateStagedToken]. *)
Definition CreateStagedToken (service : option LifecycleService) (ctx : Ctx) (audience : GatewayAudienceID)
    (destination : DestinationID) : prog LifeE (CreatedStagedToken * option error) :=
  createStagedToken service ctx audience destination None.

(** [CreateRotationStagedToken]. *)
Definition CreateRotationStagedToken (service : option LifecycleService) (ctx : Ctx)
    (audience : GatewayAudienceID) (destination : DestinationID)
    (expectedActiveRecordID : DestinationTokenRecordID) (currentToken : OpaqueDestinationToken)
  : prog LifeE (CreatedStagedToken * option error) :=
  if arr_is_zero expectedActiveRecordID then Ret (created_error ErrDestinationLifecycleInvalid)
  else createStagedToken service ctx audience destination (Some (expectedActiveRecordID, currentToken)).

(** [ActivateInitialToken]. *)
Definition ActivateInitialToken (service : option LifecycleService) (ctx : Ctx) (audience : GatewayAudienceID)
    (destination : DestinationID) (staged : DestinationTokenRecordID) : prog LifeE (option error) :=
  let! input := recordOperationInput service ctx audience destination staged in
  match input with
  | Err e => Ret (Some e)
  | Ok (_, now) =>
      let! e := @call LifeE (LfActivateInitial ctx audience destination staged now) in
      Ret (classifyDestinationLifecycleError e)
  end.

(** [ActivateRotation]. *)
Definition ActivateRotation (service : option LifecycleService) (ctx : Ctx) (audience : GatewayAudienceID)
    (destination : DestinationID) (staged oldActive : DestinationTokenRecordID)
  : prog LifeE (result DestinationTokenRotationActivationReceipt) :=
  let! input := pairOperationInput service ctx audience destination staged oldActive in
  match input with
  | Err e => Ret (Err e)
  | Ok (service, now) =>
      let activatedAt := canonicalDestinationLifecycleTimestamp now in
      let retirementDeadline := canonicalDestinationLifecycleTimestamp (t_add now (ls_overlapDuration service)) in
      match NewDestinationTokenRotationActivationReceipt activatedAt retirementDeadline with
      | Err _ => Ret (Err ErrDestinationLifecycleInvalid)
      | Ok receipt =>
          let! e := @call LifeE (LfActivateRotation ctx
            (mkActivateRotation audience destination staged oldActive activatedAt retirementDeadline)) in
          match classifyDestinationLifecycleError e with
          | Some e => Ret (Err e)
          | None => Ret (Ok receipt)
          end
      end
  end.

(** [AbortStagedToken]. *)
Definition AbortStagedToken (service : option LifecycleService) (ctx : Ctx) (audience : GatewayAudienceID)
    (destination : DestinationID) (staged : DestinationTokenRecordID) : prog LifeE (option error) :=
  let! input := recordOperationInput service ctx audience destination staged in
  match input with
  | Err e => Ret (Some e)
  | Ok (_, now) =>
      let! e := @call LifeE (LfAbort ctx audience destination staged now) in
      Ret (classifyDestinationLifecycleError e)
  end.

(** [RollbackRotation]. *)
Definition RollbackRotation (service : option LifecycleService) (ctx : Ctx) (audience : GatewayAudienceID)
    (destination : DestinationID) (newActive oldRetiring : DestinationTokenRecordID) : prog LifeE (option error) :=
  let! input := pairOperationInput service ctx audience destination newActive oldRetiring in
  match input with
  | Err e => Ret (Some e)
  | Ok (_, now) =>
      let! e := @call LifeE (LfRollback ctx (mkRollbackRotation audience destination newActive oldRetiring now)) in
      Ret (classifyDestinationLifecycleError e)
  end.

(** [FinalizeRotation]. *)
Definition FinalizeRotation (service : option LifecycleService) (ctx : Ctx) (audience : GatewayAudienceID)
    (destination : DestinationID) (newActive oldRetiring : DestinationTokenRecordID)
    (reason : RotationCompletionReason) : prog LifeE (option error) :=
  let! input := pairOperationInput service ctx audience destination newActive oldRetiring in
  match input with
  | Err e => Ret (Some e)
  | Ok (_, now) =>
      if negb (reason_Valid reason) then Ret (Some (Sentinel ErrDestinationLifecycleInvalid))
      else
      let! e := @call LifeE (LfFinalize ctx
        (mkFinalizeRotation audience destination newActive oldRetiring reason now)) in
      Ret (classifyDestinationLifecycleError e)
  end.

(** [InspectLifecycleState]. *)
Definition InspectLifecycleState (service : option LifecycleService) (ctx : Ctx) (audience : GatewayAudienceID)
    (destination : DestinationID) : prog LifeE (result DestinationLifecycleSnapshot) :=
  let! input := operationInput service ctx audience destination in
  match input with
  | Err e => Ret (Err e)
  | Ok (_, now) =>
      let! r := @call LifeE (LfInspect ctx audience destination now) in
      match r with
      | Err e => Ret (Err (classifyDestinationLifecycleInspectionError e))
      | Ok snapshot =>
          if (sn_status snapshot =? 0) || (sn_audienceID snapshot <>?? audience) ||
             (sn_destinationID snapshot <>?? destination)
          then Ret (Err ErrDestinationLifecycleReconciliation) else Ret (Ok snapshot)
      end
  end.

(** * Phases *)

(** The live tokens of a destination, by phase of its lifecycle. *)
Inductive phase : Type :=
| PhaseUnprovisioned
| PhaseStaged (staged : DestinationToken)
| PhaseActive (active : DestinationToken)
| PhaseActiveStaged (active staged : DestinationToken)
| PhaseActiveRetiring (active retiring : DestinationToken).

Definition phase_tokens (ph : phase) : list DestinationToken :=
  match ph with
  | PhaseUnprovisioned => []
  | PhaseStaged s => [s]
  | PhaseActive a => [a]
  | PhaseActiveStaged a s => [a; s]
  | PhaseActiveRetiring a r => [a; r]
  end.

Definition phase_status (ph : phase) : DestinationLifecycleStatus :=
  match ph with
  | PhaseUnprovisioned => LifecycleUnprovisioned
  | PhaseStaged _ => LifecycleStagedInitial
  | PhaseActive _ => LifecycleActive
  | PhaseActiveStaged _ _ => LifecycleActiveWithStaged
  | PhaseActiveRetiring _ _ => LifecycleActiveWithRetiring
  end.

Definition phase_staged (ph : phase) : option DestinationToken :=
  match ph with PhaseStaged s | PhaseActiveStaged _ s => Some s | _ => None end.
Definition phase_active (ph : phase) : option DestinationToken :=
  match ph with PhaseActive a | PhaseActiveStaged a _ | PhaseActiveRetiring a _ => Some a | _ => None end.
Definition phase_retiring (ph : phase) : option DestinationToken :=
  match ph with PhaseActiveRetiring _ r => Some r | _ => None end.

(** A token of the destination in a state. *)
Definition token_in (destination : Destination) (state : DestinationTokenState) (t : DestinationToken) : Prop :=
  ts_AudienceID t = dst_audienceID destination /\ ts_Destination t = destination /\ ts_State t = state.

(** The two tokens of a rotation in progress changed at its instant. *)
Definition coherent (active retiring : DestinationToken) : Prop :=
  ts_ActivatedAt active = ts_RetirementStartedAt retiring /\
  ts_StateChangedAt active = ts_ActivatedAt active /\
  ts_StateChangedAt retiring = ts_RetirementStartedAt retiring.

Definition phase_ok (destination : Destination) (ph : phase) : Prop :=
  match ph with
  | PhaseUnprovisioned => True
  | PhaseStaged s => token_in destination DestinationTokenStaged s
  | PhaseActive a => token_in destination DestinationTokenActive a
  | PhaseActiveStaged a s =>
      token_in destination DestinationTokenActive a /\ token_in destination DestinationTokenStaged s /\
      ts_RecordID a <> ts_RecordID s
  | PhaseActiveRetiring a r =>
      token_in destination DestinationTokenActive a /\ token_in destination DestinationTokenRetiring r /\
      ts_RecordID a <> ts_RecordID r /\ coherent a r
  end.

(** A token that is dated after [now] or is no longer good at [now]. *)
Definition token_stale (now : Time) (t : DestinationToken) : bool :=
  t_after (ts_CreatedAt t) now || t_after (ts_StateChangedAt t) now ||
  (if ts_State t =? DestinationTokenStaged
   then negb (t_before now (ts_ExpiresAt t)) || negb (t_before now (ts_StagedCleanupDeadline t))
   else negb (token_UsableAt t now)).

Definition phase_stale (destination : Destination) (now : Time) (ph : phase) : bool :=
  negb (destination_Enabled destination) || existsb (token_stale now) (phase_tokens ph).

Definition snapshot_of (destination : Destination) (now : Time) (ph : phase) : DestinationLifecycleSnapshot :=
  mkSnapshot (dst_audienceID destination) (dst_id destination) (destination_Enabled destination)
    (if phase_stale destination now ph then LifecycleReconciliationRequired else phase_status ph)
    (lifecycleTokenView <$> phase_staged ph) (lifecycleTokenView <$> phase_active ph)
    (lifecycleTokenView <$> phase_retiring ph).

(** What one iteration does. *)
Lemma scanToken_some d now s t s' :
  scanToken d now s t = Some s' ->
  (ts_RecordID t ∉ sc_seen s) /\
  let stale := sc_stale s || token_stale now t in
  let seen := ts_RecordID t :: sc_seen s in
  let view := Some (lifecycleTokenView t) in
  (token_in d DestinationTokenStaged t /\ sc_staged s = None /\
   s' = mkScan stale seen view (sc_active s) (sc_retiring s)) \/
  (token_in d DestinationTokenActive t /\ sc_active s = None /\
   s' = mkScan stale seen (sc_staged s) view (sc_retiring s)) \/
  (token_in d DestinationTokenRetiring t /\ sc_retiring s = None /\
   s' = mkScan stale seen (sc_staged s) (sc_active s) view).
Proof.
  unfold scanToken, token_in, token_stale, has. intros H.
  destruct (_ || _) eqn:G; [done|]. rewrite !orb_false_iff, !negb_false_iff, !bool_decide_eq_true in G.
  destruct G as [[Ha _] Hd].
  destruct (bool_decide (_ ∈ _)) eqn:Hin; [done|]. apply bool_decide_eq_false in Hin. split; [done|].
  destruct (ts_State t =? DestinationTokenStaged) eqn:E1;
    [|destruct (ts_State t =? DestinationTokenActive) eqn:E2;
      [|destruct (ts_State t =? DestinationTokenRetiring) eqn:E3; [|done]]];
    destruct (bool_decide (is_Some _)) eqn:Hs; simplify_eq; apply bool_decide_eq_false, eq_None_not_Some in Hs;
    bool_hyps; rewrite Ha, Hs, !orb_assoc; auto 10.
Qed.

(** The same, for execution. *)
Lemma scanToken_runs d now s t st :
  token_in d st t -> ts_RecordID t ∉ sc_seen s ->
  let stale := sc_stale s || token_stale now t in
  let seen := ts_RecordID t :: sc_seen s in
  let view := Some (lifecycleTokenView t) in
  scanToken d now s t =
  if st =? DestinationTokenStaged then
    if has (sc_staged s) then None else Some (mkScan stale seen view (sc_active s) (sc_retiring s))
  else if st =? DestinationTokenActive then
    if has (sc_active s) then None else Some (mkScan stale seen (sc_staged s) view (sc_retiring s))
  else if st =? DestinationTokenRetiring then
    if has (sc_retiring s) then None else Some (mkScan stale seen (sc_staged s) (sc_active s) view)
  else None.
Proof.
  unfold scanToken, token_in, token_stale. intros (Ha & Hd & <-) Hn. rewrite Ha, Hd, !bool_decide_eq_true_2 by done.
  rewrite bool_decide_eq_false_2 by done. cbn [negb orb]. repeat case_match; try done; by rewrite !orb_assoc.
Qed.

(** What the loop has gathered from the tokens it has seen, newest first. *)
Record gathered (d : Destination) (now : Time) (seen : list DestinationToken) (s : scan_state)
    (staged active retiring : option DestinationToken) : Prop := {
  g_perm : Permutation seen (option_list staged ++ option_list active ++ option_list retiring);
  g_staged : sc_staged s = lifecycleTokenView <$> staged;
  g_active : sc_active s = lifecycleTokenView <$> active;
  g_retiring : sc_retiring s = lifecycleTokenView <$> retiring;
  g_in_staged : forall t, staged = Some t -> token_in d DestinationTokenStaged t;
  g_in_active : forall t, active = Some t -> token_in d DestinationTokenActive t;
  g_in_retiring : forall t, retiring = Some t -> token_in d DestinationTokenRetiring t;
  g_seen : sc_seen s = ts_RecordID <$> seen;
  g_nodup : NoDup (ts_RecordID <$> seen);
  g_stale : sc_stale s = negb (destination_Enabled d) || existsb (token_stale now) seen
}.

Lemma gathered_step d now seen s st ac re t s' :
  gathered d now seen s st ac re -> scanToken d now s t = Some s' ->
  exists st' ac' re', gathered d now (t :: seen) s' st' ac' re'.
Proof.
  intros [Hp Hs Ha Hr Is Ia Ir He Hn Hst] H. apply scanToken_some in H as [Hid H].
  rewrite He in Hid. assert (NoDup (ts_RecordID <$> t :: seen)) by (by apply NoDup_cons).
  assert (sc_stale s || token_stale now t = negb (destination_Enabled d) || existsb (token_stale now) (t :: seen)) as Hst'.
  { rewrite Hst. cbn [existsb]. by destruct (negb _), (token_stale now t), (existsb _ seen). }
  cbv zeta in H. destruct H as [(Ht & Hn' & ->)|[(Ht & Hn' & ->)|(Ht & Hn' & ->)]].
  - rewrite Hs in Hn'. apply fmap_None in Hn' as ->. exists (Some t), ac, re.
    split; simpl; try done; [by constructor|by intros ? [= <-]|by rewrite He].
  - rewrite Ha in Hn'. apply fmap_None in Hn' as ->. exists st, (Some t), re.
    split; simpl; try done; [by rewrite <- Permutation_middle; constructor|by intros ? [= <-]|by rewrite He].
  - rewrite Hr in Hn'. apply fmap_None in Hn' as ->. exists st, ac, (Some t).
    split; simpl; try done; [|by intros ? [= <-]|by rewrite He].
    rewrite app_nil_r in Hp. rewrite app_assoc, <- Permutation_cons_append. by constructor.
Qed.

Lemma gathered_scan d now tokens seen s st ac re s' :
  gathered d now seen s st ac re -> scanTokens d now s tokens = Some s' ->
  exists st' ac' re', gathered d now (rev tokens ++ seen) s' st' ac' re'.
Proof.
  revert seen s st ac re. induction tokens as [|t tokens IH]; simpl; intros seen s st ac re Hg H.
  - simplify_eq. eauto.
  - destruct (scanToken d now s t) as [s1|] eqn:E; [|done].
    destruct (gathered_step _ _ _ _ _ _ _ _ _ Hg E) as (st1 & ac1 & re1 & Hg1).
    destruct (IH _ _ _ _ _ Hg1 H) as (st2 & ac2 & re2 & Hg2). exists st2, ac2, re2.
    by rewrite <- app_assoc.
Qed.

Definition start_scan (d : Destination) : scan_state := mkScan (negb (destination_Enabled d)) [] None None None.

Lemma gathered_start d now : gathered d now [] (start_scan d) None None None.
Proof. split; simpl; try done; [constructor|by rewrite orb_false_r]. Qed.

Lemma existsb_perm {A} (f : A -> bool) l k : Permutation l k -> existsb f l = existsb f k.
Proof.
  induction 1 as [|x l k _ IH|x y l|l k m _ IH1 _ IH2]; simpl; [done|by rewrite IH| |congruence].
  by destruct (f x), (f y).
Qed.

Lemma NoDup_two {A} (x y : A) : NoDup [x; y] -> y <> x.
Proof. intros Hn ->. apply NoDup_cons in Hn as [Hn _]. apply Hn, list_elem_of_here. Qed.

(** The guards leave one of the five phases. *)
Lemma gathered_phase d now seen s st ac re :
  gathered d now seen s st ac re ->
  (has (sc_staged s) && has (sc_retiring s)) || (has (sc_retiring s) && negb (has (sc_active s))) = false ->
  rotationIncoherent (sc_active s) (sc_retiring s) = false ->
  exists ph, Permutation seen (phase_tokens ph) /\ phase_ok d ph /\ sc_stale s = phase_stale d now ph /\
    sc_staged s = lifecycleTokenView <$> phase_staged ph /\ sc_active s = lifecycleTokenView <$> phase_active ph /\
    sc_retiring s = lifecycleTokenView <$> phase_retiring ph.
Proof.
  intros [Hp Hs Ha Hr Is Ia Ir He Hn Hst] Hg Hc. rewrite Hs, Ha, Hr in Hg. rewrite Ha, Hr in Hc.
  rewrite Hst, Hs, Ha, Hr. rewrite (existsb_perm _ _ _ Hp). rewrite Hp in Hn. unfold phase_stale.
  destruct st as [s'|], ac as [a|], re as [r|]; simpl in *; try done.
  - exists (PhaseActiveStaged a s'). split; [rewrite Hp; apply Permutation_swap|]. split_and!; auto.
    + split; [auto|]. split; [auto|]. by apply NoDup_two.
    + simpl. by destruct (negb _), (token_stale now a), (token_stale now s').
  - exists (PhaseStaged s'). split_and!; simpl; auto.
  - exists (PhaseActiveRetiring a r). split_and!; auto.
    split; [auto|]. split; [auto|]. split; [intros E; by apply (NoDup_two _ _ Hn)|].
    unfold t_equal in Hc. bool_hyps. done.
  - exists (PhaseActive a). split_and!; simpl; auto.
  - exists PhaseUnprovisioned. split_and!; simpl; auto.
Qed.

Ltac scan_next H :=
  rewrite (scanToken_runs _ _ _ _ _ H)
    by (simpl; rewrite ?not_elem_of_cons; repeat split; first [congruence|apply not_elem_of_nil]);
  cbn -[token_stale destination_Enabled].

(** Scanning the tokens of a phase, in any order. *)
Lemma scan_phase d now ph tokens :
  phase_ok d ph -> Permutation tokens (phase_tokens ph) ->
  exists seen, scanTokens d now (start_scan d) tokens =
    Some (mkScan (phase_stale d now ph) seen (lifecycleTokenView <$> phase_staged ph)
      (lifecycleTokenView <$> phase_active ph) (lifecycleTokenView <$> phase_retiring ph)).
Proof.
  assert (forall e x y, e || x || y = e || (x || (y || false))) as Hxy by (by intros [] [] []).
  assert (forall e x y, e || y || x = e || (x || (y || false))) as Hyx by (by intros [] [] []).
  unfold phase_stale, start_scan. intros Hok Hp. destruct ph as [|s|a|a s|a r]; simpl in *.
  - apply Permutation_nil_r in Hp as ->. simpl. rewrite orb_false_r. eauto.
  - apply Permutation_singleton_r in Hp as ->. simpl. scan_next Hok. rewrite orb_false_r. eauto.
  - apply Permutation_singleton_r in Hp as ->. simpl. scan_next Hok. rewrite orb_false_r. eauto.
  - destruct Hok as (Ha & Hs & Hne). symmetry in Hp. apply Permutation_length_2_inv in Hp as [-> | ->]; simpl.
    + scan_next Ha. scan_next Hs. rewrite Hxy. eauto.
    + scan_next Hs. scan_next Ha. rewrite Hyx. eauto.
  - destruct Hok as (Ha & Hr & Hne & _). symmetry in Hp. apply Permutation_length_2_inv in Hp as [-> | ->]; simpl.
    + scan_next Ha. scan_next Hr. rewrite Hxy. eauto.
    + scan_next Hr. scan_next Ha. rewrite Hyx. eauto.
Qed.

Lemma NewSnapshot_iff d tokens now snap :
  NewDestinationLifecycleSnapshot d tokens now = Ok snap <->
  dst_id d <> zero_arr 16 /\ dst_audienceID d <> zero_arr 16 /\ now <> 0 /\
  exists ph, Permutation tokens (phase_tokens ph) /\ phase_ok d ph /\ snap = snapshot_of d now ph.
Proof.
  unfold NewDestinationLifecycleSnapshot. fold (start_scan d). split.
  - destruct (_ || _) eqn:G; [done|]. unfold t_is_zero in G. bool_hyps.
    destruct (scanTokens d now (start_scan d) tokens) as [s|] eqn:E; [|done]. cbv zeta.
    destruct (_ || _) eqn:G1; [done|]. destruct (rotationIncoherent _ _) eqn:G2; [done|].
    destruct (gathered_scan _ _ _ _ _ _ _ _ _ (gathered_start d now) E) as (st & ac & re & Hg).
    destruct (gathered_phase _ _ _ _ _ _ _ Hg G1 G2) as (ph & Hp & Hok & Hst & Hs & Ha & Hr).
    rewrite app_nil_r, <- Permutation_rev in Hp. intros Hsnap. split_and!; try done.
    exists ph. split_and!; try done. unfold snapshot_of. rewrite <- Hst.
    rewrite Hs, Ha, Hr in Hsnap. destruct (sc_stale s); [by simplify_eq|].
    destruct ph; cbn in Hsnap; by simplify_eq.
  - intros (Hd & Ha & Hn & ph & Hp & Hok & ->).
    rewrite (proj2 (arr_is_zero_false _) Hd), (proj2 (arr_is_zero_false _) Ha).
    assert (t_is_zero now = false) as -> by (by apply Z.eqb_neq).
    assert ((3 <? Z.of_nat (length tokens)) = false) as -> by (rewrite Hp; by destruct ph).
    destruct (scan_phase d now ph tokens Hok Hp) as [seen ->]. cbn [orb]. cbv zeta.
    cbn [sc_stale sc_staged sc_active sc_retiring].
    assert (rotationIncoherent (lifecycleTokenView <$> phase_active ph) (lifecycleTokenView <$> phase_retiring ph) = false) as ->.
    { destruct ph; try done. simpl. destruct Hok as (_ & _ & _ & E1 & E2 & E3). simpl. unfold t_equal. lia. }
    unfold snapshot_of. by destruct ph; cbn -[phase_stale]; destruct (phase_stale d now _).
Qed.

(** (C26) The classification of a destination. The rows read for it are accepted
    exactly when they are, in any order, the tokens of one of the five phases
    of its lifecycle: none, one staged, one active, an active and a staged
    one, or an active one with the retiring one it replaced at the same
    instant, all of them holding the very destination they are read for: the
    same struct, with the same representation of its times. The status is that phase if the destination is enabled and every
    token is good at that instant, and otherwise asks for reconciliation; the
    order of the rows does not matter. *)
Theorem snapshot_classifies destination tokens now snapshot :
  NewDestinationLifecycleSnapshot destination tokens now = Ok snapshot <->
  dst_id destination <> zero_arr 16 /\ dst_audienceID destination <> zero_arr 16 /\ now <> 0 /\
  exists ph, Permutation tokens (phase_tokens ph) /\ phase_ok destination ph /\
    snapshot = snapshot_of destination now ph.
Proof. apply NewSnapshot_iff. Qed.

(** The same instants in another location are another destination. *)
Example snapshot_location :
  let staged d := mkTokenSpec sample_audience d (mk_arr 16 [x03]) (Some (mk_arr 32 [x04])) (lit "k") DestinationTokenStaged
    sample_t0 0 0 0 (sample_t0 + 24 * Hour) (sample_t0 + Hour) 0 sample_t0 in
  let local := mkDestination sample_audience (mk_arr 16 [x06]) DestinationEnabled sample_t0 sample_t0 (mkRep 1 None) utc_rep in
  is_ok (NewDestinationLifecycleSnapshot sample_destination [staged sample_destination] (sample_t0 + Minute)) = true /\
  NewDestinationLifecycleSnapshot sample_destination [staged local] (sample_t0 + Minute) =
    Err ErrDestinationLifecycleReconciliation.
Proof. vm_compute. done. Qed.

(** * One-time tokens *)

Lemma encodeToken_parse entropy : ParseOpaqueDestinationToken (encodeToken entropy) = Ok entropy.
Proof. by apply ParseOpaqueDestinationToken_iff. Qed.

Lemma generate_runs ctx tr recordErr recordID entropy :
  runs (generate ctx) tr (recordErr, recordID, entropy) ->
  recordErr = None -> recordID <> zero_arr 16 ->
  @ev LifeE (LfNewRecordID ctx) (Ok recordID) ∈ tr /\ @ev LifeE LfRandom (Ok entropy) ∈ tr.
Proof.
  intros (r & t1 & -> & H) -> Hz. destruct r as [id|e]; cbn [bind] in H; [|by destruct H as [_ [=]]].
  destruct (arr_is_zero id) eqn:E.
  { apply arr_is_zero_true in E. destruct H as [_ H]. by simplify_eq. }
  destruct H as (x & t2 & -> & H). destruct x as [x|e]; destruct H as [_ H]; simplify_eq.
  split; in_list.
Qed.

(** The call of the repository that stages a candidate. *)
Definition staging (ctx : Ctx) (candidate : StagedTokenCandidate) (now : Time)
    (rotation : option (DestinationTokenRecordID * OpaqueDestinationToken)) (e : option error) : event LifeE :=
  match rotation with
  | None => @ev LifeE (LfCreateStaged ctx candidate now) e
  | Some (expected, _) => @ev LifeE (LfCreateRotationStaged ctx (mkCreateRotation candidate expected now)) e
  end.

Lemma NewStagedTokenCandidate_ok a d r v k c e cl x :
  NewStagedTokenCandidate a d r v k c e cl = Ok x -> x = mkStagedCandidate a d r v k c e cl.
Proof. unfold NewStagedTokenCandidate. case_match; [done|]. by intros [= ->]. Qed.

Lemma NewCreateRotation_ok c expected now cmd :
  NewCreateRotationStagedTokenCommand c expected now = Ok cmd -> cmd = mkCreateRotation c expected now.
Proof.
  unfold NewCreateRotationStagedTokenCommand. destruct (revalidate c) as [v|] eqn:E; [|done].
  unfold revalidate in E. apply NewStagedTokenCandidate_ok in E. case_match; [done|]. intros [= <-].
  subst v. by destruct c.
Qed.

(** How a creation can end. *)
Definition created_outcome (ctx : Ctx) (audience : GatewayAudienceID) (destination : DestinationID)
    (rotation : option (DestinationTokenRecordID * OpaqueDestinationToken)) (tr : trace LifeE)
    (created : CreatedStagedToken) (err : option error) : Prop :=
  match err with
  | None => exists (token : OpaqueDestinationToken) keyID key candidate now,
      ParseOpaqueDestinationToken (ct_token created) = Ok token /\
      @ev LifeE LfRandom (Ok token) ∈ tr /\
      @ev LifeE (LfVerifierKey ctx audience keyID) (Ok key) ∈ tr /\
      ComputeDestinationTokenVerifier audience token key = Ok (sc_verifier candidate) /\
      sc_verifierKeyID candidate = keyID /\ sc_recordID candidate = ct_recordID created /\
      sc_audienceID candidate = audience /\ sc_destination candidate = destination /\
      staging ctx candidate now rotation None ∈ tr /\
      (forall expected current, rotation = Some (expected, current) -> token <> current)
  | Some e => ct_token created = [] /\
      (ct_recordID created = zero_arr 16 \/
       e = Sentinel ErrDestinationLifecycleOutcomeUnknown /\
       exists candidate now e', sc_recordID candidate = ct_recordID created /\
         staging ctx candidate now rotation (Some e') ∈ tr)
  end.

Lemma created_failed ctx audience destination rotation tr e :
  created_outcome ctx audience destination rotation tr zero_created (Some e).
Proof. split; [done|by left]. Qed.

(** A step of the trace that came before does not matter. *)
Lemma created_outcome_app ctx audience destination rotation t1 t2 created err :
  created_outcome ctx audience destination rotation t2 created err ->
  created_outcome ctx audience destination rotation (t1 ++ t2) created err.
Proof.
  destruct err as [e|]; simpl.
  - intros [Ht H]. split; [done|]. destruct H as [H|(-> & c & n & e' & Hc & He)]; [by left|].
    right. split; [done|]. exists c, n, e'. split; [done|]. apply elem_of_app. auto.
  - intros (t & k & key & c & n & H). exists t, k, key, c, n.
    decompose [and] H. split_and!; try done; apply elem_of_app; auto.
Qed.

(** How the call of the repository can end. *)
Definition staged_outcome (ctx : Ctx) (candidate : StagedTokenCandidate) (encoded : bytes) (now : Time)
    (rotation : option (DestinationTokenRecordID * OpaqueDestinationToken)) (tr : trace LifeE)
    (created : CreatedStagedToken) (err : option error) : Prop :=
  match err with
  | None => created = mkCreated (sc_recordID candidate) encoded /\ staging ctx candidate now rotation None ∈ tr
  | Some e => ct_token created = [] /\
      (ct_recordID created = zero_arr 16 \/
       e = Sentinel ErrDestinationLifecycleOutcomeUnknown /\ ct_recordID created = sc_recordID candidate /\
       exists e', staging ctx candidate now rotation (Some e') ∈ tr)
  end.

Lemma persistStaged_runs ctx candidate encoded now rotation tr created err :
  runs (persistStaged ctx candidate encoded now rotation) tr (created, err) ->
  staged_outcome ctx candidate encoded now rotation tr created err.
Proof.
  assert (forall (e : option error) t,
    runs (E := LifeE) (match e with
      | Some e => let classified := classifyLifecycle e in
          if classified =?? ErrDestinationLifecycleOutcomeUnknown
          then Ret (mkCreated (sc_recordID candidate) [], Some (Sentinel classified))
          else Ret (created_error (Sentinel classified))
      | None => Ret (mkCreated (sc_recordID candidate) encoded, None)
      end) t (created, err) ->
    staging ctx candidate now rotation e ∈ tr -> staged_outcome ctx candidate encoded now rotation tr created err)
    as Hend.
  { intros [e|] t H Hin; [|destruct H as [_ [= -> ->]]; done]. cbv zeta in H.
    destruct (bool_decide (classifyLifecycle e = _)) eqn:E; destruct H as [_ [= -> ->]]; (split; [done|]); [|by left].
    right. apply bool_decide_eq_true in E. rewrite E. split; [done|]. split; [done|]. eauto. }
  unfold persistStaged. cbv zeta. destruct rotation as [[expected current]|].
  - destruct (NewCreateRotationStagedTokenCommand candidate expected now) as [cmd|] eqn:E.
    + apply NewCreateRotation_ok in E as ->. intros (e & t & -> & H). cbn [bind] in H.
      eapply Hend; [exact H|]. apply list_elem_of_here.
    + intros [_ [= -> ->]]. split; [done|by left].
  - intros (e & t & -> & H). cbn [bind] in H. eapply Hend; [exact H|]. apply list_elem_of_here.
Qed.

Lemma createStagedToken_runs service ctx audience destination rotation tr created err :
  runs (createStagedToken service ctx audience destination rotation) tr (created, err) ->
  created_outcome ctx audience destination rotation tr created err.
Proof.
  unfold createStagedToken. intros H.
  apply runs_bind in H as (t1 & t2 & input & -> & _ & H). apply created_outcome_app.
  destruct input as [[sv now]|e]; [|destruct H as [_ [= -> ->]]; apply created_failed].
  apply runs_bind in H as (t3 & t4 & [[recordErr recordID] entropy] & -> & Hgen & H).
  apply runs_bind in H as (t5 & t6 & [c|] & -> & _ & H); [destruct H as [_ [= -> ->]]; apply created_failed|].
  destruct (is_err recordErr || arr_is_zero recordID) eqn:G; [destruct H as [_ [= -> ->]]; apply created_failed|].
  apply orb_false_iff in G as [Ge Gz]. apply arr_is_zero_false in Gz.
  apply generate_runs in Hgen as [_ Hrandom]; [|by destruct recordErr|done].
  cbv zeta in H. rewrite encodeToken_parse in H.
  match type of H with runs (if ?b then _ else _) _ _ => destruct b eqn:Gcur end;
    [destruct H as [_ [= -> ->]]; apply created_failed|].
  destruct H as (key & t7 & -> & H). cbn [bind] in H.
  apply runs_bind in H as (t8 & t9 & [c|] & -> & _ & H); [destruct H as [_ [= -> ->]]; apply created_failed|].
  destruct key as [key|e]; [|destruct H as [_ [= -> ->]]; apply created_failed].
  destruct (ComputeDestinationTokenVerifier audience entropy key) as [verifier|] eqn:Hv;
    [|destruct H as [_ [= -> ->]]; apply created_failed].
  destruct (NewStagedTokenCandidate _ _ _ _ _ _ _ _) as [candidate|] eqn:Hc;
    [|destruct H as [_ [= -> ->]]; apply created_failed].
  apply NewStagedTokenCandidate_ok in Hc as ->. apply persistStaged_runs in H.
  destruct err as [e|]; simpl in H.
  - split; [apply H|]. destruct H as [_ [H|(-> & Hid & e' & He)]]; [by left|]. right. split; [done|].
    match type of He with staging _ ?c _ _ _ ∈ _ => exists c, now, e' end. split; [done|]. rewrite !elem_of_app, elem_of_cons, elem_of_app. auto 10.
  - destruct H as [-> Hst]. match type of Hst with staging _ ?c _ _ _ ∈ _ => exists entropy, (ls_activeKeyID sv), key, c, now end. rewrite !elem_of_app, !elem_of_cons, !elem_of_app.
    split; [apply encodeToken_parse|]. split; [auto 10|]. split; [eauto 10|]. split_and!; try done; [auto 10|].
    intros expected current ->. by apply bool_decide_eq_false in Gcur.
Qed.

(** (C27) The one-time token. A creation that succeeds returns a token made of
    the 32 random bytes read during the call, whose verifier under the key
    read for the audience is the one the repository confirmed, under the
    returned record id, and which differs from the current token in a
    rotation. A creation that fails returns no token, and no record id either
    unless the outcome of the repository call is unknown: then it is the id
    that call carried. *)
Theorem one_time_token service ctx audience destination rotation tr created err
    (H : runs (createStagedToken service ctx audience destination rotation) tr (created, err)) :
  created_outcome ctx audience destination rotation tr created err.
Proof. exact (createStagedToken_runs _ _ _ _ _ _ _ _ H). Qed.

(** * A concrete creation *)

Definition sample_life (o : life_op) (s : unit) : ans LifeE o * unit :=
  match o return ans LifeE o * unit with
  | LfNow => (sample_t0, s)
  | LfNewRecordID _ => (NewDestinationTokenRecordID false (Ok (mk_arr 16 [x05])), s)
  | LfRandom => (Ok (mk_arr 32 [x09]), s)
  | LfVerifierKey _ _ _ => (Ok golden_key, s)
  | LfInspect _ _ _ _ => (Err ErrDestinationLifecycleUnavailable, s)
  | _ => (None, s)
  end.

Definition sample_life_service : option LifecycleService :=
  match NewDestinationTokenLifecycleService false (lit "key") (90 * 24 * Hour) (24 * Hour) (24 * Hour) with
  | Ok s => Some s | Err _ => None
  end.

Definition sample_creation : prog LifeE (CreatedStagedToken * option error) :=
  createStagedToken sample_life_service CtxReq sample_audience (mk_arr 16 [x06]) None.

Example sample_creation_ok :
  run (E := LifeE) sample_life sample_creation tt =
  ((mkCreated (mk_arr 16 (set_v4_bits (mk_arr 16 [x05]))) (encodeToken (mk_arr 32 [x09])), None), tt).
Proof. vm_compute. reflexivity. Qed.

Lemma one_time_token_witness :
  created_outcome CtxReq sample_audience (mk_arr 16 [x06]) None (run_trace (E := LifeE) sample_life sample_creation tt)
    (mkCreated (mk_arr 16 (set_v4_bits (mk_arr 16 [x05]))) (encodeToken (mk_arr 32 [x09]))) None.
Proof.
  apply (one_time_token sample_life_service). fold sample_creation.
  pose proof (run_runs (E := LifeE) sample_life sample_creation tt) as H. rewrite sample_creation_ok in H. exact H.
Defined.
