(* ===== verification/LifecycleRepo.v ===== *)
(** The PostgreSQL destination token lifecycle:
    internal/postgres/destination_token_lifecycle.go.

    Every mutation runs in one read-committed transaction on one pooled
    connection: the destination row and its live token rows are locked and
    read, the command is checked against them, one or two statements change
    the rows, and the transaction commits. Inspections read the same rows in a
    read-only repeatable-read transaction. The pool, the connection, the
    transaction, its rows and [ctx.Err()] are external calls. *)

From S2P Require Import Prelude Effects GoErrors GoTime Encoding Uuid PgTypes SecurityTypes TokenRows Lifecycle.

Definition destinationTokenLifecycleRollbackTimeout : Duration := 5 * Second.

(** * External calls *)

(** The statements that change token rows, by their SQL constants; the
    arguments of [lc_update] are the audience, the destination, the record,
    the expected [state_changed_at] and the instant of the change. *)
Inductive lc_update : Type :=
| activateInitialSQL
| retireSQL (deadline : Time)
| activateRotationSQL
| revokeStagedSQL
| revokeActiveSQL
| restoreRetiringSQL
| revokeRetiringSQL.

Inductive lc_stmt : Type :=
| InsertStaged (record audience destination verifier keyID : bytes) (createdAt expiresAt cleanup : Time)
| UpdateToken (u : lc_update) (audience destination record : bytes) (changedAt now : Time).

(** The queries that return token rows. *)
Inductive lc_query : Type :=
| LiveTokens (lock : bool) (destination : bytes)
| AttemptTokens (audience destination new old : bytes).

(** [pgx.TxOptions]: read committed and writable, or repeatable read and
    read-only. *)
Inductive tx_mode : Type := ReadCommittedReadWrite | RepeatableReadReadOnly.

Inductive lc_op : Type :=
| LcAcquire (ctx : Ctx)
| LcBegin (ctx : Ctx) (mode : tx_mode)
| LcDestination (ctx : Ctx) (lock : bool) (destination : bytes)
| LcQuery (ctx : Ctx) (q : lc_query)
| LcNext
| LcScan
| LcRowsErr
| LcRowsClose
| LcExec (ctx : Ctx) (s : lc_stmt)
| LcCommit (ctx : Ctx)
| LcRollback (ctx : Ctx)
| LcRelease
| LcDestroy
| LcCtxErr (ctx : Ctx).

(** [LcAcquire], [LcBegin] and [LcQuery] answer whether the returned interface
    is non-nil, and the error. [LcDestination] is [QueryRow] with its [Scan]:
    [None] when the row is nil. [LcExec] answers the affected rows. *)
Definition LcE : sig := Sig lc_op (fun o =>
  match o with
  | LcAcquire _ | LcBegin _ _ | LcQuery _ _ => (bool * option error)%type
  | LcDestination _ _ _ => option (result lifecycleDestinationRecord)
  | LcNext => bool
  | LcScan => result lifecycleTokenRecord
  | LcExec _ _ => result Z
  | LcRowsErr | LcCommit _ | LcRollback _ | LcCtxErr _ => option error
  | LcRowsClose | LcRelease | LcDestroy => unit
  end).

(** [DestinationTokenLifecycleRepository]; [None] below is a nil repository. *)
Record LifecycleRepository : Type := mkLifecycleRepository {
  lr_acquire_nil : bool;
  lr_rollbackTimeout : Duration
}.

(** [newDestinationTokenLifecycleRepository]. *)
Definition newDestinationTokenLifecycleRepository : LifecycleRepository :=
  mkLifecycleRepository false destinationTokenLifecycleRollbackTimeout.

(** [NewDestinationTokenLifecycleRepository]. *)
Definition NewDestinationTokenLifecycleRepository (pool_is_nil : bool) : LifecycleRepository :=
  if pool_is_nil then mkLifecycleRepository true 0 else newDestinationTokenLifecycleRepository.

(** Its acquire closure over [pool.Acquire]. *)
Definition lifecyclePoolAcquire (ctx : Ctx) : prog LcE (bool * option error) :=
  let! a := @call LcE (LcAcquire ctx) in
  match a with
  | (connection, Some e) =>
      let! _ := (if connection then @call LcE LcDestroy else Ret tt) in Ret (false, Some e)
  | (connection, None) =>
      if connection then Ret (true, None)
      else Ret (false, Some (Sentinel ErrDestinationLifecycleUnavailable))
  end.

(** The repository over a pgx pool, whose connections and transactions it
    wraps one to one. *)
Definition lifecycleViaPool {A} (p : prog LcE A) : prog LcE A :=
  interp (F := LcE) (fun o : op LcE =>
    match o return prog LcE (ans LcE o) with
    | LcAcquire ctx => lifecyclePoolAcquire ctx
    | o => @call LcE o
    end) p.

(** * Errors *)

Definition lifecycleRepositoryError (kind : sentinel) (operation : string) : error := safeError kind operation.

(** [lifecycleRepositoryCancellation] with an error: the context is not
    examined. [lifecycleRepositorySingleCauseMatches] has the body of
    [singleCauseMatches]. *)
Definition errorCancellation (e : error) : option sentinel :=
  if singleCauseMatches e Canceled then Some ErrDestinationLifecycleCanceled
  else if singleCauseMatches e DeadlineExceeded then Some ErrDestinationLifecycleDeadline
  else None.

(** [lifecycleRepositoryCancellation] without an error. *)
Definition contextCancellation (ctx : Ctx) : prog LcE (option sentinel) :=
  if ctx_is_nil ctx then Ret None
  else
    let! c := @call LcE (LcCtxErr ctx) in
    if opt_is_sentinel c Canceled then Ret (Some ErrDestinationLifecycleCanceled)
    else
      let! c := @call LcE (LcCtxErr ctx) in
      if opt_is_sentinel c DeadlineExceeded then Ret (Some ErrDestinationLifecycleDeadline) else Ret None.

(** [validateLifecycleRepositoryInput]; [Ok] carries the repository. *)
Definition validateLifecycleRepositoryInput (repository : option LifecycleRepository) (ctx : Ctx)
    (audience : GatewayAudienceID) (destination : DestinationID) (now : Time)
  : prog LcE (result LifecycleRepository) :=
  let invalid := lifecycleRepositoryError ErrDestinationLifecycleInvalid "lifecycle repository input" in
  match repository with
  | None => Ret (Err invalid)
  | Some repository =>
    if lr_acquire_nil repository || (lr_rollbackTimeout repository <=? 0) || ctx_is_nil ctx ||
       arr_is_zero audience || arr_is_zero destination || t_is_zero now
    then Ret (Err invalid)
    else
    let! cancellation := contextCancellation ctx in
    match cancellation with
    | Some c => Ret (Err (lifecycleRepositoryError c "lifecycle repository canceled"))
    | None => Ret (Ok repository)
    end
  end.

(** [lifecycleConnectionError] of a non-nil error. *)
Definition lifecycleConnectionError (e : error) (operation : string) : error :=
  match errorCancellation e with
  | Some c => lifecycleRepositoryError c operation
  | None => lifecycleRepositoryError ErrDestinationLifecycleUnavailable operation
  end.

(** [lifecycleReadError] of a non-nil error. *)
Definition lifecycleReadError (e : error) : error :=
  if negb (lifecycleRepositorySingleCauseChain e)
  then InternalErr ErrDestinationLifecycleUnavailable true
  else match errorCancellation e with
       | Some c => InternalErr c (isConnectionInterruption e)
       | None => InternalErr ErrDestinationLifecycleUnavailable (isConnectionInterruption e)
       end.

(** [lifecycleConstraintName]; the empty name is [None]. *)
Definition lifecycleConstraintName (e : error) : option bytes :=
  if negb (singleCausePostgresError e) then None
  else match errors_as f_pg e with
       | Some (code, name) => if (code =?? lit "23505") && (name <>?? []) then Some name else None
       | None => None
       end.

(** [lifecycleMutationError]. *)
Definition lifecycleMutationError (e : error) : error :=
  if negb (lifecycleRepositorySingleCauseChain e)
  then InternalErr ErrDestinationLifecycleOutcomeUnknown true
  else match errorCancellation e with
  | Some c => InternalErr c (isConnectionInterruption e)
  | None =>
  if isConnectionInterruption e then InternalErr ErrDestinationLifecycleUnavailable true
  else match lifecycleConstraintName e with
  | Some name =>
      if (name =?? lit "gateway_destination_tokens_one_staged_per_destination") ||
         (name =?? lit "gateway_destination_tokens_one_active_per_destination") ||
         (name =?? lit "gateway_destination_tokens_one_retiring_per_destination")
      then ErrDestinationLifecycleConflict
      else ErrDestinationLifecycleUnavailable
  | None =>
  if singleCausePostgresError e then ErrDestinationLifecycleUnavailable
  else InternalErr ErrDestinationLifecycleOutcomeUnknown true
  end end.

(** [lifecycleUnsafeOrConnectionInterruption] of a non-nil error. *)
Definition lifecycleUnsafeOrConnectionInterruption (e : error) : bool :=
  if negb (lifecycleRepositorySingleCauseChain e) then true else isConnectionInterruption e.

(** An error whose dynamic type has none of the methods [Is] and [Unwrap]. *)
Definition has_no_methods (e : error) : bool :=
  match e with
  | Sentinel ErrMigrationInterrupted => false   (* fmt.Errorf with %w *)
  | Sentinel ErrNoRows => false                 (* unwraps to sql.ErrNoRows *)
  | Sentinel _ => true
  | SafeErr _ _ | InternalErr _ _ | ReplayUnknown _ => false
  | Foreign d many causes => f_plain d && negb many && match causes with [] => true | _ => false end
  end.

(** [lifecycleSameDirectReadCause]. *)
Definition lifecycleSameDirectReadCause (primary terminal : error) : bool :=
  if typed_nil primary || typed_nil terminal then false
  else if negb (has_no_methods primary) || negb (has_no_methods terminal) then false
  else match primary, terminal with
       | Sentinel s, Sentinel t => s =?? t
       | Foreign d _ _, Foreign d' _ _ => d =?? d'
       | _, _ => false
       end.

(** [lifecycleCombinedReadCause] of a non-nil primary error. *)
Definition lifecycleCombinedReadCause (primary : error) (terminal : option error) : error :=
  match terminal with
  | None => primary
  | Some terminal =>
      if lifecycleSameDirectReadCause primary terminal then primary else errors_join primary terminal
  end.

(** [errors.As(err, &internal)] for a [lifecycleInternalError]. *)
Fixpoint internal_as (e : error) : option bool :=
  match e with
  | Sentinel _ | ReplayUnknown _ => None
  | SafeErr k _ => internal_as k
  | InternalErr _ destroy => Some destroy
  | Foreign _ many causes =>
      if many then
        (fix go cs := match cs with
           | [] => None
           | c :: cs => match internal_as c with Some x => Some x | None => go cs end
           end) causes
      else match causes with [] => None | c :: _ => internal_as c end
  end.

(** [lifecycleErrorRequiresDestroy]. *)
Definition lifecycleErrorRequiresDestroy (e : error) : bool := default false (internal_as e).

(** [lifecycleRowsAffected]. *)
Definition lifecycleRowsAffected (rows : Z) : option error :=
  if rows =? 1 then None
  else if rows =? 0 then Some (Sentinel ErrDestinationLifecycleConflict)
  else Some (Sentinel ErrDestinationLifecycleReconciliation).

(** * Reading the state of a destination *)

Record lifecycleLockedState : Type := mkLocked {
  lk_destination : Destination;
  lk_snapshot : DestinationLifecycleSnapshot
}.

(** The loop over the token rows, with [slots] rows left before the limit of
    three; [tokens] are the ones read. *)
Fixpoint readTokens (slots : nat) (expectedAudience : GatewayAudienceID) (destination : Destination)
    (tokens : list DestinationToken) : prog LcE (result (list DestinationToken)) :=
  let! more := @call LcE LcNext in
  if negb more then Ret (Ok tokens)
  else
  match slots with
  | O => Ret (Err ErrDestinationLifecycleReconciliation)
  | S slots =>
    let! scanned := @call LcE LcScan in
    match scanned with
    | Err e =>
        if lifecycleUnsafeOrConnectionInterruption e || has (errorCancellation e)
        then Ret (Err (lifecycleReadError e)) else Ret (Err ErrDestinationLifecycleReconciliation)
    | Ok record =>
        match record_token record expectedAudience destination with
        | Err _ => Ret (Err ErrDestinationLifecycleReconciliation)
        | Ok token => readTokens slots expectedAudience destination (tokens ++ [token])
        end
    end
  end.

(** What follows the query of the tokens, before the deferred [rows.Close()]. *)
Definition readLifecycleTokens (expectedAudience : GatewayAudienceID) (destination : Destination) (now : Time)
  : prog LcE (result lifecycleLockedState) :=
  let! read := readTokens 3 expectedAudience destination [] in
  match read with
  | Err e => Ret (Err e)
  | Ok tokens =>
    let! rowsErr := @call LcE LcRowsErr in
    match rowsErr with
    | Some e => Ret (Err (lifecycleReadError e))
    | None =>
        match NewDestinationLifecycleSnapshot destination tokens now with
        | Err _ => Ret (Err ErrDestinationLifecycleReconciliation)
        | Ok snapshot => Ret (Ok (mkLocked destination snapshot))
        end
    end
  end.

(** [loadDestinationLifecycleState]. *)
Definition loadDestinationLifecycleState (ctx : Ctx) (expectedAudience : GatewayAudienceID)
    (expectedDestination : DestinationID) (now : Time) (lock : bool) : prog LcE (result lifecycleLockedState) :=
  let! row := @call LcE (LcDestination ctx lock (formatUUID expectedDestination)) in
  match row with
  | None => Ret (Err (InternalErr ErrDestinationLifecycleUnavailable true))
  | Some (Err e) =>
      if is_sentinel e ErrNoRows then Ret (Err ErrDestinationLifecycleConflict)
      else Ret (Err (lifecycleReadError e))
  | Some (Ok record) =>
  match record_destination record expectedAudience expectedDestination now with
  | Err _ => Ret (Err ErrDestinationLifecycleReconciliation)
  | Ok destination =>
  let! queried := @call LcE (LcQuery ctx (LiveTokens lock (formatUUID expectedDestination))) in
  match queried with
  | (_, Some e) => Ret (Err (lifecycleReadError e))
  | (false, None) => Ret (Err (InternalErr ErrDestinationLifecycleUnavailable true))
  | (true, None) =>
      let! loaded := readLifecycleTokens expectedAudience destination now in
      let! _ := @call LcE LcRowsClose in
      Ret loaded
  end end end.

(** * Ending a transaction *)

(** How a body ends: the values of [transactionOpen] and [release] that the
    deferred functions see, and the result. *)
Record lc_exit (A : Type) : Type := mkExit {
  ex_open : bool;
  ex_release : bool;
  ex_result : A
}.
Arguments mkExit {A} _ _ _.
Arguments ex_open {A} _.
Arguments ex_release {A} _.
Arguments ex_result {A} _.

(** The two deferred functions: the rollback of a transaction that is still
    open, whose failure replaces the result by [onFailure], and the release. *)
Definition lifecycleDefers {A} (repository : LifecycleRepository) (onFailure : A) (x : lc_exit A) : prog LcE A :=
  let! '(release, r) :=
    (if ex_open x then
       let! e := @call LcE (LcRollback (CtxDetached (lr_rollbackTimeout repository))) in
       match e with
       | Some _ => let! _ := @call LcE LcDestroy in Ret (false, onFailure)
       | None => Ret (ex_release x, ex_result x)
       end
     else Ret (ex_release x, ex_result x)) in
  let! _ := (if release then @call LcE LcRelease else Ret tt) in
  Ret r.

(** The kind of the error [rollbackLifecycleMutation] and [lifecycleRollbackRead]
    return for a cause, among the [kinds] they look for. *)
Definition rollbackKind (kinds : list sentinel) (cause : error) : sentinel :=
  if singleCauseMatches cause ErrDestinationLifecycleCanceled then ErrDestinationLifecycleCanceled
  else if singleCauseMatches cause ErrDestinationLifecycleDeadline then ErrDestinationLifecycleDeadline
  else match errorCancellation cause with
       | Some c => c
       | None => default ErrDestinationLifecycleUnavailable (firstSingleCause kinds cause)
       end.

(** The operation named in that error. *)
Definition rollbackOperation (canceled : string) (other : string) (kind : sentinel) : string :=
  if (kind =?? ErrDestinationLifecycleCanceled) || (kind =?? ErrDestinationLifecycleDeadline)
  then canceled else other.

(** [rollbackLifecycleMutation]. *)
Definition rollbackLifecycleMutation (repository : LifecycleRepository) (cause : error)
  : prog LcE (lc_exit (option error)) :=
  let! rollbackErr := @call LcE (LcRollback (CtxDetached (lr_rollbackTimeout repository))) in
  match rollbackErr with
  | Some _ =>
      let! _ := @call LcE LcDestroy in
      Ret (mkExit false false
        (Some (lifecycleRepositoryError ErrDestinationLifecycleOutcomeUnknown "lifecycle mutation rollback")))
  | None =>
      let destroy := lifecycleErrorRequiresDestroy cause || isConnectionInterruption cause in
      let! _ := (if destroy then @call LcE LcDestroy else Ret tt) in
      if singleCauseMatches cause ErrDestinationLifecycleOutcomeUnknown
      then Ret (mkExit false (negb destroy)
        (Some (lifecycleRepositoryError ErrDestinationLifecycleOutcomeUnknown "lifecycle mutation")))
      else
        let kind := rollbackKind [ErrDestinationLifecycleInvalid; ErrDestinationLifecycleConflict;
          ErrDestinationLifecycleReconciliation; ErrDestinationLifecycleUnavailable] cause in
        Ret (mkExit false (negb destroy) (Some (lifecycleRepositoryError kind
          (rollbackOperation "lifecycle mutation canceled" "lifecycle mutation" kind))))
  end.

(** [lifecycleRollbackRead]. *)
Definition lifecycleRollbackRead {A} (repository : LifecycleRepository) (cause : error)
  : prog LcE (lc_exit (result A)) :=
  let! rollbackErr := @call LcE (LcRollback (CtxDetached (lr_rollbackTimeout repository))) in
  match rollbackErr with
  | Some _ =>
      let! _ := @call LcE LcDestroy in
      Ret (mkExit false false
        (Err (lifecycleRepositoryError ErrDestinationLifecycleUnavailable "lifecycle inspection rollback")))
  | None =>
      let destroy := lifecycleErrorRequiresDestroy cause || isConnectionInterruption cause in
      let! _ := (if destroy then @call LcE LcDestroy else Ret tt) in
      let kind := rollbackKind [ErrDestinationLifecycleConflict; ErrDestinationLifecycleReconciliation;
        ErrDestinationLifecycleUnavailable] cause in
      Ret (mkExit false (negb destroy) (Err (lifecycleRepositoryError kind
        (rollbackOperation "lifecycle inspection canceled" "lifecycle inspection" kind))))
  end.

(** * Opening a transaction *)

(** Acquiring a connection and beginning a transaction, which the mutations
    and both inspections share: [Ok] is an open transaction on a held
    connection; after an error the connection has been given back, by
    [Destroy] or by the deferred [Release]. *)
Definition openTransaction (ctx : Ctx) (mode : tx_mode) (connecting beginning : string)
  : prog LcE (result unit) :=
  let! a := @call LcE (LcAcquire ctx) in
  match a with
  | (connection, Some e) =>
      let! _ := (if connection then @call LcE LcDestroy else Ret tt) in
      Ret (Err (lifecycleConnectionError e connecting))
  | (false, None) => Ret (Err (lifecycleRepositoryError ErrDestinationLifecycleUnavailable connecting))
  | (true, None) =>
  let! b := @call LcE (LcBegin ctx mode) in
  match b with
  | (_, Some e) =>
      let! _ := (if lifecycleUnsafeOrConnectionInterruption e
                 then @call LcE LcDestroy else @call LcE LcRelease) in
      Ret (Err (lifecycleConnectionError e beginning))
  | (false, None) =>
      let! _ := @call LcE LcDestroy in
      Ret (Err (lifecycleRepositoryError ErrDestinationLifecycleUnavailable beginning))
  | (true, None) => Ret (Ok tt)
  end end.

(** * Mutations *)

(** A [lifecycleMutation] answers the value of [mutationSent] and its error. *)
Definition lifecycleMutation : Type := lifecycleLockedState -> prog LcE (bool * option error).

(** From the load to the commit. *)
Definition mutateInTransaction (repository : LifecycleRepository) (ctx : Ctx) (audience : GatewayAudienceID)
    (destination : DestinationID) (now : Time) (mutation : lifecycleMutation)
  : prog LcE (lc_exit (option error)) :=
  let! state := loadDestinationLifecycleState ctx audience destination now true in
  match state with
  | Err e => rollbackLifecycleMutation repository e
  | Ok state =>
  let! '(mutationSent, err) := mutation state in
  match err with
  | Some e => rollbackLifecycleMutation repository e
  | None =>
  if negb mutationSent then rollbackLifecycleMutation repository ErrDestinationLifecycleReconciliation
  else
  let! committed := @call LcE (LcCommit ctx) in
  match committed with
  | Some e =>
      if is_sentinel e ErrTxCommitRollback
      then Ret (mkExit false true
        (Some (lifecycleRepositoryError ErrDestinationLifecycleUnavailable "lifecycle mutation commit")))
      else
        let! _ := @call LcE LcDestroy in
        Ret (mkExit false false
          (Some (lifecycleRepositoryError ErrDestinationLifecycleOutcomeUnknown "lifecycle mutation commit")))
  | None => Ret (mkExit false true None)
  end end end.

(** [runLifecycleMutation]. *)
Definition runLifecycleMutation (repository : option LifecycleRepository) (ctx : Ctx)
    (audience : GatewayAudienceID) (destination : DestinationID) (now : Time) (mutation : lifecycleMutation)
  : prog LcE (option error) :=
  let! valid := validateLifecycleRepositoryInput repository ctx audience destination now in
  match valid with
  | Err e => Ret (Some e)
  | Ok repository =>
  let! opened := openTransaction ctx ReadCommittedReadWrite "lifecycle mutation connection"
    "lifecycle mutation begin" in
  match opened with
  | Err e => Ret (Some e)
  | Ok _ =>
  let! x := mutateInTransaction repository ctx audience destination now mutation in
  lifecycleDefers repository
    (Some (lifecycleRepositoryError ErrDestinationLifecycleOutcomeUnknown "lifecycle mutation cleanup")) x
  end end.

(** One statement of a mutation, with the check of its command tag. *)
Definition execLifecycle (ctx : Ctx) (s : lc_stmt) : prog LcE (option error) :=
  let! r := @call LcE (LcExec ctx s) in
  match r with
  | Err e => Ret (Some (lifecycleMutationError e))
  | Ok rows => Ret (lifecycleRowsAffected rows)
  end.

(** A return before [*mutationSent = true]. *)
Definition refuse (kind : sentinel) : prog LcE (bool * option error) := Ret (false, Some (Sentinel kind)).

(** The statements of a mutation, after [*mutationSent = true]: the second
    runs only after the first changed one row. *)
Definition send (ctx : Ctx) (s : lc_stmt) : prog LcE (bool * option error) :=
  let! e := execLifecycle ctx s in Ret (true, e).

Definition sendTwo (ctx : Ctx) (first second : lc_stmt) : prog LcE (bool * option error) :=
  let! e := execLifecycle ctx first in
  match e with
  | Some e => Ret (true, Some e)
  | None => send ctx second
  end.

(** The destination is enabled: [state.destination.Enabled()]. *)
Definition lk_enabled (state : lifecycleLockedState) : bool := destination_Enabled (lk_destination state).

(** [status == want] of the locked snapshot. *)
Definition lk_status_is (state : lifecycleLockedState) (want : DestinationLifecycleStatus) : bool :=
  sn_status (lk_snapshot state) =? want.

(** [insertLifecycleStagedToken]. *)
Definition insertLifecycleStagedToken (ctx : Ctx) (candidate : StagedTokenCandidate)
  : prog LcE (bool * option error) :=
  send ctx (InsertStaged (formatUUID (sc_recordID candidate)) (formatUUID (sc_audienceID candidate))
    (formatUUID (sc_destination candidate))
    (match sc_verifier candidate with Some v => arr_list v | None => arr_list (zero_arr 32) end)
    (sc_verifierKeyID candidate) (sc_createdAt candidate) (sc_expiresAt candidate)
    (sc_stagedCleanupDeadline candidate)).

(** [CreateStagedToken], the mutation. *)
Definition createStagedMutation (ctx : Ctx) (candidate : StagedTokenCandidate) : lifecycleMutation := fun state =>
  if negb (lk_enabled state) then refuse ErrDestinationLifecycleReconciliation
  else if lk_status_is state LifecycleUnprovisioned then insertLifecycleStagedToken ctx candidate
  else if lk_status_is state LifecycleReconciliationRequired then refuse ErrDestinationLifecycleReconciliation
  else refuse ErrDestinationLifecycleConflict.

(** [DestinationTokenLifecycleRepository.CreateStagedToken]. *)
Definition repo_CreateStagedToken (repository : option LifecycleRepository) (ctx : Ctx)
    (candidate : StagedTokenCandidate) (now : Time) : prog LcE (option error) :=
  let invalid := lifecycleRepositoryError ErrDestinationLifecycleInvalid "staged token input" in
  match revalidate candidate with
  | Err _ => Ret (Some invalid)
  | Ok validated =>
      if (sc_recordID validated <>?? sc_recordID candidate) || t_is_zero now ||
         negb (t_equal (sc_createdAt candidate) now)
      then Ret (Some invalid)
      else runLifecycleMutation repository ctx (sc_audienceID candidate) (sc_destination candidate) now
             (createStagedMutation ctx candidate)
  end.

(** [CreateRotationStagedToken], the mutation. *)
Definition createRotationMutation (ctx : Ctx) (candidate : StagedTokenCandidate)
    (expectedActiveRecordID : DestinationTokenRecordID) : lifecycleMutation := fun state =>
  if negb (lk_enabled state) || lk_status_is state LifecycleReconciliationRequired
  then refuse ErrDestinationLifecycleReconciliation
  else match sn_active (lk_snapshot state) with
  | None => refuse ErrDestinationLifecycleConflict
  | Some active =>
      if negb (lk_status_is state LifecycleActive) || has (sn_staged (lk_snapshot state)) ||
         has (sn_retiring (lk_snapshot state)) || (v_recordID active <>?? expectedActiveRecordID)
      then refuse ErrDestinationLifecycleConflict
      else insertLifecycleStagedToken ctx candidate
  end.

(** [DestinationTokenLifecycleRepository.CreateRotationStagedToken]. *)
Definition repo_CreateRotationStagedToken (repository : option LifecycleRepository) (ctx : Ctx)
    (command : CreateRotationStagedTokenCommand) : prog LcE (option error) :=
  let invalid := lifecycleRepositoryError ErrDestinationLifecycleInvalid "rotation staged token input" in
  match NewCreateRotationStagedTokenCommand (cr_candidate command) (cr_expectedActiveRecordID command)
          (cr_now command) with
  | Err _ => Ret (Some invalid)
  | Ok validated =>
      if cr_expectedActiveRecordID validated <>?? cr_expectedActiveRecordID command then Ret (Some invalid)
      else
        let candidate := cr_candidate validated in
        runLifecycleMutation repository ctx (sc_audienceID candidate) (sc_destination candidate)
          (cr_now validated) (createRotationMutation ctx candidate (cr_expectedActiveRecordID validated))
  end.

(** [ActivateInitialToken], the mutation. *)
Definition activateInitialMutation (ctx : Ctx) (audience : GatewayAudienceID) (destination : DestinationID)
    (stagedID : DestinationTokenRecordID) (now : Time) : lifecycleMutation := fun state =>
  if lk_status_is state LifecycleReconciliationRequired then refuse ErrDestinationLifecycleReconciliation
  else match sn_staged (lk_snapshot state) with
  | None => refuse ErrDestinationLifecycleConflict
  | Some staged =>
      if negb (lk_status_is state LifecycleStagedInitial) || (v_recordID staged <>?? stagedID)
      then refuse ErrDestinationLifecycleConflict
      else send ctx (UpdateToken activateInitialSQL (formatUUID audience) (formatUUID destination)
             (formatUUID stagedID) (v_stateChangedAt staged) now)
  end.

(** [DestinationTokenLifecycleRepository.ActivateInitialToken]. *)
Definition repo_ActivateInitialToken (repository : option LifecycleRepository) (ctx : Ctx)
    (audience : GatewayAudienceID) (destination : DestinationID) (stagedID : DestinationTokenRecordID)
    (now : Time) : prog LcE (option error) :=
  if arr_is_zero stagedID
  then Ret (Some (lifecycleRepositoryError ErrDestinationLifecycleInvalid "initial activation input"))
  else runLifecycleMutation repository ctx audience destination now
         (activateInitialMutation ctx audience destination stagedID now).

(** [ActivateRotation], the mutation. *)
Definition activateRotationMutation (ctx : Ctx) (command : ActivateRotationCommand) : lifecycleMutation := fun state =>
  let audience := formatUUID (ar_AudienceID command) in
  let destination := formatUUID (ar_DestinationID command) in
  if lk_status_is state LifecycleReconciliationRequired then refuse ErrDestinationLifecycleReconciliation
  else match sn_staged (lk_snapshot state), sn_active (lk_snapshot state) with
  | Some staged, Some active =>
      if negb (lk_status_is state LifecycleActiveWithStaged) ||
         (v_recordID staged <>?? ar_StagedRecordID command) ||
         (v_recordID active <>?? ar_OldActiveRecordID command)
      then refuse ErrDestinationLifecycleConflict
      else if negb (t_before (ar_OverlapDeadline command) (v_expiresAt staged)) ||
              negb (t_before (ar_OverlapDeadline command) (v_expiresAt active))
      then refuse ErrDestinationLifecycleConflict
      else sendTwo ctx
        (UpdateToken (retireSQL (ar_OverlapDeadline command)) audience destination
           (formatUUID (ar_OldActiveRecordID command)) (v_stateChangedAt active) (ar_Now command))
        (UpdateToken activateRotationSQL audience destination
           (formatUUID (ar_StagedRecordID command)) (v_stateChangedAt staged) (ar_Now command))
  | _, _ => refuse ErrDestinationLifecycleConflict
  end.

(** [DestinationTokenLifecycleRepository.ActivateRotation]. *)
Definition repo_ActivateRotation (repository : option LifecycleRepository) (ctx : Ctx)
    (command : ActivateRotationCommand) : prog LcE (option error) :=
  if arr_is_zero (ar_StagedRecordID command) || arr_is_zero (ar_OldActiveRecordID command) ||
     (ar_StagedRecordID command =?? ar_OldActiveRecordID command) ||
     negb (t_after (ar_OverlapDeadline command) (ar_Now command)) ||
     (MaximumRetiringOverlapDuration <? t_sub (ar_OverlapDeadline command) (ar_Now command))
  then Ret (Some (lifecycleRepositoryError ErrDestinationLifecycleInvalid "rotation activation input"))
  else runLifecycleMutation repository ctx (ar_AudienceID command) (ar_DestinationID command) (ar_Now command)
         (activateRotationMutation ctx command).

(** [lifecycleStagedAbortAllowed]; [None] is nil. *)
Definition lifecycleStagedAbortAllowed (state : lifecycleLockedState) (staged : LifecycleTokenView) (now : Time)
  : option sentinel :=
  if lk_status_is state LifecycleStagedInitial || lk_status_is state LifecycleActiveWithStaged then None
  else if negb (lk_status_is state LifecycleReconciliationRequired) then Some ErrDestinationLifecycleConflict
  else if negb (lk_enabled state) || t_after (v_stateChangedAt staged) now ||
          (t_before now (v_expiresAt staged) && t_before now (v_stagedCleanupDeadline staged))
  then Some ErrDestinationLifecycleReconciliation
  else match sn_active (lk_snapshot state) with
  | None => None
  | Some active =>
      if t_after (v_activatedAt active) now || t_after (v_stateChangedAt active) now ||
         negb (t_before now (v_expiresAt active))
      then Some ErrDestinationLifecycleReconciliation else None
  end.

(** [AbortStagedToken], the mutation. *)
Definition abortStagedMutation (ctx : Ctx) (audience : GatewayAudienceID) (destination : DestinationID)
    (stagedID : DestinationTokenRecordID) (now : Time) : lifecycleMutation := fun state =>
  match sn_staged (lk_snapshot state) with
  | None => refuse ErrDestinationLifecycleConflict
  | Some staged =>
      if has (sn_retiring (lk_snapshot state)) || (v_recordID staged <>?? stagedID)
      then refuse ErrDestinationLifecycleConflict
      else match lifecycleStagedAbortAllowed state staged now with
      | Some kind => refuse kind
      | None => send ctx (UpdateToken revokeStagedSQL (formatUUID audience) (formatUUID destination)
                  (formatUUID stagedID) (v_stateChangedAt staged) now)
      end
  end.

(** [DestinationTokenLifecycleRepository.AbortStagedToken]. *)
Definition repo_AbortStagedToken (repository : option LifecycleRepository) (ctx : Ctx)
    (audience : GatewayAudienceID) (destination : DestinationID) (stagedID : DestinationTokenRecordID)
    (now : Time) : prog LcE (option error) :=
  if arr_is_zero stagedID
  then Ret (Some (lifecycleRepositoryError ErrDestinationLifecycleInvalid "staged abort input"))
  else runLifecycleMutation repository ctx audience destination now
         (abortStagedMutation ctx audience destination stagedID now).

(** [lifecycleRotationPair]. *)
Definition lifecycleRotationPair (state : lifecycleLockedState) (newActiveID oldRetiringID : DestinationTokenRecordID)
    (now : Time) (allowRetiringStale : bool) : result (LifecycleTokenView * LifecycleTokenView) :=
  match sn_active (lk_snapshot state), sn_retiring (lk_snapshot state) with
  | Some active, Some retiring =>
      if has (sn_staged (lk_snapshot state)) || (v_recordID active <>?? newActiveID) ||
         (v_recordID retiring <>?? oldRetiringID)
      then Err ErrDestinationLifecycleConflict
      else if negb (lk_enabled state) || negb (t_before now (v_expiresAt active)) ||
         t_after (v_activatedAt active) now || t_after (v_stateChangedAt active) now ||
         t_after (v_activatedAt retiring) now || t_after (v_retirementStartedAt retiring) now ||
         t_after (v_stateChangedAt retiring) now ||
         negb (t_equal (v_activatedAt active) (v_stateChangedAt active)) ||
         negb (t_equal (v_activatedAt active) (v_retirementStartedAt retiring)) ||
         negb (t_equal (v_retirementStartedAt retiring) (v_stateChangedAt retiring)) ||
         t_is_zero (v_retirementDeadline retiring)
      then Err ErrDestinationLifecycleReconciliation
      else if negb allowRetiringStale && negb (t_before now (v_expiresAt retiring))
      then Err ErrDestinationLifecycleReconciliation
      else Ok (active, retiring)
  | _, _ => Err ErrDestinationLifecycleConflict
  end.

(** [RollbackRotation], the mutation. *)
Definition rollbackRotationMutation (ctx : Ctx) (command : RollbackRotationCommand) : lifecycleMutation := fun state =>
  let audience := formatUUID (rr_AudienceID command) in
  let destination := formatUUID (rr_DestinationID command) in
  match lifecycleRotationPair state (rr_NewActiveRecordID command) (rr_OldRetiringRecordID command)
          (rr_Now command) false with
  | Err e => Ret (false, Some e)
  | Ok (active, retiring) =>
      if negb (t_before (rr_Now command) (v_retirementDeadline retiring))
      then refuse ErrDestinationLifecycleConflict
      else sendTwo ctx
        (UpdateToken revokeActiveSQL audience destination
           (formatUUID (rr_NewActiveRecordID command)) (v_stateChangedAt active) (rr_Now command))
        (UpdateToken restoreRetiringSQL audience destination
           (formatUUID (rr_OldRetiringRecordID command)) (v_stateChangedAt retiring) (rr_Now command))
  end.

(** [DestinationTokenLifecycleRepository.RollbackRotation]. *)
Definition repo_RollbackRotation (repository : option LifecycleRepository) (ctx : Ctx)
    (command : RollbackRotationCommand) : prog LcE (option error) :=
  if arr_is_zero (rr_NewActiveRecordID command) || arr_is_zero (rr_OldRetiringRecordID command) ||
     (rr_NewActiveRecordID command =?? rr_OldRetiringRecordID command)
  then Ret (Some (lifecycleRepositoryError ErrDestinationLifecycleInvalid "rotation rollback input"))
  else runLifecycleMutation repository ctx (rr_AudienceID command) (rr_DestinationID command) (rr_Now command)
         (rollbackRotationMutation ctx command).

(** [FinalizeRotation], the mutation. *)
Definition finalizeRotationMutation (ctx : Ctx) (command : FinalizeRotationCommand) : lifecycleMutation := fun state =>
  match lifecycleRotationPair state (fr_NewActiveRecordID command) (fr_OldRetiringRecordID command)
          (fr_Now command) true with
  | Err e => Ret (false, Some e)
  | Ok (_, retiring) =>
      if (fr_Reason command =? RotationDeadlineElapsed) && t_before (fr_Now command) (v_retirementDeadline retiring)
      then refuse ErrDestinationLifecycleConflict
      else send ctx (UpdateToken revokeRetiringSQL (formatUUID (fr_AudienceID command))
             (formatUUID (fr_DestinationID command)) (formatUUID (fr_OldRetiringRecordID command))
             (v_stateChangedAt retiring) (fr_Now command))
  end.

(** [DestinationTokenLifecycleRepository.FinalizeRotation]. *)
Definition repo_FinalizeRotation (repository : option LifecycleRepository) (ctx : Ctx)
    (command : FinalizeRotationCommand) : prog LcE (option error) :=
  if arr_is_zero (fr_NewActiveRecordID command) || arr_is_zero (fr_OldRetiringRecordID command) ||
     (fr_NewActiveRecordID command =?? fr_OldRetiringRecordID command) || negb (reason_Valid (fr_Reason command))
  then Ret (Some (lifecycleRepositoryError ErrDestinationLifecycleInvalid "rotation finalization input"))
  else runLifecycleMutation repository ctx (fr_AudienceID command) (fr_DestinationID command) (fr_Now command)
         (finalizeRotationMutation ctx command).

(** * Inspections *)

(** The commit of a read-only transaction. *)
Definition commitInspection {A} (ctx : Ctx) (operation : string) (value : A) : prog LcE (lc_exit (result A)) :=
  let! committed := @call LcE (LcCommit ctx) in
  match committed with
  | Some e =>
      let! _ := @call LcE LcDestroy in
      Ret (mkExit false false (Err (lifecycleConnectionError e operation)))
  | None => Ret (mkExit false true (Ok value))
  end.

(** [DestinationTokenLifecycleRepository.InspectLifecycleState]. *)
Definition repo_InspectLifecycleState (repository : option LifecycleRepository) (ctx : Ctx)
    (audience : GatewayAudienceID) (destination : DestinationID) (now : Time)
  : prog LcE (result DestinationLifecycleSnapshot) :=
  let! valid := validateLifecycleRepositoryInput repository ctx audience destination now in
  match valid with
  | Err e => Ret (Err e)
  | Ok repository =>
  let! opened := openTransaction ctx RepeatableReadReadOnly "lifecycle inspection connection"
    "lifecycle inspection begin" in
  match opened with
  | Err e => Ret (Err e)
  | Ok _ =>
  let! x :=
    (let! state := loadDestinationLifecycleState ctx audience destination now false in
     match state with
     | Err e => lifecycleRollbackRead repository e
     | Ok state => commitInspection ctx "lifecycle inspection commit" (lk_snapshot state)
     end) in
  lifecycleDefers repository
    (Err (lifecycleRepositoryError ErrDestinationLifecycleUnavailable "lifecycle inspection cleanup")) x
  end end.

(** The variables of the loop of [InspectRotationAttempt] when it ends: [err],
    [readErr], [seen] and the two tokens. A token that has been read has a
    nonzero record id, so an unset one is [None]. *)
Record attempt_rows : Type := mkAttemptRows {
  aw_err : option error;
  aw_readErr : option error;
  aw_seen : Z;
  aw_new : option DestinationToken;
  aw_old : option DestinationToken
}.

(** The loop, with [slots] rows left before the limit of two. *)
Fixpoint readAttempt (slots : nat) (audience : GatewayAudienceID) (destination : Destination)
    (newID oldID : DestinationTokenRecordID) (seen : Z) (new old : option DestinationToken)
  : prog LcE attempt_rows :=
  let broken := Ret (mkAttemptRows (Some (Sentinel ErrDestinationLifecycleReconciliation)) None seen new old) in
  let! more := @call LcE LcNext in
  if negb more then Ret (mkAttemptRows None None seen new old)
  else
  match slots with
  | O => broken
  | S slots =>
    let! scanned := @call LcE LcScan in
    match scanned with
    | Err e =>
        if lifecycleUnsafeOrConnectionInterruption e || has (errorCancellation e)
        then Ret (mkAttemptRows None (Some e) seen new old) else broken
    | Ok record =>
        match record_token record audience destination with
        | Err _ => broken
        | Ok token =>
            if ts_RecordID token =?? newID then
              if has new then broken
              else readAttempt slots audience destination newID oldID (seen + 1) (Some token) old
            else if ts_RecordID token =?? oldID then
              if has old then broken
              else readAttempt slots audience destination newID oldID (seen + 1) new (Some token)
            else broken
        end
    end
  end.

(** The error after [rows.Close()] and [rows.Err()]. *)
Definition attemptError (x : attempt_rows) (rowsErr : option error) : option error :=
  let readErr :=
    match rowsErr with
    | None => aw_readErr x
    | Some e =>
        match aw_readErr x, aw_err x with
        | Some r, _ => Some (lifecycleCombinedReadCause r (Some e))
        | None, Some err => Some (errors_join err e)
        | None, None => Some e
        end
    end in
  match readErr with
  | Some e => Some (lifecycleReadError e)
  | None =>
      match aw_err x with
      | Some e => Some e
      | None =>
          if negb (aw_seen x =? 2) || negb (has (aw_new x)) || negb (has (aw_old x))
          then Some (Sentinel ErrDestinationLifecycleConflict) else None
      end
  end.

(** The query of the two rows of a rotation, closed before the transaction
    ends. *)
Definition loadRotationAttempt (ctx : Ctx) (audience : GatewayAudienceID) (destinationID : DestinationID)
    (newID oldID : DestinationTokenRecordID) (now : Time) (state : lifecycleLockedState)
  : prog LcE (result DestinationTokenRotationAttemptSnapshot) :=
  let! queried := @call LcE (LcQuery ctx (AttemptTokens (formatUUID audience) (formatUUID destinationID)
    (formatUUID newID) (formatUUID oldID))) in
  match queried with
  | (true, Some e) =>
      let! _ := @call LcE LcRowsClose in
      let! rowsErr := @call LcE LcRowsErr in
      Ret (Err (lifecycleReadError (lifecycleCombinedReadCause e rowsErr)))
  | (false, Some e) => Ret (Err (lifecycleReadError e))
  | (false, None) => Ret (Err (InternalErr ErrDestinationLifecycleUnavailable true))
  | (true, None) =>
      let! x := readAttempt 2 audience (lk_destination state) newID oldID 0 None None in
      let! _ := @call LcE LcRowsClose in
      let! rowsErr := @call LcE LcRowsErr in
      match attemptError x rowsErr, aw_new x, aw_old x with
      | Some e, _, _ => Ret (Err e)
      | None, Some new, Some old =>
          Ret (NewDestinationTokenRotationAttemptSnapshot (lk_snapshot state) new old newID oldID now)
      | None, _, _ => Ret (Err ErrDestinationLifecycleConflict)
      end
  end.

(** [DestinationTokenLifecycleRepository.InspectRotationAttempt]. *)
Definition repo_InspectRotationAttempt (repository : option LifecycleRepository) (ctx : Ctx)
    (audience : GatewayAudienceID) (destination : DestinationID) (newID oldID : DestinationTokenRecordID)
    (now : Time) : prog LcE (result DestinationTokenRotationAttemptSnapshot) :=
  let! valid := validateLifecycleRepositoryInput repository ctx audience destination now in
  match valid with
  | Err e => Ret (Err e)
  | Ok repository =>
  if arr_is_zero newID || arr_is_zero oldID || (newID =?? oldID)
  then Ret (Err (lifecycleRepositoryError ErrDestinationLifecycleInvalid "rotation attempt inspection input"))
  else
  let! opened := openTransaction ctx RepeatableReadReadOnly "rotation attempt inspection connection"
    "rotation attempt inspection begin" in
  match opened with
  | Err e => Ret (Err e)
  | Ok _ =>
  let! x :=
    (let! state := loadDestinationLifecycleState ctx audience destination now false in
     match state with
     | Err e => lifecycleRollbackRead repository e
     | Ok state =>
       let! loaded := loadRotationAttempt ctx audience destination newID oldID now state in
       match loaded with
       | Err e => lifecycleRollbackRead repository e
       | Ok attempt => commitInspection ctx "rotation attempt inspection commit" attempt
       end
     end) in
  lifecycleDefers repository
    (Err (lifecycleRepositoryError ErrDestinationLifecycleUnavailable "rotation attempt inspection cleanup")) x
  end end.

(** * Connection discipline *)

(** The life of a connection: not acquired, held without a transaction, in a
    transaction (with its row set open or not), after its transaction, given
    back. [dirty] when it must not return to the pool. *)
Inductive lc_held : Type :=
| LcNone
| LcFresh
| LcTx (rows dirty : bool)
| LcEnded (dirty : bool)
| LcGone.

Definition unsafe (e : error) : bool := lifecycleUnsafeOrConnectionInterruption e.
Definition opt_unsafe (e : option error) : bool := match e with Some e => unsafe e | None => false end.
Definition res_unsafe {A} (r : result A) : bool := match r with Err e => unsafe e | Ok _ => false end.

(** The protocol. *)
Definition lc_step (q : lc_held) (e : event LcE) : option lc_held :=
  match q, e with
  | q, existT (LcCtxErr _) _ => Some q
  | LcNone, existT (LcAcquire _) (connection, e) =>
      Some (if connection then (if is_err e then LcEnded true else LcFresh) else LcGone)
  | LcFresh, existT (LcBegin _ _) (transaction, e) =>
      Some (match e with
            | Some e => LcEnded (unsafe e)
            | None => if transaction then LcTx false false else LcEnded true
            end)
  | LcTx false dirty, existT (LcDestination _ _ _) r =>
      Some (LcTx false (dirty || match r with None => true | Some r => res_unsafe r end))
  | LcTx false dirty, existT (LcQuery _ _) (rows, e) =>
      Some (match e with
            | Some e => LcTx false (dirty || unsafe e)
            | None => if rows then LcTx true dirty else LcTx false true
            end)
  | LcTx true dirty, existT LcNext _ => Some (LcTx true dirty)
  | LcTx true dirty, existT LcScan r => Some (LcTx true (dirty || res_unsafe r))
  | LcTx rows dirty, existT LcRowsErr r => Some (LcTx rows (dirty || opt_unsafe r))
  | LcTx _ dirty, existT LcRowsClose _ => Some (LcTx false dirty)
  | LcTx false dirty, existT (LcExec _ _) r => Some (LcTx false (dirty || res_unsafe r))
  | LcTx false dirty, existT (LcCommit _) e =>
      Some (LcEnded (dirty || match e with None => false | Some e => negb (is_sentinel e ErrTxCommitRollback) end))
  | LcTx false dirty, existT (LcRollback (CtxDetached _)) e => Some (LcEnded (dirty || is_err e))
  | LcEnded false, existT LcRelease _ => Some LcGone
  | LcEnded _, existT LcDestroy _ => Some LcGone
  | _, _ => None
  end.

Definition lc_over (q : lc_held) : Prop := q = LcNone \/ q = LcGone.

Abbreviation lkeeps := (keeps (E := LcE) lc_step).

Definition must_destroy (e : error) : bool := lifecycleErrorRequiresDestroy e || isConnectionInterruption e.

Lemma readError_destroys e : unsafe e = true -> must_destroy (lifecycleReadError e) = true.
Proof.
  unfold unsafe, lifecycleUnsafeOrConnectionInterruption, must_destroy, lifecycleReadError.
  destruct (negb (lifecycleRepositorySingleCauseChain e)); [done|]. intros ->. by destruct (errorCancellation e).
Qed.

Lemma mutationError_destroys e : unsafe e = true -> must_destroy (lifecycleMutationError e) = true.
Proof.
  unfold unsafe, lifecycleUnsafeOrConnectionInterruption, must_destroy, lifecycleMutationError.
  destruct (negb (lifecycleRepositorySingleCauseChain e)); [done|]. intros ->. by destruct (errorCancellation e).
Qed.

Lemma join_unsafe a b : unsafe (errors_join a b) = true.
Proof. done. Qed.

Lemma combined_unsafe a b : unsafe a || opt_unsafe b = true -> unsafe (lifecycleCombinedReadCause a b) = true.
Proof.
  destruct b as [b|]; simpl; [|by rewrite orb_false_r]. intros H.
  destruct (lifecycleSameDirectReadCause a b) eqn:E; [|apply join_unsafe].
  destruct (unsafe a) eqn:Ea; [done|]. simpl in H. rewrite <- Ea, <- H. clear H Ea.
  unfold lifecycleSameDirectReadCause in E. destruct (_ || _); [done|].
  destruct (_ || _) eqn:G; [done|]. rewrite orb_false_iff, !negb_false_iff in G. destruct G as [Ga Gb].
  destruct a as [s| | | |d m cs], b as [t| | | |d' m' cs']; try done; apply bool_decide_eq_true in E as ->; [done|].
  simpl in Ga, Gb. destruct (f_plain d'), m, m', cs, cs'; done.
Qed.

(** A transaction without an open row set, whose dirt the error accounts for. *)
Definition accounted (err : option error) (q : lc_held) : Prop :=
  exists dirty, q = LcTx false dirty /\
    (dirty = true -> match err with None => False | Some e => must_destroy e = true end).

Lemma accounted_clean err : accounted err (LcTx false false).
Proof. by exists false. Qed.

Lemma accounted_read e dirty :
  (dirty = true -> unsafe e = true) -> accounted (Some (lifecycleReadError e)) (LcTx false dirty).
Proof. intros H. exists dirty. split; [done|]. intros Hd. by apply readError_destroys, H. Qed.

Lemma keeps_readTokens slots aud d tokens :
  lkeeps (LcTx true false) (readTokens slots aud d tokens)
    (fun r q => exists dirty, q = LcTx true dirty /\
       (dirty = true -> match r with Ok _ => False | Err e => must_destroy e = true end)).
Proof.
  revert tokens. induction slots as [|slots IH]; intros tokens; simpl.
  - intros []; eexists; (split; [done|]); by exists false.
  - intros []; eexists; (split; [done|]); [|by exists false].
    intros [record|e]; eexists; (split; [done|]); cbn [bind].
    + destruct (record_token record aud d); [apply IH|]. by exists false.
    + destruct (lifecycleUnsafeOrConnectionInterruption e || has (errorCancellation e)) eqn:G.
      * exists (unsafe e). split; [done|]. apply readError_destroys.
      * apply orb_false_iff in G as [G _]. exists (unsafe e). split; [done|]. unfold unsafe. by rewrite G.
Qed.

Lemma keeps_load ctx aud dest now lock :
  lkeeps (LcTx false false) (loadDestinationLifecycleState ctx aud dest now lock)
    (fun r => accounted (match r with Ok _ => None | Err e => Some e end)).
Proof.
  unfold loadDestinationLifecycleState. intros [[record|e]|]; eexists; (split; [done|]); cbn [bind].
  2:{ destruct (is_sentinel e ErrNoRows) eqn:G.
      - apply is_sentinel_true in G as ->. apply accounted_clean.
      - by apply accounted_read. }
  2:{ exists true. done. }
  destruct (record_destination record aud dest now) as [d|]; [|apply accounted_clean].
  intros [[] [e|]]; eexists; (split; [done|]); cbn [bind]; try (by apply accounted_read).
  2:{ by exists true. }
  eapply keeps_bind; [eapply keeps_bind; [apply keeps_readTokens|]|].
  - intros [tokens|e] q' (dirty & -> & Hd); [|instantiate (1 := fun r q => exists dirty, q = LcTx true dirty /\
       (dirty = true -> match r with Ok _ => False | Err e => must_destroy e = true end)); by exists dirty].
    destruct dirty; [by destruct Hd|].
    intros [e|]; eexists; (split; [done|]); cbn [bind].
    + exists (unsafe e). split; [done|]. apply readError_destroys.
    + destruct (NewDestinationLifecycleSnapshot d tokens now); by exists false.
  - intros r q' (dirty & -> & Hd). intros []. exists (LcTx false dirty). split; [done|].
    cbn. exists dirty. split; [done|]. by destruct r.
Qed.

(** The end of a body: nothing is open, and the connection is still to be
    released exactly when [release] says so. *)
Definition ended {A} (x : lc_exit A) (q : lc_held) : Prop :=
  ex_open x = false /\ q = if ex_release x then LcEnded false else LcGone.

Lemma keeps_destroy_if {A} (destroy dirty : bool) (p : prog LcE A) post :
  (dirty = true -> destroy = true) ->
  lkeeps (if destroy then LcGone else LcEnded false) p post ->
  lkeeps (LcEnded dirty) (bind (if destroy then @call LcE LcDestroy else Ret tt) (fun _ => p)) post.
Proof.
  intros Hd H. destruct destroy; [intros u; exists LcGone; split; [by destruct dirty|done]|].
  destruct dirty; [by discriminate Hd|done].
Qed.

Lemma keeps_rollbackMutation repository cause q :
  accounted (Some cause) q -> lkeeps q (rollbackLifecycleMutation repository cause) ended.
Proof.
  intros (dirty & -> & Hd). unfold rollbackLifecycleMutation. intros [e|]; eexists; (split; [done|]).
  - rewrite orb_true_r. intros u. exists LcGone. done.
  - rewrite orb_false_r. cbv zeta. fold (must_destroy cause). apply keeps_destroy_if; [done|].
    destruct (singleCauseMatches cause _), (must_destroy cause); done.
Qed.

Lemma keeps_rollbackRead {A} repository cause q :
  accounted (Some cause) q -> lkeeps q (lifecycleRollbackRead (A := A) repository cause) ended.
Proof.
  intros (dirty & -> & Hd). unfold lifecycleRollbackRead. intros [e|]; eexists; (split; [done|]).
  - rewrite orb_true_r. intros u. exists LcGone. done.
  - rewrite orb_false_r. cbv zeta. fold (must_destroy cause). apply keeps_destroy_if; [done|].
    destruct (must_destroy cause); done.
Qed.

Lemma keeps_defers {A} repository (onFailure : A) x q :
  ended x q -> lkeeps q (lifecycleDefers repository onFailure x) (fun _ => lc_over).
Proof.
  intros [Ho ->]. unfold lifecycleDefers. rewrite Ho. cbn [bind].
  destruct (ex_release x); [intros u; exists LcGone; split; [done|by right]|by right].
Qed.

Lemma keeps_validate {A} repository ctx aud dest now (f : result LifecycleRepository -> prog LcE A) post :
  (forall r, lkeeps LcNone (f r) post) ->
  lkeeps LcNone (bind (validateLifecycleRepositoryInput repository ctx aud dest now) f) post.
Proof.
  intros H. apply (keeps_bind _ LcNone _ f (fun _ q => q = LcNone)); [|by intros r q ->].
  unfold validateLifecycleRepositoryInput, contextCancellation. destruct repository as [r|]; [|done].
  destruct (_ || _); [done|]. destruct (ctx_is_nil ctx); [done|].
  intros c. exists LcNone. split; [done|]. cbn. destruct (opt_is_sentinel c Canceled); [done|].
  intros c'. exists LcNone. split; [done|]. cbn. by destruct (opt_is_sentinel c' DeadlineExceeded).
Qed.

Lemma keeps_open {A} ctx mode o1 o2 (f : result unit -> prog LcE A) post :
  lkeeps (LcTx false false) (f (Ok tt)) post -> (forall e, lkeeps LcGone (f (Err e)) post) ->
  lkeeps LcNone (bind (openTransaction ctx mode o1 o2) f) post.
Proof.
  intros Hok Herr. apply keeps_bind with (fun r q => match r with Ok _ => q = LcTx false false | Err _ => q = LcGone end).
  2:{ intros [[]|e] q ->; auto. }
  unfold openTransaction. intros [[] [e|]]; eexists; (split; [done|]); cbn [bind]; try done.
  - intros u. by exists LcGone.
  - intros [[] [e|]]; eexists; (split; [done|]); cbn [bind]; try done.
    + unfold unsafe. destruct (lifecycleUnsafeOrConnectionInterruption e); intros u; by exists LcGone.
    + unfold unsafe. destruct (lifecycleUnsafeOrConnectionInterruption e); intros u; by exists LcGone.
    + intros u. by exists LcGone.
Qed.

(** What the statements of a mutation do to the connection. *)
Definition mutation_keeps (m : lifecycleMutation) : Prop :=
  forall state, lkeeps (LcTx false false) (m state) (fun r => accounted r.2).

Lemma keeps_exec {A} ctx s (f : option error -> prog LcE A) post :
  (forall e q, accounted e q -> lkeeps q (f e) post) ->
  lkeeps (LcTx false false) (bind (execLifecycle ctx s) f) post.
Proof.
  intros H. apply (keeps_bind _ (LcTx false false) _ f accounted); [|auto].
  unfold execLifecycle. intros [rows|e]; eexists; (split; [done|]); cbn [bind].
  - apply accounted_clean.
  - exists (unsafe e). split; [done|]. apply mutationError_destroys.
Qed.

Lemma keeps_send ctx s : lkeeps (LcTx false false) (send ctx s) (fun r => accounted r.2).
Proof. apply keeps_exec. by intros e q H. Qed.

Lemma keeps_sendTwo ctx s1 s2 : lkeeps (LcTx false false) (sendTwo ctx s1 s2) (fun r => accounted r.2).
Proof.
  apply keeps_exec. intros [e|] q H; [done|]. destruct H as ([] & -> & Hd); [by destruct Hd|].
  apply keeps_send.
Qed.

Lemma keeps_runMutation repository ctx aud dest now m :
  mutation_keeps m -> lkeeps LcNone (runLifecycleMutation repository ctx aud dest now m) (fun _ => lc_over).
Proof.
  intros Hm. unfold runLifecycleMutation. apply keeps_validate. intros [r|e]; [|by left].
  apply keeps_open; [|by right]. eapply keeps_bind; [|intros x q; apply keeps_defers].
  unfold mutateInTransaction. eapply keeps_bind; [apply keeps_load|].
  intros [state|e] q Ha; [|by apply keeps_rollbackMutation].
  destruct Ha as ([] & -> & Hd); [by destruct Hd|].
  eapply keeps_bind; [apply Hm|]. intros [sent [e|]] q Ha; cbn in Ha; [by apply keeps_rollbackMutation|].
  destruct Ha as ([] & -> & Hd'); [by destruct Hd'|].
  destruct sent; cbn [negb]; [|apply keeps_rollbackMutation, accounted_clean].
  intros [e|]; eexists; (split; [done|]); cbn [bind]; [|done].
  destruct (is_sentinel e ErrTxCommitRollback); [done|]. intros u. by exists LcGone.
Qed.

(** The seven mutations: refusals, and statements. *)
Ltac mutation_kept :=
  intros state; repeat case_match; first
    [apply keeps_send | apply keeps_sendTwo | apply accounted_clean].

Lemma createStaged_kept ctx c : mutation_keeps (createStagedMutation ctx c).
Proof. unfold createStagedMutation, insertLifecycleStagedToken, refuse. mutation_kept. Qed.

Lemma createRotation_kept ctx c id : mutation_keeps (createRotationMutation ctx c id).
Proof. unfold createRotationMutation, insertLifecycleStagedToken, refuse. mutation_kept. Qed.

Lemma activateInitial_kept ctx aud dest id now : mutation_keeps (activateInitialMutation ctx aud dest id now).
Proof. unfold activateInitialMutation, refuse. mutation_kept. Qed.

Lemma activateRotation_kept ctx cmd : mutation_keeps (activateRotationMutation ctx cmd).
Proof. unfold activateRotationMutation, refuse. mutation_kept. Qed.

Lemma abortStaged_kept ctx aud dest id now : mutation_keeps (abortStagedMutation ctx aud dest id now).
Proof. unfold abortStagedMutation, refuse. mutation_kept. Qed.

Lemma rollbackRotation_kept ctx cmd : mutation_keeps (rollbackRotationMutation ctx cmd).
Proof. unfold rollbackRotationMutation, refuse. mutation_kept. Qed.

Lemma finalizeRotation_kept ctx cmd : mutation_keeps (finalizeRotationMutation ctx cmd).
Proof. unfold finalizeRotationMutation, refuse. mutation_kept. Qed.

Lemma keeps_commitInspection {A} ctx o (v : A) : lkeeps (LcTx false false) (commitInspection ctx o v) ended.
Proof.
  intros [e|]; eexists; (split; [done|]); cbn [bind]; [|done].
  destruct (is_sentinel e ErrTxCommitRollback); intros u; by exists LcGone.
Qed.

Lemma keeps_Inspect repository ctx aud dest now :
  lkeeps LcNone (repo_InspectLifecycleState repository ctx aud dest now) (fun _ => lc_over).
Proof.
  apply keeps_validate. intros [r|e]; [|by left]. apply keeps_open; [|by right].
  eapply keeps_bind; [|intros x q; apply keeps_defers].
  eapply keeps_bind; [apply keeps_load|]. intros [state|e] q Ha; [|by apply keeps_rollbackRead].
  destruct Ha as ([] & -> & Hd); [by destruct Hd|]. apply keeps_commitInspection.
Qed.

(** The loop over the rows of a rotation: dirt comes with a read error. *)
Lemma keeps_readAttempt slots aud d newID oldID seen new old :
  lkeeps (LcTx true false) (readAttempt slots aud d newID oldID seen new old)
    (fun x q => exists dirty, q = LcTx true dirty /\
       (dirty = true -> exists e, aw_readErr x = Some e /\ unsafe e = true)).
Proof.
  revert seen new old. induction slots as [|slots IH]; intros seen new old; simpl.
  - intros []; eexists; (split; [done|]); by exists false.
  - intros []; eexists; (split; [done|]); [|by exists false].
    intros [record|e]; eexists; (split; [done|]); cbn [bind].
    + destruct (record_token record aud d); [|by exists false].
      repeat case_match; first [apply IH|by exists false].
    + destruct (lifecycleUnsafeOrConnectionInterruption e || has (errorCancellation e)) eqn:G.
      * exists (unsafe e). split; [done|]. eauto.
      * apply orb_false_iff in G as [G _]. exists (unsafe e). split; [done|]. unfold unsafe. by rewrite G.
Qed.

Lemma attemptError_destroys x rowsErr dirty :
  (dirty = true -> exists e, aw_readErr x = Some e /\ unsafe e = true) ->
  dirty || opt_unsafe rowsErr = true ->
  exists e, attemptError x rowsErr = Some e /\ must_destroy e = true.
Proof.
  unfold attemptError. intros Hd H. destruct rowsErr as [e|].
  - destruct (aw_readErr x) as [r|] eqn:Er.
    + eexists. split; [done|]. apply readError_destroys, combined_unsafe.
      cbn [opt_unsafe]. destruct dirty; [|cbn [opt_unsafe orb] in H; by rewrite H, orb_true_r].
      destruct (Hd eq_refl) as (? & [= <-] & ->). done.
    + destruct dirty; [by destruct (Hd eq_refl) as (? & ? & _)|].
      destruct (aw_err x); eexists; (split; [done|]); apply readError_destroys; [apply join_unsafe|exact H].
  - rewrite orb_false_r in H. subst dirty. destruct (Hd eq_refl) as (e & -> & He).
    eexists. split; [done|]. by apply readError_destroys.
Qed.

Lemma keeps_loadAttempt ctx aud dest newID oldID now state :
  lkeeps (LcTx false false) (loadRotationAttempt ctx aud dest newID oldID now state)
    (fun r => accounted (match r with Ok _ => None | Err e => Some e end)).
Proof.
  intros [[] [e|]]; eexists; (split; [done|]); cbn [bind].
  - intros u. eexists. split; [done|]. intros rowsErr. eexists. split; [done|].
    apply accounted_read. apply combined_unsafe.
  - eapply keeps_bind; [apply keeps_readAttempt|]. intros x q (dirty & -> & Hd).
    intros u. eexists. split; [done|]. intros rowsErr. eexists. split; [done|]. cbn [bind].
    destruct (dirty || opt_unsafe rowsErr) eqn:G.
    + destruct (attemptError_destroys _ _ _ Hd G) as (e & -> & He). by exists true.
    + repeat case_match; apply accounted_clean.
  - by apply accounted_read.
  - by exists true.
Qed.

Lemma keeps_InspectAttempt repository ctx aud dest newID oldID now :
  lkeeps LcNone (repo_InspectRotationAttempt repository ctx aud dest newID oldID now) (fun _ => lc_over).
Proof.
  apply keeps_validate. intros [r|e]; [|by left]. destruct (_ || _); [by left|].
  apply keeps_open; [|by right].
  eapply keeps_bind; [|intros x q; apply keeps_defers].
  eapply keeps_bind; [apply keeps_load|]. intros [state|e] q Ha; [|by apply keeps_rollbackRead].
  destruct Ha as ([] & -> & Hd); [by destruct Hd|].
  eapply keeps_bind; [apply keeps_loadAttempt|]. intros [a|e] q Ha; [|by apply keeps_rollbackRead].
  destruct Ha as ([] & -> & Hd'); [by destruct Hd'|]. apply keeps_commitInspection.
Qed.

(** The pool closures keep to the protocol of the calls they stand for. *)
Lemma keeps_lifecycleViaPool {A} q (p : prog LcE A) post : lkeeps q p post -> lkeeps q (lifecycleViaPool p) post.
Proof.
  revert q. induction p as [a|o k IH]; intros q H; [done|].
  destruct o; try (intros r; destruct (H r) as (q' & Hs & Hk); exists q'; split; [done|by apply IH]).
  - assert (q = LcNone) as ->.
    { destruct (H (false, @None error)) as (q' & Hs & _). by destruct q as [| |[]|[]|]. }
    assert (forall (b : bool) (e : option error),
      lkeeps (if b then if is_err e then LcEnded true else LcFresh else LcGone) (lifecycleViaPool (k (b, e))) post) as Hk.
    { intros b e. destruct (H (b, e)) as (q' & Hs & Hk). apply IH. simpl in Hs. by injection Hs as <-. }
    intros [connection e]. eexists. split; [done|]. destruct e as [e|], connection; cbn [bind].
    + intros u. exists LcGone. split; [done|]. exact (Hk false (Some e)).
    + exact (Hk false (Some e)).
    + exact (Hk true None).
    + exact (Hk false (Some (Sentinel ErrDestinationLifecycleUnavailable))).
Qed.

(** Every execution, over an arbitrary acquire function and over the pool. *)
Definition lifecycle_kept {A} (p : prog LcE A) : Prop :=
  forall tr a, runs p tr a \/ runs (lifecycleViaPool p) tr a ->
  exists q, proto_run lc_step LcNone tr = Some q /\ (q = LcNone \/ q = LcGone).

Lemma keeps_lifecycle {A} (p : prog LcE A) : lkeeps LcNone p (fun _ => lc_over) -> lifecycle_kept p.
Proof.
  intros H tr a [Hr|Hr]; [exact (keeps_runs _ _ _ _ _ _ H Hr)|].
  exact (keeps_runs _ _ _ _ _ _ (keeps_lifecycleViaPool _ _ _ H) Hr).
Qed.

(** A mutation after its guard. *)
Lemma keeps_guarded (b : bool) e (p : prog LcE (option error)) :
  lkeeps LcNone p (fun _ => lc_over) -> lkeeps LcNone (if b then Ret (Some e) else p) (fun _ => lc_over).
Proof. intros H. destruct b; [by left|done]. Qed.

(** (C28) The connection and transaction protocol of the seven mutations and
    the two inspections, whatever the pool, the server and the context do. At
    most one connection is acquired; one transaction is begun on it;
    statements and row sets are used only inside it, and a row set is closed
    before the next statement and before the transaction ends; the
    transaction is ended exactly once, a rollback always under its own time
    limit; and the connection is then given back exactly once, by destroying
    it whenever a call on it was interrupted, had an ambiguous error or ended
    the transaction with an error (a commit that the server turned into a
    rollback apart). *)
Theorem lifecycle_connections repository ctx candidate now rotation aud dest record other activate rollback finalize :
  lifecycle_kept (repo_CreateStagedToken repository ctx candidate now) /\
  lifecycle_kept (repo_CreateRotationStagedToken repository ctx rotation) /\
  lifecycle_kept (repo_ActivateInitialToken repository ctx aud dest record now) /\
  lifecycle_kept (repo_ActivateRotation repository ctx activate) /\
  lifecycle_kept (repo_AbortStagedToken repository ctx aud dest record now) /\
  lifecycle_kept (repo_RollbackRotation repository ctx rollback) /\
  lifecycle_kept (repo_FinalizeRotation repository ctx finalize) /\
  lifecycle_kept (repo_InspectLifecycleState repository ctx aud dest now) /\
  lifecycle_kept (repo_InspectRotationAttempt repository ctx aud dest record other now).
Proof.
  split_and!; apply keeps_lifecycle.
  - unfold repo_CreateStagedToken. destruct (revalidate candidate); [|by left].
    apply keeps_guarded, keeps_runMutation, createStaged_kept.
  - unfold repo_CreateRotationStagedToken. destruct (NewCreateRotationStagedTokenCommand _ _ _); [|by left].
    apply keeps_guarded, keeps_runMutation, createRotation_kept.
  - apply keeps_guarded, keeps_runMutation, activateInitial_kept.
  - apply keeps_guarded, keeps_runMutation, activateRotation_kept.
  - apply keeps_guarded, keeps_runMutation, abortStaged_kept.
  - apply keeps_guarded, keeps_runMutation, rollbackRotation_kept.
  - apply keeps_guarded, keeps_runMutation, finalizeRotation_kept.
  - apply keeps_Inspect.
  - apply keeps_InspectAttempt.
Qed.
