(* ===== verification/LifecycleSpec.v ===== *)
(** What the commands of the token lifecycle mean on the phases of a
    destination, and that the mutations of
    internal/postgres/destination_token_lifecycle.go decide them so. *)

From Stdlib Require Import ZifyBool.
From S2P Require Import Prelude Effects GoErrors GoTime Encoding Uuid PgTypes SecurityTypes TokenRows.
From S2P Require Import Lifecycle LifecycleRepo.

(** * Commands *)

(** A command on one destination at an instant. *)
Inductive lifecycle_command : Type :=
| CmdCreate (candidate : StagedTokenCandidate)
| CmdCreateRotation (candidate : StagedTokenCandidate) (expectedActive : DestinationTokenRecordID)
| CmdActivate (staged : DestinationTokenRecordID)
| CmdActivateRotation (staged oldActive : DestinationTokenRecordID) (deadline : Time)
| CmdAbort (staged : DestinationTokenRecordID)
| CmdRollback (newActive oldRetiring : DestinationTokenRecordID)
| CmdFinalize (newActive oldRetiring : DestinationTokenRecordID) (reason : RotationCompletionReason).

(** The token a candidate becomes. *)
Definition staged_token (d : Destination) (c : StagedTokenCandidate) : DestinationToken :=
  mkTokenSpec (sc_audienceID c) d (sc_recordID c) (sc_verifier c) (sc_verifierKeyID c) DestinationTokenStaged
    (pg_time (sc_createdAt c)) 0 0 0 (pg_time (sc_expiresAt c)) (pg_time (sc_stagedCleanupDeadline c)) 0
    (pg_time (sc_createdAt c)).

(** The state and the times of its history that a change of a token sets. *)
Definition moved (t : DestinationToken) (state : DestinationTokenState) (activated started revoked deadline changed : Time)
  : DestinationToken :=
  mkTokenSpec (ts_AudienceID t) (ts_Destination t) (ts_RecordID t) (ts_Verifier t) (ts_VerifierKeyID t) state
    (ts_CreatedAt t) activated started revoked (ts_ExpiresAt t) (ts_StagedCleanupDeadline t) deadline changed.

Definition activated (now : Time) (t : DestinationToken) : DestinationToken :=
  moved t DestinationTokenActive (pg_time now) (ts_RetirementStartedAt t) (ts_RevokedAt t) (ts_RetirementDeadline t)
    (pg_time now).

Definition retired (now deadline : Time) (t : DestinationToken) : DestinationToken :=
  moved t DestinationTokenRetiring (ts_ActivatedAt t) (pg_time now) (ts_RevokedAt t) (pg_time deadline) (pg_time now).

Definition restored (now : Time) (t : DestinationToken) : DestinationToken :=
  moved t DestinationTokenActive (ts_ActivatedAt t) 0 (ts_RevokedAt t) 0 (pg_time now).

Definition revoked (now : Time) (t : DestinationToken) : DestinationToken :=
  moved t DestinationTokenRevoked (ts_ActivatedAt t) (ts_RetirementStartedAt t) (pg_time now)
    (ts_RetirementDeadline t) (pg_time now).

(** The destination is enabled and every live token is good at [now]. *)
Definition phase_good (d : Destination) (now : Time) (ph : phase) : bool := negb (phase_stale d now ph).

(** A token may be given up: nothing of it is dated after [now], and the
    active token beside it, if any, is good. *)
Definition abort_allowed (d : Destination) (now : Time) (staged : DestinationToken) (beside : list DestinationToken) : bool :=
  destination_Enabled d && (ts_StateChangedAt staged <=? now) && forallb (fun a => negb (token_stale now a)) beside.

(** The meaning of a command: the tokens it writes, in order, and the phase it
    leads to; [None] when it is refused. *)
Definition lifecycle_next (d : Destination) (now : Time) (cmd : lifecycle_command) (ph : phase)
  : option (list DestinationToken * phase) :=
  match cmd, ph with
  | CmdCreate c, PhaseUnprovisioned =>
      let t := staged_token d c in
      if phase_good d now ph then Some ([t], PhaseStaged t) else None
  | CmdCreateRotation c expected, PhaseActive a =>
      let t := staged_token d c in
      if phase_good d now ph && (ts_RecordID a =?? expected) then Some ([t], PhaseActiveStaged a t) else None
  | CmdActivate id, PhaseStaged s =>
      if phase_good d now ph && (ts_RecordID s =?? id)
      then Some ([activated now s], PhaseActive (activated now s)) else None
  | CmdActivateRotation id old deadline, PhaseActiveStaged a s =>
      if phase_good d now ph && (ts_RecordID s =?? id) && (ts_RecordID a =?? old) &&
         (deadline <? ts_ExpiresAt s) && (deadline <? ts_ExpiresAt a)
      then Some ([retired now deadline a; activated now s],
                 PhaseActiveRetiring (activated now s) (retired now deadline a)) else None
  | CmdAbort id, PhaseStaged s =>
      if (ts_RecordID s =?? id) && abort_allowed d now s [] then Some ([revoked now s], PhaseUnprovisioned) else None
  | CmdAbort id, PhaseActiveStaged a s =>
      if (ts_RecordID s =?? id) && abort_allowed d now s [a] then Some ([revoked now s], PhaseActive a) else None
  | CmdRollback new old, PhaseActiveRetiring a r =>
      if phase_good d now ph && (ts_RecordID a =?? new) && (ts_RecordID r =?? old)
      then Some ([revoked now a; restored now r], PhaseActive (restored now r)) else None
  | CmdFinalize new old reason, PhaseActiveRetiring a r =>
      if destination_Enabled d && negb (token_stale now a) && (ts_RecordID a =?? new) && (ts_RecordID r =?? old) &&
         (negb (reason =? RotationDeadlineElapsed) || (ts_RetirementDeadline r <=? now))
      then Some ([revoked now r], PhaseActive a) else None
  | _, _ => None
  end.

(** * The statements of a command *)

(** One change of a token. *)
Definition change (d : Destination) (u : lc_update) (t : DestinationToken) (now : Time) : lc_stmt :=
  UpdateToken u (formatUUID (dst_audienceID d)) (formatUUID (dst_id d)) (formatUUID (ts_RecordID t))
    (ts_StateChangedAt t) now.

Definition insertion (c : StagedTokenCandidate) : lc_stmt :=
  InsertStaged (formatUUID (sc_recordID c)) (formatUUID (sc_audienceID c)) (formatUUID (sc_destination c))
    (match sc_verifier c with Some v => arr_list v | None => arr_list (zero_arr 32) end)
    (sc_verifierKeyID c) (sc_createdAt c) (sc_expiresAt c) (sc_stagedCleanupDeadline c).

Definition lifecycle_statements (d : Destination) (now : Time) (cmd : lifecycle_command) (ph : phase) : list lc_stmt :=
  match cmd, ph with
  | CmdCreate c, _ | CmdCreateRotation c _, _ => [insertion c]
  | CmdActivate _, PhaseStaged s => [change d activateInitialSQL s now]
  | CmdActivateRotation _ _ deadline, PhaseActiveStaged a s =>
      [change d (retireSQL deadline) a now; change d activateRotationSQL s now]
  | CmdAbort _, PhaseStaged s | CmdAbort _, PhaseActiveStaged _ s => [change d revokeStagedSQL s now]
  | CmdRollback _ _, PhaseActiveRetiring a r => [change d revokeActiveSQL a now; change d restoreRetiringSQL r now]
  | CmdFinalize _ _ _, PhaseActiveRetiring _ r => [change d revokeRetiringSQL r now]
  | _, _ => []
  end.

(** Sending them: each only after the one before changed one row. *)
Fixpoint sendAll (ctx : Ctx) (stmts : list lc_stmt) : prog LcE (bool * option error) :=
  match stmts with
  | [] => Ret (true, None)
  | [s] => send ctx s
  | s :: stmts =>
      let! e := execLifecycle ctx s in
      match e with Some e => Ret (true, Some e) | None => sendAll ctx stmts end
  end.

(** The closure the repository runs for a command. *)
Definition command_mutation (ctx : Ctx) (aud : GatewayAudienceID) (dest : DestinationID) (now : Time)
    (cmd : lifecycle_command) : lifecycleMutation :=
  match cmd with
  | CmdCreate c => createStagedMutation ctx c
  | CmdCreateRotation c expected => createRotationMutation ctx c expected
  | CmdActivate id => activateInitialMutation ctx aud dest id now
  | CmdActivateRotation id old deadline => activateRotationMutation ctx (mkActivateRotation aud dest id old now deadline)
  | CmdAbort id => abortStagedMutation ctx aud dest id now
  | CmdRollback new old => rollbackRotationMutation ctx (mkRollbackRotation aud dest new old now)
  | CmdFinalize new old reason => finalizeRotationMutation ctx (mkFinalizeRotation aud dest new old reason now)
  end.

(** * The mutations decide the commands *)

Definition locked_at (d : Destination) (now : Time) (ph : phase) : lifecycleLockedState :=
  mkLocked d (snapshot_of d now ph).

(** A refusal: nothing is sent. *)
Definition refused (m : prog LcE (bool * option error)) : Prop :=
  exists kind, m = refuse kind /\
    (kind = ErrDestinationLifecycleConflict \/ kind = ErrDestinationLifecycleReconciliation).

Lemma refused_conflict : refused (refuse ErrDestinationLifecycleConflict).
Proof. eexists. split; [done|by left]. Qed.

Lemma refused_reconciliation : refused (refuse ErrDestinationLifecycleReconciliation).
Proof. eexists. split; [done|by right]. Qed.

Ltac refused := first [apply refused_conflict | apply refused_reconciliation].

Lemma status_at d now ph want :
  lk_status_is (locked_at d now ph) want =
  if phase_stale d now ph then want =? LifecycleReconciliationRequired else want =? phase_status ph.
Proof.
  unfold lk_status_is, locked_at, snapshot_of. cbn [lk_snapshot sn_status].
  destruct (phase_stale d now ph); apply Z.eqb_sym.
Qed.

Lemma disabled_stale d now ph : destination_Enabled d = false -> phase_stale d now ph = true.
Proof. intros H. unfold phase_stale. by rewrite H. Qed.

(** A valid token changed after it was created, and an active or retiring one
    was activated in between. *)
Lemma token_order t :
  token_ok t ->
  ts_CreatedAt t <= ts_StateChangedAt t /\
  (ts_State t = DestinationTokenActive -> ts_CreatedAt t <= ts_ActivatedAt t <= ts_StateChangedAt t) /\
  (ts_State t = DestinationTokenRetiring -> ts_CreatedAt t <= ts_ActivatedAt t <= ts_RetirementStartedAt t /\
     ts_RetirementStartedAt t < ts_RetirementDeadline t /\ ts_RetirementDeadline t <> 0).
Proof.
  intros [_ _ _ _ _ (Hc & Hch & Ha & Hd & Hs & _) Hst].
  unfold DestinationTokenStaged, DestinationTokenActive, DestinationTokenRetiring, DestinationTokenRevoked in *.
  split; [done|]. split; intros Hstate; rewrite Hstate in Hst; lia.
Qed.

(** A live token that is good, in terms of its times. *)
Lemma active_good d now a :
  token_ok a -> token_in d DestinationTokenActive a -> destination_Enabled d = true ->
  token_stale now a = false <-> ts_StateChangedAt a <= now < ts_ExpiresAt a.
Proof.
  intros Hok (_ & Hd & Hs) He. destruct (token_order a Hok) as (Hc & Ha & _). specialize (Ha Hs).
  unfold token_stale, token_UsableAt. rewrite Hd, He, Hs. cbn. unfold_time. case_match; lia.
Qed.

Lemma retiring_good d now r :
  token_ok r -> token_in d DestinationTokenRetiring r -> destination_Enabled d = true ->
  token_stale now r = false <->
  ts_StateChangedAt r <= now < ts_ExpiresAt r /\ ts_ActivatedAt r <= now < ts_RetirementDeadline r.
Proof.
  intros Hok (_ & Hd & Hs) He. destruct (token_order r Hok) as (Hc & _ & Hr). specialize (Hr Hs).
  unfold token_stale, token_UsableAt. rewrite Hd, He, Hs. cbn. unfold_time. case_match; lia.
Qed.

Lemma staged_good d now s :
  token_ok s -> token_in d DestinationTokenStaged s ->
  token_stale now s = false <->
  ts_StateChangedAt s <= now < ts_ExpiresAt s /\ now < ts_StagedCleanupDeadline s.
Proof.
  intros Hok (_ & _ & Hs). destruct (token_order s Hok) as (Hc & _).
  unfold token_stale. rewrite Hs. cbn. unfold_time. lia.
Qed.

Definition phase_valid (d : Destination) (ph : phase) : Prop := phase_ok d ph /\ Forall token_ok (phase_tokens ph).

(** What a mutation must be for the command to be decided as it means. *)
Definition decides (ctx : Ctx) (d : Destination) (now : Time) (cmd : lifecycle_command) (ph : phase)
    (m : prog LcE (bool * option error)) : Prop :=
  match lifecycle_next d now cmd ph with
  | Some _ => m = sendAll ctx (lifecycle_statements d now cmd ph)
  | None => refused m
  end.

Lemma create_decides ctx d now ph c :
  decides ctx d now (CmdCreate c) ph (createStagedMutation ctx c (locked_at d now ph)).
Proof.
  unfold decides, createStagedMutation. rewrite !status_at. unfold lk_enabled, phase_good. cbn [lk_destination locked_at].
  destruct (destination_Enabled d) eqn:He; cbn [negb].
  - destruct ph; cbn -[phase_stale]; unfold phase_good; destruct (phase_stale d now _); cbn; first [done|refused].
  - destruct ph; cbn -[phase_stale]; unfold phase_good; rewrite ?disabled_stale by done; cbn; refused.
Qed.

Lemma createRotation_decides ctx d now ph c expected :
  decides ctx d now (CmdCreateRotation c expected) ph (createRotationMutation ctx c expected (locked_at d now ph)).
Proof.
  unfold decides, createRotationMutation. rewrite !status_at. unfold lk_enabled. cbn [lk_destination locked_at].
  destruct ph; cbn -[phase_stale]; unfold phase_good; destruct (phase_stale d now _) eqn:E; cbn;
    rewrite ?orb_true_r; try refused; destruct (destination_Enabled d) eqn:He;
    try (rewrite disabled_stale in E by done; done); cbn; try refused.
  by destruct (bool_decide _) eqn:E'; cbn; [|refused].
Qed.

Lemma activate_decides ctx d now ph id :
  decides ctx d now (CmdActivate id) ph
    (activateInitialMutation ctx (dst_audienceID d) (dst_id d) id now (locked_at d now ph)).
Proof.
  unfold decides, activateInitialMutation. rewrite !status_at.
  destruct ph as [|s| | |]; cbn -[phase_stale]; unfold phase_good; destruct (phase_stale d now _) eqn:E; cbn; try refused.
  destruct (bool_decide _) eqn:E'; cbn; [|refused]. apply bool_decide_eq_true in E' as <-. done.
Qed.

Lemma activateRotation_decides ctx d now ph id old deadline :
  decides ctx d now (CmdActivateRotation id old deadline) ph
    (activateRotationMutation ctx (mkActivateRotation (dst_audienceID d) (dst_id d) id old now deadline)
      (locked_at d now ph)).
Proof.
  unfold decides, activateRotationMutation. cbv zeta. rewrite !status_at. cbn [ar_AudienceID ar_DestinationID
    ar_StagedRecordID ar_OldActiveRecordID ar_Now ar_OverlapDeadline].
  destruct ph as [| | |a s|]; cbn -[phase_stale]; unfold phase_good; destruct (phase_stale d now _) eqn:E; cbn; try refused.
  destruct (bool_decide (ts_RecordID s = id)) eqn:E1; cbn; [|refused].
  destruct (bool_decide (ts_RecordID a = old)) eqn:E2; cbn; [|refused].
  apply bool_decide_eq_true in E1 as <-, E2 as <-. unfold t_before.
  destruct (deadline <? ts_ExpiresAt s); cbn; [|refused]. by destruct (deadline <? ts_ExpiresAt a); cbn; [|refused].
Qed.

(** A phase with a staged token, and what is beside it. *)
Definition beside (ph : phase) : list DestinationToken := option_list (phase_active ph).

Lemma phase_good_staged d now ph s :
  phase_valid d ph -> phase_staged ph = Some s ->
  phase_good d now ph = true <-> destination_Enabled d = true /\
    (ts_StateChangedAt s <= now < ts_ExpiresAt s /\ now < ts_StagedCleanupDeadline s) /\
    Forall (fun a => token_stale now a = false) (beside ph).
Proof.
  intros [Hok Hv] Hs. unfold phase_good, phase_stale, beside. rewrite negb_true_iff, orb_false_iff, negb_false_iff.
  destruct ph as [|s'| |a s'|]; simplify_eq/=; rewrite !Forall_cons in Hv; rewrite orb_false_r, ?orb_false_iff.
  - rewrite (staged_good d now s) by (done || apply Hv). split; [by intros [??]|tauto].
  - destruct Hok as (_ & Hs & _). rewrite (staged_good d now s) by (done || apply Hv). rewrite Forall_singleton. tauto.
Qed.

Lemma abort_check d now ph s :
  phase_valid d ph -> phase_staged ph = Some s ->
  match lifecycleStagedAbortAllowed (locked_at d now ph) (lifecycleTokenView s) now with
  | None => abort_allowed d now s (beside ph) = true
  | Some kind => abort_allowed d now s (beside ph) = false /\
      (kind = ErrDestinationLifecycleConflict \/ kind = ErrDestinationLifecycleReconciliation)
  end.
Proof.
  intros Hv Hs. pose proof (phase_good_staged d now ph s Hv Hs) as Hg. unfold phase_good in Hg.
  destruct Hv as [Hok Hv]. unfold lifecycleStagedAbortAllowed. rewrite !status_at. unfold lk_enabled, abort_allowed.
  cbn [locked_at lk_destination lk_snapshot].
  destruct (phase_stale d now ph) eqn:E; cbn [negb] in Hg.
  - cbn. destruct (destination_Enabled d) eqn:He; cbn; [|by auto]. unfold_time.
    destruct ph as [|s'| |a s'|]; simplify_eq/=; rewrite !Forall_cons in Hv.
    + destruct (now <? ts_StateChangedAt s) eqn:E1; cbn; [split; [lia|by auto]|].
      destruct ((now <? ts_ExpiresAt s) && (now <? ts_StagedCleanupDeadline s)) eqn:E2; cbn; [|lia].
      exfalso. assert (false = true) as X; [|done]. apply Hg. split_and!; try done; lia.
    + destruct Hok as (Ha & Hs & _). destruct Hv as (Hva & Hvs & _).
      pose proof (active_good d now a Hva Ha He) as Hag. pose proof (token_order a Hva) as (_ & Hord & _).
      specialize (Hord (proj2 (proj2 Ha))). cbn.
      destruct (now <? ts_StateChangedAt s) eqn:E1; cbn; [split; [lia|by auto]|].
      destruct ((now <? ts_ExpiresAt s) && (now <? ts_StagedCleanupDeadline s)) eqn:E2; cbn.
      * split; [|by auto]. destruct (token_stale now a) eqn:Eg; [cbn; lia|].
        exfalso. assert (false = true) as X; [|done]. apply Hg. split_and!; try done; try lia. by repeat constructor.
      * match goal with |- match (if ?b then _ else _) with _ => _ end => destruct b eqn:E3 end.
        -- split; [|by auto]. destruct (token_stale now a) eqn:Eg; [cbn; lia|].
           assert (ts_StateChangedAt a <= now < ts_ExpiresAt a) by (by apply Hag). lia.
        -- assert (token_stale now a = false) as -> by (apply Hag; lia). cbn. lia.
  - destruct Hg as [Hg _]. destruct (Hg eq_refl) as (He & Hst & Ha). rewrite He.
    assert (match phase_status ph with 2 | 4 => True | _ => False end) as Hph by (by destruct ph; simplify_eq).
    assert (forallb (fun a => negb (token_stale now a)) (beside ph) = true) as Hb.
    { apply forallb_forall. intros a Hin. rewrite Forall_forall in Ha. rewrite Ha; [done|]. by apply list_elem_of_In. }
    destruct ph; simplify_eq/=; rewrite ?Hb; lia.
Qed.

Lemma abort_decides ctx d now ph id :
  phase_valid d ph ->
  decides ctx d now (CmdAbort id) ph
    (abortStagedMutation ctx (dst_audienceID d) (dst_id d) id now (locked_at d now ph)).
Proof.
  intros Hv. unfold decides, abortStagedMutation. pose proof (abort_check d now ph) as Hc.
  destruct ph as [|s| |a s|]; cbn -[lifecycleStagedAbortAllowed abort_allowed]; try refused;
    destruct (bool_decide (ts_RecordID s = id)) eqn:E; cbn [negb andb orb]; try refused;
    apply bool_decide_eq_true in E as <-; specialize (Hc s Hv eq_refl); cbn -[lifecycleStagedAbortAllowed abort_allowed] in Hc;
    (destruct (lifecycleStagedAbortAllowed _ _ _); [destruct Hc as [-> [-> | ->]]; refused|by rewrite Hc]).
Qed.

(** The pair of a rotation in progress, in terms of its tokens. *)
Lemma rotationPair_at d now a r new old (stale_ok : bool) :
  phase_valid d (PhaseActiveRetiring a r) ->
  let good := destination_Enabled d && negb (token_stale now a) && (stale_ok || (now <? ts_ExpiresAt r)) in
  lifecycleRotationPair (locked_at d now (PhaseActiveRetiring a r)) new old now stale_ok =
  if (ts_RecordID a =?? new) && (ts_RecordID r =?? old)
  then if good then Ok (lifecycleTokenView a, lifecycleTokenView r) else Err ErrDestinationLifecycleReconciliation
  else Err ErrDestinationLifecycleConflict.
Proof.
  intros [(Ha & Hr & _ & Hco) Hv] good. subst good. cbn in Hv. rewrite !Forall_cons in Hv. destruct Hv as (Hva & Hvr & _).
  unfold lifecycleRotationPair, lk_enabled. cbn [locked_at lk_destination lk_snapshot snapshot_of sn_active sn_retiring
    sn_staged phase_active phase_retiring phase_staged fmap option_fmap option_map lifecycleTokenView v_recordID].
  destruct (bool_decide (ts_RecordID a = new)), (bool_decide (ts_RecordID r = old)); try done.
  cbn -[t_before t_after token_stale]. destruct (destination_Enabled d) eqn:He; [|done].
  pose proof (active_good d now a Hva Ha He) as Hag.
  pose proof (token_order a Hva) as (_ & Hoa & _). specialize (Hoa (proj2 (proj2 Ha))).
  pose proof (token_order r Hvr) as (_ & _ & Hor). specialize (Hor (proj2 (proj2 Hr))).
  destruct Hco as (Hc1 & Hc2 & Hc3). cbn [negb orb andb]. unfold_time.
  destruct (token_stale now a); cbn [negb orb andb].
  - assert (ts_StateChangedAt a <= now < ts_ExpiresAt a -> False) by (intros X; by apply Hag in X).
    match goal with |- (if ?b then _ else _) = _ => assert (b = true) as -> by lia end. done.
  - assert (ts_StateChangedAt a <= now < ts_ExpiresAt a) by (by apply Hag).
    match goal with |- (if ?b then _ else _) = _ => assert (b = false) as -> by lia end.
    destruct stale_ok; [done|]. by destruct (now <? ts_ExpiresAt r).
Qed.

(** The retiring token of a good active one is good before its deadline. *)
Lemma rotation_good d now a r :
  phase_valid d (PhaseActiveRetiring a r) ->
  phase_good d now (PhaseActiveRetiring a r) =
  destination_Enabled d && negb (token_stale now a) && (now <? ts_ExpiresAt r) && (now <? ts_RetirementDeadline r).
Proof.
  intros [(Ha & Hr & _ & Hco) Hv]. cbn in Hv. rewrite !Forall_cons in Hv. destruct Hv as (Hva & Hvr & _).
  unfold phase_good, phase_stale. cbn [phase_tokens existsb]. destruct (destination_Enabled d) eqn:He; [|done].
  cbn [negb orb andb]. rewrite orb_false_r.
  pose proof (active_good d now a Hva Ha He) as Hag. pose proof (retiring_good d now r Hvr Hr He) as Hrg.
  pose proof (token_order r Hvr) as (_ & _ & Hor). specialize (Hor (proj2 (proj2 Hr))).
  destruct Hco as (Hc1 & Hc2 & Hc3).
  destruct (token_stale now a); cbn [negb orb andb]; [done|].
  assert (ts_StateChangedAt a <= now < ts_ExpiresAt a) by (by apply Hag).
  destruct (token_stale now r); cbn [negb].
  - assert (ts_StateChangedAt r <= now < ts_ExpiresAt r /\ ts_ActivatedAt r <= now < ts_RetirementDeadline r -> False)
      by (intros X; by apply Hrg in X). lia.
  - assert (ts_StateChangedAt r <= now < ts_ExpiresAt r /\ ts_ActivatedAt r <= now < ts_RetirementDeadline r)
      by (by apply Hrg). lia.
Qed.

(** Outside a rotation in progress there is no pair. *)
Lemma rotationPair_none d now ph new old stale_ok :
  phase_retiring ph = None ->
  lifecycleRotationPair (locked_at d now ph) new old now stale_ok = Err ErrDestinationLifecycleConflict.
Proof. intros H. unfold lifecycleRotationPair. by destruct ph; simplify_eq. Qed.

Lemma rollback_decides ctx d now ph new old :
  phase_valid d ph ->
  decides ctx d now (CmdRollback new old) ph
    (rollbackRotationMutation ctx (mkRollbackRotation (dst_audienceID d) (dst_id d) new old now) (locked_at d now ph)).
Proof.
  intros Hv. unfold decides, rollbackRotationMutation. cbn [rr_AudienceID rr_DestinationID rr_NewActiveRecordID
    rr_OldRetiringRecordID rr_Now]. cbv zeta.
  destruct ph as [| | | |a r]; try (rewrite rotationPair_none by done; refused).
  rewrite rotationPair_at by done. cbn [lifecycle_next lifecycle_statements]. rewrite rotation_good by done. cbv zeta.
  destruct (bool_decide (ts_RecordID a = new)) eqn:E1; cbn [andb]; [|rewrite andb_false_r; refused].
  destruct (bool_decide (ts_RecordID r = old)) eqn:E2; cbn [andb]; [|rewrite !andb_false_r; refused].
  apply bool_decide_eq_true in E1 as <-, E2 as <-. rewrite !andb_true_r. cbn [orb].
  destruct (destination_Enabled d && negb (token_stale now a) && (now <? ts_ExpiresAt r)) eqn:G; cbn [andb]; [|refused].
  cbn [v_retirementDeadline lifecycleTokenView v_stateChangedAt]. unfold t_before.
  by destruct (now <? ts_RetirementDeadline r); cbn [negb]; [|refused].
Qed.

Lemma finalize_decides ctx d now ph new old reason :
  phase_valid d ph ->
  decides ctx d now (CmdFinalize new old reason) ph
    (finalizeRotationMutation ctx (mkFinalizeRotation (dst_audienceID d) (dst_id d) new old reason now)
      (locked_at d now ph)).
Proof.
  intros Hv. unfold decides, finalizeRotationMutation. cbn [fr_AudienceID fr_DestinationID fr_NewActiveRecordID
    fr_OldRetiringRecordID fr_Now fr_Reason].
  destruct ph as [| | | |a r]; try (rewrite rotationPair_none by done; refused).
  rewrite rotationPair_at by done. cbn [lifecycle_next lifecycle_statements]. cbv zeta.
  destruct (bool_decide (ts_RecordID a = new)) eqn:E1; cbn [andb]; [|rewrite andb_false_r; refused].
  destruct (bool_decide (ts_RecordID r = old)) eqn:E2; cbn [andb]; [|rewrite !andb_false_r; refused].
  apply bool_decide_eq_true in E1 as <-, E2 as <-. rewrite !andb_true_r. cbn [orb].
  destruct (destination_Enabled d && negb (token_stale now a)) eqn:G; cbn [andb]; [|refused].
  cbn [v_retirementDeadline lifecycleTokenView v_stateChangedAt]. unfold t_before.
  destruct (reason =? RotationDeadlineElapsed); cbn [negb orb andb]; [|done].
  rewrite Z.ltb_antisym. by destruct (ts_RetirementDeadline r <=? now); cbn [negb]; [|refused].
Qed.

(** Every command is decided as it means. *)
Lemma command_decides ctx d now cmd ph :
  phase_valid d ph ->
  decides ctx d now cmd ph (command_mutation ctx (dst_audienceID d) (dst_id d) now cmd (locked_at d now ph)).
Proof.
  intros Hv. destruct cmd; cbn [command_mutation].
  - apply create_decides.
  - apply createRotation_decides.
  - apply activate_decides.
  - apply activateRotation_decides.
  - by apply abort_decides.
  - by apply rollback_decides.
  - by apply finalize_decides.
Qed.

(** (C9) The seven mutations decide every command as the lifecycle means it.
    On the locked state of a destination whose live tokens are valid and in
    one of the five phases, a command either sends exactly its statements, in
    order, or is refused with a conflict or a reconciliation error before
    anything is sent; and it is sent exactly when [lifecycle_next] allows it.
    So a staged token replaces nothing before it is activated; an activation
    asks for a good phase; a rotation can be rolled back exactly while both
    its tokens are good; it can be finalized whether or not the retiring token
    is still good, but by elapsed time only after its deadline; and a staged
    token can be aborted even when it is overdue, but not to cover for a
    disabled destination or a bad active token. *)
Theorem lifecycle_decisions ctx d now cmd ph (Hvalid : phase_valid d ph) :
  decides ctx d now cmd ph (command_mutation ctx (dst_audienceID d) (dst_id d) now cmd (locked_at d now ph)).
Proof. exact (command_decides ctx d now cmd ph Hvalid). Qed.

(** * A rotation in progress *)

Definition sample_new : DestinationToken :=
  mkTokenSpec sample_audience sample_destination (mk_arr 16 [x08]) (Some (zero_arr 32)) (lit "key")
    DestinationTokenActive (sample_t0 + Hour) (sample_t0 + 2 * Hour) 0 0
    (sample_t0 + 90 * 24 * Hour) (sample_t0 + 24 * Hour) 0 (sample_t0 + 2 * Hour).

Definition sample_phase : phase := PhaseActiveRetiring sample_new sample_token_spec.

Lemma sample_phase_valid : phase_valid sample_destination sample_phase.
Proof.
  split; [split_and!; by try (vm_compute; discriminate)|].
  constructor; [|constructor; [|constructor]]; apply validateDestinationTokenSpec_none; vm_compute; reflexivity.
Qed.

Lemma lifecycle_decisions_witness :
  decides CtxReq sample_destination (sample_t0 + 3 * Hour) (CmdRollback (mk_arr 16 [x08]) (mk_arr 16 [x07])) sample_phase
    (command_mutation CtxReq (dst_audienceID sample_destination) (dst_id sample_destination) (sample_t0 + 3 * Hour)
      (CmdRollback (mk_arr 16 [x08]) (mk_arr 16 [x07]))
      (locked_at sample_destination (sample_t0 + 3 * Hour) sample_phase)) /\
  is_Some (lifecycle_next sample_destination (sample_t0 + 3 * Hour)
    (CmdRollback (mk_arr 16 [x08]) (mk_arr 16 [x07])) sample_phase).
Proof.
  split; [apply lifecycle_decisions, sample_phase_valid|].
  vm_compute. eexists. reflexivity.
Defined.
