(* ===== verification/LifecycleStore.v ===== *)
(** The token table under internal/postgres/destination_token_lifecycle.go.

    The statements of LifecycleRepo.v get their meaning over the tables of
    migrations/000002_security_state_v1.sql. The repository, run against that
    meaning while other sessions change the rest of the tables, implements the
    commands of LifecycleSpec.v: a mutation that succeeds took the destination
    from one phase to the next, atomically. *)

From Stdlib Require Import ZifyBool.
From S2P Require Import Prelude Effects Concurrency GoErrors GoTime Encoding Uuid PgTypes SecurityTypes TokenRows.
From S2P Require Import TokenSchema Lifecycle LifecycleRepo LifecycleSpec.

(** * Tables *)

(** The rows of gateway_destination_tokens by record id. *)
Abbreviation token_table := (gmap bytes lifecycleTokenRecord).

(** A row the queries for live tokens select. *)
Definition live_row (dest : bytes) (r : lifecycleTokenRecord) : Prop :=
  ltr_destinationText r = dest /\ ltr_stateText r <> lit "revoked".

#[export] Instance live_row_dec dest r : Decision (live_row dest r).
Proof. unfold live_row. apply _. Defined.

Definition live (T : token_table) (dest : bytes) : list lifecycleTokenRecord :=
  filter (live_row dest) (map_to_list T).*2.

(** Every row is stored under its record id. *)
Definition keyed (T : token_table) : Prop := forall k r, T !! k = Some r -> ltr_recordText r = k.

(** The partial unique indexes: at most one staged, one active and one
    retiring token per destination. *)
Definition unique_indexes (T : token_table) : bool :=
  bool_decide (NoDup (map (fun r => (ltr_destinationText r, ltr_stateText r))
    (filter (fun r => ltr_stateText r <> lit "revoked") (map_to_list T).*2))).

(** * Statements *)

(** The state a change asks for. *)
Definition update_from (u : lc_update) : bytes :=
  match u with
  | activateInitialSQL | activateRotationSQL | revokeStagedSQL => lit "staged"
  | retireSQL _ | revokeActiveSQL => lit "active"
  | restoreRetiringSQL | revokeRetiringSQL => lit "retiring"
  end.

(** The [where] clause. *)
Definition update_matches (u : lc_update) (aud dest : bytes) (changed : Time) (r : lifecycleTokenRecord) : bool :=
  (ltr_audienceText r =?? aud) && (ltr_destinationText r =?? dest) && (ltr_stateText r =?? update_from u) &&
  (ltr_stateChangedAt r =?? TzTime (pg_time changed)).

Definition set_columns (r : lifecycleTokenRecord) (state : bytes) (activated started revoked deadline changed : Timestamptz)
  : lifecycleTokenRecord :=
  mkTokenRecord (ltr_recordText r) (ltr_audienceText r) (ltr_destinationText r) (ltr_verifierBytes r) (ltr_keyIDText r)
    state (ltr_createdAt r) activated started revoked (ltr_expiresAt r) (ltr_stagedCleanupDeadline r) deadline changed.

(** The [set] clause. *)
Definition update_row (u : lc_update) (now : Time) (r : lifecycleTokenRecord) : lifecycleTokenRecord :=
  let at_now := TzTime (pg_time now) in
  match u with
  | activateInitialSQL | activateRotationSQL =>
      set_columns r (lit "active") at_now (ltr_retirementStartedAt r) (ltr_revokedAt r) (ltr_retirementDeadline r) at_now
  | retireSQL deadline =>
      set_columns r (lit "retiring") (ltr_activatedAt r) at_now (ltr_revokedAt r) (TzTime (pg_time deadline)) at_now
  | revokeStagedSQL | revokeActiveSQL | revokeRetiringSQL =>
      set_columns r (lit "revoked") (ltr_activatedAt r) (ltr_retirementStartedAt r) at_now (ltr_retirementDeadline r) at_now
  | restoreRetiringSQL =>
      set_columns r (lit "active") (ltr_activatedAt r) TzNull (ltr_revokedAt r) TzNull at_now
  end.

(** The row an insert adds. *)
Definition inserted_row (record aud dest verifier keyID : bytes) (created expires cleanup : Time) : lifecycleTokenRecord :=
  mkTokenRecord record aud dest verifier keyID (lit "staged") (TzTime (pg_time created)) TzNull TzNull TzNull
    (TzTime (pg_time expires)) (TzTime (pg_time cleanup)) TzNull (TzTime (pg_time created)).

Section Store.
(** The time zone of the sessions, which the lifetime constraint depends on. *)
Context {zone : Zone} `{!ShortDays zone}.

(** What a statement does to the table it sees: the row it writes and the rows
    it affects; [None] when a constraint refuses it. *)
Definition exec_on (T : token_table) (s : lc_stmt) : option (option (bytes * lifecycleTokenRecord) * Z) :=
  let write k r := if token_row_checks r && unique_indexes (<[k := r]> T) then Some (Some (k, r), 1) else None in
  match s with
  | InsertStaged record aud dest verifier keyID created expires cleanup =>
      match T !! record with
      | Some _ => None
      | None => write record (inserted_row record aud dest verifier keyID created expires cleanup)
      end
  | UpdateToken u aud dest record changed now =>
      match T !! record with
      | None => Some (None, 0)
      | Some r => if update_matches u aud dest changed r then write record (update_row u now r) else Some (None, 0)
      end
  end.

(** * A session *)

(** The committed tables; the rows this session wrote in its transaction, the
    destination it has locked, its result set; and the table before and after
    each of its commits. *)
Record session : Type := mkStore {
  st_dests : gmap bytes lifecycleDestinationRecord;
  st_tokens : token_table;
  st_writes : token_table;
  st_lock : option bytes;
  st_cursor : list lifecycleTokenRecord;
  st_current : option lifecycleTokenRecord;
  st_failed : bool;
  st_done : list (token_table * token_table)
}.

(** What the session sees. *)
Definition visible (s : session) : token_table := st_writes s ∪ st_tokens s.

Definition with_rows (s : session) (cursor : list lifecycleTokenRecord) (current : option lifecycleTokenRecord)
    (failed : bool) : session :=
  mkStore (st_dests s) (st_tokens s) (st_writes s) (st_lock s) cursor current failed (st_done s).

Definition with_lock (s : session) (dest : bytes) : session :=
  mkStore (st_dests s) (st_tokens s) (st_writes s) (Some dest) (st_cursor s) (st_current s) (st_failed s) (st_done s).

Definition with_writes (s : session) (W : token_table) : session :=
  mkStore (st_dests s) (st_tokens s) W (st_lock s) (st_cursor s) (st_current s) (st_failed s) (st_done s).

(** The transaction is over: its locks and its uncommitted rows are gone. *)
Definition end_tx (s : session) : session :=
  mkStore (st_dests s) (st_tokens s) ∅ None [] None false (st_done s).

Definition commit_tx (s : session) : session :=
  mkStore (st_dests s) (visible s) ∅ None [] None false ((st_tokens s, visible s) :: st_done s).

(** The rows a query returns, in some order; at most four live tokens. *)
Definition query_rows (s : session) (q : lc_query) (rows : list lifecycleTokenRecord) : Prop :=
  match q with
  | LiveTokens _ dest => exists all, Permutation all (live (visible s) dest) /\ rows = take 4 all
  | AttemptTokens aud dest new old =>
      Permutation rows (filter (fun r => ltr_audienceText r = aud /\ ltr_destinationText r = dest)
        (omap (fun k => visible s !! k) [new; old]))
  end.

(** One call of the session. Any call may fail; a failed statement loses the
    transaction's rows, a failed commit may have committed or not unless the
    server said that it rolled back, and a row set that ends early reports an
    error afterwards. *)
Definition lc_sql (s : session) (o : lc_op) : ans LcE o -> session -> Prop :=
  match o with
  | LcDestination _ lock dest => fun r s' =>
      match r with
      | Some (Ok row) => st_dests s !! dest = Some row /\ s' = if lock then with_lock s dest else s
      | Some (Err e) => s' = s /\ (is_sentinel e ErrNoRows = true -> st_dests s !! dest = None)
      | None => s' = s
      end
  | LcQuery _ q => fun r s' =>
      match r with
      | (true, None) => exists rows, query_rows s q rows /\ s' = with_rows s rows None false
      | _ => s' = s
      end
  | LcNext => fun more s' =>
      if more then exists r rows, st_cursor s = r :: rows /\ s' = with_rows s rows (Some r) (st_failed s)
      else s' = with_rows s (st_cursor s) None (bool_decide (st_cursor s <> []) || st_failed s) \/
           s' = with_rows s (st_cursor s) None true
  | LcScan => fun r s' => s' = s /\ match r with Ok row => st_current s = Some row | Err _ => True end
  | LcRowsErr => fun r s' => s' = s /\ (is_err r = false -> st_failed s = false)
  | LcRowsClose => fun _ s' => s' = with_rows s [] None false
  | LcExec _ stmt => fun r s' =>
      match r with
      | Ok n => exists w, exec_on (visible s) stmt = Some (w, n) /\
          s' = match w with Some (k, row) => with_writes s (<[k := row]> (st_writes s)) | None => s end
      | Err _ => s' = with_writes s ∅
      end
  | LcCommit _ => fun r s' =>
      match r with
      | None => s' = commit_tx s
      | Some e => s' = end_tx s \/ (is_sentinel e ErrTxCommitRollback = false /\ s' = commit_tx s)
      end
  | LcCtxErr _ => fun _ s' => s' = s
  | LcAcquire _ | LcBegin _ _ | LcRollback _ | LcRelease | LcDestroy => fun _ s' => s' = end_tx s
  end.

Definition lc_inv (s : session) : Prop := keyed (st_tokens s) /\ keyed (st_writes s).

(** Between two calls other sessions may change the tables, but not the locked
    destination, nor which of its tokens are live, nor a row this session has
    written: they too lock a destination before they change its tokens. *)
Definition lc_rely (s s' : session) : Prop :=
  st_writes s' = st_writes s /\ st_lock s' = st_lock s /\ st_cursor s' = st_cursor s /\
  st_current s' = st_current s /\ st_failed s' = st_failed s /\ st_done s' = st_done s /\
  (forall dest, st_lock s = Some dest ->
     st_dests s' !! dest = st_dests s !! dest /\ Permutation (live (st_tokens s') dest) (live (st_tokens s) dest)) /\
  (forall k, is_Some (st_writes s !! k) -> st_tokens s' !! k = st_tokens s !! k) /\
  lc_inv s'.

(** * Facts about the table *)

Lemma live_elem T dest r : r ∈ live T dest <-> live_row dest r /\ exists k, T !! k = Some r.
Proof.
  unfold live. rewrite list_elem_of_filter, list_elem_of_fmap. split; intros [Hl H]; (split; [done|]).
  - destruct H as ([k r'] & -> & H). exists k. by apply elem_of_map_to_list in H.
  - destruct H as [k H]. exists (k, r). split; [done|]. by apply elem_of_map_to_list.
Qed.

(** The one row a key adds to the live rows. *)
Definition live_one (dest : bytes) (r : lifecycleTokenRecord) : list lifecycleTokenRecord :=
  if decide (live_row dest r) then [r] else [].

Lemma live_cons dest r rows : filter (live_row dest) (r :: rows) = live_one dest r ++ filter (live_row dest) rows.
Proof. unfold live_one. rewrite filter_cons. by case_decide. Qed.

Lemma live_insert_new T k r dest :
  T !! k = None -> Permutation (live (<[k := r]> T) dest) (live_one dest r ++ live T dest).
Proof. intros H. unfold live. rewrite map_to_list_insert by done. by rewrite fmap_cons, live_cons. Qed.

Lemma live_delete T k r dest :
  T !! k = Some r -> Permutation (live T dest) (live_one dest r ++ live (delete k T) dest).
Proof. intros H. unfold live. rewrite <- (map_to_list_delete T k r) by done. by rewrite fmap_cons, live_cons. Qed.

(** Replacing a live row. *)
Lemma live_insert_over T k r0 r dest rest :
  T !! k = Some r0 -> live_row dest r0 -> Permutation (live T dest) (r0 :: rest) ->
  Permutation (live (<[k := r]> T) dest) (live_one dest r ++ rest).
Proof.
  intros Hk Hl Hp. rewrite (live_delete T k r0) in Hp by done. unfold live_one at 1 in Hp.
  rewrite decide_True in Hp by done. apply (Permutation_cons_inv (a := r0)) in Hp.
  rewrite <- insert_delete_eq, live_insert_new by apply lookup_delete_eq. by rewrite Hp.
Qed.

Lemma keyed_empty : keyed ∅.
Proof. intros k r. by rewrite lookup_empty. Qed.

Lemma keyed_insert T k r : keyed T -> ltr_recordText r = k -> keyed (<[k := r]> T).
Proof. intros H Hr k' r'. rewrite lookup_insert_Some. intros [[<- <-]|[_ ?]]; auto. Qed.

Lemma keyed_union T W : keyed T -> keyed W -> keyed (W ∪ T).
Proof. intros HT HW k r. rewrite lookup_union_Some_raw. intros [?|[_ ?]]; auto. Qed.

Lemma exec_on_keyed T s k r n : keyed T -> exec_on T s = Some (Some (k, r), n) -> ltr_recordText r = k.
Proof.
  intros HT. unfold exec_on. destruct s as [record aud dest v kid c e cl|u aud dest record ch now].
  - destruct (T !! record); [done|]. destruct (_ && _); [|done]. by intros [= <- <-].
  - destruct (T !! record) as [r0|] eqn:E; [|done]. destruct (update_matches _ _ _ _ _); [|done].
    destruct (_ && _); [|done]. intros [= <- <- <-]. apply HT in E. by destruct u.
Qed.

Lemma lc_sql_inv s o r s' : lc_inv s -> lc_sql s o r s' -> lc_inv s'.
Proof.
  intros [HT HW]. assert (lc_inv (end_tx s)) as Hend by (split; [done|apply keyed_empty]).
  assert (lc_inv (commit_tx s)) as Hcom.
  { split; [by apply keyed_union|apply keyed_empty]. }
  destruct o; simpl; try (by intros ->).
  - destruct r as [[row|e]|]; [intros [_ ->]|by intros [-> _]|by intros ->]. by destruct lock.
  - destruct r as [[] [e|]]; try (by intros ->). intros (rows & _ & ->). done.
  - destruct r; [intros (r & rows & _ & ->); done|by intros [-> | ->]].
  - by intros [-> _].
  - by intros [-> _].
  - destruct r as [n|e].
    + intros (w & Hw & ->). destruct w as [[k row]|]; [|done]. split; [done|]. simpl.
      apply keyed_insert; [done|]. eapply exec_on_keyed; [|exact Hw]. by apply keyed_union.
    + intros ->. split; [done|apply keyed_empty].
  - destruct r as [e|]; [intros [->|[_ ->]]; done|by intros ->].
Qed.

(** * Phases of the table *)

(** The live rows of a destination are the tokens of a phase. *)
Definition in_phase (T : token_table) (d : Destination) (ph : phase) : Prop :=
  phase_ok d ph /\ Forall token_stored (phase_tokens ph) /\
  Permutation (live T (formatUUID (dst_id d))) (map row_of_token (phase_tokens ph)).

Definition write_token (T : token_table) (t : DestinationToken) : token_table :=
  <[formatUUID (ts_RecordID t) := row_of_token t]> T.

Definition write_tokens (T : token_table) (ws : list DestinationToken) : token_table := fold_left write_token ws T.

(** The effect of a command on the table: the tokens it writes are the ones of
    its meaning, under the ids of live tokens of the destination or a new id,
    and the destination is in the next phase. *)
Definition lifecycle_effect (d : Destination) (now : Time) (cmd : lifecycle_command) (T T' : token_table) : Prop :=
  exists ph ws ph', in_phase T d ph /\ lifecycle_next d now cmd ph = Some (ws, ph') /\
    T' = write_tokens T ws /\ in_phase T' d ph' /\
    (forall t, t ∈ ws -> ts_RecordID t ∈ (ts_RecordID <$> phase_tokens ph) \/ T !! formatUUID (ts_RecordID t) = None).

Lemma phase_tokens_in d ph t :
  phase_ok d ph -> t ∈ phase_tokens ph ->
  exists st, token_in d st t /\ (st = DestinationTokenStaged \/ st = DestinationTokenActive \/ st = DestinationTokenRetiring).
Proof.
  destruct ph; simpl; intros Hok Hin; decompose_list_elem_of; subst; try tauto; decompose [and] Hok; eauto.
Qed.

Lemma live_token d st t :
  token_in d st t -> st = DestinationTokenStaged \/ st = DestinationTokenActive \/ st = DestinationTokenRetiring ->
  live_row (formatUUID (dst_id d)) (row_of_token t).
Proof. intros (_ & Hd & Hs) Hst. split; simpl; [by rewrite Hd|]. rewrite Hs. by destruct Hst as [-> | [-> | ->]]. Qed.

Lemma live_one_token d st t :
  token_in d st t -> st = DestinationTokenStaged \/ st = DestinationTokenActive \/ st = DestinationTokenRetiring ->
  live_one (formatUUID (dst_id d)) (row_of_token t) = [row_of_token t].
Proof. intros Ht Hst. unfold live_one. rewrite decide_True; [done|]. by eapply live_token. Qed.

Lemma live_one_revoked d t : token_in d DestinationTokenRevoked t -> live_one (formatUUID (dst_id d)) (row_of_token t) = [].
Proof. intros (_ & _ & Hs). unfold live_one. rewrite decide_False; [done|]. intros [_ H]. apply H. simpl. by rewrite Hs. Qed.

(** The row of a live token is found under its id. *)
Lemma in_phase_row T d ph t :
  keyed T -> in_phase T d ph -> t ∈ phase_tokens ph -> T !! formatUUID (ts_RecordID t) = Some (row_of_token t).
Proof.
  intros HT (_ & _ & Hp) Hin. assert (row_of_token t ∈ live T (formatUUID (dst_id d))) as Hl.
  { rewrite Hp. apply list_elem_of_fmap. eauto. }
  apply live_elem in Hl as [_ [k Hk]]. pose proof (HT _ _ Hk) as E. simpl in E. by rewrite E.
Qed.

(** Overwriting a live token by another of the same id. *)
Lemma live_overwrite T d st0 t0 t rest :
  T !! formatUUID (ts_RecordID t0) = Some (row_of_token t0) -> token_in d st0 t0 ->
  st0 = DestinationTokenStaged \/ st0 = DestinationTokenActive \/ st0 = DestinationTokenRetiring ->
  ts_RecordID t = ts_RecordID t0 ->
  Permutation (live T (formatUUID (dst_id d))) (row_of_token t0 :: rest) ->
  Permutation (live (write_token T t) (formatUUID (dst_id d))) (live_one (formatUUID (dst_id d)) (row_of_token t) ++ rest).
Proof.
  intros Hk Ht Hst Hid Hp. unfold write_token. rewrite Hid. eapply live_insert_over; [done| |done].
  by eapply live_token.
Qed.

Lemma keyed_write T t : keyed T -> keyed (write_token T t).
Proof. intros H. by apply keyed_insert. Qed.

(** * Changed tokens *)

Lemma token_in_moved d st t st' a s r dl ch : token_in d st t -> token_in d st' (moved t st' a s r dl ch).
Proof. by intros (Ha & Hd & _). Qed.

(** A token whose row passes the constraints is a stored token. *)
Lemma checked_stored d st t :
  token_in d st t -> known_state st -> destination_ok d ->
  token_row_checks (row_of_token t) = true -> validKeyID (ts_VerifierKeyID t) = true ->
  ts_CreatedAt t <> 0 -> ts_ExpiresAt t <> 0 -> ts_StagedCleanupDeadline t <> 0 -> ts_StateChangedAt t <> 0 ->
  token_stored t.
Proof.
  intros (Ha & Hd & <-) Hst (Hda & Hdi & _) Hc Hk H1 H2 H3 H4. split; [|done].
  eapply NewDestinationToken_ok, checked_valid; [|exact Hc]. unfold token_columns. rewrite Ha, Hd. done.
Qed.

Lemma pg_time_mono a b : a <= b -> pg_time a <= pg_time b.
Proof.
  unfold pg_time, t_truncate, Microsecond. simpl. intros H.
  pose proof (Z.div_mod a 1000 ltac:(lia)). pose proof (Z.div_mod b 1000 ltac:(lia)).
  pose proof (Z.div_le_mono a b 1000 ltac:(lia) H). lia.
Qed.

Lemma moved_stored d st st' t a s r dl now :
  token_in d st t -> token_stored t -> destination_ok d -> known_state st' -> 0 < pg_time now ->
  token_row_checks (row_of_token (moved t st' a s r dl (pg_time now))) = true ->
  token_stored (moved t st' a s r dl (pg_time now)).
Proof.
  intros Ht (Hok & Hk & He & Hs & Hm) Hd Hst Hn Hc.
  eapply checked_stored; [by eapply token_in_moved|done|done|done|done| |done|done|simpl; lia].
  simpl. by destruct Hok as [_ _ _ _ _ [? _] _].
Qed.

(** A candidate for the destination, at [now], of an unused record id. *)
Definition candidate_fits (T : token_table) (d : Destination) (now : Time) (c : StagedTokenCandidate) : Prop :=
  sc_audienceID c = dst_audienceID d /\ validKeyID (sc_verifierKeyID c) = true /\ sc_createdAt c = now /\
  now < sc_expiresAt c /\ now < sc_stagedCleanupDeadline c /\ T !! formatUUID (sc_recordID c) = None.

Definition command_fits (T : token_table) (d : Destination) (now : Time) (cmd : lifecycle_command) : Prop :=
  match cmd with
  | CmdCreate c | CmdCreateRotation c _ => candidate_fits T d now c
  | _ => True
  end.

Lemma candidate_stored T d now c :
  candidate_fits T d now c -> destination_ok d -> 0 < pg_time now ->
  token_row_checks (row_of_token (staged_token d c)) = true ->
  token_in d DestinationTokenStaged (staged_token d c) /\ token_stored (staged_token d c).
Proof.
  intros (Ha & Hk & Hc & He & Hcl & _) Hd Hn Hch.
  assert (token_in d DestinationTokenStaged (staged_token d c)) as Hin by done. split; [done|].
  pose proof (pg_time_mono now (sc_expiresAt c)). pose proof (pg_time_mono now (sc_stagedCleanupDeadline c)).
  eapply checked_stored; try done; simpl; rewrite ?Hc; try lia. by left.
Qed.

(** A new token beside the tokens of a phase. *)
Lemma insert_live T d ph t :
  in_phase T d ph -> T !! formatUUID (ts_RecordID t) = None -> token_in d DestinationTokenStaged t ->
  Permutation (live (write_token T t) (formatUUID (dst_id d))) (row_of_token t :: map row_of_token (phase_tokens ph)).
Proof.
  intros (_ & _ & Hp) Hk Ht. unfold write_token. rewrite live_insert_new by done.
  rewrite (live_one_token d DestinationTokenStaged) by auto. by rewrite Hp.
Qed.

Ltac live_state := first [by left | by right; left | by right; right].

(** Two live tokens overwritten in turn. *)
Lemma overwrite_two T d st1 st2 t1 t2 u1 u2 :
  T !! formatUUID (ts_RecordID t1) = Some (row_of_token t1) -> T !! formatUUID (ts_RecordID t2) = Some (row_of_token t2) ->
  token_in d st1 t1 -> token_in d st2 t2 -> ts_RecordID t1 <> ts_RecordID t2 ->
  st1 = DestinationTokenStaged \/ st1 = DestinationTokenActive \/ st1 = DestinationTokenRetiring ->
  st2 = DestinationTokenStaged \/ st2 = DestinationTokenActive \/ st2 = DestinationTokenRetiring ->
  ts_RecordID u1 = ts_RecordID t1 -> ts_RecordID u2 = ts_RecordID t2 ->
  Permutation (live T (formatUUID (dst_id d))) [row_of_token t1; row_of_token t2] ->
  Permutation (live (write_tokens T [u1; u2]) (formatUUID (dst_id d)))
    (live_one (formatUUID (dst_id d)) (row_of_token u2) ++ live_one (formatUUID (dst_id d)) (row_of_token u1)).
Proof.
  intros H1 H2 Ht1 Ht2 Hne Hs1 Hs2 E1 E2 Hp. unfold write_tokens. cbn [fold_left].
  eapply (live_overwrite _ d st2 t2); [|done|done|done|].
  - unfold write_token. rewrite lookup_insert_ne; [done|]. rewrite E1. intros E. by apply Hne, formatUUID_inj.
  - rewrite (live_overwrite T d st1 t1 u1 [row_of_token t2]) by done. apply Permutation_app_comm.
Qed.

(** A command takes the destination from a phase to the next. *)
Section Effect.
Context (T : token_table) (d : Destination) (now : Time).
Hypothesis HT : keyed T.
Hypothesis Hd : destination_ok d.
Hypothesis Hn : 0 < pg_time now.

Abbreviation checked t := (token_row_checks (row_of_token t) = true).

Lemma effect_create c :
  candidate_fits T d now c -> in_phase T d PhaseUnprovisioned -> checked (staged_token d c) ->
  in_phase (write_tokens T [staged_token d c]) d (PhaseStaged (staged_token d c)).
Proof.
  intros Hfit Hph Hch. destruct (candidate_stored T d now c Hfit Hd Hn Hch) as [Hin Hstored].
  split; [done|]. split; [by constructor|]. apply (insert_live T d PhaseUnprovisioned); [done|apply Hfit|done].
Qed.

Lemma effect_create_rotation c a :
  candidate_fits T d now c -> in_phase T d (PhaseActive a) -> checked (staged_token d c) ->
  in_phase (write_tokens T [staged_token d c]) d (PhaseActiveStaged a (staged_token d c)).
Proof.
  intros Hfit Hph Hch. destruct (candidate_stored T d now c Hfit Hd Hn Hch) as [Hin Hstored].
  pose proof Hph as (Ha & Hst & _). split; [split; [done|]; split; [done|]|split].
  - intros E. pose proof (in_phase_row T d (PhaseActive a) a HT Hph ltac:(apply list_elem_of_here)) as Hrow.
    rewrite E in Hrow. destruct Hfit as (_ & _ & _ & _ & _ & Hnone). simpl in Hrow. congruence.
  - apply Forall_cons in Hst as [Ha' _]. constructor; [done|by constructor].
  - change (write_tokens T [staged_token d c]) with (write_token T (staged_token d c)).
    rewrite (insert_live T d (PhaseActive a)); [|done|apply Hfit|done]. apply Permutation_swap.
Qed.

(** One live token of a phase overwritten; [rest] are the others. *)
Lemma effect_overwrite ph st0 t0 st t rest ph' :
  in_phase T d ph -> t0 ∈ phase_tokens ph -> token_in d st0 t0 ->
  st0 = DestinationTokenStaged \/ st0 = DestinationTokenActive \/ st0 = DestinationTokenRetiring ->
  ts_RecordID t = ts_RecordID t0 -> token_in d st t ->
  Permutation (phase_tokens ph) (t0 :: rest) -> phase_ok d ph' -> Forall token_stored (phase_tokens ph') ->
  (st = DestinationTokenRevoked /\ phase_tokens ph' = rest \/
   (st = DestinationTokenStaged \/ st = DestinationTokenActive \/ st = DestinationTokenRetiring) /\
   phase_tokens ph' = t :: rest) ->
  in_phase (write_tokens T [t]) d ph'.
Proof.
  intros Hph Hin Ht0 Hst0 Hid Ht Hp Hok Hstored Hend. split; [done|]. split; [done|].
  change (write_tokens T [t]) with (write_token T t).
  rewrite (live_overwrite T d st0 t0 t (map row_of_token rest)); try done.
  - destruct Hend as [[-> ->]|[Hst ->]]; [by rewrite live_one_revoked|]. by erewrite live_one_token.
  - by apply (in_phase_row T d ph).
  - rewrite (proj2 (proj2 Hph)). by apply (Permutation_map row_of_token) in Hp.
Qed.

Lemma effect_activate s :
  in_phase T d (PhaseStaged s) -> checked (activated now s) ->
  in_phase (write_tokens T [activated now s]) d (PhaseActive (activated now s)).
Proof.
  intros Hph Hch. pose proof Hph as (Hs & Hst & _). apply Forall_cons in Hst as [Hst _].
  eapply (effect_overwrite _ DestinationTokenStaged s DestinationTokenActive _ []); try done; try live_state.
  - by eapply token_in_moved.
  - by eapply token_in_moved.
  - constructor; [|constructor]. eapply moved_stored; [done|done|done|by right; left|done|done].
  - right. split; [live_state|done].
Qed.

Lemma effect_activate_rotation a s deadline :
  in_phase T d (PhaseActiveStaged a s) -> checked (retired now deadline a) -> checked (activated now s) ->
  in_phase (write_tokens T [retired now deadline a; activated now s]) d
    (PhaseActiveRetiring (activated now s) (retired now deadline a)).
Proof.
  intros Hph Hr Hs. pose proof Hph as ((Ha & Hsg & Hne) & Hst & Hp).
  apply Forall_cons in Hst as [Hsta Hst]. apply Forall_cons in Hst as [Hsts _].
  assert (token_in d DestinationTokenRetiring (retired now deadline a)) as Hr' by (by eapply token_in_moved).
  assert (token_in d DestinationTokenActive (activated now s)) as Ha' by (by eapply token_in_moved).
  split; [split; [done|]; split; [done|]; split; [by apply not_eq_sym|done]|]. split.
  - constructor; [|constructor; [|constructor]].
    + eapply moved_stored; [done|done|done|by right; left|done|done].
    + eapply moved_stored; [done|done|done|by right; right; left|done|done].
  - rewrite (overwrite_two T d DestinationTokenActive DestinationTokenStaged a s); try done; try live_state.
    + erewrite !live_one_token by (done || live_state). done.
    + apply (in_phase_row T d (PhaseActiveStaged a s)); [done|done|apply list_elem_of_here].
    + apply (in_phase_row T d (PhaseActiveStaged a s)); [done|done|apply list_elem_of_further, list_elem_of_here].
Qed.

Lemma effect_abort ph s rest ph' :
  in_phase T d ph -> phase_staged ph = Some s -> Permutation (phase_tokens ph) (s :: rest) ->
  phase_ok d ph' -> phase_tokens ph' = rest ->
  in_phase (write_tokens T [revoked now s]) d ph'.
Proof.
  intros Hph Hs Hp Hok <-. pose proof Hph as (Hok' & Hst & _).
  assert (token_in d DestinationTokenStaged s) as Hin by (destruct ph; simplify_eq/=; tauto).
  assert (s ∈ phase_tokens ph) as Hel by (rewrite Hp; apply list_elem_of_here).
  eapply (effect_overwrite ph DestinationTokenStaged s DestinationTokenRevoked); try done; try live_state.
  - by eapply token_in_moved.
  - rewrite Hp in Hst. by apply Forall_cons in Hst as [_ ?].
Qed.

Lemma effect_rollback a r :
  in_phase T d (PhaseActiveRetiring a r) -> checked (restored now r) ->
  in_phase (write_tokens T [revoked now a; restored now r]) d (PhaseActive (restored now r)).
Proof.
  intros Hph Hr. pose proof Hph as ((Ha & Hre & Hne & _) & Hst & Hp).
  apply Forall_cons in Hst as [Hsta Hst]. apply Forall_cons in Hst as [Hstr _].
  assert (token_in d DestinationTokenActive (restored now r)) as Hr' by (by eapply token_in_moved).
  assert (token_in d DestinationTokenRevoked (revoked now a)) as Ha' by (by eapply token_in_moved).
  split; [done|]. split.
  - constructor; [|constructor]. eapply moved_stored; [done|done|done|by right; left|done|done].
  - rewrite (overwrite_two T d DestinationTokenActive DestinationTokenRetiring a r); try done; try live_state.
    + rewrite (live_one_revoked d (revoked now a)) by done.
      by rewrite (live_one_token d DestinationTokenActive (restored now r)) by (done || live_state).
    + apply (in_phase_row T d (PhaseActiveRetiring a r)); [done|done|apply list_elem_of_here].
    + apply (in_phase_row T d (PhaseActiveRetiring a r)); [done|done|apply list_elem_of_further, list_elem_of_here].
Qed.

Lemma effect_finalize a r :
  in_phase T d (PhaseActiveRetiring a r) -> in_phase (write_tokens T [revoked now r]) d (PhaseActive a).
Proof.
  intros Hph. pose proof Hph as ((Ha & Hre & Hne & _) & Hst & Hp).
  eapply (effect_overwrite (PhaseActiveRetiring a r) DestinationTokenRetiring r DestinationTokenRevoked _ [a]);
    try done; try live_state.
  - by eapply token_in_moved.
  - apply Permutation_swap.
  - apply Forall_cons in Hst as [? _]. by constructor.
Qed.

Lemma effect_in_phase cmd ph ws ph' :
  command_fits T d now cmd -> in_phase T d ph -> lifecycle_next d now cmd ph = Some (ws, ph') ->
  Forall (fun t => checked t) ws -> in_phase (write_tokens T ws) d ph'.
Proof.
  intros Hfit Hph Hnext Hch.
  destruct cmd, ph as [|s|a|a s|a r]; cbn [lifecycle_next] in Hnext; cbv zeta in Hnext; try discriminate Hnext;
    (match type of Hnext with (if ?b then _ else _) = _ => destruct b; [|discriminate Hnext] end);
    injection Hnext as <- <-; rewrite ?Forall_cons in Hch; decompose [and] Hch; simpl in Hfit.
  - by apply effect_create.
  - by apply effect_create_rotation.
  - by apply effect_activate.
  - by apply effect_activate_rotation.
  - by eapply (effect_abort (PhaseStaged s) s []).
  - eapply (effect_abort (PhaseActiveStaged a s) s [a]); try done; [apply Permutation_swap|apply Hph].
  - by apply effect_rollback.
  - by apply effect_finalize.
Qed.
End Effect.

(** * What a statement writes *)

Lemma tz_of_pg now : 0 < pg_time now -> tz_of (pg_time now) = TzTime (pg_time now).
Proof. intros H. apply tz_of_time. lia. Qed.

(** The token an update makes of a token. *)
Definition updated (u : lc_update) (now : Time) (t : DestinationToken) : DestinationToken :=
  match u with
  | activateInitialSQL | activateRotationSQL => activated now t
  | retireSQL deadline => retired now deadline t
  | revokeStagedSQL | revokeActiveSQL | revokeRetiringSQL => revoked now t
  | restoreRetiringSQL => restored now t
  end.

Definition update_ok (u : lc_update) : Prop := match u with retireSQL deadline => 0 < pg_time deadline | _ => True end.

Lemma update_row_token u now t :
  0 < pg_time now -> update_ok u -> update_row u now (row_of_token t) = row_of_token (updated u now t).
Proof.
  intros Hn Hu. destruct u; unfold update_row, set_columns, row_of_token; simpl in *;
    rewrite ?(tz_of_pg now), ?(tz_of_pg deadline) by done; done.
Qed.

(** A statement and the token it writes when it affects one row of a table
    that holds [t0] under its id, or nothing. *)
Inductive stmt_writes (d : Destination) (now : Time) : lc_stmt -> option DestinationToken -> DestinationToken -> Prop :=
| writes_insertion c :
    is_Some (sc_verifier c) -> sc_destination c = dst_id d -> stmt_writes d now (insertion c) None (staged_token d c)
| writes_change u t0 : update_ok u -> stmt_writes d now (change d u t0 now) (Some t0) (updated u now t0).

Lemma exec_writes d now stmt t0 t V w :
  0 < pg_time now -> stmt_writes d now stmt t0 t ->
  (forall x, t0 = Some x -> V !! formatUUID (ts_RecordID x) = Some (row_of_token x)) ->
  exec_on V stmt = Some (w, 1) ->
  w = Some (formatUUID (ts_RecordID t), row_of_token t) /\ token_row_checks (row_of_token t) = true /\
  (t0 = None -> V !! formatUUID (ts_RecordID t) = None).
Proof.
  intros Hn Hw HV. destruct Hw as [c [v Hv] Hd|u t0 Hu]; unfold exec_on, insertion, change; cbv zeta.
  - destruct (V !! formatUUID (sc_recordID c)) eqn:E; [done|].
    assert (inserted_row (formatUUID (sc_recordID c)) (formatUUID (sc_audienceID c)) (formatUUID (sc_destination c))
      (match sc_verifier c with Some v => arr_list v | None => arr_list (zero_arr 32) end) (sc_verifierKeyID c)
      (sc_createdAt c) (sc_expiresAt c) (sc_stagedCleanupDeadline c) = row_of_token (staged_token d c)) as ->.
    { unfold inserted_row, row_of_token. simpl. by rewrite Hv, Hd. }
    destruct (token_row_checks _) eqn:Ec; [|done]. destruct (unique_indexes _); [|done]. by intros [= <-].
  - rewrite (HV t0 eq_refl). destruct (update_matches _ _ _ _ _); [|done]. rewrite update_row_token by done.
    destruct (token_row_checks _) eqn:Ec; [|done]. destruct (unique_indexes _); [|done]. intros [= <-].
    split; [by destruct u|done].
Qed.

(** * The repository under interference *)

Abbreviation lwp := (wp (E := LcE) lc_sql lc_rely (fun _ _ => True) lc_inv).

Lemma lc_rely_inv s s' : lc_rely s s' -> lc_inv s'.
Proof. by intros (_ & _ & _ & _ & _ & _ & _ & _ & ?). Qed.

Lemma lc_rely_refl s : lc_inv s -> lc_rely s s.
Proof. intros H. unfold lc_rely. by split_and!. Qed.

Lemma lwp_bind {A B} (p : prog LcE A) (f : A -> prog LcE B) Q s :
  lc_inv s -> lwp p (fun a s => lc_inv s -> lwp (f a) Q s) s -> lwp (bind p f) Q s.
Proof. apply wp_bind, lc_rely_refl. Qed.

(** Inside a mutation: the destination is locked and in a phase; [W] has been
    written, the ids [new] for the first time; nothing has been committed
    since [done]. *)
Record mid (d : Destination) (ph : phase) (W : token_table) (new : list bytes)
    (done : list (token_table * token_table)) (s : session) : Prop := {
  mid_lock : st_lock s = Some (formatUUID (dst_id d));
  mid_writes : st_writes s = W;
  mid_done : st_done s = done;
  mid_phase : in_phase (st_tokens s) d ph;
  mid_new : forall k, k ∈ new -> is_Some (W !! k) /\ st_tokens s !! k = None
}.

Lemma mid_rely d ph W new done s s' : mid d ph W new done s -> lc_rely s s' -> mid d ph W new done s'.
Proof.
  intros [Hl Hw Hd (Hok & Hst & Hp) Hn] (Ew & El & _ & _ & _ & Ed & Hlock & Hkeys & _).
  split; [congruence|congruence|congruence| |].
  - split; [done|]. split; [done|]. by rewrite (proj2 (Hlock _ Hl)).
  - intros k Hk. destruct (Hn k Hk) as [HW HT]. split; [done|]. rewrite Hkeys; [done|]. by rewrite Hw.
Qed.

(** One statement. *)
Lemma wp_exec_one ctx d now ph W new done s stmt t0 t :
  0 < pg_time now -> stmt_writes d now stmt t0 t ->
  (forall T x, keyed T -> in_phase T d ph -> t0 = Some x ->
     (W ∪ T) !! formatUUID (ts_RecordID x) = Some (row_of_token x)) ->
  mid d ph W new done s ->
  lwp (execLifecycle ctx stmt) (fun e s' =>
    match e with
    | None => token_row_checks (row_of_token t) = true /\
        mid d ph (write_token W t) (match t0 with None => formatUUID (ts_RecordID t) :: new | Some _ => new end) done s'
    | Some _ => st_done s' = done
    end) s.
Proof.
  intros Hn Hw Hrow Hmid s1 r s2 Hr Hst. pose proof (lc_rely_inv _ _ Hr) as Hi.
  pose proof (mid_rely _ _ _ _ _ _ _ Hmid Hr) as Hmid1. split; [by eapply lc_sql_inv|]. split; [done|].
  destruct r as [n|e]; simpl in Hst.
  2:{ subst s2. cbn [bind]. intros s3 (_ & _ & _ & _ & _ & E & _). rewrite E. apply Hmid1. }
  destruct Hst as (w & Hex & ->). cbn [bind]. intros s3 Hr3. unfold visible in Hex.
  rewrite (mid_writes _ _ _ _ _ _ Hmid1) in Hex. unfold lifecycleRowsAffected.
  assert (st_done s3 = done) as Hdone.
  { destruct Hr3 as (_ & _ & _ & _ & _ & E & _). rewrite E. destruct w as [[]|]; apply Hmid1. }
  destruct (Z.eqb_spec n 1) as [->|_]; [|by destruct (n =? 0)].
  destruct (exec_writes d now stmt t0 t (W ∪ st_tokens s1) w Hn Hw) as (-> & Hc & Hnone); [|done|].
  { intros x Hx. apply Hrow; [apply Hi|apply Hmid1|done]. }
  split; [done|]. eapply mid_rely; [|exact Hr3]. destruct Hmid1 as [Hl HW Hd Hph Hnew].
  split; simpl; [done|by rewrite HW|done|done|]. intros k Hk.
  assert (k = formatUUID (ts_RecordID t) /\ t0 = None \/ k ∈ new) as [[-> H0]|Hin].
  { destruct t0; [by right|]. apply elem_of_cons in Hk as [->|?]; auto. }
  - unfold write_token. rewrite lookup_insert_eq. split; [done|].
    specialize (Hnone H0). by apply lookup_union_None in Hnone as [_ ?].
  - destruct (Hnew k Hin) as [HWk HTk]. split; [|done]. unfold write_token.
    destruct (decide (k = formatUUID (ts_RecordID t))) as [->|Hne]; [by rewrite lookup_insert_eq|].
    by rewrite lookup_insert_ne.
Qed.

(** The statements of a command have all been run. *)
Definition sent_post (d : Destination) (ph : phase) (ws : list DestinationToken) (new : list bytes)
    (done : list (token_table * token_table)) (r : bool * option error) (s : session) : Prop :=
  match r.2 with
  | None => r.1 = true /\ Forall (fun t => token_row_checks (row_of_token t) = true) ws /\
      mid d ph (write_tokens ∅ ws) new done s
  | Some _ => st_done s = done
  end.

Lemma wp_send_one ctx d now ph done s stmt t0 t :
  lc_inv s -> 0 < pg_time now -> stmt_writes d now stmt t0 t -> (forall x, t0 = Some x -> x ∈ phase_tokens ph) ->
  mid d ph ∅ [] done s ->
  lwp (send ctx stmt)
    (sent_post d ph [t] (match t0 with None => [formatUUID (ts_RecordID t)] | Some _ => [] end) done) s.
Proof.
  intros Hi Hn Hw Hin Hmid. apply lwp_bind; [done|]. eapply wp_mono.
  - eapply (wp_exec_one ctx d now ph ∅ []); [done|done| |done].
    intros T x HT Hph Hx. rewrite (left_id_L ∅ (∪)). apply (in_phase_row T d ph); auto.
  - intros [e|] s' H Hi'; simpl; intros s'' Hr; simpl.
    + destruct Hr as (_ & _ & _ & _ & _ & E & _). unfold sent_post. simpl. congruence.
    + destruct H as [Hc Hm]. split; [done|]. split; [by constructor|]. eapply mid_rely; [|exact Hr].
      by destruct t0.
Qed.

Lemma wp_send_two ctx d now ph done s u1 t1 u2 t2 :
  lc_inv s -> 0 < pg_time now -> update_ok u1 -> update_ok u2 ->
  t1 ∈ phase_tokens ph -> t2 ∈ phase_tokens ph -> ts_RecordID t1 <> ts_RecordID t2 ->
  mid d ph ∅ [] done s ->
  lwp (sendTwo ctx (change d u1 t1 now) (change d u2 t2 now))
    (sent_post d ph [updated u1 now t1; updated u2 now t2] [] done) s.
Proof.
  intros Hi Hn Hu1 Hu2 H1 H2 Hne Hmid. apply lwp_bind; [done|]. eapply wp_mono.
  - eapply (wp_exec_one ctx d now ph ∅ []); [done|by apply writes_change| |done].
    intros T x HT Hph [= <-]. rewrite (left_id_L ∅ (∪)). by apply (in_phase_row T d ph).
  - intros [e|] s' H Hi'.
    { intros s'' (_ & _ & _ & _ & _ & E & _). unfold sent_post. simpl. congruence. }
    destruct H as [Hc1 Hm1]. apply lwp_bind; [done|]. eapply wp_mono.
    + eapply (wp_exec_one ctx d now ph _ []); [done|by apply writes_change| |exact Hm1].
      intros T x HT Hph [= <-]. unfold write_token. rewrite <- insert_union_l, (left_id_L ∅ (∪)).
      rewrite lookup_insert_ne; [by apply (in_phase_row T d ph)|].
      intros E. apply Hne. apply formatUUID_inj in E. by destruct u1.
    + intros [e|] s2 H Hi2; simpl; intros s3 Hr; unfold sent_post; simpl.
      * destruct Hr as (_ & _ & _ & _ & _ & E & _). congruence.
      * destruct H as [Hc2 Hm2]. split; [done|]. split; [by constructor; [|constructor]|]. by eapply mid_rely.
Qed.

(** The record id a command adds. *)
Definition command_new (cmd : lifecycle_command) : list bytes :=
  match cmd with CmdCreate c | CmdCreateRotation c _ => [formatUUID (sc_recordID c)] | _ => [] end.

Lemma next_ids d now cmd ph ws ph' t :
  lifecycle_next d now cmd ph = Some (ws, ph') -> t ∈ ws ->
  ts_RecordID t ∈ (ts_RecordID <$> phase_tokens ph) \/ formatUUID (ts_RecordID t) ∈ command_new cmd.
Proof.
  intros Hnext Hin.
  destruct cmd, ph as [|sg|a|a sg|a r]; cbn [lifecycle_next] in Hnext; cbv zeta in Hnext; try discriminate Hnext;
    (match type of Hnext with (if ?b then _ else _) = _ => destruct b; [|discriminate Hnext] end);
    injection Hnext as <- <-; decompose_list_elem_of; subst; simpl;
    rewrite !elem_of_cons; auto 10.
Qed.

(** A command as the repository accepts it for a destination. *)
Definition command_ok (aud : GatewayAudienceID) (dest : DestinationID) (now : Time) (cmd : lifecycle_command) : Prop :=
  match cmd with
  | CmdCreate c | CmdCreateRotation c _ =>
      sc_audienceID c = aud /\ sc_destination c = dest /\ is_Some (sc_verifier c) /\
      validKeyID (sc_verifierKeyID c) = true /\ sc_createdAt c = now /\
      now < sc_expiresAt c /\ now < sc_stagedCleanupDeadline c
  | CmdActivateRotation _ _ deadline => now < deadline
  | _ => True
  end.

Lemma wp_command ctx d now cmd ph ws ph' done s :
  lc_inv s -> 0 < pg_time now -> command_ok (dst_audienceID d) (dst_id d) now cmd -> mid d ph ∅ [] done s ->
  lifecycle_next d now cmd ph = Some (ws, ph') ->
  lwp (sendAll ctx (lifecycle_statements d now cmd ph)) (sent_post d ph ws (command_new cmd) done) s.
Proof.
  intros Hi Hn Hok Hmid Hnext. pose proof (mid_phase _ _ _ _ _ _ Hmid) as (Hph & _).
  destruct cmd, ph as [|sg|a|a sg|a r]; cbn [lifecycle_next] in Hnext; cbv zeta in Hnext; try discriminate Hnext;
    (match type of Hnext with (if ?b then _ else _) = _ => destruct b; [|discriminate Hnext] end);
    injection Hnext as <- <-; cbn [lifecycle_statements command_new]; simpl in Hok.
  1,2: apply (wp_send_one ctx d now _ done s _ None (staged_token d candidate)); try done; apply writes_insertion; apply Hok.
  - apply (wp_send_one ctx d now _ done s _ (Some sg) (updated activateInitialSQL now sg)); try done;
      [by apply writes_change|intros x [= <-]; apply list_elem_of_here].
  - apply (wp_send_two ctx d now _ done s (retireSQL deadline) a activateRotationSQL sg); try done.
    + simpl. pose proof (pg_time_mono now deadline). lia.
    + apply list_elem_of_here.
    + apply list_elem_of_further, list_elem_of_here.
    + apply Hph.
  - apply (wp_send_one ctx d now _ done s _ (Some sg) (updated revokeStagedSQL now sg)); try done;
      [by apply writes_change|intros x [= <-]; apply list_elem_of_here].
  - apply (wp_send_one ctx d now _ done s _ (Some sg) (updated revokeStagedSQL now sg)); try done;
      [by apply writes_change|intros x [= <-]; apply list_elem_of_further, list_elem_of_here].
  - apply (wp_send_two ctx d now _ done s revokeActiveSQL a restoreRetiringSQL r); try done.
    + apply list_elem_of_here.
    + apply list_elem_of_further, list_elem_of_here.
    + apply Hph.
  - apply (wp_send_one ctx d now _ done s _ (Some r) (updated revokeRetiringSQL now r)); try done;
      [by apply writes_change|intros x [= <-]; apply list_elem_of_further, list_elem_of_here].
Qed.

(** * Loading the state *)

(** While the rows are read: the destination is locked, [all] are its live
    rows, and [tokens] have been read of the first four. *)
Record reading (d : Destination) (all : list lifecycleTokenRecord) (tokens : list DestinationToken)
    (done : list (token_table * token_table)) (s : session) : Prop := {
  rd_lock : st_lock s = Some (formatUUID (dst_id d));
  rd_writes : st_writes s = ∅;
  rd_done : st_done s = done;
  rd_all : Permutation all (live (st_tokens s) (formatUUID (dst_id d)));
  rd_rows : map row_of_token tokens ++ st_cursor s = take 4 all;
  rd_stored : Forall token_stored tokens
}.

Lemma reading_rely d all tokens done s s' : reading d all tokens done s -> lc_rely s s' -> reading d all tokens done s'.
Proof.
  intros [Hl Hw Hd Ha Hr Hst] (Ew & El & Ec & _ & _ & Ed & Hlock & _). split; try congruence.
  by rewrite (proj2 (Hlock _ Hl)).
Qed.

(** The same after a call that moves the cursor. *)
Lemma reading_cursor d all tokens tokens' done s cursor current failed :
  reading d all tokens done s -> map row_of_token tokens' ++ cursor = take 4 all -> Forall token_stored tokens' ->
  reading d all tokens' done (with_rows s cursor current failed).
Proof. intros [] Hr Hst. by split. Qed.

(** What the loop returns. *)
Definition read_post (d : Destination) (all : list lifecycleTokenRecord) (done : list (token_table * token_table))
    (r : result (list DestinationToken)) (s : session) : Prop :=
  match r with
  | Ok tokens => (length tokens <= 3)%nat /\ reading d all tokens done s /\ (st_cursor s = [] \/ st_failed s = true)
  | Err _ => st_done s = done
  end.

Lemma read_post_rely d all done r s s' : read_post d all done r s -> lc_rely s s' -> read_post d all done r s'.
Proof.
  intros H Hr. pose proof Hr as (_ & _ & Ec & _ & Ef & Ed & _). destruct r as [tokens|e]; simpl in *; [|congruence].
  destruct H as (Hl & Hrd & Hend). split; [done|]. split; [by eapply reading_rely|]. by rewrite Ec, Ef.
Qed.

(** The end of the rows. *)
Lemma read_end d all tokens done s s' s'' :
  (length tokens <= 3)%nat -> reading d all tokens done s -> lc_sql s LcNext false s' -> lc_rely s' s'' ->
  read_post d all done (Ok tokens) s''.
Proof.
  intros Hl Hrd Hst Hr. eapply read_post_rely; [|exact Hr]. split; [done|]. simpl in Hst.
  destruct Hst as [-> | ->]; (split; [eapply reading_cursor; [done|apply Hrd|apply Hrd]|]); simpl; [|by right].
  destruct (st_cursor s); [by left|by right].
Qed.

Lemma wp_readTokens d aud all tokens done s slots :
  (length tokens + slots = 3)%nat -> reading d all tokens done s ->
  lwp (readTokens slots aud d tokens) (read_post d all done) s.
Proof.
  revert tokens s. induction slots as [|slots IH]; intros tokens s Hlen Hrd;
    intros s1 more s2 Hr Hst; pose proof (lc_rely_inv _ _ Hr) as Hi;
    pose proof (reading_rely _ _ _ _ _ _ Hrd Hr) as Hrd1; (split; [by eapply lc_sql_inv|]); (split; [done|]);
    cbn [bind]; destruct more; simpl in Hst.
  - cbn [negb]. intros s3 Hr3. simpl. destruct Hst as (r & rows & Hc & ->).
    destruct Hr3 as (_ & _ & _ & _ & _ & -> & _). apply Hrd1.
  - intros s3 Hr3. eapply read_end; [lia|exact Hrd1|exact Hst|exact Hr3].
  - cbn [negb]. destruct Hst as (r & rows & Hc & ->).
    intros s3 scanned s4 Hr3 Hst4. pose proof (lc_rely_inv _ _ Hr3) as Hi3. split; [by eapply lc_sql_inv|]. split; [done|].
    destruct Hst4 as [-> Hrow].
    assert (st_done s3 = done) as Hdone.
    { destruct Hr3 as (_ & _ & _ & _ & _ & -> & _). apply Hrd1. }
    assert (forall e s', lc_rely s3 s' -> read_post d all done (Err e) s') as Herr.
    { intros e s' (_ & _ & _ & _ & _ & E & _). simpl. congruence. }
    destruct scanned as [row|e]; cbn [bind]; [|destruct (_ || _); intros s5; apply Herr].
    destruct (record_token row aud d) as [token|] eqn:Et; [|intros s5; apply Herr].
    apply record_token_iff in Et as (-> & Hstored & _ & _).
    assert (r = row_of_token token) as ->.
    { destruct Hr3 as (_ & _ & _ & Ecur & _). rewrite Ecur in Hrow. by injection Hrow. }
    apply IH; [rewrite length_app; simpl; lia|].
    assert (st_cursor s3 = rows) as Ec3 by (by destruct Hr3 as (_ & _ & -> & _)).
    pose proof (rd_rows _ _ _ _ _ Hrd1) as Hrows. rewrite Hc in Hrows.
    assert (reading d all (tokens ++ [token]) done (with_rows s1 rows (Some (row_of_token token)) (st_failed s1))) as Hnew.
    { eapply reading_cursor; [done| |].
      - rewrite map_app. cbn [map]. rewrite <- app_assoc. exact Hrows.
      - apply Forall_app. split; [apply Hrd1|]. by constructor. }
    eapply reading_rely; [exact Hnew|exact Hr3].
  - intros s3 Hr3. eapply read_end; [lia|exact Hrd1|exact Hst|exact Hr3].
Qed.

(** What the load returns: a locked destination in a phase. *)
Definition load_post (aud : GatewayAudienceID) (dest : DestinationID) (now : Time)
    (done : list (token_table * token_table)) (r : result lifecycleLockedState) (s : session) : Prop :=
  match r with
  | Ok state => exists d ph, state = locked_at d now ph /\ dst_audienceID d = aud /\ dst_id d = dest /\
      destination_ok d /\ mid d ph ∅ [] done s
  | Err _ => st_done s = done
  end.

Lemma load_post_rely aud dest now done r s s' :
  load_post aud dest now done r s -> lc_rely s s' -> load_post aud dest now done r s'.
Proof.
  intros H Hr. destruct r as [state|e]; simpl in *.
  - destruct H as (d & ph & ? & ? & ? & ? & Hm). exists d, ph. split_and!; try done. by eapply mid_rely.
  - destruct Hr as (_ & _ & _ & _ & _ & E & _). congruence.
Qed.

(** The rows of a destination have been read. *)
Lemma reading_all d all tokens done s now snapshot :
  (length tokens <= 3)%nat -> reading d all tokens done s -> st_cursor s = [] ->
  NewDestinationLifecycleSnapshot d tokens now = Ok snapshot ->
  exists ph, snapshot = snapshot_of d now ph /\ mid d ph ∅ [] done s.
Proof.
  intros Hlen [Hl Hw Hd Ha Hr Hst] Hc Hs. apply NewSnapshot_iff in Hs as (_ & _ & _ & ph & Hp & Hok & ->).
  exists ph. split; [done|]. rewrite Hc, app_nil_r in Hr.
  assert (all = map row_of_token tokens) as ->.
  { assert (length all <= 4)%nat.
    { apply (f_equal length) in Hr. rewrite length_map, length_take in Hr. lia. }
    by rewrite take_ge in Hr by done. }
  split; [done|done|done| |by intros k ?%elem_of_nil].
  split; [done|]. split; [by rewrite <- Hp|]. by rewrite <- Ha, Hp.
Qed.

Lemma wp_readLifecycleTokens d aud dest now all done s :
  lc_inv s -> dst_audienceID d = aud -> dst_id d = dest -> destination_ok d -> reading d all [] done s ->
  lwp (readLifecycleTokens aud d now) (load_post aud dest now done) s.
Proof.
  intros Hi Ha Hd Hok Hrd. apply lwp_bind; [done|]. eapply wp_mono; [by apply (wp_readTokens d aud all [] done)|].
  intros [tokens|e] s1 H Hi1.
  2:{ intros s2 Hr. by eapply (load_post_rely _ _ _ _ (Err e)). }
  destruct H as (Hlen & Hrd1 & Hend). intros s2 rowsErr s3 Hr Hst. pose proof (lc_rely_inv _ _ Hr) as Hi2.
  split; [by eapply lc_sql_inv|]. split; [done|]. destruct Hst as [-> Hfail].
  pose proof (reading_rely _ _ _ _ _ _ Hrd1 Hr) as Hrd2.
  assert (forall e s', lc_rely s2 s' -> load_post aud dest now done (Err e) s') as Herr.
  { intros e s' Hr'. eapply (load_post_rely _ _ _ _ (Err e)); [|exact Hr']. apply Hrd2. }
  destruct rowsErr as [e|]; cbn [bind]; [intros s4; apply Herr|].
  destruct (NewDestinationLifecycleSnapshot d tokens now) as [snapshot|] eqn:Es; [|intros s4; apply Herr].
  intros s4 Hr4. eapply load_post_rely; [|exact Hr4].
  assert (st_cursor s2 = []) as Hc.
  { pose proof Hr as (_ & _ & Ec & _ & Ef & _). rewrite Ec. destruct Hend as [?|Hf]; [done|].
    rewrite <- Ef, Hfail in Hf by done. done. }
  destruct (reading_all _ _ _ _ _ _ _ Hlen Hrd2 Hc Es) as (ph & -> & Hm). exists d, ph. by split_and!.
Qed.

Lemma wp_load_state ctx aud dest now done s :
  lc_inv s -> st_writes s = ∅ -> st_done s = done ->
  lwp (loadDestinationLifecycleState ctx aud dest now true) (load_post aud dest now done) s.
Proof.
  intros Hi Hw Hdone s1 row s2 Hr Hst. pose proof (lc_rely_inv _ _ Hr) as Hi1. split; [by eapply lc_sql_inv|].
  split; [done|]. assert (st_writes s1 = ∅ /\ st_done s1 = done) as [Hw1 Hdone1].
  { destruct Hr as (-> & _ & _ & _ & _ & -> & _). done. }
  assert (forall e s3 s', st_done s3 = done -> lc_rely s3 s' -> load_post aud dest now done (Err e) s') as Herr.
  { intros e s3 s' H Hr'. by eapply (load_post_rely _ _ _ _ (Err e)). }
  destruct row as [[record|e]|]; cbn [bind].
  2:{ destruct Hst as [-> _]. destruct (is_sentinel e ErrNoRows); intros s3; by apply Herr. }
  2:{ simpl in Hst. subst s2. intros s3. by apply Herr. }
  destruct Hst as [Hrow ->].
  destruct (record_destination record aud dest now) as [d|] eqn:Ed; [|intros s3; by apply Herr].
  apply record_destination_iff in Ed as (-> & Hok & Ha & Hd & _).
  intros s3 queried s4 Hr3 Hst4. pose proof (lc_rely_inv _ _ Hr3) as Hi3. split; [by eapply lc_sql_inv|]. split; [done|].
  pose proof Hr3 as (Ew3 & El3 & _ & _ & _ & Ed3 & _). simpl in Ew3, El3, Ed3.
  assert (st_done s3 = done) as Hdone3 by congruence.
  destruct queried as [[] [e|]]; cbn [bind]; try (simpl in Hst4; subst s4; intros s5; by apply Herr).
  destruct Hst4 as (rows & (all & Hperm & ->) & ->).
  assert (visible s3 = st_tokens s3) as Hvis.
  { unfold visible. by rewrite Ew3, Hw1, (left_id_L ∅ (∪)). }
  rewrite Hvis, <- Hd in Hperm.
  assert (lc_inv (with_rows s3 (take 4 all) None false)) as Hi4 by done.
  apply lwp_bind; [done|]. eapply wp_mono.
  - apply (wp_readLifecycleTokens d aud dest now all done); try done.
    split; try done; simpl; congruence.
  - intros r s5 H Hi5 s6 u s7 Hr6 Hst7. pose proof (lc_rely_inv _ _ Hr6) as Hi6. split; [by eapply lc_sql_inv|].
    split; [done|]. simpl in Hst7. subst s7. pose proof (load_post_rely _ _ _ _ _ _ _ H Hr6) as H6. cbn [bind].
    intros s8 Hr8. eapply load_post_rely; [|exact Hr8]. destruct r as [state|e]; [|exact H6].
    destruct H6 as (d' & ph & ? & ? & ? & ? & []). exists d', ph. by split_and!.
Qed.

(** * Mutations *)

(** This session committed the effect of the command, once. *)
Definition committed (aud : GatewayAudienceID) (dest : DestinationID) (now : Time) (cmd : lifecycle_command)
    (done : list (token_table * token_table)) (s : session) : Prop :=
  exists d T T', st_done s = (T, T') :: done /\ dst_audienceID d = aud /\ dst_id d = dest /\
    lifecycle_effect d now cmd T T'.

(** Success is one commit of the effect; an error is none, or - only with the
    outcome-unknown error - perhaps one. *)
Definition mutation_post (aud : GatewayAudienceID) (dest : DestinationID) (now : Time) (cmd : lifecycle_command)
    (done : list (token_table * token_table)) (err : option error) (s : session) : Prop :=
  match err with
  | None => committed aud dest now cmd done s
  | Some e => st_done s = done \/
      (errors_is e ErrDestinationLifecycleOutcomeUnknown = true /\ committed aud dest now cmd done s)
  end.

Lemma mutation_post_done aud dest now cmd done err s s' :
  st_done s' = st_done s -> mutation_post aud dest now cmd done err s -> mutation_post aud dest now cmd done err s'.
Proof. intros E. unfold mutation_post, committed. by rewrite E. Qed.

Definition not_commit (o : lc_op) : Prop := match o with LcCommit _ => False | _ => True end.

Lemma lc_sql_done s o r s' : not_commit o -> lc_sql s o r s' -> st_done s' = st_done s.
Proof.
  intros Ho. destruct o; simpl; try done; try (by intros ->); try (by intros [-> _]).
  - destruct r as [[row|e]|]; [intros [_ ->]; by destruct lock|by intros [-> _]|by intros ->].
  - destruct r as [[] [e|]]; try (by intros ->). by intros (rows & _ & ->).
  - destruct r; [by intros (r & rows & _ & ->)|by intros [-> | ->]].
  - destruct r as [n|e]; [|by intros ->]. intros (w & _ & ->). by destruct w as [[]|].
Qed.

(** Programs that do not commit. *)
Lemma wp_not_commit {A} (p : prog LcE A) (P : A -> Prop) done s :
  calls_only (E := LcE) not_commit p -> (forall tr a, runs p tr a -> P a) -> st_done s = done ->
  lwp p (fun a s' => P a /\ st_done s' = done) s.
Proof.
  intros Hc HP HJ. apply (wp_frame (E := LcE) lc_sql lc_rely (fun _ _ => True) lc_inv lc_rely_inv not_commit _ P
    (fun s => st_done s = done)); [done|done| | |done].
  - intros s1 s2 H (_ & _ & _ & _ & _ & E & _). congruence.
  - intros s1 o r s2 Ho H Hi Hst. split; [by eapply lc_sql_inv|]. split; [done|].
    apply lc_sql_done in Hst; [congruence|done].
Qed.

Lemma rollback_calls repository cause : calls_only (E := LcE) not_commit (rollbackLifecycleMutation repository cause).
Proof.
  split; [done|]. intros [e|]; simpl; [by split|]. case_match; simpl; [split; [done|]; intros []|]; by case_match.
Qed.

Lemma rollback_returns repository cause tr x :
  runs (rollbackLifecycleMutation repository cause) tr x -> ex_open x = false /\ is_Some (ex_result x).
Proof.
  intros (e & t & -> & H). destruct e as [e|]; cbn [bind] in H.
  - destruct H as (u & t' & -> & [_ ->]). split; [done|]. by eexists.
  - cbv zeta in H. apply runs_bind in H as (t1 & t2 & u & -> & _ & H).
    destruct (singleCauseMatches cause _); destruct H as [_ ->]; (split; [done|]); by eexists.
Qed.

(** A body that rolls back has no effect. *)
Lemma wp_rollback aud dest now cmd repository cause done s :
  st_done s = done ->
  lwp (rollbackLifecycleMutation repository cause)
    (fun x s' => ex_open x = false /\ mutation_post aud dest now cmd done (ex_result x) s') s.
Proof.
  intros Hd. eapply wp_mono.
  - apply (wp_not_commit _ (fun x => ex_open x = false /\ is_Some (ex_result x)) done); [apply rollback_calls|
      apply rollback_returns|done].
  - intros x s' [[Ho [e He]] Hd']. split; [done|]. rewrite He. by left.
Qed.

Lemma write_tokens_union W T ws : write_tokens W ws ∪ T = write_tokens (W ∪ T) ws.
Proof.
  revert W. induction ws as [|t ws IH]; intros W; [done|]. unfold write_tokens in *. cbn [fold_left].
  rewrite IH. f_equal. unfold write_token. by rewrite <- insert_union_l.
Qed.

(** Committing after the statements of a command. *)
Lemma commit_committed aud dest now cmd d ph ws ph' done s :
  dst_audienceID d = aud -> dst_id d = dest -> destination_ok d -> 0 < pg_time now ->
  command_ok aud dest now cmd -> lc_inv s -> lifecycle_next d now cmd ph = Some (ws, ph') ->
  Forall (fun t => token_row_checks (row_of_token t) = true) ws -> mid d ph (write_tokens ∅ ws) (command_new cmd) done s ->
  committed aud dest now cmd done (commit_tx s).
Proof.
  intros Ha Hd Hok Hn Hcmd [HT _] Hnext Hch [_ Hw Hdone Hph Hnew].
  exists d, (st_tokens s), (visible s). split; [simpl; by rewrite Hdone|]. split; [done|]. split; [done|].
  assert (visible s = write_tokens (st_tokens s) ws) as ->.
  { unfold visible. by rewrite Hw, write_tokens_union, (left_id_L ∅ (∪)). }
  exists ph, ws, ph'. split; [done|]. split; [done|]. split; [done|]. split.
  2:{ intros t Ht. destruct (next_ids _ _ _ _ _ _ _ Hnext Ht) as [?|Hk]; [by left|]. right. by apply Hnew. }
  eapply effect_in_phase; try done. subst aud dest. destruct cmd; simpl in *; try done;
    destruct Hcmd as (? & ? & ? & ? & ? & ? & ?); split_and!; try done; apply Hnew; apply list_elem_of_here.
Qed.

Lemma stored_valid d ph : phase_ok d ph -> Forall token_stored (phase_tokens ph) -> phase_valid d ph.
Proof. intros Hok Hst. split; [done|]. eapply Forall_impl; [exact Hst|]. by intros t [? _]. Qed.

Lemma wp_mutate repository ctx aud dest now cmd done s :
  lc_inv s -> st_writes s = ∅ -> st_done s = done -> 0 < pg_time now -> command_ok aud dest now cmd ->
  lwp (mutateInTransaction repository ctx aud dest now (command_mutation ctx aud dest now cmd))
    (fun x s' => ex_open x = false /\ mutation_post aud dest now cmd done (ex_result x) s') s.
Proof.
  intros Hi Hw Hdone Hn Hcmd. apply lwp_bind; [done|]. eapply wp_mono; [by apply wp_load_state|].
  intros [state|e] s1 Hload Hi1; [|by apply wp_rollback].
  destruct Hload as (d & ph & -> & Ha & Hd & Hok & Hm). pose proof (mid_phase _ _ _ _ _ _ Hm) as (Hph & Hst & _).
  pose proof (command_decides ctx d now cmd ph (stored_valid _ _ Hph Hst)) as Hdec.
  rewrite Ha, Hd in Hdec. unfold decides in Hdec.
  destruct (lifecycle_next d now cmd ph) as [[ws ph']|] eqn:Hnext.
  2:{ destruct Hdec as (kind & -> & _). cbn [refuse bind]. apply wp_rollback. apply Hm. }
  rewrite Hdec. apply lwp_bind; [done|]. eapply wp_mono.
  - eapply wp_command; [done|done|by rewrite Ha, Hd|exact Hm|exact Hnext].
  - intros [sent [e|]] s2 Hsent Hi2; [by apply wp_rollback|]. destruct Hsent as (E & Hch & Hm2). simpl in E. subst sent.
    cbn [negb]. intros s3 r s4 Hr Hst4. pose proof (lc_rely_inv _ _ Hr) as Hi3. split; [by eapply lc_sql_inv|]. split; [done|].
    pose proof (mid_rely _ _ _ _ _ _ _ Hm2 Hr) as Hm3.
    pose proof (commit_committed aud dest now cmd d ph ws ph' done s3 Ha Hd Hok Hn Hcmd Hi3 Hnext Hch Hm3) as Hcom.
    assert (forall err, st_done s4 = done -> is_Some err -> mutation_post aud dest now cmd done err s4) as Hnone
      by (intros err ? [e ->]; by left).
    assert (forall (x : lc_exit (option error)) s5, lc_rely s4 s5 -> ex_open x = false ->
      mutation_post aud dest now cmd done (ex_result x) s4 ->
      ex_open x = false /\ mutation_post aud dest now cmd done (ex_result x) s5) as Hret.
    { intros x s5 (_ & _ & _ & _ & _ & E & _) Ho Hp. split; [done|]. by eapply mutation_post_done. }
    destruct r as [e|]; cbn [bind].
    + destruct (is_sentinel e ErrTxCommitRollback) eqn:Ee.
      * intros s5 Hr5. apply Hret; [done|done|]. apply Hnone; [|by eexists].
        destruct Hst4 as [->|[? _]]; [apply Hm3|congruence].
      * intros s5 u s6 Hr5 Hst6. pose proof (lc_rely_inv _ _ Hr5) as Hi5. split; [by eapply lc_sql_inv|]. split; [done|].
        cbn [bind]. intros s7 Hr7. split; [done|]. cbn [ex_result].
        eapply (mutation_post_done _ _ _ _ _ _ s4).
        { destruct Hr7 as (_ & _ & _ & _ & _ & -> & _). simpl in Hst6. subst s6. simpl.
          by destruct Hr5 as (_ & _ & _ & _ & _ & -> & _). }
        destruct Hst4 as [->|[_ ->]]; [apply Hnone; [apply Hm3|by eexists]|]. right. by split.
    + intros s5 Hr5. apply Hret; [done|done|]. simpl in Hst4. by subst s4.
Qed.

(** The deferred functions after a body that ended its transaction. *)
Lemma wp_defers aud dest now cmd repository onFailure x done s :
  ex_open x = false -> mutation_post aud dest now cmd done (ex_result x) s ->
  lwp (lifecycleDefers repository onFailure x) (mutation_post aud dest now cmd done) s.
Proof.
  intros Ho Hp. unfold lifecycleDefers. rewrite Ho. cbn [bind]. eapply wp_mono.
  - apply (wp_not_commit _ (fun r => r = ex_result x) (st_done s)); [| |done].
    + by destruct (ex_release x).
    + intros tr r. destruct (ex_release x); [intros (u & t & -> & [_ ->])|intros [_ ->]]; done.
  - intros r s' [-> E]. by eapply mutation_post_done.
Qed.

(** A transaction starts without rows of its own. *)
Lemma wp_open ctx mode o1 o2 done s :
  st_done s = done ->
  lwp (openTransaction ctx mode o1 o2) (fun r s' => st_done s' = done /\ (is_ok r = true -> st_writes s' = ∅)) s.
Proof.
  intros Hd s1 a s2 Hr Hst. pose proof (lc_rely_inv _ _ Hr) as Hi. split; [by eapply lc_sql_inv|]. split; [done|].
  assert (st_done s2 = done) as Hd2.
  { simpl in Hst. subst s2. destruct Hr as (_ & _ & _ & _ & _ & E & _). simpl. congruence. }
  assert (forall (p : prog LcE (result unit)) s3, st_done s3 = done -> calls_only (E := LcE) not_commit p ->
    (forall tr r, runs p tr r -> is_ok r = false) ->
    lwp p (fun r s' => st_done s' = done /\ (is_ok r = true -> st_writes s' = ∅)) s3) as Hfail.
  { intros p s3 H3 Hc Hp. eapply wp_mono; [by apply (wp_not_commit p (fun r => is_ok r = false) done)|].
    intros r s' [H H']. split; [done|]. by rewrite H. }
  destruct a as [[] [e|]]; cbn [bind].
  - apply Hfail; [done|by split|]. by intros tr r (u & t & -> & [_ ->]).
  - intros s3 b s4 Hr3 Hst4. pose proof (lc_rely_inv _ _ Hr3) as Hi3. split; [by eapply lc_sql_inv|]. split; [done|].
    assert (st_done s4 = done) as Hd4.
    { simpl in Hst4. subst s4. simpl. destruct Hr3 as (_ & _ & _ & _ & _ & E & _). congruence. }
    destruct b as [t [e|]]; cbn [bind].
    + apply Hfail; [done| |].
      * destruct t, (lifecycleUnsafeOrConnectionInterruption e); split; done.
      * destruct t, (lifecycleUnsafeOrConnectionInterruption e); by intros tr r (u & t' & -> & [_ ->]).
    + destruct t; [|apply Hfail; [done|by split|]; by intros tr r (u & t' & -> & [_ ->])].
      intros s5 (Ew & _ & _ & _ & _ & Ed & _). simpl in Hst4. subst s4. split; [congruence|]. by rewrite Ew.
  - apply Hfail; [done|done|]. by intros tr r [_ ->].
  - apply Hfail; [done|done|]. by intros tr r [_ ->].
Qed.

Lemma validate_calls repository ctx aud dest now :
  calls_only (E := LcE) not_commit (validateLifecycleRepositoryInput repository ctx aud dest now).
Proof.
  unfold validateLifecycleRepositoryInput, contextCancellation.
  destruct repository; [|done]. destruct (_ || _); [done|]. destruct (ctx_is_nil ctx); [done|].
  split; [done|]. intros c. cbn. destruct (opt_is_sentinel c Canceled); [done|]. split; [done|]. intros c'. cbn.
  by destruct (opt_is_sentinel c' DeadlineExceeded).
Qed.

Lemma wp_runMutation repository ctx aud dest now cmd s :
  lc_inv s -> 0 < pg_time now -> command_ok aud dest now cmd ->
  lwp (runLifecycleMutation repository ctx aud dest now (command_mutation ctx aud dest now cmd))
    (mutation_post aud dest now cmd (st_done s)) s.
Proof.
  intros Hi Hn Hcmd. unfold runLifecycleMutation. apply lwp_bind; [done|]. eapply wp_mono.
  { apply (wp_not_commit _ (fun _ => True) (st_done s)); [apply validate_calls|done|done]. }
  set (done := st_done s). clearbody done.
  assert (forall e s1 s2, st_done s1 = done -> lc_rely s1 s2 -> mutation_post aud dest now cmd done (Some e) s2) as Herr.
  { intros e s1 s2 H (_ & _ & _ & _ & _ & E & _). left. congruence. }
  intros [rp|e] s1 [_ Hd1] Hi1; [|intros s2; by apply Herr].
  apply lwp_bind; [done|]. eapply wp_mono; [by apply wp_open|].
  intros [[]|e] s2 [Hd2 Hw2] Hi2; [|intros s3; by apply Herr]. specialize (Hw2 eq_refl).
  apply lwp_bind; [done|]. eapply wp_mono; [by apply wp_mutate|].
  intros x s3 [Ho Hp] Hi3. by apply wp_defers.
Qed.

(** The repository call of a command. *)
Definition command_program (repository : option LifecycleRepository) (ctx : Ctx) (aud : GatewayAudienceID)
    (dest : DestinationID) (now : Time) (cmd : lifecycle_command) : prog LcE (option error) :=
  match cmd with
  | CmdCreate c => repo_CreateStagedToken repository ctx c now
  | CmdCreateRotation c expected => repo_CreateRotationStagedToken repository ctx (mkCreateRotation c expected now)
  | CmdActivate id => repo_ActivateInitialToken repository ctx aud dest id now
  | CmdActivateRotation id old deadline =>
      repo_ActivateRotation repository ctx (mkActivateRotation aud dest id old now deadline)
  | CmdAbort id => repo_AbortStagedToken repository ctx aud dest id now
  | CmdRollback new old => repo_RollbackRotation repository ctx (mkRollbackRotation aud dest new old now)
  | CmdFinalize new old reason => repo_FinalizeRotation repository ctx (mkFinalizeRotation aud dest new old reason now)
  end.

(** A candidate carries its own audience and destination; its key id is one
    that [NewDestinationVerifierKeyID] made. *)
Definition command_for (aud : GatewayAudienceID) (dest : DestinationID) (cmd : lifecycle_command) : Prop :=
  match cmd with
  | CmdCreate c | CmdCreateRotation c _ =>
      sc_audienceID c = aud /\ sc_destination c = dest /\ validKeyID (sc_verifierKeyID c) = true
  | _ => True
  end.

Lemma revalidate_ok c v :
  revalidate c = Ok v ->
  is_Some (sc_verifier c) /\ sc_createdAt c < sc_expiresAt c /\ sc_createdAt c < sc_stagedCleanupDeadline c.
Proof.
  unfold revalidate, NewStagedTokenCandidate. destruct (_ || _) eqn:G; [done|]. intros _.
  rewrite !orb_false_iff, verifier_zero_false, !negb_false_iff in G. unfold t_after in G.
  decompose [and] G. split_and!; [done|lia|lia].
Qed.

Lemma wp_invalid aud dest now cmd e s :
  lwp (Ret (Some e)) (mutation_post aud dest now cmd (st_done s)) s.
Proof. intros s' (_ & _ & _ & _ & _ & E & _). left. done. Qed.

Lemma wp_program repository ctx aud dest now cmd s :
  lc_inv s -> 0 < pg_time now -> command_for aud dest cmd ->
  lwp (command_program repository ctx aud dest now cmd) (mutation_post aud dest now cmd (st_done s)) s.
Proof.
  intros Hi Hn Hfor. pose proof (fun H => wp_runMutation repository ctx aud dest now cmd s Hi Hn H) as Hrun.
  destruct cmd; cbn [command_program]; simpl in Hfor.
  - destruct Hfor as (Ha & Hd & Hk). unfold repo_CreateStagedToken.
    destruct (revalidate candidate) as [v|] eqn:Ev; [|apply wp_invalid].
    destruct (_ || _) eqn:G; [apply wp_invalid|]. apply orb_false_iff in G as [_ G]. unfold t_equal in G.
    destruct (revalidate_ok _ _ Ev) as (? & ? & ?). rewrite Ha, Hd. apply Hrun. simpl. split_and!; try done; lia.
  - destruct Hfor as (Ha & Hd & Hk). unfold repo_CreateRotationStagedToken. cbn [cr_candidate cr_expectedActiveRecordID cr_now].
    destruct (NewCreateRotationStagedTokenCommand candidate expectedActive now) as [v|] eqn:Ev; [|apply wp_invalid].
    pose proof (NewCreateRotation_ok _ _ _ _ Ev) as ->. cbn [cr_candidate cr_expectedActiveRecordID cr_now].
    destruct (negb _); [apply wp_invalid|]. cbv zeta. rewrite Ha, Hd.
    unfold NewCreateRotationStagedTokenCommand in Ev. destruct (revalidate candidate) as [v|] eqn:Er; [|done].
    destruct (_ || _) eqn:G; [done|]. apply orb_false_iff in G as [_ G]. unfold t_equal in G.
    destruct (revalidate_ok _ _ Er) as (? & ? & ?). apply Hrun. simpl. split_and!; try done; lia.
  - unfold repo_ActivateInitialToken. destruct (arr_is_zero staged); [apply wp_invalid|by apply Hrun].
  - unfold repo_ActivateRotation. cbn [ar_AudienceID ar_DestinationID ar_StagedRecordID ar_OldActiveRecordID ar_Now ar_OverlapDeadline].
    destruct (_ || _) eqn:G; [apply wp_invalid|]. apply Hrun. simpl. unfold_time. lia.
  - unfold repo_AbortStagedToken. destruct (arr_is_zero staged); [apply wp_invalid|by apply Hrun].
  - unfold repo_RollbackRotation. cbn [rr_AudienceID rr_DestinationID rr_NewActiveRecordID rr_OldRetiringRecordID rr_Now].
    destruct (_ || _); [apply wp_invalid|by apply Hrun].
  - unfold repo_FinalizeRotation. cbn [fr_AudienceID fr_DestinationID fr_NewActiveRecordID fr_OldRetiringRecordID fr_Now fr_Reason].
    destruct (_ || _); [apply wp_invalid|by apply Hrun].
Qed.

(** (C7) The seven mutations are atomic steps of the lifecycle. Run against
    the meaning of its statements, in a time zone whose 90 days are at most 90
    times 24 hours, with other sessions changing the rest of the tables between
    any two of its calls and with calls failing at will, a mutation that
    succeeds has committed exactly one change: the destination
    was in a phase in which the command is allowed, exactly the rows of the
    command's meaning were written, and the live rows are again valid tokens
    that form the next phase. A mutation that fails has committed nothing,
    unless its error is the outcome-unknown one; then it has committed nothing
    or exactly that change. *)
Theorem lifecycle_contract repository ctx aud dest now cmd s s' err
    (Hinv : lc_inv s) (Hnow : 0 < pg_time now) (Hfor : command_for aud dest cmd)
    (Hexec : iexec (E := LcE) lc_sql lc_rely (command_program repository ctx aud dest now cmd) s err s') :
  mutation_post aud dest now cmd (st_done s) err s'.
Proof.
  exact (wp_iexec _ _ _ _ _ _ _ _ _ (wp_program repository ctx aud dest now cmd s Hinv Hnow Hfor) Hexec).
Qed.

(** * The history of the table *)

(** A call of the repository, run against the meaning of its statements with
    other sessions at work and calls failing at will, committed [T'] over
    [T]. *)
Definition commits (T T' : token_table) : Prop :=
  exists repository ctx aud dest now cmd s err s',
    lc_inv s /\ 0 < pg_time now /\ command_for aud dest cmd /\
    iexec (E := LcE) lc_sql lc_rely (command_program repository ctx aud dest now cmd) s err s' /\
    st_done s' = (T, T') :: st_done s.

(** The tables that such calls, in whatever number and order, can lead to. *)
Inductive table_history : token_table -> Prop :=
| history_empty : table_history ∅
| history_commit T T' : table_history T -> commits T T' -> table_history T'.

Lemma live_empty dest : live ∅ dest = [].
Proof. unfold live. by rewrite map_to_list_empty. Qed.

Lemma live_one_other d d' t :
  ts_Destination t = d -> dst_id d <> dst_id d' -> live_one (formatUUID (dst_id d')) (row_of_token t) = [].
Proof.
  intros Hd Hne. unfold live_one. rewrite decide_False; [done|]. intros [E _]. simpl in E. rewrite Hd in E.
  by apply Hne, formatUUID_inj.
Qed.

(** Writing a token of one destination, new or over one of its own, leaves the
    others alone. *)
Lemma live_other T d d' t :
  ts_Destination t = d -> dst_id d <> dst_id d' ->
  (forall r, T !! formatUUID (ts_RecordID t) = Some r -> ltr_destinationText r = formatUUID (dst_id d)) ->
  Permutation (live (write_token T t) (formatUUID (dst_id d'))) (live T (formatUUID (dst_id d'))).
Proof.
  intros Hd Hne Hk. unfold write_token. destruct (T !! formatUUID (ts_RecordID t)) as [r|] eqn:E.
  - rewrite <- insert_delete_eq, live_insert_new by apply lookup_delete_eq.
    rewrite (live_delete T _ r) by done. rewrite (live_one_other d) by done. unfold live_one.
    rewrite decide_False; [done|]. intros [H _]. rewrite (Hk r eq_refl) in H. by apply Hne, formatUUID_inj.
  - rewrite live_insert_new by done. by rewrite (live_one_other d).
Qed.

Lemma write_tokens_other T d d' ws :
  Forall (fun t => ts_Destination t = d) ws -> dst_id d <> dst_id d' ->
  (forall t r, t ∈ ws -> T !! formatUUID (ts_RecordID t) = Some r -> ltr_destinationText r = formatUUID (dst_id d)) ->
  Permutation (live (write_tokens T ws) (formatUUID (dst_id d'))) (live T (formatUUID (dst_id d'))).
Proof.
  revert T. induction ws as [|t ws IH]; intros T Hd Hne Hk; [done|]. apply Forall_cons in Hd as [Ht Hd].
  change (write_tokens T (t :: ws)) with (write_tokens (write_token T t) ws). rewrite IH; [|done|done|].
  - apply (live_other T d); [done|done|]. intros r. apply Hk, list_elem_of_here.
  - intros t' r Hin. unfold write_token. rewrite lookup_insert_Some. intros [[_ <-]|[_ H]]; [simpl; by rewrite Ht|].
    eapply Hk; [by apply list_elem_of_further|done].
Qed.

Lemma next_destination d now cmd ph ws ph' :
  phase_ok d ph -> lifecycle_next d now cmd ph = Some (ws, ph') -> Forall (fun t => ts_Destination t = d) ws.
Proof.
  intros Hok Hnext.
  destruct cmd, ph as [|sg|a|a sg|a r]; cbn [lifecycle_next] in Hnext; cbv zeta in Hnext; try discriminate Hnext;
    (match type of Hnext with (if ?b then _ else _) = _ => destruct b; [|discriminate Hnext] end);
    injection Hnext as <- <-; simpl in Hok; unfold token_in in Hok; decompose [and] Hok;
    repeat (apply Forall_cons; split); simpl; done.
Qed.

Lemma keyed_writes T ws : keyed T -> keyed (write_tokens T ws).
Proof. revert T. induction ws as [|t ws IH]; intros T H; [done|]. by apply IH, keyed_write. Qed.

Lemma effect_others T T' d d' now cmd :
  keyed T -> lifecycle_effect d now cmd T T' -> dst_id d <> dst_id d' ->
  Permutation (live T' (formatUUID (dst_id d'))) (live T (formatUUID (dst_id d'))).
Proof.
  intros HT (ph & ws & ph' & Hph & Hnext & -> & _ & Hids) Hne.
  apply (write_tokens_other T d); [by eapply next_destination; [apply Hph|]|done|].
  intros t r Hin Hr. destruct (Hids t Hin) as [Hid|Hnone]; [|congruence].
  apply list_elem_of_fmap in Hid as (t0 & E & Hin0).
  rewrite E, (in_phase_row T d ph t0 HT Hph Hin0) in Hr. injection Hr as <-. simpl.
  destruct (phase_tokens_in d ph t0 (proj1 Hph) Hin0) as (st & (_ & -> & _) & _). done.
Qed.

(** A commit is the effect of a command. *)
Lemma commits_effect T T' : commits T T' -> exists d now cmd, lifecycle_effect d now cmd T T'.
Proof.
  intros (repository & ctx & aud & dest & now & cmd & s & err & s' & Hi & Hn & Hfor & Hx & Hd).
  pose proof (wp_iexec _ _ _ _ _ _ _ _ _ (wp_program repository ctx aud dest now cmd s Hi Hn Hfor) Hx) as Hp.
  assert (committed aud dest now cmd (st_done s) s') as (d & T0 & T1 & E & _ & _ & Heff).
  { destruct err as [e|]; [|done]. destruct Hp as [Hp|[_ Hp]]; [|done].
    rewrite Hp in Hd. apply (f_equal length) in Hd. cbn in Hd. lia. }
  rewrite Hd in E. injection E as <- <-. eauto.
Qed.

(** (C8) The lifecycle invariant. Whatever calls of the seven mutations, run as
    in [commits] with interference and failures and in a time zone with short
    days, have committed from the empty table on, every destination is in one of the five phases: its live rows are
    the columns of valid tokens, at most one of them active and at most two in
    all; a retiring token has an active successor that took over at the instant
    it began to retire; and every row is stored under its own id. *)
Theorem lifecycle_invariant T (Hhist : table_history T) :
  keyed T /\ forall dest : DestinationID, exists d ph, dst_id d = dest /\ in_phase T d ph.
Proof.
  induction Hhist as [|T T' Hhist [HT IH] (d & now & cmd & Heff)%commits_effect].
  - split; [apply keyed_empty|]. intros dest.
    exists (mkDestination (zero_arr 16) dest DestinationEnabled 0 0 utc_rep utc_rep), PhaseUnprovisioned. split; [done|].
    split; [done|]. split; [constructor|]. by rewrite live_empty.
  - pose proof Heff as (ph & ws & ph' & Hph & Hnext & -> & Hph' & _). split; [by apply keyed_writes|].
    intros dest. destruct (decide (dst_id d = dest)) as [<-|Hne]; [eauto|].
    destruct (IH dest) as (d2 & ph2 & <- & Hok & Hst & Hp). exists d2, ph2. split; [done|]. split; [done|]. split; [done|].
    by rewrite (effect_others T _ d d2 now cmd).
Qed.

End Store.

(** * A server without faults *)

#[local] Existing Instance fixed_zone.

Definition query_result (s : session) (q : lc_query) : list lifecycleTokenRecord :=
  match q with
  | LiveTokens _ dest => take 4 (live (visible s) dest)
  | AttemptTokens aud dest new old =>
      filter (fun r => ltr_audienceText r = aud /\ ltr_destinationText r = dest)
        (omap (fun k => visible s !! k) [new; old])
  end.

(** The constraint violation a refused statement reports. *)
Definition pg_violation : error := Foreign (Foreign_ 1 false (Some (lit "23514", [])) false false false false []) false [].

Definition lc_server (o : lc_op) (x : session * unit) : ans LcE o * (session * unit) :=
  let s := x.1 in
  match o return ans LcE o * (session * unit) with
  | LcAcquire _ | LcBegin _ _ => ((true, None), (end_tx s, tt))
  | LcDestination _ lock dest =>
      match st_dests s !! dest with
      | Some row => (Some (Ok row), (if lock then with_lock s dest else s, tt))
      | None => (Some (Err ErrNoRows), (s, tt))
      end
  | LcQuery _ q => ((true, None), (with_rows s (query_result s q) None false, tt))
  | LcNext =>
      match st_cursor s with
      | r :: rows => (true, (with_rows s rows (Some r) (st_failed s), tt))
      | [] => (false, (with_rows s [] None (st_failed s), tt))
      end
  | LcScan =>
      match st_current s with
      | Some row => (Ok row, (s, tt))
      | None => (Err ErrTxClosed, (s, tt))
      end
  | LcRowsErr => (if st_failed s then Some (Sentinel EOF) else None, (s, tt))
  | LcRowsClose => (tt, (with_rows s [] None false, tt))
  | LcExec _ stmt =>
      match exec_on (visible s) stmt with
      | Some (w, n) =>
          (Ok n, (match w with Some (k, row) => with_writes s (<[k := row]> (st_writes s)) | None => s end, tt))
      | None => (Err pg_violation, (with_writes s ∅, tt))
      end
  | LcCommit _ => (None, (commit_tx s, tt))
  | LcRollback _ => (None, (end_tx s, tt))
  | LcRelease | LcDestroy => (tt, (end_tx s, tt))
  | LcCtxErr _ => (None, (s, tt))
  end.

Lemma lc_server_steps o s x : lc_sql s o (lc_server o (s, x)).1 (lc_server o (s, x)).2.1.
Proof.
  destruct o; simpl; try done.
  - destruct (st_dests s !! destination) as [row|] eqn:E; simpl; done.
  - exists (query_result s q). split; [|done]. destruct q; simpl; [|done]. by eexists.
  - destruct (st_cursor s) as [|r rows] eqn:E; simpl; [|eauto]. by left.
  - by destruct (st_current s) eqn:E.
  - split; [done|]. by destruct (st_failed s).
  - destruct (exec_on _ _) as [[w n]|] eqn:E; simpl; [|done]. by exists w.
Qed.

(** A call on that server. *)
Definition serve (cmd : lifecycle_command) (now : Time) (s : session) : option error * session :=
  let r := run (E := LcE) lc_server
    (command_program (Some (NewDestinationTokenLifecycleRepository false)) CtxReq sample_audience (mk_arr 16 [x06]) now cmd)
    (s, tt) in
  (r.1, r.2.1).

Lemma serve_iexec cmd now s :
  lc_inv s ->
  iexec (E := LcE) lc_sql lc_rely
    (command_program (Some (NewDestinationTokenLifecycleRepository false)) CtxReq sample_audience (mk_arr 16 [x06]) now cmd)
    s (serve cmd now s).1 (serve cmd now s).2.
Proof.
  intros Hi. apply (exec_iexec (E := LcE) lc_sql lc_rely lc_inv lc_rely_refl lc_rely_inv _ _ _ _ lc_sql_inv Hi).
  apply (run_exec (E := LcE) lc_sql lc_server). apply lc_server_steps.
Qed.

(** The life of a destination: a first token is staged and activated; a second
    one is staged, replaces it, and the rotation is finalized. *)
Definition sample_store : session :=
  mkStore {[formatUUID (mk_arr 16 [x06]) := row_of_destination sample_destination]} ∅ ∅ None [] None false [].

Definition sample_staged (id : byte) (now : Time) : StagedTokenCandidate :=
  mkStagedCandidate sample_audience (mk_arr 16 [x06]) (mk_arr 16 [id]) (Some (mk_arr 32 [id])) (lit "key") now
    (now + 24 * Hour) (now + Hour).

Definition serve_all (cmds : list (lifecycle_command * Duration)) (s : session) : list (option error) * session :=
  fold_left (fun acc cmd => let r := serve cmd.1 (sample_t0 + cmd.2) acc.2 in (acc.1 ++ [r.1], r.2)) cmds ([], s).

Definition sample_life_cycle : list (lifecycle_command * Duration) :=
  [(CmdCreate (sample_staged x11 (sample_t0 + Second)), Second);
   (CmdActivate (mk_arr 16 [x11]), 2 * Second);
   (CmdCreateRotation (sample_staged x22 (sample_t0 + 3 * Second)) (mk_arr 16 [x11]), 3 * Second);
   (CmdActivateRotation (mk_arr 16 [x22]) (mk_arr 16 [x11]) (sample_t0 + Hour), 4 * Second);
   (CmdFinalize (mk_arr 16 [x22]) (mk_arr 16 [x11]) RotationVerifiedAndDrained, 5 * Second)].

Example sample_life_cycle_runs :
  let r := serve_all sample_life_cycle sample_store in
  r.1 = [None; None; None; None; None] /\
  map (fun row => (ltr_recordText row, ltr_stateText row)) (live (st_tokens r.2) (formatUUID (mk_arr 16 [x06]))) =
    [(formatUUID (mk_arr 16 [x22]), lit "active")] /\
  length (st_done r.2) = 5%nat.
Proof. vm_compute. done. Qed.

(** A second staging while a rotation is in progress is refused. *)
Example sample_conflict :
  let r := serve_all (take 4 sample_life_cycle ++
    [(CmdCreateRotation (sample_staged x33 (sample_t0 + 5 * Second)) (mk_arr 16 [x22]), 5 * Second)]) sample_store in
  last r.1 = Some (Some (safeError ErrDestinationLifecycleConflict "lifecycle mutation")) /\ length (st_done r.2) = 4%nat.
Proof. vm_compute. done. Qed.

(** The session after the first two commands. *)
Definition sample_active_store : session := (serve_all (take 2 sample_life_cycle) sample_store).2.

Lemma keyed_check T : bool_decide (map_Forall (fun k r => ltr_recordText r = k) T) = true -> keyed T.
Proof. intros H k r. rewrite bool_decide_eq_true in H. apply H. Qed.

Lemma sample_active_inv : lc_inv sample_active_store.
Proof. split; apply keyed_check; vm_compute; reflexivity. Qed.

Lemma lifecycle_contract_witness :
  let cmd := CmdCreateRotation (sample_staged x22 (sample_t0 + 3 * Second)) (mk_arr 16 [x11]) in
  let r := serve cmd (sample_t0 + 3 * Second) sample_active_store in
  r.1 = None /\
  mutation_post sample_audience (mk_arr 16 [x06]) (sample_t0 + 3 * Second) cmd (st_done sample_active_store) r.1 r.2.
Proof.
  intros cmd r. split; [vm_compute; reflexivity|].
  apply (lifecycle_contract (Some (NewDestinationTokenLifecycleRepository false)) CtxReq sample_audience (mk_arr 16 [x06])
    (sample_t0 + 3 * Second) cmd sample_active_store).
  - exact sample_active_inv.
  - vm_compute. reflexivity.
  - vm_compute. split; [reflexivity|]. split; reflexivity.
  - apply serve_iexec. exact sample_active_inv.
Defined.

#[local] Instance token_record_eq_dec : EqDecision lifecycleTokenRecord.
Proof. solve_decision. Defined.

(** A served command that committed extends the history. *)
Lemma serve_history cmd now s T T' :
  table_history T -> lc_inv s -> 0 < pg_time now -> command_for sample_audience (mk_arr 16 [x06]) cmd ->
  bool_decide (st_done (serve cmd now s).2 = (T, T') :: st_done s) = true -> table_history T'.
Proof.
  intros HT Hi Hn Hf Hd%bool_decide_eq_true. eapply history_commit; [exact HT|].
  do 6 eexists. exists s. do 2 eexists. split; [exact Hi|]. split; [exact Hn|]. split; [exact Hf|].
  split; [by apply serve_iexec|exact Hd].
Qed.

(** The store after the first creation. *)
Definition sample_first_store : session :=
  (serve (CmdCreate (sample_staged x11 (sample_t0 + Second))) (sample_t0 + Second) sample_store).2.

Lemma lifecycle_invariant_witness :
  keyed (st_tokens sample_active_store) /\
  forall dest, exists d ph, dst_id d = dest /\ in_phase (st_tokens sample_active_store) d ph.
Proof.
  apply lifecycle_invariant.
  apply (serve_history (CmdActivate (mk_arr 16 [x11])) (sample_t0 + 2 * Second) sample_first_store
    (st_tokens sample_first_store)).
  - apply (serve_history (CmdCreate (sample_staged x11 (sample_t0 + Second))) (sample_t0 + Second) sample_store ∅).
    + apply history_empty.
    + split; apply keyed_check; vm_compute; reflexivity.
    + vm_compute. reflexivity.
    + vm_compute. split_and!; reflexivity.
    + vm_compute. reflexivity.
  - split; apply keyed_check; vm_compute; reflexivity.
  - vm_compute. reflexivity.
  - exact I.
  - vm_compute. reflexivity.
Defined.
