(* ===== verification/Resolver.v ===== *)
(** The opaque destination resolver: internal/postgres/destination_resolver.go.

    A raw destination token is looked up under each of the one or two
    configured verifier keys: its verifier is computed with the key, and the
    row stored under that verifier is read on one pooled connection. The key
    source, the pool, the connection and [ctx.Err()] are external calls. *)

From Stdlib Require Import ZifyBool.
From S2P Require Import Prelude Effects GoErrors GoTime Encoding Uuid Sha256 PgTypes SecurityTypes TokenRows.

(** * Rows *)

(** [destinationTokenRecord]; a [pgtype.Text] that is not valid is [None]. The
    last two fields are the representations of the destination's two times. *)
Record destinationTokenRecord : Type := mkMatchRecord {
  dtr_count : Z;
  dtr_recordText : bytes;
  dtr_audienceText : bytes;
  dtr_destinationText : bytes;
  dtr_verifierBytes : bytes;
  dtr_keyIDText : bytes;
  dtr_stateText : bytes;
  dtr_createdAt : Timestamptz;
  dtr_activatedAt : Timestamptz;
  dtr_retirementStartedAt : Timestamptz;
  dtr_revokedAt : Timestamptz;
  dtr_expiresAt : Timestamptz;
  dtr_stagedCleanupDeadline : Timestamptz;
  dtr_retirementDeadline : Timestamptz;
  dtr_stateChangedAt : Timestamptz;
  dtr_destinationRecordText : option bytes;
  dtr_destinationAudienceText : option bytes;
  dtr_destinationStateText : option bytes;
  dtr_destinationCreatedAt : Timestamptz;
  dtr_destinationStateChangedAt : Timestamptz;
  dtr_destinationCreatedRep : TimeRep;
  dtr_destinationChangedRep : TimeRep
}.

(** [destinationVerifierCandidate]. *)
Record destinationVerifierCandidate : Type := mkCandidate {
  vc_keyID : DestinationVerifierKeyID;
  vc_verifier : TokenVerifier
}.

(** [TokenVerifier.Bytes]. *)
Definition verifier_Bytes (v : TokenVerifier) : arr 32 := default (zero_arr 32) v.

Definition pg_text (o : option bytes) : bytes := default [] o.
Definition pg_valid (o : option bytes) : bool := bool_decide (is_Some o).

(** [destinationTokenRecord.token]. *)
Definition match_token (record : destinationTokenRecord) (expectedAudience : GatewayAudienceID)
    (candidate : destinationVerifierCandidate) : result DestinationToken :=
  let bad := Sentinel ErrDestinationResolverIntegrity in
  if (dtr_count record <>?? 1) || negb (finiteTimestamp (dtr_createdAt record)) ||
     negb (finiteTimestamp (dtr_expiresAt record)) || negb (finiteTimestamp (dtr_stagedCleanupDeadline record)) ||
     negb (finiteTimestamp (dtr_stateChangedAt record)) || negb (pg_valid (dtr_destinationRecordText record)) ||
     negb (pg_valid (dtr_destinationAudienceText record)) || negb (pg_valid (dtr_destinationStateText record)) ||
     negb (finiteTimestamp (dtr_destinationCreatedAt record)) ||
     negb (finiteTimestamp (dtr_destinationStateChangedAt record)) then Err bad
  else
  check! recordID := ParseDestinationTokenRecordID (dtr_recordText record) or bad in
  check! audience := ParseGatewayAudienceID (dtr_audienceText record) or bad in
  check! destinationID := ParseDestinationID (dtr_destinationText record) or bad in
  check! storedVerifier := NewTokenVerifier (dtr_verifierBytes record) or bad in
  check! storedKeyID := NewDestinationVerifierKeyID (dtr_keyIDText record) or bad in
  check! destinationRecordID := ParseDestinationID (pg_text (dtr_destinationRecordText record)) or bad in
  check! destinationAudience := ParseGatewayAudienceID (pg_text (dtr_destinationAudienceText record)) or bad in
  if (audience <>?? expectedAudience) || (destinationID <>?? destinationRecordID) ||
     (destinationAudience <>?? audience) || (storedKeyID <>?? vc_keyID candidate) then Err bad
  else if verifier_Bytes storedVerifier <>?? verifier_Bytes (vc_verifier candidate) then Err bad
  else
  check! state := destinationState (pg_text (dtr_destinationStateText record)) or bad in
  check! destination := NewDestination destinationAudience destinationRecordID state
      (tz_time (dtr_destinationCreatedAt record), dtr_destinationCreatedRep record)
      (tz_time (dtr_destinationStateChangedAt record), dtr_destinationChangedRep record) or bad in
  check! tokenState := destinationTokenState (dtr_stateText record) or bad in
  check! activatedAt := optionalFiniteTime (dtr_activatedAt record) or bad in
  check! retirementStartedAt := optionalFiniteTime (dtr_retirementStartedAt record) or bad in
  check! revokedAt := optionalFiniteTime (dtr_revokedAt record) or bad in
  check! retirementDeadline := optionalFiniteTime (dtr_retirementDeadline record) or bad in
  NewDestinationToken (mkTokenSpec audience destination recordID storedVerifier storedKeyID tokenState
    (tz_time (dtr_createdAt record)) activatedAt retirementStartedAt revokedAt
    (tz_time (dtr_expiresAt record)) (tz_time (dtr_stagedCleanupDeadline record)) retirementDeadline
    (tz_time (dtr_stateChangedAt record))).

(** * External calls *)

(** [RsQuery] is [QueryRow] of [selectDestinationTokenSQL] with its [Scan]:
    [None] when the row is nil. [RsAcquire] answers whether the connection is
    non-nil, and the error. *)
Inductive rs_op : Type :=
| RsKey (ctx : Ctx) (audience : GatewayAudienceID) (keyID : DestinationVerifierKeyID)
| RsAcquire (ctx : Ctx)
| RsQuery (ctx : Ctx) (audience keyID verifier : bytes)
| RsRelease
| RsDestroy
| RsCtxErr (ctx : Ctx).

Definition RsE : sig := Sig rs_op (fun o =>
  match o with
  | RsKey _ _ _ => result DestinationVerifierKey
  | RsAcquire _ => (bool * option error)%type
  | RsQuery _ _ _ _ => option (result destinationTokenRecord)
  | RsRelease | RsDestroy => unit
  | RsCtxErr _ => option error
  end).

(** [OpaqueDestinationResolver]; [None] below is a nil resolver. *)
Record Resolver : Type := mkResolver {
  rv_acquire_nil : bool;
  rv_keySource_nil : bool;
  rv_keyIDs : list DestinationVerifierKeyID
}.

(** The loop of [newOpaqueDestinationResolver] over the key ids. *)
Fixpoint configureKeys (configured keyIDs : list DestinationVerifierKeyID) : result (list DestinationVerifierKeyID) :=
  match keyIDs with
  | [] => Ok configured
  | keyID :: rest =>
      match NewDestinationVerifierKeyID keyID with
      | Err _ => Err (safeError ErrDestinationResolverIntegrity "destination resolver configuration")
      | Ok parsed =>
          if (parsed <>?? keyID) || existsb (fun prior => prior =?? keyID) configured
          then Err (safeError ErrDestinationResolverIntegrity "destination resolver configuration")
          else configureKeys (configured ++ [keyID]) rest
      end
  end.

(** [newOpaqueDestinationResolver]. *)
Definition newOpaqueDestinationResolver (acquire_nil keySource_nil : bool)
    (keyIDs : list DestinationVerifierKeyID) : result Resolver :=
  if acquire_nil || keySource_nil || (length keyIDs <? 1)%nat || (2 <? length keyIDs)%nat
  then Err (safeError ErrDestinationResolverIntegrity "destination resolver configuration")
  else match configureKeys [] keyIDs with
       | Err e => Err e
       | Ok configured => Ok (mkResolver acquire_nil keySource_nil configured)
       end.

(** [NewOpaqueDestinationResolver]. *)
Definition NewOpaqueDestinationResolver (pool_is_nil keySource_nil : bool)
    (keyIDs : list DestinationVerifierKeyID) : result Resolver :=
  if pool_is_nil then Err (safeError ErrDestinationResolverIntegrity "destination resolver configuration")
  else newOpaqueDestinationResolver false keySource_nil keyIDs.

(** Its acquire closure; [RsAcquire] is here [pool.Acquire]. *)
Definition resolverPoolAcquire (ctx : Ctx) : prog RsE (bool * option error) :=
  let! a := @call RsE (RsAcquire ctx) in
  match a with
  | (connection, Some e) =>
      let! _ := (if connection then @call RsE RsDestroy else Ret tt) in Ret (false, Some e)
  | (connection, None) =>
      if connection then Ret (true, None)
      else Ret (false, Some (Sentinel ErrDestinationResolverUnavailable))
  end.

Definition resolverViaPool {A} (p : prog RsE A) : prog RsE A :=
  interp (F := RsE) (fun o : op RsE =>
    match o return prog RsE (ans RsE o) with
    | RsAcquire ctx => resolverPoolAcquire ctx
    | o => @call RsE o
    end) p.

(** * Resolution *)

(** [destinationResolverContextSentinel]; [destinationResolverSingleCauseMatches]
    has the body of [singleCauseMatches]. *)
Definition destinationResolverContextSentinel (ctx : Ctx) (e : option error) : prog RsE (option sentinel) :=
  match e with
  | Some e =>
      if singleCauseMatches e Canceled then Ret (Some Canceled)
      else if singleCauseMatches e DeadlineExceeded then Ret (Some DeadlineExceeded)
      else Ret None
  | None =>
      if ctx_is_nil ctx then Ret None
      else
      let! c := @call RsE (RsCtxErr ctx) in
      if opt_is_sentinel c Canceled then Ret (Some Canceled)
      else
      let! c := @call RsE (RsCtxErr ctx) in
      if opt_is_sentinel c DeadlineExceeded then Ret (Some DeadlineExceeded) else Ret None
  end.

(** The loop of [verifierCandidates] over the configured keys. *)
Fixpoint candidateLoop (ctx : Ctx) (audience : GatewayAudienceID) (rawToken : OpaqueDestinationToken)
    (keyIDs : list DestinationVerifierKeyID) (candidates : list destinationVerifierCandidate) (unavailable : bool)
  : prog RsE (result (list destinationVerifierCandidate * bool)) :=
  match keyIDs with
  | [] => Ret (Ok (candidates, unavailable))
  | keyID :: rest =>
    let! answer := @call RsE (RsKey ctx audience keyID) in
    let! cancellation := destinationResolverContextSentinel ctx
      (match answer with Ok _ => None | Err e => Some e end) in
    match cancellation with
    | Some c => Ret (Err (safeError c "destination verifier key"))
    | None =>
    match answer with
    | Err _ => candidateLoop ctx audience rawToken rest candidates true
    | Ok key =>
        if Z.of_nat (length key) <? 32 then candidateLoop ctx audience rawToken rest candidates true
        else match ComputeDestinationTokenVerifier audience rawToken key with
             | Err _ => candidateLoop ctx audience rawToken rest candidates true
             | Ok verifier =>
                 candidateLoop ctx audience rawToken rest (candidates ++ [mkCandidate keyID verifier]) unavailable
             end
    end end
  end.

(** [verifierCandidates]. *)
Definition verifierCandidates (resolver : Resolver) (ctx : Ctx) (audience : GatewayAudienceID)
    (rawToken : OpaqueDestinationToken) : prog RsE (result (list destinationVerifierCandidate)) :=
  let! computed := candidateLoop ctx audience rawToken (rv_keyIDs resolver) [] false in
  match computed with
  | Err e => Ret (Err e)
  | Ok (candidates, unavailable) =>
      if unavailable || (length candidates <>?? length (rv_keyIDs resolver))
      then Ret (Err (safeError ErrDestinationResolverUnavailable "destination verifier key"))
      else Ret (Ok candidates)
  end.

(** The closure [finish]; every path calls it once. *)
Definition resolverFinish (destroy : bool) : prog RsE unit :=
  if destroy then @call RsE RsDestroy else @call RsE RsRelease.

(** The loop of [matchingDestinationTokens] over the candidates, and what
    follows it. *)
Fixpoint lookupLoop (ctx : Ctx) (expectedAudience : GatewayAudienceID)
    (candidates : list destinationVerifierCandidate) (matches : list DestinationToken) (integrityFailure : bool)
  : prog RsE (result (list DestinationToken)) :=
  let! cancellation := destinationResolverContextSentinel ctx None in
  match cancellation with
  | Some c =>
      let! _ := resolverFinish true in Ret (Err (safeError c "destination token lookup query"))
  | None =>
  match candidates with
  | [] =>
      let! _ := resolverFinish false in
      if integrityFailure || (1 <? length matches)%nat
      then Ret (Err (safeError ErrDestinationResolverIntegrity "destination token lookup record"))
      else Ret (Ok matches)
  | candidate :: rest =>
      let! row := @call RsE (RsQuery ctx (formatUUID expectedAudience) (vc_keyID candidate)
        (arr_list (verifier_Bytes (vc_verifier candidate)))) in
      match row with
      | None =>
          let! _ := resolverFinish true in
          Ret (Err (safeError ErrDestinationResolverUnavailable "destination token lookup query"))
      | Some scanned =>
      let! cancellation := destinationResolverContextSentinel ctx
        (match scanned with Ok _ => None | Err e => Some e end) in
      match cancellation with
      | Some c =>
          let! _ := resolverFinish true in Ret (Err (safeError c "destination token lookup query"))
      | None =>
      match scanned with
      | Err e =>
          if is_sentinel e ErrNoRows then lookupLoop ctx expectedAudience rest matches integrityFailure
          else
            let! _ := resolverFinish (isConnectionInterruption e) in
            Ret (Err (safeError ErrDestinationResolverUnavailable "destination token lookup query"))
      | Ok record =>
          match match_token record expectedAudience candidate with
          | Err _ => lookupLoop ctx expectedAudience rest matches true
          | Ok token => lookupLoop ctx expectedAudience rest (matches ++ [token]) integrityFailure
          end
      end end end
  end end.

(** [matchingDestinationTokens]. *)
Definition matchingDestinationTokens (resolver : Resolver) (ctx : Ctx) (expectedAudience : GatewayAudienceID)
    (rawToken : OpaqueDestinationToken) : prog RsE (result (list DestinationToken)) :=
  let! computed := verifierCandidates resolver ctx expectedAudience rawToken in
  match computed with
  | Err e => Ret (Err e)
  | Ok candidates =>
  let! acquired := @call RsE (RsAcquire ctx) in
  match acquired with
  | (connection, Some e) =>
      let! _ := (if connection then @call RsE RsDestroy else Ret tt) in
      let! cancellation := destinationResolverContextSentinel ctx (Some e) in
      match cancellation with
      | Some c => Ret (Err (safeError c "destination token lookup connection"))
      | None => Ret (Err (safeError ErrDestinationResolverUnavailable "destination token lookup connection"))
      end
  | (false, None) =>
      Ret (Err (safeError ErrDestinationResolverUnavailable "destination token lookup connection"))
  | (true, None) => lookupLoop ctx expectedAudience candidates [] false
  end end.

(** The checks of the receiver and the context that both operations start with. *)
Definition resolverUnusable (resolver : Resolver) (ctx : Ctx) : bool :=
  rv_acquire_nil resolver || rv_keySource_nil resolver || (length (rv_keyIDs resolver) <? 1)%nat ||
  (2 <? length (rv_keyIDs resolver))%nat || ctx_is_nil ctx.

(** [Resolve]. *)
Definition Resolve (resolver : option Resolver) (ctx : Ctx) (expectedAudience : GatewayAudienceID)
    (rawToken : OpaqueDestinationToken) (now : Time) : prog RsE (result DestinationID) :=
  let invalid := safeError ErrDestinationResolverIntegrity "destination resolution input" in
  match resolver with
  | None => Ret (Err invalid)
  | Some resolver =>
  if resolverUnusable resolver ctx || arr_is_zero expectedAudience || t_is_zero now then Ret (Err invalid)
  else
  match ParseGatewayAudienceID (formatUUID expectedAudience) with
  | Err _ => Ret (Err invalid)
  | Ok parsedAudience =>
  if parsedAudience <>?? expectedAudience then Ret (Err invalid)
  else
  let! cancellation := destinationResolverContextSentinel ctx None in
  match cancellation with
  | Some c => Ret (Err (safeError c "destination resolution canceled"))
  | None =>
  let! matched := matchingDestinationTokens resolver ctx expectedAudience rawToken in
  match matched with
  | Err e => Ret (Err e)
  | Ok [] => Ret (Err ErrDestinationNotFound)
  | Ok (token :: _) =>
      if negb (token_UsableAt token now) then Ret (Err ErrDestinationNotFound)
      else Ret (Ok (dst_id (ts_Destination token)))
  end end end end.

(** [DestinationTokenRotationTokenIdentity], a uint8. *)
Definition DestinationTokenRotationTokenIdentity := Z.
Definition DestinationTokenRotationTokenNew : DestinationTokenRotationTokenIdentity := 1.
Definition DestinationTokenRotationTokenOld : DestinationTokenRotationTokenIdentity := 2.
Definition DestinationTokenRotationTokenNeither : DestinationTokenRotationTokenIdentity := 3.

(** [IdentifyRotationToken]. *)
Definition IdentifyRotationToken (resolver : option Resolver) (ctx : Ctx) (expectedAudience : GatewayAudienceID)
    (expectedDestination : DestinationID) (rawToken : OpaqueDestinationToken)
    (newActiveRecordID oldRetiringRecordID : DestinationTokenRecordID) (now : Time)
  : prog RsE (result DestinationTokenRotationTokenIdentity) :=
  let invalid := safeError ErrDestinationResolverIntegrity "rotation token identification input" in
  match resolver with
  | None => Ret (Err invalid)
  | Some resolver =>
  if resolverUnusable resolver ctx || arr_is_zero expectedAudience || arr_is_zero expectedDestination ||
     arr_is_zero newActiveRecordID || arr_is_zero oldRetiringRecordID ||
     (newActiveRecordID =?? oldRetiringRecordID) || t_is_zero now then Ret (Err invalid)
  else
  let! cancellation := destinationResolverContextSentinel ctx None in
  match cancellation with
  | Some c => Ret (Err (safeError c "rotation token identification canceled"))
  | None =>
  let! matched := matchingDestinationTokens resolver ctx expectedAudience rawToken in
  match matched with
  | Err e => Ret (Err e)
  | Ok [] => Ret (Ok DestinationTokenRotationTokenNeither)
  | Ok (token :: _) =>
      if (ts_AudienceID token <>?? expectedAudience) ||
         (dst_id (ts_Destination token) <>?? expectedDestination)
      then Ret (Ok DestinationTokenRotationTokenNeither)
      else if ts_RecordID token =?? newActiveRecordID then Ret (Ok DestinationTokenRotationTokenNew)
      else if ts_RecordID token =?? oldRetiringRecordID then Ret (Ok DestinationTokenRotationTokenOld)
      else Ret (Ok DestinationTokenRotationTokenNeither)
  end end end.

(** [computeDestinationTokenVerifier], the test seam. *)
Definition computeDestinationTokenVerifier (audience : GatewayAudienceID) (rawToken : OpaqueDestinationToken)
    (keyBytes : bytes) : result TokenVerifier :=
  match NewDestinationVerifierKey keyBytes with
  | Err _ => Err ErrDestinationResolverIntegrity
  | Ok key => ComputeDestinationTokenVerifier audience rawToken key
  end.

(** * Matching rows *)

(** The joined row of a token and its destination, when [n] rows match. *)
Definition join_row (n : Z) (r : lifecycleTokenRecord) (d : option lifecycleDestinationRecord) : destinationTokenRecord :=
  mkMatchRecord n (ltr_recordText r) (ltr_audienceText r) (ltr_destinationText r) (ltr_verifierBytes r)
    (ltr_keyIDText r) (ltr_stateText r) (ltr_createdAt r) (ltr_activatedAt r) (ltr_retirementStartedAt r)
    (ltr_revokedAt r) (ltr_expiresAt r) (ltr_stagedCleanupDeadline r) (ltr_retirementDeadline r) (ltr_stateChangedAt r)
    (ldr_destinationText <$> d) (ldr_audienceText <$> d) (ldr_stateText <$> d)
    (from_option ldr_createdAt TzNull d) (from_option ldr_stateChangedAt TzNull d)
    (from_option ldr_createdRep utc_rep d) (from_option ldr_changedRep utc_rep d).

Definition match_row (t : DestinationToken) : destinationTokenRecord :=
  join_row 1 (row_of_token t) (Some (row_of_destination (ts_Destination t))).

(** A token that can be read back with its destination. *)
Definition match_stored (t : DestinationToken) : Prop :=
  token_stored t /\ destination_ok (ts_Destination t) /\ dst_stateChangedAt (ts_Destination t) <> 0.

Lemma pg_valid_true o : pg_valid o = true <-> o = Some (pg_text o).
Proof.
  unfold pg_valid. rewrite bool_decide_eq_true. destruct o; simpl.
  - by split; [|intros _; eexists].
  - by split; [intros []|].
Qed.

Lemma match_token_iff r aud cand t :
  match_token r aud cand = Ok t <->
  r = match_row t /\ match_stored t /\ ts_AudienceID t = aud /\ ts_VerifierKeyID t = vc_keyID cand /\
  verifier_Bytes (ts_Verifier t) = verifier_Bytes (vc_verifier cand).
Proof.
  unfold match_token, ParseDestinationTokenRecordID, ParseDestinationID, ParseGatewayAudienceID. cbv zeta. split.
  - intros H. destruct (_ || _) eqn:G1; [done|].
    rewrite !orb_false_iff, !negb_false_iff, !finiteTimestamp_true, !pg_valid_true, bool_decide_eq_true in G1.
    repeat (apply check_ok in H; destruct H as (? & ? & H)).
    match type of H with (if ?b then _ else _) = _ => destruct b eqn:G2; [done|] end.
    rewrite !orb_false_iff, !negb_false_iff, !bool_decide_eq_true in G2. destruct G2 as [[[-> ->] ->] ->].
    match type of H with (if ?b then _ else _) = _ => destruct b eqn:G3; [done|] end.
    rewrite negb_false_iff, bool_decide_eq_true in G3.
    repeat (apply check_ok in H; destruct H as (? & ? & H)).
    apply NewDestinationToken_ok in H as [-> Hok].
    repeat match goal with
    | H : state_parseUUID _ _ = Ok _ |- _ => apply state_parse_iff in H as (? & ? & ?)
    | H : optionalFiniteTime _ = Ok _ |- _ => apply optionalFiniteTime_ok in H
    | H : destinationTokenState _ = Ok _ |- _ => apply destinationTokenState_ok in H as [? ?]
    | H : destinationState _ = Ok _ |- _ => apply destinationState_ok in H as [? ?]
    | H : NewTokenVerifier _ = Ok _ |- _ => apply NewTokenVerifier_ok in H as (? & ? & ?)
    | H : NewDestinationVerifierKeyID _ = Ok _ |- _ => apply NewKeyID_ok in H as [? ?]
    | H : NewDestination _ _ _ _ _ = Ok _ |- _ => apply NewDestination_ok in H as [? ?]
    end.
    destruct r; unfold match_row, join_row; simpl in *.
    decompose [and] G1. clear G1.
    repeat match goal with
    | H : ?x = TzTime (tz_time ?x) |- _ => is_var x; destruct x; try discriminate H; clear H
    | H : ?x = Some (pg_text ?x) |- _ => is_var x; destruct x; try discriminate H; clear H
    end. simpl in *. subst.
    split_and!; try done.
  - intros (-> & ((Hok & Hk & He & Hs & Hm) & Hd & Hdm) & <- & Hkid & Hver).
    pose proof Hok as [Ha [Hda Hdi] (Hr & Hv & Hk') _ _ [Hc _] Hst].
    pose proof Hd as (Hd1 & Hd2 & Hd3 & Hd4 & Hd5).
    unfold match_row, join_row, row_of_token, row_of_destination. simpl. unfold t_is_zero.
    apply Z.eqb_neq in He, Hs, Hm, Hc, Hdm, Hd4. rewrite He, Hs, Hm, Hc, Hdm, Hd4. cbn [negb orb].
    do 3 (apply check_ok; eexists; split; [apply state_parse_iff; by split_and!|]).
    apply check_ok. exists (ts_Verifier t). split.
    { apply NewTokenVerifier_ok. destruct Hv as [v ->]. eauto. }
    apply check_ok. exists (ts_VerifierKeyID t). split; [by apply NewKeyID_ok|].
    do 2 (apply check_ok; eexists; split; [apply state_parse_iff; by split_and!|]).
    rewrite !bool_decide_eq_true_2 by done. cbn [negb orb].
    apply check_ok. exists (dst_state (ts_Destination t)). split; [by apply destinationState_ok|].
    apply check_ok. exists (ts_Destination t). split.
    { apply NewDestination_ok. split; [|done]. by destruct (ts_Destination t). }
    apply check_ok. exists (ts_State t). split; [apply destinationTokenState_ok; split; [done|]; clear -Hst; tauto|].
    repeat (apply check_ok; eexists; split; [by apply optionalFiniteTime_ok|]).
    apply NewDestinationToken_ok. by destruct t.
Qed.

(** * Connection discipline *)

(** The connection of one call: not acquired, usable, usable only to be
    released, only to be destroyed, given back (or never obtained). *)
Inductive rs_conn : Type := RsIdle | RsHeld | RsFailed | RsBroken | RsOver.

Definition after_query (row : option (result destinationTokenRecord)) : rs_conn :=
  match row with
  | None => RsBroken
  | Some (Err e) =>
      if is_sentinel e ErrNoRows then RsHeld else if isConnectionInterruption e then RsBroken else RsFailed
  | Some (Ok _) => RsHeld
  end.

(** The protocol: the keys before the connection, one acquisition, no query
    after a failed one, and one way back. *)
Definition rs_step (q : rs_conn) (e : event RsE) : option rs_conn :=
  match q, e with
  | q, existT (RsCtxErr _) _ => Some q
  | RsIdle, existT (RsKey _ _ _) _ => Some RsIdle
  | RsIdle, existT (RsAcquire _) (connection, e) =>
      Some (if connection then (if is_err e then RsBroken else RsHeld) else RsOver)
  | RsHeld, existT (RsQuery _ _ _ _) r => Some (after_query r)
  | RsHeld, existT RsRelease _ => Some RsOver
  | RsHeld, existT RsDestroy _ => Some RsOver
  | RsFailed, existT RsRelease _ => Some RsOver
  | RsBroken, existT RsDestroy _ => Some RsOver
  | _, _ => None
  end.

Definition rs_over (q : rs_conn) : Prop := q = RsIdle \/ q = RsOver.

Abbreviation rkeeps := (keeps (E := RsE) rs_step).

(** Looking at the context leaves the connection alone; the sentinel it finds
    in an error makes the error an interruption. *)
Lemma keeps_resolverSentinel {A} q ctx e (f : option sentinel -> prog RsE A) post :
  (forall c, (forall x, e = Some x -> is_Some c -> isConnectionInterruption x = true) -> rkeeps q (f c) post) ->
  rkeeps q (bind (destinationResolverContextSentinel ctx e) f) post.
Proof.
  intros H. unfold destinationResolverContextSentinel. destruct e as [e|].
  - assert (forall t, t = Canceled \/ t = DeadlineExceeded -> singleCauseMatches e t = true ->
      isConnectionInterruption e = true) as Hi.
    { intros t Ht Hm. apply single_cause_errors_is in Hm. unfold isConnectionInterruption.
      destruct Ht as [-> | ->]; rewrite Hm; [done|]. by rewrite orb_true_r. }
    destruct (singleCauseMatches e Canceled) eqn:E1; cbn [bind].
    { apply H. intros x [= <-] _. by apply (Hi Canceled); [left|]. }
    destruct (singleCauseMatches e DeadlineExceeded) eqn:E2; cbn [bind].
    { apply H. intros x [= <-] _. by apply (Hi DeadlineExceeded); [right|]. }
    apply H. intros ? ? []. congruence.
  - destruct (ctx_is_nil ctx); [by apply H|].
    intros c. exists q. split; [by destruct q|]. cbn [bind call].
    destruct (opt_is_sentinel c Canceled); [by apply H|].
    intros c'. exists q. split; [by destruct q|]. cbn [bind call].
    destruct (opt_is_sentinel c' DeadlineExceeded); by apply H.
Qed.

Lemma candidateLoop_keeps ctx aud raw keyIDs candidates unavailable :
  rkeeps RsIdle (candidateLoop ctx aud raw keyIDs candidates unavailable) (fun _ q => q = RsIdle).
Proof.
  revert candidates unavailable. induction keyIDs as [|k ks IH]; intros; simpl; [done|].
  intros answer. exists RsIdle. split; [done|]. apply keeps_resolverSentinel. intros [c|] _; [done|].
  destruct answer as [key|e]; [|apply IH]. case_match; [apply IH|]. case_match; apply IH.
Qed.

Lemma keeps_resolverFinish {A} q (destroy : bool) (a : A) :
  (q = RsHeld \/ q = if destroy then RsBroken else RsFailed) ->
  rkeeps q (bind (resolverFinish destroy) (fun _ => Ret a)) (fun _ => rs_over).
Proof. intros Hq. destruct destroy; intros u; exists RsOver; destruct Hq as [-> | ->]; (split; [done|by right]). Qed.

Lemma lookupLoop_keeps ctx aud candidates matches integrityFailure :
  rkeeps RsHeld (lookupLoop ctx aud candidates matches integrityFailure) (fun _ => rs_over).
Proof.
  revert matches integrityFailure. induction candidates as [|c cs IH]; intros; cbn [lookupLoop].
  - apply keeps_resolverSentinel. intros [c|] _; [apply keeps_resolverFinish; by left|].
    intros u. exists RsOver. split; [done|]. case_match; by right.
  - apply keeps_resolverSentinel. intros [x|] _; [apply keeps_resolverFinish; by left|].
    apply keeps_call. intros row. exists (after_query row). split; [done|].
    destruct row as [[record|e]|]; [| |apply keeps_resolverFinish; by right].
    + apply keeps_resolverSentinel. intros [x|] _; [apply keeps_resolverFinish; by left|]. case_match; apply IH.
    + apply keeps_resolverSentinel. intros [x|] Hx; cbn [after_query].
      * rewrite (Hx e) by eauto. apply keeps_resolverFinish. case_match; auto.
      * case_match; [apply IH|]. apply keeps_resolverFinish. right. by destruct (isConnectionInterruption e).
Qed.

Lemma matching_keeps resolver ctx aud raw :
  rkeeps RsIdle (matchingDestinationTokens resolver ctx aud raw) (fun _ => rs_over).
Proof.
  unfold matchingDestinationTokens. apply keeps_bind with (fun _ q => q = RsIdle).
  { unfold verifierCandidates. eapply keeps_bind; [apply candidateLoop_keeps|].
    intros [[]|e] ? ->; [|done]. by case_match. }
  intros [candidates|e] ? ->; [|by left].
  apply keeps_call. intros [connection [e|]].
  - exists (if connection then RsBroken else RsOver). split; [by destruct connection|].
    assert (forall q, q = RsOver -> rkeeps q (let! cancellation := destinationResolverContextSentinel ctx (Some e) in
      match cancellation with
      | Some c => Ret (Err (safeError c "destination token lookup connection"))
      | None => Ret (Err (safeError ErrDestinationResolverUnavailable "destination token lookup connection"))
      end) (fun (_ : result (list DestinationToken)) => rs_over)) as H.
    { intros ? ->. apply keeps_resolverSentinel. intros [] _; by right. }
    destruct connection; [|by apply H]. intros u. exists RsOver. split; [done|]. by apply H.
  - exists (if connection then RsHeld else RsOver). split; [by destruct connection|].
    destruct connection; [apply lookupLoop_keeps|by right].
Qed.

Lemma Resolve_keeps resolver ctx aud raw now :
  rkeeps RsIdle (Resolve resolver ctx aud raw now) (fun _ => rs_over).
Proof.
  unfold Resolve. destruct resolver as [resolver|]; [|by left]. case_match; [by left|].
  case_match; [|by left]. case_match; [by left|].
  apply keeps_resolverSentinel. intros [c|] _; [by left|].
  eapply keeps_bind; [apply matching_keeps|]. intros [[|t ts]|e] q Hq; [done| |done]. by case_match.
Qed.

Lemma Identify_keeps resolver ctx aud dest raw new old now :
  rkeeps RsIdle (IdentifyRotationToken resolver ctx aud dest raw new old now) (fun _ => rs_over).
Proof.
  unfold IdentifyRotationToken. destruct resolver as [resolver|]; [|by left]. case_match; [by left|].
  apply keeps_resolverSentinel. intros [c|] _; [by left|].
  eapply keeps_bind; [apply matching_keeps|]. intros [[|t ts]|e] q Hq; [done| |done]. by repeat case_match.
Qed.

(** Over the pool, a connection that came with an error is destroyed at once. *)
Lemma keeps_resolverViaPool {A} q (p : prog RsE A) post : rkeeps q p post -> rkeeps q (resolverViaPool p) post.
Proof.
  revert q. induction p as [a|o k IH]; intros q H; [done|].
  assert (rkeeps q (bind (@call RsE o) (fun r => resolverViaPool (k r))) post) as Hcall.
  { intros r. destruct (H r) as (q' & Hs & Hk). eauto. }
  destruct o as [c a i|ctx|c a i v| | |c]; try exact Hcall. clear Hcall. simpl.
  destruct q; try (by destruct (H (true, None)) as (? & [=] & _)). intros [connection e].
  exists (if connection then (if is_err e then RsBroken else RsHeld) else RsOver). split; [done|].
  destruct e as [e|], connection; simpl;
    [intros u; exists RsOver; split; [done|]|..];
    (eapply IH; match goal with |- rkeeps _ (k ?r) _ => destruct (H r) as (q' & [= <-] & Hk) end; exact Hk).
Qed.

(** [p] keeps the protocol and gives its connection back. *)
Definition resolver_gives_back {A} (p : prog RsE A) : Prop :=
  forall tr a, runs p tr a -> exists q, proto_run rs_step RsIdle tr = Some q /\ rs_over q.

(** Resolution and identification keep the protocol of the connection,
    whatever the key source, the pool and the server answer: every key is
    obtained before the connection, one connection is acquired and given back
    exactly once, nothing is queried after a failed query, an interrupted or
    broken connection is destroyed and one with an ordinary failure is
    released. This holds for any acquire function and over the pool. *)
Theorem resolver_connections resolver ctx aud dest raw new old now :
  resolver_gives_back (Resolve resolver ctx aud raw now) /\
  resolver_gives_back (resolverViaPool (Resolve resolver ctx aud raw now)) /\
  resolver_gives_back (IdentifyRotationToken resolver ctx aud dest raw new old now) /\
  resolver_gives_back (resolverViaPool (IdentifyRotationToken resolver ctx aud dest raw new old now)).
Proof.
  split_and!; intros tr a Hr; (eapply (keeps_runs _ _ _ (fun _ => rs_over)); [|exact Hr]); try apply keeps_resolverViaPool;
    first [apply Resolve_keeps|apply Identify_keeps].
Qed.

(** * What a resolution means *)

Definition token_verifier (aud : GatewayAudienceID) (raw : OpaqueDestinationToken) (key : DestinationVerifierKey) : arr 32 :=
  HMAC_SHA256 key (verifierMessage aud raw).

(** The key of a candidate was obtained and is long enough. *)
Definition candidate_from (ctx : Ctx) (aud : GatewayAudienceID) (raw : OpaqueDestinationToken) (tr : trace RsE)
    (keyID : DestinationVerifierKeyID) (cand : destinationVerifierCandidate) : Prop :=
  exists key : DestinationVerifierKey, @ev RsE (RsKey ctx aud keyID) (Ok key) ∈ tr /\ (32 <= length key)%nat /\
    cand = mkCandidate keyID (Some (token_verifier aud raw key)).

(** What the lookup of one candidate found. *)
Definition found_for (ctx : Ctx) (aud : GatewayAudienceID) (tr : trace RsE) (cand : destinationVerifierCandidate)
    (f : option DestinationToken) : Prop :=
  let query := RsQuery ctx (formatUUID aud) (vc_keyID cand) (arr_list (verifier_Bytes (vc_verifier cand))) in
  match f with
  | None => @ev RsE query (Some (Err ErrNoRows)) ∈ tr
  | Some t => @ev RsE query (Some (Ok (match_row t))) ∈ tr /\ match_stored t /\ ts_AudienceID t = aud /\
      ts_VerifierKeyID t = vc_keyID cand /\ verifier_Bytes (ts_Verifier t) = verifier_Bytes (vc_verifier cand)
  end.

(** What the lookup of the raw token under one key found: its verifier was
    computed with that key, and either no row is stored under it or the only
    row stored under it is that of the valid token [t] of the audience. *)
Definition looked_up (ctx : Ctx) (aud : GatewayAudienceID) (raw : OpaqueDestinationToken) (tr : trace RsE)
    (keyID : DestinationVerifierKeyID) (f : option DestinationToken) : Prop :=
  exists key : DestinationVerifierKey, @ev RsE (RsKey ctx aud keyID) (Ok key) ∈ tr /\ (32 <= length key)%nat /\
    let v := token_verifier aud raw key in
    let query := RsQuery ctx (formatUUID aud) keyID (arr_list v) in
    match f with
    | None => @ev RsE query (Some (Err ErrNoRows)) ∈ tr
    | Some t => @ev RsE query (Some (Ok (match_row t))) ∈ tr /\ match_stored t /\ ts_AudienceID t = aud /\
        ts_VerifierKeyID t = keyID /\ ts_Verifier t = Some v
    end.

Definition resolver_kinds : list sentinel :=
  [ErrDestinationResolverIntegrity; ErrDestinationResolverUnavailable; Canceled; DeadlineExceeded].

Definition resolver_error (e : error) : Prop := exists k o, e = safeError k o /\ k ∈ resolver_kinds.

Lemma resolver_error_intro k o : k ∈ resolver_kinds -> resolver_error (safeError k o).
Proof. by exists k, o. Qed.

Lemma resolverSentinel_kind ctx e tr c : runs (destinationResolverContextSentinel ctx e) tr (Some c) -> c ∈ resolver_kinds.
Proof.
  unfold destinationResolverContextSentinel, resolver_kinds. intros H.
  destruct e as [e|].
  - destruct (singleCauseMatches e Canceled), (singleCauseMatches e DeadlineExceeded); destruct H as [_ H]; simplify_eq;
      by apply (bool_decide_eq_true_1 _).
  - runs_steps; simplify_eq; by apply (bool_decide_eq_true_1 _).
Qed.

Ltac resolver_err :=
  apply resolver_error_intro; first [by eapply resolverSentinel_kind | by apply (bool_decide_eq_true_1 _)].

Lemma candidateLoop_runs ctx aud raw keyIDs candidates unavailable tr r :
  runs (candidateLoop ctx aud raw keyIDs candidates unavailable) tr r ->
  match r with
  | Err e => resolver_error e
  | Ok (out, u) => u = true \/ u = unavailable /\
      exists new, out = candidates ++ new /\ Forall2 (candidate_from ctx aud raw tr) keyIDs new
  end.
Proof.
  revert candidates unavailable tr. induction keyIDs as [|k ks IH]; intros candidates unavailable tr; cbn [candidateLoop].
  - intros [-> ->]. right. split; [done|]. exists []. by rewrite app_nil_r.
  - intros (answer & t1 & -> & H). cbn [bind] in H. apply runs_bind in H as (t2 & t3 & c & -> & Hc & H).
    destruct c as [c|]; [destruct H as [_ ->]; resolver_err|].
    assert (forall out, runs (candidateLoop ctx aud raw ks out true) t3 r ->
      match r with Err e => resolver_error e | Ok (_, u) => u = true end) as Hbad.
    { intros out Hr. apply IH in Hr. by destruct r as [[? ?]|?]; [destruct Hr as [|[]]|]. }
    assert (match r with Err e => resolver_error e | Ok (_, u) => u = true end ->
      match r with
      | Err e => resolver_error e
      | Ok (out, u) => u = true \/ u = unavailable /\ exists new, out = candidates ++ new /\
          Forall2 (candidate_from ctx aud raw (ev (RsKey ctx aud k : op RsE) answer :: t2 ++ t3)) (k :: ks) new
      end) as Hw.
    { destruct r as [[? ?]|?]; auto. }
    destruct answer as [key|e]; [|by eapply Hw, Hbad].
    destruct (_ <? 32) eqn:Hlen; [by eapply Hw, Hbad|].
    destruct (ComputeDestinationTokenVerifier aud raw key) as [v|] eqn:Hv; [|by eapply Hw, Hbad].
    apply ComputeVerifier_ok in Hv as (_ & Hk & ->). apply IH in H. destruct r as [[out u]|]; [|done].
    destruct H as [H|(-> & new & -> & H)]; [by left|]. right. split; [done|].
    exists (mkCandidate k (Some (token_verifier aud raw key)) :: new). split; [by rewrite <- app_assoc|].
    constructor; [exists key; split; [apply list_elem_of_here|done]|].
    eapply Forall2_impl; [exact H|]. intros k' c' (key' & Hin & Hr'). exists key'. split; [|done].
    apply list_elem_of_further, elem_of_app. by right.
Qed.

Lemma found_for_weaken ctx aud tr tr' cand f :
  (forall e, e ∈ tr -> e ∈ tr') -> found_for ctx aud tr cand f -> found_for ctx aud tr' cand f.
Proof. unfold found_for. intros Hsub. destruct f; [|auto]. intros (? & ?). auto. Qed.

Lemma lookupLoop_runs ctx aud candidates matches bad tr r :
  runs (lookupLoop ctx aud candidates matches bad) tr r ->
  match r with
  | Err e => resolver_error e
  | Ok out => bad = false /\ (length out <= 1)%nat /\
      exists found, out = matches ++ omap id found /\ Forall2 (found_for ctx aud tr) candidates found
  end.
Proof.
  revert matches bad tr. induction candidates as [|c cs IH]; intros matches bad tr; cbn [lookupLoop]; intros H;
    apply runs_bind in H as (t1 & t2 & x & -> & Hx & H);
    (destruct x as [x|]; [destruct H as (u & ? & -> & [-> ->]); resolver_err|]).
  - destruct H as (u & t3 & -> & H). cbn [bind] in H.
    destruct (bad || _) eqn:Hbad; destruct H as [_ ->]; [resolver_err|].
    apply orb_false_iff in Hbad as [-> Hlen]. split; [done|]. split; [lia|].
    exists []. by rewrite app_nil_r.
  - destruct H as (row & t3 & -> & H). cbn [bind] in H.
    destruct row as [scanned|]; [|destruct H as (u & ? & -> & [-> ->]); resolver_err].
    apply runs_bind in H as (t4 & t5 & y & -> & Hy & H).
    destruct y as [y|]; [destruct H as (u & ? & -> & [-> ->]); resolver_err|].
    assert (forall f matches' bad', runs (lookupLoop ctx aud cs matches' bad') t5 r ->
      found_for ctx aud [ev (RsQuery ctx (formatUUID aud) (vc_keyID c) (arr_list (verifier_Bytes (vc_verifier c))) : op RsE)
        (Some scanned)] c f -> matches' = matches ++ option_list f -> (bad' = false -> bad = false) ->
      match r with
      | Err e => resolver_error e
      | Ok out => bad = false /\ (length out <= 1)%nat /\
          exists found, out = matches ++ omap id found /\ Forall2 (found_for ctx aud (t1 ++ ev (RsQuery ctx (formatUUID aud)
            (vc_keyID c) (arr_list (verifier_Bytes (vc_verifier c))) : op RsE) (Some scanned) :: t4 ++ t5)) (c :: cs) found
      end) as Hstep.
    { intros f m' b' Hr Hf -> Hb. apply IH in Hr. destruct r as [out|]; [|done].
      destruct Hr as (-> & Hlen & found & -> & Hfound). split; [auto|]. split; [done|].
      exists (f :: found). split; [destruct f; by rewrite <- app_assoc|].
      constructor.
      - eapply found_for_weaken; [|exact Hf]. intros e He%list_elem_of_singleton. subst.
        rewrite elem_of_app, elem_of_cons. auto.
      - eapply Forall2_impl; [exact Hfound|]. intros. eapply found_for_weaken; [|done].
        intros e He. rewrite elem_of_app, elem_of_cons, elem_of_app. auto. }
    destruct scanned as [record|e].
    + destruct (match_token record aud c) as [t|] eqn:Ht.
      * apply match_token_iff in Ht as (-> & Ht). eapply (Hstep (Some t)); [exact H| |done|done].
        split; [apply list_elem_of_here|done].
      * apply IH in H. destruct r; [|done]. by destruct H as [? _].
    + destruct (is_sentinel e ErrNoRows) eqn:He.
      * apply is_sentinel_true in He as ->. eapply (Hstep None); [exact H|apply list_elem_of_here| |done].
        by rewrite app_nil_r.
      * destruct (isConnectionInterruption e); destruct H as (u & ? & -> & [-> ->]); resolver_err.
Qed.

(** The tokens the lookups under all configured keys found; there is at most
    one. *)
Definition all_looked_up (resolver : Resolver) (ctx : Ctx) (aud : GatewayAudienceID) (raw : OpaqueDestinationToken)
    (tr : trace RsE) (tokens : list DestinationToken) : Prop :=
  exists found, Forall2 (looked_up ctx aud raw tr) (rv_keyIDs resolver) found /\ tokens = omap id found.

Lemma matching_runs resolver ctx aud raw tr r :
  runs (matchingDestinationTokens resolver ctx aud raw) tr r ->
  match r with
  | Err e => resolver_error e
  | Ok out => (length out <= 1)%nat /\ all_looked_up resolver ctx aud raw tr out
  end.
Proof.
  unfold matchingDestinationTokens, verifierCandidates. intros H.
  apply bind_assoc_runs, runs_bind in H as (t1 & t2 & computed & -> & Hc & H). apply candidateLoop_runs in Hc.
  destruct computed as [[candidates unavailable]|e]; [|by destruct H as [-> ->]].
  destruct (unavailable || _) eqn:Hu; [destruct H as [-> ->]; resolver_err|].
  apply orb_false_iff in Hu as [-> _]. destruct Hc as [[=]|(_ & cands & -> & Hc)].
  cbn [bind app] in H. destruct H as ([connection [e|]] & t3 & -> & H); cbn [bind] in H.
  - destruct connection; apply runs_bind in H as (t4 & t5 & u & -> & _ & H);
      apply runs_bind in H as (t6 & t7 & x & -> & Hx & H);
      destruct x as [x|]; destruct H as [_ ->]; resolver_err.
  - destruct connection; [|destruct H as [_ ->]; resolver_err].
    apply lookupLoop_runs in H. destruct r as [out|]; [|done].
    destruct H as (_ & Hlen & found & -> & Hf). split; [done|]. exists found. split; [|done].
    apply (Forall2_trans (candidate_from ctx aud raw t1) (found_for ctx aud t3) _ _ cands); [|done|done].
    intros keyID cand f (key & Hin & Hk & ->) Hfound. exists key.
    rewrite elem_of_app. split; [by left|]. split; [done|]. destruct f as [t|]; unfold found_for in Hfound; simpl in Hfound.
    + destruct Hfound as (Hq & Hs & Ha & Hkid & Hv). split; [rewrite elem_of_app, elem_of_cons; auto|].
      split; [done|]. split; [done|]. split; [done|].
      destruct Hs as [([_ _ (_ & [v Hsome] & _) _ _ _ _] & _) _]. rewrite Hsome in *. simpl in Hv. by subst.
    + rewrite elem_of_app, elem_of_cons. auto.
Qed.

(** What [Resolve] and [IdentifyRotationToken] return for the tokens found. *)
Definition resolved (tokens : list DestinationToken) (now : Time) : result DestinationID :=
  match tokens with
  | t :: _ => if token_UsableAt t now then Ok (dst_id (ts_Destination t)) else Err ErrDestinationNotFound
  | [] => Err ErrDestinationNotFound
  end.

Definition identified (tokens : list DestinationToken) (dest : DestinationID) (new old : DestinationTokenRecordID)
  : DestinationTokenRotationTokenIdentity :=
  match tokens with
  | t :: _ =>
      if dst_id (ts_Destination t) <>?? dest then DestinationTokenRotationTokenNeither
      else if ts_RecordID t =?? new then DestinationTokenRotationTokenNew
      else if ts_RecordID t =?? old then DestinationTokenRotationTokenOld
      else DestinationTokenRotationTokenNeither
  | [] => DestinationTokenRotationTokenNeither
  end.

Lemma all_looked_up_weaken resolver ctx aud raw tr tr' tokens :
  (forall e, e ∈ tr -> e ∈ tr') ->
  all_looked_up resolver ctx aud raw tr tokens -> all_looked_up resolver ctx aud raw tr' tokens.
Proof.
  intros Hsub (found & Hf & ->). exists found. split; [|done]. eapply Forall2_impl; [exact Hf|].
  intros k f (key & Hin & Hk & Hv). exists key. split; [auto|]. split; [done|].
  destruct f; [destruct Hv as [? ?]|]; auto.
Qed.

(** The part the two operations share: a check of the context, the lookups,
    and a result [out] computed from the tokens found. *)
Lemma lookup_runs {A} resolver ctx aud raw o (out : list DestinationToken -> result A) tr r :
  runs (let! cancellation := destinationResolverContextSentinel ctx None in
        match cancellation with
        | Some c => Ret (Err (safeError c o))
        | None =>
          let! matched := matchingDestinationTokens resolver ctx aud raw in
          Ret (match matched with Err e => Err e | Ok tokens => out tokens end)
        end) tr r ->
  (exists e, r = Err e /\ resolver_error e) \/
  exists tokens, (length tokens <= 1)%nat /\ all_looked_up resolver ctx aud raw tr tokens /\ r = out tokens.
Proof.
  intros H. apply runs_bind in H as (t1 & t2 & x & -> & Hx & H).
  destruct x as [x|]; [destruct H as [_ ->]; left; eexists; split; [done|]; resolver_err|].
  apply runs_bind in H as (t3 & t4 & matched & -> & Hm & [-> ->]). apply matching_runs in Hm.
  destruct matched as [tokens|e]; [|eauto]. destruct Hm as [Hlen Hall].
  right. exists tokens. split; [done|]. split; [|done].
  eapply all_looked_up_weaken; [|exact Hall]. intros e. rewrite !elem_of_app. auto.
Qed.

(** Programs that differ in where they return. *)
Lemma runs_ext {E : sig} {A B} (p : prog E A) (f g : A -> prog E B) tr b :
  (forall a tr b, runs (f a) tr b -> runs (g a) tr b) -> runs (bind p f) tr b -> runs (bind p g) tr b.
Proof. intros Hfg H. apply runs_bind in H as (t1 & t2 & a & -> & H1 & H2). apply runs_bind. eauto 10. Qed.

Lemma Resolve_runs resolver ctx aud raw now tr r :
  runs (Resolve (Some resolver) ctx aud raw now) tr r ->
  (exists e, r = Err e /\ resolver_error e) \/
  exists tokens, (length tokens <= 1)%nat /\ all_looked_up resolver ctx aud raw tr tokens /\ r = resolved tokens now.
Proof.
  unfold Resolve. intros H.
  assert (forall o, resolver_error (safeError ErrDestinationResolverIntegrity o)) as Hinv by (intros; resolver_err).
  destruct (_ || _); [destruct H as [_ ->]; eauto|].
  destruct (ParseGatewayAudienceID _); [|destruct H as [_ ->]; eauto].
  destruct (_ <>?? _); [destruct H as [_ ->]; eauto|].
  apply (lookup_runs _ _ _ _ "destination resolution canceled" (fun tokens => resolved tokens now)).
  eapply runs_ext; [|exact H]. intros [c|] tr' b H'; [done|]. eapply runs_ext; [|exact H'].
  intros [[|t ts]|e] tr'' b' H''; [done| |done]. unfold resolved. by destruct (token_UsableAt t now).
Qed.

Lemma looked_up_audience resolver ctx aud raw tr tokens :
  all_looked_up resolver ctx aud raw tr tokens -> Forall (fun t => ts_AudienceID t = aud) tokens.
Proof.
  intros (found & Hf & ->). apply Forall_forall. intros t (f & Hin & Hft)%list_elem_of_omap. unfold id in Hft. subst f.
  apply list_elem_of_lookup_1 in Hin as [i Hi]. eapply Forall2_lookup_r in Hf as (k & _ & key & _ & _ & Hv); [|exact Hi].
  by destruct Hv as (_ & _ & ? & _).
Qed.

Lemma Identify_runs resolver ctx aud dest raw new old now tr r :
  runs (IdentifyRotationToken (Some resolver) ctx aud dest raw new old now) tr r ->
  (exists e, r = Err e /\ resolver_error e) \/
  exists tokens, (length tokens <= 1)%nat /\ all_looked_up resolver ctx aud raw tr tokens /\
    r = Ok (identified tokens dest new old).
Proof.
  unfold IdentifyRotationToken. intros H.
  destruct (_ || _); [destruct H as [_ ->]; left; eexists; split; [done|resolver_err]|].
  edestruct (lookup_runs resolver ctx aud raw "rotation token identification canceled" (fun tokens =>
    match tokens with
    | t :: _ => if ts_AudienceID t <>?? aud then Ok DestinationTokenRotationTokenNeither
                else Ok (identified tokens dest new old)
    | [] => Ok DestinationTokenRotationTokenNeither
    end)) as [He|(tokens & Hlen & Hall & ->)].
  - eapply runs_ext; [|exact H]. intros [c|] tr' b H'; [done|]. eapply runs_ext; [|exact H'].
    intros [[|t ts]|e] tr'' b' H''; [done| |done]. unfold identified.
    destruct (_ <>?? aud); [done|]. cbn [orb] in H''.
    destruct (_ <>?? dest); [done|]. destruct (_ =?? new); [done|]. by destruct (_ =?? old).
  - by left.
  - right. exists tokens. split; [done|]. split; [done|]. destruct tokens as [|t ts]; [done|].
    apply looked_up_audience in Hall as Ha. inversion Ha. by rewrite bool_decide_eq_true_2.
Qed.

(** (C25) A resolution answers what the lookups justify. Whatever the key
    source, the pool and the server answer, [Resolve] and
    [IdentifyRotationToken] fail with one of four fixed errors, or every
    configured key was obtained and has at least 32 bytes, the HMAC verifier
    of the raw token was looked up under each of them, and at most one lookup
    found a row, which is that of a valid token of the audience stored under
    exactly that verifier and key. Then [Resolve] returns the destination of
    that token if it is usable at [now] and is not found otherwise, and
    [IdentifyRotationToken] says which record of the rotation it is. *)
Theorem resolver_decides resolver ctx aud dest raw new old now tr :
  (forall r, runs (Resolve (Some resolver) ctx aud raw now) tr r ->
   (exists e, r = Err e /\ resolver_error e) \/
   exists tokens, (length tokens <= 1)%nat /\ all_looked_up resolver ctx aud raw tr tokens /\ r = resolved tokens now) /\
  (forall r, runs (IdentifyRotationToken (Some resolver) ctx aud dest raw new old now) tr r ->
   (exists e, r = Err e /\ resolver_error e) \/
   exists tokens, (length tokens <= 1)%nat /\ all_looked_up resolver ctx aud raw tr tokens /\
     r = Ok (identified tokens dest new old)).
Proof. split; intros r H; [by apply Resolve_runs|by eapply Identify_runs]. Qed.
