(* ===== verification/ResolverStore.v ===== *)
(** The resolver of Resolver.v over the token table that the lifecycle of
    LifecycleStore.v maintains: which raw tokens resolve to a destination in
    each phase of its life. *)

From Stdlib Require Import ZifyBool.
From S2P Require Import Prelude Effects GoErrors GoTime Encoding Uuid Sha256 PgTypes SecurityTypes TokenRows.
From S2P Require Import TokenSchema Lifecycle LifecycleRepo LifecycleSpec LifecycleStore Resolver.

Abbreviation destination_table := (gmap bytes lifecycleDestinationRecord).

(** The [where] clause of [selectDestinationTokenSQL]. *)
Definition selected (aud keyID verifier : bytes) (r : lifecycleTokenRecord) : Prop :=
  ltr_audienceText r = aud /\ ltr_keyIDText r = keyID /\ ltr_verifierBytes r = verifier.

#[export] Instance selected_dec aud keyID verifier r : Decision (selected aud keyID verifier r).
Proof. unfold selected. apply _. Defined.

Definition select (T : token_table) (aud keyID verifier : bytes) : list lifecycleTokenRecord :=
  filter (selected aud keyID verifier) (map_to_list T).*2.

(** The row the query returns for a selected row: the number of selected rows
    and the left join with the destinations. *)
Definition joined (T : token_table) (D : destination_table) (aud keyID verifier : bytes) (r : lifecycleTokenRecord)
  : destinationTokenRecord :=
  join_row (Z.of_nat (length (select T aud keyID verifier))) r (D !! ltr_destinationText r).

(** What the key source and the database may answer: a key is the one of its
    id, a row is one of the selected ones, and no row is reported only when
    none is selected. Every call may fail. *)
Definition served_by (K : DestinationVerifierKeyID -> DestinationVerifierKey) (T : token_table) (D : destination_table)
    (e : event RsE) : Prop :=
  match e with
  | existT (RsKey _ _ keyID) answer => match answer with Ok key => key = K keyID | Err _ => True end
  | existT (RsQuery _ aud keyID v) row =>
      match row with
      | None => True
      | Some (Err e) => is_sentinel e ErrNoRows = true -> select T aud keyID v = []
      | Some (Ok row) => exists r, r ∈ select T aud keyID v /\ row = joined T D aud keyID v r
      end
  | _ => True
  end.

(** The raw token is the one of the stored token [t] under a key. *)
Definition presents (K : DestinationVerifierKeyID -> DestinationVerifierKey) (aud : GatewayAudienceID)
    (raw : OpaqueDestinationToken) (keyID : DestinationVerifierKeyID) (t : DestinationToken) : Prop :=
  ts_VerifierKeyID t = keyID /\ ts_Verifier t = Some (token_verifier aud raw (K keyID)).

(** The tokens of a phase that requests may present. *)
Definition phase_presentable (ph : phase) : list DestinationToken :=
  option_list (phase_active ph) ++ option_list (phase_retiring ph).

(** * Rows determine tokens *)

Lemma row_of_token_stored_inj t t' :
  token_stored t -> token_stored t' -> ts_AudienceID t = ts_AudienceID t' -> ts_Destination t = ts_Destination t' ->
  row_of_token t = row_of_token t' -> t = t'.
Proof.
  intros Ht Ht' Ha Hd E.
  assert (record_token (row_of_token t) (ts_AudienceID t) (ts_Destination t) = Ok t) as H1 by (by apply record_token_iff).
  assert (record_token (row_of_token t) (ts_AudienceID t) (ts_Destination t) = Ok t') as H2.
  { apply record_token_iff. by rewrite Ha, Hd. }
  congruence.
Qed.

Lemma row_of_destination_inj d d' :
  destination_ok d -> destination_ok d' -> row_of_destination d = row_of_destination d' -> d = d'.
Proof.
  intros Hd Hd'. destruct d as [a i s c m], d' as [a' i' s' c' m']. unfold row_of_destination. simpl.
  intros [= Hi%formatUUID_inj Ha%formatUUID_inj Hs -> ->]. subst. f_equal.
  destruct Hd as (_ & _ & Hd & _), Hd' as (_ & _ & Hd' & _). simpl in Hd, Hd'.
  by destruct Hd as [-> | ->], Hd' as [-> | ->].
Qed.

Lemma join_row_inj n r d n' r' d' :
  join_row n r d = join_row n' r' (Some d') -> n = n' /\ r = r' /\ d = Some d'.
Proof.
  unfold join_row. destruct r, r'. simpl. intros [= -> -> -> -> -> -> -> -> -> -> -> -> -> -> -> E1 E2 E3 E4 E5 E6 E7].
  split; [done|]. split; [done|]. destruct d as [d|]; [|done]. destruct d, d'. simpl in *. by simplify_eq.
Qed.

Lemma select_elem T aud keyID v r :
  r ∈ select T aud keyID v <-> selected aud keyID v r /\ exists k, T !! k = Some r.
Proof.
  unfold select. rewrite list_elem_of_filter, list_elem_of_fmap. split; intros [Hl H]; (split; [done|]).
  - destruct H as ([k r'] & -> & H). exists k. by apply elem_of_map_to_list in H.
  - destruct H as [k H]. exists (k, r). split; [done|]. by apply elem_of_map_to_list.
Qed.

(** A found row is the only row stored under the verifier, and it is joined
    with the row of its destination. *)
Lemma found_unique T D aud keyID v t r :
  r ∈ select T aud keyID v -> match_row t = joined T D aud keyID v r ->
  select T aud keyID v = [row_of_token t] /\
  D !! formatUUID (dst_id (ts_Destination t)) = Some (row_of_destination (ts_Destination t)).
Proof.
  intros Hin E. symmetry in E. apply join_row_inj in E as (Hn & -> & Hd). split; [|exact Hd].
  destruct (select T aud keyID v) as [|r0 [|r1 l]]; simpl in *; [lia| |lia].
  apply list_elem_of_singleton in Hin. by subst.
Qed.

Lemma usable_state t now :
  token_UsableAt t now = true -> ts_State t = DestinationTokenActive \/ ts_State t = DestinationTokenRetiring.
Proof. unfold token_UsableAt, DestinationTokenActive, DestinationTokenRetiring. destruct (_ || _) eqn:E; [done|]. lia. Qed.

Ltac in_list := first [by apply list_elem_of_here | by apply list_elem_of_further, list_elem_of_here].

Lemma presentable_in ph t : t ∈ phase_presentable ph -> t ∈ phase_tokens ph.
Proof.
  destruct ph; unfold phase_presentable; simpl; intros Hin; decompose_list_elem_of; subst; in_list.
Qed.

(** A live token in the active or the retiring state is presentable. *)
Lemma presentable_state d ph t :
  phase_ok d ph -> t ∈ phase_tokens ph ->
  ts_State t = DestinationTokenActive \/ ts_State t = DestinationTokenRetiring -> t ∈ phase_presentable ph.
Proof.
  unfold phase_presentable, DestinationTokenActive, DestinationTokenRetiring.
  destruct ph; simpl; intros Hok Hin Hst; unfold token_in, DestinationTokenStaged in Hok;
    decompose_list_elem_of; subst; decompose [and] Hok; try lia; in_list.
Qed.

(** * Resolution in a phase *)

Section Follows.
Context (K : DestinationVerifierKeyID -> DestinationVerifierKey) (T : token_table) (D : destination_table).
Context (resolver : Resolver) (ctx : Ctx) (raw : OpaqueDestinationToken) (d : Destination) (ph : phase) (tr : trace RsE).
Hypothesis (Hserved : Forall (served_by K T D) tr).
Hypothesis (Hstored : D !! formatUUID (dst_id d) = Some (row_of_destination d)).
Hypothesis (Hdestination : destination_ok d).
Hypothesis (Hphase : in_phase T d ph).

Let aud := dst_audienceID d.

Lemma served e : e ∈ tr -> served_by K T D e.
Proof. rewrite Forall_forall in Hserved. apply Hserved. Qed.

Lemma served_key c a keyID (key : DestinationVerifierKey) : @ev RsE (RsKey c a keyID) (Ok key) ∈ tr -> key = K keyID.
Proof. apply served. Qed.

Lemma served_row c a keyID v row :
  @ev RsE (RsQuery c a keyID v) (Some (Ok row)) ∈ tr ->
  exists r, r ∈ select T a keyID v /\ row = joined T D a keyID v r.
Proof. apply served. Qed.

Lemma served_none c a keyID v : @ev RsE (RsQuery c a keyID v) (Some (Err ErrNoRows)) ∈ tr -> select T a keyID v = [].
Proof. intros H. by apply served in H; apply H. Qed.

(** A found token of the destination that may be usable is a presentable token
    of its phase. *)
Lemma found_in_phase keyID t :
  looked_up ctx aud raw tr keyID (Some t) -> dst_id (ts_Destination t) = dst_id d ->
  ts_State t = DestinationTokenActive \/ ts_State t = DestinationTokenRetiring ->
  t ∈ phase_presentable ph /\ presents K aud raw keyID t.
Proof.
  intros (key & Hkey & _ & Hq & (Hst & Hdok & _) & Ha & Hk & Hv) Hid Hstate. cbv zeta in *.
  apply served_key in Hkey as ->. apply served_row in Hq as (r & Hin & E).
  destruct (found_unique _ _ _ _ _ _ _ Hin E) as [Hsel HD]. rewrite Hid, Hstored in HD.
  assert (ts_Destination t = d) as Hd by (symmetry; apply row_of_destination_inj; [done|done|congruence]).
  split; [|done]. rewrite Hsel in Hin. apply list_elem_of_singleton in Hin as ->.
  assert (row_of_token t ∈ select T (formatUUID aud) keyID (arr_list (token_verifier aud raw (K keyID)))) as Hin
    by (rewrite Hsel; apply list_elem_of_here).
  apply select_elem in Hin as [_ HT]. destruct Hphase as (Hok & Hall & Hperm).
  assert (row_of_token t ∈ live T (formatUUID (dst_id d))) as Hlive.
  { apply live_elem. split; [|done]. split; [simpl; by rewrite Hd|]. simpl. by destruct Hstate as [-> | ->]. }
  rewrite Hperm in Hlive. apply list_elem_of_fmap in Hlive as (t' & E' & Ht').
  rewrite Forall_forall in Hall. destruct (phase_tokens_in d ph t' Hok Ht') as (st & (Ha' & Hd' & _) & _).
  assert (t = t') as -> by (apply row_of_token_stored_inj; [done|auto|by rewrite Ha, Ha'|by rewrite Hd, Hd'|done]).
  by eapply presentable_state.
Qed.

(** A presentable token whose raw value is looked up is found. *)
Lemma phase_found keyID t f :
  t ∈ phase_presentable ph -> presents K aud raw keyID t -> looked_up ctx aud raw tr keyID f -> f = Some t.
Proof.
  intros Hp [Hk Hv] (key & Hkey & _ & Hf). cbv zeta in Hf. apply served_key in Hkey as ->.
  destruct Hphase as (Hok & Hall & Hperm). pose proof (presentable_in _ _ Hp) as Ht.
  destruct (phase_tokens_in d ph t Hok Ht) as (st & (Ha & Hd & _) & _).
  assert (row_of_token t ∈ select T (formatUUID aud) keyID (arr_list (token_verifier aud raw (K keyID)))) as Hin.
  { apply select_elem. split; [unfold selected; simpl; by rewrite Ha, Hk, Hv|].
    assert (row_of_token t ∈ live T (formatUUID (dst_id d))) as Hl by (rewrite Hperm; apply list_elem_of_fmap; eauto).
    by apply live_elem in Hl as [_ ?]. }
  destruct f as [t'|].
  - destruct Hf as (Hq & (Hst & Hdok & _) & Ha' & _). apply served_row in Hq as (r & Hr & E).
    destruct (found_unique _ _ _ _ _ _ _ Hr E) as [Hsel HD]. rewrite Hsel in Hin.
    apply list_elem_of_singleton in Hin. f_equal. symmetry.
    assert (dst_id (ts_Destination t) = dst_id (ts_Destination t')) as Hid.
    { apply formatUUID_inj. by apply (f_equal ltr_destinationText) in Hin. }
    rewrite <- Hid, Hd, Hstored in HD.
    assert (ts_Destination t' = d) as Hd' by (symmetry; apply row_of_destination_inj; [done|done|congruence]).
    rewrite Forall_forall in Hall. apply row_of_token_stored_inj; [auto|done|by rewrite Ha, Ha'|by rewrite Hd, Hd'|done].
  - apply served_none in Hf. rewrite Hf in Hin. by apply elem_of_nil in Hin.
Qed.

Lemma resolve_in_phase now r :
  runs (Resolve (Some resolver) ctx aud raw now) tr r ->
  (r = Ok (dst_id d) ->
   exists t keyID, t ∈ phase_presentable ph /\ keyID ∈ rv_keyIDs resolver /\ presents K aud raw keyID t /\
     token_UsableAt t now = true) /\
  (r = Err ErrDestinationNotFound ->
   forall t keyID, t ∈ phase_presentable ph -> keyID ∈ rv_keyIDs resolver -> presents K aud raw keyID t ->
     token_UsableAt t now = false).
Proof.
  intros H. apply Resolve_runs in H as [(e & -> & k & o & -> & _)|(tokens & Hlen & (found & Hf & E) & ->)]; [done|].
  split.
  - unfold resolved. destruct tokens as [|t l]; [done|]. destruct (token_UsableAt t now) eqn:Hu; [|done].
    intros [= Hid]. assert (Some t ∈ found) as Hin.
    { assert (t ∈ omap id found) as Hin by (rewrite <- E; apply list_elem_of_here).
      apply list_elem_of_omap in Hin as (f & Hin & Hft). unfold id in Hft. by subst f. }
    apply list_elem_of_lookup in Hin as [i Hi]. eapply Forall2_lookup_r in Hf as (keyID & Hki & Hl); [|exact Hi].
    destruct (found_in_phase keyID t Hl Hid (usable_state _ _ Hu)). exists t, keyID.
    split; [done|]. split; [by eapply list_elem_of_lookup_2|done].
  - intros Hnf t keyID Hp Hk Hpres. apply list_elem_of_lookup in Hk as [i Hi].
    eapply Forall2_lookup_l in Hf as (f & Hfi & Hl); [|exact Hi].
    apply (phase_found _ t) in Hl as ->; [|done|done].
    assert (t ∈ tokens) as Hin.
    { rewrite E. apply list_elem_of_omap. exists (Some t). split; [by eapply list_elem_of_lookup_2|done]. }
    destruct tokens as [|t0 [|]]; [by apply elem_of_nil in Hin| |simpl in Hlen; lia].
    apply list_elem_of_singleton in Hin. subst t0. simpl in Hnf. by destruct (token_UsableAt t now).
Qed.
End Follows.

(** (C10) Resolution follows the lifecycle. Against the tables in which the
    destination is in phase [ph], whatever fails, a resolution returns the
    destination only for the raw value of its active or its retiring token,
    under a configured key, while that token is usable, and reports that there
    is no destination only if no such token has this raw value: a staged or
    revoked token never resolves, and both tokens of a rotation do. *)
Theorem resolution_follows_lifecycle K T D resolver ctx raw d ph tr now r
    (Hserved : Forall (served_by K T D) tr)
    (Hstored : D !! formatUUID (dst_id d) = Some (row_of_destination d))
    (Hdestination : destination_ok d) (Hphase : in_phase T d ph)
    (Hrun : runs (Resolve (Some resolver) ctx (dst_audienceID d) raw now) tr r) :
  (r = Ok (dst_id d) ->
   exists t keyID, t ∈ phase_presentable ph /\ keyID ∈ rv_keyIDs resolver /\
     presents K (dst_audienceID d) raw keyID t /\ token_UsableAt t now = true) /\
  (r = Err ErrDestinationNotFound ->
   forall t keyID, t ∈ phase_presentable ph -> keyID ∈ rv_keyIDs resolver ->
     presents K (dst_audienceID d) raw keyID t -> token_UsableAt t now = false).
Proof. by eapply resolve_in_phase. Qed.

(** * A server that answers *)

Definition resolver_server (K : DestinationVerifierKeyID -> DestinationVerifierKey) (T : token_table)
    (D : destination_table) (o : rs_op) (u : unit) : ans RsE o * unit :=
  (match o return ans RsE o with
   | RsKey _ _ keyID => Ok (K keyID)
   | RsAcquire _ => (true, None)
   | RsQuery _ aud keyID v =>
       match select T aud keyID v with
       | [] => Some (Err ErrNoRows)
       | r :: _ => Some (Ok (joined T D aud keyID v r))
       end
   | RsRelease | RsDestroy => tt
   | RsCtxErr _ => None
   end, tt).

Lemma server_served K T D {A} (p : prog RsE A) :
  Forall (served_by K T D) (run_trace (E := RsE) (resolver_server K T D) p tt).
Proof.
  induction p as [a|o k IH]; [constructor|]. cbn [run_trace].
  destruct (resolver_server K T D o tt) as [r []] eqn:E. constructor; [|apply IH].
  unfold resolver_server in E. destruct o; simplify_eq; try done. unfold served_by, ev.
  destruct (select T audience keyID verifier) as [|r l] eqn:Es; [done|]. exists r. split; [apply list_elem_of_here|done].
Qed.

(** The key ids of a resolver are one or two distinct texts. *)
Lemma configureKeys_ok keyIDs configured out :
  configureKeys configured keyIDs = Ok out -> NoDup configured -> out = configured ++ keyIDs /\ NoDup out.
Proof.
  revert configured. induction keyIDs as [|k ks IH]; intros configured; cbn [configureKeys].
  - intros [= <-] Hnd. by rewrite app_nil_r.
  - destruct (NewDestinationVerifierKeyID k) as [p|]; [|done]. destruct (_ || _) eqn:E; [done|]. intros H Hnd.
    apply orb_false_iff in E as [_ E].
    apply IH in H as [-> H]; [by rewrite <- app_assoc in *|]. apply NoDup_app. split; [done|].
    split; [|apply NoDup_singleton]. intros x Hx ->%list_elem_of_singleton.
    apply not_true_iff_false in E. apply E, existsb_exists. exists k. split; [by apply list_elem_of_In|].
    by apply bool_decide_eq_true.
Qed.

Lemma newResolver_ok acquire_nil keySource_nil keyIDs resolver :
  newOpaqueDestinationResolver acquire_nil keySource_nil keyIDs = Ok resolver ->
  resolver = mkResolver false false keyIDs /\ NoDup keyIDs /\ (1 <= length keyIDs <= 2)%nat.
Proof.
  unfold newOpaqueDestinationResolver. destruct (_ || _) eqn:G; [done|].
  rewrite !orb_false_iff in G. destruct G as [[[-> ->] G1] G2].
  destruct (configureKeys [] keyIDs) as [out|] eqn:E; [|done]. intros [= <-].
  apply configureKeys_ok in E as [-> Hnd]; [|constructor]. split; [done|]. split; [done|]. lia.
Qed.

Section Serves.
Context (K : DestinationVerifierKeyID -> DestinationVerifierKey) (T : token_table) (D : destination_table).
Context (ctx : Ctx) (aud : GatewayAudienceID) (raw : OpaqueDestinationToken).
Context (found : DestinationVerifierKeyID -> option DestinationToken).

Abbreviation srun := (run (E := RsE) (resolver_server K T D)).

Lemma server_sentinel : srun (destinationResolverContextSentinel ctx None) tt = (None, tt).
Proof. unfold destinationResolverContextSentinel. by destruct (ctx_is_nil ctx). Qed.

Definition candidate_of (keyID : DestinationVerifierKeyID) : destinationVerifierCandidate :=
  mkCandidate keyID (Some (token_verifier aud raw (K keyID))).

Lemma server_candidates keyIDs candidates :
  aud <> zero_arr 16 -> Forall (fun k => (32 <= length (K k))%nat) keyIDs ->
  srun (candidateLoop ctx aud raw keyIDs candidates false) tt = (Ok (candidates ++ map candidate_of keyIDs, false), tt).
Proof.
  intros Ha Hk. revert candidates. induction Hk as [|k ks Hk Hks IH]; intros candidates; cbn [candidateLoop map].
  - by rewrite app_nil_r.
  - rewrite !run_bind. cbn [call run resolver_server]. rewrite run_bind, server_sentinel.
    assert ((Z.of_nat (length (K k)) <? 32) = false) as -> by lia.
    assert (ComputeDestinationTokenVerifier aud raw (K k) = Ok (Some (token_verifier aud raw (K k)))) as ->
      by (by apply ComputeVerifier_ok).
    rewrite IH. by rewrite <- app_assoc.
Qed.

(** What is stored under the verifiers of the raw token. *)
Definition stored_under (keyID : DestinationVerifierKeyID) : Prop :=
  let rows := select T (formatUUID aud) keyID (arr_list (token_verifier aud raw (K keyID))) in
  match found keyID with
  | None => rows = []
  | Some t => rows = [row_of_token t] /\ match_stored t /\ ts_AudienceID t = aud /\ presents K aud raw keyID t /\
      D !! formatUUID (dst_id (ts_Destination t)) = Some (row_of_destination (ts_Destination t))
  end.

Lemma server_lookups keyIDs matches :
  Forall stored_under keyIDs -> (length (matches ++ omap found keyIDs) <= 1)%nat ->
  srun (lookupLoop ctx aud (map candidate_of keyIDs) matches false) tt = (Ok (matches ++ omap found keyIDs), tt).
Proof.
  intros Hs. revert matches. induction Hs as [|k ks Hk Hks IH]; intros matches Hlen; cbn [map lookupLoop];
    rewrite run_bind, server_sentinel.
  - simpl in *. rewrite app_nil_r in *. assert ((1 <? length matches)%nat = false) as -> by lia. done.
  - unfold stored_under in Hk. cbv zeta in Hk. rewrite run_bind. cbn [call run resolver_server candidate_of vc_keyID].
    change (verifier_Bytes (vc_verifier _)) with (token_verifier aud raw (K k)).
    cbn [omap list_omap] in Hlen |- *. destruct (found k) as [t|].
    + destruct Hk as (Hsel & Hst & Ha & [Hkid Hv] & HD).
      assert (joined T D (formatUUID aud) k (arr_list (token_verifier aud raw (K k))) (row_of_token t) = match_row t) as E.
      { unfold joined, match_row. rewrite Hsel. cbn [row_of_token ltr_destinationText]. by rewrite HD. }
      rewrite Hsel, E, run_bind, server_sentinel.
      assert (match_token (match_row t) aud (candidate_of k) = Ok t) as Hm.
      { apply match_token_iff. split; [done|]. split; [done|]. split; [done|]. split; [done|]. by rewrite Hv. }
      rewrite Hm, IH, <- app_assoc; [done|]. by rewrite <- app_assoc.
    + rewrite Hk, run_bind.
      assert (srun (destinationResolverContextSentinel ctx (Some (Sentinel ErrNoRows))) tt = (None, tt)) as -> by done.
      cbn [is_sentinel]. rewrite bool_decide_eq_true_2 by done. by apply IH.
Qed.
End Serves.

(** The unique constraint on the verifiers of an audience. *)
Definition verifier_unique (T : token_table) : Prop :=
  NoDup (map (fun r => (ltr_audienceText r, ltr_keyIDText r, ltr_verifierBytes r)) (map_to_list T).*2).

Lemma filter_key_unique {A B} (f : A -> B) (P : A -> Prop) `{!forall x, Decision (P x)} (l : list A) x y :
  NoDup (map f l) -> (forall a, P a -> f a = y) -> x ∈ l -> P x -> filter P l = [x].
Proof.
  induction l as [|a l IH]; intros Hnd Hf Hin Hx; [by apply elem_of_nil in Hin|]. cbn [map] in Hnd.
  apply NoDup_cons in Hnd as [Hni Hnd]. rewrite filter_cons. apply elem_of_cons in Hin as [<-|Hin].
  - rewrite decide_True by done. f_equal. clear IH. induction l as [|b l IH]; [done|]. rewrite filter_cons.
    cbn [map] in Hni. rewrite not_elem_of_cons in Hni. destruct Hni as [Hne Hni]. rewrite decide_False.
    + apply NoDup_cons in Hnd as [_ Hnd]. by apply IH.
    + intros Hb. apply Hne. rewrite (Hf _ Hb). by apply Hf.
  - rewrite decide_False; [by apply IH|]. intros Ha. apply Hni. rewrite (Hf _ Ha), <- (Hf _ Hx).
    by apply list_elem_of_fmap_2.
Qed.

Lemma select_unique T aud keyID v r :
  verifier_unique T -> r ∈ select T aud keyID v -> select T aud keyID v = [r].
Proof.
  intros Hu [Hs Hin]%list_elem_of_filter.
  by apply (filter_key_unique _ _ _ _ (aud, keyID, v) Hu); [intros ? (-> & -> & ->)| |].
Qed.

Lemma omap_one {A B} (f : A -> option B) (l : list A) (x : A) (y : B) :
  NoDup l -> x ∈ l -> f x = Some y -> (forall z, z ∈ l -> z <> x -> f z = None) -> omap f l = [y].
Proof.
  intros Hnd Hin Hx Hz. assert (forall k, k ⊆ l -> x ∉ k -> omap f k = []) as Hnone.
  { induction k as [|z k IH]; intros Hsub Hni; [done|]. cbn [omap list_omap]. rewrite not_elem_of_cons in Hni.
    rewrite Hz, IH; [done| |tauto| |]; [|apply Hsub, list_elem_of_here|intros ->; tauto].
    intros w Hw. by apply Hsub, list_elem_of_further. }
  induction Hnd as [|z k Hni Hnd IH]; [by apply elem_of_nil in Hin|]. cbn [omap list_omap].
  apply elem_of_cons in Hin as [->|Hin].
  - rewrite Hx, Hnone; [done|set_solver|done].
  - rewrite Hz; [|apply list_elem_of_here|by intros ->]. apply IH; [done| |].
    + intros w Hw. apply Hz. by apply list_elem_of_further.
    + intros w Hw. apply Hnone. set_solver.
Qed.

(** (C19) A usable token resolves. When the keys, the pool and the database
    answer, the raw value of the active or retiring token of a destination
    resolves to that destination at every instant at which the token is
    usable, under any configuration of one or two keys that contains its key
    and in which the other key's verifier of the raw value is not stored. *)
Theorem usable_token_resolves K T D keyIDs resolver ctx raw d ph t now
    (Hnew : newOpaqueDestinationResolver false false keyIDs = Ok resolver)
    (Hkeys : Forall (fun k => (32 <= length (K k))%nat) keyIDs)
    (Hctx : ctx_is_nil ctx = false) (Hnow : now <> 0)
    (Hstored : D !! formatUUID (dst_id d) = Some (row_of_destination d))
    (Hdestination : destination_ok d /\ dst_stateChangedAt d <> 0)
    (Hphase : in_phase T d ph) (Hunique : verifier_unique T)
    (Htoken : t ∈ phase_presentable ph) (Hkey : ts_VerifierKeyID t ∈ keyIDs)
    (Hraw : presents K (dst_audienceID d) raw (ts_VerifierKeyID t) t)
    (Hother : forall k, k ∈ keyIDs -> k <> ts_VerifierKeyID t ->
      select T (formatUUID (dst_audienceID d)) k (arr_list (token_verifier (dst_audienceID d) raw (K k))) = [])
    (Husable : token_UsableAt t now = true) :
  (run (E := RsE) (resolver_server K T D) (Resolve (Some resolver) ctx (dst_audienceID d) raw now) tt).1 = Ok (dst_id d).
Proof.
  set (aud := dst_audienceID d) in *. apply newResolver_ok in Hnew as (-> & Hnd & Hlen).
  destruct Hdestination as [Hdok Hchanged]. pose proof Hdok as (Haud & _).
  destruct Hphase as (Hok & Hall & Hperm). pose proof (presentable_in _ _ Htoken) as Hin.
  destruct (phase_tokens_in d ph t Hok Hin) as (st & (Ha & Hd & _) & _). rewrite Forall_forall in Hall.
  set (found k := if decide (k = ts_VerifierKeyID t) then Some t else None).
  assert (Forall (stored_under K T D aud raw found) keyIDs) as Hfound.
  { apply Forall_forall. intros k Hk. unfold stored_under, found. cbv zeta. case_decide as E; [|by apply Hother].
    subst k. split; [|unfold match_stored; rewrite Hd; auto 10].
    assert (row_of_token t ∈ live T (formatUUID (dst_id d))) as Hl by (rewrite Hperm; apply list_elem_of_fmap; eauto).
    apply live_elem in Hl as [_ HT]. apply select_unique; [done|]. apply select_elem. split; [|done].
    unfold selected. simpl. destruct Hraw as [_ ->]. by rewrite Ha. }
  assert (omap found keyIDs = [t]) as Homap.
  { apply (omap_one _ _ (ts_VerifierKeyID t)); [done|done|unfold found; by rewrite decide_True|].
    intros z _ Hz. unfold found. by rewrite decide_False. }
  assert (ParseGatewayAudienceID (formatUUID aud) = Ok aud) as Hparse by (by apply state_parse_iff).
  unfold Resolve, resolverUnusable. cbn [rv_acquire_nil rv_keySource_nil rv_keyIDs]. rewrite Hctx, Hparse.
  apply arr_is_zero_false in Haud as Hz. fold aud in Hz. rewrite Hz. unfold t_is_zero. apply Z.eqb_neq in Hnow. rewrite Hnow.
  assert ((length keyIDs <? 1)%nat = false) as -> by lia. assert ((2 <? length keyIDs)%nat = false) as -> by lia.
  rewrite bool_decide_eq_true_2 by done. cbn [orb negb].
  rewrite run_bind, server_sentinel, run_bind. unfold matchingDestinationTokens, verifierCandidates.
  rewrite !run_bind, server_candidates by done. cbn [rv_keyIDs app]. rewrite length_map.
  rewrite bool_decide_eq_true_2 by done. cbn [orb negb bind run call resolver_server].
  rewrite (server_lookups K T D ctx aud raw found) by (done || by rewrite Homap). rewrite Homap. cbn [app].
  rewrite Husable. cbn. by rewrite Hd.
Qed.

(** * A rotation in progress *)

(** The tokens of [sample_phase] with the verifiers of two raw tokens. *)
Definition verified (raw : OpaqueDestinationToken) (t : DestinationToken) : DestinationToken :=
  mkTokenSpec (ts_AudienceID t) (ts_Destination t) (ts_RecordID t)
    (Some (token_verifier (ts_AudienceID t) raw golden_key)) (ts_VerifierKeyID t) (ts_State t) (ts_CreatedAt t)
    (ts_ActivatedAt t) (ts_RetirementStartedAt t) (ts_RevokedAt t) (ts_ExpiresAt t) (ts_StagedCleanupDeadline t)
    (ts_RetirementDeadline t) (ts_StateChangedAt t).

Definition raw_new : OpaqueDestinationToken := mk_arr 32 [xaa].
Definition raw_old : OpaqueDestinationToken := mk_arr 32 [xbb].

Definition rotation_new : DestinationToken := verified raw_new sample_new.
Definition rotation_old : DestinationToken := verified raw_old sample_token_spec.
Definition rotation_phase : phase := PhaseActiveRetiring rotation_new rotation_old.
Definition rotation_tokens : token_table := write_tokens ∅ [rotation_new; rotation_old].
Definition rotation_destinations : destination_table :=
  {[formatUUID (dst_id sample_destination) := row_of_destination sample_destination]}.

Definition rotation_keys : list DestinationVerifierKeyID := [lit "key"; lit "next"].
Definition rotation_resolver : Resolver := mkResolver false false rotation_keys.

(** The bytes of a result. *)
Definition result_bytes {n} (r : result (arr n)) : result bytes :=
  match r with Ok a => Ok (arr_list a) | Err e => Err e end.

Lemma result_bytes_ok {n} (r : result (arr n)) (a : arr n) : result_bytes r = Ok (arr_list a) -> r = Ok a.
Proof. destruct r as [x|]; [|done]. intros [= E]. by apply arr_eq in E as ->. Qed.

(** A raw token resolved against these tables [h] hours after [sample_t0]. *)
Definition resolve_sample (raw : OpaqueDestinationToken) (h : Z) : result bytes :=
  result_bytes (run (E := RsE) (resolver_server (fun _ => golden_key) rotation_tokens rotation_destinations)
    (Resolve (Some rotation_resolver) CtxReq sample_audience raw (sample_t0 + h * Hour)) tt).1.

(** Both tokens resolve during the overlap, only the new one after it. *)
Example rotation_overlap :
  resolve_sample raw_new 3 = Ok (arr_list (dst_id sample_destination)) /\
  resolve_sample raw_old 3 = Ok (arr_list (dst_id sample_destination)) /\
  resolve_sample raw_new 26 = Ok (arr_list (dst_id sample_destination)) /\
  resolve_sample raw_old 26 = Err ErrDestinationNotFound /\
  resolve_sample (mk_arr 32 [xcc]) 3 = Err ErrDestinationNotFound.
Proof. vm_compute. done. Qed.

Lemma rotation_in_phase : in_phase rotation_tokens sample_destination rotation_phase.
Proof.
  split; [split_and!; by try (vm_compute; discriminate)|]. split.
  - constructor; [|constructor; [|constructor]]; (split; [apply validateDestinationTokenSpec_none; vm_compute; reflexivity|]);
      (split; [vm_compute; reflexivity|split_and!; vm_compute; discriminate]).
  - assert (live rotation_tokens (formatUUID (dst_id sample_destination)) =
      map row_of_token (phase_tokens rotation_phase) \/
      live rotation_tokens (formatUUID (dst_id sample_destination)) =
      map row_of_token (rev (phase_tokens rotation_phase))) as [-> | ->].
    + first [left; vm_compute; reflexivity | right; vm_compute; reflexivity].
    + done.
    + apply Permutation_map, Permutation_sym, Permutation_rev.
Qed.

Lemma sample_destination_stored : destination_ok sample_destination /\ dst_stateChangedAt sample_destination <> 0.
Proof. unfold destination_ok. split_and!; first [by left | vm_compute; discriminate]. Qed.

Lemma resolution_follows_lifecycle_witness :
  let p := Resolve (Some rotation_resolver) CtxReq (dst_audienceID sample_destination) raw_old (sample_t0 + 3 * Hour) in
  exists t keyID, t ∈ phase_presentable rotation_phase /\ keyID ∈ rotation_keys /\
    presents (fun _ => golden_key) (dst_audienceID sample_destination) raw_old keyID t /\
    token_UsableAt t (sample_t0 + 3 * Hour) = true.
Proof.
  intros p.
  apply (proj1 (resolution_follows_lifecycle (fun _ => golden_key) rotation_tokens rotation_destinations
    rotation_resolver CtxReq raw_old sample_destination rotation_phase
    (run_trace (E := RsE) (resolver_server (fun _ => golden_key) rotation_tokens rotation_destinations) p tt)
    (sample_t0 + 3 * Hour)
    (run (E := RsE) (resolver_server (fun _ => golden_key) rotation_tokens rotation_destinations) p tt).1
    (server_served _ _ _ _) (lookup_singleton_eq _ _) (proj1 sample_destination_stored) rotation_in_phase (run_runs _ _ _))).
  apply result_bytes_ok. vm_compute. reflexivity.
Defined.

Lemma usable_token_resolves_witness :
  (run (E := RsE) (resolver_server (fun _ => golden_key) rotation_tokens rotation_destinations)
    (Resolve (Some rotation_resolver) CtxReq (dst_audienceID sample_destination) raw_old (sample_t0 + 3 * Hour)) tt).1 =
  Ok (dst_id sample_destination).
Proof.
  apply (usable_token_resolves (fun _ => golden_key) rotation_tokens rotation_destinations rotation_keys rotation_resolver
    CtxReq raw_old sample_destination rotation_phase rotation_old (sample_t0 + 3 * Hour)).
  - vm_compute. reflexivity.
  - repeat constructor; vm_compute; lia.
  - reflexivity.
  - vm_compute. discriminate.
  - apply lookup_singleton_eq.
  - exact sample_destination_stored.
  - exact rotation_in_phase.
  - apply (bool_decide_eq_true_1 _). vm_compute. reflexivity.
  - apply list_elem_of_further, list_elem_of_here.
  - apply list_elem_of_here.
  - split; reflexivity.
  - intros k Hk Hne. apply elem_of_cons in Hk as [->|Hk]; [by destruct Hne|].
    apply list_elem_of_singleton in Hk as ->. vm_compute. reflexivity.
  - vm_compute. reflexivity.
Defined.
