(* ===== verification/Rotation.v ===== *)
(** The destination token rotation participant:
    internal/securitystate/destination_rotation_participant.go.

    A rotation replaces the active token of a destination by a fresh one: the
    current token is resolved, a new token is staged and activated, and the old
    one retires. Whatever is not known to have been undone or completed is
    reported for reconciliation with the handle of the attempt. The clock, the
    resolver, the identifier, the inspector, the lifecycle service and
    [ctx.Err()] are external calls. *)

From Stdlib Require Import ZifyBool.
From S2P Require Import Prelude Effects GoErrors GoTime Encoding Uuid SecurityTypes Lifecycle Resolver.

Definition MaximumDestinationTokenRotationCompensationDuration : Duration := 30 * Second.

(** [DestinationTokenRotationTokenIdentity.Valid]. *)
Definition identity_Valid (value : DestinationTokenRotationTokenIdentity) : bool :=
  (value =? DestinationTokenRotationTokenNew) || (value =? DestinationTokenRotationTokenOld) ||
  (value =? DestinationTokenRotationTokenNeither).

(** [DestinationTokenRotationStatus], a uint8. *)
Definition DestinationTokenRotationStatus := Z.
Definition DestinationTokenRotationActiveWithRetiring : DestinationTokenRotationStatus := 1.
Definition DestinationTokenRotationRolledBack : DestinationTokenRotationStatus := 2.
Definition DestinationTokenRotationCompleted : DestinationTokenRotationStatus := 3.

(** [DestinationTokenRotationStatus.Valid]. *)
Definition status_Valid (status : DestinationTokenRotationStatus) : bool :=
  (status =? DestinationTokenRotationActiveWithRetiring) || (status =? DestinationTokenRotationRolledBack) ||
  (status =? DestinationTokenRotationCompleted).

(** * Requests, handles, attempts and observations *)

(** [validRotationBinding]. *)
Definition validRotationBinding (audience : GatewayAudienceID) (destination : DestinationID) : bool :=
  if arr_is_zero audience || arr_is_zero destination then false
  else
    match ParseGatewayAudienceID (formatUUID audience), ParseDestinationID (formatUUID destination) with
    | Ok parsedAudience, Ok parsedDestination => (parsedAudience =?? audience) && (parsedDestination =?? destination)
    | _, _ => false
    end.

Record DestinationTokenRotationRequest : Type := mkRotationRequest {
  rq_audienceID : GatewayAudienceID;
  rq_destination : DestinationID;
  rq_currentToken : OpaqueDestinationToken
}.

(** [NewDestinationTokenRotationRequest]. *)
Definition NewDestinationTokenRotationRequest (audience : GatewayAudienceID) (destination : DestinationID)
    (currentToken : OpaqueDestinationToken) : result DestinationTokenRotationRequest :=
  if negb (validRotationBinding audience destination) then Err ErrDestinationTokenRotationInvalid
  else Ok (mkRotationRequest audience destination currentToken).

Record DestinationTokenRotationHandle : Type := mkHandle {
  hd_audienceID : GatewayAudienceID;
  hd_destination : DestinationID;
  hd_newActiveRecordID : DestinationTokenRecordID;
  hd_oldRetiringRecordID : DestinationTokenRecordID
}.

(** [validRotationHandle]. *)
Definition validRotationHandle (handle : DestinationTokenRotationHandle) : bool :=
  if negb (validRotationBinding (hd_audienceID handle) (hd_destination handle)) ||
     arr_is_zero (hd_newActiveRecordID handle) || arr_is_zero (hd_oldRetiringRecordID handle) ||
     (hd_newActiveRecordID handle =?? hd_oldRetiringRecordID handle) then false
  else
    match ParseDestinationTokenRecordID (formatUUID (hd_newActiveRecordID handle)),
          ParseDestinationTokenRecordID (formatUUID (hd_oldRetiringRecordID handle)) with
    | Ok parsedNew, Ok parsedOld =>
        (parsedNew =?? hd_newActiveRecordID handle) && (parsedOld =?? hd_oldRetiringRecordID handle)
    | _, _ => false
    end.

(** [NewDestinationTokenRotationHandle]. *)
Definition NewDestinationTokenRotationHandle (audience : GatewayAudienceID) (destination : DestinationID)
    (newActive oldRetiring : DestinationTokenRecordID) : result DestinationTokenRotationHandle :=
  let handle := mkHandle audience destination newActive oldRetiring in
  if negb (validRotationHandle handle) then Err ErrDestinationTokenRotationInvalid else Ok handle.

(** [DestinationTokenRotationAttempt]; the one-time token is its encoded text,
    empty in the zero value. [cloneOneTimeDestinationToken] copies the text. *)
Record DestinationTokenRotationAttempt : Type := mkRotationAttempt {
  ra_handle : DestinationTokenRotationHandle;
  ra_newToken : bytes;
  ra_activatedAt : Time;
  ra_retirementDeadline : Time
}.

Definition zero_handle : DestinationTokenRotationHandle :=
  mkHandle (zero_arr 16) (zero_arr 16) (zero_arr 16) (zero_arr 16).
Definition zero_attempt : DestinationTokenRotationAttempt := mkRotationAttempt zero_handle [] zero_time zero_time.

(** [validRotationAttempt]. *)
Definition validRotationAttempt (value : DestinationTokenRotationAttempt) (confirmed : bool) : bool :=
  if negb (validRotationHandle (ra_handle value)) then false
  else
    let receipt := mkActivationReceipt (ra_activatedAt value) (ra_retirementDeadline value) in
    if confirmed then negb (ra_newToken value =?? []) && receipt_valid receipt
    else (ra_newToken value =?? []) && t_is_zero (ra_activatedAt value) && t_is_zero (ra_retirementDeadline value).

Record DestinationTokenRotationObservation : Type := mkObservation {
  ob_status : DestinationTokenRotationStatus;
  ob_tokenIdentity : DestinationTokenRotationTokenIdentity;
  ob_observedAt : Time;
  ob_retirementDeadline : Time
}.

(** [validRotationObservation]. *)
Definition validRotationObservation (value : DestinationTokenRotationObservation) (requireIdentity : bool) : bool :=
  if requireIdentity && negb (identity_Valid (ob_tokenIdentity value)) then false
  else if ob_status value =? DestinationTokenRotationActiveWithRetiring
  then negb (t_is_zero (ob_observedAt value)) && negb (t_is_zero (ob_retirementDeadline value))
  else if (ob_status value =? DestinationTokenRotationRolledBack) || (ob_status value =? DestinationTokenRotationCompleted)
  then t_is_zero (ob_observedAt value) && t_is_zero (ob_retirementDeadline value)
  else false.

(** [rotationReconciliationAttempt]. *)
Definition rotationReconciliationAttempt (request : DestinationTokenRotationRequest)
    (newActive oldRetiring : DestinationTokenRecordID) : DestinationTokenRotationAttempt :=
  mkRotationAttempt (mkHandle (rq_audienceID request) (rq_destination request) newActive oldRetiring) [] zero_time zero_time.

(** * Snapshots of an attempt *)

(** [viewsEqual]. *)
Definition viewsEqual (first second : LifecycleTokenView) : bool :=
  (v_recordID first =?? v_recordID second) && (v_state first =? v_state second) &&
  t_equal (v_createdAt first) (v_createdAt second) && t_equal (v_expiresAt first) (v_expiresAt second) &&
  t_equal (v_stagedCleanupDeadline first) (v_stagedCleanupDeadline second) &&
  t_equal (v_activatedAt first) (v_activatedAt second) &&
  t_equal (v_retirementStartedAt first) (v_retirementStartedAt second) &&
  t_equal (v_retirementDeadline first) (v_retirementDeadline second) &&
  t_equal (v_revokedAt first) (v_revokedAt second) && t_equal (v_stateChangedAt first) (v_stateChangedAt second).

(** [validActivatedRotationHistory]. *)
Definition validActivatedRotationHistory (newToken oldToken : LifecycleTokenView) : bool :=
  negb (t_before (v_createdAt newToken) (v_activatedAt oldToken)) &&
  negb (t_before (v_activatedAt newToken) (v_activatedAt oldToken)) &&
  t_before (v_activatedAt newToken) (v_stagedCleanupDeadline newToken).

(** [exactRolledBackAttempt]. *)
Definition exactRolledBackAttempt (newToken oldToken : LifecycleTokenView) (now : Time) : bool :=
  if negb (v_state newToken =? DestinationTokenRevoked) || negb (v_state oldToken =? DestinationTokenActive) ||
     t_is_zero (v_revokedAt newToken) || negb (t_equal (v_revokedAt newToken) (v_stateChangedAt newToken)) ||
     t_is_zero (v_createdAt newToken) || t_after (v_createdAt newToken) (v_revokedAt newToken) ||
     t_after (v_revokedAt newToken) now ||
     negb (t_is_zero (v_retirementStartedAt newToken)) || negb (t_is_zero (v_retirementDeadline newToken)) ||
     negb (t_is_zero (v_retirementStartedAt oldToken)) || negb (t_is_zero (v_retirementDeadline oldToken)) ||
     negb (t_is_zero (v_revokedAt oldToken)) || t_is_zero (v_activatedAt oldToken) ||
     t_after (v_activatedAt oldToken) (v_stateChangedAt oldToken) || t_after (v_stateChangedAt oldToken) now
  then false
  else if t_is_zero (v_activatedAt newToken)
  then negb (t_before (v_createdAt newToken) (v_stateChangedAt oldToken))
  else
    let rollbackDuration := t_sub (v_revokedAt newToken) (v_activatedAt newToken) in
    validActivatedRotationHistory newToken oldToken &&
    (0 <=? rollbackDuration) && (rollbackDuration <? MaximumRetiringOverlapDuration) &&
    t_before (v_revokedAt newToken) (v_expiresAt newToken) &&
    t_equal (v_revokedAt newToken) (v_stateChangedAt oldToken).

(** [exactCompletedAttempt]. *)
Definition exactCompletedAttempt (newToken oldToken : LifecycleTokenView) (now : Time) : bool :=
  (v_state newToken =? DestinationTokenActive) && (v_state oldToken =? DestinationTokenRevoked) &&
  validActivatedRotationHistory newToken oldToken &&
  negb (t_is_zero (v_revokedAt oldToken)) && t_equal (v_revokedAt oldToken) (v_stateChangedAt oldToken) &&
  negb (t_is_zero (v_activatedAt oldToken)) && negb (t_is_zero (v_retirementStartedAt oldToken)) &&
  negb (t_is_zero (v_retirementDeadline oldToken)) &&
  negb (t_after (v_activatedAt oldToken) (v_retirementStartedAt oldToken)) &&
  negb (t_before (v_revokedAt oldToken) (v_retirementDeadline oldToken)) &&
  t_before (v_retirementDeadline oldToken) (v_expiresAt newToken) &&
  t_before (v_retirementDeadline oldToken) (v_expiresAt oldToken) &&
  t_equal (v_activatedAt newToken) (v_stateChangedAt newToken) &&
  t_equal (v_activatedAt newToken) (v_retirementStartedAt oldToken) &&
  t_before (v_retirementStartedAt oldToken) (v_retirementDeadline oldToken) &&
  negb (t_after (v_revokedAt oldToken) now).

(** [validRotationPairViews]. *)
Definition validRotationPairViews (active retiring : LifecycleTokenView) (now : Time) : bool :=
  (v_state active =? DestinationTokenActive) && (v_state retiring =? DestinationTokenRetiring) &&
  validActivatedRotationHistory active retiring &&
  negb (t_is_zero (v_activatedAt active)) && negb (t_is_zero (v_activatedAt retiring)) &&
  negb (t_is_zero (v_retirementStartedAt retiring)) &&
  t_before now (v_expiresAt active) && negb (t_after (v_activatedAt active) now) &&
  negb (t_after (v_stateChangedAt active) now) && negb (t_after (v_activatedAt retiring) now) &&
  negb (t_after (v_retirementStartedAt retiring) now) && negb (t_after (v_stateChangedAt retiring) now) &&
  t_equal (v_activatedAt active) (v_stateChangedAt active) &&
  t_equal (v_activatedAt active) (v_retirementStartedAt retiring) &&
  t_equal (v_retirementStartedAt retiring) (v_stateChangedAt retiring) &&
  negb (t_is_zero (v_retirementDeadline retiring)) &&
  t_before (v_retirementDeadline retiring) (v_expiresAt active) &&
  t_before (v_retirementDeadline retiring) (v_expiresAt retiring).

(** The three tests of [classifyRotationSnapshot] that return, in order: the
    pair of an overlap, a staged successor, a single active token. *)
Definition overlapObserved (attempt : DestinationTokenRotationAttemptSnapshot) (handle : DestinationTokenRotationHandle)
    (now : Time) : option LifecycleTokenView :=
  let snapshot := at_lifecycle attempt in
  match sn_active snapshot, sn_retiring snapshot, sn_staged snapshot with
  | Some active, Some retiring, None =>
      if (v_recordID active =?? hd_newActiveRecordID handle) && (v_recordID retiring =?? hd_oldRetiringRecordID handle) &&
         viewsEqual active (at_newToken attempt) && viewsEqual retiring (at_oldToken attempt) &&
         validRotationPairViews active retiring now &&
         ((sn_status snapshot =? LifecycleActiveWithRetiring) ||
          ((sn_status snapshot =? LifecycleReconciliationRequired) && negb (t_before now (v_retirementDeadline retiring))))
      then Some retiring else None
  | _, _, _ => None
  end.

Definition stagedObserved (attempt : DestinationTokenRotationAttemptSnapshot) (handle : DestinationTokenRotationHandle) : bool :=
  let snapshot := at_lifecycle attempt in
  match sn_active snapshot, sn_staged snapshot, sn_retiring snapshot with
  | Some active, Some staged, None =>
      (sn_status snapshot =? LifecycleActiveWithStaged) && (v_recordID staged =?? hd_newActiveRecordID handle) &&
      (v_recordID active =?? hd_oldRetiringRecordID handle) &&
      viewsEqual staged (at_newToken attempt) && viewsEqual active (at_oldToken attempt)
  | _, _, _ => false
  end.

Definition endObserved (attempt : DestinationTokenRotationAttemptSnapshot) (handle : DestinationTokenRotationHandle)
    (now : Time) : option DestinationTokenRotationStatus :=
  let snapshot := at_lifecycle attempt in
  match sn_active snapshot, sn_staged snapshot, sn_retiring snapshot with
  | Some active, None, None =>
      if (sn_status snapshot =? LifecycleActive) && (v_state active =? DestinationTokenActive) &&
         t_before now (v_expiresAt active) && negb (t_after (v_activatedAt active) now) &&
         negb (t_after (v_stateChangedAt active) now) then
        if v_recordID active =?? hd_oldRetiringRecordID handle then
          if viewsEqual active (at_oldToken attempt) &&
             exactRolledBackAttempt (at_newToken attempt) (at_oldToken attempt) now
          then Some DestinationTokenRotationRolledBack else None
        else if v_recordID active =?? hd_newActiveRecordID handle then
          if viewsEqual active (at_newToken attempt) &&
             exactCompletedAttempt (at_newToken attempt) (at_oldToken attempt) now
          then Some DestinationTokenRotationCompleted else None
        else None
      else None
  | _, _, _ => None
  end.

(** [classifyRotationSnapshot]. *)
Definition classifyRotationSnapshot (attempt : DestinationTokenRotationAttemptSnapshot)
    (handle : DestinationTokenRotationHandle) (now : Time) : result DestinationTokenRotationObservation :=
  let snapshot := at_lifecycle attempt in
  if (sn_audienceID snapshot <>?? hd_audienceID handle) || (sn_destinationID snapshot <>?? hd_destination handle) ||
     negb (sn_destinationEnabled snapshot) then Err ErrDestinationTokenRotationReconciliation
  else if (v_recordID (at_newToken attempt) <>?? hd_newActiveRecordID handle) ||
          (v_recordID (at_oldToken attempt) <>?? hd_oldRetiringRecordID handle)
  then Err ErrDestinationTokenRotationReconciliation
  else
  match overlapObserved attempt handle now with
  | Some retiring =>
      Ok (mkObservation DestinationTokenRotationActiveWithRetiring 0 now (v_retirementDeadline retiring))
  | None =>
  if stagedObserved attempt handle then Err ErrDestinationTokenRotationReconciliation
  else
  match endObserved attempt handle now with
  | Some status => Ok (mkObservation status 0 zero_time zero_time)
  | None =>
      if sn_status snapshot =? LifecycleReconciliationRequired then Err ErrDestinationTokenRotationReconciliation
      else Err ErrDestinationTokenRotationConflict
  end end.

(** [rotationBeginActive]. *)
Definition rotationBeginActive (snapshot : DestinationLifecycleSnapshot) (audience : GatewayAudienceID)
    (destination : DestinationID) : result LifecycleTokenView :=
  if (sn_audienceID snapshot <>?? audience) || (sn_destinationID snapshot <>?? destination) ||
     negb (sn_destinationEnabled snapshot) then Err ErrDestinationTokenRotationReconciliation
  else if sn_status snapshot =? LifecycleReconciliationRequired then Err ErrDestinationTokenRotationReconciliation
  else
  match sn_active snapshot, sn_staged snapshot, sn_retiring snapshot with
  | Some active, None, None =>
      if negb (sn_status snapshot =? LifecycleActive) || negb (v_state active =? DestinationTokenActive) ||
         arr_is_zero (v_recordID active)
      then Err ErrDestinationTokenRotationConflict else Ok active
  | _, _, _ => Err ErrDestinationTokenRotationConflict
  end.

(** * Error classification *)

(** [classifyRotationResolverError]; [rotationSingleCauseMatches] has the body
    of [singleCauseMatches]. *)
Definition classifyRotationResolverError (e : error) : sentinel :=
  if singleCauseMatches e Canceled then ErrDestinationTokenRotationCanceled
  else if singleCauseMatches e DeadlineExceeded then ErrDestinationTokenRotationDeadline
  else if singleCauseMatches e ErrDestinationNotFound then ErrDestinationTokenRotationConflict
  else ErrDestinationTokenRotationUnavailable.

(** The table of [classifyRotationLifecycleError]. *)
Definition rotationErrorTable : list (sentinel * sentinel) :=
  [(ErrDestinationLifecycleCanceled, ErrDestinationTokenRotationCanceled);
   (ErrDestinationLifecycleDeadline, ErrDestinationTokenRotationDeadline);
   (ErrDestinationLifecycleInvalid, ErrDestinationTokenRotationInvalid);
   (ErrDestinationLifecycleConflict, ErrDestinationTokenRotationConflict);
   (ErrDestinationLifecycleReconciliation, ErrDestinationTokenRotationReconciliation);
   (ErrDestinationLifecycleUnavailable, ErrDestinationTokenRotationUnavailable)].

Fixpoint rotationErrorFrom (table : list (sentinel * sentinel)) (e : error) : option sentinel :=
  match table with
  | [] => None
  | (lifecycle, rotation) :: table =>
      if singleCauseMatches e lifecycle then Some rotation else rotationErrorFrom table e
  end.

(** [classifyRotationLifecycleError] of a non-nil error: the rotation error
    ([None] when the error is not known), and whether the outcome is unknown. *)
Definition classifyRotationLifecycleError (e : error) : option sentinel * bool :=
  if singleCauseMatches e ErrDestinationLifecycleOutcomeUnknown
  then (Some ErrDestinationTokenRotationOutcomeUnknown, true)
  else (rotationErrorFrom rotationErrorTable e, false).

(** [classifyRotationPreMutationLifecycleError]. *)
Definition classifyRotationPreMutationLifecycleError (e : error) : sentinel :=
  match classifyRotationLifecycleError e with
  | (Some result, _) => result
  | (None, _) => ErrDestinationTokenRotationUnavailable
  end.

(** [classifyRotationCreateError]. *)
Definition classifyRotationCreateError (e : error) : sentinel :=
  match classifyRotationLifecycleError e with
  | (Some result, false) => result
  | _ => ErrDestinationTokenRotationReconciliation
  end.

(** [classifyRotationActivationError]: the error, and whether the activation
    has definitely not been committed. *)
Definition classifyRotationActivationError (e : error) : sentinel * bool :=
  match classifyRotationLifecycleError e with
  | (Some result, false) => (result, true)
  | _ => (ErrDestinationTokenRotationReconciliation, false)
  end.

(** [classifyRotationMutationError]. *)
Definition classifyRotationMutationError (e : option error) : option error :=
  match e with
  | None => None
  | Some e =>
      match classifyRotationLifecycleError e with
      | (Some result, false) => Some (Sentinel result)
      | _ => Some (Sentinel ErrDestinationTokenRotationOutcomeUnknown)
      end
  end.

(** * External calls *)

Inductive rot_op : Type :=
| RoCtxErr (ctx : Ctx)
| RoNow
| RoResolve (ctx : Ctx) (audience : GatewayAudienceID) (token : OpaqueDestinationToken) (now : Time)
| RoIdentify (ctx : Ctx) (audience : GatewayAudienceID) (destination : DestinationID) (token : OpaqueDestinationToken)
    (newActive oldRetiring : DestinationTokenRecordID) (now : Time)
| RoInspectAttempt (ctx : Ctx) (audience : GatewayAudienceID) (destination : DestinationID)
    (newActive oldRetiring : DestinationTokenRecordID) (now : Time)
| RoInspectState (ctx : Ctx) (audience : GatewayAudienceID) (destination : DestinationID)
| RoCreateRotationStaged (ctx : Ctx) (audience : GatewayAudienceID) (destination : DestinationID)
    (expectedActive : DestinationTokenRecordID) (currentToken : OpaqueDestinationToken)
| RoActivateRotation (ctx : Ctx) (audience : GatewayAudienceID) (destination : DestinationID)
    (staged oldActive : DestinationTokenRecordID)
| RoAbortStaged (ctx : Ctx) (audience : GatewayAudienceID) (destination : DestinationID)
    (staged : DestinationTokenRecordID)
| RoRollback (ctx : Ctx) (audience : GatewayAudienceID) (destination : DestinationID)
    (newActive oldRetiring : DestinationTokenRecordID)
| RoFinalize (ctx : Ctx) (audience : GatewayAudienceID) (destination : DestinationID)
    (newActive oldRetiring : DestinationTokenRecordID) (reason : RotationCompletionReason).

Definition RotE : sig := Sig rot_op (fun o =>
  match o with
  | RoCtxErr _ => option error
  | RoNow => Time
  | RoResolve _ _ _ _ => result DestinationID
  | RoIdentify _ _ _ _ _ _ _ => result DestinationTokenRotationTokenIdentity
  | RoInspectAttempt _ _ _ _ _ _ => result DestinationTokenRotationAttemptSnapshot
  | RoInspectState _ _ _ => result DestinationLifecycleSnapshot
  | RoCreateRotationStaged _ _ _ _ _ => (CreatedStagedToken * option error)%type
  | RoActivateRotation _ _ _ _ _ => result DestinationTokenRotationActivationReceipt
  | RoAbortStaged _ _ _ _ | RoRollback _ _ _ _ _ | RoFinalize _ _ _ _ _ _ => option error
  end).

(** [DestinationTokenRotationParticipantService]: whether each dependency is
    nil, and the time limit of a compensation. [None] below is a nil service. *)
Record Participant : Type := mkParticipant {
  pt_clock_nil : bool;
  pt_resolver_nil : bool;
  pt_identifier_nil : bool;
  pt_attemptInspector_nil : bool;
  pt_lifecycle_nil : bool;
  pt_compensationTimeout : Duration
}.

(** [NewDestinationTokenRotationParticipantService] of a configuration. *)
Definition NewDestinationTokenRotationParticipantService (config : Participant) : result Participant :=
  if pt_clock_nil config || pt_resolver_nil config || pt_identifier_nil config || pt_lifecycle_nil config ||
     pt_attemptInspector_nil config || (pt_compensationTimeout config <=? 0) ||
     (MaximumDestinationTokenRotationCompensationDuration <? pt_compensationTimeout config)
  then Err ErrDestinationTokenRotationInvalid
  else Ok config.

(** [rotationContextError]. *)
Definition rotationContextError (ctx : Ctx) : prog RotE (option sentinel) :=
  if ctx_is_nil ctx then Ret None
  else
  let! c := @call RotE (RoCtxErr ctx) in
  if opt_errors_is c Canceled then Ret (Some ErrDestinationTokenRotationCanceled)
  else
  let! c := @call RotE (RoCtxErr ctx) in
  if opt_errors_is c DeadlineExceeded then Ret (Some ErrDestinationTokenRotationDeadline) else Ret None.

(** The checks of the context and the clock that end [beginInput] and
    [operationNow]. *)
Definition rotationNow (ctx : Ctx) : prog RotE (result Time) :=
  let! cancellation := rotationContextError ctx in
  match cancellation with
  | Some c => Ret (Err (Sentinel c))
  | None =>
      let! now := @call RotE RoNow in
      if t_is_zero now then Ret (Err ErrDestinationTokenRotationInvalid) else Ret (Ok now)
  end.

(** [beginInput]; [Ok] carries the service. *)
Definition beginInput (service : option Participant) (ctx : Ctx) (request : DestinationTokenRotationRequest)
  : prog RotE (result (Participant * Time)) :=
  match service with
  | None => Ret (Err ErrDestinationTokenRotationInvalid)
  | Some service =>
    if ctx_is_nil ctx || pt_clock_nil service || pt_resolver_nil service || pt_identifier_nil service ||
       pt_attemptInspector_nil service || pt_lifecycle_nil service || (pt_compensationTimeout service <=? 0) ||
       (MaximumDestinationTokenRotationCompensationDuration <? pt_compensationTimeout service) ||
       negb (validRotationBinding (rq_audienceID request) (rq_destination request))
    then Ret (Err ErrDestinationTokenRotationInvalid)
    else
    let! now := rotationNow ctx in
    Ret (match now with Ok now => Ok (service, now) | Err e => Err e end)
  end.

(** [operationNow]. *)
Definition operationNow (service : option Participant) (ctx : Ctx) (handle : DestinationTokenRotationHandle)
  : prog RotE (result Time) :=
  match service with
  | None => Ret (Err ErrDestinationTokenRotationInvalid)
  | Some service =>
    if ctx_is_nil ctx || pt_clock_nil service || pt_identifier_nil service || pt_attemptInspector_nil service ||
       pt_lifecycle_nil service || (pt_compensationTimeout service <=? 0) ||
       (MaximumDestinationTokenRotationCompensationDuration <? pt_compensationTimeout service) ||
       negb (validRotationHandle handle)
    then Ret (Err ErrDestinationTokenRotationInvalid)
    else rotationNow ctx
  end.

(** [abortCreatedStaged]: the compensation runs on a context detached from the
    caller's cancellation ([rotationCompensationContext]). *)
Definition abortCreatedStaged (service : Participant) (request : DestinationTokenRotationRequest)
    (recordID : DestinationTokenRecordID) : prog RotE (option error) :=
  @call RotE (RoAbortStaged (CtxDetached (pt_compensationTimeout service)) (rq_audienceID request)
    (rq_destination request) recordID).

(** * Beginning a rotation *)

Definition attempt_failed (e : sentinel) : DestinationTokenRotationAttempt * option error := (zero_attempt, Some (Sentinel e)).

(** The result for an attempt whose state is not known. *)
Definition reconcile (request : DestinationTokenRotationRequest) (newActive oldActive : DestinationTokenRecordID)
  : DestinationTokenRotationAttempt * option error :=
  (rotationReconciliationAttempt request newActive oldActive, Some (Sentinel ErrDestinationTokenRotationReconciliation)).

(** Undo the staging of [newActive], then fail with [e]. *)
Definition abortThen (service : Participant) (request : DestinationTokenRotationRequest)
    (newActive oldActive : DestinationTokenRecordID) (e : sentinel)
  : prog RotE (DestinationTokenRotationAttempt * option error) :=
  let! aborted := abortCreatedStaged service request newActive in
  match aborted with
  | Some _ => Ret (reconcile request newActive oldActive)
  | None => Ret (attempt_failed e)
  end.

(** [BeginRotation] from the call of [ActivateRotation]. *)
Definition activateCreated (service : Participant) (ctx : Ctx) (request : DestinationTokenRotationRequest)
    (created : CreatedStagedToken) (oldActive : DestinationTokenRecordID)
  : prog RotE (DestinationTokenRotationAttempt * option error) :=
  let newActive := ct_recordID created in
  let! activated := @call RotE (RoActivateRotation ctx (rq_audienceID request) (rq_destination request) newActive oldActive) in
  match activated with
  | Err e =>
      let '(safeErr, definitelyNotCommitted) := classifyRotationActivationError e in
      if negb definitelyNotCommitted then Ret (reconcile request newActive oldActive)
      else abortThen service request newActive oldActive safeErr
  | Ok activation =>
      if negb (receipt_valid activation) then Ret (reconcile request newActive oldActive)
      else
      let! confirmedAt := @call RotE RoNow in
      let! unconfirmed :=
        (if negb (receipt_validAt activation confirmedAt) then Ret true
         else let! cancellation := rotationContextError ctx in Ret (has cancellation)) in
      if unconfirmed then Ret (reconcile request newActive oldActive)
      else
      let attempt := mkRotationAttempt (mkHandle (rq_audienceID request) (rq_destination request) newActive oldActive)
        (ct_token created) (rc_activatedAt activation) (rc_retirementDeadline activation) in
      if negb (validRotationAttempt attempt true) then Ret (reconcile request newActive oldActive)
      else Ret (attempt, None)
  end.

(** [BeginRotation] from the call of [CreateRotationStagedToken]. *)
Definition createAndActivate (service : Participant) (ctx : Ctx) (request : DestinationTokenRotationRequest)
    (oldActive : DestinationTokenRecordID) : prog RotE (DestinationTokenRotationAttempt * option error) :=
  let! '(created, createErr) := @call RotE (RoCreateRotationStaged ctx (rq_audienceID request) (rq_destination request)
    oldActive (rq_currentToken request)) in
  match createErr with
  | Some e =>
      let classified := classifyRotationCreateError e in
      if classified =?? ErrDestinationTokenRotationReconciliation then
        let attempt := rotationReconciliationAttempt request (ct_recordID created) oldActive in
        if validRotationHandle (ra_handle attempt) then Ret (attempt, Some (Sentinel classified))
        else Ret (attempt_failed classified)
      else Ret (attempt_failed classified)
  | None =>
      if arr_is_zero (ct_recordID created) then Ret (attempt_failed ErrDestinationTokenRotationReconciliation)
      else if negb (validRotationHandle (mkHandle (rq_audienceID request) (rq_destination request)
                      (ct_recordID created) oldActive))
      then Ret (attempt_failed ErrDestinationTokenRotationReconciliation)
      else if ct_token created =?? []
      then abortThen service request (ct_recordID created) oldActive ErrDestinationTokenRotationUnavailable
      else
      let! cancellation := rotationContextError ctx in
      match cancellation with
      | Some c => abortThen service request (ct_recordID created) oldActive c
      | None => activateCreated service ctx request created oldActive
      end
  end.

(** [BeginRotation]. *)
Definition BeginRotation (service : option Participant) (ctx : Ctx) (request : DestinationTokenRotationRequest)
  : prog RotE (DestinationTokenRotationAttempt * option error) :=
  let! input := beginInput service ctx request in
  match input with
  | Err e => Ret (zero_attempt, Some e)
  | Ok (service, now) =>
  let! resolved := @call RotE (RoResolve ctx (rq_audienceID request) (rq_currentToken request) now) in
  match resolved with
  | Err e => Ret (attempt_failed (classifyRotationResolverError e))
  | Ok resolved =>
  let! cancellation := rotationContextError ctx in
  match cancellation with
  | Some c => Ret (attempt_failed c)
  | None =>
  if resolved <>?? rq_destination request then Ret (attempt_failed ErrDestinationTokenRotationConflict)
  else
  let! inspected := @call RotE (RoInspectState ctx (rq_audienceID request) (rq_destination request)) in
  match inspected with
  | Err e => Ret (attempt_failed (classifyRotationPreMutationLifecycleError e))
  | Ok snapshot =>
  let! cancellation := rotationContextError ctx in
  match cancellation with
  | Some c => Ret (attempt_failed c)
  | None =>
  match rotationBeginActive snapshot (rq_audienceID request) (rq_destination request) with
  | Err e => Ret (zero_attempt, Some e)
  | Ok oldActive => createAndActivate service ctx request (v_recordID oldActive)
  end end end end end end.

(** * Observing and ending a rotation *)

(** [inspectRotation]. *)
Definition inspectRotation (ctx : Ctx) (handle : DestinationTokenRotationHandle) (now : Time)
  : prog RotE (result DestinationTokenRotationObservation) :=
  let! inspected := @call RotE (RoInspectAttempt ctx (hd_audienceID handle) (hd_destination handle)
    (hd_newActiveRecordID handle) (hd_oldRetiringRecordID handle) now) in
  match inspected with
  | Err _ => Ret (Err ErrDestinationTokenRotationReconciliation)
  | Ok snapshot =>
      let! cancellation := rotationContextError ctx in
      match cancellation with
      | Some c => Ret (Err (Sentinel c))
      | None => Ret (classifyRotationSnapshot snapshot handle now)
      end
  end.

(** [RollbackRotation] of the participant. *)
Definition participant_RollbackRotation (service : option Participant) (ctx : Ctx)
    (handle : DestinationTokenRotationHandle) : prog RotE (option error) :=
  let! input := operationNow service ctx handle in
  match input with
  | Err e => Ret (Some e)
  | Ok now =>
  let! inspection := inspectRotation ctx handle now in
  match inspection with
  | Err e => Ret (Some e)
  | Ok inspection =>
      if negb (ob_status inspection =? DestinationTokenRotationActiveWithRetiring)
      then Ret (Some (Sentinel ErrDestinationTokenRotationConflict))
      else if negb (t_before now (ob_retirementDeadline inspection))
      then Ret (Some (Sentinel ErrDestinationTokenRotationConflict))
      else
      let! cancellation := rotationContextError ctx in
      match cancellation with
      | Some c => Ret (Some (Sentinel c))
      | None =>
          let! e := @call RotE (RoRollback ctx (hd_audienceID handle) (hd_destination handle)
            (hd_newActiveRecordID handle) (hd_oldRetiringRecordID handle)) in
          Ret (classifyRotationMutationError e)
      end
  end end.

(** [ObserveRotation]. *)
Definition ObserveRotation (service : option Participant) (ctx : Ctx) (handle : DestinationTokenRotationHandle)
    (token : OpaqueDestinationToken) : prog RotE (result DestinationTokenRotationObservation) :=
  let! input := operationNow service ctx handle in
  match input with
  | Err e => Ret (Err e)
  | Ok now =>
  let! identified := @call RotE (RoIdentify ctx (hd_audienceID handle) (hd_destination handle) token
    (hd_newActiveRecordID handle) (hd_oldRetiringRecordID handle) now) in
  match identified with
  | Err _ => Ret (Err ErrDestinationTokenRotationReconciliation)
  | Ok tokenIdentity =>
  if negb (identity_Valid tokenIdentity) then Ret (Err ErrDestinationTokenRotationReconciliation)
  else
  let! cancellation := rotationContextError ctx in
  match cancellation with
  | Some c => Ret (Err (Sentinel c))
  | None =>
  let! inspection := inspectRotation ctx handle now in
  match inspection with
  | Err _ => Ret (Err ErrDestinationTokenRotationReconciliation)
  | Ok inspection =>
      let observation := mkObservation (ob_status inspection) tokenIdentity (ob_observedAt inspection)
        (ob_retirementDeadline inspection) in
      if negb (validRotationObservation observation true) then Ret (Err ErrDestinationTokenRotationReconciliation)
      else Ret (Ok observation)
  end end end end.

(** [FinalizeRotation] of the participant. *)
Definition participant_FinalizeRotation (service : option Participant) (ctx : Ctx)
    (handle : DestinationTokenRotationHandle) : prog RotE (option error) :=
  let! input := operationNow service ctx handle in
  match input with
  | Err e => Ret (Some e)
  | Ok now =>
  let! inspection := inspectRotation ctx handle now in
  match inspection with
  | Err e => Ret (Some e)
  | Ok inspection =>
      if negb (ob_status inspection =? DestinationTokenRotationActiveWithRetiring) ||
         t_before now (ob_retirementDeadline inspection)
      then Ret (Some (Sentinel ErrDestinationTokenRotationConflict))
      else
      let! cancellation := rotationContextError ctx in
      match cancellation with
      | Some c => Ret (Some (Sentinel c))
      | None =>
          let! e := @call RotE (RoFinalize ctx (hd_audienceID handle) (hd_destination handle)
            (hd_newActiveRecordID handle) (hd_oldRetiringRecordID handle) RotationDeadlineElapsed) in
          Ret (classifyRotationMutationError e)
      end
  end end.

(** * Accounting for the staged token *)

(** How far a beginning rotation has come: nothing yet; the current token
    resolves to the destination; its state was read; a token is staged to
    replace [old] (and its activation has been refused or not); the token is
    active; nothing of the rotation is left; the state of the token is in
    doubt. *)
Inductive begun : Type :=
| BgNothing
| BgResolved
| BgInspected (snapshot : DestinationLifecycleSnapshot)
| BgStaged (created : CreatedStagedToken) (old : DestinationTokenRecordID) (refused : bool)
| BgActive (created : CreatedStagedToken) (old : DestinationTokenRecordID)
    (receipt : DestinationTokenRotationActivationReceipt)
| BgOver
| BgRefused (new old : DestinationTokenRecordID)
| BgDoubt (new old : DestinationTokenRecordID).

(** What an error of the lifecycle says: the error value that it is, or that it
    wraps and nothing else. *)
Fixpoint verdict (e : error) : option sentinel :=
  match e with
  | Sentinel s => Some s
  | SafeErr k _ | InternalErr k _ => verdict k
  | ReplayUnknown _ => None
  | Foreign d many causes =>
      if f_typed_nil d || many then None else match causes with [] => None | c :: _ => verdict c end
  end.

(** The contract of the lifecycle: these six errors mean that the command was
    not committed. After any other one, the unknown outcome among them, it may
    have been. *)
Definition not_committed (e : error) : bool :=
  match verdict e with
  | Some k => bool_decide (k ∈ [ErrDestinationLifecycleCanceled; ErrDestinationLifecycleDeadline;
      ErrDestinationLifecycleInvalid; ErrDestinationLifecycleConflict; ErrDestinationLifecycleReconciliation;
      ErrDestinationLifecycleUnavailable])
  | None => false
  end.

Lemma single_cause_verdict e t : t <> ErrMigration -> singleCauseMatches e t = true -> verdict e = Some t.
Proof.
  intros Ht. unfold singleCauseMatches. generalize maximumDependencyErrorDepth as n. intros n.
  revert e. induction n as [|n IH]; intros e; [done|]. cbn [single_cause_from].
  destruct e as [s|k op|k b|c|d many causes]; cbn [typed_nil unwraps_many is_sentinel errors_unwrap verdict].
  - case_bool_decide as Hs; [by subst|]. destruct s; try (by destruct n). intros H%IH. cbn in H. congruence.
  - apply IH.
  - apply IH.
  - by destruct n.
  - destruct (f_typed_nil d), many; try done. cbn [orb]. destruct causes as [|c causes]; [by destruct n|]. apply IH.
Qed.

(** What the classification takes for a definite failure is one. *)
Lemma classified_not_committed e k : classifyRotationLifecycleError e = (Some k, false) -> not_committed e = true.
Proof.
  unfold classifyRotationLifecycleError. destruct (singleCauseMatches _ _); [done|]. unfold rotationErrorTable.
  cbn [rotationErrorFrom]. intros H. unfold not_committed.
  repeat match type of H with ((if ?b then _ else _), _) = _ => destruct b eqn:?;
    [match goal with E : singleCauseMatches _ _ = true |- _ => apply single_cause_verdict in E; [by rewrite E|done] end|] end.
  done.
Qed.

Section Begin.
Context (service : Participant) (request : DestinationTokenRotationRequest).

Definition for_request (aud : GatewayAudienceID) (dest : DestinationID) : bool :=
  (aud =?? rq_audienceID request) && (dest =?? rq_destination request).

(** [old] is the only token of the snapshot, and active. *)
Definition sole_active (snapshot : DestinationLifecycleSnapshot) (old : DestinationTokenRecordID) : bool :=
  for_request (sn_audienceID snapshot) (sn_destinationID snapshot) && sn_destinationEnabled snapshot &&
  (sn_status snapshot =? LifecycleActive) &&
  match sn_active snapshot, sn_staged snapshot, sn_retiring snapshot with
  | Some active, None, None => (v_state active =? DestinationTokenActive) && (v_recordID active =?? old)
  | _, _, _ => false
  end.

(** The protocol: the current token is resolved and the state is read; one
    token is staged in place of the only, active one, of that state; it is
    activated at most once, and aborted at most once, on a context that the
    caller's cancellation does not reach. *)
Definition begin_step (q : begun) (e : event RotE) : option begun :=
  match q, e with
  | q, existT (RoCtxErr _) _ => Some q
  | q, existT RoNow _ => Some q
  | BgNothing, existT (RoResolve _ aud token _) r =>
      if (aud =?? rq_audienceID request) && (token =?? rq_currentToken request) then
        Some (match r with Ok d => if d =?? rq_destination request then BgResolved else BgOver | Err _ => BgOver end)
      else None
  | BgResolved, existT (RoInspectState _ aud dest) r =>
      if for_request aud dest then Some (match r with Ok snapshot => BgInspected snapshot | Err _ => BgOver end) else None
  | BgInspected snapshot, existT (RoCreateRotationStaged _ aud dest old token) (created, err) =>
      if for_request aud dest && sole_active snapshot old && (token =?? rq_currentToken request) then
        Some (match err with
              | None => BgStaged created old false
              | Some e => if not_committed e then BgRefused (ct_recordID created) old
                          else BgDoubt (ct_recordID created) old
              end)
      else None
  | BgStaged created old false, existT (RoActivateRotation _ aud dest new' old') r =>
      if for_request aud dest && (new' =?? ct_recordID created) && (old' =?? old) then
        Some (match r with
              | Ok receipt => BgActive created old receipt
              | Err e => if not_committed e then BgStaged created old true else BgDoubt (ct_recordID created) old
              end)
      else None
  | BgStaged created old _, existT (RoAbortStaged ctx aud dest new') r =>
      if for_request aud dest && (new' =?? ct_recordID created) && (ctx =?? CtxDetached (pt_compensationTimeout service)) then
        Some (match r with None => BgOver | Some _ => BgDoubt (ct_recordID created) old end)
      else None
  | _, _ => None
  end.

Definition attempt_handle (new old : DestinationTokenRecordID) : DestinationTokenRotationHandle :=
  mkHandle (rq_audienceID request) (rq_destination request) new old.

(** The two records can be named in a handle. *)
Definition nameable (new old : DestinationTokenRecordID) : bool :=
  negb (arr_is_zero (rq_audienceID request)) && negb (arr_is_zero (rq_destination request)) &&
  negb (arr_is_zero new) && negb (arr_is_zero old) && (new <>?? old).

Definition rotation_kinds : list sentinel :=
  [ErrDestinationTokenRotationInvalid; ErrDestinationTokenRotationConflict; ErrDestinationTokenRotationUnavailable;
   ErrDestinationTokenRotationOutcomeUnknown; ErrDestinationTokenRotationReconciliation;
   ErrDestinationTokenRotationCanceled; ErrDestinationTokenRotationDeadline].

(** What a result says about the rotation. *)
Definition begin_post (r : DestinationTokenRotationAttempt * option error) (q : begun) : Prop :=
  match r with
  | (attempt, None) =>
      exists created old receipt, q = BgActive created old receipt /\ validRotationAttempt attempt true = true /\
        attempt = mkRotationAttempt (attempt_handle (ct_recordID created) old) (ct_token created)
          (rc_activatedAt receipt) (rc_retirementDeadline receipt)
  | (attempt, Some e) =>
      (exists k, e = Sentinel k /\ k ∈ rotation_kinds) /\
      ra_newToken attempt = [] /\ ra_activatedAt attempt = 0 /\ ra_retirementDeadline attempt = 0 /\
      match q with
      | BgNothing | BgResolved | BgInspected _ | BgOver => attempt = zero_attempt
      | BgRefused new old => attempt = zero_attempt \/
          (e = ErrDestinationTokenRotationReconciliation /\ ra_handle attempt = attempt_handle new old)
      | BgStaged created old _ => e = ErrDestinationTokenRotationReconciliation /\
          (nameable (ct_recordID created) old = true -> ra_handle attempt = attempt_handle (ct_recordID created) old)
      | BgActive created old _ => e = ErrDestinationTokenRotationReconciliation /\
          ra_handle attempt = attempt_handle (ct_recordID created) old
      | BgDoubt new old => e = ErrDestinationTokenRotationReconciliation /\
          (nameable new old = true -> ra_handle attempt = attempt_handle new old)
      end
  end.

Abbreviation bkeeps := (keeps (E := RotE) begin_step).

Lemma for_request_refl : for_request (rq_audienceID request) (rq_destination request) = true.
Proof. unfold for_request. by rewrite !bool_decide_eq_true_2. Qed.

Lemma nameable_handle new old : validRotationHandle (attempt_handle new old) = nameable new old.
Proof.
  unfold validRotationHandle, validRotationBinding, attempt_handle, nameable.
  cbn [hd_audienceID hd_destination hd_newActiveRecordID hd_oldRetiringRecordID].
  unfold ParseGatewayAudienceID, ParseDestinationID, ParseDestinationTokenRecordID.
  destruct (arr_is_zero (rq_audienceID request)) eqn:Ha, (arr_is_zero (rq_destination request)) eqn:Hd,
    (arr_is_zero new) eqn:Hn, (arr_is_zero old) eqn:Ho; cbn [orb andb negb]; try done; rewrite ?orb_true_r; try done.
  rewrite !state_parse_format by done. rewrite !(bool_decide_eq_true_2 (_ = _) eq_refl). cbn. by destruct (_ =?? _).
Qed.

Lemma keeps_rotationContextError {A} q ctx (f : option sentinel -> prog RotE A) post :
  (forall c, (forall k, c = Some k -> k = ErrDestinationTokenRotationCanceled \/ k = ErrDestinationTokenRotationDeadline) ->
   bkeeps q (f c) post) -> bkeeps q (bind (rotationContextError ctx) f) post.
Proof.
  intros H. unfold rotationContextError. destruct (ctx_is_nil ctx); [by apply H|].
  intros c. exists q. split; [by destruct q as [| | |? ? []| | | |]|]. cbn [bind call].
  destruct (opt_errors_is c Canceled); [apply H; intros k [= <-]; by left|].
  intros c'. exists q. split; [by destruct q as [| | |? ? []| | | |]|]. cbn [bind call].
  destruct (opt_errors_is c' DeadlineExceeded); apply H; [intros k [= <-]; by right|done].
Qed.

(** Every error is one of the participant's own. *)
Lemma rotationErrorFrom_kind e k : rotationErrorFrom rotationErrorTable e = Some k -> k ∈ rotation_kinds.
Proof.
  unfold rotationErrorTable. cbn [rotationErrorFrom]. intros H.
  repeat match type of H with (if ?b then _ else _) = _ => destruct b end; simplify_eq; by apply (bool_decide_eq_true_1 _).
Qed.

Lemma classify_kind e k u : classifyRotationLifecycleError e = (Some k, u) -> k ∈ rotation_kinds.
Proof.
  unfold classifyRotationLifecycleError. destruct (singleCauseMatches _ _).
  - intros [= <- <-]. by apply (bool_decide_eq_true_1 _).
  - intros H. apply (rotationErrorFrom_kind e). congruence.
Qed.

Lemma resolver_kind e : classifyRotationResolverError e ∈ rotation_kinds.
Proof.
  unfold classifyRotationResolverError. destruct (singleCauseMatches e Canceled), (singleCauseMatches e DeadlineExceeded),
    (singleCauseMatches e ErrDestinationNotFound); by apply (bool_decide_eq_true_1 _).
Qed.

Lemma premutation_kind e : classifyRotationPreMutationLifecycleError e ∈ rotation_kinds.
Proof.
  unfold classifyRotationPreMutationLifecycleError. destruct (classifyRotationLifecycleError e) as [[k|] u] eqn:E.
  - by eapply classify_kind.
  - by apply (bool_decide_eq_true_1 _).
Qed.

Lemma create_kind e : classifyRotationCreateError e ∈ rotation_kinds.
Proof.
  unfold classifyRotationCreateError. destruct (classifyRotationLifecycleError e) as [[k|] []] eqn:E;
    first [by eapply classify_kind | by apply (bool_decide_eq_true_1 _)].
Qed.

Lemma activation_kind e : (classifyRotationActivationError e).1 ∈ rotation_kinds.
Proof.
  unfold classifyRotationActivationError. destruct (classifyRotationLifecycleError e) as [[k|] []] eqn:E;
    first [by eapply classify_kind | by apply (bool_decide_eq_true_1 _)].
Qed.

(** The results of the failing paths. *)
Definition nothing_left (q : begun) : Prop :=
  match q with BgNothing | BgResolved | BgInspected _ | BgOver | BgRefused _ _ => True | _ => False end.

Lemma failed_post q k : k ∈ rotation_kinds -> nothing_left q -> begin_post (attempt_failed k) q.
Proof. intros Hk Hq. split; [by exists k|]. split_and!; try done. destruct q; try done. by left. Qed.

Lemma reconcile_post q new old :
  match q with
  | BgActive created old' _ | BgStaged created old' _ => new = ct_recordID created /\ old = old'
  | BgDoubt new' old' | BgRefused new' old' => new = new' /\ old = old'
  | _ => False
  end ->
  begin_post (reconcile request new old) q.
Proof.
  intros Hq. split; [eexists; split; [done|by apply (bool_decide_eq_true_1 _)]|].
  destruct q; try done; destruct Hq as [-> ->]; split_and!; try done. by right.
Qed.

Lemma canceled_kind k :
  k = ErrDestinationTokenRotationCanceled \/ k = ErrDestinationTokenRotationDeadline -> k ∈ rotation_kinds.
Proof. by intros [-> | ->]; apply (bool_decide_eq_true_1 _). Qed.

Lemma abortThen_keeps created old refused k :
  k ∈ rotation_kinds ->
  bkeeps (BgStaged created old refused) (abortThen service request (ct_recordID created) old k) begin_post.
Proof.
  intros Hk r. exists (match r with None => BgOver | Some _ => BgDoubt (ct_recordID created) old end). split.
  - destruct refused; simpl; rewrite for_request_refl, !bool_decide_eq_true_2 by done; done.
  - destruct r; [by apply reconcile_post|by apply failed_post].
Qed.

Lemma activateCreated_keeps ctx created old :
  bkeeps (BgStaged created old false) (activateCreated service ctx request created old) begin_post.
Proof.
  unfold activateCreated. cbv zeta. apply keeps_call. intros r.
  exists (match r with
          | Ok receipt => BgActive created old receipt
          | Err e => if not_committed e then BgStaged created old true else BgDoubt (ct_recordID created) old
          end).
  split; [simpl; rewrite for_request_refl, !bool_decide_eq_true_2 by done; done|].
  destruct r as [receipt|e].
  - assert (begin_post (reconcile request (ct_recordID created) old) (BgActive created old receipt)) as Hrec
      by (by apply reconcile_post).
    destruct (receipt_valid receipt) eqn:Hr; cbn [negb]; [|done].
    apply keeps_call. intros at_. exists (BgActive created old receipt). split; [done|].
    assert (forall unconfirmed : bool, bkeeps (BgActive created old receipt)
      (if unconfirmed then Ret (reconcile request (ct_recordID created) old)
       else
        let attempt := mkRotationAttempt (mkHandle (rq_audienceID request) (rq_destination request) (ct_recordID created) old)
          (ct_token created) (rc_activatedAt receipt) (rc_retirementDeadline receipt) in
        if negb (validRotationAttempt attempt true) then Ret (reconcile request (ct_recordID created) old)
        else Ret (attempt, None)) begin_post) as Hend.
    { intros []; [done|]. cbv zeta. destruct (validRotationAttempt _ true) eqn:Hv; cbn [negb]; [|done].
      by exists created, old, receipt. }
    destruct (receipt_validAt receipt at_); cbn [negb]; [|apply (Hend true)].
    cbn [bind]. apply keeps_bind with (fun _ q => q = BgActive created old receipt); [|intros c q ->; apply Hend].
    apply keeps_rotationContextError. by intros c _.
  - pose proof (activation_kind e) as Hk. unfold classifyRotationActivationError in *.
    destruct (classifyRotationLifecycleError e) as [[k|] []] eqn:Hc; cbn [negb];
      try (apply reconcile_post; by destruct (not_committed e)).
    rewrite (classified_not_committed e k Hc). by apply abortThen_keeps.
Qed.

Lemma createAndActivate_keeps ctx snapshot old :
  sole_active snapshot old = true ->
  bkeeps (BgInspected snapshot) (createAndActivate service ctx request old) begin_post.
Proof.
  intros Hsole. unfold createAndActivate. apply keeps_call. intros [created err].
  eexists. split; [cbn [begin_step ev]; rewrite for_request_refl, Hsole, bool_decide_eq_true_2 by done; reflexivity|].
  destruct err as [e|].
  - pose proof (create_kind e) as Hk. destruct (_ =?? ErrDestinationTokenRotationReconciliation) eqn:Hc.
    + apply bool_decide_eq_true in Hc. rewrite Hc. cbv zeta.
      change (validRotationHandle (ra_handle _)) with (validRotationHandle (attempt_handle (ct_recordID created) old)).
      rewrite nameable_handle. destruct (nameable _ _) eqn:Hv; [apply reconcile_post; by destruct (not_committed e)|].
      split; [eexists; split; [done|by rewrite <- Hc]|]. split_and!; try done.
      destruct (not_committed e); [by left|]. split; [done|congruence].
    + unfold classifyRotationCreateError in *. destruct (classifyRotationLifecycleError e) as [[k|] []] eqn:Hcl; try done.
      rewrite (classified_not_committed e k Hcl). by apply failed_post.
  - assert (forall b, validRotationHandle (attempt_handle (ct_recordID created) old) = false ->
      begin_post (attempt_failed ErrDestinationTokenRotationReconciliation) (BgStaged created old b)) as Hinv.
    { intros b Hv. rewrite nameable_handle in Hv. split; [eexists; split; [done|by apply (bool_decide_eq_true_1 _)]|].
      split_and!; try done. congruence. }
    destruct (arr_is_zero (ct_recordID created)) eqn:Hz.
    { apply Hinv. unfold validRotationHandle, attempt_handle. cbn [hd_audienceID hd_destination hd_newActiveRecordID].
      rewrite Hz, orb_true_r. done. }
    destruct (validRotationHandle (mkHandle _ _ _ _)) eqn:Hv; cbn [negb]; [|by apply Hinv].
    destruct (_ =?? []); [apply abortThen_keeps; by apply (bool_decide_eq_true_1 _)|].
    apply keeps_rotationContextError. intros [c|] Hc; [|apply activateCreated_keeps].
    apply abortThen_keeps, canceled_kind. by apply Hc.
Qed.

Lemma beginActive_kind snapshot aud dest e :
  rotationBeginActive snapshot aud dest = Err e -> exists k, e = Sentinel k /\ k ∈ rotation_kinds.
Proof.
  unfold rotationBeginActive. intros H. repeat case_match; simplify_eq; eexists; (split; [done|]); by apply (bool_decide_eq_true_1 _).
Qed.

Lemma beginActive_sole snapshot active :
  rotationBeginActive snapshot (rq_audienceID request) (rq_destination request) = Ok active ->
  sole_active snapshot (v_recordID active) = true.
Proof.
  unfold rotationBeginActive, sole_active, for_request. destruct (_ || _ || _) eqn:G; [done|]. intros Hb.
  repeat case_match; simplify_eq. bool_hyps. simplify_eq.
  repeat (rewrite bool_decide_eq_true_2 by done). rewrite !andb_true_iff. rewrite !Z.eqb_eq. done.
Qed.

Lemma BeginRotation_keeps ctx :
  bkeeps BgNothing (BeginRotation (Some service) ctx request) begin_post.
Proof.
  assert (forall e, (exists k, e = Sentinel k /\ k ∈ rotation_kinds) -> begin_post (zero_attempt, Some e) BgNothing) as Hzero.
  { intros e He. by split. }
  unfold BeginRotation, beginInput, rotationNow.
  destruct (_ || _); [apply Hzero; eexists; split; [done|by apply (bool_decide_eq_true_1 _)]|].
  apply keeps_bind with (fun r q => q = BgNothing /\ match r with
    | Ok (s, _) => s = service | Err e => exists k, e = Sentinel k /\ k ∈ rotation_kinds end).
  { apply keeps_bind with (fun r q => q = BgNothing /\ match r with
      | Ok _ => True | Err e => exists k, e = Sentinel k /\ k ∈ rotation_kinds end).
    - apply keeps_rotationContextError. intros [c|] Hc.
      + split; [done|]. exists c. split; [done|]. by apply canceled_kind, Hc.
      + intros now. exists BgNothing. split; [done|]. cbn [bind]. destruct (t_is_zero now); split; try done.
        eexists. split; [done|by apply (bool_decide_eq_true_1 _)].
    - intros [now|e] q [-> He]; done. }
  intros [[s now]|e] q [-> He]; [|by apply Hzero]. subst s. apply keeps_call. intros resolved.
  eexists. split; [cbn [begin_step ev]; rewrite !bool_decide_eq_true_2 by done; reflexivity|].
  destruct resolved as [resolved|e]; [|apply failed_post; [apply resolver_kind|done]].
  apply keeps_rotationContextError. intros [c|] Hc.
  { apply failed_post; [by apply canceled_kind, Hc|]. by case_bool_decide. }
  destruct (bool_decide (resolved = rq_destination request)); cbn [negb];
    [|apply failed_post; [by apply (bool_decide_eq_true_1 _)|done]].
  apply keeps_call. intros inspected. eexists. split; [cbn [begin_step ev]; rewrite for_request_refl; reflexivity|].
  destruct inspected as [snapshot|e]; [|apply failed_post; [apply premutation_kind|done]].
  apply keeps_rotationContextError. intros [c|] Hc'; [apply failed_post; [by apply canceled_kind, Hc'|done]|].
  destruct (rotationBeginActive _ _ _) as [oldActive|e] eqn:Hb.
  - apply createAndActivate_keeps. by apply beginActive_sole.
  - destruct (beginActive_kind _ _ _ _ Hb) as (k & -> & Hk). by apply failed_post.
Qed.
End Begin.

(** (C11) A beginning rotation never loses a token. Whatever its dependencies
    answer, [BeginRotation] keeps the protocol [begin_step]: it stages a token
    only after the current one resolved to the destination and was its only,
    active token, and activates only what it staged. It succeeds only when the
    activation was confirmed, and then returns exactly the staged token and
    the receipt. A failure carries one of the participant's errors and no
    token. Whether a token may be left is judged by the contract of the
    lifecycle ([not_committed]), not by the classification in the code: if the
    staged token may exist or be active, the error asks for reconciliation and
    names the two records; a token that may be active is never aborted; and any
    other failure leaves nothing staged. *)
Theorem rotation_begin_accounts service ctx request tr r
    (Hrun : runs (BeginRotation (Some service) ctx request) tr r) :
  exists q, proto_run (begin_step service request) BgNothing tr = Some q /\ begin_post request r q.
Proof. by eapply keeps_runs; [apply BeginRotation_keeps|]. Qed.

(** * Ending a rotation *)

(** A call that changes tokens. *)
Definition mutates (e : event RotE) : bool :=
  match projT1 e with
  | RoCreateRotationStaged _ _ _ _ _ | RoActivateRotation _ _ _ _ _ | RoAbortStaged _ _ _ _
  | RoRollback _ _ _ _ _ | RoFinalize _ _ _ _ _ _ => true
  | _ => false
  end.

Definition quiet (tr : trace RotE) : Prop := Forall (fun e => mutates e = false) tr.

Definition rotation_error (e : error) : Prop := exists k, e = Sentinel k /\ k ∈ rotation_kinds.

(** The two records were seen in overlap at [now], the reading of the clock. *)
Definition overlap_seen (ctx : Ctx) (handle : DestinationTokenRotationHandle) (tr : trace RotE) (now : Time)
    (obs : DestinationTokenRotationObservation) : Prop :=
  @ev RotE RoNow now ∈ tr /\
  (exists attempt, @ev RotE (RoInspectAttempt ctx (hd_audienceID handle) (hd_destination handle)
     (hd_newActiveRecordID handle) (hd_oldRetiringRecordID handle) now) (Ok attempt) ∈ tr /\
   classifyRotationSnapshot attempt handle now = Ok obs) /\
  ob_status obs = DestinationTokenRotationActiveWithRetiring.

(** How an operation that may send [mutation] ends: it fails without changing
    a token, or it saw the overlap while [allowed], sent the mutation once and
    reports its outcome. *)
Definition end_outcome (ctx : Ctx) (handle : DestinationTokenRotationHandle)
    (allowed : Time -> DestinationTokenRotationObservation -> Prop) (mutation : option error -> event RotE)
    (tr : trace RotE) (r : option error) : Prop :=
  (quiet tr /\ exists e, r = Some e /\ rotation_error e) \/
  (exists before answer now obs, tr = before ++ [mutation answer] /\ quiet before /\
     overlap_seen ctx handle before now obs /\ allowed now obs /\ r = classifyRotationMutationError answer).

Lemma rot_quiet_app tr1 tr2 : quiet (tr1 ++ tr2) <-> quiet tr1 /\ quiet tr2.
Proof. apply Forall_app. Qed.

Lemma contextError_runs ctx tr c :
  runs (rotationContextError ctx) tr c -> quiet tr /\ (forall k, c = Some k -> rotation_error (Sentinel k)).
Proof.
  unfold rotationContextError. intros H. runs_steps; subst; (split; [repeat constructor|]); intros k Hk; simplify_eq;
    eexists; (split; [done|]); by apply (bool_decide_eq_true_1 _).
Qed.

Lemma operationNow_runs service ctx handle tr r :
  runs (operationNow service ctx handle) tr r ->
  quiet tr /\ match r with Ok now => @ev RotE RoNow now ∈ tr | Err e => rotation_error e end.
Proof.
  assert (rotation_error ErrDestinationTokenRotationInvalid) as Hinv
    by (eexists; split; [done|by apply (bool_decide_eq_true_1 _)]).
  unfold operationNow, rotationNow. destruct service as [service|]; [|intros [-> ->]; by split; [constructor|]].
  destruct (_ || _); [intros [-> ->]; by split; [constructor|]|].
  intros H. apply runs_bind in H as (t1 & t2 & c & -> & Hc & H). apply contextError_runs in Hc as [Hq Hc].
  destruct c as [c|]; [destruct H as [-> ->]; split; [by rewrite app_nil_r|by apply Hc]|].
  destruct H as (now & t3 & -> & H). cbn [bind] in H. rewrite rot_quiet_app.
  destruct (t_is_zero now); destruct H as [-> ->];
    (split; [split; [done|repeat constructor]|]); [done|apply elem_of_app; right; apply list_elem_of_here].
Qed.

Lemma classifySnapshot_error attempt handle now e : classifyRotationSnapshot attempt handle now = Err e -> rotation_error e.
Proof.
  unfold classifyRotationSnapshot. cbv zeta. intros H.
  repeat match type of H with
  | (if ?b then _ else _) = _ => destruct b
  | match ?x with _ => _ end = _ => destruct x
  end; simplify_eq; eexists; (split; [done|]); by apply (bool_decide_eq_true_1 _).
Qed.

Lemma inspectRotation_runs ctx handle now tr r :
  runs (inspectRotation ctx handle now) tr r ->
  quiet tr /\ match r with
  | Ok obs => exists attempt, @ev RotE (RoInspectAttempt ctx (hd_audienceID handle) (hd_destination handle)
      (hd_newActiveRecordID handle) (hd_oldRetiringRecordID handle) now) (Ok attempt) ∈ tr /\
      classifyRotationSnapshot attempt handle now = Ok obs
  | Err e => rotation_error e
  end.
Proof.
  intros (inspected & t1 & -> & H). cbn [bind] in H. destruct inspected as [attempt|e].
  - apply runs_bind in H as (t2 & t3 & c & -> & Hc & H). apply contextError_runs in Hc as [Hq Hc].
    split; [constructor; [done|]; apply rot_quiet_app; split; [done|]; destruct c; destruct H as [-> _]; constructor|].
    destruct c as [c|]; destruct H as [_ ->]; [by apply Hc|].
    destruct (classifyRotationSnapshot attempt handle now) eqn:E; [|by eapply classifySnapshot_error].
    exists attempt. split; [apply list_elem_of_here|done].
  - destruct H as [-> ->]. split; [repeat constructor|].
    eexists; split; [done|]; by apply (bool_decide_eq_true_1 _).
Qed.

(** The end the two operations share. *)
Lemma end_runs service ctx handle (refuse : Time -> DestinationTokenRotationObservation -> bool)
    (o : rot_op) (Ho : ans RotE o = option error) tr r :
  runs (let! input := operationNow service ctx handle in
        match input with
        | Err e => Ret (Some e)
        | Ok now =>
          let! inspection := inspectRotation ctx handle now in
          match inspection with
          | Err e => Ret (Some e)
          | Ok inspection =>
            if refuse now inspection then Ret (Some (Sentinel ErrDestinationTokenRotationConflict))
            else
            let! cancellation := rotationContextError ctx in
            match cancellation with
            | Some c => Ret (Some (Sentinel c))
            | None => let! e := @call RotE o in Ret (classifyRotationMutationError (eq_rect _ (fun T => T) e _ Ho))
            end
          end
        end) tr r ->
  (forall now obs, refuse now obs = false -> ob_status obs = DestinationTokenRotationActiveWithRetiring) ->
  end_outcome ctx handle (fun now obs => refuse now obs = false)
    (fun answer => ev (E := RotE) o (eq_rect_r (fun T => T) answer Ho)) tr r.
Proof.
  intros H Hst. apply runs_bind in H as (t1 & t2 & input & -> & Hi & H). apply operationNow_runs in Hi as [Hq1 Hi].
  destruct input as [now|e]; [|destruct H as [-> ->]; left; rewrite app_nil_r; eauto].
  apply runs_bind in H as (t3 & t4 & insp & -> & Hin & H). apply inspectRotation_runs in Hin as [Hq2 Hin].
  destruct insp as [obs|e]; [|destruct H as [-> ->]; left; rewrite app_nil_r; split; [by apply rot_quiet_app|eauto]].
  destruct (refuse now obs) eqn:Hr.
  { destruct H as [-> ->]. left. rewrite app_nil_r. split; [by apply rot_quiet_app|].
    eexists; split; [done|]. eexists; split; [done|]. by apply (bool_decide_eq_true_1 _). }
  apply runs_bind in H as (t5 & t6 & c & -> & Hc & H). apply contextError_runs in Hc as [Hq3 Hc].
  destruct c as [c|].
  { destruct H as [-> ->]. left. rewrite app_nil_r. split; [by rewrite !rot_quiet_app|]. eauto. }
  destruct H as (answer & t7 & -> & [-> ->]). right. destruct Hin as (attempt & Hat & Hcl).
  exists (t1 ++ t3 ++ t5), (eq_rect _ (fun T => T) answer _ Ho), now, obs.
  split; [rewrite <- !app_assoc; do 3 f_equal; by rewrite rew_opp_l|]. split; [by rewrite !rot_quiet_app|].
  split; [|done]. split; [apply elem_of_app; by left|]. split; [|by eapply Hst].
  exists attempt. split; [rewrite !elem_of_app; auto|done].
Qed.

Lemma end_outcome_mono ctx handle (P P' : Time -> DestinationTokenRotationObservation -> Prop) mutation tr r :
  (forall now obs, P now obs -> P' now obs) -> end_outcome ctx handle P mutation tr r -> end_outcome ctx handle P' mutation tr r.
Proof. intros HP [H|(before & answer & now & obs & ? & ? & ? & ? & ?)]; [by left|right; eauto 10]. Qed.

(** (C13) A rotation is ended only from its overlap, on the right side of its
    deadline. In every execution, [RollbackRotation] and [FinalizeRotation]
    fail with one of the participant's errors before changing any token, or
    they saw the two records of the handle in overlap at an instant before the
    deadline (to roll back) or not before it (to finalize), then sent exactly
    that mutation, once, as their last call, and report its outcome. *)
Theorem rotation_end_guarded service ctx handle tr r :
  (runs (participant_RollbackRotation service ctx handle) tr r ->
   end_outcome ctx handle (fun now obs => now < ob_retirementDeadline obs)
     (fun answer => @ev RotE (RoRollback ctx (hd_audienceID handle) (hd_destination handle)
        (hd_newActiveRecordID handle) (hd_oldRetiringRecordID handle)) answer) tr r) /\
  (runs (participant_FinalizeRotation service ctx handle) tr r ->
   end_outcome ctx handle (fun now obs => ob_retirementDeadline obs <= now)
     (fun answer => @ev RotE (RoFinalize ctx (hd_audienceID handle) (hd_destination handle)
        (hd_newActiveRecordID handle) (hd_oldRetiringRecordID handle) RotationDeadlineElapsed) answer) tr r).
Proof.
  split; intros H.
  - eapply (end_outcome_mono _ _ (fun now obs => negb (ob_status obs =? DestinationTokenRotationActiveWithRetiring) ||
      negb (t_before now (ob_retirementDeadline obs)) = false)); [intros now obs; unfold_time; lia|].
    apply (end_runs service ctx handle _ (RoRollback ctx (hd_audienceID handle) (hd_destination handle)
      (hd_newActiveRecordID handle) (hd_oldRetiringRecordID handle)) eq_refl); [|intros now obs; lia].
    eapply runs_ext; [|exact H]. intros [now|e] tr' b H'; [|done]. eapply runs_ext; [|exact H'].
    intros [obs|e] tr'' b' H''; [|done]. destruct (ob_status obs =? _); [|done]. done.
  - eapply (end_outcome_mono _ _ (fun now obs => negb (ob_status obs =? DestinationTokenRotationActiveWithRetiring) ||
      t_before now (ob_retirementDeadline obs) = false)); [intros now obs; unfold_time; lia|].
    apply (end_runs service ctx handle _ (RoFinalize ctx (hd_audienceID handle) (hd_destination handle)
      (hd_newActiveRecordID handle) (hd_oldRetiringRecordID handle) RotationDeadlineElapsed) eq_refl); [|intros now obs; lia].
    exact H.
Qed.

(** * A rotation begins *)

Definition sample_participant : Participant := mkParticipant false false false false false (10 * Second).
Definition sample_request : DestinationTokenRotationRequest :=
  mkRotationRequest sample_audience (mk_arr 16 [x06]) sample_token.
Definition sample_active_view : LifecycleTokenView :=
  mkView (mk_arr 16 [x07]) DestinationTokenActive sample_t0 (sample_t0 + 90 * 24 * Hour) (sample_t0 + 24 * Hour)
    (sample_t0 + Second) 0 0 0 (sample_t0 + Second).

(** Dependencies that answer; the activation fails with [activation]. *)
Definition sample_rotation (activation : option error) (o : rot_op) (u : unit) : ans RotE o * unit :=
  (match o return ans RotE o with
   | RoCtxErr _ => None
   | RoNow => sample_t0 + Hour
   | RoResolve _ _ _ _ => Ok (mk_arr 16 [x06])
   | RoIdentify _ _ _ _ _ _ _ => Ok DestinationTokenRotationTokenNeither
   | RoInspectAttempt _ _ _ _ _ _ => Err ErrDestinationLifecycleConflict
   | RoInspectState _ _ _ =>
       Ok (mkSnapshot sample_audience (mk_arr 16 [x06]) true LifecycleActive None (Some sample_active_view) None)
   | RoCreateRotationStaged _ _ _ _ _ => (mkCreated (mk_arr 16 [x08]) (lit "token"), None)
   | RoActivateRotation _ _ _ _ _ =>
       match activation with
       | Some e => Err e
       | None => Ok (mkActivationReceipt (sample_t0 + Hour) (sample_t0 + 2 * Hour))
       end
   | RoAbortStaged _ _ _ _ | RoRollback _ _ _ _ _ | RoFinalize _ _ _ _ _ _ => None
   end, tt).

Definition begin_sample : prog RotE (DestinationTokenRotationAttempt * option error) :=
  BeginRotation (Some sample_participant) CtxReq sample_request.

(** A confirmed activation returns the token; a refused one undoes the staging;
    after an unknown outcome the handle is returned for reconciliation. *)
Example begin_outcomes :
  let r a := (run (E := RotE) (sample_rotation a) begin_sample tt).1 in
  let summary x := (ra_newToken x.1, arr_list (hd_newActiveRecordID (ra_handle x.1)), x.2) in
  summary (r None) = (lit "token", arr_list (mk_arr 16 [x08]), None) /\
  summary (r (Some (Sentinel ErrDestinationLifecycleConflict))) =
    ([], arr_list (zero_arr 16), Some (Sentinel ErrDestinationTokenRotationConflict)) /\
  summary (r (Some (Sentinel ErrDestinationLifecycleOutcomeUnknown))) =
    ([], arr_list (mk_arr 16 [x08]), Some (Sentinel ErrDestinationTokenRotationReconciliation)).
Proof. vm_compute. done. Qed.

Lemma rotation_begin_accounts_witness :
  let p := begin_sample in
  (run (E := RotE) (sample_rotation None) p tt).1.2 = None /\
  exists q, proto_run (begin_step sample_participant sample_request) BgNothing
      (run_trace (E := RotE) (sample_rotation None) p tt) = Some q /\
    begin_post sample_request (run (E := RotE) (sample_rotation None) p tt).1 q.
Proof.
  intros p. split; [vm_compute; reflexivity|].
  apply (rotation_begin_accounts sample_participant CtxReq sample_request), run_runs.
Defined.
