(* ===== verification/RotationHistory.v ===== *)
(** What the rotation participant of Rotation.v observes of the commands of
    LifecycleSpec.v: every end of a rotation is recognised from the rows that
    it leaves. *)

From Stdlib Require Import ZifyBool.
From S2P Require Import Prelude Effects GoErrors GoTime Encoding Uuid PgTypes SecurityTypes TokenRows.
From S2P Require Import Lifecycle LifecycleRepo LifecycleSpec LifecycleStore Resolver Rotation.

(** The snapshot of an attempt whose destination is in a phase. *)
Definition attempt_of (d : Destination) (now : Time) (ph : phase) (new old : DestinationToken)
  : DestinationTokenRotationAttemptSnapshot :=
  mkAttempt (snapshot_of d now ph) (lifecycleTokenView new) (lifecycleTokenView old).

Definition handle_of (d : Destination) (new old : DestinationToken) : DestinationTokenRotationHandle :=
  mkHandle (dst_audienceID d) (dst_id d) (ts_RecordID new) (ts_RecordID old).

(** What is observed of an attempt at [now]. *)
Definition observed (d : Destination) (now : Time) (ph : phase) (new old : DestinationToken)
  : result DestinationTokenRotationObservation :=
  classifyRotationSnapshot (attempt_of d now ph new old) (handle_of d new old) now.

Definition ended (status : DestinationTokenRotationStatus) : result DestinationTokenRotationObservation :=
  Ok (mkObservation status 0 0 0).

Lemma viewsEqual_refl v : viewsEqual v v = true.
Proof. unfold viewsEqual, t_equal. rewrite bool_decide_eq_true_2, !Z.eqb_refl by done. done. Qed.

(** The snapshot and the handle agree on what they name. *)
Lemma observed_unfold d now ph new old :
  destination_Enabled d = true ->
  observed d now ph new old =
  match overlapObserved (attempt_of d now ph new old) (handle_of d new old) now with
  | Some retiring => Ok (mkObservation DestinationTokenRotationActiveWithRetiring 0 now (v_retirementDeadline retiring))
  | None =>
    if stagedObserved (attempt_of d now ph new old) (handle_of d new old)
    then Err ErrDestinationTokenRotationReconciliation
    else match endObserved (attempt_of d now ph new old) (handle_of d new old) now with
         | Some status => ended status
         | None => if sn_status (snapshot_of d now ph) =? LifecycleReconciliationRequired
                   then Err ErrDestinationTokenRotationReconciliation else Err ErrDestinationTokenRotationConflict
         end
  end.
Proof.
  intros He. unfold observed, classifyRotationSnapshot. cbv zeta.
  generalize (overlapObserved (attempt_of d now ph new old) (handle_of d new old) now)
    (stagedObserved (attempt_of d now ph new old) (handle_of d new old))
    (endObserved (attempt_of d now ph new old) (handle_of d new old) now). intros x y z.
  cbn [attempt_of handle_of snapshot_of at_lifecycle at_newToken at_oldToken sn_audienceID sn_destinationID
    sn_destinationEnabled hd_audienceID hd_destination hd_newActiveRecordID hd_oldRetiringRecordID lifecycleTokenView
    v_recordID].
  rewrite He, !bool_decide_eq_true_2 by done. done.
Qed.

Lemma good_enabled d now ph : phase_good d now ph = true -> destination_Enabled d = true.
Proof. unfold phase_good, phase_stale. destruct (destination_Enabled d); [done|]. by rewrite orb_true_l. Qed.

Lemma good_active d now a :
  token_ok a -> token_in d DestinationTokenActive a -> phase_good d now (PhaseActive a) = true ->
  ts_StateChangedAt a <= now < ts_ExpiresAt a.
Proof.
  intros Hok Hin Hg. pose proof (good_enabled _ _ _ Hg) as He. unfold phase_good, phase_stale in Hg. rewrite He in Hg.
  cbn [negb orb phase_tokens existsb] in Hg. rewrite orb_false_r, negb_true_iff in Hg. by apply (active_good d now a).
Qed.

(** Observing a single active token. *)
Lemma observed_active d now a new old :
  token_ok a -> token_in d DestinationTokenActive a -> phase_good d now (PhaseActive a) = true ->
  ts_RecordID new <> ts_RecordID old -> a = old \/ a = new ->
  observed d now (PhaseActive a) new old =
  if bool_decide (ts_RecordID a = ts_RecordID old)
  then if exactRolledBackAttempt (lifecycleTokenView new) (lifecycleTokenView old) now
       then ended DestinationTokenRotationRolledBack else Err ErrDestinationTokenRotationConflict
  else if exactCompletedAttempt (lifecycleTokenView new) (lifecycleTokenView old) now
       then ended DestinationTokenRotationCompleted else Err ErrDestinationTokenRotationConflict.
Proof.
  intros Hok Hin Hg Hne Hend. rewrite observed_unfold by (by eapply good_enabled).
  destruct (good_active _ _ _ Hok Hin Hg) as [Hc Hx]. destruct (token_order a Hok) as (_ & Ha & _).
  destruct Hin as (_ & _ & Hs). specialize (Ha Hs).
  unfold overlapObserved, stagedObserved, endObserved, attempt_of, snapshot_of, handle_of.
  unfold phase_good in Hg. apply negb_true_iff in Hg. rewrite Hg.
  cbn [at_lifecycle at_newToken at_oldToken sn_active sn_staged sn_retiring sn_status phase_active phase_staged
    phase_retiring fmap option_fmap option_map phase_status hd_newActiveRecordID hd_oldRetiringRecordID].
  assert ((LifecycleActive =? LifecycleActive) && (v_state (lifecycleTokenView a) =? DestinationTokenActive) &&
    t_before now (v_expiresAt (lifecycleTokenView a)) && negb (t_after (v_activatedAt (lifecycleTokenView a)) now) &&
    negb (t_after (v_stateChangedAt (lifecycleTokenView a)) now) = true) as ->.
  { cbn [lifecycleTokenView v_state v_expiresAt v_activatedAt v_stateChangedAt]. rewrite Hs. unfold_time.
    rewrite !Z.eqb_refl. cbn [andb]. lia. }
  destruct Hend as [-> | ->]; cbn [lifecycleTokenView v_recordID].
  - rewrite bool_decide_eq_true_2 by done. rewrite viewsEqual_refl. cbn [andb]. by destruct (exactRolledBackAttempt _ _ _).
  - rewrite bool_decide_eq_false_2, bool_decide_eq_true_2 by done. rewrite viewsEqual_refl. cbn [andb].
    by destruct (exactCompletedAttempt _ _ _).
Qed.

Lemma observed_rolled_back d now a new old :
  token_ok a -> token_in d DestinationTokenActive a -> phase_good d now (PhaseActive a) = true ->
  ts_RecordID new <> ts_RecordID old -> a = old ->
  exactRolledBackAttempt (lifecycleTokenView new) (lifecycleTokenView old) now = true ->
  observed d now (PhaseActive a) new old = ended DestinationTokenRotationRolledBack.
Proof.
  intros Hok Hin Hg Hne -> He. rewrite observed_active by auto. by rewrite bool_decide_eq_true_2, He by done.
Qed.

(** Observing an overlap. *)
Lemma observed_overlap d now new old :
  destination_Enabled d = true ->
  validRotationPairViews (lifecycleTokenView new) (lifecycleTokenView old) now = true ->
  phase_good d now (PhaseActiveRetiring new old) = true \/ ts_RetirementDeadline old <= now ->
  observed d now (PhaseActiveRetiring new old) new old =
  Ok (mkObservation DestinationTokenRotationActiveWithRetiring 0 now (ts_RetirementDeadline old)).
Proof.
  intros He Hp Hg. rewrite observed_unfold by done. unfold overlapObserved, attempt_of, handle_of, snapshot_of.
  cbn [at_lifecycle at_newToken at_oldToken sn_active sn_staged sn_retiring sn_status phase_active phase_staged
    phase_retiring fmap option_fmap option_map phase_status hd_newActiveRecordID hd_oldRetiringRecordID].
  rewrite !viewsEqual_refl, Hp. cbn [lifecycleTokenView v_recordID]. rewrite !bool_decide_eq_true_2 by done.
  cbn [andb]. unfold phase_good in Hg.
  assert (forall st, st = (if phase_stale d now (PhaseActiveRetiring new old) then LifecycleReconciliationRequired
    else LifecycleActiveWithRetiring) -> (st =? LifecycleActiveWithRetiring) ||
    (st =? LifecycleReconciliationRequired) && negb (t_before now (ts_RetirementDeadline old)) = true) as Hst.
  { intros st ->. destruct (phase_stale _ _ _); [|done]. destruct Hg as [Hg|Hg]; [done|]. cbn. unfold_time. lia. }
  cbn [lifecycleTokenView v_retirementDeadline]. rewrite Hst by done. done.
Qed.

(** * The history of a rotation *)

Lemma pg_time_stored x y : pg_time x <= y -> pg_time x <= pg_time y.
Proof. intros H. apply pg_time_mono in H. unfold pg_time in *. by rewrite t_truncate_idem in H. Qed.

Lemma pg_time_le x : pg_time x <= x.
Proof. apply t_truncate_le. Qed.

Section History.
(** A token staged beside the active one, no earlier than its last change. *)
Context (d : Destination) (a : DestinationToken) (c : StagedTokenCandidate).
Let s := staged_token d c.
Hypothesis (Hvalid : phase_valid d (PhaseActiveStaged a s)).
Hypothesis (Hpos : 0 < ts_CreatedAt s).
Hypothesis (Hprec : ts_StateChangedAt a <= ts_CreatedAt s).

Lemma pair_facts :
  token_ok a /\ token_ok s /\ token_in d DestinationTokenActive a /\ token_in d DestinationTokenStaged s /\
  ts_RecordID s <> ts_RecordID a /\ ts_CreatedAt a <= ts_ActivatedAt a <= ts_StateChangedAt a /\ ts_ActivatedAt a <> 0 /\
  ts_RetirementStartedAt a = 0 /\ ts_RetirementDeadline a = 0 /\ ts_RevokedAt a = 0.
Proof.
  destruct Hvalid as [(Ha & Hs & Hne) Hok]. inversion Hok as [|? ? Hoka Hok1]; subst. inversion Hok1 as [|? ? Hoks _]; subst.
  destruct (token_order a Hoka) as (_ & Hord & _). destruct Ha as (Ha1 & Ha2 & Ha3). specialize (Hord Ha3).
  split; [done|]. split; [done|]. split; [done|]. split; [done|]. split; [congruence|]. split; [done|].
  destruct Hoka as [_ _ _ _ _ _ Hst]. rewrite Ha3 in Hst. unfold DestinationTokenActive, DestinationTokenStaged,
    DestinationTokenRetiring, DestinationTokenRevoked in Hst. clear -Hst. lia.
Qed.

(** An abort of the staged token is a rollback. *)
Lemma abort_observed t2 t3 ws ph :
  lifecycle_next d t2 (CmdAbort (ts_RecordID s)) (PhaseActiveStaged a s) = Some (ws, ph) ->
  t2 <= t3 -> phase_good d t3 ph = true ->
  ph = PhaseActive a /\ observed d t3 ph (revoked t2 s) a = ended DestinationTokenRotationRolledBack.
Proof.
  destruct pair_facts as (Hoka & Hoks & Hina & Hins & Hne & Hord & Ha0 & Hs0 & Hd0 & Hr0).
  cbn [lifecycle_next]. destruct (_ && _) eqn:G; [|done]. intros [= <- <-] Ht Hg. split; [done|].
  destruct (good_active _ _ _ Hoka Hina Hg) as [Hc Hx].
  apply andb_true_iff in G as [_ G]. unfold abort_allowed in G. bool_hyps.
  apply observed_rolled_back; [done|done|done|done|done|].
  destruct Hina as (_ & _ & Hsta). unfold exactRolledBackAttempt, revoked, moved, lifecycleTokenView. cbn -[pg_time Z.eqb].
  rewrite Hsta, Hs0, Hd0, Hr0. pose proof (pg_time_le t2).
  assert (ts_CreatedAt s <= pg_time t2) as Hc2 by (apply pg_time_stored; assumption).
  cbn [s staged_token ts_CreatedAt] in *. unfold_time. cbn -[pg_time]. rewrite if_false_true. lia.
Qed.

(** The rotation was activated at [t1] with the deadline [g]. *)
Context (t1 g : Time) (ws : list DestinationToken).
Let new := activated t1 s.
Let old := retired t1 g a.
Hypothesis (Hactivated :
  lifecycle_next d t1 (CmdActivateRotation (ts_RecordID s) (ts_RecordID a) g) (PhaseActiveStaged a s) =
  Some (ws, PhaseActiveRetiring new old)).
Hypothesis (Hactive : phase_valid d (PhaseActiveRetiring new old)).

(** The times of the two records. *)
Lemma overlap_facts :
  token_ok new /\ token_ok old /\ token_in d DestinationTokenActive new /\ token_in d DestinationTokenRetiring old /\
  destination_Enabled d = true /\
  ts_ActivatedAt a <= ts_CreatedAt s <= pg_time t1 /\ pg_time t1 < ts_StagedCleanupDeadline s /\
  pg_time t1 < pg_time g <= pg_time t1 + tokenMaxOverlap /\ pg_time g < ts_ExpiresAt s /\ pg_time g < ts_ExpiresAt a.
Proof.
  destruct pair_facts as (Hoka & Hoks & Hina & Hins & Hne & Hord & Ha0 & Hs0 & Hd0 & Hr0).
  destruct Hactive as [(Hn & Ho & _ & _) Hok]. inversion Hok as [|? ? Hokn Hok1]; subst. inversion Hok1 as [|? ? Hoko _]; subst.
  cbn [lifecycle_next] in Hactivated. destruct (_ && _) eqn:G; [|done]. clear Hactivated. bool_hyps.
  match goal with H : phase_good _ _ _ = true |- _ => pose proof (good_enabled _ _ _ H) as He;
    unfold phase_good, phase_stale in H; rewrite He in H; cbn [negb orb phase_tokens existsb] in H; rename H into Hg end.
  rewrite negb_true_iff, !orb_false_iff in Hg. destruct Hg as (_ & Hg & _). apply (staged_good d) in Hg; [|done|done].
  split; [done|]. split; [done|]. split; [done|]. split; [done|]. split; [done|].
  pose proof (pg_time_le t1). pose proof (pg_time_le g).
  assert (ts_CreatedAt s <= pg_time t1) as Hct by (apply pg_time_stored; apply Hg).
  destruct Hoko as [_ _ _ _ _ (_ & _ & _ & _ & Hret & _) _].
  assert (pg_time t1 <> 0) as Hnz by lia. cbn [retired moved ts_RetirementStartedAt ts_RetirementDeadline old] in Hret.
  split; [lia|]. split; [lia|]. split; [by apply Hret|lia].
Qed.

Lemma pair_views t :
  pg_time t1 <= t < ts_ExpiresAt s -> validRotationPairViews (lifecycleTokenView new) (lifecycleTokenView old) t = true.
Proof.
  intros Ht. destruct pair_facts as (_ & _ & _ & _ & _ & Hord & Ha0 & _).
  destruct overlap_facts as (_ & _ & _ & _ & _ & Hc & Hcl & Hg & Hgs & Hga).
  unfold validRotationPairViews, validActivatedRotationHistory, new, old, activated, retired, moved, lifecycleTokenView.
  cbn -[pg_time Z.eqb s]. unfold_time. rewrite !andb_true_iff. lia.
Qed.

(** The overlap is seen until the new token expires. *)
Lemma overlap_observed t :
  pg_time t1 <= t < ts_ExpiresAt s ->
  observed d t (PhaseActiveRetiring new old) new old =
  Ok (mkObservation DestinationTokenRotationActiveWithRetiring 0 t (pg_time g)).
Proof.
  intros Ht. destruct overlap_facts as (Hokn & Hoko & Hn & Ho & He & Hc & Hcl & Hg & Hgs & Hga).
  destruct pair_facts as (_ & _ & _ & _ & _ & Hord & _).
  apply observed_overlap; [done|by apply pair_views|].
  destruct (decide (pg_time g <= t)) as [Hd|Hd]; [by right|]. left. unfold phase_good, phase_stale. rewrite He.
  cbn [negb orb phase_tokens existsb].
  assert (token_stale t new = false) as -> by (apply (active_good d); [done|done|done|]; cbn -[pg_time s]; lia).
  assert (token_stale t old = false) as -> by (apply (retiring_good d); [done|done|done|]; cbn -[pg_time s]; lia).
  done.
Qed.

(** Times at which the overlap was good. *)
Lemma overlap_good t :
  phase_good d t (PhaseActiveRetiring new old) = true -> pg_time t1 <= t < pg_time g /\ t < ts_ExpiresAt s.
Proof.
  destruct overlap_facts as (Hokn & Hoko & Hn & Ho & He & _). intros H. unfold phase_good, phase_stale in H.
  rewrite He in H. cbn [negb orb phase_tokens existsb] in H. rewrite negb_true_iff, !orb_false_iff in H.
  destruct H as (H1 & H2 & _). apply (active_good d) in H1; [|done..]. apply (retiring_good d) in H2; [|done..].
  cbn -[pg_time s] in H1, H2. lia.
Qed.

Lemma rollback_observed t2 t3 ws' ph :
  lifecycle_next d t2 (CmdRollback (ts_RecordID s) (ts_RecordID a)) (PhaseActiveRetiring new old) = Some (ws', ph) ->
  phase_valid d ph -> phase_good d t3 ph = true ->
  observed d t3 ph (revoked t2 new) (restored t2 old) = ended DestinationTokenRotationRolledBack.
Proof.
  destruct pair_facts as (_ & _ & _ & _ & Hne & Hord & Ha0 & _ & _ & Hr0).
  destruct overlap_facts as (_ & _ & _ & _ & _ & Hc & Hcl & Hg & Hgs & Hga).
  cbn [lifecycle_next]. destruct (_ && _) eqn:G; [|done]. intros [= <- <-] [Hin Hok] Hg3. bool_hyps.
  match goal with H : phase_good _ t2 _ = true |- _ => destruct (overlap_good _ H) as [Ht2 Hx2] end.
  inversion Hok as [|? ? Hoko _]; subst. destruct (good_active _ _ _ Hoko Hin Hg3) as [Hc3 Hx3]. cbn -[pg_time s] in Hc3, Hx3.
  apply observed_rolled_back; [done|done|done|done|done|].
  assert (pg_time t1 <= pg_time t2) as H12 by apply pg_time_stored, Ht2. pose proof (pg_time_le t2).
  unfold exactRolledBackAttempt, validActivatedRotationHistory, MaximumRetiringOverlapDuration, tokenMaxOverlap in *.
  unfold revoked, restored, new, old, activated, retired, moved, lifecycleTokenView. cbn -[pg_time Z.eqb s Hour].
  rewrite Hr0. change (ts_RetirementStartedAt s) with 0. change (ts_RetirementDeadline s) with 0.
  unfold_time. unfold Hour, Minute, Second in *. rewrite if_false_true, !Z.eqb_refl.
  assert ((pg_time t1 =? 0) = false) as -> by lia. split; lia.
Qed.

Lemma finalize_observed t2 t3 reason ws' ph :
  lifecycle_next d t2 (CmdFinalize (ts_RecordID s) (ts_RecordID a) reason) (PhaseActiveRetiring new old) = Some (ws', ph) ->
  t2 <= t3 -> phase_good d t3 ph = true ->
  observed d t3 ph new (revoked t2 old) =
  if pg_time g <=? pg_time t2 then ended DestinationTokenRotationCompleted else Err ErrDestinationTokenRotationConflict.
Proof.
  destruct pair_facts as (_ & _ & _ & _ & Hne & Hord & Ha0 & _ & _ & Hr0).
  destruct overlap_facts as (Hokn & _ & Hn & _ & He & Hc & Hcl & Hg & Hgs & Hga).
  cbn [lifecycle_next]. destruct (_ && _) eqn:G; [|done]. intros [= <- <-] Ht Hg3. bool_hyps.
  match goal with H : token_stale t2 _ = false |- _ => apply (active_good d) in H as [Hch _]; [|done..] end.
  cbn -[pg_time s] in Hch. assert (pg_time t1 <= pg_time t2) as H12 by apply pg_time_stored, Hch.
  rewrite observed_active by auto. rewrite bool_decide_eq_false_2 by done. pose proof (pg_time_le t2).
  assert (exactCompletedAttempt (lifecycleTokenView new) (lifecycleTokenView (revoked t2 old)) t3 =
    (pg_time g <=? pg_time t2)) as ->; [|done].
  unfold exactCompletedAttempt, validActivatedRotationHistory.
  unfold revoked, new, old, activated, retired, moved, lifecycleTokenView. cbn -[pg_time Z.eqb s].
  unfold_time. apply eq_true_iff_eq. rewrite !andb_true_iff. lia.
Qed.

(** The deadline reason is refused before the deadline. *)
Lemma finalize_deadline t2 ws' ph :
  lifecycle_next d t2 (CmdFinalize (ts_RecordID s) (ts_RecordID a) RotationDeadlineElapsed) (PhaseActiveRetiring new old) =
    Some (ws', ph) -> pg_time g <= pg_time t2.
Proof.
  cbn [lifecycle_next]. destruct (_ && _) eqn:G; [|done]. intros _. bool_hyps.
  match goal with H : _ \/ _ |- _ => destruct H as [Hr|Hr]; [done|] end. apply Z.leb_le in Hr. cbn -[pg_time s] in Hr.
  by apply pg_time_stored.
Qed.
End History.

(** (C12) Every rotation is recognised from what it leaves. Let a token be
    staged beside the active one, no earlier than the active one's last
    change. If it is aborted, the attempt is later observed as rolled back. If
    it is activated, the attempt is observed as an overlap with the recorded
    deadline, as long as the new token has not expired; after a rollback it is
    observed as rolled back. After a finalization, whatever its reason, it is
    observed as completed if the old token was revoked at the deadline or
    later. A finalization before the deadline, which only the reason
    verified-and-drained permits and which the participant never sends, is not
    recognised: it is observed as a conflict. The ends are observed so at every
    later instant at which the remaining token is good: enabled, not expired,
    not changed in the future. *)
Theorem rotation_history_observed d a c t1 g ws
    (s := staged_token d c) (new := activated t1 s) (old := retired t1 g a)
    (Hvalid : phase_valid d (PhaseActiveStaged a s)) (Hpos : 0 < ts_CreatedAt s)
    (Hprec : ts_StateChangedAt a <= ts_CreatedAt s) :
  (forall t2 t3 ws' ph,
     lifecycle_next d t2 (CmdAbort (ts_RecordID s)) (PhaseActiveStaged a s) = Some (ws', ph) ->
     t2 <= t3 -> phase_good d t3 ph = true ->
     observed d t3 ph (revoked t2 s) a = ended DestinationTokenRotationRolledBack) /\
  (lifecycle_next d t1 (CmdActivateRotation (ts_RecordID s) (ts_RecordID a) g) (PhaseActiveStaged a s) =
     Some (ws, PhaseActiveRetiring new old) -> phase_valid d (PhaseActiveRetiring new old) ->
   (forall t, pg_time t1 <= t < ts_ExpiresAt s ->
      observed d t (PhaseActiveRetiring new old) new old =
      Ok (mkObservation DestinationTokenRotationActiveWithRetiring 0 t (pg_time g))) /\
   (forall t2 t3 ws' ph,
      lifecycle_next d t2 (CmdRollback (ts_RecordID s) (ts_RecordID a)) (PhaseActiveRetiring new old) = Some (ws', ph) ->
      phase_valid d ph -> phase_good d t3 ph = true ->
      observed d t3 ph (revoked t2 new) (restored t2 old) = ended DestinationTokenRotationRolledBack) /\
   (forall t2 t3 reason ws' ph,
      lifecycle_next d t2 (CmdFinalize (ts_RecordID s) (ts_RecordID a) reason)
        (PhaseActiveRetiring new old) = Some (ws', ph) ->
      t2 <= t3 -> phase_good d t3 ph = true ->
      (reason = RotationDeadlineElapsed -> pg_time g <= pg_time t2) /\
      observed d t3 ph new (revoked t2 old) =
        if pg_time g <=? pg_time t2 then ended DestinationTokenRotationCompleted
        else Err ErrDestinationTokenRotationConflict)).
Proof.
  split; [intros; by eapply abort_observed|]. intros Hact Hv. split_and!; intros.
  - by eapply overlap_observed.
  - by eapply rollback_observed.
  - split; [|by eapply finalize_observed]. intros ->. by eapply finalize_deadline.
Qed.

Definition history_active : DestinationToken :=
  activated (sample_t0 + 2 * Second) (staged_token sample_destination (sample_staged x11 (sample_t0 + Second))).
Definition history_candidate : StagedTokenCandidate := sample_staged x22 (sample_t0 + 3 * Second).

Lemma token_ok_check t : validateDestinationTokenSpec t = None -> token_ok t.
Proof. apply validateDestinationTokenSpec_none. Qed.

(** A rotation finalized an hour after its deadline, and one that was verified
    and drained before it. *)
Lemma rotation_history_observed_witness :
  let s := staged_token sample_destination history_candidate in
  let new := activated (sample_t0 + 4 * Second) s in
  let old := retired (sample_t0 + 4 * Second) (sample_t0 + Hour) history_active in
  observed sample_destination (sample_t0 + 3 * Hour) (PhaseActive new) new (revoked (sample_t0 + 2 * Hour) old) =
    ended DestinationTokenRotationCompleted /\
  observed sample_destination (sample_t0 + 3 * Hour) (PhaseActive new) new (revoked (sample_t0 + Minute) old) =
    Err ErrDestinationTokenRotationConflict.
Proof.
  intros s new old.
  pose proof (proj2 (proj2 (proj2 (rotation_history_observed sample_destination history_active history_candidate
    (sample_t0 + 4 * Second) (sample_t0 + Hour) [old; new]
    ltac:(split; [split_and!; by try (vm_compute; discriminate)|
                  constructor; [|constructor; [|constructor]]; apply token_ok_check; vm_compute; reflexivity])
    ltac:(vm_compute; reflexivity) ltac:(vm_compute; discriminate))
    ltac:(vm_compute; reflexivity)
    ltac:(split; [split_and!; by try (vm_compute; discriminate)|
                  constructor; [|constructor; [|constructor]]; apply token_ok_check; vm_compute; reflexivity])))) as H.
  split.
  - apply (H (sample_t0 + 2 * Hour) (sample_t0 + 3 * Hour) RotationDeadlineElapsed [revoked (sample_t0 + 2 * Hour) old]).
    + vm_compute. reflexivity.
    + vm_compute. discriminate.
    + vm_compute. reflexivity.
  - apply (H (sample_t0 + Minute) (sample_t0 + 3 * Hour) RotationVerifiedAndDrained [revoked (sample_t0 + Minute) old]).
    + vm_compute. reflexivity.
    + vm_compute. discriminate.
    + vm_compute. reflexivity.
Defined.
