(* ===== verification/Migrations.v ===== *)
(** The schema migrations: internal/postgres/migrations.go (the embedded
    files), inspect.go (the classification of the recorded migrations),
    runner.go (the migration loop) and pgbackend.go (the advisory lock, one
    transaction per migration, and the reading of the metadata table).

    The pool, the connection, the transaction, the clock and the log are
    external calls. A result set is the finite list of what [Scan] answers for
    its rows; the loops over [rows.Next] walk it. *)

From stdpp Require Import gmap sorting.
From S2P Require Import Prelude Effects GoTime GoErrors Encoding Sha256 Events Canonical Json.

(** * Migrations *)

Record Migration : Type := mkMigration {
  m_Version : Z;
  m_Name : bytes;
  m_SQL : bytes;
  m_Checksum : bytes
}.

(** An entry of the directory [migrations] of an [fs.FS]: its name, whether it
    is a directory, and what [fs.ReadFile] answers ([None] is an error). *)
Record DirEntry : Type := mkDirEntry {
  de_Name : bytes;
  de_IsDir : bool;
  de_Contents : option bytes
}.

(** The errors of [loadMigrations], with the file they name. *)
Inductive load_error : Type :=
| LoadDirectory
| LoadFilename (name : bytes)
| LoadVersion (name : bytes)
| LoadSequence (name : bytes)
| LoadRead (name : bytes)
| LoadEmpty (name : bytes)
| LoadNone.

(** The order [sort.Slice] is given. *)
Definition entry_le (i j : DirEntry) : Prop := bytes_le (de_Name i) (de_Name j).
#[export] Instance entry_le_dec : RelDecision entry_le.
Proof. intros i j. unfold entry_le. apply _. Defined.

(** The characters of the second group of [migrationNamePattern]. *)
Definition migration_char (b : byte) : bool := in_range 97 122 b || is_digit b || (b =?? x5f).

(** [migrationNamePattern.FindStringSubmatch(name)]: the version digits of a
    name that matches [^(\d{6})_([a-z0-9_]+)\.sql$]. *)
Definition matchMigrationName (name : bytes) : option bytes :=
  let digits := take 6 name in
  let middle := take (length name - 11) (drop 7 name) in
  if (12 <=? length name)%nat && forallb is_digit digits && (nth 6 name x00 =?? x5f) &&
     forallb migration_char middle && (drop (length name - 4) name =?? lit ".sql")
  then Some digits else None.

(** [strconv.ParseInt] of digits. *)
Definition parseVersion (digits : bytes) : option Z :=
  if decVal digits <? 2 ^ 63 then Some (decVal digits) else None.

(** The loop of [loadMigrations]. *)
Fixpoint loadLoop (entries : list DirEntry) (migrations : list Migration) : load_error + list Migration :=
  match entries with
  | [] => inr migrations
  | entry :: entries =>
      let name := de_Name entry in
      if de_IsDir entry then loadLoop entries migrations
      else
      match matchMigrationName name with
      | None => inl (LoadFilename name)
      | Some digits =>
          match parseVersion digits with
          | None => inl (LoadVersion name)
          | Some version =>
              if version <>?? Z.of_nat (length migrations) + 1 then inl (LoadSequence name)
              else
              match de_Contents entry with
              | None => inl (LoadRead name)
              | Some contents =>
                  if TrimSpace contents =?? [] then inl (LoadEmpty name)
                  else
                  loadLoop entries (migrations ++
                    [mkMigration version name contents (hexEncode (arr_list (Sum256 contents)))])
              end
          end
      end
  end.

(** [loadMigrations]; [None] is a directory that cannot be read. *)
Definition loadMigrations (files : option (list DirEntry)) : load_error + list Migration :=
  match files with
  | None => inl LoadDirectory
  | Some entries =>
      match loadLoop (merge_sort entry_le entries) [] with
      | inl e => inl e
      | inr [] => inl LoadNone
      | inr migrations => inr migrations
      end
  end.

(** [EmbeddedMigrations] of the embedded directory; [None] is a panic. *)
Definition EmbeddedMigrations (files : option (list DirEntry)) : option (list Migration) :=
  match loadMigrations files with inl _ => None | inr migrations => Some migrations end.

(** * Inspection *)

(** [SchemaStatus]. *)
Definition SchemaUninitialized : bytes := lit "uninitialized".
Definition SchemaBehind : bytes := lit "behind".
Definition SchemaCurrent : bytes := lit "current".
Definition SchemaAhead : bytes := lit "ahead".
Definition SchemaInvalid : bytes := lit "invalid".
Definition SchemaQueryError : bytes := lit "query_error".

Record AppliedMigration : Type := mkApplied { am_Version : Z; am_Checksum : bytes; am_AppliedAt : Time }.

Record MetadataSnapshot : Type := mkSnapshot {
  ms_TableExists : bool;
  ms_Complete : bool;
  ms_Applied : list AppliedMigration
}.

Record Inspection : Type := mkInspection { in_Status : bytes; in_CurrentVersion : Z; in_TargetVersion : Z }.

(** The loop of [classifySnapshot]: the current version, and whether the
    history is invalid. [migrations] are those from [index] on, of [target]. *)
Fixpoint classifyLoop (applied : list AppliedMigration) (migrations : list Migration)
    (index target current : Z) : Z * bool :=
  match applied with
  | [] => (current, true)
  | a :: applied =>
      if (am_Version a <>?? index + 1) || (am_Checksum a =?? []) || t_is_zero (am_AppliedAt a)
      then (current, false)
      else
      let current := am_Version a in
      if (am_Version a <=? target) &&
         match migrations with m :: _ => am_Checksum a <>?? m_Checksum m | [] => false end
      then (current, false)
      else classifyLoop applied (tail migrations) (index + 1) target current
  end.

(** [classifySnapshot]. The lookup [migrations[index]] is in range: the version
    is [index + 1]. *)
Definition classifySnapshot (snapshot : MetadataSnapshot) (migrations : list Migration) : Inspection :=
  let target := Z.of_nat (length migrations) in
  if negb (ms_TableExists snapshot) then mkInspection SchemaUninitialized 0 target
  else if negb (ms_Complete snapshot) || (length (ms_Applied snapshot) =?? 0%nat)
  then mkInspection SchemaInvalid 0 target
  else
  match classifyLoop (ms_Applied snapshot) migrations 0 target 0 with
  | (current, false) => mkInspection SchemaInvalid current target
  | (current, true) =>
      if target <? current then mkInspection SchemaAhead current target
      else if current <? target then mkInspection SchemaBehind current target
      else mkInspection SchemaCurrent current target
  end.

(** * Calls *)

(** The caller's context, [context.WithTimeout(context.Background(), d)], and
    the caller's context without its cancellation, with a deadline. *)
Inductive mg_ctx : Type :=
| MgRequest
| MgBackground (timeout : Duration)
| MgWithoutCancel (deadline : Time).

Inductive mg_log : Type :=
| LogInspected (status : bytes) (version : Z)
| LogStarting (version : Z)
| LogApplied (version : Z)
| LogCurrent (version : Z).

(** A row of [information_schema.columns]. *)
Record ColumnRow : Type := mkColumn { cr_name : bytes; cr_type : bytes; cr_nullable : bytes }.

(** [QueryRow] and its [Scan] are one call; [MgDestroy] is [Hijack] and the
    bounded [Close], whose error is discarded. [MgPanic] is an index out of
    range or an exhausted bound of the model. *)
Inductive mg_op : Type :=
| MgAcquire (ctx : mg_ctx)
| MgLock (ctx : mg_ctx) (key : Z)
| MgUnlock (ctx : mg_ctx) (key : Z)
| MgRelease
| MgDestroy (ctx : mg_ctx)
| MgTableExists (ctx : mg_ctx)
| MgColumns (ctx : mg_ctx)
| MgApplied (ctx : mg_ctx)
| MgRowsErr
| MgRowsClose
| MgBegin (ctx : mg_ctx)
| MgExecSQL (ctx : mg_ctx) (sql : bytes)
| MgRecord (ctx : mg_ctx) (version : Z) (checksum : bytes)
| MgCommit (ctx : mg_ctx)
| MgRollback (ctx : mg_ctx)
| MgNow
| MgDeadline
| MgLog (entry : mg_log)
| MgPanic.

Definition MgE : sig := Sig mg_op (fun o =>
  match o with
  | MgAcquire _ | MgLock _ _ | MgRowsErr | MgBegin _ | MgExecSQL _ _ | MgRecord _ _ _ | MgCommit _ | MgRollback _ =>
      option error
  | MgUnlock _ _ | MgTableExists _ => result bool
  | MgColumns _ => result (list (result ColumnRow))
  | MgApplied _ => result (list (result AppliedMigration))
  | MgNow => Time
  | MgDeadline => option Time
  | MgRelease | MgDestroy _ | MgRowsClose | MgLog _ => unit
  | MgPanic => Empty_set
  end).

Definition panic {A} : prog MgE A := Call (E := MgE) MgPanic (fun r => match r : Empty_set with end).

Definition migrationAdvisoryLockKey : Z := 0x4d534f4e43414c4c.
Definition lockCleanupTimeout : Duration := 5 * Second.
Definition migrationRollbackTimeout : Duration := 5 * Second.

(** * Reading the metadata *)

Definition expectedColumns : list (bytes * bytes) :=
  [(lit "migration_version", lit "bigint"); (lit "migration_checksum", lit "text");
   (lit "applied_at", lit "timestamp with time zone")].

Definition column_expected (row : ColumnRow) : bool :=
  existsb (fun e => (e.1 =?? cr_name row) && (cr_type row =?? e.2)) expectedColumns && (cr_nullable row =?? lit "NO").

(** The walk over the columns; [None] is a failed [Scan]. *)
Fixpoint seenColumns (rows : list (result ColumnRow)) (seen : gset bytes) : option (gset bytes) :=
  match rows with
  | [] => Some seen
  | Err _ :: _ => None
  | Ok row :: rows => seenColumns rows (if column_expected row then {[cr_name row]} ∪ seen else seen)
  end.

(** [pgMetadataSource.metadataColumnsComplete]. *)
Definition metadataColumnsComplete (ctx : mg_ctx) : prog MgE (result bool) :=
  let! q := @call MgE (MgColumns ctx) in
  match q with
  | Err e => Ret (Err e)
  | Ok rows =>
      match seenColumns rows ∅ with
      | None => let! _ := @call MgE MgRowsClose in Ret (Ok false)
      | Some seen =>
          let! e := @call MgE MgRowsErr in
          let! _ := @call MgE MgRowsClose in
          match e with
          | Some e => Ret (Err e)
          | None => Ret (Ok (forallb (fun c => bool_decide (c.1 ∈ seen)) expectedColumns))
          end
      end
  end.

(** The walk over the rows; [None] is a failed [Scan]. *)
Fixpoint scanApplied (rows : list (result AppliedMigration)) : option (list AppliedMigration) :=
  match rows with
  | [] => Some []
  | Err _ :: _ => None
  | Ok row :: rows => (row ::.) <$> scanApplied rows
  end.

(** [pgMetadataSource.Snapshot]. *)
Definition Snapshot (ctx : mg_ctx) : prog MgE (result MetadataSnapshot) :=
  let! x := @call MgE (MgTableExists ctx) in
  match x with
  | Err e => Ret (Err e)
  | Ok false => Ret (Ok (mkSnapshot false false []))
  | Ok true =>
      let! complete := metadataColumnsComplete ctx in
      match complete with
      | Err e => Ret (Err e)
      | Ok false => Ret (Ok (mkSnapshot true false []))
      | Ok true =>
          let! q := @call MgE (MgApplied ctx) in
          match q with
          | Err e => Ret (Err e)
          | Ok rows =>
              match scanApplied rows with
              | None => let! _ := @call MgE MgRowsClose in Ret (Ok (mkSnapshot true false []))
              | Some applied =>
                  let! e := @call MgE MgRowsErr in
                  let! _ := @call MgE MgRowsClose in
                  match e with
                  | Some e => Ret (Err e)
                  | None => Ret (Ok (mkSnapshot true true applied))
                  end
              end
          end
      end
  end.

(** [Inspector.Inspect] over the session ([pgSession.Inspect]). *)
Definition Inspect (ctx : mg_ctx) (migrations : list Migration) : prog MgE (Inspection * option error) :=
  let! s := Snapshot ctx in
  match s with
  | Err _ =>
      Ret (mkInspection SchemaQueryError 0 (Z.of_nat (length migrations)),
           Some (safeError ErrSchemaQuery "schema inspection"))
  | Ok snapshot => Ret (classifySnapshot snapshot migrations, None)
  end.

(** * One migration *)

(** [migrationFailure] and [isMigrationInterruption]. *)
Definition isMigrationInterruption (e : error) : bool := isConnectionInterruption e.

Definition migrationFailure (e : error) (operation : string) : error :=
  if isMigrationInterruption e then safeError ErrMigrationInterrupted operation
  else safeError ErrMigration operation.

(** [boundedCleanupContext]. *)
Definition boundedCleanupContext (limit : Duration) : prog MgE mg_ctx :=
  let! now := @call MgE MgNow in
  let deadline := t_add now limit in
  let! parent := @call MgE MgDeadline in
  match parent with
  | Some parentDeadline =>
      Ret (MgWithoutCancel (if t_before parentDeadline deadline then parentDeadline else deadline))
  | None => Ret (MgWithoutCancel deadline)
  end.

(** The deferred rollback of an open transaction. *)
Definition rollbackOpen (rollbackTimeout : Duration) (resultErr : error) : prog MgE (option error) :=
  let! rollbackCtx := boundedCleanupContext rollbackTimeout in
  let! rollbackErr := @call MgE (MgRollback rollbackCtx) in
  match rollbackErr with
  | Some e =>
      if negb (errors_is e ErrTxClosed)
      then Ret (Some (safeError ErrMigrationInterrupted "transaction cleanup"))
      else Ret (Some resultErr)
  | None => Ret (Some resultErr)
  end.

(** [applyMigrationWithRollbackTimeout]. *)
Definition applyMigrationWithRollbackTimeout (ctx : mg_ctx) (migration : Migration) (rollbackTimeout : Duration)
  : prog MgE (option error) :=
  let! err := @call MgE (MgBegin ctx) in
  match err with
  | Some e => Ret (Some (migrationFailure e "transaction begin"))
  | None =>
      let! err := @call MgE (MgExecSQL ctx (m_SQL migration)) in
      match err with
      | Some e => rollbackOpen rollbackTimeout (migrationFailure e "migration execution")
      | None =>
          let! err := @call MgE (MgRecord ctx (m_Version migration) (m_Checksum migration)) in
          match err with
          | Some e => rollbackOpen rollbackTimeout (migrationFailure e "migration record")
          | None =>
              let! err := @call MgE (MgCommit ctx) in
              match err with
              | Some e => rollbackOpen rollbackTimeout (migrationFailure e "transaction commit")
              | None => Ret None
              end
          end
      end
  end.

(** [applyMigration] ([pgSession.Apply]). *)
Definition applyMigration (ctx : mg_ctx) (migration : Migration) : prog MgE (option error) :=
  applyMigrationWithRollbackTimeout ctx migration migrationRollbackTimeout.

(** * The lock *)

Definition destroyPoolConnection : prog MgE unit := @call MgE (MgDestroy (MgBackground lockCleanupTimeout)).

(** [finishMigrationConnection]. *)
Definition finishMigrationConnection (runErr : option error) : prog MgE (option error) :=
  if opt_errors_is runErr ErrMigrationInterrupted then
    let! _ := destroyPoolConnection in Ret runErr
  else
  let! r := @call MgE (MgUnlock (MgBackground lockCleanupTimeout) migrationAdvisoryLockKey) in
  match r with
  | Ok true => let! _ := @call MgE MgRelease in Ret runErr
  | _ =>
      let! _ := destroyPoolConnection in
      match runErr with
      | Some e => Ret (Some e)
      | None => Ret (Some (safeError ErrMigrationLock "lock release"))
      end
  end.

(** [PGBackend.WithMigrationLock]. *)
Definition WithMigrationLock (ctx : mg_ctx) (run : prog MgE (option error)) : prog MgE (option error) :=
  let! err := @call MgE (MgAcquire ctx) in
  match err with
  | Some _ => Ret (Some (safeError ErrMigrationLock "lock connection"))
  | None =>
      let! err := @call MgE (MgLock ctx migrationAdvisoryLockKey) in
      match err with
      | Some _ =>
          let! _ := destroyPoolConnection in
          Ret (Some (safeError ErrMigrationLock "lock acquisition"))
      | None =>
          let! runErr := run in
          finishMigrationConnection runErr
      end
  end.

(** * The runner *)

(** The loop of [Runner.Run]. *)
Fixpoint migrateLoop (fuel : nat) (ctx : mg_ctx) (migrations : list Migration) (inspection : Inspection)
  : prog MgE (option error) :=
  if in_CurrentVersion inspection <? Z.of_nat (length migrations) then
    match fuel, migrations !! Z.to_nat (in_CurrentVersion inspection) with
    | S fuel, Some next =>
        if in_CurrentVersion inspection <? 0 then panic
        else
        let! _ := @call MgE (MgLog (LogStarting (m_Version next))) in
        let! err := applyMigration ctx next in
        match err with
        | Some e => Ret (Some e)
        | None =>
            let! _ := @call MgE (MgLog (LogApplied (m_Version next))) in
            let! '(inspection, err) := Inspect ctx migrations in
            match err with
            | Some e => Ret (Some e)
            | None =>
                if (in_CurrentVersion inspection <>?? m_Version next) ||
                   ((in_Status inspection <>?? SchemaBehind) && (in_Status inspection <>?? SchemaCurrent))
                then Ret (Some (safeError ErrSchemaInvalid "post-migration verification"))
                else migrateLoop fuel ctx migrations inspection
            end
        end
    | _, _ => panic
    end
  else
  let! '(finalInspection, err) := Inspect ctx migrations in
  match err with
  | Some e => Ret (Some e)
  | None =>
      if (in_Status finalInspection <>?? SchemaCurrent) ||
         (in_CurrentVersion finalInspection <>?? Z.of_nat (length migrations))
      then Ret (Some (safeError ErrSchemaInvalid "final schema verification"))
      else
        let! _ := @call MgE (MgLog (LogCurrent (in_CurrentVersion finalInspection))) in
        Ret None
  end.

(** The function [Runner.Run] runs under the lock. *)
Definition runLocked (ctx : mg_ctx) (migrations : list Migration) : prog MgE (option error) :=
  let! '(inspection, err) := Inspect ctx migrations in
  match err with
  | Some e => Ret (Some e)
  | None =>
      let! _ := @call MgE (MgLog (LogInspected (in_Status inspection) (in_CurrentVersion inspection))) in
      let status := in_Status inspection in
      if status =?? SchemaAhead then Ret (Some (safeError ErrSchemaAhead "schema compatibility"))
      else if status =?? SchemaInvalid then Ret (Some (safeError ErrSchemaInvalid "schema compatibility"))
      else if status =?? SchemaQueryError then Ret (Some (safeError ErrSchemaQuery "schema inspection"))
      else if (status =?? SchemaCurrent) || (status =?? SchemaBehind) || (status =?? SchemaUninitialized)
      then migrateLoop (length migrations) ctx migrations inspection
      else Ret (Some (safeError ErrSchemaInvalid "schema compatibility"))
  end.

(** [Runner.Run] over the PostgreSQL backend. *)
Definition Run (ctx : mg_ctx) (migrations : list Migration) : prog MgE (option error) :=
  WithMigrationLock ctx (runLocked ctx migrations).
