(* ===== verification/MigrationSpec.v ===== *)
(** Properties of the schema migrations: what the embedded files must look
    like, the classification of recorded migrations, termination of the
    migration loop, and the protocol of the lock connection. *)

From stdpp Require Import gmap sorting.
From S2P Require Import Prelude Effects GoTime GoErrors Encoding Sha256 Events Canonical Json Migrations.

(** * Embedded files *)

(** [m] is the migration of the file [entry], the [i]-th from 0. *)
Definition migration_of (i : nat) (entry : DirEntry) (m : Migration) : Prop :=
  exists digits sql,
    matchMigrationName (de_Name entry) = Some digits /\ decVal digits = Z.of_nat i + 1 /\
    de_Contents entry = Some sql /\ TrimSpace sql <> [] /\
    m = mkMigration (Z.of_nat i + 1) (de_Name entry) sql (hexEncode (arr_list (Sum256 sql))).

(** The files of a directory in the order of their names. *)
Definition sorted_files (entries : list DirEntry) : list DirEntry :=
  filter (fun e => de_IsDir e = false) (merge_sort entry_le entries).

(** Migrations from the [i]-th file on. *)
Fixpoint migrations_of (i : nat) (entries : list DirEntry) (ms : list Migration) : Prop :=
  match entries, ms with
  | [], [] => True
  | e :: entries, m :: ms => migration_of i e m /\ migrations_of (S i) entries ms
  | _, _ => False
  end.

(** Contiguous versions from 1 on, and checksums that are not empty. *)
Definition numbered (ms : list Migration) : Prop :=
  forall i m, ms !! i = Some m -> m_Version m = Z.of_nat i + 1 /\ m_Checksum m <> [].

Lemma decVal_six digits : length digits = 6%nat -> forallb is_digit digits = true -> decVal digits < 2 ^ 63.
Proof.
  intros Hl Hd. do 6 (destruct digits as [|? digits]; [discriminate|]). destruct digits; [|discriminate].
  unfold decVal. cbn [foldl]. cbn [forallb] in Hd. rewrite !andb_true_iff in Hd. unfold is_digit in Hd. lia.
Qed.

Lemma matchMigrationName_version name digits :
  matchMigrationName name = Some digits -> parseVersion digits = Some (decVal digits).
Proof.
  unfold matchMigrationName, parseVersion. destruct (_ && _) eqn:E; [|done]. intros [= <-].
  apply andb_prop in E as [[[[H1 H2]%andb_prop _]%andb_prop _]%andb_prop _].
  pose proof (decVal_six (take 6 name)) as H. rewrite length_take in H.
  apply Nat.leb_le in H1. specialize (H ltac:(lia) H2). apply Z.ltb_lt in H. by rewrite H.
Qed.

Lemma loadLoop_spec entries acc ms :
  loadLoop entries acc = inr ms <->
  exists new, ms = acc ++ new /\ migrations_of (length acc) (filter (fun e => de_IsDir e = false) entries) new.
Proof.
  revert acc. induction entries as [|e entries IH]; intros acc; cbn [loadLoop].
  { split; [intros [= <-]; exists []; by rewrite app_nil_r|]. intros ([|m new] & -> & H); [|done]. by rewrite app_nil_r. }
  rewrite filter_cons. destruct (de_IsDir e) eqn:Ed; cbv zeta.
  { rewrite decide_False by done. apply IH. }
  rewrite decide_True by done.
  assert (forall x, (exists new, ms = acc ++ new /\
      migrations_of (length acc) (e :: filter (fun e => de_IsDir e = false) entries) new) ->
    x \/ exists m, migration_of (length acc) e m) as Hm.
  { intros x (new & _ & H). destruct new as [|m new]; [done|]. right. exists m. apply H. }
  destruct (matchMigrationName (de_Name e)) as [digits|] eqn:En.
  2:{ split; [done|]. intros [[]|(m & d & sql & H & _)]%(Hm False). congruence. }
  rewrite (matchMigrationName_version _ _ En). case_bool_decide as Hv; cbn [negb].
  2:{ split; [done|]. intros [[]|(m & d & sql & H & Hd & _)]%(Hm False). congruence. }
  destruct (de_Contents e) as [contents|] eqn:Ec.
  2:{ split; [done|]. intros [[]|(m & d & sql & _ & _ & H & _)]%(Hm False). congruence. }
  case_bool_decide as Ht.
  { split; [done|]. intros [[]|(m & d & sql & _ & _ & H & H' & _)]%(Hm False). congruence. }
  rewrite IH, Hv, length_app, Nat.add_1_r. split.
  - intros (new & -> & H). exists (mkMigration (Z.of_nat (length acc) + 1) (de_Name e) contents
      (hexEncode (arr_list (Sum256 contents))) :: new).
    rewrite <- app_assoc. split; [done|]. split; [|done]. by exists digits, contents.
  - intros ([|m new] & -> & H); [done|]. destruct H as [(d & sql & _ & _ & Hc & _ & ->) H].
    assert (sql = contents) as -> by congruence. exists new. by rewrite <- app_assoc.
Qed.

Lemma loadMigrations_sound entries ms :
  loadMigrations (Some entries) = inr ms -> ms <> [] /\ migrations_of 0 (sorted_files entries) ms.
Proof.
  unfold loadMigrations, sorted_files. destruct (loadLoop _ []) as [e|l] eqn:El; [done|].
  destruct l as [|m l]; [done|]. intros [= <-]. split; [done|]. by apply loadLoop_spec in El as (new & -> & El).
Qed.

Lemma migrations_of_lookup i entries ms k m :
  migrations_of i entries ms -> ms !! k = Some m -> exists e, migration_of (i + k) e m.
Proof.
  revert i ms k. induction entries as [|e entries IH]; intros i [|m' ms] k; try done.
  intros [H Hr]. destruct k as [|k]; cbn.
  - intros [= ->]. exists e. by rewrite Nat.add_0_r.
  - intros Hk. destruct (IH _ _ _ Hr Hk) as [e' He]. exists e'. by replace (i + S k)%nat with (S i + k)%nat by lia.
Qed.

Lemma migrations_numbered entries ms : migrations_of 0 entries ms -> numbered ms.
Proof.
  intros H i m Hi. destruct (migrations_of_lookup _ _ _ _ _ H Hi) as (e & d & sql & _ & _ & _ & _ & ->).
  split; [cbn; lia|]. cbn [m_Checksum]. intros E. apply (f_equal length) in E.
  rewrite hexEncode_length, arr_length in E. done.
Qed.

(** * Recorded migrations *)

(** The rows record the first migrations, in order, with their checksums. Rows
    beyond the known migrations only need a version, a checksum and a time. *)
Definition history (ms : list Migration) (applied : list AppliedMigration) : Prop :=
  forall i a, applied !! i = Some a ->
    am_Version a = Z.of_nat i + 1 /\ am_Checksum a <> [] /\ am_AppliedAt a <> zero_time /\
    (forall m, ms !! i = Some m -> am_Checksum a = m_Checksum m).

(** The same from index [i] on. *)
Definition history_from (i : nat) (ms : list Migration) (applied : list AppliedMigration) : Prop :=
  forall k a, applied !! k = Some a ->
    am_Version a = Z.of_nat (i + k) + 1 /\ am_Checksum a <> [] /\ am_AppliedAt a <> zero_time /\
    (forall m, ms !! k = Some m -> am_Checksum a = m_Checksum m).

Lemma history_from_cons i ms a applied :
  history_from i ms (a :: applied) <->
  (am_Version a = Z.of_nat i + 1 /\ am_Checksum a <> [] /\ am_AppliedAt a <> zero_time /\
   (forall m, head ms = Some m -> am_Checksum a = m_Checksum m)) /\
  history_from (S i) (tail ms) applied.
Proof.
  split.
  - intros H. split.
    + specialize (H 0%nat a eq_refl). rewrite Nat.add_0_r in H. destruct ms; done.
    + intros k b Hk. specialize (H (S k) b Hk). rewrite Nat.add_succ_r in H. destruct ms; done.
  - intros [H1 H2] [|k] b; cbn.
    + intros [= <-]. rewrite Nat.add_0_r. destruct ms; done.
    + intros Hk. specialize (H2 k b Hk). rewrite Nat.add_succ_r. destruct ms; done.
Qed.

Lemma classifyLoop_spec applied ms i n current :
  length ms = (n - i)%nat ->
  (exists c, classifyLoop applied ms (Z.of_nat i) (Z.of_nat n) current = (c, false) /\ ~ history_from i ms applied) \/
  (classifyLoop applied ms (Z.of_nat i) (Z.of_nat n) current =
     (if applied is [] then current else Z.of_nat (i + length applied), true) /\ history_from i ms applied).
Proof.
  revert ms i current. induction applied as [|a applied IH]; intros ms i current Hlen; cbn [classifyLoop].
  { right. split; [done|]. intros k b Hk. done. }
  pose proof (history_from_cons i ms a applied) as Hcons. cbv zeta.
  destruct ((am_Version a <>?? Z.of_nat i + 1) || (am_Checksum a =?? []) || t_is_zero (am_AppliedAt a)) eqn:E1.
  { left. eexists. split; [done|]. intros [(Hv & Hc & Ht & _) _]%Hcons. unfold t_is_zero, zero_time in *.
    rewrite Hv, (bool_decide_false (am_Checksum a = [])), bool_decide_true in E1 by done. cbn in E1. lia. }
  apply orb_false_iff in E1 as [[Hv%negb_false_iff%bool_decide_eq_true Hc%bool_decide_eq_false]%orb_false_iff Ht%Z.eqb_neq].
  destruct ((am_Version a <=? Z.of_nat n) && _) eqn:E2.
  { left. eexists. split; [done|]. intros [(_ & _ & _ & Hm) _]%Hcons. apply andb_prop in E2 as [_ E2].
    destruct ms as [|m ms]; [done|]. apply negb_true_iff, bool_decide_eq_false in E2. apply E2, Hm. done. }
  assert (forall m, head ms = Some m -> am_Checksum a = m_Checksum m) as Hm.
  { destruct ms as [|m' ms]; [done|]. intros m [= ->]. cbn in Hlen. apply andb_false_iff in E2 as [E2|E2]; [lia|].
    by apply negb_false_iff, bool_decide_eq_true in E2. }
  replace (Z.of_nat i + 1) with (Z.of_nat (S i)) by lia.
  destruct (IH (tail ms) (S i) (am_Version a)) as [(c & Hcl & Hn)|[Hcl Hh]].
  { destruct ms; cbn in *; lia. }
  - left. exists c. split; [done|]. by intros [_ ?]%Hcons.
  - right. rewrite Hcl. split; [|by apply Hcons]. f_equal. destruct applied as [|b applied]; cbn [length]; lia.
Qed.

(** The five statuses of a classification are different texts. *)
Lemma statuses_distinct :
  SchemaUninitialized <> SchemaBehind /\ SchemaUninitialized <> SchemaCurrent /\ SchemaUninitialized <> SchemaAhead /\
  SchemaUninitialized <> SchemaInvalid /\ SchemaBehind <> SchemaCurrent /\ SchemaBehind <> SchemaAhead /\
  SchemaBehind <> SchemaInvalid /\ SchemaCurrent <> SchemaAhead /\ SchemaCurrent <> SchemaInvalid /\ SchemaAhead <> SchemaInvalid.
Proof. done. Qed.

(** A recorded history, as a reader of the table sees it: all of it, its
    versions being the numbers up to its length. *)
Lemma classify_history applied ms :
  applied <> [] ->
  let n := Z.of_nat (length ms) in let k := Z.of_nat (length applied) in
  (~ history ms applied /\ exists c,
     classifySnapshot (mkSnapshot true true applied) ms = mkInspection SchemaInvalid c n) \/
  (history ms applied /\ classifySnapshot (mkSnapshot true true applied) ms =
     mkInspection (if n <? k then SchemaAhead else if k <? n then SchemaBehind else SchemaCurrent) k n).
Proof.
  intros Hne n k. unfold classifySnapshot. cbn [ms_TableExists ms_Complete ms_Applied negb orb].
  rewrite bool_decide_false by (by destruct applied).
  destruct (classifyLoop_spec applied ms 0 (length ms) 0) as [(c & Hcl & Hn)|[Hcl Hh]]; [lia| |];
    change (Z.of_nat 0) with 0 in Hcl.
  - left. split; [done|]. exists c. by rewrite Hcl.
  - right. split; [done|]. rewrite Hcl. destruct applied as [|a applied]; [done|].
    cbn [Nat.add]. fold n k. by destruct (n <? k), (k <? n).
Qed.

(** * The loop ends and never indexes out of range *)

Definition no_panic (o : mg_op) : Prop := o <> MgPanic.
Abbreviation safe p := (calls_only (E := MgE) no_panic p).

Lemma safe_call {A} (o : mg_op) (f : ans MgE o -> prog MgE A) :
  no_panic o -> (forall r, safe (f r)) -> safe (bind (@call MgE o) f).
Proof. by split. Qed.

(** A program built from calls, returns and case distinctions. *)
Ltac safe_steps :=
  repeat first
    [ exact I
    | apply safe_call; [discriminate|intros ?]
    | split; [discriminate|intros ?; exact I]
    | apply calls_only_bind; [|intros ?]
    | case_match ].

Lemma safe_Snapshot ctx : safe (Snapshot ctx).
Proof. unfold Snapshot, metadataColumnsComplete. safe_steps. Qed.

Lemma safe_Inspect ctx ms : safe (Inspect ctx ms).
Proof. unfold Inspect. apply calls_only_bind; [apply safe_Snapshot|]. intros s. by destruct s. Qed.

Lemma safe_apply ctx m : safe (applyMigration ctx m).
Proof. unfold applyMigration, applyMigrationWithRollbackTimeout, rollbackOpen, boundedCleanupContext. safe_steps. Qed.

Lemma safe_finish r : safe (finishMigrationConnection r).
Proof. unfold finishMigrationConnection, destroyPoolConnection. safe_steps. Qed.

(** A program whose continuation is only safe for the results it can have. *)
Lemma calls_only_bind_runs {E A B} (ok : op E -> Prop) (p : prog E A) (f : A -> prog E B) :
  calls_only ok p -> (forall tr a, runs p tr a -> calls_only ok (f a)) -> calls_only ok (bind p f).
Proof.
  induction p as [a|o k IH]; cbn; intros Hp Hf.
  - by apply (Hf []).
  - destruct Hp as [Ho Hk]. split; [done|]. intros r. apply IH; [done|].
    intros tr a Hr. apply (Hf (ev o r :: tr)). eauto.
Qed.

(** What the inspection returns: the classification of some snapshot, or the
    query error. *)
Lemma runs_Inspect ctx ms tr i e :
  runs (Inspect ctx ms) tr (i, e) ->
  (exists s, i = classifySnapshot s ms /\ e = None) \/
  (in_Status i = SchemaQueryError /\ e = Some (safeError ErrSchemaQuery "schema inspection")).
Proof.
  unfold Inspect. intros (t1 & t2 & [s|err] & -> & _ & [_ H])%runs_bind; simplify_eq; [left|right]; eauto.
Qed.

Lemma classify_version s ms :
  in_Status (classifySnapshot s ms) <> SchemaInvalid -> 0 <= in_CurrentVersion (classifySnapshot s ms).
Proof.
  destruct s as [[] [] applied]; try (by cbn). destruct applied as [|a applied]; [done|].
  destruct (classify_history (a :: applied) ms) as [(_ & c & ->)|(_ & ->)]; [done|done|cbn [in_CurrentVersion]; lia].
Qed.

Lemma safe_loop ctx ms fuel i :
  numbered ms -> 0 <= in_CurrentVersion i ->
  Z.of_nat (length ms) <= in_CurrentVersion i + Z.of_nat fuel -> safe (migrateLoop fuel ctx ms i).
Proof.
  intros Hn. revert i. induction fuel as [|fuel IH]; intros i Hi Hf; cbn [migrateLoop].
  all: destruct (in_CurrentVersion i <? Z.of_nat (length ms)) eqn:El; [|
    apply calls_only_bind; [apply safe_Inspect|intros [f [e|]]]; safe_steps].
  - lia.
  - destruct (ms !! Z.to_nat (in_CurrentVersion i)) as [next|] eqn:En.
    2:{ apply lookup_ge_None in En. lia. }
    apply Hn in En as [En _]. rewrite Z2Nat.id in En by done.
    destruct (in_CurrentVersion i <? 0) eqn:E0; [lia|].
    apply safe_call; [done|intros _]. apply calls_only_bind; [apply safe_apply|]. intros [e|]; [done|].
    apply safe_call; [done|intros _]. apply calls_only_bind; [apply safe_Inspect|]. intros [i' [e|]]; [done|].
    destruct (_ || _) eqn:Ev; [done|]. apply orb_false_iff in Ev as [Ev%negb_false_iff%bool_decide_eq_true _].
    apply IH; lia.
Qed.

Lemma safe_runLocked ctx ms : numbered ms -> safe (runLocked ctx ms).
Proof.
  intros Hn. unfold runLocked. apply calls_only_bind_runs; [apply safe_Inspect|].
  intros tr [i e] H%runs_Inspect. destruct e as [e|]; [done|]. apply safe_call; [done|intros _]. cbv zeta.
  repeat (case_bool_decide; [done|]). destruct (_ || _); [|done]. apply safe_loop; [done| |].
  all: destruct H as [(s & -> & _)|[_ [=]]]; pose proof (classify_version s ms); naive_solver lia.
Qed.

(** * The protocol of the lock connection *)

(** The connection: not held, held without the lock, with the lock, reading a
    result set, in a transaction (which has done nothing, executed a script, or
    recorded a migration for it), after a failure inside a transaction, or in a
    state that must not return to the pool. *)
Inductive mg_conn : Type :=
| MgNone
| MgConn
| MgLocked
| MgRows
| MgTx
| MgExecuted (sql : bytes)
| MgRecorded (sql : bytes) (version : Z) (checksum : bytes)
| MgFailed (interrupted : bool)
| MgSuspect.

(** The protocol over the migrations [ms]; [None] is a violation. *)
Definition mg_step (ms : list Migration) (q : mg_conn) (e : event MgE) : option mg_conn :=
  match q, e with
  | q, existT (MgLog _) _ | q, existT MgNow _ | q, existT MgDeadline _ => Some q
  | MgNone, existT (MgAcquire _) err => Some (if is_err err then MgNone else MgConn)
  | MgConn, existT (MgLock _ key) err =>
      if key =? migrationAdvisoryLockKey then Some (if is_err err then MgSuspect else MgLocked) else None
  | MgLocked, existT (MgTableExists _) _ => Some MgLocked
  | MgLocked, existT (MgColumns _) r => Some (if is_ok r then MgRows else MgLocked)
  | MgLocked, existT (MgApplied _) r => Some (if is_ok r then MgRows else MgLocked)
  | MgRows, existT MgRowsErr _ => Some MgRows
  | MgRows, existT MgRowsClose _ => Some MgLocked
  | MgLocked, existT (MgBegin _) err =>
      Some (match err with
            | None => MgTx | Some e => if isConnectionInterruption e then MgSuspect else MgLocked end)
  | MgTx, existT (MgExecSQL _ sql) err =>
      Some (match err with None => MgExecuted sql | Some e => MgFailed (isConnectionInterruption e) end)
  | MgExecuted sql, existT (MgRecord _ version checksum) err =>
      if bool_decide (Exists (fun m => m_SQL m = sql /\ m_Version m = version /\ m_Checksum m = checksum) ms)
      then Some (match err with
                 | None => MgRecorded sql version checksum
                 | Some e => MgFailed (isConnectionInterruption e)
                 end)
      else None
  | MgRecorded _ _ _, existT (MgCommit _) err =>
      Some (match err with None => MgLocked | Some e => MgFailed (isConnectionInterruption e) end)
  | MgFailed interrupted, existT (MgRollback _) err =>
      Some (match err with
            | None => if interrupted then MgSuspect else MgLocked
            | Some e => if errors_is e ErrTxClosed && negb interrupted then MgLocked else MgSuspect
            end)
  | MgLocked, existT (MgUnlock _ key) r =>
      if key =? migrationAdvisoryLockKey
      then Some (match r with Ok true => MgConn | _ => MgSuspect end) else None
  | MgConn, existT MgRelease _ => Some MgNone
  | MgSuspect, existT (MgDestroy _) _ => Some MgNone
  | _, _ => None
  end.

(** How a run under the lock leaves the connection: unusable exactly if it
    reports an interruption. *)
Definition ended (err : option error) (q : mg_conn) : Prop :=
  q = if opt_errors_is err ErrMigrationInterrupted then MgSuspect else MgLocked.

Section Protocol.
Variables (ctx : mg_ctx) (ms : list Migration).

Abbreviation mkeeps := (keeps (mg_step ms)).

Lemma mkeeps_call {A} q q' (o : mg_op) (f : ans MgE o -> prog MgE A) post :
  (forall r, mg_step ms q (@ev MgE o r) = Some q') -> (forall r, mkeeps q' (f r) post) ->
  mkeeps q (bind (@call MgE o) f) post.
Proof. intros Hs Hk r. exists q'. split; [apply Hs|apply Hk]. Qed.

(** A call whose answer decides the next state. *)
Lemma mkeeps_answer {A} q (o : mg_op) (f : ans MgE o -> prog MgE A) post :
  (forall r, exists q', mg_step ms q (@ev MgE o r) = Some q' /\ mkeeps q' (f r) post) ->
  mkeeps q (bind (@call MgE o) f) post.
Proof. done. Qed.

Lemma mkeeps_log {A} q entry (p : prog MgE A) post :
  mkeeps q p post -> mkeeps q (bind (@call MgE (MgLog entry)) (fun _ => p)) post.
Proof. intros H r. exists q. split; [by destruct q|done]. Qed.

Lemma mkeeps_close {A} (p : prog MgE A) post :
  mkeeps MgLocked p post -> mkeeps MgRows (bind (@call MgE MgRowsClose) (fun _ => p)) post.
Proof. intros H r. by exists MgLocked. Qed.

Lemma mkeeps_columns : mkeeps MgLocked (metadataColumnsComplete ctx) (fun _ q => q = MgLocked).
Proof.
  unfold metadataColumnsComplete. apply mkeeps_answer. intros [rows|e]; eexists; (split; [done|]); [|done].
  destruct (seenColumns rows ∅); [|by apply mkeeps_close].
  eapply mkeeps_call; [done|intros err]. apply mkeeps_close. by destruct err.
Qed.

Lemma mkeeps_Snapshot : mkeeps MgLocked (Snapshot ctx) (fun _ q => q = MgLocked).
Proof.
  unfold Snapshot. eapply mkeeps_call; [done|]. intros [[]|e]; [|done|done].
  eapply keeps_bind; [apply mkeeps_columns|]. intros [[]|e] q ->; [|done|done].
  apply mkeeps_answer. intros [rows|e]; eexists; (split; [done|]); [|done].
  destruct (scanApplied rows); [|by apply mkeeps_close].
  eapply mkeeps_call; [done|intros err]. apply mkeeps_close. by destruct err.
Qed.

Lemma mkeeps_Inspect : mkeeps MgLocked (Inspect ctx ms) (fun r q => ended r.2 q).
Proof. unfold Inspect. eapply keeps_bind; [apply mkeeps_Snapshot|]. by intros [s|e] q ->. Qed.

Lemma migrationFailure_interrupted e operation :
  errors_is (migrationFailure e operation) ErrMigrationInterrupted = isConnectionInterruption e.
Proof. unfold migrationFailure, isMigrationInterruption. by destruct (isConnectionInterruption e). Qed.

Lemma mkeeps_rollback interrupted timeout e :
  errors_is e ErrMigrationInterrupted = interrupted ->
  mkeeps (MgFailed interrupted) (rollbackOpen timeout e) ended.
Proof.
  intros He. unfold rollbackOpen. eapply keeps_bind with (mid := fun _ q => q = MgFailed interrupted).
  { unfold boundedCleanupContext. eapply mkeeps_call; [done|intros now]. cbv zeta.
    eapply mkeeps_call; [done|intros [parent|]]; done. }
  intros rollbackCtx q ->. apply mkeeps_answer. intros [err|]; eexists; (split; [done|]).
  - destruct (errors_is err ErrTxClosed); cbn [negb andb].
    + cbn. unfold ended. cbn. rewrite He. by destruct interrupted.
    + done.
  - cbn. unfold ended. cbn. by rewrite He.
Qed.

Lemma mkeeps_apply m : m ∈ ms -> mkeeps MgLocked (applyMigration ctx m) ended.
Proof.
  intros Hm. unfold applyMigration, applyMigrationWithRollbackTimeout.
  apply mkeeps_answer. intros [e|]; eexists; (split; [done|]).
  { cbn. unfold ended. cbn [opt_errors_is]. rewrite migrationFailure_interrupted. done. }
  apply mkeeps_answer. intros [e|]; eexists; (split; [done|]); [apply mkeeps_rollback, migrationFailure_interrupted|].
  apply mkeeps_answer. intros err. eexists. split.
  { unfold mg_step, ev. rewrite bool_decide_true by (apply Exists_exists; eauto). done. }
  destruct err as [e|]; [apply mkeeps_rollback, migrationFailure_interrupted|].
  apply mkeeps_answer. intros [e|]; eexists; (split; [done|]); [apply mkeeps_rollback, migrationFailure_interrupted|].
  done.
Qed.

Lemma mkeeps_loop fuel i : mkeeps MgLocked (migrateLoop fuel ctx ms i) ended.
Proof.
  revert i. induction fuel as [|fuel IH]; intros i; cbn [migrateLoop].
  all: destruct (in_CurrentVersion i <? Z.of_nat (length ms)); [|
    eapply keeps_bind; [apply mkeeps_Inspect|]; intros [f [e|]] q H; [exact H|];
    rewrite H; destruct (_ || _); [done|]; by apply mkeeps_log].
  - by intros [].
  - destruct (ms !! Z.to_nat (in_CurrentVersion i)) as [next|] eqn:En; [|by intros []].
    apply list_elem_of_lookup_2 in En. destruct (in_CurrentVersion i <? 0); [by intros []|].
    apply mkeeps_log. eapply keeps_bind; [by apply mkeeps_apply|]. intros [e|] q H; [exact H|rewrite H].
    apply mkeeps_log. eapply keeps_bind; [apply mkeeps_Inspect|]. intros [i' [e|]] q' H'; [exact H'|rewrite H'].
    destruct (_ || _); [done|]. apply IH.
Qed.

Lemma mkeeps_runLocked : mkeeps MgLocked (runLocked ctx ms) ended.
Proof.
  unfold runLocked. eapply keeps_bind; [apply mkeeps_Inspect|]. intros [i [e|]] q H; [exact H|rewrite H].
  apply mkeeps_log. cbv zeta. repeat (case_bool_decide; [done|]). destruct (_ || _); [apply mkeeps_loop|done].
Qed.

Lemma mkeeps_finish err q : ended err q -> mkeeps q (finishMigrationConnection err) (fun r q => q = MgNone).
Proof.
  unfold ended, finishMigrationConnection. intros ->. destruct (opt_errors_is err ErrMigrationInterrupted).
  { eapply mkeeps_call; done. }
  apply mkeeps_answer. intros [[]|e]; eexists; (split; [done|]); (eapply mkeeps_call; [done|intros _]); by destruct err.
Qed.

Lemma mkeeps_Run : mkeeps MgNone (Run ctx ms) (fun _ q => q = MgNone).
Proof.
  unfold Run, WithMigrationLock. apply mkeeps_answer. intros [e|]; eexists; (split; [done|]); [done|].
  apply mkeeps_answer. intros [e|]; eexists; (split; [done|]); [by eapply mkeeps_call|].
  eapply keeps_bind; [apply mkeeps_runLocked|]. intros err q. apply mkeeps_finish.
Qed.
End Protocol.

(** * Claims *)

(** The embedded migrations are accepted exactly if every file of the
    directory is named with its number, in the order of the names and
    contiguously from 1, can be read and is not blank; each migration then is
    the text of its file with the SHA-256 of it, and there is at least one. *)
Theorem loadMigrations_decides (entries : list DirEntry) (ms : list Migration) :
  loadMigrations (Some entries) = inr ms <-> ms <> [] /\ migrations_of 0 (sorted_files entries) ms.
Proof.
  split; [apply loadMigrations_sound|]. intros [Hne Hms]. unfold loadMigrations, sorted_files in *.
  assert (loadLoop (merge_sort entry_le entries) [] = inr ms) as -> by (apply loadLoop_spec; eauto).
  by destruct ms.
Qed.

(** The classification of the recorded migrations: without the table the
    schema is uninitialised; it is current, behind or ahead exactly if the
    table is complete, has rows, and these record the first migrations in
    order with their checksums, as many, fewer or more than are known; it is
    invalid in every other case. *)
Theorem classifySnapshot_decides (s : MetadataSnapshot) (ms : list Migration) :
  let i := classifySnapshot s ms in
  let n := length ms in let k := length (ms_Applied s) in
  let recorded := ms_TableExists s = true /\ ms_Complete s = true /\ (0 < k)%nat /\ history ms (ms_Applied s) in
  in_TargetVersion i = Z.of_nat n /\
  (in_Status i = SchemaUninitialized <-> ms_TableExists s = false) /\
  (in_Status i = SchemaCurrent <-> recorded /\ k = n) /\
  (in_Status i = SchemaBehind <-> recorded /\ (k < n)%nat) /\
  (in_Status i = SchemaAhead <-> recorded /\ (n < k)%nat) /\
  (in_Status i = SchemaInvalid <-> ms_TableExists s = true /\ ~ recorded) /\
  (recorded -> in_CurrentVersion i = Z.of_nat k).
Proof.
  intros i n k recorded.
  destruct (decide (ms_TableExists s = true)) as [Ht|Ht].
  2:{ apply not_true_is_false in Ht. assert (~ recorded) as Hr by (intros [? _]; congruence). clearbody recorded.
      assert (i = mkInspection SchemaUninitialized 0 (Z.of_nat n)) as -> by (unfold i, classifySnapshot; by rewrite Ht).
      cbn [in_Status in_TargetVersion]. rewrite Ht. pose proof statuses_distinct. intuition congruence. }
  assert (recorded \/ (~ recorded /\ exists c, i = mkInspection SchemaInvalid c (Z.of_nat n))) as Hcases.
  { destruct s as [t c applied]. cbn [ms_TableExists ms_Complete ms_Applied] in *. subst t. unfold i, recorded.
    destruct c; [|right; split; [by intros (_ & [=] & _)|by exists 0]].
    destruct applied as [|a applied]; [right; split; [intros (_ & _ & H & _); cbn in H; lia|by exists 0]|].
    destruct (classify_history (a :: applied) ms) as [(Hn & c & E)|(Hh & E)]; [done| |].
    - right. split; [by intros (_ & _ & _ & ?)|eauto].
    - left. split_and!; try done. cbn. lia. }
  destruct Hcases as [Hr|(Hr & c & ->)].
  2:{ clearbody recorded. cbn [in_Status in_TargetVersion]. rewrite Ht. pose proof statuses_distinct. intuition congruence. }
  assert (i = mkInspection (if Z.of_nat n <? Z.of_nat k then SchemaAhead
    else if Z.of_nat k <? Z.of_nat n then SchemaBehind else SchemaCurrent) (Z.of_nat k) (Z.of_nat n)) as ->.
  { destruct s as [t c applied], Hr as (Ht' & Hc & Hk & Hh). cbn [ms_TableExists ms_Complete ms_Applied] in *. subst t c.
    destruct (classify_history applied ms) as [(Hn & _)|(_ & E)]; [intros ->; cbn in Hk; lia|done|exact E]. }
  clearbody recorded n k. cbn [in_Status in_TargetVersion in_CurrentVersion]. rewrite Ht. pose proof statuses_distinct.
  destruct (Z.ltb_spec (Z.of_nat n) (Z.of_nat k)); [|destruct (Z.ltb_spec (Z.of_nat k) (Z.of_nat n))];
    intuition (try congruence; try lia).
Qed.

(** (C37) The migration run ends: over migrations with contiguous versions, as
    [loadMigrations] returns them, whatever the pool, the server and the clock
    answer, the loop makes at most one iteration per migration, and never
    indexes [r.migrations] out of range. *)
Theorem migrations_terminate (files : option (list DirEntry)) (ms : list Migration) (ctx : mg_ctx)
    (Hload : loadMigrations files = inr ms) :
  calls_only (E := MgE) no_panic (Run ctx ms).
Proof.
  destruct files as [entries|]; [|done].
  apply loadMigrations_sound in Hload as [_ Hms%migrations_numbered]. unfold Run, WithMigrationLock, destroyPoolConnection.
  apply safe_call; [discriminate|intros [e|]]; [done|].
  apply safe_call; [discriminate|intros [e|]]; [safe_steps|].
  apply calls_only_bind; [by apply safe_runLocked|apply safe_finish].
Qed.

(** (C23) The connection of a migration run, whatever the pool, the server and
    the clock answer: one connection is acquired at most; schema and records
    are read and written only under the advisory lock, result sets are closed
    before anything else, every transaction executes one script and records
    the version and checksum of a migration with that script before it
    commits; and the connection is given back exactly once, to the pool only
    after the lock was released, and destroyed after an interruption, an
    unconfirmed rollback or a lock of unknown state. *)
Theorem migration_connection (ctx : mg_ctx) (ms : list Migration) (tr : trace MgE) (res : option error)
    (Hrun : runs (Run ctx ms) tr res) :
  proto_run (mg_step ms) MgNone tr = Some MgNone.
Proof.
  destruct (keeps_runs _ _ _ _ _ _ (mkeeps_Run ctx ms) Hrun) as (q & Hq & ->). exact Hq.
Qed.

(** * A concrete directory and run *)

Definition sample_files : list DirEntry :=
  [mkDirEntry (lit "000002_add_state.sql") false (Some (lit "alter table t add x int"));
   mkDirEntry (lit "archive") true None;
   mkDirEntry (lit "000001_initial.sql") false (Some (lit "create table t ()"))].

Definition sample_migrations : list Migration :=
  match loadMigrations (Some sample_files) with inr ms => ms | inl _ => [] end.

Lemma sample_loaded : loadMigrations (Some sample_files) = inr sample_migrations.
Proof. vm_compute. reflexivity. Qed.

Lemma migrations_terminate_witness : calls_only (E := MgE) no_panic (Run MgRequest sample_migrations).
Proof. apply (migrations_terminate (Some sample_files)). exact sample_loaded. Defined.

(** The first script breaks the connection. *)
Definition sample_interrupted : trace MgE :=
  [@ev MgE (MgAcquire MgRequest) None; @ev MgE (MgLock MgRequest migrationAdvisoryLockKey) None;
   @ev MgE (MgTableExists MgRequest) (Ok false); @ev MgE (MgLog (LogInspected SchemaUninitialized 0)) tt;
   @ev MgE (MgLog (LogStarting 1)) tt; @ev MgE (MgBegin MgRequest) None;
   @ev MgE (MgExecSQL MgRequest (lit "create table t ()")) (Some (Sentinel EOF));
   @ev MgE MgNow 1000; @ev MgE MgDeadline None;
   @ev MgE (MgRollback (MgWithoutCancel (1000 + 5 * Second))) None;
   @ev MgE (MgDestroy (MgBackground lockCleanupTimeout)) tt].

Lemma sample_migrations_scripts : exists c1 c2,
  sample_migrations = [mkMigration 1 (lit "000001_initial.sql") (lit "create table t ()") c1;
                       mkMigration 2 (lit "000002_add_state.sql") (lit "alter table t add x int") c2].
Proof. do 2 eexists. vm_compute. reflexivity. Qed.

Lemma sample_interrupted_runs :
  runs (Run MgRequest sample_migrations) sample_interrupted (Some (safeError ErrMigrationInterrupted "migration execution")).
Proof.
  destruct sample_migrations_scripts as (c1 & c2 & ->).
  answer (@None error). answer (@None error). answer (Ok false). answer tt. answer tt. answer (@None error).
  answer (Some (Sentinel EOF)). answer 1000. answer (@None Time). answer (@None error). answer tt. split; reflexivity.
Qed.

Lemma migration_connection_witness : proto_run (mg_step sample_migrations) MgNone sample_interrupted = Some MgNone.
Proof.
  apply (migration_connection MgRequest sample_migrations sample_interrupted
    (Some (safeError ErrMigrationInterrupted "migration execution"))).
  exact sample_interrupted_runs.
Defined.
