(* ===== verification/RowSchema.v ===== *)
(** The constraints of the tables that the other components write and read
    (gateway_schema_migrations and durable_acceptances of
    migrations/000001_initial_schema.sql, gateway_destinations of
    migrations/000002_security_state_v1.sql), and their agreement with the
    validation in the code. *)

From Stdlib Require Import ZifyBool.
From stdpp Require Import gmap sorting.
From S2P Require Import Prelude Effects Concurrency GoTime GoErrors Encoding Uuid Sha256 Events Canonical.
From S2P Require Import Durable AcceptanceRepo PgTypes SecurityTypes TokenRows TokenSchema Migrations MigrationSpec.

(** gateway_schema_migrations. *)
Definition migration_row_checks (version : Z) (checksum : bytes) : bool :=
  (0 <? version) && (length checksum =?? 64%nat) && forallb is_lower_hex checksum.

(** durable_acceptances, on the values an insert proposes. *)
Definition acceptance_row_checks (args : InsertArgs) : bool :=
  negb (ia_core args =?? []) && negb (ia_dest args =?? []) && (0 <? ia_version args) &&
  (0 <? Z.of_nat (length (ia_event_ciphertext args))) && (0 <? Z.of_nat (length (ia_event_nonce args))) &&
  (0 <? Z.of_nat (length (ia_digest_ciphertext args))) && (0 <? Z.of_nat (length (ia_digest_nonce args))) &&
  negb (ia_key args =?? []).

(** gateway_destinations. *)
Definition destination_row_checks (r : lifecycleDestinationRecord) : bool :=
  (ldr_destinationText r <>?? formatUUID (zero_arr 16)) &&
  ((ldr_stateText r =?? lit "enabled") || (ldr_stateText r =?? lit "disabled")) &&
  tz_leb (ldr_createdAt r) (ldr_stateChangedAt r).

Lemma migration_rows entries ms k m :
  loadMigrations (Some entries) = inr ms -> ms !! k = Some m -> migration_row_checks (m_Version m) (m_Checksum m) = true.
Proof.
  intros [_ Hms]%loadMigrations_sound Hm. destruct (migrations_of_lookup _ _ _ _ _ Hms Hm) as (e & digits & sql & _ & _ & _ & _ & ->).
  unfold migration_row_checks. cbn [m_Version m_Checksum]. rewrite hexEncode_length, arr_length.
  rewrite bool_decide_eq_true_2 by done. rewrite !andb_true_iff, forallb_forall. split_and!; [lia|done|].
  intros b Hb%list_elem_of_In. pose proof (hexEncode_lower (Sum256 sql)) as H. rewrite Forall_forall in H. by apply H.
Qed.

Lemma acceptance_rows candidate :
  pa_deliveryIdentity (c_Acceptance candidate) <> zero_arr 16 ->
  acceptance_row_checks (insert_args candidate) = validate (c_Acceptance candidate).
Proof.
  intros Hz%arr_is_zero_false. unfold acceptance_row_checks, insert_args, validate, protected_valid.
  cbn [ia_core ia_dest ia_version ia_event_ciphertext ia_event_nonce ia_digest_ciphertext ia_digest_nonce ia_key].
  rewrite Hz, !negb_orb, !negb_involutive, Z.leb_antisym, negb_involutive. cbn [negb]. 
  destruct (pa_corePrincipalID _ =?? []), (pa_destinationID _ =?? []), (0 <? pa_formatVersion _), (pa_encryptionKeyID _ =?? []),
    (0 <? Z.of_nat (length (pv_ciphertext (pa_canonicalEvent _)))), (0 <? Z.of_nat (length (pv_nonce (pa_canonicalEvent _)))),
    (0 <? Z.of_nat (length (pv_ciphertext (pa_protectedDigest _)))), (0 <? Z.of_nat (length (pv_nonce (pa_protectedDigest _)))); reflexivity.
Qed.

Lemma destination_rows d :
  dst_state d = DestinationEnabled \/ dst_state d = DestinationDisabled ->
  dst_audienceID d <> zero_arr 16 -> dst_createdAt d <> 0 ->
  destination_row_checks (row_of_destination d) = true <-> destination_ok d.
Proof.
  intros Hs Ha Hc. unfold destination_row_checks, row_of_destination, destination_ok.
  cbn [ldr_destinationText ldr_stateText ldr_createdAt ldr_stateChangedAt].
  rewrite !andb_true_iff, tz_leb_time, negb_true_iff, bool_decide_eq_false, Z.leb_le.
  assert (formatUUID (dst_id d) <> formatUUID (zero_arr 16) <-> dst_id d <> zero_arr 16) as ->.
  { split; [intros H E; apply H; by rewrite E|intros H E; by apply H, formatUUID_inj]. }
  split; [tauto|]. intros (_ & ? & _ & _ & ?). split; [split; [done|]|done]. by destruct Hs as [-> | ->].
Qed.

(** The rows the gateway writes are rows its schema admits: the metadata row
    of every embedded migration satisfies the constraints of its table; an
    acceptance with a delivery identity is admitted exactly if the code's own
    validation accepts it; and a destination exactly if the constructor of
    the code does. *)
Theorem written_rows_admitted :
  (forall entries ms k m, loadMigrations (Some entries) = inr ms -> ms !! k = Some m ->
     migration_row_checks (m_Version m) (m_Checksum m) = true) /\
  (forall candidate, pa_deliveryIdentity (c_Acceptance candidate) <> zero_arr 16 ->
     acceptance_row_checks (insert_args candidate) = validate (c_Acceptance candidate)) /\
  (forall d, dst_state d = DestinationEnabled \/ dst_state d = DestinationDisabled ->
     dst_audienceID d <> zero_arr 16 -> dst_createdAt d <> 0 ->
     destination_row_checks (row_of_destination d) = true <->
     NewDestination (dst_audienceID d) (dst_id d) (dst_state d) (dst_createdAt d, dst_createdRep d)
       (dst_stateChangedAt d, dst_changedRep d) = Ok d).
Proof.
  split_and!; [apply migration_rows|apply acceptance_rows|]. intros d Hs Ha Hc.
  rewrite destination_rows, NewDestination_ok by done. split; [intros H; split; [by destruct d|done]|by intros [_ ?]].
Qed.
