(* ===== verification/MigrationStore.v ===== *)
(** The meaning of the migration statements over the database, and the
    contract of a migration run: every script is executed in one transaction
    with its record, in order, once, and a run that succeeds leaves the schema
    current, whatever other sessions do while this one does not hold the
    advisory lock and whatever fails. *)

From stdpp Require Import gmap sorting.
From S2P Require Import Prelude Effects Concurrency GoTime GoErrors Encoding Events Canonical Migrations MigrationSpec.

(** * The database *)

Abbreviation records := (list AppliedMigration).

(** What a transaction has done so far: the metadata table it sees ([None] is
    no table), the scripts it executed and the records it inserted. *)
Record stage : Type := mkStage {
  st_table : option records;
  st_scripts : list bytes;
  st_records : records
}.

(** The committed metadata table, ordered by version; whether this session
    holds the lock; its open transaction; whether its result set was cut off;
    and, for the contract, the transactions this session committed and the
    table at the instant it got the lock. *)
Record mdb : Type := mkMdb {
  md_table : option records;
  md_lock : bool;
  md_tx : option stage;
  md_cut : bool;
  md_mine : list (list bytes * records);
  md_base : option (option records)
}.

Definition with_session (s : mdb) (lock : bool) (tx : option stage) (cut : bool) : mdb :=
  mkMdb (md_table s) lock tx cut (md_mine s) (md_base s).

(** A call that fails ends the transaction and may cost the session its lock. *)
Definition fails (s s' : mdb) : Prop :=
  exists lock, (lock = true -> md_lock s = true) /\ s' = with_session s lock None (md_cut s).

Definition committed (s : mdb) (st : stage) : mdb :=
  mkMdb (st_table st) (md_lock s) None (md_cut s) (md_mine s ++ [(st_scripts st, st_records st)]) (md_base s).

(** The row an insert adds, in the order of the versions. *)
Fixpoint insert_record (a : AppliedMigration) (rows : records) : records :=
  match rows with
  | [] => [a]
  | b :: rows => if am_Version a <? am_Version b then a :: b :: rows else b :: insert_record a rows
  end.

(** One call of the session. The metadata table and its rows are what the
    queries answer, a [Scan] may fail, and a result set may end early with an
    error. A script may create the metadata table but does not touch its rows;
    the insert needs the table and a version that is not recorded; a commit
    applies the transaction, and one that fails may or may not have. *)
Definition md_step (s : mdb) (o : mg_op) : ans MgE o -> mdb -> Prop :=
  match o with
  | MgAcquire _ => fun _ s' => s' = with_session s false None (md_cut s)
  | MgLock _ _ => fun r s' =>
      match r with
      | None => s' = mkMdb (md_table s) true None (md_cut s) (md_mine s) (Some (md_table s))
      | Some _ => fails s s'
      end
  | MgTableExists _ => fun r s' =>
      match r with Ok b => b = bool_decide (md_table s <> None) /\ s' = s | Err _ => fails s s' end
  | MgColumns _ => fun r s' =>
      match r with Ok _ => exists cut, s' = with_session s (md_lock s) (md_tx s) cut | Err _ => fails s s' end
  | MgApplied _ => fun r s' =>
      match r with
      | Ok rows => exists l n, md_table s = Some l /\
          Forall2 (fun x a => forall a', x = Ok a' -> a' = a) rows (take n l) /\
          s' = with_session s (md_lock s) (md_tx s) (n <? length l)%nat
      | Err _ => fails s s'
      end
  | MgRowsErr => fun r s' =>
      match r with None => md_cut s = false /\ s' = s | Some _ => fails s s' end
  | MgBegin _ => fun r s' =>
      match r with
      | None => s' = with_session s (md_lock s) (Some (mkStage (md_table s) [] [])) (md_cut s)
      | Some _ => fails s s'
      end
  | MgExecSQL _ sql => fun r s' =>
      match r with
      | None => exists st t, md_tx s = Some st /\ (t = st_table st \/ (st_table st = None /\ t = Some [])) /\
          s' = with_session s (md_lock s) (Some (mkStage t (st_scripts st ++ [sql]) (st_records st))) (md_cut s)
      | Some _ => fails s s'
      end
  | MgRecord _ version checksum => fun r s' =>
      match r with
      | None => exists st l at_, md_tx s = Some st /\ st_table st = Some l /\
          Forall (fun a => am_Version a <> version) l /\ at_ <> zero_time /\
          let a := mkApplied version checksum at_ in
          s' = with_session s (md_lock s)
                 (Some (mkStage (Some (insert_record a l)) (st_scripts st) (st_records st ++ [a]))) (md_cut s)
      | Some _ => fails s s'
      end
  | MgCommit _ => fun r s' =>
      match r with
      | None => exists st, md_tx s = Some st /\ s' = committed s st
      | Some _ => fails s s' \/ exists st, md_tx s = Some st /\ fails (committed s st) s'
      end
  | MgRollback _ | MgUnlock _ _ | MgDestroy _ => fun _ s' => fails s s'
  | _ => fun _ s' => s' = s
  end.

(** Other sessions: while this one holds the lock they leave the table alone;
    otherwise they may do anything to it. *)
Definition md_rely (s s' : mdb) : Prop :=
  md_lock s' = md_lock s /\ md_tx s' = md_tx s /\ md_cut s' = md_cut s /\ md_mine s' = md_mine s /\
  md_base s' = md_base s /\ (md_lock s = true -> md_table s' = md_table s).

(** The record of a migration. *)
Definition row_of (m : Migration) (a : AppliedMigration) : Prop :=
  am_Version a = m_Version m /\ am_Checksum a = m_Checksum m /\ am_AppliedAt a <> zero_time.

(** The transaction of a migration: its script and its record, nothing else. *)
Definition tx_of (m : Migration) (tx : list bytes * records) : Prop :=
  exists a, row_of m a /\ tx = ([m_SQL m], [a]).

(** The rows of a table that may not exist yet. *)
Definition rows_of (T : option records) : records := default [] T.

(** The table records exactly the first [k] migrations. *)
Definition stands (ms : list Migration) (T : option records) (k : nat) : Prop :=
  (T = None /\ k = 0%nat) \/ (exists l, T = Some l /\ l <> [] /\ length l = k /\ history ms l).

(** What a call of a run does to the database: nothing; or it got the lock,
    for the first time; or it committed the next migration, under the lock. *)
Definition md_guar (ms : list Migration) (s s' : mdb) : Prop :=
  (md_table s' = md_table s /\ md_base s' = md_base s /\ md_mine s' = md_mine s) \/
  (md_table s' = md_table s /\ md_base s = None /\ md_base s' = Some (md_table s) /\ md_mine s = [] /\ md_mine s' = []) \/
  (md_lock s = true /\ md_base s' = md_base s /\ exists k m a, stands ms (md_table s) k /\ ms !! k = Some m /\ row_of m a /\
     md_table s' = Some (insert_record a (rows_of (md_table s))) /\ md_mine s' = md_mine s ++ [([m_SQL m], [a])]).

(** Calls that neither take the lock nor commit. *)
Definition harmless (o : mg_op) : Prop :=
  match o with MgLock _ _ | MgCommit _ => False | _ => True end.

Lemma md_rely_refl s : md_rely s s.
Proof. by repeat split. Qed.

Lemma md_rely_trans s1 s2 s3 : md_rely s1 s2 -> md_rely s2 s3 -> md_rely s1 s3.
Proof.
  intros (L1 & X1 & C1 & M1 & B1 & T1) (L2 & X2 & C2 & M2 & B2 & T2). repeat split; try congruence.
  intros HL. rewrite T2 by congruence. by apply T1.
Qed.

Lemma fails_session s s' : fails s s' -> md_table s' = md_table s /\ md_base s' = md_base s /\ md_mine s' = md_mine s.
Proof. by intros (lock & _ & ->). Qed.

Lemma harmless_step s o r s' :
  harmless o -> md_step s o r s' -> md_table s' = md_table s /\ md_base s' = md_base s /\ md_mine s' = md_mine s.
Proof.
  intros Ho. destruct o; cbn [md_step]; try done; try (by intros ->); try (by intros H%fails_session).
  all: try (destruct r; [|by intros H%fails_session]).
  all: try (destruct r; [by intros H%fails_session|]).
  all: intros; destruct_ex; by subst.
Qed.

(** * Assertions *)

(** This session committed [M] since it got the lock on the table [B]. *)
Definition quiet (B : option (option records)) (M : list (list bytes * records)) (s : mdb) : Prop :=
  md_base s = B /\ md_mine s = M.

(** It holds the lock, the table being [T]. *)
Definition locked (T : option records) B M (s : mdb) : Prop :=
  md_lock s = true /\ md_table s = T /\ quiet B M s.

Lemma quiet_rely B M s s' : quiet B M s -> md_rely s s' -> quiet B M s'.
Proof. intros [Hb Hm] (_ & _ & _ & Em & Eb & _). split; congruence. Qed.

Lemma locked_rely T B M s s' : locked T B M s -> md_rely s s' -> locked T B M s'.
Proof.
  intros (Hl & Ht & Hq) Hr. split_and!; [|by rewrite (proj2 (proj2 (proj2 (proj2 (proj2 Hr))))) |by eapply quiet_rely].
  by rewrite (proj1 Hr).
Qed.

Lemma quiet_fails B M s s' : quiet B M s -> fails s s' -> quiet B M s'.
Proof. by intros Hq (lock & _ & ->). Qed.

Lemma locked_session T B M s tx cut : locked T B M s -> locked T B M (with_session s (md_lock s) tx cut).
Proof. done. Qed.

Create HintDb mdb.
#[local] Hint Resolve quiet_rely locked_rely quiet_fails locked_session : mdb.

Lemma quiet_step B M s o r s' : harmless o -> quiet B M s -> md_step s o r s' -> quiet B M s'.
Proof. intros Ho [Hb Hm] (_ & E1 & E2)%harmless_step; [|done]. split; congruence. Qed.

(** * What is read *)

(** The classification of the table [T], read completely. *)
Definition reads (ms : list Migration) (T : option records) (i : Inspection) : Prop :=
  i = classifySnapshot (match T with None => mkSnapshot false false [] | Some l => mkSnapshot true true l end) ms.

(** What is known after the metadata was read: either it was read completely,
    under the lock, or the answer is an error or an incomplete snapshot. *)
Definition snapshot_read (T : option records) B M (r : result MetadataSnapshot) (s : mdb) : Prop :=
  quiet B M s /\
  ((exists e, r = Err e) \/ r = Ok (mkSnapshot true false []) \/
   (locked T B M s /\ r = Ok (match T with None => mkSnapshot false false [] | Some l => mkSnapshot true true l end))).

Lemma scanApplied_rows rows l applied :
  Forall2 (fun x a => forall a', x = Ok a' -> a' = a) rows l -> scanApplied rows = Some applied -> applied = l.
Proof.
  intros H. revert applied. induction H as [|x a rows l Hx _ IH]; intros applied; cbn [scanApplied]; [by intros [= <-]|].
  destruct x as [a'|e]; [|done]. rewrite (Hx a') by done. destruct (scanApplied rows) as [applied'|]; [|done].
  intros [= <-]. f_equal. by apply IH.
Qed.

(** * The migrations committed *)

(** The transactions of the migrations [k] to [k + j - 1]. *)
Definition migrated (ms : list Migration) (k j : nat) (txs : list (list bytes * records)) : Prop :=
  (k + j <= length ms)%nat /\ Forall2 tx_of (take j (drop k ms)) txs.

Lemma migrated_snoc ms k j txs m tx :
  migrated ms k j txs -> ms !! (k + j)%nat = Some m -> tx_of m tx -> migrated ms k (S j) (txs ++ [tx]).
Proof.
  intros [Hlen Hf] Hm Htx. split.
  - apply lookup_lt_Some in Hm. lia.
  - rewrite (take_S_r _ _ m) by (by rewrite lookup_drop). apply Forall2_app; [done|]. by constructor.
Qed.

Lemma insert_record_last a rows :
  Forall (fun b => am_Version b < am_Version a) rows -> insert_record a rows = rows ++ [a].
Proof.
  induction 1 as [|b rows Hb _ IH]; [done|]. cbn [insert_record app].
  destruct (Z.ltb_spec (am_Version a) (am_Version b)); [lia|]. by rewrite IH.
Qed.

Lemma history_snoc ms l m a :
  numbered ms -> history ms l -> ms !! length l = Some m -> row_of m a -> history ms (l ++ [a]).
Proof.
  intros Hn Hh Hm (Hv & Hc & Ht) i b. rewrite lookup_app_Some. intros [Hb|[Hi Hb]]; [by apply Hh|].
  apply list_lookup_singleton_Some in Hb as [Hi' <-]. assert (i = length l) as -> by lia.
  destruct (Hn _ _ Hm) as [Hver Hcs]. split_and!; [lia|congruence|done|]. intros m' Hm'. congruence.
Qed.

(** Inserting the record of the next migration. *)
Lemma stands_next ms T k m a :
  numbered ms -> stands ms T k -> ms !! k = Some m -> row_of m a -> stands ms (Some (insert_record a (rows_of T))) (S k).
Proof.
  intros Hn HT Hm Ha. right. assert (length (rows_of T) = k /\ history ms (rows_of T)) as [Hlen Hh].
  { destruct HT as [[-> ->]|(l & -> & _ & Hl & Hh)]; [|done]. split; [done|]. by intros i b. }
  rewrite insert_record_last.
  - eexists. split; [done|]. split; [by destruct (rows_of T)|]. rewrite length_app. split; [cbn; lia|].
    eapply history_snoc; [done|done|by rewrite Hlen|done].
  - apply Forall_forall. intros b [i Hi]%list_elem_of_lookup_1. destruct (Hh _ _ Hi) as [-> _].
    apply lookup_lt_Some in Hi. destruct (Hn _ _ Hm) as [Hv _], Ha as [-> _]. lia.
Qed.

(** What a complete reading that is not refused says about the table. *)
Lemma reads_stands ms T i :
  reads ms T i -> in_Status i <> SchemaInvalid ->
  exists k, stands ms T k /\ in_CurrentVersion i = Z.of_nat k /\ (in_Status i = SchemaAhead \/ (k <= length ms)%nat).
Proof.
  unfold reads. intros -> Hs. destruct T as [l|].
  2:{ exists 0%nat. split; [by left|]. split; [done|]. right. lia. }
  destruct l as [|a l]; [done|].
  destruct (classify_history (a :: l) ms) as [(_ & c & E)|(Hh & E)]; [done| |]; rewrite E in Hs |- *; [done|].
  exists (length (a :: l)). split; [right; by exists (a :: l)|]. split; [done|]. cbn [in_Status].
  destruct (Z.ltb_spec (Z.of_nat (length ms)) (Z.of_nat (length (a :: l)))); [by left|right; lia].
Qed.

(** A table stands at one place only. *)
Lemma stands_length ms ms' T k k' : stands ms T k -> stands ms' T k' -> k = k'.
Proof. intros [[-> ->]|(l & -> & _ & <- & _)] [[? ->]|(l' & [= <-] & _ & <- & _)]; done. Qed.

Lemma reads_version ms T i k :
  stands ms T k -> reads ms T i -> in_Status i <> SchemaInvalid -> in_CurrentVersion i = Z.of_nat k.
Proof.
  intros HT Hr Hs. destruct (reads_stands _ _ _ Hr Hs) as (k' & HT' & -> & _). f_equal. by eapply stands_length.
Qed.

(** What is known when the run ends: the migrations it committed, and that it
    reached the last one if it succeeded. *)
Definition outcome (ms : list Migration) (k0 : nat) B (r : option error) (s : mdb) : Prop :=
  exists j, migrated ms k0 j (md_mine s) /\ (r = None -> (k0 + j)%nat = length ms) /\ md_base s = B.

Lemma outcome_quiet ms k0 j B M r s :
  quiet B M s -> migrated ms k0 j M -> (r = None -> (k0 + j)%nat = length ms) -> outcome ms k0 B r s.
Proof. intros [HB HM] Hj Hr. exists j. by rewrite HM. Qed.

(** * The contract *)

Lemma migrated_length ms k j txs : migrated ms k j txs -> length txs = j.
Proof. intros [Hle Hf]. apply Forall2_length in Hf. rewrite length_take, length_drop in Hf. lia. Qed.

Lemma migrated_last ms k j txs tx :
  migrated ms k (S j) (txs ++ [tx]) -> migrated ms k j txs /\ exists m, ms !! (k + j)%nat = Some m /\ tx_of m tx.
Proof.
  intros [Hle Hf]. destruct (lookup_lt_is_Some_2 ms (k + j)) as [m Hm]; [lia|].
  rewrite (take_S_r _ _ m) in Hf by (by rewrite lookup_drop).
  apply Forall2_app_inv_r in Hf as (l1 & l2 & Hf1 & Hf2 & E).
  assert (l2 = [m] /\ l1 = take j (drop k ms)) as [-> ->].
  { apply Forall2_length in Hf2. destruct l2 as [|m' [|? ?]]; [done| |done]. by apply app_inj_tail in E as [-> ->]. }
  apply Forall2_cons in Hf2 as [Htx _]. split; [split; [lia|done]|eauto].
Qed.

(** The rows of the table after the committed migrations. *)
Lemma migrated_history ms T k j txs :
  numbered ms -> stands ms T k -> migrated ms k j txs ->
  length (rows_of T ++ concat (map snd txs)) = (k + j)%nat /\ history ms (rows_of T ++ concat (map snd txs)).
Proof.
  intros Hn HT. revert j. induction txs as [|tx txs IH] using rev_ind; intros j HM.
  - apply migrated_length in HM as <-. cbn. rewrite app_nil_r, Nat.add_0_r.
    destruct HT as [[-> ->]|(l & -> & _ & Hl & Hh)]; [|done]. split; [done|]. by intros i b.
  - pose proof (migrated_length _ _ _ _ HM) as Hj. rewrite length_app, Nat.add_1_r in Hj. subst j.
    apply migrated_last in HM as [HM (m & Hm & a & Ha & ->)]. destruct (IH _ HM) as [Hlen Hh].
    rewrite map_app, concat_app, app_assoc. cbn [map concat snd app]. split.
    + rewrite length_app, Hlen. cbn. lia.
    + eapply history_snoc; [done|done|by rewrite Hlen|done].
Qed.

(** What a run did: nothing unless it got the lock; then, from a table that
    records the first [k] migrations, it committed one transaction for each of
    the next [j], in order; it succeeds only at the last migration, its rows
    and those it found being the complete history. *)
Definition contract (ms : list Migration) (r : option error) (s : mdb) : Prop :=
  match md_base s with
  | None => r <> None /\ md_mine s = []
  | Some T =>
      (r <> None /\ md_mine s = []) \/
      exists k j, stands ms T k /\ migrated ms k j (md_mine s) /\
        (r = None ->
         (k + j)%nat = length ms /\ history ms (rows_of T ++ concat (map snd (md_mine s))) /\
         length (rows_of T ++ concat (map snd (md_mine s))) = length ms)
  end.

Lemma contract_refused ms T r s : quiet (Some T) [] s -> r <> None -> contract ms r s.
Proof. intros [Hb Hm] Hr. unfold contract. rewrite Hb. by left. Qed.

Lemma contract_outcome ms k T r s : numbered ms -> stands ms T k -> outcome ms k (Some T) r s -> contract ms r s.
Proof.
  intros Hn HT (j & HM & Hr & Hb). unfold contract. rewrite Hb. right. exists k, j. split; [done|]. split; [done|].
  intros E. destruct (migrated_history _ _ _ _ _ Hn HT HM) as [Hlen Hh]. rewrite Hlen. auto.
Qed.

(** * The proof *)

Section Run.
Variable ms : list Migration.

Abbreviation mwp := (wp (E := MgE) md_step md_rely (md_guar ms) (fun _ => True)).

Lemma mwp_call {A} (o : mg_op) (f : ans MgE o -> prog MgE A) Q s :
  harmless o ->
  (forall s1 r s2, md_rely s s1 -> md_step s1 o r s2 -> mwp (f r) Q s2) -> mwp (bind (@call MgE o) f) Q s.
Proof.
  intros Ho H s1 r s2 Hr Hs. split; [done|]. split; [left; by eapply harmless_step|by eauto].
Qed.

(** A call whose effect on the database is to be justified. *)
Lemma mwp_call_guar {A} (o : mg_op) (f : ans MgE o -> prog MgE A) Q s :
  (forall s1 r s2, md_rely s s1 -> md_step s1 o r s2 -> md_guar ms s1 s2 /\ mwp (f r) Q s2) ->
  mwp (bind (@call MgE o) f) Q s.
Proof. intros H s1 r s2 Hr Hs. split; [done|]. by eapply H. Qed.

Lemma mwp_bind {A B} (p : prog MgE A) (f : A -> prog MgE B) P Q s :
  mwp p P s -> (forall a s', P a s' -> mwp (f a) Q s') -> mwp (bind p f) Q s.
Proof.
  intros Hp Hf. apply (wp_bind (E := MgE) md_step md_rely _ _ (fun s _ => md_rely_refl s)); [done|].
  eapply wp_mono; [exact Hp|]. intros a s' Ha _. by apply Hf.
Qed.

Lemma mwp_harmless {A} (p : prog MgE A) (P : A -> Prop) B M s :
  calls_only (E := MgE) harmless p -> (forall tr a, runs p tr a -> P a) -> quiet B M s ->
  mwp p (fun a s' => P a /\ quiet B M s') s.
Proof.
  intros Hc HP Hq. apply (wp_frame (E := MgE) md_step md_rely (md_guar ms) (fun _ => True) (fun _ _ _ => I) harmless p P (quiet B M)); [exact Hc|exact HP| | |exact Hq].
  - intros s1 s2. apply quiet_rely.
  - intros s1 o r s2 Ho H1 _ Hs. split; [done|]. split; [left; by eapply harmless_step|by eapply quiet_step].
Qed.

Lemma mwp_ret {A} (a : A) (Q : A -> mdb -> Prop) s : (forall s', md_rely s s' -> Q a s') -> mwp (Ret a) Q s.
Proof. done. Qed.

(** Closing a result set. *)
Lemma mwp_close {A} (p : prog MgE A) Q (J : mdb -> Prop) s :
  (forall s s', J s -> md_rely s s' -> J s') -> J s -> (forall s, J s -> mwp p Q s) ->
  mwp (bind (@call MgE MgRowsClose) (fun _ => p)) Q s.
Proof. intros HJ Hs Hp. apply mwp_call; [exact I|]. intros s1 [] s2 Hr ->. apply Hp. by eapply HJ. Qed.

Lemma mwp_columns ctx T B M s :
  locked T B M s ->
  mwp (metadataColumnsComplete ctx)
    (fun r s' => quiet B M s' /\ ((exists e, r = Err e) \/ r = Ok false \/ (r = Ok true /\ locked T B M s'))) s.
Proof.
  intros Hl. unfold metadataColumnsComplete. apply mwp_call; [exact I|]. intros s1 r s2 Hr Hs.
  apply (locked_rely _ _ _ _ s1) in Hl; [|done]. destruct r as [rows|e]; cbn in Hs.
  2:{ apply mwp_ret. intros s' Hr'. split; [|by left; eexists]. destruct Hl as (_ & _ & Hq). by eauto with mdb. }
  destruct Hs as [cut ->]. apply locked_session with (tx := md_tx s1) (cut := cut) in Hl.
  destruct (seenColumns rows ∅) as [seen|].
  2:{ apply mwp_close with (J := quiet B M); [by eauto with mdb|apply Hl|]. intros s3 Hq. apply mwp_ret.
      intros s' Hr'. split; [by eauto with mdb|]. by right; left. }
  apply mwp_call; [exact I|]. intros s3 err s4 Hr3 Hs. apply (locked_rely _ _ _ _ s3) in Hl; [|done]. destruct err as [e|]; cbn in Hs.
  - apply mwp_close with (J := quiet B M); [by eauto with mdb| |].
    { destruct Hl as (_ & _ & Hq). by eauto with mdb. }
    intros s5 Hq. apply mwp_ret. intros s' Hr'. split; [by eauto with mdb|]. by left; eexists.
  - destruct Hs as [_ ->]. apply mwp_close with (J := locked T B M); [by eauto with mdb|done|].
    intros s5 Hl5. apply mwp_ret. intros s' Hr'. apply (locked_rely _ _ _ _ s') in Hl5; [|done].
    split; [apply Hl5|]. destruct (forallb _ _); auto.
Qed.

Lemma mwp_Snapshot ctx T B M s : locked T B M s -> mwp (Snapshot ctx) (snapshot_read T B M) s.
Proof.
  intros Hl. unfold Snapshot, snapshot_read. apply mwp_call; [exact I|]. intros s1 r s2 Hr Hs.
  apply (locked_rely _ _ _ _ s1) in Hl; [|done].
  destruct r as [b|e]; cbn in Hs.
  2:{ apply mwp_ret. intros s' Hr'. split; [|by left; eexists]. destruct Hl as (_ & _ & Hq). by eauto with mdb. }
  destruct Hs as [-> ->]. rewrite (proj1 (proj2 Hl)). destruct T as [l|].
  2:{ apply mwp_ret. intros s' Hr'. apply (locked_rely _ _ _ _ s') in Hl; [|done]. split; [apply Hl|]. right. by right. }
  eapply mwp_bind; [by apply mwp_columns|]. intros r s3 (Hq & Hcase). cbv beta.
  destruct r as [[]|e]; [|apply mwp_ret; intros s' Hr'; split; [by eauto with mdb|by right; left]
                         |apply mwp_ret; intros s' Hr'; split; [by eauto with mdb|by left; eexists]].
  destruct Hcase as [[e [=]]|[[=]|[_ Hl3]]]. apply mwp_call; [exact I|]. intros s4 q s5 Hr4 Hs.
  apply (locked_rely _ _ _ _ s4) in Hl3; [|done]. destruct q as [rows|e]; cbn in Hs.
  2:{ apply mwp_ret. intros s' Hr'. split; [|by left; eexists]. destruct Hl3 as (_ & _ & Hq'). by eauto with mdb. }
  destruct Hs as (l' & n & El & Hrows & ->). rewrite (proj1 (proj2 Hl3)) in El. injection El as <-.
  apply locked_session with (tx := md_tx s4) (cut := (n <? length l)%nat) in Hl3.
  destruct (scanApplied rows) as [applied|] eqn:Es.
  2:{ apply mwp_close with (J := quiet B M); [by eauto with mdb|apply Hl3|]. intros s6 Hq6. apply mwp_ret.
      intros s' Hr'. split; [by eauto with mdb|]. by right; left. }
  apply mwp_call; [exact I|]. intros s6 err s7 Hr6 Hs. pose proof (proj1 (proj2 (proj2 Hr6))) as Hcut. cbn [with_session md_cut] in Hcut.
  apply (locked_rely _ _ _ _ s6) in Hl3; [|done]. destruct err as [e|]; cbn in Hs.
  - apply mwp_close with (J := quiet B M); [by eauto with mdb| |].
    { destruct Hl3 as (_ & _ & Hq'). by eauto with mdb. }
    intros s8 Hq8. apply mwp_ret. intros s' Hr'. split; [by eauto with mdb|]. by left; eexists.
  - destruct Hs as [Hc ->]. rewrite Hc in Hcut. symmetry in Hcut. apply Nat.ltb_ge in Hcut.
    rewrite take_ge in Hrows by done. apply (scanApplied_rows _ _ _ Hrows) in Es as ->.
    apply mwp_close with (J := locked (Some l) B M); [by eauto with mdb|done|].
    intros s8 Hl8. apply mwp_ret. intros s' Hr'. apply (locked_rely _ _ _ _ s') in Hl8; [|done].
    split; [apply Hl8|]. by right; right.
Qed.

Lemma mwp_Inspect ctx T B M s :
  locked T B M s ->
  mwp (Inspect ctx ms)
    (fun x s' => quiet B M s' /\
       ((exists e, x.2 = Some e) \/
        (x.2 = None /\ (in_Status x.1 = SchemaInvalid \/ (locked T B M s' /\ reads ms T x.1))))) s.
Proof.
  intros Hl. unfold Inspect. eapply mwp_bind; [by apply mwp_Snapshot|]. intros r s1 [Hq Hcase].
  destruct r as [snapshot|e]; apply mwp_ret; intros s' Hr'; (split; [by eauto with mdb|]).
  2:{ left. by eexists. }
  right. split; [done|]. destruct Hcase as [[e [=]]|[[= ->]|[Hl1 [= ->]]]]; [by left|].
  right. split; [by eapply locked_rely|done].
Qed.

(** * One migration *)

(** What is known after a migration was attempted. *)
Definition applied (m : Migration) T B M (r : option error) (s : mdb) : Prop :=
  match r with
  | None => exists a, row_of m a /\ Forall (fun b => am_Version b <> m_Version m) (rows_of T) /\
      locked (Some (insert_record a (rows_of T))) B (M ++ [([m_SQL m], [a])]) s
  | Some _ => exists M', quiet B M' s /\ (M' = M \/ exists tx, tx_of m tx /\ M' = M ++ [tx])
  end.

Lemma applied_rely m T B M r s s' : applied m T B M r s -> md_rely s s' -> applied m T B M r s'.
Proof.
  unfold applied. destruct r.
  - intros (M' & Hq & H) Hr. exists M'. split; [by eauto with mdb|done].
  - intros (a & Ha & Hf & Hl) Hr. exists a. split_and!; [done|done|by eauto with mdb].
Qed.

(** The rollback after a failure. *)
Lemma mwp_rollback m T B M M' timeout e s :
  quiet B M' s -> (M' = M \/ exists tx, tx_of m tx /\ M' = M ++ [tx]) ->
  mwp (rollbackOpen timeout e) (applied m T B M) s.
Proof.
  intros Hq HM. eapply wp_mono.
  - apply (mwp_harmless _ (fun r => r <> None) B M'); [| |exact Hq].
    + unfold rollbackOpen. apply calls_only_bind.
      * unfold boundedCleanupContext. split; [exact I|intros now]. split; [exact I|intros [parent|]; exact I].
      * intros c. split; [exact I|intros [err|]; [|exact I]]. cbn. by destruct (errors_is err ErrTxClosed).
    + unfold rollbackOpen, boundedCleanupContext. intros tr r H. repeat runs_step; subst; done.
  - intros [r|] s' [Hr Hq']; [|done]. exists M'. done.
Qed.

Lemma mwp_apply ctx m k T B M s :
  stands ms T k -> ms !! k = Some m -> locked T B M s -> mwp (applyMigration ctx m) (applied m T B M) s.
Proof.
  intros Hstands Hm Hl. unfold applyMigration, applyMigrationWithRollbackTimeout.
  apply mwp_call; [exact I|]. intros s1 r s2 Hr Hs. apply (locked_rely _ _ _ _ s1) in Hl; [|done].
  destruct r as [e|]; cbn in Hs.
  { apply mwp_ret. intros s' Hr'. exists M. split; [|by left]. destruct Hl as (_ & _ & Hq). by eauto with mdb. }
  subst s2. pose proof (proj1 (proj2 Hl)) as HT. rewrite HT.
  apply locked_session with (tx := Some (mkStage T [] [])) (cut := md_cut s1) in Hl.
  apply mwp_call; [exact I|]. intros s3 r s4 Hr3 Hs. pose proof (proj1 (proj2 Hr3)) as Htx. cbn in Htx.
  apply (locked_rely _ _ _ _ s3) in Hl; [|done]. destruct r as [e|]; cbn in Hs.
  { eapply mwp_rollback; [|by left]. destruct Hl as (_ & _ & Hq). by eauto with mdb. }
  destruct Hs as (st & t & Est & Ht & ->). rewrite Htx in Est. injection Est as <-. cbn [st_table st_scripts st_records app] in *.
  assert (rows_of t = rows_of T) as Hrows by (by destruct Ht as [->|[-> ->]]).
  apply locked_session with (tx := Some (mkStage t [m_SQL m] [])) (cut := md_cut s3) in Hl.
  apply mwp_call; [exact I|]. intros s5 r s6 Hr5 Hs. pose proof (proj1 (proj2 Hr5)) as Htx5. cbn in Htx5.
  apply (locked_rely _ _ _ _ s5) in Hl; [|done]. destruct r as [e|]; cbn in Hs.
  { eapply mwp_rollback; [|by left]. destruct Hl as (_ & _ & Hq). by eauto with mdb. }
  destruct Hs as (st & l & at_ & Est & El & Hv & Hat & ->). rewrite Htx5 in Est. injection Est as <-.
  cbn [st_table st_scripts st_records app] in *. subst t. change (rows_of (Some l)) with l in Hrows. subst l.
  set (a := mkApplied (m_Version m) (m_Checksum m) at_).
  apply locked_session with (tx := Some (mkStage (Some (insert_record a (rows_of T))) [m_SQL m] [a])) (cut := md_cut s5) in Hl.
  apply mwp_call_guar. intros s7 r s8 Hr7 Hs. pose proof (proj1 (proj2 Hr7)) as Htx7. cbn in Htx7.
  apply (locked_rely _ _ _ _ s7) in Hl; [|done]. destruct Hl as (Hlock & HT7 & [HB HM]).
  assert (row_of m a) as Ha by (by repeat split).
  set (done_ := committed s7 (mkStage (Some (insert_record a (rows_of T))) [m_SQL m] [a])).
  assert (forall s9, md_table s9 = md_table done_ /\ md_base s9 = md_base done_ /\ md_mine s9 = md_mine done_ ->
    md_guar ms s7 s9) as Hguar.
  { intros s9 (E1 & E2 & E3). right; right. split; [done|]. split; [done|]. exists k, m, a. rewrite HT7, E1, E3. done. }
  destruct r as [e|]; cbn in Hs.
  - destruct Hs as [Hf|(st & Est & Hf)].
    + split; [left; by apply fails_session|]. eapply mwp_rollback; [|by left]. eapply quiet_fails; [|exact Hf]. done.
    + rewrite Htx7 in Est. injection Est as <-. split; [by apply Hguar, fails_session|].
      eapply mwp_rollback; [|right; exists ([m_SQL m], [a]); split; [by exists a|done]].
      eapply quiet_fails; [|exact Hf]. split; cbn; congruence.
  - destruct Hs as (st & Est & ->). rewrite Htx7 in Est. injection Est as <-. split; [by apply Hguar|].
    apply mwp_ret. intros s' Hr'. apply (applied_rely _ _ _ _ _ done_); [|done].
    exists a. split; [done|]. split; [done|]. split; [exact Hlock|]. split; [done|]. split; [exact HB|]. cbn. by rewrite HM.
Qed.

Lemma mwp_loop ctx B k0 fuel : numbered ms -> forall i j T M s,
  locked T B M s -> stands ms T (k0 + j) -> in_CurrentVersion i = Z.of_nat (k0 + j) -> migrated ms k0 j M ->
  mwp (migrateLoop fuel ctx ms i) (outcome ms k0 B) s.
Proof.
  intros Hn. induction fuel as [|fuel IH]; intros i j T M s Hl HT Hi HM; cbn [migrateLoop].
  all: destruct (in_CurrentVersion i <? Z.of_nat (length ms)) eqn:El; [|
    eapply mwp_bind; [by apply mwp_Inspect|]; intros [f e] s1 [Hq Hcase]; cbn [fst snd] in *].
  - by intros s1 [].
  - destruct e as [e|]; [apply mwp_ret; intros s' Hr; eapply outcome_quiet; [by eauto with mdb|done|done]|].
    destruct (_ || _); [apply mwp_ret; intros s' Hr; eapply outcome_quiet; [by eauto with mdb|done|done]|].
    apply mwp_call; [exact I|]. intros s2 [] s3 Hr ->. apply mwp_ret. intros s' Hr'.
    eapply outcome_quiet; [by eauto with mdb|done|]. intros _. destruct HM as [Hle _]. lia.
  - destruct (ms !! Z.to_nat (in_CurrentVersion i)) as [next|] eqn:En; [|by intros s1 []].
    rewrite Hi, Nat2Z.id in En. destruct (in_CurrentVersion i <? 0); [by intros s1 []|].
    apply mwp_call; [exact I|]. intros s1 [] s2 Hr ->. apply (locked_rely _ _ _ _ s1) in Hl; [|done].
    eapply mwp_bind; [by eapply mwp_apply|]. intros [e|] s3.
    { intros (M' & Hq & HM'). apply mwp_ret. intros s' Hr'. destruct HM' as [->|(tx & Htx & ->)].
      - eapply outcome_quiet; [by eauto with mdb|done|done].
      - eapply outcome_quiet; [by eauto with mdb|by eapply migrated_snoc|done]. }
    intros (a & Ha & _ & Hl3). apply mwp_call; [exact I|]. intros s4 [] s5 Hr4 ->. apply (locked_rely _ _ _ _ s4) in Hl3; [|done].
    assert (migrated ms k0 (S j) (M ++ [([m_SQL next], [a])])) as HM'.
    { eapply migrated_snoc; [done|done|]. by exists a. }
    assert (stands ms (Some (insert_record a (rows_of T))) (k0 + S j)) as HT'.
    { rewrite Nat.add_succ_r. by eapply stands_next. }
    eapply mwp_bind; [by apply mwp_Inspect|]. intros [i' e] s6 [Hq Hcase]. cbn [fst snd] in *.
    destruct e as [e|]; [apply mwp_ret; intros s' Hr'; eapply outcome_quiet; [by eauto with mdb|done|done]|].
    destruct (_ || _) eqn:Ev; [apply mwp_ret; intros s' Hr'; eapply outcome_quiet; [by eauto with mdb|done|done]|].
    apply orb_false_iff in Ev as [Ev%negb_false_iff%bool_decide_eq_true Est].
    destruct Hcase as [[e [=]]|[_ [Hinv|[Hl6 Hreads]]]].
    { rewrite Hinv in Est. done. }
    eapply IH; [exact Hl6|exact HT'| |exact HM']. apply (reads_version _ _ _ _ HT' Hreads).
    intros E. by rewrite E in Est.
  - destruct e as [e|]; [apply mwp_ret; intros s' Hr; eapply outcome_quiet; [by eauto with mdb|done|done]|].
    destruct (_ || _); [apply mwp_ret; intros s' Hr; eapply outcome_quiet; [by eauto with mdb|done|done]|].
    apply mwp_call; [exact I|]. intros s2 [] s3 Hr ->. apply mwp_ret. intros s' Hr'.
    eapply outcome_quiet; [by eauto with mdb|done|]. intros _. destruct HM as [Hle _]. lia.
Qed.

Lemma mwp_runLocked ctx T s :
  numbered ms -> locked T (Some T) [] s ->
  mwp (runLocked ctx ms) (fun r s' => contract ms r s' /\ md_base s' = Some T) s.
Proof.
  intros Hn Hl. unfold runLocked. eapply mwp_bind; [by apply mwp_Inspect|].
  intros [i e] s1 [Hq Hcase]. cbn [fst snd] in *.
  assert (forall e s', quiet (Some T) [] s' -> mwp (Ret (Some e)) (fun r s' => contract ms r s' /\ md_base s' = Some T) s') as Hrefuse.
  { intros e' s' Hq'. apply mwp_ret. intros s'' Hr. apply (quiet_rely _ _ _ s'') in Hq'; [|done].
    split; [by eapply contract_refused|apply Hq']. }
  destruct e as [e|]; [by apply Hrefuse|].
  apply mwp_call; [exact I|]. intros s2 [] s3 Hr ->. apply (quiet_rely _ _ _ s2) in Hq; [|done]. cbv zeta.
  destruct (bool_decide_reflect (in_Status i = SchemaAhead)) as [Ha|Ha]; [by apply Hrefuse|].
  destruct (bool_decide_reflect (in_Status i = SchemaInvalid)) as [Hi|Hi]; [by apply Hrefuse|].
  destruct (in_Status i =?? SchemaQueryError); [by apply Hrefuse|].
  destruct (_ || _); [|by apply Hrefuse].
  destruct Hcase as [[e [=]]|[_ [?|[Hl1 Hreads]]]]; [done|].
  apply (locked_rely _ _ _ _ s2) in Hl1; [|done].
  destruct (reads_stands _ _ _ Hreads Hi) as (k & HT & Hv & [?|Hk]); [done|].
  eapply wp_mono.
  - apply (mwp_loop ctx (Some T) k _ Hn i 0 T [] s2); [done|by rewrite Nat.add_0_r|by rewrite Nat.add_0_r|].
    split; [lia|constructor].
  - intros r s' Ho. split; [by eapply contract_outcome|]. by destruct Ho as (_ & _ & _ & ->).
Qed.

Lemma mwp_finish runErr s :
  contract ms runErr s -> mwp (finishMigrationConnection runErr) (contract ms) s.
Proof.
  intros Hc. eapply wp_mono.
  - apply (mwp_harmless _ (fun r => r = None -> runErr = None) (md_base s) (md_mine s)); [| |done].
    + unfold finishMigrationConnection, destroyPoolConnection. destruct (opt_errors_is _ _); [by split|].
      split; [exact I|]. intros [[]|e]; (split; [exact I|]); intros []; by destruct runErr.
    + unfold finishMigrationConnection, destroyPoolConnection. intros tr r H. repeat runs_step; subst; done.
  - intros r s' [Hr [Hb Hm]]. unfold contract in *. rewrite Hb, Hm. destruct (md_base s) as [T|].
    + destruct Hc as [[Hc ->]|(k & j & HT & HM & Hc)]; [left|right].
      * split; [|done]. intros ->. by apply Hc, Hr.
      * exists k, j. split; [done|]. split; [done|]. intros ->. by apply Hc, Hr.
    + destruct Hc as [Hc ->]. split; [|done]. intros ->. by apply Hc, Hr.
Qed.

Lemma mwp_Run ctx s :
  numbered ms -> quiet None [] s -> mwp (Run ctx ms) (contract ms) s.
Proof.
  intros Hn Hq. assert (forall e s', quiet None [] s' -> mwp (Ret (Some e)) (contract ms) s') as Hrefuse.
  { intros e s' Hq'. apply mwp_ret. intros s'' Hr. destruct (quiet_rely _ _ _ s'' Hq' Hr) as [Hb Hm].
    unfold contract. by rewrite Hb. }
  unfold Run, WithMigrationLock. apply mwp_call; [exact I|]. intros s1 r s2 Hr ->. apply (quiet_rely _ _ _ s1) in Hq; [|done].
  destruct r as [e|]; [by apply Hrefuse|].
  apply mwp_call_guar. intros s3 r s4 Hr3 Hs. apply (quiet_rely _ _ (with_session s1 false None (md_cut s1)) s3) in Hq; [|done].
  destruct r as [e|]; cbn in Hs.
  { split; [left; by apply fails_session|].
    apply mwp_call; [exact I|]. intros s5 [] s6 Hr5 Hs5. apply Hrefuse. by eauto with mdb. }
  subst s4. destruct Hq as [HB HM]. split; [right; left; by rewrite HB, HM|]. eapply mwp_bind.
  - apply (mwp_runLocked ctx (md_table s3)); [done|]. split; [done|]. split; [done|]. by split.
  - intros r s' [Hc _]. by apply mwp_finish.
Qed.

End Run.

(** * Claims *)

(** (C20) The contract of a migration run. Let other sessions change the
    database at will while this one does not hold the advisory lock, and let
    any call fail, a failed commit having been applied or not. The run changes
    the schema only after it got the lock, and only if the table then records
    exactly the first [k] migrations with their checksums; it commits one
    transaction for each of the migrations [k+1] to [k+j], in order, each
    executing the script of the migration and inserting its record and nothing
    else; and it reports success only if [k+j] is the last migration, the rows
    it found and those it added being the complete history. *)
Theorem migration_contract (files : option (list DirEntry)) (ms : list Migration) (ctx : mg_ctx)
    (s s' : mdb) (res : option error)
    (Hload : loadMigrations files = inr ms)
    (Hfresh : md_base s = None /\ md_mine s = [])
    (Hexec : iexec (E := MgE) md_step md_rely (Run ctx ms) s res s') :
  contract ms res s'.
Proof.
  destruct files as [entries|]; [|done].
  apply loadMigrations_sound in Hload as [_ Hn%migrations_numbered].
  eapply wp_iexec; [by apply mwp_Run|exact Hexec].
Qed.

(** * A concrete server *)

Definition column (c : bytes * bytes) : result ColumnRow := Ok (mkColumn c.1 c.2 (lit "NO")).

(** A server that never fails; [None] only for the panic of the model. *)
Definition md_serve (s : mdb) (o : mg_op) : option (ans MgE o * mdb) :=
  let keep := with_session s (md_lock s) (md_tx s) in
  match o return option (ans MgE o * mdb) with
  | MgAcquire _ => Some (None, with_session s false None (md_cut s))
  | MgLock _ _ => Some (None, mkMdb (md_table s) true None (md_cut s) (md_mine s) (Some (md_table s)))
  | MgUnlock _ _ => Some (Ok true, with_session s false None (md_cut s))
  | MgDestroy _ => Some (tt, with_session s false None (md_cut s))
  | MgTableExists _ => Some (Ok (bool_decide (md_table s <> None)), s)
  | MgColumns _ => Some (Ok (map column expectedColumns), keep false)
  | MgApplied _ =>
      match md_table s with
      | Some l => Some (Ok (map Ok l), keep false)
      | None => None
      end
  | MgRowsErr => if md_cut s then None else Some (None, s)
  | MgBegin _ => Some (None, with_session s (md_lock s) (Some (mkStage (md_table s) [] [])) (md_cut s))
  | MgExecSQL _ sql =>
      match md_tx s with
      | Some st =>
          Some (None, with_session s (md_lock s)
            (Some (mkStage (Some (default [] (st_table st))) (st_scripts st ++ [sql]) (st_records st))) (md_cut s))
      | None => None
      end
  | MgRecord _ version checksum =>
      match md_tx s with
      | Some st =>
          match st_table st with
          | Some l =>
              if forallb (fun a => am_Version a <>?? version) l then
                let a := mkApplied version checksum 1 in
                Some (None, with_session s (md_lock s)
                  (Some (mkStage (Some (insert_record a l)) (st_scripts st) (st_records st ++ [a]))) (md_cut s))
              else None
          | None => None
          end
      | None => None
      end
  | MgCommit _ => match md_tx s with Some st => Some (None, committed s st) | None => None end
  | MgRollback _ => Some (None, with_session s (md_lock s) None (md_cut s))
  | MgNow => Some (1000, s)
  | MgDeadline => Some (None, s)
  | MgRelease | MgRowsClose | MgLog _ => Some (tt, s)
  | MgPanic => None
  end.

Lemma md_serve_step s o r s' : md_serve s o = Some (r, s') -> md_step s o r s'.
Proof.
  destruct o; cbn; intros H; try (by simplify_eq); try (injection H as <- <-; by eexists).
  - injection H as <- <-. exists false. by split.
  - injection H as <- <-. exists false. by split.
  - destruct (md_table s) as [l|] eqn:Et; [|done]. injection H as <- <-. exists l, (length l).
    split; [done|]. split; [|f_equal; symmetry; apply Nat.ltb_irrefl].
    rewrite firstn_all. clear Et. induction l as [|a l IH]; constructor; [by intros a' [= ->]|done].
  - destruct (md_cut s) eqn:E; [done|]. by injection H as <- <-.
  - destruct (md_tx s) as [st|]; [|done]. injection H as <- <-. exists st, (Some (default [] (st_table st))).
    split; [done|]. split; [|done]. destruct (st_table st); [by left|by right].
  - destruct (md_tx s) as [st|]; [|done]. destruct (st_table st) as [l|] eqn:Et; [|done].
    destruct (forallb _ l) eqn:Ef; [|done]. injection H as <- <-. exists st, l, 1. split_and!; [done|done| |done|done].
    rewrite forallb_forall in Ef. apply Forall_forall. intros a Ha%list_elem_of_In%Ef.
    by apply negb_true_iff, bool_decide_eq_false in Ha.
  - destruct (md_tx s) as [st|]; [|done]. injection H as <- <-. by exists st.
Qed.

Fixpoint md_run {A} (p : prog MgE A) (s : mdb) : option (A * mdb) :=
  match p with
  | Ret a => Some (a, s)
  | Call o k => match md_serve s o with Some (r, s') => md_run (k r) s' | None => None end
  end.

Lemma md_run_iexec {A} (p : prog MgE A) s a s' :
  md_run p s = Some (a, s') -> iexec (E := MgE) md_step md_rely p s a s'.
Proof.
  revert s. induction p as [x|o k IH]; cbn; intros s.
  - intros [= -> ->]. split; [done|apply md_rely_refl].
  - destruct (md_serve s o) as [[r s1]|] eqn:E; [|done]. intros H. exists s, r, s1.
    split; [apply md_rely_refl|]. split; [by apply md_serve_step|by apply IH].
Qed.

(** An empty database is migrated to the last version. *)
Definition empty_db : mdb := mkMdb None false None false [] None.

Definition sample_end : mdb :=
  match md_run (Run MgRequest sample_migrations) empty_db with Some (_, s) => s | None => empty_db end.

Lemma sample_end_run : md_run (Run MgRequest sample_migrations) empty_db = Some (None, sample_end).
Proof. vm_compute. reflexivity. Qed.

Lemma sample_end_scripts :
  map fst (md_mine sample_end) = [[lit "create table t ()"]; [lit "alter table t add x int"]].
Proof. vm_compute. reflexivity. Qed.

Lemma migration_contract_witness : contract sample_migrations None sample_end.
Proof.
  apply (migration_contract (Some sample_files) sample_migrations MgRequest empty_db sample_end None).
  - exact sample_loaded.
  - split; reflexivity.
  - apply md_run_iexec. exact sample_end_run.
Defined.
