(* ===== verification/MigrationPool.v ===== *)
(** Any number of gateways, of different releases, migrating one database at
    the same time: every process runs [Run] of Migrations.v with the migrations
    of its release, the calls of all of them interleaved, and the database
    grants the advisory lock to one session at a time. *)

From stdpp Require Import gmap sorting.
From S2P Require Import Prelude Effects Concurrency GoTime GoErrors Encoding Migrations MigrationSpec MigrationStore.

(** * The processes and their database *)

(** A process: its database session and what it has left to do. *)
Record process : Type := mkProcess { pr_session : mdb; pr_rest : prog MgE (option error) }.

(** The committed metadata table, the transactions that were committed, in
    order, and the processes. *)
Record fleet : Type := mkFleet {
  fl_table : option records;
  fl_log : list (list bytes * records);
  fl_processes : list process
}.

(** A session reads the committed table. *)
Definition at_table (T : option records) (v : mdb) : mdb :=
  mkMdb T (md_lock v) (md_tx v) (md_cut v) (md_mine v) (md_base v).

(** No process other than [i] holds the advisory lock. *)
Definition lock_free (i : nat) (ps : list process) : Prop :=
  forall j p, j <> i -> ps !! j = Some p -> md_lock (pr_session p) = false.

(** One call of one process. *)
Inductive fleet_step : fleet -> fleet -> Prop :=
| fleet_call f i v o k r v' :
    fl_processes f !! i = Some (mkProcess v (Call o k)) ->
    md_step (at_table (fl_table f) v) o r v' ->
    (md_lock v' = true -> lock_free i (fl_processes f)) ->
    fleet_step f
      (mkFleet (md_table v') (fl_log f ++ drop (length (md_mine v)) (md_mine v'))
         (<[i := mkProcess v' (k r)]> (fl_processes f))).

Inductive fleet_steps : fleet -> fleet -> Prop :=
| fleet_refl f : fleet_steps f f
| fleet_next f1 f2 f3 : fleet_step f1 f2 -> fleet_steps f2 f3 -> fleet_steps f1 f3.

(** Processes that are about to start, with the context and the migrations of
    their release, over the table [T]. *)
Definition started (r : mg_ctx * list Migration) : process :=
  mkProcess (mkMdb None false None false [] None) (Run r.1 r.2).

Definition fleet_start (T : option records) (rs : list (mg_ctx * list Migration)) : fleet :=
  mkFleet T [] (map started rs).

(** * Releases *)

(** A table that stands inside an older release stands there in a newer one. *)
Lemma stands_prefix ms ms' T k :
  ms' `prefix_of` ms -> (k <= length ms')%nat -> stands ms' T k -> stands ms T k.
Proof.
  intros [rest ->] Hk [[-> ->]|(l & -> & Hne & Hl & Hh)]; [by left|right]. exists l. split; [done|].
  split; [done|]. split; [done|]. intros i a Hi. destruct (Hh i a Hi) as (Hv & Hc & Ht & Hm).
  split_and!; [done..|]. intros m. rewrite lookup_app_l; [apply Hm|]. apply lookup_lt_Some in Hi. lia.
Qed.

Lemma numbered_prefix ms ms' : ms' `prefix_of` ms -> numbered ms -> numbered ms'.
Proof. intros [rest ->] Hn i m Hm. apply Hn. by apply lookup_app_l_Some. Qed.

(** * The invariant *)

Section Fleet.
Context (ms : list Migration) (Hnum : numbered ms) (k0 : nat) (rs : list (mg_ctx * list Migration)).
Hypothesis (Hrel : Forall (fun r => r.2 `prefix_of` ms) rs).

(** Where a session stood when it got the lock, and what it committed since. *)
Definition based (n : nat) (v : mdb) : Prop :=
  forall T, md_base v = Some T -> exists j, stands ms T (k0 + j) /\ (j + length (md_mine v) <= n)%nat.

(** What is left of a process keeps the contract of its run. *)
Definition process_ok (f : fleet) (r : mg_ctx * list Migration) (p : process) : Prop :=
  wp (E := MgE) md_step md_rely (md_guar r.2) (fun _ => True) (pr_rest p) (contract r.2) (pr_session p) /\
  (md_lock (pr_session p) = true -> md_table (pr_session p) = fl_table f) /\
  based (length (fl_log f)) (pr_session p).

Record fleet_ok (f : fleet) : Prop := mkFleetOk {
  fo_log : migrated ms k0 (length (fl_log f)) (fl_log f);
  fo_table : stands ms (fl_table f) (k0 + length (fl_log f));
  fo_processes : forall i p, fl_processes f !! i = Some p -> exists r, rs !! i = Some r /\ process_ok f r p;
  fo_excl : forall i p, fl_processes f !! i = Some p -> md_lock (pr_session p) = true -> lock_free i (fl_processes f)
}.

Lemma based_le n n' v : based n v -> (n <= n')%nat -> based n' v.
Proof. intros Hb Hn T HT. destruct (Hb T HT) as (j & HS & Hj). exists j. split; [done|lia]. Qed.

(** Reading the committed table is interference that a session allows. *)
Lemma at_table_rely T v : (md_lock v = true -> md_table v = T) -> md_rely v (at_table T v).
Proof. intros H. split_and!; [done..|]. intros HL. by rewrite (H HL). Qed.

(** A call of a session keeps what the table, the log and the session say. *)
Lemma guar_fleet mi T log v v' :
  mi `prefix_of` ms -> md_guar mi (at_table T v) v' ->
  migrated ms k0 (length log) log -> stands ms T (k0 + length log) -> based (length log) v ->
  let log' := log ++ drop (length (md_mine v)) (md_mine v') in
  migrated ms k0 (length log') log' /\ stands ms (md_table v') (k0 + length log') /\ based (length log') v' /\
  ((md_table v' = T /\ log' = log) \/ md_lock v = true).
Proof.
  intros Hpre [(ET & EB & EM)|[(ET & HB & HB' & HM & HM')|(HL & EB & k & m & a & HT & Hm & Ha & ET & EM)]] Hlog Hst Hb;
    cbn [at_table md_table md_base md_mine md_lock] in *; cbv zeta.
  - rewrite EM, drop_all, app_nil_r, ET. split; [done|]. split; [done|]. split; [|by left].
    intros B HB. rewrite EB in HB. rewrite EM. by apply Hb.
  - rewrite HM, HM', drop_nil, app_nil_r, ET. split; [done|]. split; [done|]. split; [|by left].
    intros B E. rewrite HB' in E. injection E as <-. rewrite HM'. exists (length log). split; [done|]. cbn. lia.
  - rewrite EM, drop_app_length, length_app, Nat.add_1_r, Nat.add_succ_r, ET.
    apply (stands_prefix ms) in HT; [|done|apply lookup_lt_Some in Hm; lia].
    rewrite (stands_length _ _ _ _ _ HT Hst) in *. apply (prefix_lookup_Some _ ms) in Hm; [|done].
    split; [eapply migrated_snoc; [done|done|by exists a]|]. split; [by eapply stands_next|]. split; [|by right].
    intros B HB. rewrite EB in HB. destruct (Hb B HB) as (j & HS & Hj). exists j. split; [done|].
    rewrite EM, length_app. cbn. lia.
Qed.

Lemma fleet_step_ok f f' : fleet_ok f -> fleet_step f f' -> fleet_ok f'.
Proof.
  intros [Hlog Htab Hps Hex] Hstep. destruct Hstep as [f i v o k r v' Hi Hs Hfree].
  destruct (Hps i _ Hi) as (rel & Hr & Hwp & Hsync & Hb). cbn [pr_session pr_rest wp] in *.
  rewrite Forall_lookup in Hrel. pose proof (Hrel _ _ Hr) as Hpre.
  destruct (Hwp (at_table (fl_table f) v) r v') as (_ & Hg & Hwp'); [by apply at_table_rely|done|].
  destruct (guar_fleet _ _ _ _ _ Hpre Hg Hlog Htab Hb) as (Hlog' & Htab' & Hb' & Hcase).
  split; cbn [fl_table fl_log fl_processes]; [done|done| |].
  - intros j p. rewrite list_lookup_insert_Some. intros [(<- & <- & _)|(Hne & Hj)].
    { exists rel. split; [done|]. by split. }
    destruct (Hps j p Hj) as (rj & Hrj & Hwj & Hsj & Hbj). exists rj. split; [done|]. split; [done|]. split.
    + intros HL. destruct Hcase as [[-> _]|HL']; [by apply Hsj|].
      assert (md_lock (pr_session p) = false) by (eapply (Hex i _ Hi); [exact HL'|by apply not_eq_sym|done]). congruence.
    + eapply based_le; [exact Hbj|]. cbn [fl_log]. rewrite length_app. lia.
  - intros j p. rewrite list_lookup_insert_Some. intros [(<- & <- & _)|(Hne & Hj)] HL j' p' Hne'; cbn [pr_session] in *.
    + rewrite list_lookup_insert_ne by congruence. apply Hfree; [exact HL|congruence].
    + rewrite list_lookup_insert_Some. intros [(<- & <- & _)|(Hne2 & Hj')]; [|exact (Hex j p Hj HL j' p' Hne' Hj')].
      cbn [pr_session]. apply not_true_iff_false. intros HL'. specialize (Hfree HL' j p). rewrite Hfree in HL; [done|done|done].
Qed.

Lemma fleet_steps_ok f f' : fleet_steps f f' -> fleet_ok f -> fleet_ok f'.
Proof. induction 1; eauto using fleet_step_ok. Qed.

Lemma fleet_start_ok T : stands ms T k0 -> (k0 <= length ms)%nat -> fleet_ok (fleet_start T rs).
Proof.
  intros HT Hk. split; cbn [fl_table fl_log fl_processes fleet_start].
  - split; [cbn; lia|constructor].
  - by rewrite Nat.add_0_r.
  - intros i p. rewrite list_lookup_fmap_Some. intros (r & -> & Hr). exists r. split; [done|].
    rewrite Forall_lookup in Hrel. split; [|by split].
    apply mwp_Run; [|by split]. eapply numbered_prefix; [by eapply Hrel|done].
  - intros i p. rewrite list_lookup_fmap_Some. by intros (r & -> & Hr).
Qed.

(** A process that reported success left the schema at its release or later. *)
Lemma success_reached f i r v :
  fleet_ok f -> rs !! i = Some r -> fl_processes f !! i = Some (mkProcess v (Ret None)) ->
  (length r.2 <= k0 + length (fl_log f))%nat.
Proof.
  intros [_ _ Hps _] Hr Hi. destruct (Hps i _ Hi) as (r' & Hr' & Hwp & _ & Hb). rewrite Hr in Hr'. injection Hr' as <-.
  pose proof (Hwp v (md_rely_refl v)) as Hc. unfold contract in Hc. cbn [pr_session] in *.
  destruct (md_base v) as [T|] eqn:EB; [|by destruct Hc]. destruct (Hb T EB) as (j & HS & Hj).
  destruct Hc as [[Hc _]|(k & j' & HT & HM & Hc)]; [done|]. destruct Hc as (Hc & _); [done|].
  rewrite (migrated_length _ _ _ _ HM) in Hj. rewrite (stands_length _ _ _ _ _ HT HS) in Hc. lia.
Qed.
End Fleet.

(** * Claims *)

(** (C21) Concurrent and mixed deployments migrate exactly once. Let any number
    of gateways start over one database whose table records the first [k0]
    migrations, each with the migrations of its own release, a prefix of the
    newest; let their calls interleave in any order, and let any of them fail.
    At every moment the transactions committed by all of them together are
    those of the migrations [k0+1], [k0+2], ... of the newest release, in order
    and each once, the table records exactly the migrations up to there, at
    most one of them holds the advisory lock, and if one has reported success
    the schema has every migration of its release. *)
Theorem migrations_once (files : option (list DirEntry)) (ms : list Migration)
    (rs : list (mg_ctx * list Migration)) (T : option records) (k0 : nat) (f : fleet)
    (Hload : loadMigrations files = inr ms)
    (Hreleases : Forall (fun r => r.2 `prefix_of` ms) rs)
    (Hstands : stands ms T k0 /\ (k0 <= length ms)%nat)
    (Hsteps : fleet_steps (fleet_start T rs) f) :
  migrated ms k0 (length (fl_log f)) (fl_log f) /\
  stands ms (fl_table f) (k0 + length (fl_log f)) /\
  (forall i p, fl_processes f !! i = Some p -> md_lock (pr_session p) = true -> lock_free i (fl_processes f)) /\
  (forall i r v, rs !! i = Some r -> fl_processes f !! i = Some (mkProcess v (Ret None)) ->
     (length r.2 <= k0 + length (fl_log f))%nat).
Proof.
  destruct files as [entries|]; [|done]. apply loadMigrations_sound in Hload as [_ Hn%migrations_numbered].
  pose proof (fleet_steps_ok _ Hn _ _ Hreleases _ _ Hsteps (fleet_start_ok _ Hn _ _ Hreleases _ (proj1 Hstands) (proj2 Hstands))) as Hok.
  split; [apply Hok|]. split; [apply Hok|]. split; [apply Hok|]. intros i r v Hr Hi. by eapply success_reached.
Qed.

(** * Concrete processes *)

Definition lock_freeb (i : nat) (ps : list process) : bool :=
  forallb (fun x => (x.1 =? i)%nat || negb (md_lock (pr_session x.2))) (imap pair ps).

Lemma lock_freeb_ok i ps : lock_freeb i ps = true -> lock_free i ps.
Proof.
  unfold lock_freeb. rewrite forallb_forall. intros H j p Hne Hj.
  assert (In (j, p) (imap pair ps)) as Hin.
  { apply list_elem_of_In, (list_elem_of_lookup_2 _ j). by rewrite list_lookup_imap, Hj. }
  apply H in Hin. cbn in Hin. apply orb_true_iff in Hin as [E%Nat.eqb_eq|E%negb_true_iff]; done.
Qed.

(** The next call of process [i], answered by a server that never fails. *)
Definition fleet_call_i (f : fleet) (i : nat) : option fleet :=
  match fl_processes f !! i with
  | Some (mkProcess v (Call o k)) =>
      match md_serve (at_table (fl_table f) v) o with
      | Some (r, v') =>
          if negb (md_lock v') || lock_freeb i (fl_processes f) then
            Some (mkFleet (md_table v') (fl_log f ++ drop (length (md_mine v)) (md_mine v'))
                    (<[i := mkProcess v' (k r)]> (fl_processes f)))
          else None
      | None => None
      end
  | _ => None
  end.

(** A schedule; a process that is waiting or has returned is passed over. *)
Definition fleet_run (schedule : list nat) (f : fleet) : fleet :=
  foldl (fun f i => default f (fleet_call_i f i)) f schedule.

Lemma fleet_run_steps schedule f : fleet_steps f (fleet_run schedule f).
Proof.
  revert f. induction schedule as [|i schedule IH]; intros f; [constructor|]. cbn [fleet_run foldl].
  destruct (fleet_call_i f i) as [f'|] eqn:E; [|apply IH]. cbn [default]. apply fleet_next with f'; [|apply IH].
  unfold fleet_call_i in E. destruct (fl_processes f !! i) as [[v [a|o k]]|] eqn:Ei; [done| |done].
  destruct (md_serve _ o) as [[r v']|] eqn:Es; [|done]. destruct (_ || _) eqn:El; [|done]. injection E as <-.
  apply fleet_call with o; [done|by apply md_serve_step|]. intros HL. apply lock_freeb_ok. by rewrite HL in El.
Qed.

(** An older and a newer gateway, taking turns over an empty database. *)
Definition sample_releases : list (mg_ctx * list Migration) :=
  [(MgRequest, take 1 sample_migrations); (MgRequest, sample_migrations)].

Definition sample_fleet : fleet :=
  fleet_run (concat (repeat [0; 1]%nat 80)) (fleet_start None sample_releases).

Definition returned (p : process) : option (option error) := match pr_rest p with Ret r => Some r | Call _ _ => None end.

Lemma sample_fleet_end :
  map returned (fl_processes sample_fleet) = [Some None; Some None] /\
  map fst (fl_log sample_fleet) = [[lit "create table t ()"]; [lit "alter table t add x int"]].
Proof. vm_compute. split; reflexivity. Qed.

(** If the newer one goes first, the older one refuses a schema ahead of it. *)
Lemma sample_fleet_ahead :
  map returned (fl_processes (fleet_run (repeat 1%nat 80 ++ repeat 0%nat 80) (fleet_start None sample_releases))) =
  [Some (Some (safeError ErrSchemaAhead "schema compatibility")); Some None].
Proof. vm_compute. reflexivity. Qed.

Lemma migrations_once_witness :
  migrated sample_migrations 0 (length (fl_log sample_fleet)) (fl_log sample_fleet).
Proof.
  apply (migrations_once (Some sample_files) sample_migrations sample_releases None 0 sample_fleet).
  - exact sample_loaded.
  - constructor; [apply prefix_take|]. constructor; [done|constructor].
  - split; [by left|cbn; lia].
  - apply fleet_run_steps.
Defined.
