(* ===== verification/GoDuration.v ===== *)
(** [time.ParseDuration] of the Go standard library, as config.go uses it.

    A duration text is an optional sign and a sequence of decimal numbers with
    units; the fraction of a number is computed in binary64, which the
    standard library's SpecFloat defines over the integers. *)

From Stdlib Require Import SpecFloat.
From S2P Require Import Prelude GoTime Encoding.

(** * float64 *)

Definition float64 : Type := spec_float.
Definition f64_of_Z (z : Z) : float64 := binary_normalize 53 1024 z 0 false.
Definition f64_mul (x y : float64) : float64 := SFmul 53 1024 x y.
Definition f64_div (x y : float64) : float64 := SFdiv 53 1024 x y.

(** [uint64(x)] of a non-negative finite [x]. *)
Definition f64_to_uint64 (x : float64) : Z :=
  match x with S754_finite false m e => Z.shiftl (Zpos m) e | _ => 0 end.

(** * The parts of a number *)

(** [leadingInt]: the value and the rest; [None] is an overflow. *)
Fixpoint leadingInt (s : bytes) (x : Z) : option (Z * bytes) :=
  match s with
  | c :: s' =>
      if is_digit c then
        if 2 ^ 63 / 10 <? x then None
        else let x := x * 10 + (bZ c - 48) in
             if 2 ^ 63 <? x then None else leadingInt s' x
      else Some (x, s)
  | [] => Some (x, s)
  end.

(** [leadingFraction]: the digits as far as they fit, their scale, the rest. *)
Fixpoint leadingFraction (s : bytes) (x : Z) (scale : float64) (overflow : bool) : Z * float64 * bytes :=
  match s with
  | c :: s' =>
      if is_digit c then
        if overflow then leadingFraction s' x scale overflow
        else if (2 ^ 63 - 1) / 10 <? x then leadingFraction s' x scale true
        else let y := x * 10 + (bZ c - 48) in
             if 2 ^ 63 <? y then leadingFraction s' x scale true
             else leadingFraction s' y (f64_mul scale (f64_of_Z 10)) false
      else (x, scale, s)
  | [] => (x, scale, s)
  end.

(** The text up to the next digit or point. *)
Fixpoint unitText (s : bytes) : bytes * bytes :=
  match s with
  | c :: s' => if (c =?? x2e) || is_digit c then ([], s) else let '(u, r) := unitText s' in (c :: u, r)
  | [] => ([], [])
  end.

(** [unitMap]. *)
Definition unitOf (u : bytes) : option Duration :=
  if u =?? lit "ns" then Some 1
  else if u =?? lit "us" then Some Microsecond
  else if u =?? lit "µs" then Some Microsecond
  else if u =?? lit "μs" then Some Microsecond
  else if u =?? lit "ms" then Some (1000 * Microsecond)
  else if u =?? lit "s" then Some Second
  else if u =?? lit "m" then Some Minute
  else if u =?? lit "h" then Some Hour
  else None.

(** One number with its unit: its nanoseconds, and the rest. *)
Definition parseComponent (s : bytes) : option (Z * bytes) :=
  match s with
  | [] => None
  | c :: _ =>
    if negb ((c =?? x2e) || is_digit c) then None
    else
    match leadingInt s 0 with
    | None => None
    | Some (v, s1) =>
        let pre := length s <>?? length s1 in
        let '(f, scale, s2, post) :=
          match s1 with
          | d :: s1' =>
              if d =?? x2e then
                let '(f, scale, s2) := leadingFraction s1' 0 (f64_of_Z 1) false in
                (f, scale, s2, length s1' <>?? length s2)
              else (0, f64_of_Z 1, s1, false)
          | [] => (0, f64_of_Z 1, s1, false)
          end in
        if negb pre && negb post then None
        else
        let '(u, s3) := unitText s2 in
        match unitOf u with
        | None => None
        | Some unit =>
            if 2 ^ 63 / unit <? v then None
            else
            let v := v * unit in
            let v := if 0 <? f then v + f64_to_uint64 (f64_mul (f64_of_Z f) (f64_div (f64_of_Z unit) scale)) else v in
            if (0 <? f) && (2 ^ 63 <? v) then None else Some (v, s3)
        end
    end
  end.

(** The loop over the components, with the wrap-around of [uint64]; every
    component consumes text, so the length of the text bounds their number. *)
Fixpoint parseComponents (fuel : nat) (s : bytes) (d : Z) : option Z :=
  match s, fuel with
  | [], _ => Some d
  | _, O => None
  | _, S fuel =>
      match parseComponent s with
      | None => None
      | Some (v, s) => let d := (d + v) mod 2 ^ 64 in if 2 ^ 63 <? d then None else parseComponents fuel s d
      end
  end.

(** [time.ParseDuration]. *)
Definition ParseDuration (s : bytes) : option Duration :=
  let '(neg, s) :=
    match s with
    | c :: s' => if c =?? x2d then (true, s') else if c =?? x2b then (false, s') else (false, s)
    | [] => (false, s)
    end in
  if s =?? lit "0" then Some 0
  else if s =?? [] then None
  else
  match parseComponents (length s) s 0 with
  | None => None
  | Some d => if neg then Some (- d) else if 2 ^ 63 - 1 <? d then None else Some d
  end.

Lemma ParseDuration_examples :
  ParseDuration (lit "2m") = Some (2 * Minute) /\ ParseDuration (lit "1h30m10.5s") = Some (5410 * Second + 500 * 1000 * Microsecond) /\
  ParseDuration (lit "-1.5h") = Some (- (90 * Minute)) /\ ParseDuration (lit ".3ms") = Some 300000 /\
  ParseDuration (lit "1") = None /\ ParseDuration (lit "s") = None /\ ParseDuration (lit "1 s") = None /\
  ParseDuration (lit "9223372036854775807ns") = Some (2 ^ 63 - 1) /\ ParseDuration (lit "9223372036854775808ns") = None /\
  ParseDuration (lit "-9223372036854775808ns") = Some (- 2 ^ 63) /\ ParseDuration (lit "0") = Some 0 /\
  ParseDuration (lit "0.1s") = Some (100 * 1000 * Microsecond) /\ ParseDuration (lit "1µs") = Some 1000.
Proof. vm_compute. repeat split. Qed.

(** * Facts *)

Lemma unitText_length s u r : unitText s = (u, r) -> (length s = length u + length r)%nat.
Proof.
  revert u r. induction s as [|c s IH]; cbn; intros u r; [by intros [= <- <-]|].
  destruct (_ || _); [by intros [= <- <-]|]. destruct (unitText s) as [u' r'] eqn:E. intros [= <- <-].
  cbn. by rewrite (IH u' r').
Qed.

Lemma leadingInt_length s x v r : leadingInt s x = Some (v, r) -> (length r <= length s)%nat.
Proof.
  revert x. induction s as [|c s IH]; cbn; intros x; [by intros [= <- <-]|].
  destruct (is_digit c); [|by intros [= <- <-]]. destruct (_ <? x); [done|]. destruct (_ <? _); [done|].
  intros H%IH. lia.
Qed.

Lemma leadingFraction_length s x scale o f scale' r :
  leadingFraction s x scale o = (f, scale', r) -> (length r <= length s)%nat.
Proof.
  revert x scale o. induction s as [|c s IH]; cbn [leadingFraction]; intros x scale o; [by intros [= <- <- <-]|].
  destruct (is_digit c); [|by intros [= <- <- <-]].
  repeat case_match; intros Hr%IH; cbn; lia.
Qed.

(** A component consumes text: its unit is not empty. *)
Lemma parseComponent_length s v r : parseComponent s = Some (v, r) -> (length r < length s)%nat.
Proof.
  unfold parseComponent. destruct s as [|c s]; [done|]. destruct (negb _); [done|].
  destruct (leadingInt (c :: s) 0) as [[i s1]|] eqn:Ei; [|done]. apply leadingInt_length in Ei.
  cbv zeta. destruct (match s1 with [] => _ | _ => _ end) as [[[f scale] s2] post] eqn:Ef.
  assert (length s2 <= length s1)%nat as H2.
  { destruct s1 as [|d s1']; [by simplify_eq|]. destruct (d =?? x2e); [|by simplify_eq].
    destruct (leadingFraction s1' 0 (f64_of_Z 1) false) as [[f' sc'] s2'] eqn:El.
    apply leadingFraction_length in El. simplify_eq. cbn. lia. }
  destruct (negb _ && negb post); [done|]. destruct (unitText s2) as [u s3] eqn:Eu.
  apply unitText_length in Eu. destruct u as [|b u]; [done|]. cbn in Eu.
  destruct (unitOf _); [|done]. destruct (_ <? _); [done|]. destruct (_ && _); [done|]. intros [= _ <-]. lia.
Qed.

(** The bound on the number of components is never reached. *)
Lemma parseComponents_fuel fuel fuel' s d :
  (length s <= fuel)%nat -> (length s <= fuel')%nat -> parseComponents fuel s d = parseComponents fuel' s d.
Proof.
  revert fuel' s d. induction fuel as [|fuel IH]; intros fuel' s d H H'; destruct s as [|c s].
  1,3: by destruct fuel'.
  - cbn in H. lia.
  - destruct fuel' as [|fuel']; [cbn in H'; lia|]. cbn [parseComponents].
    destruct (parseComponent (c :: s)) as [[v r]|] eqn:E; [|done]. apply parseComponent_length in E.
    cbn in *. destruct (_ <? _); [done|]. apply IH; lia.
Qed.

