(* ===== verification/Startup.v ===== *)
(** Start-up: internal/postgres/config.go (the connection policy and the
    start-up timeout), startup.go (opening the pool and migrating) and
    cmd/ms-oncall-gateway/main.go (the process around them).

    The environment, the pool, the HTTP server and the log are external calls;
    the calls of the migration run are those of Migrations.v. *)

From stdpp Require Import gmap.
From S2P Require Import Prelude Effects GoTime GoErrors Encoding Events Canonical Json.
From S2P Require Import Handler GoDuration Migrations.

(** * Configuration *)

Definition DatabaseURLEnv : bytes := lit "MS_ONCALL_GATEWAY_DATABASE_URL".
Definition DatabaseStartupTimeoutEnv : bytes := lit "MS_ONCALL_GATEWAY_DATABASE_STARTUP_TIMEOUT".
Definition ListenAddressEnv : bytes := lit "MS_ONCALL_GATEWAY_LISTEN_ADDR".
Definition DefaultConnectTimeout : Duration := 5 * Second.
Definition MaximumConnectTimeout : Duration := 30 * Second.
Definition DefaultStartupTimeout : Duration := 2 * Minute.
Definition MaximumStartupTimeout : Duration := 10 * Minute.
Definition requiredTargetSessionAttrs : bytes := lit "read-write".
Definition requiredSSLMode : bytes := lit "verify-full".

(** What the code sets in [*pgxpool.Config]: whether [ValidateConnect] is
    [ValidateConnectTargetSessionAttrsReadWrite], the connect timeout, and the
    timeout of the dialer if it replaced [DialFunc]. *)
Record PoolConfig : Type := mkPoolConfig {
  pc_ReadWrite : bool;
  pc_ConnectTimeout : Duration;
  pc_Dialer : option Duration
}.

(** What the code reads of [*url.URL]. *)
Record URL : Type := mkURL { u_Scheme : bytes; u_Host : bytes; u_RawQuery : bytes }.

(** [strings.Cut] at a byte; without it the second part is empty. *)
Fixpoint cut_at (sep : byte) (s : bytes) : bytes * bytes :=
  match s with
  | [] => ([], [])
  | c :: s => if c =?? sep then ([], s) else let '(a, b) := cut_at sep s in (c :: a, b)
  end.

(** [url.QueryUnescape]. *)
Fixpoint QueryUnescape (s : bytes) : option bytes :=
  match s with
  | [] => Some []
  | c :: s' =>
      if c =?? x25 then
        match s' with
        | h :: l :: s'' =>
            match hexVal h, hexVal l with
            | Some h, Some l => (Zb (16 * h + l) ::.) <$> QueryUnescape s''
            | _, _ => None
            end
        | _ => None
        end
      else ((if c =?? x2b then x20 else c) ::.) <$> QueryUnescape s'
  end.

(** The fields of a query, as the loop of [url.parseQuery] cuts them. *)
Fixpoint queryFields (fuel : nat) (query : bytes) : list bytes :=
  match query, fuel with
  | [], _ | _, O => []
  | _, S fuel => let '(field, rest) := cut_at x26 query in field :: queryFields fuel rest
  end.

(** One field: [None] is an error, [Some None] an empty field. *)
Definition parseField (field : bytes) : option (option (bytes * bytes)) :=
  if bool_decide (x3b ∈ field) then None
  else if field =?? [] then Some None
  else
  let '(key, value) := cut_at x3d field in
  match QueryUnescape key, QueryUnescape value with
  | Some key, Some value => Some (Some (key, value))
  | _, _ => None
  end.

(** [url.ParseQuery]: [None] is an error in any field. *)
Fixpoint parseFields (fields : list bytes) (m : gmap bytes (list bytes)) : option (gmap bytes (list bytes)) :=
  match fields with
  | [] => Some m
  | field :: fields =>
      match parseField field with
      | None => None
      | Some None => parseFields fields m
      | Some (Some (key, value)) => parseFields fields (<[key := default [] (m !! key) ++ [value]]> m)
      end
  end.

Definition ParseQuery (query : bytes) : option (gmap bytes (list bytes)) :=
  parseFields (queryFields (length query) query) ∅.

(** [ParseStartupTimeout]. *)
Definition ParseStartupTimeout (value : bytes) : result Duration :=
  if TrimSpace value =?? [] then Ok DefaultStartupTimeout
  else
  match ParseDuration value with
  | None => Err (safeError ErrConfigInvalid "startup timeout")
  | Some timeout =>
      if (timeout <=? 0) || (MaximumStartupTimeout <? timeout)
      then Err (safeError ErrConfigInvalid "startup timeout")
      else Ok timeout
  end.

(** * Calls *)

Inductive st_op : Type :=
| StGetenv (name : bytes)
| StWithTimeout (timeout : Duration)
| StCancel
| StNewPool (config : PoolConfig)
| StPing
| StClose
| StLog (message : bytes)
| StListen (server : Server)
| StSelect
| StShutdown (timeout : Duration)
| StServerError.

(** [StListen] starts the goroutine that logs and calls [ListenAndServe]; [StSelect] answers its
    error or that the context is done; [StServerError] receives its error. *)
Definition StE : sig := Sig st_op (fun o =>
  match o with
  | StGetenv _ => bytes
  | StNewPool _ | StPing | StShutdown _ | StServerError => option error
  | StSelect => (option error + unit)%type
  | StWithTimeout _ | StCancel | StClose | StLog _ | StListen _ => unit
  end).

(** The calls of the process: migrations, and the others. *)
Abbreviation GwE := (SumE MgE StE).
Definition st_call (o : st_op) : prog GwE (ans StE o) := @call GwE (inr o).
Definition gw_panic {A} : prog GwE A := Call (E := GwE) (inl MgPanic) (fun r => match r : Empty_set with end).

(** [openWithFactory] ([Open]). *)
Definition openWithFactory (config : PoolConfig) : prog GwE (option error) :=
  let! err := st_call (StNewPool config) in
  if is_err err then Ret (Some (safeError ErrConnect "connection"))
  else
  let! err := st_call StPing in
  if is_err err then
    let! _ := st_call StClose in Ret (Some (safeError ErrConnect "connection"))
  else Ret None.

Section Startup.
(** [url.Parse] and [pgxpool.ParseConfig] of the database URL ([None] is an
    error), and the embedded directory. *)
Context (urlParse : bytes -> option URL) (ParseConfig : bytes -> option PoolConfig).
Context (files : option (list DirEntry)).

(** [ParsePoolConfig]. *)
Definition ParsePoolConfig (databaseURL : bytes) : result PoolConfig :=
  let invalid := Err (safeError ErrConfigInvalid "configuration") in
  if TrimSpace databaseURL =?? [] then Err (safeError ErrConfigMissing "configuration")
  else
  match urlParse databaseURL with
  | None => invalid
  | Some parsedURL =>
    if ((u_Scheme parsedURL <>?? lit "postgres") && (u_Scheme parsedURL <>?? lit "postgresql")) ||
       (u_Host parsedURL =?? [])
    then invalid
    else
    match ParseQuery (u_RawQuery parsedURL) with
    | None => invalid
    | Some query =>
      if match query !! lit "target_session_attrs" with
         | Some values => values <>?? [requiredTargetSessionAttrs] | None => false end
      then invalid
      else if default [] (query !! lit "sslmode") <>?? [requiredSSLMode] then invalid
      else
      match ParseConfig databaseURL with
      | None => invalid
      | Some config =>
        let config :=
          if pc_ConnectTimeout config =? 0
          then mkPoolConfig true DefaultConnectTimeout (Some DefaultConnectTimeout)
          else mkPoolConfig true (pc_ConnectTimeout config) (pc_Dialer config) in
        if (pc_ConnectTimeout config <? 0) || (MaximumConnectTimeout <? pc_ConnectTimeout config) then invalid
        else Ok config
      end
    end
  end.

(** [Prepare] with its logger, which may be nil. *)
Definition Prepare (databaseURL : bytes) (logger : bool) : prog GwE (result unit) :=
  match ParsePoolConfig databaseURL with
  | Err e => Ret (Err e)
  | Ok config =>
      let! _ := (if logger then st_call (StLog (lit "database_connecting")) else Ret tt) in
      let! err := openWithFactory config in
      match err with
      | Some e => Ret (Err e)
      | None =>
          let! _ := (if logger then st_call (StLog (lit "database_connected_read_write")) else Ret tt) in
          match EmbeddedMigrations files with
          | None => gw_panic
          | Some migrations =>
              let! err := lift_l (Run MgRequest migrations) in
              match err with
              | Some e => let! _ := st_call StClose in Ret (Err e)
              | None => Ret (Ok tt)
              end
          end
      end
  end.
End Startup.

(** * The process *)

(** [errors.New] of main.go; the texts are distinct. *)
Definition errServerFailed : error := Foreign (plain_foreign 1) false [].
Definition errShutdownFailed : error := Foreign (plain_foreign 2) false [].

(** [serveHTTP]: the handler runs over [UnavailableSink], which is not nil. *)
Definition serveHTTP (address : bytes) : prog GwE (option error) :=
  let! _ := st_call (StListen (NewServer address (NewHandler false))) in
  let! selected := st_call StSelect in
  match selected with
  | inl err => if negb (opt_errors_is err ErrServerClosed) then Ret (Some errServerFailed) else Ret None
  | inr _ =>
      let! _ := st_call (StLog (lit "server_stopping")) in
      let! err := st_call (StShutdown (10 * Second)) in
      if is_err err then Ret (Some errShutdownFailed)
      else
      let! err := st_call StServerError in
      if negb (opt_errors_is err ErrServerClosed) then Ret (Some errServerFailed) else Ret None
  end.

(** [run] of main.go. *)
Definition gateway_run (prepare : bytes -> prog GwE (result unit)) (serve : bytes -> prog GwE (option error))
  : prog GwE (option error) :=
  let! databaseURL := st_call (StGetenv DatabaseURLEnv) in
  let! timeout := st_call (StGetenv DatabaseStartupTimeoutEnv) in
  match ParseStartupTimeout timeout with
  | Err e => Ret (Some e)
  | Ok startupTimeout =>
      let! _ := st_call (StWithTimeout startupTimeout) in
      let! database := prepare databaseURL in
      let! _ := st_call StCancel in
      match database with
      | Err e => Ret (Some e)
      | Ok _ =>
          let! address := st_call (StGetenv ListenAddressEnv) in
          let! err := serve (if address =?? [] then DefaultListenAddress else address) in
          let! _ := st_call StClose in
          Ret err
      end
  end.

(** [failureReason]. *)
Definition failureReason (err : error) : bytes :=
  if errors_is err ErrConfigMissing then lit "database_configuration_missing"
  else if errors_is err ErrConfigInvalid then lit "database_configuration_invalid"
  else if errors_is err ErrConnect then lit "database_unavailable"
  else if errors_is err ErrMigrationLock then lit "database_migration_lock_failed"
  else if errors_is err ErrSchemaAhead then lit "database_schema_ahead"
  else if errors_is err ErrSchemaInvalid then lit "database_schema_invalid"
  else if errors_is err ErrSchemaQuery then lit "database_schema_query_failed"
  else if errors_is err ErrMigrationInterrupted then lit "database_migration_interrupted"
  else if errors_is err ErrMigration then lit "database_migration_failed"
  else lit "runtime_failed".

(** [main]: the exit code, and the reason that is logged. *)
Definition main_outcome (err : option error) : Z * option bytes :=
  match err with None => (0, None) | Some e => (1, Some (failureReason e)) end.
