(* ===== verification/StartupSpec.v ===== *)
(** Properties of start-up: the connection policy, the bounds of the start-up
    timeout, the life of the connection pool, and the failure reasons. *)

From Stdlib Require Import ZifyBool.
From stdpp Require Import gmap.
From S2P Require Import Prelude Effects GoTime GoErrors Encoding Events Canonical Json.
From S2P Require Import Handler GoDuration Migrations MigrationSpec Startup.

(** * The errors of start-up *)

(** The kinds of the errors, with the reason the process reports for each. *)
Definition startup_reasons : list (sentinel * bytes) :=
  [(ErrConfigMissing, lit "database_configuration_missing");
   (ErrConfigInvalid, lit "database_configuration_invalid");
   (ErrConnect, lit "database_unavailable");
   (ErrMigrationLock, lit "database_migration_lock_failed");
   (ErrSchemaAhead, lit "database_schema_ahead");
   (ErrSchemaInvalid, lit "database_schema_invalid");
   (ErrSchemaQuery, lit "database_schema_query_failed");
   (ErrMigrationInterrupted, lit "database_migration_interrupted");
   (ErrMigration, lit "database_migration_failed")].

(** The error is one of these, wrapped with the operation that failed. *)
Definition startup_error (e : error) : Prop :=
  exists kind operation, kind ∈ map fst startup_reasons /\ e = safeError kind operation.

Lemma startup_error_intro kind operation :
  bool_decide (kind ∈ map fst startup_reasons) = true -> startup_error (safeError kind operation).
Proof. intros H%bool_decide_eq_true. by exists kind, operation. Qed.

(** What a program can return, whatever its calls answer. *)
Definition returns {E A} (p : prog E A) (P : A -> Prop) : Prop :=
  keeps (fun (q : unit) (_ : event E) => Some q) tt p (fun a _ => P a).

Lemma returns_bind {E A B} (p : prog E A) (f : A -> prog E B) P :
  (forall a, returns (f a) P) -> returns (bind p f) P.
Proof.
  intros H. unfold returns. induction p as [a|o k IH]; [apply H|]. intros r. exists tt. split; [done|apply IH].
Qed.

Lemma returns_bind_post {E A B} (p : prog E A) (f : A -> prog E B) P Q :
  returns p Q -> (forall a, Q a -> returns (f a) P) -> returns (bind p f) P.
Proof. intros Hp Hf. eapply keeps_bind; [exact Hp|]. by intros a [] Ha; apply Hf. Qed.

Lemma returns_runs {E A} (p : prog E A) P tr a : returns p P -> runs p tr a -> P a.
Proof. intros H Hr. by destruct (keeps_runs _ _ _ _ _ _ H Hr) as (q & _ & Ha). Qed.

Definition run_error (r : option error) : Prop := match r with Some e => startup_error e | None => True end.

Lemma run_error_safe kind operation :
  bool_decide (kind ∈ map fst startup_reasons) = true -> run_error (Some (safeError kind operation)).
Proof. apply startup_error_intro. Qed.

Lemma migrationFailure_error e operation : run_error (Some (migrationFailure e operation)).
Proof. unfold migrationFailure. destruct (isMigrationInterruption e); by apply run_error_safe. Qed.

Lemma returns_rollbackOpen timeout e : run_error (Some e) -> returns (rollbackOpen timeout e) run_error.
Proof.
  intros He. unfold rollbackOpen. apply returns_bind. intros c r. exists tt. split; [done|].
  destruct r as [err|]; [|exact He]. cbn. destruct (errors_is err ErrTxClosed); [exact He|by apply run_error_safe].
Qed.

(** Close the returns of a program by its calls and case distinctions. *)
Ltac returns_steps :=
  repeat first
    [ exact I
    | apply run_error_safe; reflexivity
    | apply migrationFailure_error
    | apply returns_rollbackOpen, migrationFailure_error
    | apply returns_bind; intros ?
    | case_match ].

Lemma returns_apply ctx m : returns (applyMigration ctx m) run_error.
Proof.
  unfold applyMigration, applyMigrationWithRollbackTimeout.
  do 4 (apply returns_bind; intros [e|]; [first [apply migrationFailure_error|apply returns_rollbackOpen, migrationFailure_error]|]).
  exact I.
Qed.

Lemma returns_Inspect ctx ms : returns (Inspect ctx ms) (fun x => run_error x.2).
Proof. unfold Inspect. apply returns_bind. intros [s|e]; [exact I|by apply run_error_safe]. Qed.

Lemma returns_loop ctx ms fuel i : returns (migrateLoop fuel ctx ms i) run_error.
Proof.
  revert i. induction fuel as [|fuel IH]; intros i; cbn [migrateLoop].
  all: destruct (in_CurrentVersion i <? Z.of_nat (length ms)); [|
    eapply returns_bind_post; [apply returns_Inspect|]; intros [f [e|]] He; [exact He|];
    destruct (_ || _); [by apply run_error_safe|]; apply returns_bind; intros ?; exact I].
  - by intros [].
  - destruct (ms !! _) as [next|]; [|by intros []]. destruct (in_CurrentVersion i <? 0); [by intros []|].
    apply returns_bind. intros _. eapply returns_bind_post; [apply returns_apply|]. intros [e|] He; [exact He|].
    apply returns_bind. intros _. eapply returns_bind_post; [apply returns_Inspect|]. intros [i' [e|]] He'; [exact He'|].
    destruct (_ || _); [by apply run_error_safe|apply IH].
Qed.

Lemma returns_runLocked ctx ms : returns (runLocked ctx ms) run_error.
Proof.
  unfold runLocked. eapply returns_bind_post; [apply returns_Inspect|]. intros [i [e|]] He; [exact He|].
  apply returns_bind. intros _. cbv zeta.
  repeat (case_bool_decide; [by apply run_error_safe|]). destruct (_ || _); [apply returns_loop|by apply run_error_safe].
Qed.

Lemma returns_Run ctx ms : returns (Run ctx ms) run_error.
Proof.
  unfold Run, WithMigrationLock. apply returns_bind. intros [e|]; [by apply run_error_safe|].
  apply returns_bind. intros [e|]; [apply returns_bind; intros _; by apply run_error_safe|].
  eapply returns_bind_post; [apply returns_runLocked|]. intros err Herr. unfold finishMigrationConnection.
  destruct (opt_errors_is err ErrMigrationInterrupted); [apply returns_bind; by intros _|].
  apply returns_bind. intros [[]|e]; apply returns_bind; intros _; try exact Herr; destruct err; try exact Herr;
    by apply run_error_safe.
Qed.

(** * The pool *)

(** The pool: not created, created, unusable, usable (with the state of its
    migration connection), serving, closed. *)
Inductive pool_state : Type :=
| PoolNone
| PoolOpened
| PoolFailed
| PoolReady (q : mg_conn)
| PoolServing
| PoolClosed.

(** The protocol of the process; [None] is a violation. *)
Definition pool_protocol (ms : list Migration) (q : pool_state) (e : event GwE) : option pool_state :=
  match q, e with
  | PoolReady c, existT (inl o) a => PoolReady <$> mg_step ms c (@ev MgE o a)
  | q, existT (inr (StGetenv _)) _ | q, existT (inr (StWithTimeout _)) _ | q, existT (inr StCancel) _
  | q, existT (inr (StLog _)) _ => Some q
  | PoolNone, existT (inr (StNewPool config)) err =>
      if pc_ReadWrite config then Some (if is_err err then PoolNone else PoolOpened) else None
  | PoolOpened, existT (inr StPing) err => Some (if is_err err then PoolFailed else PoolReady MgNone)
  | PoolFailed, existT (inr StClose) _ => Some PoolClosed
  | PoolReady MgNone, existT (inr StClose) _ => Some PoolClosed
  | PoolReady MgNone, existT (inr (StListen _)) _ => Some PoolServing
  | PoolServing, existT (inr StSelect) _ | PoolServing, existT (inr (StShutdown _)) _
  | PoolServing, existT (inr StServerError) _ => Some PoolServing
  | PoolServing, existT (inr StClose) _ => Some PoolClosed
  | _, _ => None
  end.

Lemma pool_protocol_migration ms c (o : mg_op) (r : ans MgE o) :
  pool_protocol ms (PoolReady c) (@ev GwE (inl o) r) = PoolReady <$> mg_step ms c (@ev MgE o r).
Proof. by destruct c. Qed.

(** A protocol together with what the program returns. *)
Lemma keeps_returns {E Q A} (step : Q -> event E -> option Q) q (p : prog E A) post P :
  keeps step q p post -> returns p P -> keeps step q p (fun a q' => post a q' /\ P a).
Proof.
  revert q. induction p as [a|o k IH]; intros q Hk Hr; [done|].
  intros r. destruct (Hk r) as (q' & Hs & Hk'), (Hr r) as ([] & _ & Hr'). exists q'. split; [done|by apply IH].
Qed.

Section Pool.
Context (urlParse : bytes -> option URL) (ParseConfig : bytes -> option PoolConfig).
Context (files : option (list DirEntry)).

Context (ms : list Migration) (Hms : ms = default [] (EmbeddedMigrations files)).

Abbreviation pkeeps := (keeps (E := GwE) (pool_protocol ms)).

Lemma pkeeps_call {A} q q' (o : st_op) (f : ans StE o -> prog GwE A) post :
  (forall r, pool_protocol ms q (@ev GwE (inr o) r) = Some q') -> (forall r, pkeeps q' (f r) post) ->
  pkeeps q (bind (st_call o) f) post.
Proof. intros Hs Hk r. exists q'. split; [apply Hs|apply Hk]. Qed.

Lemma pkeeps_answer {A} q (o : st_op) (f : ans StE o -> prog GwE A) post :
  (forall r, exists q', pool_protocol ms q (@ev GwE (inr o) r) = Some q' /\ pkeeps q' (f r) post) ->
  pkeeps q (bind (st_call o) f) post.
Proof. done. Qed.

(** The migration run keeps the protocol of its connection. *)
Lemma pkeeps_lift {A} (p : prog MgE A) c post :
  keeps (mg_step ms) c p post ->
  pkeeps (PoolReady c) (lift_l (F := StE) p) (fun a q => exists c', q = PoolReady c' /\ post a c').
Proof.
  revert c. induction p as [a|o k IH]; intros c H; cbn.
  - eauto.
  - intros r. destruct (H r) as (c' & Hs & Hk). exists (PoolReady c'). split; [|by apply IH].
    refine (eq_trans (pool_protocol_migration _ c o r) _). by rewrite Hs.
Qed.

(** What the preparation leaves: a usable pool whose connections are all
    returned, or no open pool and one of the start-up errors. *)
Definition prepared (r : result unit) (q : pool_state) : Prop :=
  match r with
  | Ok _ => q = PoolReady MgNone
  | Err e => (q = PoolNone \/ q = PoolClosed) /\ startup_error e
  end.

Lemma ParsePoolConfig_error url e : ParsePoolConfig urlParse ParseConfig url = Err e -> startup_error e.
Proof.
  unfold ParsePoolConfig. repeat case_match; intros [= <-]; by apply startup_error_intro.
Qed.

Lemma ParsePoolConfig_readwrite url c : ParsePoolConfig urlParse ParseConfig url = Ok c -> pc_ReadWrite c = true.
Proof. unfold ParsePoolConfig. repeat case_match; intros [= <-]; done. Qed.

Lemma pkeeps_Prepare url logger : pkeeps PoolNone (Prepare urlParse ParseConfig files url logger) prepared.
Proof.
  unfold Prepare. destruct (ParsePoolConfig urlParse ParseConfig url) as [config|e] eqn:Ec.
  2:{ split; [by left|by eapply ParsePoolConfig_error]. }
  apply ParsePoolConfig_readwrite in Ec.
  apply keeps_bind with (mid := fun _ q => q = PoolNone); [destruct logger; [intros r; by exists PoolNone|done]|].
  intros _ q ->. unfold openWithFactory.
  eapply keeps_bind with (mid := fun err q =>
    match err with None => q = PoolReady MgNone | Some e => (q = PoolNone \/ q = PoolClosed) /\ startup_error e end).
  { apply pkeeps_answer. intros err. cbn. rewrite Ec. eexists. split; [done|]. destruct (is_err err).
    { split; [by left|by apply startup_error_intro]. }
    apply pkeeps_answer. intros err'. eexists. split; [done|]. destruct (is_err err'); [|done].
    eapply pkeeps_call; [done|intros _]. split; [by right|by apply startup_error_intro]. }
  intros [e|] q Hq; [exact Hq|subst q].
  apply keeps_bind with (mid := fun _ q => q = PoolReady MgNone); [destruct logger; [intros r; by eexists|done]|].
  intros _ q ->. destruct (EmbeddedMigrations files) as [migrations|] eqn:Em; [|by intros []].
  assert (migrations = ms) as -> by (by rewrite Hms).
  eapply keeps_bind; [apply pkeeps_lift|].
  { apply keeps_returns; [apply (mkeeps_Run MgRequest ms)|apply returns_Run]. }
  intros err q (c & -> & -> & Herr). destruct err as [e|]; [|done].
  eapply pkeeps_call; [done|intros _]. split; [by right|exact Herr].
Qed.

Lemma pkeeps_serve address : pkeeps (PoolReady MgNone) (serveHTTP address) (fun _ q => q = PoolServing).
Proof.
  unfold serveHTTP. eapply pkeeps_call; [done|intros _]. eapply pkeeps_call; [done|intros [err|[]]].
  { by destruct (negb _). }
  eapply pkeeps_call; [done|intros _]. eapply pkeeps_call; [done|intros err]. destruct (is_err err); [done|].
  eapply pkeeps_call; [done|intros err']. by destruct (negb _).
Qed.

Lemma pkeeps_gateway :
  pkeeps PoolNone (gateway_run (fun url => Prepare urlParse ParseConfig files url true) serveHTTP)
    (fun _ q => q = PoolNone \/ q = PoolClosed).
Proof.
  unfold gateway_run. eapply pkeeps_call; [done|intros url]. eapply pkeeps_call; [done|intros text].
  destruct (ParseStartupTimeout text) as [t|e]; [|by left]. eapply pkeeps_call; [done|intros _].
  eapply keeps_bind; [apply pkeeps_Prepare|]. intros [[]|e] q Hq; cbn in Hq.
  - subst q. eapply pkeeps_call; [done|intros _]. eapply pkeeps_call; [done|intros address].
    eapply keeps_bind; [apply pkeeps_serve|]. intros err q ->. eapply pkeeps_call; [done|intros _]. by right.
  - destruct Hq as [Hq _]. apply pkeeps_answer. intros r. exists q. split; [by destruct Hq as [-> | ->]|done].
Qed.
End Pool.

(** * The server is started last *)

(** Calls that do not start the server. *)
Definition not_listening (o : op GwE) : Prop := match o with inr (StListen _) => False | _ => True end.

Lemma calls_only_runs {E A} (ok : op E -> Prop) (p : prog E A) tr a (o : op E) (r : ans E o) :
  calls_only ok p -> runs p tr a -> ev o r ∈ tr -> ok o.
Proof.
  revert tr. induction p as [x|o' k IH]; intros tr; cbn.
  - intros _ [-> _] []%elem_of_nil.
  - intros [Ho Hk] (r' & tr' & -> & Hr) [E'|Hin]%elem_of_cons; [|by eapply IH].
    by apply (f_equal (@projT1 _ _)) in E'; cbn in E'; subst o'.
Qed.

Lemma lift_not_listening {A} (p : prog MgE A) : calls_only (E := GwE) not_listening (lift_l p).
Proof. induction p as [a|o k IH]; cbn; [done|]. split; [done|]. intros r. apply IH. Qed.

Lemma Prepare_not_listening urlParse ParseConfig files url logger :
  calls_only (E := GwE) not_listening (Prepare urlParse ParseConfig files url logger).
Proof.
  unfold Prepare. destruct (ParsePoolConfig _ _ _); [|done].
  apply calls_only_bind; [by destruct logger|intros _]. apply calls_only_bind.
  { split; [done|intros err]. cbn. destruct (is_err err); [done|]. split; [done|intros err']. by destruct (is_err err'). }
  intros [e|]; [done|]. apply calls_only_bind; [by destruct logger|intros _].
  destruct (EmbeddedMigrations files); [|by split].
  apply calls_only_bind; [apply lift_not_listening|]. by intros [e|].
Qed.

(** What a successful preparation did. *)
Lemma Prepare_inv urlParse ParseConfig files url logger tr :
  runs (Prepare urlParse ParseConfig files url logger) tr (Ok tt) ->
  exists config ms mtr, ParsePoolConfig urlParse ParseConfig url = Ok config /\
    EmbeddedMigrations files = Some ms /\ runs (Run MgRequest ms) mtr None /\
    (forall (o : mg_op) (r : ans MgE o), @ev MgE o r ∈ mtr -> @ev GwE (inl o) r ∈ tr).
Proof.
  unfold Prepare. destruct (ParsePoolConfig _ _ _) as [config|e]; [|by intros [_ [=]]].
  intros (t1 & t2 & _ & -> & _ & H)%runs_bind. apply runs_bind in H as (t3 & t4 & err & -> & _ & H).
  destruct err as [e|]; [by destruct H as [_ [=]]|].
  apply runs_bind in H as (t5 & t6 & _ & -> & _ & H).
  destruct (EmbeddedMigrations files) as [ms|]; [|by destruct H as ([] & _)].
  apply runs_bind in H as (t7 & t8 & err & -> & Hrun & H).
  apply runs_lift_l in Hrun as (mtr & Hrun & Hin). destruct err as [e|].
  { by destruct H as (r & t9 & -> & _ & [=]). }
  exists config, ms, mtr. split_and!; [done|done|done|]. intros o r Ho%Hin. rewrite !elem_of_app. auto.
Qed.

(** * Configuration *)

(** The connection policy: a PostgreSQL URL with a host, verified TLS, and no
    other target than read-write servers. *)
Definition policy (url : URL) : Prop :=
  (u_Scheme url = lit "postgres" \/ u_Scheme url = lit "postgresql") /\ u_Host url <> [] /\
  exists query, ParseQuery (u_RawQuery url) = Some query /\
    query !! lit "sslmode" = Some [lit "verify-full"] /\
    (query !! lit "target_session_attrs" = None \/ query !! lit "target_session_attrs" = Some [lit "read-write"]).

(** The policy as the tests of [ParsePoolConfig]. *)
Lemma policy_tests url :
  policy url <->
  (((u_Scheme url <>?? lit "postgres") && (u_Scheme url <>?? lit "postgresql")) || (u_Host url =?? [])) = false /\
  exists query, ParseQuery (u_RawQuery url) = Some query /\
    match query !! lit "target_session_attrs" with
    | Some values => values <>?? [requiredTargetSessionAttrs] | None => false end = false /\
    (default [] (query !! lit "sslmode") <>?? [requiredSSLMode]) = false.
Proof.
  unfold policy. rewrite orb_false_iff, andb_false_iff, !negb_false_iff, !bool_decide_eq_true, bool_decide_eq_false.
  rewrite (and_assoc (_ \/ _)). apply and_iff_compat_l. split; intros (q & Hq & H1 & H2); exists q; (split; [done|]).
  - rewrite H1, negb_false_iff, bool_decide_eq_true. split; [|done]. by destruct H2 as [-> | ->].
  - rewrite negb_false_iff, bool_decide_eq_true in H2. split.
    + by destruct (q !! lit "sslmode"); cbn in H2; subst.
    + destruct (q !! lit "target_session_attrs"); [right|by left].
      rewrite negb_false_iff, bool_decide_eq_true in H1. by subst.
Qed.

(** The effective configuration of a parsed one. *)
Definition effective (config : PoolConfig) : PoolConfig :=
  if pc_ConnectTimeout config =? 0 then mkPoolConfig true (5 * Second) (Some (5 * Second))
  else mkPoolConfig true (pc_ConnectTimeout config) (pc_Dialer config).

(** (C36) The connection policy. A database URL is accepted exactly if it is not
    blank, is a PostgreSQL URL with a host, asks for verified TLS exactly once,
    names no other session target than read-write, is accepted by the driver,
    and has a connect timeout of at most 30 seconds, 5 seconds being set where
    it has none; the pool then only connects to read-write servers. A blank URL
    is reported as missing and every other refusal as invalid. *)
Theorem ParsePoolConfig_decides (urlParse : bytes -> option URL) (ParseConfig : bytes -> option PoolConfig)
    (databaseURL : bytes) :
  (forall config, ParsePoolConfig urlParse ParseConfig databaseURL = Ok config <->
     TrimSpace databaseURL <> [] /\
     exists url parsed, urlParse databaseURL = Some url /\ policy url /\ ParseConfig databaseURL = Some parsed /\
       config = effective parsed /\ 0 < pc_ConnectTimeout config <= 30 * Second) /\
  (forall config, ParsePoolConfig urlParse ParseConfig databaseURL = Ok config -> pc_ReadWrite config = true) /\
  (forall e, ParsePoolConfig urlParse ParseConfig databaseURL = Err e ->
     e = safeError (if TrimSpace databaseURL =?? [] then ErrConfigMissing else ErrConfigInvalid) "configuration").
Proof.
  split_and!; [|by apply ParsePoolConfig_readwrite|].
  2:{ unfold ParsePoolConfig. intros e. destruct (_ =?? []); [by intros [= <-]|]. repeat case_match; by intros [= <-]. }
  intros config. unfold ParsePoolConfig. case_bool_decide as Hb; [split; [done|by intros []]|].
  destruct (urlParse databaseURL) as [url|]; [|split; [done|by intros (_ & ? & ? & ? & _)]].
  assert (forall P, (exists url' parsed, Some url = Some url' /\ policy url' /\ P url' parsed) ->
    policy url /\ exists parsed : PoolConfig, P url parsed) as Hurl.
  { intros P (url' & parsed & [= <-] & Hp & H). eauto. }
  destruct (_ || _) eqn:E1.
  { split; [done|]. intros [_ [[Hp _]%policy_tests _]%Hurl]. congruence. }
  destruct (ParseQuery (u_RawQuery url)) as [q|] eqn:Eq.
  2:{ split; [done|]. intros [_ [[_ (q & Hq & _)]%policy_tests _]%Hurl]. congruence. }
  destruct (match q !! _ with Some _ => _ | None => _ end) eqn:E2.
  { split; [done|]. intros [_ [[_ (q' & Hq & H2 & _)]%policy_tests _]%Hurl].
    rewrite Eq in Hq. injection Hq as <-. congruence. }
  destruct (_ <>?? [requiredSSLMode]) eqn:E3.
  { split; [done|]. intros [_ [[_ (q' & Hq & _ & H3)]%policy_tests _]%Hurl].
    rewrite Eq in Hq. injection Hq as <-. congruence. }
  assert (policy url) as Hp by (apply policy_tests; eauto).
  destruct (ParseConfig databaseURL) as [parsed|]; [|split; [done|by intros (_ & ? & ? & _ & _ & ? & _)]].
  cbv zeta. change (if pc_ConnectTimeout parsed =? 0
     then mkPoolConfig true DefaultConnectTimeout (Some DefaultConnectTimeout)
     else mkPoolConfig true (pc_ConnectTimeout parsed) (pc_Dialer parsed)) with (effective parsed).
  assert (pc_ConnectTimeout (effective parsed) <> 0) as Hne.
  { unfold effective. destruct (Z.eqb_spec (pc_ConnectTimeout parsed) 0); cbn [pc_ConnectTimeout]; [done|done]. }
  unfold MaximumConnectTimeout.
  destruct ((pc_ConnectTimeout (effective parsed) <? 0) || (30 * Second <? pc_ConnectTimeout (effective parsed))) eqn:E4.
  - split; [done|]. intros (_ & url' & parsed' & _ & _ & [= <-] & -> & Ht). lia.
  - split; [|by intros (_ & url' & parsed' & _ & _ & [= <-] & -> & Ht)].
    intros [= <-]. split; [done|]. exists url, parsed. split_and!; try done; lia.
Qed.

(** The start-up timeout is at most ten minutes and positive: a blank text
    means two minutes, any other text is a duration in these bounds, and every
    other text is refused as invalid configuration. *)
Theorem ParseStartupTimeout_bounds (value : bytes) :
  match ParseStartupTimeout value with
  | Ok timeout =>
      0 < timeout <= 10 * Minute /\
      (if TrimSpace value =?? [] then timeout = 2 * Minute else ParseDuration value = Some timeout)
  | Err e =>
      e = safeError ErrConfigInvalid "startup timeout" /\ TrimSpace value <> [] /\
      forall timeout, ParseDuration value = Some timeout -> ~ 0 < timeout <= 10 * Minute
  end.
Proof.
  unfold ParseStartupTimeout, MaximumStartupTimeout. case_bool_decide as Hb; [by split|].
  destruct (ParseDuration value) as [t|]; [|done]. destruct (_ || _) eqn:E.
  - split; [done|]. split; [done|]. intros t' [= <-]. lia.
  - split; [lia|done].
Qed.

(** (C22) The life of the connection pool. Whatever the environment, the pool,
    the migrations and the server answer, the process creates a pool only for
    a configuration that connects to read-write servers, uses it only after a
    successful ping, never closes it or starts the server while the migration
    connection is out, and ends with no pool or with the pool closed exactly
    once. The server is started only if the configured URL satisfies the
    policy and a migration run over the embedded migrations succeeded. *)
Theorem startup_pool (urlParse : bytes -> option URL) (ParseConfig : bytes -> option PoolConfig)
    (files : option (list DirEntry)) (tr : trace GwE) (res : option error)
    (Hrun : runs (gateway_run (fun url => Prepare urlParse ParseConfig files url true) serveHTTP) tr res) :
  (exists q, proto_run (pool_protocol (default [] (EmbeddedMigrations files))) PoolNone tr = Some q /\
     (q = PoolNone \/ q = PoolClosed)) /\
  (forall server, @ev GwE (inr (StListen server)) tt ∈ tr ->
     exists url config ms mtr, @ev GwE (inr (StGetenv DatabaseURLEnv)) url ∈ tr /\
       ParsePoolConfig urlParse ParseConfig url = Ok config /\ EmbeddedMigrations files = Some ms /\
       runs (Run MgRequest ms) mtr None /\
       (forall (o : mg_op) (r : ans MgE o), @ev MgE o r ∈ mtr -> @ev GwE (inl o) r ∈ tr)).
Proof.
  split.
  { by destruct (keeps_runs _ _ _ _ _ _ (pkeeps_gateway urlParse ParseConfig files _ eq_refl) Hrun) as (q & Hq & H); eauto. }
  intros server Hin. unfold gateway_run in Hrun. destruct Hrun as (url & t1 & -> & text & t2 & -> & Hrun).
  assert (@ev GwE (inr (StListen server)) tt ∈ t2) as Hin2.
  { do 2 (apply elem_of_cons in Hin as [E|Hin]; [by apply (f_equal (@projT1 _ _)) in E|]). exact Hin. }
  clear Hin. cbn [bind] in Hrun. destruct (ParseStartupTimeout text) as [t|e].
  2:{ destruct Hrun as [-> _]. by apply elem_of_nil in Hin2. }
  destruct Hrun as ([] & t3 & -> & Hrun).
  apply elem_of_cons in Hin2 as [E|Hin]; [by apply (f_equal (@projT1 _ _)) in E|].
  cbn [bind] in Hrun. apply runs_bind in Hrun as (t4 & t5 & database & -> & Hprep & Hrun).
  apply elem_of_app in Hin as [Hin|Hin].
  { exfalso. exact (calls_only_runs _ _ _ _ _ _ (Prepare_not_listening urlParse ParseConfig files url true) Hprep Hin). }
  destruct database as [[]|e].
  2:{ destruct Hrun as ([] & t6 & -> & -> & _).
      apply list_elem_of_singleton in Hin. by apply (f_equal (@projT1 _ _)) in Hin. }
  apply Prepare_inv in Hprep as (config & ms & mtr & Hc & Hms & Hmtr & Hsub).
  exists url, config, ms, mtr. split_and!; [apply list_elem_of_here|done|done|done|].
  intros o r Ho%Hsub. do 3 apply list_elem_of_further. apply elem_of_app. by left.
Qed.

(** (C38) Every failure of the preparation is one of nine kinds, and the reason
    that is logged determines the kind: no failure is reported as another, an
    interrupted migration in particular not as a failed one, and none as the
    unspecific runtime failure. *)
Theorem startup_failures (urlParse : bytes -> option URL) (ParseConfig : bytes -> option PoolConfig)
    (files : option (list DirEntry)) (url : bytes) (logger : bool) (tr : trace GwE) (e : error)
    (Hrun : runs (Prepare urlParse ParseConfig files url logger) tr (Err e)) :
  exists kind operation, e = safeError kind operation /\ (kind, failureReason e) ∈ startup_reasons /\
    failureReason e <> lit "runtime_failed" /\
    (forall kind', (kind', failureReason e) ∈ startup_reasons -> kind' = kind).
Proof.
  destruct (keeps_runs _ _ _ _ _ _ (pkeeps_Prepare urlParse ParseConfig files _ eq_refl url logger) Hrun)
    as (q & _ & _ & kind & operation & Hk & ->).
  exists kind, operation. split; [done|].
  assert (Forall (fun kind => (kind, failureReason (safeError kind operation)) ∈ startup_reasons /\
    failureReason (safeError kind operation) <> lit "runtime_failed" /\
    Forall (fun p => p.2 = failureReason (safeError kind operation) -> p.1 = kind) startup_reasons)
    (map fst startup_reasons)) as Hall.
  { repeat apply Forall_cons_2; try apply Forall_nil_2; (split; [apply (bool_decide_eq_true_1 _); vm_compute; reflexivity|]);
      (split; [vm_compute; discriminate|]); repeat apply Forall_cons_2; try apply Forall_nil_2; by vm_compute. }
  rewrite Forall_forall in Hall. destruct (Hall _ Hk) as (H1 & H2 & H3). split; [exact H1|]. split; [exact H2|].
  intros kind' Hin. rewrite Forall_forall in H3. by apply (H3 _ Hin).
Qed.

(** * A concrete run *)

Definition sample_url_text : bytes := lit "postgres://db/gw?sslmode=verify-full".

Definition sample_urlParse (s : bytes) : option URL :=
  if s =?? sample_url_text then Some (mkURL (lit "postgres") (lit "db") (lit "sslmode=verify-full")) else None.

Definition sample_ParseConfig (s : bytes) : option PoolConfig := Some (mkPoolConfig false 0 None).

Definition sample_config : PoolConfig := mkPoolConfig true (5 * Second) (Some (5 * Second)).

Lemma sample_config_parsed : ParsePoolConfig sample_urlParse sample_ParseConfig sample_url_text = Ok sample_config.
Proof. vm_compute. reflexivity. Qed.

(** The database does not answer the ping. *)
Definition sample_prepare : trace GwE :=
  [@ev GwE (inr (StLog (lit "database_connecting"))) tt; @ev GwE (inr (StNewPool sample_config)) None;
   @ev GwE (inr StPing) (Some (Sentinel DeadlineExceeded)); @ev GwE (inr StClose) tt].

Lemma sample_prepare_runs :
  runs (Prepare sample_urlParse sample_ParseConfig (Some sample_files) sample_url_text true) sample_prepare
    (Err (safeError ErrConnect "connection")).
Proof.
  unfold Prepare. rewrite sample_config_parsed.
  answer tt. answer (@None error). answer (Some (Sentinel DeadlineExceeded)). answer tt. split; reflexivity.
Qed.

Definition sample_startup : trace GwE :=
  [@ev GwE (inr (StGetenv DatabaseURLEnv)) sample_url_text; @ev GwE (inr (StGetenv DatabaseStartupTimeoutEnv)) (lit "90s");
   @ev GwE (inr (StWithTimeout (90 * Second))) tt] ++ sample_prepare ++ [@ev GwE (inr StCancel) tt].

Lemma startup_pool_witness :
  exists q, proto_run (pool_protocol sample_migrations) PoolNone sample_startup = Some q /\ (q = PoolNone \/ q = PoolClosed).
Proof.
  apply (startup_pool sample_urlParse sample_ParseConfig (Some sample_files) sample_startup
    (Some (safeError ErrConnect "connection"))).
  answer sample_url_text. answer (lit "90s"). answer tt.
  answer tt. answer (@None error). answer (Some (Sentinel DeadlineExceeded)). answer tt. answer tt. split; reflexivity.
Defined.

Lemma startup_failures_witness :
  exists kind, (kind, failureReason (safeError ErrConnect "connection")) ∈ startup_reasons.
Proof.
  destruct (startup_failures sample_urlParse sample_ParseConfig (Some sample_files) sample_url_text true sample_prepare _
    sample_prepare_runs) as (kind & operation & _ & H & _).
  exists kind. exact H.
Defined.
